(* ===== verification/_CoqProject ===== *)
-Q . S2P
Prelude.v
Intset.v
Util.v
Glob.v
Adlist.v
Dict.v
DictScan.v
Lzf.v
Listpack.v
ListpackOps.v
ListpackSpec.v
Skiplist.v
SkiplistOps.v
SkiplistSpec.v
SortedSet.v
Bitops.v
Sds.v
SdsText.v
Crc.v
Rio.v
AofFile.v
AofManifest.v
AofFs.v
Aof.v
AofDurable.v
