(* ===== verification/Prelude.v ===== *)
(** * Data structures and persistence of the Redis server

    The repository is a booking back end (a TypeScript application under
    src/src) that stores its sessions, locks and caches in a Redis server whose
    source it carries along (src/redis-7.2.4).  This development verifies parts
    of that server, from its C code under src/redis-7.2.4/src: the containers
    and encodings in which it keeps every key, the algorithms on them, and the
    append only file that makes the data survive the process.

    ** The parts and their files

    - [Prelude] (this file): machine integers with their wrap-around, byte
      buffers with bounds, little-endian encodings, the option monad's helper
      lemmas and tactics.
    - [Intset]: intset.c, sets of integers as a sorted array of 16, 32 or 64-bit
      values in one block of bytes, with upgrades of the encoding.
    - [Util]: util.c, the conversions between integers and decimal text
      ([string2ll], [ll2string] and their relatives), memory units, fixed
      point printing.
    - [Glob]: util.c, the glob matcher [stringmatchlen].
    - [Adlist]: adlist.c, doubly linked lists on a store of nodes.
    - [Dict], [DictScan]: dict.c and dict.h, hash tables with incremental
      rehashing, and the stateless cursor scan over them.
    - [Lzf]: lzf_c.c and lzf_d.c, the compressor and the decompressor.
    - [Listpack] (definitions), [ListpackOps] (lemmas), [ListpackSpec]
      (theorems): listpack.c, lists of strings and integers in one block of
      bytes.
    - [Skiplist] (definitions), [SkiplistOps] and [SkiplistSpec] (lemmas),
      [SortedSet] (theorems): t_zset.c, the skip lists of sorted sets.
    - [Bitops]: bitops.c, bit counting and searching, bit fields and BITFIELD.
    - [Sds], [SdsText]: sds.c, sds.h, dynamic strings on the bytes of their
      blocks with all header types, and the functions that split, join, quote,
      parse and format text.
    - [Crc]: crc16.c, crc64.c, crcspeed.c, the two checksums and the tables of
      the fast one.  [Rio]: rio.c and rio.h, reading and writing streams in
      chunks with a checksum, on a memory buffer.
    - [AofFile]: aof.c, the text of the append only file ([feed_text], the calls
      of [propagatePendingCommands] of server.c) and its loader
      [loadSingleAppendOnlyFile] with MULTI, EXEC and SELECT.
    - [AofManifest]: aof.c, the manifest that lists the files of the log, its
      text and parser, the names of new files, the history list, and the delay
      between automatic rewrites.
    - [AofFs]: what aof.c uses of the operating system: a file system with
      names, files and descriptors, system calls whose outcome the environment
      chooses, programs over them, and a logic for programs that may be stopped
      at every call.
    - [Aof] (definitions), [AofDurable] (theorems): aof.c and server.c, flushing,
      the background rewrite and its completion, deletion of old files, the
      switch of the log on and off, and the start of the server, as programs
      over [AofFs].  The record [server] holds the fields of [struct
      redisServer] that these functions use.

    Intsets, listpacks, dictionaries and skip lists are the encodings of the
    Redis types set, list, hash and sorted set; the glob matcher and the number
    conversions are called by the commands on them; a listpack stores a string
    that is a canonical number as an integer through [string2ll] and
    [ll2string] (so [Listpack] uses [Util], as BITFIELD's argument parsing in
    [Bitops] does); LZF compresses listpacks and strings in dumps.  The log is
    made of sds strings and numbers in decimal, the manifest is printed with
    [sdscatrepr] and read with [sdssplitargs], so the theorems about them use
    [Sds], [SdsText] and [Util].

    ** How the code is modelled

    A C integer is a [Z] and every operation that can leave its type is
    written with the wrap-around of that type ([u8] .. [i64]).  A buffer is
    the list of its cells; reading or writing outside it is [None], as are
    failed assertions and following NULL or a freed node.  So "the result is
    [Some]" says that the code does not run into undefined behaviour, and the
    theorems state it.  Linked structures live in a store from pointers to
    nodes.  A definition has the name of the C function it translates; the
    loops of a function are definitions of their own with the name of the
    function or of what they do.

    Code the server calls but does not contain is a parameter: the allocator's
    usable sizes and uninitialised bytes ([Listpack]), the type-specific
    callbacks of a dictionary with the laws its users promise (class [DictTypeOk]
    in [Dict]), the comparisons of doubles with what IEEE 754 says of them
    (classes [Score] and [ScoreLaws] in [Skiplist]), random numbers, the address
    of a buffer where alignment matters ([Bitops]), and for the append only file
    the dataset with the effect of a command ([exec]), the command table
    ([lookup]), and the snapshot format of rdb.c ([dump], [rdb_load]), with the
    record [setting] of [AofDurable] saying what is used of them.  The host is
    little-endian with 64-bit longs.

    The environment of the append only file may fail any system call, write any
    part of a buffer and stop the process at any call, except as [fair] and
    [fair_rewrite] of [AofDurable] say: the fsync of the directory and [stat] do
    not fail, a short write is cut back only through a descriptor with O_APPEND,
    with transactions in the log writes are all or nothing, and the flush at the
    start of a rewrite succeeds.  The examples at the end of [AofDurable] and
    [AofFile.torn_transaction_drops] show that the code does not keep its data
    without these provisos.  The death of the process is modelled, not a power
    failure: what was written stays in the files.  Annotations with timestamps
    are off and truncated files may be loaded.

    Loops without a structural argument take fuel.  The fuel is part of the
    definition and large enough: the number of bytes of the buffer, of nodes in
    the store, or of bits of a word; for the loader and the loops that write a
    buffer, its length, since every round takes at least one byte.  The theorems
    conclude [Some], so they include that the fuel never runs out.

    ** What is shown

    - Refinement: sequences of operations on the bytes or nodes do what they do
      on the abstract value.  [Dict.dict_refines_assoc] (association list),
      [ListpackSpec.lp_refines_list] (list of strings),
      [SortedSet.zsl_refines_sorted_list] (sorted list of pairs),
      [Adlist.list_ops_refine] (sequence), [Sds.sds_refines_chars]
      (characters); [Intset] has one theorem for each
      operation (sorted list of integers).
    - Durability of the append only file: after any history of executed units,
      flushes, rewrites, failures and deaths of the process within the provisos
      above a start recovers a prefix of the executed units with all flushed ones
      ([AofDurable.aof_durable]), it completes when no call fails and no write is
      interrupted for ever ([AofDurable.aof_restarts]), and no operation of a
      running server fails an assertion ([AofDurable.aof_running]).  The parts:
      the log is replayed to the dataset it was written for, a torn command
      outside a transaction is cut ([AofFile]), the files of a manifest are read
      back as they were written, with counters taken from them, and its history
      files are never live ones ([AofManifest]).
    - Invariants: every operation keeps the representation ([wf], [lp_rep],
      [zsl_ok], [dict_ok], [sds_inv], [am_inv], [up]), which is part of the
      statements above.
    - Liveness: [AofDurable.aof_restarts], and automatic rewrites are never
      delayed for more than an hour ([AofManifest.rewrite_limit_live]).
    - Safety on untrusted bytes: [ListpackSpec.lpValidateIntegrity_correct],
      [Intset.intsetValidateIntegrity_correct], [Lzf.lzf_decompress_correct].
    - Round trips: integers and text, listpack entries, LZF blocks, bit fields,
      ranks and positions of a skip list, quoted arguments and their parser, the
      log and the manifest.
    - Equivalence of optimised code with a definition: the glob matcher with
      its skipping, the bit loops over words, [lpFind], the range functions of
      skip lists, the checksum over words ([Crc.crc64_speed_correct]).
    - Termination: rehashing, the cursor scan, [zslFree], the argument parser; and
      the completeness of the scan while the table is resized
      ([DictScan.dictScan_complete]).
    - Error paths and limits: full listpacks, buffers that are too small,
      integers out of range, saturating and wrapping bit fields.
    - Where the code does not do what it is meant to, the theorems say which
      inputs they leave out, and an example or lemma beside them shows what the
      code does there: intsets of 2^29 members, saturating SETs far below an
      integer field, patterns on the empty string, single octets given to the
      compressor, single quotes in the name of the log, and the failures of
      system calls listed above.

    ** What is not modelled

    The commands, the key space, networking, replication, snapshots (rdb.c), the
    cluster and Sentinel, scripting and modules: they are mostly input and
    output around these structures.  Radix trees, quicklists, streams and
    HyperLogLog are left out for their size.  Of the modelled files: the iterators,
    random sampling, defragmentation and statistics of dict.c, the random
    sampling of listpack.c, the floating point and file system helpers of
    util.c, the listpack encoding and the commands of t_zset.c, the commands of
    bitops.c other than BITFIELD's operations, the file and network back ends of
    rio.c, and in aof.c the rewriting of values as commands, statistics,
    replication offsets and the command BGREWRITEAOF; the theorems of
    [AofDurable] are about a server whose log stays on, so [stopAppendOnly],
    [startAppendOnly] and the upgrade of an old log are definitions only.  Memory
    is not exhausted (zmalloc aborts the process), and the TypeScript application
    and the bundled libraries under deps/ are outside this development. *)

From stdpp Require Export base list numbers option gmap sorting.
From Stdlib Require Export ZArith Lia.

#[global] Open Scope Z_scope.

Declare Scope redis_scope.
Delimit Scope redis_scope with redis.
#[global] Open Scope redis_scope.

(** ** Machine integers

    A C integer is a [Z]; every operation that can leave the range of its C
    type is written with the wrap-around of that type. *)

(** Unsigned [w]-bit wrap-around. *)
Definition uwrap (w z : Z) : Z := z mod 2 ^ w.

(** Signed [w]-bit (two's complement) wrap-around. *)
Definition swrap (w z : Z) : Z := (z + 2 ^ (w - 1)) mod 2 ^ w - 2 ^ (w - 1).

Definition u8 := uwrap 8.
Definition u16 := uwrap 16.
Definition u32 := uwrap 32.
Definition u64 := uwrap 64.
Definition i16 := swrap 16.
Definition i32 := swrap 32.
Definition i64 := swrap 64.

Definition INT16_MIN : Z := -32768.
Definition INT16_MAX : Z := 32767.
Definition INT32_MIN : Z := -2147483648.
Definition INT32_MAX : Z := 2147483647.
Definition UINT32_MAX : Z := 4294967295.
Definition LLONG_MIN : Z := -9223372036854775808.
Definition LLONG_MAX : Z := 9223372036854775807.
Definition ULLONG_MAX : Z := 18446744073709551615.
Definition SIZE_MAX : Z := 18446744073709551615.

(** [x] is a value of the signed / unsigned [w]-bit type. *)
Definition in_i (w x : Z) : Prop := - 2 ^ (w - 1) <= x < 2 ^ (w - 1).
Definition in_u (w x : Z) : Prop := 0 <= x < 2 ^ w.

(** ** Byte buffers

    A block of memory is the list of its bytes, each a [Z] in [0, 256).  A read
    or a write outside the block is undefined behaviour in C: it is [None]
    here, so a theorem that says that an operation returns [Some] says that the
    operation stays inside its block. *)

Abbreviation bytes := (list Z).

Definition byte_ok (b : Z) : Prop := 0 <= b < 256.
Abbreviation bytes_ok := (Forall byte_ok).

Definition zlen {A} (l : list A) : Z := Z.of_nat (length l).

(** [n] bytes (or array cells) at offset [off]. *)
Definition slice {A} (m : list A) (off n : Z) : list A :=
  take (Z.to_nat n) (drop (Z.to_nat off) m).

(** [memcpy(dst, m + off, n)]. *)
Definition mem_read {A} (m : list A) (off n : Z) : option (list A) :=
  if decide (0 <= off /\ 0 <= n /\ off + n <= zlen m)
  then Some (slice m off n) else None.

Definition splice {A} (m : list A) (off : Z) (bs : list A) : list A :=
  take (Z.to_nat off) m ++ bs ++ drop (Z.to_nat off + length bs) m.

(** [memcpy(m + off, bs, len(bs))]. *)
Definition mem_write {A} (m : list A) (off : Z) (bs : list A) : option (list A) :=
  if decide (0 <= off /\ off + zlen bs <= zlen m)
  then Some (splice m off bs) else None.

(** [m[i]] and [m[i] = x]. *)
Definition peek {A} (m : list A) (i : Z) : option A :=
  if decide (0 <= i) then m !! Z.to_nat i else None.

Definition poke {A} (m : list A) (i : Z) (x : A) : option (list A) :=
  if decide (0 <= i < zlen m) then Some (<[Z.to_nat i := x]> m) else None.

(** [memmove(m + dst, m + src, n)]. *)
Definition mem_move {A} (m : list A) (dst src n : Z) : option (list A) :=
  bs ← mem_read m src n; mem_write m dst bs.

(** [zrealloc]: the bytes past the old size are indeterminate; [junk] is what
    the allocator left there. *)
Definition mem_realloc {A} (junk : nat -> A) (m : list A) (n : Z) : list A :=
  take (Z.to_nat n) m ++ (junk <$> seq (length m) (Z.to_nat n - length m)).

(** [assert(b)]: the process aborts when it fails. *)
Definition assert (P : Prop) `{Decision P} : option unit :=
  if decide P then Some tt else None.

Lemma assert_True (P : Prop) `{Decision P} : P -> assert P = Some tt.
Proof. intros. unfold assert. by rewrite decide_True. Qed.

Lemma assert_Some (P : Prop) `{Decision P} x : assert P = Some x -> P.
Proof. unfold assert. by case_decide. Qed.

(** Little-endian integers of [n] bytes. *)
Fixpoint le_bytes (n : nat) (z : Z) : bytes :=
  match n with
  | O => []
  | S n => z mod 256 :: le_bytes n (z / 256)
  end.

Fixpoint le_val (bs : bytes) : Z :=
  match bs with
  | [] => 0
  | b :: bs => b + 256 * le_val bs
  end.

Definition le_signed (bs : bytes) : Z := swrap (8 * zlen bs) (le_val bs).

(** ** Automation *)

Create HintDb redis discriminated.
Create Rewrite HintDb zlen.

(** Lengths of the list operations, as rewriting rules. *)
Lemma zlen_nonneg {A} (l : list A) : 0 <= zlen l.
Proof. unfold zlen. lia. Qed.

Lemma zlen_app {A} (l k : list A) : zlen (l ++ k) = zlen l + zlen k.
Proof. unfold zlen. rewrite length_app. lia. Qed.

Lemma zlen_cons {A} (x : A) (l : list A) : zlen (x :: l) = 1 + zlen l.
Proof. unfold zlen. simpl length. lia. Qed.

Lemma zlen_nil {A} : zlen (@nil A) = 0.
Proof. reflexivity. Qed.

Lemma zlen_fmap {A B} (f : A -> B) (l : list A) : zlen (f <$> l) = zlen l.
Proof. unfold zlen. by rewrite length_fmap. Qed.

Lemma zlen_0 {A} (l : list A) : zlen l = 0 -> l = [].
Proof. destruct l; [done|]. rewrite zlen_cons. pose proof (zlen_nonneg l). lia. Qed.

Lemma zlen_take {A} (l : list A) n : zlen (take n l) = Z.min (Z.of_nat n) (zlen l).
Proof. unfold zlen. rewrite length_take. lia. Qed.

Lemma zlen_drop {A} (l : list A) n : zlen (drop n l) = Z.max 0 (zlen l - Z.of_nat n).
Proof. unfold zlen. rewrite length_drop. lia. Qed.

Lemma zlen_insert {A} (l : list A) i x : zlen (<[i:=x]> l) = zlen l.
Proof. unfold zlen. by rewrite length_insert. Qed.

Lemma zlen_reverse {A} (l : list A) : zlen (reverse l) = zlen l.
Proof. unfold zlen. by rewrite length_reverse. Qed.

Lemma zlen_replicate {A} n (x : A) : zlen (replicate n x) = Z.of_nat n.
Proof. unfold zlen. by rewrite length_replicate. Qed.

#[export] Hint Rewrite @zlen_app @zlen_cons @zlen_nil @zlen_fmap @zlen_take
  @zlen_drop @zlen_insert @zlen_reverse @zlen_replicate : zlen.

(** [zlia]: linear arithmetic where the lengths of lists are normalised. *)
Ltac zlen_nonneg_all :=
  repeat match goal with
  | |- context [zlen ?l] =>
      lazymatch goal with H : 0 <= zlen l |- _ => fail | _ => pose proof (zlen_nonneg l) end
  | _ : context [zlen ?l] |- _ =>
      lazymatch goal with H : 0 <= zlen l |- _ => fail | _ => pose proof (zlen_nonneg l) end
  end.
Ltac zlia :=
  autorewrite with zlen in *; zlen_nonneg_all; unfold zlen in *;
  rewrite ?length_app, ?length_take, ?length_drop, ?length_insert in *; simpl length in *; lia.

(** Splits the hypothesis that an option computation returned. *)
Lemma bind_Some_inv {A B} (f : A -> option B) (mx : option A) y :
  mx ≫= f = Some y -> exists x, mx = Some x /\ f x = Some y.
Proof. destruct mx; simpl; [eauto|done]. Qed.

Ltac unbind H :=
  let x := fresh "r" in let E := fresh "E" in
  apply bind_Some_inv in H as (x & E & H).

(** Replays in the goal the steps of a computation known to return. *)
Ltac follow H :=
  repeat (let x := fresh "r" in let E := fresh "E" in
          apply bind_Some_inv in H as (x & E & H); rewrite E; cbn [mbind option_bind]).

(** ** Lemmas on machine integers *)

Lemma uwrap_small w z : in_u w z -> uwrap w z = z.
Proof. unfold uwrap, in_u. apply Z.mod_small. Qed.

Lemma u64_small z : 0 <= z < 2 ^ 64 -> u64 z = z.
Proof. apply uwrap_small. Qed.

Lemma uwrap_range w z : 0 <= w -> in_u w (uwrap w z).
Proof. intros. unfold uwrap, in_u. apply Z.mod_pos_bound. apply Z.pow_pos_nonneg; lia. Qed.

Lemma pow2_split w : 0 < w -> 2 ^ w = 2 * 2 ^ (w - 1).
Proof. intros. rewrite <- Z.pow_succ_r by lia. f_equal. lia. Qed.

Lemma swrap_small w z : 0 < w -> in_i w z -> swrap w z = z.
Proof.
  intros Hw Hz. unfold swrap, in_i in *. rewrite Z.mod_small; [lia|].
  rewrite (pow2_split w) by lia. lia.
Qed.

Lemma swrap_range w z : 0 < w -> in_i w (swrap w z).
Proof.
  intros Hw. unfold swrap, in_i.
  assert (0 < 2 ^ w) by (apply Z.pow_pos_nonneg; lia).
  pose proof (Z.mod_pos_bound (z + 2 ^ (w - 1)) (2 ^ w) ltac:(lia)).
  pose proof (pow2_split w Hw). lia.
Qed.

(** Re-reading a wrapped value at the same width changes nothing. *)
Lemma swrap_uwrap w z : 0 < w -> swrap w (uwrap w z) = swrap w z.
Proof.
  intros. unfold swrap, uwrap. f_equal. apply Zplus_mod_idemp_l.
Qed.

Lemma in_i_mono w w' z : 0 < w <= w' -> in_i w z -> in_i w' z.
Proof.
  unfold in_i. intros. pose proof (Z.pow_le_mono_r 2 (w - 1) (w' - 1)). lia.
Qed.

(** ** Lemmas on little-endian integers *)

Lemma length_le_bytes n z : length (le_bytes n z) = n.
Proof. revert z. induction n; intros; simpl; auto. Qed.

Lemma zlen_le_bytes n z : zlen (le_bytes n z) = Z.of_nat n.
Proof. unfold zlen. by rewrite length_le_bytes. Qed.

#[export] Hint Rewrite zlen_le_bytes : zlen.

Lemma le_bytes_ok n z : bytes_ok (le_bytes n z).
Proof.
  revert z. induction n; intros; simpl; constructor; auto.
  apply Z.mod_pos_bound. lia.
Qed.

Lemma pow256_succ n : 2 ^ (8 * Z.of_nat (S n)) = 256 * 2 ^ (8 * Z.of_nat n).
Proof.
  replace (8 * Z.of_nat (S n)) with (8 + 8 * Z.of_nat n) by lia.
  rewrite Z.pow_add_r by lia. reflexivity.
Qed.

Lemma le_val_bound bs : bytes_ok bs -> 0 <= le_val bs < 2 ^ (8 * zlen bs).
Proof.
  unfold zlen. induction 1 as [|b bs Hb _ IH]; simpl length.
  - cbn. lia.
  - rewrite pow256_succ. simpl le_val. unfold byte_ok in Hb. lia.
Qed.

Lemma le_val_le_bytes n z : le_val (le_bytes n z) = z mod 2 ^ (8 * Z.of_nat n).
Proof.
  revert z. induction n; intros.
  - cbn [le_bytes le_val]. symmetry. apply Z.mod_1_r.
  - cbn [le_bytes le_val]. rewrite IHn, pow256_succ.
    rewrite Z.rem_mul_r; [lia|lia|apply Z.pow_pos_nonneg; lia].
Qed.

Lemma le_bytes_le_val bs : bytes_ok bs -> le_bytes (length bs) (le_val bs) = bs.
Proof.
  induction 1 as [|b bs Hb _ IH]; [done|].
  cbn [length le_bytes le_val]. unfold byte_ok in Hb. f_equal.
  - rewrite Z.mul_comm, Z_mod_plus_full. apply Z.mod_small. lia.
  - rewrite Z.mul_comm, Z.div_add, Z.div_small by lia. exact IH.
Qed.

Lemma le_val_app bs cs : le_val (bs ++ cs) = le_val bs + 2 ^ (8 * zlen bs) * le_val cs.
Proof.
  unfold zlen. induction bs as [|b bs IH]; simpl length.
  - cbn. lia.
  - rewrite pow256_succ. simpl. rewrite IH. lia.
Qed.

(** Storing a signed value in [n] bytes and reading it back. *)
Lemma le_signed_le_bytes n z :
  (0 < n)%nat -> in_i (8 * Z.of_nat n) z -> le_signed (le_bytes n z) = z.
Proof.
  intros Hn Hz. unfold le_signed. rewrite zlen_le_bytes, le_val_le_bytes.
  change (z mod 2 ^ (8 * Z.of_nat n)) with (uwrap (8 * Z.of_nat n) z).
  rewrite swrap_uwrap by lia. apply swrap_small; [lia|done].
Qed.

Lemma le_signed_range bs : bs <> [] -> in_i (8 * zlen bs) (le_signed bs).
Proof.
  intros. apply swrap_range. destruct bs; [done|]. zlia.
Qed.

(** ** Lemmas on buffers *)

Section buffers.
Context {A : Type}.
Implicit Types m bs : list A.

Lemma zlen_slice m off n :
  0 <= off -> 0 <= n -> off + n <= zlen m -> zlen (slice m off n) = n.
Proof. intros. unfold slice. zlia. Qed.

Lemma mem_read_Some m off n :
  0 <= off -> 0 <= n -> off + n <= zlen m -> mem_read m off n = Some (slice m off n).
Proof. intros. unfold mem_read. by rewrite decide_True. Qed.

Lemma mem_read_inv m off n bs :
  mem_read m off n = Some bs ->
  0 <= off /\ 0 <= n /\ off + n <= zlen m /\ bs = slice m off n.
Proof. unfold mem_read. case_decide; naive_solver. Qed.

Lemma mem_write_Some m off bs :
  0 <= off -> off + zlen bs <= zlen m -> mem_write m off bs = Some (splice m off bs).
Proof. intros. unfold mem_write. by rewrite decide_True. Qed.

Lemma mem_write_inv m off bs m' :
  mem_write m off bs = Some m' ->
  0 <= off /\ off + zlen bs <= zlen m /\ m' = splice m off bs.
Proof. unfold mem_write. case_decide; naive_solver. Qed.

Lemma zlen_splice m off bs :
  0 <= off -> off + zlen bs <= zlen m -> zlen (splice m off bs) = zlen m.
Proof. intros. unfold splice. zlia. Qed.

Lemma slice_slice m a n b k :
  0 <= a -> 0 <= b -> 0 <= k -> b + k <= n -> slice (slice m a n) b k = slice m (a + b) k.
Proof.
  intros. unfold slice. rewrite skipn_firstn_comm, drop_drop, take_take.
  f_equal; [lia|]. f_equal. lia.
Qed.

Lemma slice_app_l l k off n :
  0 <= off -> 0 <= n -> off + n <= zlen l -> slice (l ++ k) off n = @slice A l off n.
Proof.
  intros. unfold slice. rewrite drop_app_le by zlia. rewrite take_app_le; [done|zlia].
Qed.

Lemma slice_app_r l k off n :
  zlen l <= off -> slice (l ++ k) off n = @slice A k (off - zlen l) n.
Proof.
  intros. unfold slice. pose proof (zlen_nonneg l). rewrite drop_app_ge by zlia. f_equal. f_equal. zlia.
Qed.

Lemma slice_full m n : n = zlen m -> slice m 0 n = m.
Proof. intros ->. unfold slice. simpl. apply firstn_all2. zlia. Qed.

Lemma slice_all m off n : off = 0 -> n = zlen m -> slice m off n = m.
Proof. intros ->. apply slice_full. Qed.

Lemma slice_split m off n k :
  0 <= off -> 0 <= n -> 0 <= k -> slice m off (n + k) = slice m off n ++ slice m (off + n) k.
Proof.
  intros. unfold slice. rewrite !Z2Nat.inj_add by lia.
  rewrite <- drop_drop. rewrite <- (take_drop (Z.to_nat n) (drop (Z.to_nat off) m)) at 1.
  destruct (decide (Z.to_nat n <= length (drop (Z.to_nat off) m))%nat).
  - rewrite take_app_ge; rewrite ?length_take; [|lia]. do 2 f_equal. lia.
  - rewrite (drop_ge (drop _ _)) by lia. rewrite app_nil_r, take_nil, app_nil_r.
    rewrite take_take. f_equal. lia.
Qed.

(** Reading back what was written, and reading around it. *)
Lemma slice_splice_same m off bs :
  0 <= off -> off + zlen bs <= zlen m -> slice (splice m off bs) off (zlen bs) = bs.
Proof.
  intros. unfold splice. rewrite slice_app_r by zlia. rewrite slice_app_l by zlia.
  replace (off - _) with 0 by zlia. by apply slice_full.
Qed.

Lemma slice_splice_before m off bs a n :
  0 <= a -> 0 <= n -> a + n <= off -> off + zlen bs <= zlen m ->
  slice (splice m off bs) a n = slice m a n.
Proof.
  intros. unfold splice. rewrite slice_app_l by zlia.
  unfold slice. rewrite skipn_firstn_comm, take_take. f_equal. lia.
Qed.

Lemma slice_splice_after m off bs a n :
  0 <= off -> off + zlen bs <= a -> off + zlen bs <= zlen m ->
  slice (splice m off bs) a n = slice m a n.
Proof.
  intros. unfold splice. pose proof (zlen_nonneg bs).
  rewrite slice_app_r by zlia. rewrite slice_app_r by zlia.
  unfold slice. rewrite drop_drop. f_equal. f_equal. zlia.
Qed.

Lemma zlen_mem_realloc junk m n :
  0 <= n -> zlen (@mem_realloc A junk m n) = n.
Proof.
  intros. unfold mem_realloc. unfold zlen.
  rewrite length_app, length_take, length_fmap, length_seq. lia.
Qed.

Lemma slice_mem_realloc junk m n off k :
  0 <= off -> 0 <= k -> off + k <= n -> off + k <= zlen m ->
  slice (mem_realloc junk m n) off k = slice m off k.
Proof.
  intros. unfold mem_realloc. rewrite slice_app_l by zlia.
  unfold slice. rewrite skipn_firstn_comm, take_take. f_equal. lia.
Qed.

Lemma peek_Some m i : 0 <= i < zlen m -> exists x, peek m i = Some x.
Proof.
  intros. unfold peek. rewrite decide_True by lia. apply lookup_lt_is_Some. zlia.
Qed.

Lemma peek_inv m i x : peek m i = Some x -> 0 <= i < zlen m /\ m !! Z.to_nat i = Some x.
Proof.
  unfold peek. case_decide; [|done]. intros Hx. pose proof (lookup_lt_Some _ _ _ Hx).
  split; [zlia|done].
Qed.

Lemma poke_Some m i x : 0 <= i < zlen m -> poke m i x = Some (<[Z.to_nat i := x]> m).
Proof. intros. unfold poke. by rewrite decide_True. Qed.
End buffers.

#[export] Hint Rewrite @zlen_slice @zlen_splice @zlen_mem_realloc using lia : zlen.

Lemma bytes_ok_slice (m : bytes) off n : bytes_ok m -> bytes_ok (slice m off n).
Proof. intros. unfold slice. apply Forall_take, Forall_drop. done. Qed.

Lemma bytes_ok_splice (m : bytes) off bs :
  bytes_ok m -> bytes_ok bs -> bytes_ok (splice m off bs).
Proof.
  intros. unfold splice. apply Forall_app; split; [by apply Forall_take|].
  apply Forall_app; split; [done|by apply Forall_drop].
Qed.

#[export] Hint Resolve bytes_ok_slice bytes_ok_splice le_bytes_ok : redis.

Lemma slice_splice_inside {A} (m bs : list A) off a n :
  0 <= off -> off <= a -> 0 <= n -> a + n <= off + zlen bs -> off + zlen bs <= zlen m ->
  slice (splice m off bs) a n = slice bs (a - off) n.
Proof.
  intros. unfold splice. rewrite slice_app_r by zlia. rewrite slice_app_l by zlia.
  f_equal. zlia.
Qed.

(** ** Sorted lists by index *)

Lemma StronglySorted_lookup {A} (R : A -> A -> Prop) (l : list A) :
  StronglySorted R l <->
  forall i j x y, (i < j)%nat -> l !! i = Some x -> l !! j = Some y -> R x y.
Proof.
  split.
  - induction 1 as [|a l Hs IH Ha]; intros i j x y Hij Hx Hy; [done|].
    destruct j as [|j]; [lia|]. simpl in Hy. destruct i as [|i]; simpl in Hx.
    + simplify_eq. rewrite Forall_lookup in Ha. eauto.
    + eapply IH; [|done|done]. lia.
  - induction l as [|a l IH]; intros H; constructor.
    + apply IH. intros i j x y ???. apply (H (S i) (S j)); [lia|done|done].
    + rewrite Forall_lookup. intros i x Hi. apply (H 0%nat (S i)); [lia|done|done].
Qed.

Lemma StronglySorted_insert {A} (R : A -> A -> Prop) l1 l2 v :
  StronglySorted R (l1 ++ l2) -> Forall (fun x => R x v) l1 -> Forall (R v) l2 ->
  StronglySorted R (l1 ++ v :: l2).
Proof.
  intros Hs H1 H2. induction l1 as [|a l1 IH]; simpl in *.
  - by constructor.
  - inversion Hs; subst. inversion H1; subst. constructor; [by apply IH|].
    apply Forall_app in H4 as [? ?]. apply Forall_app; split; [done|]. by constructor.
Qed.

Lemma StronglySorted_remove {A} (R : A -> A -> Prop) l1 l2 v :
  StronglySorted R (l1 ++ v :: l2) -> StronglySorted R (l1 ++ l2).
Proof.
  intros Hs. induction l1 as [|a l1 IH]; simpl in *; inversion Hs; subst; [done|].
  constructor; [by apply IH|]. rewrite Forall_app, Forall_cons in *. tauto.
Qed.

Lemma StronglySorted_lt_NoDup (l : list Z) : StronglySorted Z.lt l -> NoDup l.
Proof.
  induction 1 as [|a l _ IH Ha]; constructor; [|done].
  rewrite Forall_forall in Ha. intros Hin. specialize (Ha a Hin). lia.
Qed.

Lemma NoDup_middle {A} (l1 l2 : list A) v : NoDup (l1 ++ v :: l2) -> v ∉ l1 ++ l2.
Proof.
  rewrite NoDup_app, NoDup_cons. intros (_ & H1 & H2 & _) Hin.
  apply elem_of_app in Hin as [Hin|Hin]; [|done]. apply (H1 v Hin). set_solver.
Qed.

(** ** Stores as splices

    A store of one cell is a one-cell splice, and adjacent splices fuse: a run
    of stores is one splice of the bytes it writes. *)

Section splices.
Context {A : Type}.
Implicit Types m bs : list A.

Lemma insert_splice m i (x : A) : 0 <= i < zlen m -> <[Z.to_nat i := x]> m = splice m i [x].
Proof.
  intros. unfold splice. simpl length. rewrite insert_take_drop by zlia.
  do 2 f_equal. f_equal. lia.
Qed.

Lemma poke_splice m i (x : A) : 0 <= i < zlen m -> poke m i x = Some (splice m i [x]).
Proof. intros. rewrite poke_Some by done. f_equal. by apply insert_splice. Qed.

Lemma poke_inv m i (x : A) m' :
  poke m i x = Some m' -> 0 <= i < zlen m /\ m' = splice m i [x].
Proof.
  unfold poke. case_decide; [|done]. intros. simplify_eq. split; [done|]. by apply insert_splice.
Qed.

(** The second store ends where the first one starts. *)
Lemma splice_splice_left m a bs1 bs2 :
  0 <= a -> a + zlen bs1 + zlen bs2 <= zlen m ->
  splice (splice m (a + zlen bs1) bs2) a bs1 = splice m a (bs1 ++ bs2).
Proof.
  intros. pose proof (zlen_nonneg bs1). unfold splice.
  rewrite take_app_le by zlia. rewrite take_take.
  rewrite <- app_assoc. f_equal; [f_equal; lia|]. f_equal.
  rewrite drop_app_ge by zlia. rewrite length_take.
  replace (_ + _ - _)%nat with 0%nat by zlia. rewrite drop_0. f_equal. f_equal. zlia.
Qed.

(** The second store starts where the first one ends. *)
Lemma splice_splice_right m a bs1 bs2 :
  0 <= a -> a + zlen bs1 + zlen bs2 <= zlen m ->
  splice (splice m a bs1) (a + zlen bs1) bs2 = splice m a (bs1 ++ bs2).
Proof.
  intros. pose proof (zlen_nonneg bs1).
  assert (splice m a bs1 = (take (Z.to_nat a) m ++ bs1) ++ drop (Z.to_nat a + length bs1) m) as ->
    by (unfold splice; by rewrite app_assoc).
  assert (Z.to_nat (a + zlen bs1) = length (take (Z.to_nat a) m ++ bs1)) as Hk by zlia.
  unfold splice. rewrite Hk, take_app_length, <- !app_assoc. do 3 f_equal.
  rewrite app_assoc, drop_app_ge by lia. rewrite drop_drop. f_equal.
  rewrite !length_app, length_take. zlia.
Qed.

(** A store within a part of a block. *)
Lemma splice_app_l m m' a bs : 0 <= a -> a + zlen bs <= zlen m -> splice (m ++ m') a bs = splice m a bs ++ m'.
Proof.
  intros. unfold splice. rewrite take_app_le by zlia. rewrite drop_app_le by zlia. by rewrite <- !app_assoc.
Qed.

Lemma splice_app_r m m' a bs : zlen m <= a -> splice (m ++ m') a bs = m ++ splice m' (a - zlen m) bs.
Proof.
  intros. unfold splice. pose proof (zlen_nonneg m). rewrite take_app_ge by zlia. rewrite drop_app_ge by zlia.
  rewrite <- !app_assoc. do 3 f_equal; [f_equal; zlia|f_equal; zlia].
Qed.

Lemma splice_nil m a : splice m a [] = m.
Proof. unfold splice. simpl. rewrite Nat.add_0_r. apply take_drop. Qed.

Lemma splice_full m bs : zlen bs = zlen m -> splice m 0 bs = bs.
Proof.
  intros. unfold splice. simpl. rewrite drop_ge by zlia. by rewrite app_nil_r.
Qed.
End splices.

(** ** Regions of a block

    [bytes_at m p bs]: the block [m] holds [bs] at offset [p]. *)
Definition bytes_at {A} (m : list A) (p : Z) (bs : list A) : Prop :=
  0 <= p /\ p + zlen bs <= zlen m /\ slice m p (zlen bs) = bs.

Section regions.
Context {A : Type}.
Implicit Types m bs cs : list A.

Lemma bytes_at_app m p bs cs :
  bytes_at m p (bs ++ cs) <-> bytes_at m p bs /\ bytes_at m (p + zlen bs) cs.
Proof.
  unfold bytes_at. rewrite zlen_app. pose proof (zlen_nonneg bs). pose proof (zlen_nonneg cs). split.
  - intros (? & ? & E). rewrite slice_split in E by lia.
    apply app_inj_1 in E as [E1 E2]; [split_and!; [lia|lia|done|lia|lia|done]|].
    pose proof (zlen_slice m p (zlen bs)). unfold zlen in *. lia.
  - intros [(? & ? & E1) (? & ? & E2)]. split_and!; [lia|lia|].
    rewrite slice_split by lia. by rewrite E1, E2.
Qed.

Lemma bytes_at_nil m p : 0 <= p <= zlen m -> bytes_at m p [].
Proof. intros. unfold bytes_at. change (zlen []) with 0. split_and!; [lia|lia|done]. Qed.

Lemma bytes_at_single m p (b : A) : bytes_at m p [b] <-> peek m p = Some b.
Proof.
  unfold bytes_at, slice. change (zlen [b]) with 1. split.
  - intros (? & ? & E). unfold peek. rewrite decide_True by lia.
    pose proof (lookup_drop m (Z.to_nat p) 0) as Hd. rewrite Nat.add_0_r in Hd. rewrite <- Hd.
    destruct (drop (Z.to_nat p) m); simpl in *; congruence.
  - intros Hb. apply peek_inv in Hb as [? Hb]. split_and!; [lia|lia|].
    by rewrite (drop_S _ _ _ Hb).
Qed.

Lemma bytes_at_cons m p b bs :
  bytes_at m p (b :: bs) <-> peek m p = Some b /\ bytes_at m (p + 1) bs.
Proof.
  change (b :: bs) with ([b] ++ bs). rewrite bytes_at_app, bytes_at_single. done.
Qed.

Lemma bytes_at_bound m p bs : bytes_at m p bs -> 0 <= p /\ p + zlen bs <= zlen m.
Proof. intros (? & ? & _). done. Qed.

Lemma bytes_at_read m p bs n : bytes_at m p bs -> n = zlen bs -> mem_read m p n = Some bs.
Proof.
  intros (? & ? & E) ->. pose proof (zlen_nonneg bs). rewrite mem_read_Some by lia. by rewrite E.
Qed.

Lemma bytes_at_inv m p n : 0 <= p -> 0 <= n -> p + n <= zlen m -> bytes_at m p (slice m p n).
Proof. intros. unfold bytes_at. rewrite zlen_slice by lia. done. Qed.

Lemma bytes_at_unique m p bs cs : bytes_at m p bs -> bytes_at m p cs -> zlen bs = zlen cs -> bs = cs.
Proof. intros (_ & _ & ?) (_ & _ & ?) ?. congruence. Qed.

Lemma bytes_at_splice m p bs :
  0 <= p -> p + zlen bs <= zlen m -> bytes_at (splice m p bs) p bs.
Proof.
  intros. unfold bytes_at. rewrite zlen_splice by lia.
  split_and!; [lia|lia|by apply slice_splice_same].
Qed.

Lemma bytes_at_splice_other m p bs q cs :
  0 <= p -> p + zlen bs <= zlen m -> bytes_at m q cs -> q + zlen cs <= p \/ p + zlen bs <= q ->
  bytes_at (splice m p bs) q cs.
Proof.
  intros ? ? (? & ? & E) [Hd|Hd]; pose proof (zlen_nonneg cs); unfold bytes_at;
    rewrite zlen_splice by lia; (split_and!; [lia|lia|]).
  - by rewrite slice_splice_before by lia.
  - by rewrite slice_splice_after by lia.
Qed.

Lemma bytes_at_realloc (junk : nat -> A) m n p bs :
  bytes_at m p bs -> p + zlen bs <= n -> bytes_at (mem_realloc junk m n) p bs.
Proof.
  intros (? & ? & E) Hn. pose proof (zlen_nonneg bs). unfold bytes_at.
  rewrite zlen_mem_realloc by lia. split_and!; [lia|lia|]. by rewrite slice_mem_realloc by lia.
Qed.

(** The writes, as steps that establish one region and keep the others. *)
Lemma mem_write_region m p bs :
  0 <= p -> p + zlen bs <= zlen m ->
  exists m', mem_write m p bs = Some m' /\ zlen m' = zlen m /\ bytes_at m' p bs /\
    forall q cs, bytes_at m q cs -> q + zlen cs <= p \/ p + zlen bs <= q -> bytes_at m' q cs.
Proof.
  intros. rewrite mem_write_Some by lia. eexists. split; [done|]. split; [by apply zlen_splice|].
  split; [by apply bytes_at_splice|]. intros. by apply bytes_at_splice_other.
Qed.

Lemma mem_move_region m dst src bs :
  bytes_at m src bs -> 0 <= dst -> dst + zlen bs <= zlen m ->
  exists m', mem_move m dst src (zlen bs) = Some m' /\ zlen m' = zlen m /\ bytes_at m' dst bs /\
    forall q cs, bytes_at m q cs -> q + zlen cs <= dst \/ dst + zlen bs <= q -> bytes_at m' q cs.
Proof.
  intros Hb ? ?. unfold mem_move. rewrite (bytes_at_read m src bs) by done.
  cbn [mbind option_bind]. by apply mem_write_region.
Qed.
End regions.

(** ** Bit fields *)

Lemma land_ones_mod x k m : 0 <= k -> m = 2 ^ k - 1 -> Z.land x m = x mod 2 ^ k.
Proof. intros ? ->. rewrite <- Z.land_ones by lia. f_equal. rewrite Z.ones_equiv. lia. Qed.

Lemma land_255 x : Z.land x 255 = x mod 256.
Proof. by apply (land_ones_mod x 8). Qed.

Lemma land_127 x : Z.land x 127 = x mod 128.
Proof. by apply (land_ones_mod x 7). Qed.

Lemma land_63 x : Z.land x 63 = x mod 64.
Proof. by apply (land_ones_mod x 6). Qed.

Lemma land_31 x : Z.land x 31 = x mod 32.
Proof. by apply (land_ones_mod x 5). Qed.

Lemma land_15 x : Z.land x 15 = x mod 16.
Proof. by apply (land_ones_mod x 4). Qed.

Lemma shiftr_div x k : 0 <= k -> Z.shiftr x k = x / 2 ^ k.
Proof. apply Z.shiftr_div_pow2. Qed.

Lemma lor_shiftl_add x y k : 0 <= k -> 0 <= x < 2 ^ k -> Z.lor x (Z.shiftl y k) = x + y * 2 ^ k.
Proof.
  intros Hk Hx. rewrite <- Z.shiftl_mul_pow2 by lia.
  assert (Z.land x (Z.shiftl y k) = 0) as Hl.
  { apply Z.bits_inj'. intros n Hn. rewrite Z.land_spec, Z.bits_0, Z.shiftl_spec by lia.
    destruct (decide (n < k)).
    - rewrite (Z.testbit_neg_r y) by lia. apply andb_false_r.
    - rewrite <- (Z.mod_small x (2 ^ k)) by lia. by rewrite Z.mod_pow2_bits_high by lia. }
  rewrite Z.add_nocarry_lxor by done. symmetry. by apply Z.lxor_lor.
Qed.

(** A boolean property of all bytes, by evaluation. *)
Lemma byte_forall (P : Z -> bool) :
  forallb P (seqZ 0 256) = true -> forall b, byte_ok b -> P b = true.
Proof.
  intros H b Hb. rewrite forallb_forall in H. apply H. apply list_elem_of_In, elem_of_seqZ.
  unfold byte_ok in Hb. lia.
Qed.

(** A decidable property of all bytes, by evaluation. *)
Lemma byte_cases (P : Z -> Prop) `{!forall b, Decision (P b)} :
  forallb (fun b => bool_decide (P b)) (seqZ 0 256) = true -> forall b, byte_ok b -> P b.
Proof.
  intros HP b Hb. pose proof (byte_forall (fun b => bool_decide (P b)) HP b Hb) as Hd.
  by apply bool_decide_eq_true in Hd.
Qed.

(** Linear arithmetic with divisions by constants. *)
Ltac divlia := Z.to_euclidean_division_equations; lia.
