(* ===== verification/Intset.v ===== *)
(** * Integer sets (intset.c)

    The compact encoding of a set whose members are all integers: a header
    (encoding, length) and a sorted array of 16, 32 or 64-bit little-endian
    integers.  The file models every function of intset.c on the bytes of the
    array, at the width the code computes with, on a little-endian host (where
    the [intrev32ifbe] and [memrevNNifbe] macros of endianconv.h are the
    identity).  The theorems relate the bytes to the sorted list of members. *)

From S2P Require Import Prelude.

(** [typedef struct intset]: [contents] is the flexible array, as bytes. *)
Record intset := Intset {
  is_encoding : Z;
  is_length : Z;
  is_contents : bytes
}.

Definition INTSET_ENC_INT16 : Z := 2.
Definition INTSET_ENC_INT32 : Z := 4.
Definition INTSET_ENC_INT64 : Z := 8.

(** sizeof(intset): the two uint32_t of the header. *)
Definition sizeof_intset : Z := 8.

(** Return the required encoding for the provided value. *)
Definition _intsetValueEncoding (v : Z) : Z :=
  if decide (v < INT32_MIN \/ v > INT32_MAX) then INTSET_ENC_INT64
  else if decide (v < INT16_MIN \/ v > INT16_MAX) then INTSET_ENC_INT32
  else INTSET_ENC_INT16.

(** Return the value at pos, given an encoding. *)
Definition _intsetGetEncoded (s : intset) (pos enc : Z) : option Z :=
  if decide (enc = INTSET_ENC_INT64) then
    v64 ← mem_read (is_contents s) (8 * pos) 8; Some (le_signed v64)
  else if decide (enc = INTSET_ENC_INT32) then
    v32 ← mem_read (is_contents s) (4 * pos) 4; Some (le_signed v32)
  else
    v16 ← mem_read (is_contents s) (2 * pos) 2; Some (le_signed v16).

(** Return the value at pos, using the configured encoding. *)
Definition _intsetGet (s : intset) (pos : Z) : option Z :=
  _intsetGetEncoded s pos (is_encoding s).

Definition with_contents (s : intset) (c : bytes) : intset :=
  Intset (is_encoding s) (is_length s) c.

Definition with_length (s : intset) (n : Z) : intset :=
  Intset (is_encoding s) n (is_contents s).

Definition with_encoding (s : intset) (e : Z) : intset :=
  Intset e (is_length s) (is_contents s).

(** Set the value at pos, using the configured encoding. *)
Definition _intsetSet (s : intset) (pos value : Z) : option intset :=
  let encoding := is_encoding s in
  c ← (if decide (encoding = INTSET_ENC_INT64) then
         mem_write (is_contents s) (8 * pos) (le_bytes 8 value)
       else if decide (encoding = INTSET_ENC_INT32) then
         mem_write (is_contents s) (4 * pos) (le_bytes 4 value)
       else
         mem_write (is_contents s) (2 * pos) (le_bytes 2 value));
  Some (with_contents s c).

(** Create an empty intset. *)
Definition intsetNew : intset := Intset INTSET_ENC_INT16 0 [].

(** Search: the while loop of [intsetSearch], bounded by [fuel]. *)
Fixpoint intsetSearch_loop (fuel : nat) (s : intset) (value min max mid cur : Z)
  : option (Z * Z * Z) :=
  match fuel with
  | O => None
  | S fuel =>
    if decide (max >= min) then
      let mid := Z.shiftr (u32 (u32 min + u32 max)) 1 in
      cur ← _intsetGet s mid;
      if decide (value > cur) then intsetSearch_loop fuel s value (mid + 1) max mid cur
      else if decide (value < cur) then intsetSearch_loop fuel s value min (mid - 1) mid cur
      else Some (min, mid, cur)
    else Some (min, mid, cur)
  end.

(** Whether [value] was found, and the value stored in [*pos]. *)
Definition intsetSearch (s : intset) (value : Z) : option (bool * Z) :=
  let min := 0 in
  let max := i32 (is_length s - 1) in
  if decide (is_length s = 0) then Some (false, 0)
  else
    last ← _intsetGet s max;
    if decide (value > last) then Some (false, is_length s)
    else
      first ← _intsetGet s 0;
      if decide (value < first) then Some (false, 0)
      else
        '(min, mid, cur) ← intsetSearch_loop (S (Z.to_nat (is_length s))) s value min max (-1) (-1);
        if decide (value = cur) then Some (true, mid) else Some (false, min).

(** [intsetMoveTail]: the byte count is a uint32_t. *)
Definition intsetMoveTail (s : intset) (from to : Z) : option intset :=
  let bytes := u32 (is_length s - from) in
  let encoding := is_encoding s in
  let '(src, dst, bytes) :=
    if decide (encoding = INTSET_ENC_INT64) then (8 * from, 8 * to, u32 (bytes * 8))
    else if decide (encoding = INTSET_ENC_INT32) then (4 * from, 4 * to, u32 (bytes * 4))
    else (2 * from, 2 * to, u32 (bytes * 2)) in
  c ← mem_move (is_contents s) dst src bytes;
  Some (with_contents s c).

Section alloc.
(** What the allocator leaves in the bytes a reallocation adds. *)
Variable junk : nat -> Z.

(** Resize the intset *)
Definition intsetResize (s : intset) (len : Z) : option intset :=
  let size := u64 (len * is_encoding s) in
  assert (size <= SIZE_MAX - sizeof_intset);;
  Some (with_contents s (mem_realloc junk (is_contents s) size)).

(** [while(length--) _intsetSet(is,length+prepend,_intsetGetEncoded(is,length,curenc))] *)
Fixpoint intsetUpgrade_loop (length : nat) (s : intset) (prepend curenc : Z) : option intset :=
  match length with
  | O => Some s
  | S length =>
    v ← _intsetGetEncoded s (Z.of_nat length) curenc;
    s ← _intsetSet s (Z.of_nat length + prepend) v;
    intsetUpgrade_loop length s prepend curenc
  end.

(** Upgrades the intset to a larger encoding and inserts the given integer. *)
Definition intsetUpgradeAndAdd (s : intset) (value : Z) : option intset :=
  let curenc := is_encoding s in
  let newenc := _intsetValueEncoding value in
  let length := is_length s in
  let prepend := if decide (value < 0) then 1 else 0 in
  let s := with_encoding s newenc in
  s ← intsetResize s (u32 (is_length s + 1));
  s ← intsetUpgrade_loop (Z.to_nat length) s prepend curenc;
  s ← (if decide (prepend <> 0) then _intsetSet s 0 value
        else _intsetSet s (is_length s) value);
  Some (with_length s (u32 (is_length s + 1))).

(** Insert an integer in the intset; the boolean is [*success]. *)
Definition intsetAdd (s : intset) (value : Z) : option (intset * bool) :=
  let valenc := _intsetValueEncoding value in
  if decide (valenc > is_encoding s) then
    s ← intsetUpgradeAndAdd s value; Some (s, true)
  else
    '(found, pos) ← intsetSearch s value;
    if found : bool then Some (s, false)
    else
      s ← intsetResize s (u32 (is_length s + 1));
      s ← (if decide (pos < is_length s) then intsetMoveTail s pos (u32 (pos + 1)) else Some s);
      s ← _intsetSet s pos value;
      Some (with_length s (u32 (is_length s + 1)), true).

(** Delete integer from intset; the boolean is [*success]. *)
Definition intsetRemove (s : intset) (value : Z) : option (intset * bool) :=
  let valenc := _intsetValueEncoding value in
  if decide (valenc <= is_encoding s) then
    '(found, pos) ← intsetSearch s value;
    if found : bool then
      let len := is_length s in
      s ← (if decide (pos < u32 (len - 1)) then intsetMoveTail s (u32 (pos + 1)) pos else Some s);
      s ← intsetResize s (u32 (len - 1));
      Some (with_length s (u32 (len - 1)), true)
    else Some (s, false)
  else Some (s, false).
End alloc.

(** Determine whether a value belongs to this set *)
Definition intsetFind (s : intset) (value : Z) : option bool :=
  let valenc := _intsetValueEncoding value in
  if decide (valenc <= is_encoding s) then
    '(found, _) ← intsetSearch s value; Some found
  else Some false.

(** Return random member; [r] is the value of [rand()]. *)
Definition intsetRandom (r : Z) (s : intset) : option Z :=
  let len := is_length s in
  assert (len <> 0);;
  _intsetGet s (r mod len).

(** Return the largest member. *)
Definition intsetMax (s : intset) : option Z :=
  let len := is_length s in
  _intsetGet s (i32 (u32 (len - 1))).

(** Return the smallest member. *)
Definition intsetMin (s : intset) : option Z := _intsetGet s 0.

(** Get the value at the given position: the outer option is an access outside
    the array, the inner one the 0 / 1 result. *)
Definition intsetGet (s : intset) (pos : Z) : option (option Z) :=
  if decide (pos < is_length s) then v ← _intsetGet s (i32 pos); Some (Some v)
  else Some None.

Definition intsetLen (s : intset) : Z := is_length s.

(** Return intset blob size in bytes. *)
Definition intsetBlobLen (s : intset) : Z :=
  u64 (sizeof_intset + is_length s * is_encoding s).

(** The struct read over a raw buffer: [(intset * )p]. *)
Definition intset_of_blob (p : bytes) : option intset :=
  enc ← mem_read p 0 4;
  len ← mem_read p 4 4;
  Some (Intset (le_val enc) (le_val len) (drop 8 p)).

(** The bytes of an intset in memory. *)
Definition blob_of_intset (s : intset) : bytes :=
  le_bytes 4 (is_encoding s) ++ le_bytes 4 (is_length s) ++ is_contents s.

(** The [for (i = 1; i < count; i++)] loop of [intsetValidateIntegrity]. *)
Fixpoint intsetValidate_loop (n : nat) (s : intset) (i prev : Z) : option bool :=
  match n with
  | O => Some true
  | S n =>
    cur ← _intsetGet s (i32 i);
    if decide (cur <= prev) then Some false
    else intsetValidate_loop n s (i + 1) cur
  end.

(** Validate the integrity of the data structure. *)
Definition intsetValidateIntegrity (p : bytes) (size : Z) (deep : bool) : option bool :=
  if decide (size < sizeof_intset) then Some false
  else
    s ← intset_of_blob p;
    let encoding := is_encoding s in
    if decide (encoding = INTSET_ENC_INT64 \/ encoding = INTSET_ENC_INT32
               \/ encoding = INTSET_ENC_INT16) then
      let record_size := encoding in
      let count := is_length s in
      if decide (u64 (sizeof_intset + count * record_size) <> size) then Some false
      else if decide (count = 0) then Some false
      else if negb deep then Some true
      else
        prev ← _intsetGet s 0;
        intsetValidate_loop (Z.to_nat (count - 1)) s 1 prev
    else Some false.

(** ** The array as a list of members *)

(** Cell [i] of an array of [enc]-byte integers. *)
Definition slot (enc : Z) (c : bytes) (i : Z) : Z := le_signed (slice c (enc * i) enc).

(** The members, in the order of the array. *)
Definition elems (s : intset) : list Z :=
  slot (is_encoding s) (is_contents s) <$> seqZ 0 (is_length s).

Definition enc_ok (e : Z) : Prop :=
  e = INTSET_ENC_INT16 \/ e = INTSET_ENC_INT32 \/ e = INTSET_ENC_INT64.

(** The shape of an intset: a known encoding and an array of [length] cells.  The
    bound is the one under which the byte counts of [intsetMoveTail] fit their
    uint32_t. *)
Definition shape (s : intset) : Prop :=
  enc_ok (is_encoding s) /\ 0 <= is_length s <= 2 ^ 29 /\
  zlen (is_contents s) = is_encoding s * is_length s.

(** The invariant: shape, and the members are strictly increasing. *)
Definition wf (s : intset) : Prop := shape s /\ StronglySorted Z.lt (elems s).

(** Splits the three encodings and computes with them. *)
Ltac enc_cases H :=
  unfold enc_ok, INTSET_ENC_INT16, INTSET_ENC_INT32, INTSET_ENC_INT64 in *;
  destruct H as [H|[H|H]].

Lemma get_encoded_slot s pos enc :
  enc_ok enc -> 0 <= pos -> enc * (pos + 1) <= zlen (is_contents s) ->
  _intsetGetEncoded s pos enc = Some (slot enc (is_contents s) pos).
Proof.
  intros He Hp Hb. unfold _intsetGetEncoded, slot.
  enc_cases He; subst enc; repeat (case_decide; try lia);
    rewrite mem_read_Some by lia; reflexivity.
Qed.

Lemma set_slot s pos value :
  enc_ok (is_encoding s) -> 0 <= pos ->
  is_encoding s * (pos + 1) <= zlen (is_contents s) ->
  _intsetSet s pos value =
    Some (with_contents s (splice (is_contents s) (is_encoding s * pos)
            (le_bytes (Z.to_nat (is_encoding s)) value))).
Proof.
  intros He Hp Hb. unfold _intsetSet.
  enc_cases He; rewrite He in *; repeat (case_decide; try lia);
    rewrite mem_write_Some by (autorewrite with zlen; lia); reflexivity.
Qed.

(** Value and encoding: [_intsetValueEncoding] picks an encoding that holds the
    value, and the smallest one. *)
Lemma value_encoding_ok v : enc_ok (_intsetValueEncoding v).
Proof.
  unfold _intsetValueEncoding, enc_ok. repeat case_decide; auto.
Qed.

Lemma value_encoding_le v enc :
  enc_ok enc -> in_i 64 v -> (_intsetValueEncoding v <= enc <-> in_i (8 * enc) v).
Proof.
  intros He Hv. unfold _intsetValueEncoding, in_i in *.
  unfold INT32_MIN, INT32_MAX, INT16_MIN, INT16_MAX.
  enc_cases He; subst enc; repeat case_decide; lia.
Qed.

Lemma slot_in_range enc c i :
  enc_ok enc -> 0 <= i -> enc * (i + 1) <= zlen c -> in_i (8 * enc) (slot enc c i).
Proof.
  intros He Hi Hb. unfold slot.
  assert (zlen (slice c (enc * i) enc) = enc) as Hl.
  { apply zlen_slice; enc_cases He; lia. }
  rewrite <- Hl at 1. apply le_signed_range. intros Hn. rewrite Hn in Hl.
  enc_cases He; subst; done.
Qed.

(** *** Cells after a store *)

Lemma slot_splice_same enc c i v :
  enc_ok enc -> 0 <= i -> enc * (i + 1) <= zlen c -> in_i (8 * enc) v ->
  slot enc (splice c (enc * i) (le_bytes (Z.to_nat enc) v)) i = v.
Proof.
  intros He Hi Hb Hv. unfold slot.
  assert (zlen (le_bytes (Z.to_nat enc) v) = enc) as Hl by (autorewrite with zlen; enc_cases He; lia).
  rewrite <- Hl at 4. rewrite slice_splice_same by (rewrite ?Hl; enc_cases He; lia).
  apply le_signed_le_bytes; enc_cases He; subst; done || lia.
Qed.

Lemma slot_splice_other enc enc' c i j v :
  enc_ok enc -> enc_ok enc' -> 0 <= i -> 0 <= j ->
  enc * (i + 1) <= zlen c -> enc' * (j + 1) <= zlen c ->
  (enc' * (j + 1) <= enc * i \/ enc * (i + 1) <= enc' * j) ->
  slot enc' (splice c (enc * i) (le_bytes (Z.to_nat enc) v)) j = slot enc' c j.
Proof.
  intros He He' Hi Hj Hb Hb' Hd. unfold slot. f_equal.
  assert (zlen (le_bytes (Z.to_nat enc) v) = enc) as Hl by (autorewrite with zlen; enc_cases He; lia).
  assert (0 <= enc') by (enc_cases He'; lia). assert (0 <= enc) by (enc_cases He; lia).
  destruct Hd; [apply slice_splice_before|apply slice_splice_after]; rewrite ?Hl; nia.
Qed.

(** *** The list of members by index *)

Lemma elems_lookup s (i : nat) :
  elems s !! i =
    if decide (Z.of_nat i < is_length s)
    then Some (slot (is_encoding s) (is_contents s) (Z.of_nat i)) else None.
Proof.
  unfold elems. rewrite list_lookup_fmap. case_decide.
  - rewrite lookup_seqZ_lt by lia. simpl. do 2 f_equal.
  - rewrite lookup_seqZ_ge by lia. done.
Qed.

Lemma zlen_elems s : 0 <= is_length s -> zlen (elems s) = is_length s.
Proof. intros. unfold elems, zlen. rewrite length_fmap, length_seqZ. lia. Qed.

(** ** Search *)

Lemma get_slot s pos :
  shape s -> 0 <= pos < is_length s ->
  _intsetGet s pos = Some (slot (is_encoding s) (is_contents s) pos).
Proof.
  intros (He & Hl & Hc) Hp. unfold _intsetGet. apply get_encoded_slot; [done|lia|].
  rewrite Hc. enc_cases He; nia.
Qed.

Lemma wf_slot_lt s i j :
  wf s -> 0 <= i < j -> j < is_length s ->
  slot (is_encoding s) (is_contents s) i < slot (is_encoding s) (is_contents s) j.
Proof.
  intros [_ Hs] Hij Hj. rewrite StronglySorted_lookup in Hs.
  apply (Hs (Z.to_nat i) (Z.to_nat j)); [lia|..];
    rewrite elems_lookup, decide_True by lia; do 2 f_equal; lia.
Qed.

(** The answer of a search: [value] is at [pos], or [pos] splits the array. *)
Definition search_ok (s : intset) (value : Z) (found : bool) (pos : Z) : Prop :=
  let cell := slot (is_encoding s) (is_contents s) in
  if found then 0 <= pos < is_length s /\ cell pos = value
  else 0 <= pos <= is_length s /\
       (forall i, 0 <= i < pos -> cell i < value) /\
       (forall i, pos <= i < is_length s -> value < cell i).

Lemma mid_bounds min max :
  0 <= min <= max -> max < 2 ^ 29 ->
  let mid := Z.shiftr (u32 (u32 min + u32 max)) 1 in min <= mid <= max.
Proof.
  intros Hm Hx mid. subst mid. unfold u32.
  rewrite !uwrap_small by (unfold in_u; rewrite ?uwrap_small by (unfold in_u; lia); lia).
  rewrite Z.shiftr_div_pow2 by lia. change (2 ^ 1) with 2.
  split; [apply Z.div_le_lower_bound | apply Z.div_le_upper_bound]; lia.
Qed.

Lemma search_loop_ok fuel : forall s value min max mid cur,
  wf s -> 0 <= min -> max < is_length s -> min <= max + 1 ->
  (max - min + 1 < Z.of_nat fuel) -> (min <= max \/ cur <> value) ->
  (forall i, 0 <= i < min -> slot (is_encoding s) (is_contents s) i < value) ->
  (forall i, max < i < is_length s -> value < slot (is_encoding s) (is_contents s) i) ->
  exists min' mid' cur',
    intsetSearch_loop fuel s value min max mid cur = Some (min', mid', cur') /\
    ((cur' = value /\ search_ok s value true mid') \/
     (cur' <> value /\ search_ok s value false min')).
Proof.
  induction fuel as [|fuel IH]; intros s value min max mid cur Hwf H0 Hmax Hmm Hf Hc Hlo Hhi; [lia|].
  cbn [intsetSearch_loop]. case_decide as Hge.
  - destruct Hwf as [Hsh Hsrt] eqn:E. clear E. assert (wf s) as Hwf' by done.
    pose proof Hsh as (_ & Hlen & _).
    pose proof (mid_bounds min max ltac:(lia) ltac:(lia)) as Hmid. cbv zeta in Hmid |- *.
    set (m := Z.shiftr _ 1) in *. clearbody m.
    rewrite get_slot by (done || lia). cbn [mbind option_bind].
    repeat case_decide.
    + apply IH; try done; try lia. intros i Hi.
      destruct (decide (i = m)) as [->|]; [lia|].
      pose proof (wf_slot_lt s i m Hwf' ltac:(lia) ltac:(lia)). lia.
    + apply IH; try done; try lia. intros i Hi.
      destruct (decide (i = m)) as [->|]; [lia|].
      pose proof (wf_slot_lt s m i Hwf' ltac:(lia) ltac:(lia)). lia.
    + eexists _, _, _. split; [done|]. left. cbn. lia.
  - eexists _, _, _. split; [done|]. right. cbn. split; [lia|].
    split; [lia|]. split; [done|]. intros i Hi. apply Hhi. lia.
Qed.

Lemma intsetSearch_ok s value :
  wf s -> exists found pos, intsetSearch s value = Some (found, pos) /\ search_ok s value found pos.
Proof.
  intros Hwf. pose proof Hwf as [Hsh _]. pose proof Hsh as (_ & Hlen & _).
  unfold intsetSearch. case_decide.
  { eexists _, _. split; [done|]. cbn. split; [lia|]. split; intros; lia. }
  assert (i32 (is_length s - 1) = is_length s - 1) as -> by (apply swrap_small; unfold in_i; lia).
  rewrite (get_slot s (is_length s - 1)) by (done || lia). cbn [mbind option_bind]. case_decide.
  { eexists _, _. split; [done|]. cbn. split; [lia|]. split; [|lia]. intros i Hi.
    destruct (decide (i = is_length s - 1)) as [->|]; [lia|].
    pose proof (wf_slot_lt s i (is_length s - 1) Hwf ltac:(lia) ltac:(lia)). lia. }
  rewrite get_slot by (done || lia). cbn [mbind option_bind]. case_decide.
  { eexists _, _. split; [done|]. cbn. split; [lia|]. split; [lia|]. intros i Hi.
    destruct (decide (i = 0)) as [->|]; [lia|].
    pose proof (wf_slot_lt s 0 i Hwf ltac:(lia) ltac:(lia)). lia. }
  edestruct (search_loop_ok (S (Z.to_nat (is_length s))) s value 0 (is_length s - 1) (-1) (-1))
    as (min' & mid' & cur' & -> & Hr); try done; try lia.
  cbn [mbind option_bind]. destruct Hr as [[Hc Hs]|[Hc Hs]].
  - rewrite decide_True by done. eauto.
  - rewrite decide_False by (intros ->; done). eauto.
Qed.

Lemma search_ok_split s value pos :
  shape s -> search_ok s value false pos ->
  Forall (fun x => x < value) (take (Z.to_nat pos) (elems s)) /\
  Forall (Z.lt value) (drop (Z.to_nat pos) (elems s)).
Proof.
  intros (_ & Hl & _) (Hp & Hlo & Hhi). rewrite !Forall_lookup. split; intros i x Hx.
  - apply lookup_take_Some in Hx as [Hx Hi]. rewrite elems_lookup in Hx.
    case_decide; simplify_eq. apply Hlo. lia.
  - rewrite lookup_drop, elems_lookup in Hx. case_decide; simplify_eq. apply Hhi. lia.
Qed.

Lemma search_ok_elem s value found pos :
  wf s -> search_ok s value found pos -> (found = true <-> value ∈ elems s).
Proof.
  intros [Hsh _] Hs. destruct found.
  - split; [|done]. intros _. destruct Hs as [Hp Hv].
    apply list_elem_of_lookup. exists (Z.to_nat pos).
    rewrite elems_lookup, decide_True by lia. f_equal. rewrite Z2Nat.id by lia. exact Hv.
  - split; [done|]. intros Hin. pose proof (search_ok_split s value pos Hsh Hs) as [H1 H2].
    rewrite <- (take_drop (Z.to_nat pos) (elems s)) in Hin.
    apply elem_of_app in Hin. rewrite Forall_forall in H1, H2.
    destruct Hin as [Hin|Hin]; [apply H1 in Hin|apply H2 in Hin]; lia.
Qed.

(** ** Resizing and moving *)

Section alloc.
Variable junk : nat -> Z.

Lemma resize_ok s len :
  enc_ok (is_encoding s) -> 0 <= len <= 2 ^ 30 ->
  intsetResize junk s len =
    Some (with_contents s (mem_realloc junk (is_contents s) (is_encoding s * len))).
Proof.
  intros He Hl. unfold intsetResize, u64.
  rewrite uwrap_small by (unfold in_u; enc_cases He; rewrite He; lia).
  unfold assert, SIZE_MAX, sizeof_intset. rewrite decide_True by (enc_cases He; lia).
  cbn [mbind option_bind]. do 3 f_equal. lia.
Qed.

Lemma slot_realloc enc c n i :
  enc_ok enc -> 0 <= i -> enc * (i + 1) <= n -> enc * (i + 1) <= zlen c ->
  slot enc (mem_realloc junk c n) i = slot enc c i.
Proof.
  intros He Hi Hn Hc. unfold slot. f_equal.
  apply slice_mem_realloc; enc_cases He; nia.
Qed.
End alloc.

Lemma moveTail_ok s from to :
  let enc := is_encoding s in
  let n := is_length s - from in
  enc_ok enc -> 0 <= from -> 0 <= n < 2 ^ 29 -> 0 <= to ->
  enc * is_length s <= zlen (is_contents s) ->
  enc * (to + n) <= zlen (is_contents s) ->
  intsetMoveTail s from to =
    Some (with_contents s (splice (is_contents s) (enc * to)
            (slice (is_contents s) (enc * from) (enc * n)))).
Proof.
  intros enc n He Hf Hn Ht Hc Hd. unfold intsetMoveTail. fold n enc. unfold u32.
  rewrite (uwrap_small 32 n) by (unfold in_u; lia).
  assert (forall e, e = enc -> uwrap 32 (n * e) = enc * n) as Hw.
  { intros e ->. rewrite uwrap_small; [lia|]. unfold in_u. enc_cases He; rewrite He; lia. }
  assert (mem_move (is_contents s) (enc * to) (enc * from) (enc * n) =
          Some (splice (is_contents s) (enc * to) (slice (is_contents s) (enc * from) (enc * n)))) as Hm.
  { unfold mem_move. rewrite mem_read_Some by (subst n; enc_cases He; nia). cbn [mbind option_bind].
    apply mem_write_Some; [enc_cases He; lia|].
    rewrite zlen_slice by (subst n; enc_cases He; nia). subst n; lia. }
  enc_cases He; repeat (case_decide; try lia);
    rewrite Hw by lia; rewrite <- He, Hm; reflexivity.
Qed.

Lemma slot_move enc c from to n j :
  enc_ok enc -> 0 <= from -> 0 <= n -> 0 <= to -> 0 <= j ->
  enc * (from + n) <= zlen c -> enc * (to + n) <= zlen c -> j < to + n ->
  slot enc (splice c (enc * to) (slice c (enc * from) (enc * n))) j =
    if decide (to <= j) then slot enc c (from + (j - to)) else slot enc c j.
Proof.
  intros He Hf Hn Ht Hj Hc1 Hc2 Hj2. unfold slot.
  assert (0 < enc) by (enc_cases He; lia).
  assert (zlen (slice c (enc * from) (enc * n)) = enc * n) as Hl by (apply zlen_slice; nia).
  case_decide.
  - rewrite slice_splice_inside by (rewrite ?Hl; nia).
    rewrite slice_slice by nia. do 2 f_equal. lia.
  - rewrite slice_splice_before by (rewrite ?Hl; nia). done.
Qed.

(** ** Insertion and removal *)

Abbreviation cell s := (slot (is_encoding s) (is_contents s)).

Lemma elems_insert s s' pos v :
  is_length s' = is_length s + 1 -> 0 <= pos <= is_length s ->
  (forall i, 0 <= i < pos -> cell s' i = cell s i) ->
  cell s' pos = v ->
  (forall i, pos < i <= is_length s -> cell s' i = cell s (i - 1)) ->
  elems s' = take (Z.to_nat pos) (elems s) ++ v :: drop (Z.to_nat pos) (elems s).
Proof.
  intros Hl Hp Hlo Hv Hhi. pose proof (zlen_elems s ltac:(lia)) as Hz. unfold zlen in Hz.
  apply list_eq. intros i. rewrite elems_lookup.
  destruct (decide (i < Z.to_nat pos)%nat).
  - rewrite lookup_app_l by (rewrite length_take; lia).
    rewrite lookup_take_lt, elems_lookup, !decide_True by lia. f_equal. apply Hlo. lia.
  - rewrite lookup_app_r by (rewrite length_take; lia). rewrite length_take.
    replace (i - _)%nat with (i - Z.to_nat pos)%nat by lia.
    destruct (i - Z.to_nat pos)%nat as [|k] eqn:E; simpl.
    + rewrite decide_True by lia. f_equal. rewrite <- Hv. f_equal. lia.
    + rewrite lookup_drop, elems_lookup. case_decide; [rewrite decide_True by lia | by rewrite decide_False by lia].
      f_equal. rewrite Hhi by lia. f_equal. lia.
Qed.


(** The loop of the upgrade rewrites the array in place, from the last cell to
    the first, without touching a cell it still has to read. *)
Lemma upgrade_loop_ok (n : nat) : forall s prepend curenc (X : Z -> Z),
  enc_ok curenc -> enc_ok (is_encoding s) -> curenc <= is_encoding s ->
  0 <= prepend ->
  is_encoding s * (Z.of_nat n + prepend) <= zlen (is_contents s) ->
  (forall i, 0 <= i < Z.of_nat n -> slot curenc (is_contents s) i = X i) ->
  (forall i, 0 <= i < Z.of_nat n -> in_i (8 * is_encoding s) (X i)) ->
  exists c',
    intsetUpgrade_loop n s prepend curenc = Some (with_contents s c') /\
    zlen c' = zlen (is_contents s) /\
    (forall i, 0 <= i < Z.of_nat n -> slot (is_encoding s) c' (i + prepend) = X i) /\
    (forall j, Z.of_nat n + prepend <= j -> is_encoding s * (j + 1) <= zlen c' ->
       slot (is_encoding s) c' j = slot (is_encoding s) (is_contents s) j).
Proof.
  induction n as [|n IH]; intros s prepend curenc X He1 He2 Hle Hpre Hb HX HR.
  { exists (is_contents s). split; [by destruct s|]. repeat split; intros; lia. }
  assert (0 < curenc) by (enc_cases He1; lia).
  cbn [intsetUpgrade_loop]. rewrite get_encoded_slot by (done || nia). cbn [mbind option_bind].
  rewrite HX by lia. rewrite set_slot by (done || nia). cbn [mbind option_bind].
  set (c1 := splice _ _ _).
  assert (zlen c1 = zlen (is_contents s)) as Hz1.
  { apply zlen_splice; [nia|]. autorewrite with zlen. nia. }
  edestruct (IH (with_contents s c1) prepend curenc X) as (c' & -> & Hz & Hlo & Hhi);
    cbn [with_contents is_encoding is_contents]; try done; try lia.
  { intros i Hi. unfold c1. rewrite slot_splice_other; [apply HX; lia|try done; nia..]. }
  { intros i Hi. apply HR. lia. }
  cbn [with_contents is_encoding is_contents] in Hz, Hlo, Hhi.
  exists c'. split; [done|]. split; [congruence|]. split.
  - intros i Hi. destruct (decide (i < Z.of_nat n)); [apply Hlo; lia|].
    replace i with (Z.of_nat n) by lia.
    rewrite Hhi by nia. apply slot_splice_same; [done|lia|nia|apply HR; lia].
  - intros j Hj Hjb. rewrite Hhi by (done || lia).
    apply slot_splice_other; try done; nia.
Qed.

Section alloc.
Variable junk : nat -> Z.

Lemma upgradeAndAdd_ok s value :
  wf s -> is_length s < 2 ^ 29 -> in_i 64 value -> is_encoding s < _intsetValueEncoding value ->
  exists s', intsetUpgradeAndAdd junk s value = Some s' /\ shape s' /\
    elems s' = if decide (value < 0) then value :: elems s else elems s ++ [value].
Proof.
  intros [Hsh Hs] Hlen Hv Henc. pose proof Hsh as (He & Hl & Hc).
  pose proof (value_encoding_ok value) as Hne.
  assert (0 < is_encoding s) by (enc_cases He; lia).
  assert (in_i (8 * _intsetValueEncoding value) value) as Hvr by (apply value_encoding_le; done || lia).
  unfold intsetUpgradeAndAdd. set (newenc := _intsetValueEncoding value) in *. clearbody newenc.
  set (prepend := if decide (value < 0) then 1 else 0).
  assert (0 <= prepend <= 1) by (subst prepend; case_decide; lia).
  assert (u32 (is_length s + 1) = is_length s + 1) as Hw by (apply uwrap_small; unfold in_u; lia).
  cbn [with_encoding is_length]. rewrite Hw.
  rewrite resize_ok by (done || lia). cbn [mbind option_bind with_encoding with_contents is_contents is_encoding].
  set (c1 := mem_realloc _ _ _).
  assert (zlen c1 = newenc * (is_length s + 1)) as Hz1 by (apply zlen_mem_realloc; nia).
  edestruct (upgrade_loop_ok (Z.to_nat (is_length s))
    (with_contents (with_encoding s newenc) c1) prepend (is_encoding s) (cell s))
    as (c2 & -> & Hz2 & Hcells & _); cbn [with_contents with_encoding is_encoding is_contents]; try done; try lia.
  { nia. }
  { intros i Hi. unfold c1. apply slot_realloc; [done|lia|nia|nia]. }
  { intros i Hi. eapply (in_i_mono (8 * is_encoding s)); [lia|]. apply slot_in_range; [done|lia|nia]. }
  cbn [with_contents with_encoding is_encoding is_contents is_length] in *.
  cbn [mbind option_bind]. cbn [with_contents with_encoding is_length].
  set (p := if decide (value < 0) then 0 else is_length s).
  set (s2 := with_contents _ c2).
  assert (forall a b, (if decide (prepend <> 0) then _intsetSet s2 a b else _intsetSet s2 (is_length s) b) =
    _intsetSet s2 (if decide (value < 0) then a else is_length s) b) as ->.
  { intros. subst prepend. repeat case_decide; try done; lia. }
  fold p. unfold s2. clear s2.
  assert (0 <= p <= is_length s) as Hp by (subst p; case_decide; lia).
  rewrite set_slot by (cbn; first [done | nia]). cbn [mbind option_bind].
  cbn [with_contents with_encoding with_length is_encoding is_contents is_length].
  set (c3 := splice _ _ _). rewrite Hw.
  assert (zlen c3 = newenc * (is_length s + 1)) as Hz3.
  { unfold c3. rewrite zlen_splice; [congruence|nia|]. autorewrite with zlen. nia. }
  eexists. split; [done|]. split.
  { split; [done|]. cbn. lia. }
  set (s' := with_length _ _).
  assert (forall i, 0 <= i < is_length s -> cell s' (i + prepend) = cell s i) as Hold.
  { intros i Hi. cbn. unfold c3. rewrite slot_splice_other; try done; try nia.
    - apply Hcells. lia.
    - subst p prepend. case_decide; nia. }
  assert (cell s' p = value) as Hnew.
  { cbn. apply slot_splice_same; [done|lia|nia|done]. }
  rewrite (elems_insert s s' p value); [|cbn; lia|lia| |done|].
  - subst p. case_decide; [done|]. pose proof (zlen_elems s ltac:(lia)). unfold zlen in *.
    rewrite take_ge, drop_ge by lia. done.
  - intros i Hi. rewrite <- Hold by lia. f_equal. subst p prepend. case_decide; lia.
  - intros i Hi. rewrite <- Hold by lia. f_equal. subst p prepend. case_decide; lia.
Qed.

Lemma addInPlace_ok s value pos :
  wf s -> is_length s < 2 ^ 29 -> in_i (8 * is_encoding s) value -> search_ok s value false pos ->
  exists s',
    (s1 ← intsetResize junk s (u32 (is_length s + 1));
     s2 ← (if decide (pos < is_length s1) then intsetMoveTail s1 pos (u32 (pos + 1)) else Some s1);
     s3 ← _intsetSet s2 pos value;
     Some (with_length s3 (u32 (is_length s3 + 1)))) = Some s' /\ shape s' /\
    elems s' = take (Z.to_nat pos) (elems s) ++ value :: drop (Z.to_nat pos) (elems s).
Proof.
  intros [Hsh Hs] Hlen Hv Hso. pose proof Hsh as (He & Hl & Hc).
  destruct Hso as (Hp & _ & _).
  assert (0 < is_encoding s) by (enc_cases He; lia).
  assert (u32 (is_length s + 1) = is_length s + 1) as Hw by (apply uwrap_small; unfold in_u; lia).
  rewrite Hw, resize_ok by (done || lia). cbn [mbind option_bind with_contents is_length].
  set (c1 := mem_realloc _ _ _).
  assert (zlen c1 = is_encoding s * (is_length s + 1)) as Hz1 by (apply zlen_mem_realloc; nia).
  assert (exists c2, (if decide (pos < is_length s)
      then intsetMoveTail (with_contents s c1) pos (u32 (pos + 1)) else Some (with_contents s c1)) =
      Some (with_contents s c2) /\ zlen c2 = zlen c1 /\
      (forall i, 0 <= i < pos -> slot (is_encoding s) c2 i = cell s i) /\
      (forall i, pos < i <= is_length s -> slot (is_encoding s) c2 i = cell s (i - 1)))
    as (c2 & -> & Hz2 & Hlo & Hhi).
  { assert (forall i, 0 <= i < is_length s -> slot (is_encoding s) c1 i = cell s i) as Hre.
    { intros i Hi. apply slot_realloc; (done || nia). }
    case_decide; [|exists c1; repeat split; intros; try lia; apply Hre; lia].
    unfold u32. rewrite uwrap_small by (unfold in_u; lia).
    rewrite moveTail_ok by (cbn; done || nia). eexists. split; [done|].
    cbn [with_contents is_encoding is_length is_contents]. split.
    { apply zlen_splice; [nia|]. rewrite zlen_slice by nia. nia. }
    split; intros i Hi; rewrite slot_move by (done || nia).
    - rewrite decide_False by lia. apply Hre; lia.
    - rewrite decide_True by lia. rewrite Hre by lia. f_equal. lia. }
  cbn [mbind option_bind].
  rewrite set_slot by (cbn; first [done|nia]). cbn [mbind option_bind].
  cbn [with_contents with_length is_encoding is_contents is_length].
  set (c3 := splice _ _ _). rewrite Hw.
  assert (zlen c3 = zlen c1) as Hz3.
  { unfold c3. rewrite zlen_splice; [done|nia|]. autorewrite with zlen. nia. }
  eexists. split; [done|]. split. { split; [done|]. cbn. lia. }
  apply elems_insert; cbn [with_contents with_length is_encoding is_contents is_length]; try lia.
  - intros i Hi. unfold c3. rewrite slot_splice_other by (done || nia). apply Hlo. lia.
  - apply slot_splice_same; (done || nia).
  - intros i Hi. unfold c3. rewrite slot_splice_other by (done || nia). apply Hhi. lia.
Qed.
End alloc.


Lemma elems_in_range s x : shape s -> x ∈ elems s -> in_i (8 * is_encoding s) x.
Proof.
  intros (He & Hl & Hc) Hx. apply list_elem_of_lookup in Hx as [i Hi].
  rewrite elems_lookup in Hi. case_decide; simplify_eq.
  apply slot_in_range; [done|lia|]. rewrite Hc. enc_cases He; nia.
Qed.

(** A value that needs a wider encoding lies outside the range of the members. *)
Lemma upgrade_sorted s value :
  wf s -> in_i 64 value -> is_encoding s < _intsetValueEncoding value ->
  value ∉ elems s /\
  StronglySorted Z.lt (if decide (value < 0) then value :: elems s else elems s ++ [value]).
Proof.
  intros [Hsh Hs] Hv Henc. pose proof Hsh as (He & _).
  assert (~ in_i (8 * is_encoding s) value) as Hout.
  { rewrite <- value_encoding_le by done. lia. }
  pose proof (fun x => elems_in_range s x Hsh) as Hr. unfold in_i in *.
  split; [intros Hin; apply Hout, Hr, Hin|].
  case_decide.
  - constructor; [done|]. apply Forall_forall. intros x Hx. specialize (Hr x Hx). lia.
  - rewrite <- (app_nil_r (elems s)) in Hs. apply StronglySorted_insert; [done| |constructor].
    apply Forall_forall. intros x Hx. specialize (Hr x Hx). lia.
Qed.

Section alloc.
Variable junk : nat -> Z.

(** C13: Adding an integer to an intset of less than 2^29 members never leaves the
    array, keeps the invariant, adds exactly that member, and reports success
    exactly when it was not there.  The bound is where the uint32_t byte count of
    [intsetMoveTail] still holds the size of the tail for every encoding; at 2^29
    members of 64 bits it wraps around ([moveTail_count_wraps]). *)
Theorem intsetAdd_correct s value :
  wf s -> is_length s < 2 ^ 29 -> in_i 64 value ->
  exists s' success,
    intsetAdd junk s value = Some (s', success) /\ wf s' /\
    (success = true <-> value ∉ elems s) /\
    is_length s' = is_length s + (if success then 1 else 0) /\
    (forall x, x ∈ elems s' <-> x = value \/ x ∈ elems s).
Proof.
  intros Hwf Hlen Hv. pose proof Hwf as [Hsh Hs]. pose proof Hsh as (He & Hl & _).
  unfold intsetAdd. case_decide as Henc.
  - destruct (upgradeAndAdd_ok junk s value) as (s' & -> & Hsh' & Hel); [done|done|done|lia|].
    destruct (upgrade_sorted s value) as [Hnin Hs']; [done|done|lia|].
    cbn [mbind option_bind]. exists s', true. rewrite <- Hel in Hs'.
    pose proof Hsh' as (_ & Hl' & _).
    split; [done|]. split; [done|]. split; [done|]. split.
    + rewrite <- (zlen_elems s'), <- (zlen_elems s), Hel by lia. case_decide; zlia.
    + intros x. rewrite Hel. case_decide; set_solver.
  - destruct (intsetSearch_ok s value Hwf) as (found & pos & -> & Hso).
    cbn [mbind option_bind]. pose proof (search_ok_elem s value found pos Hwf Hso) as Hin.
    destruct found.
    + exists s, false. split; [done|]. split; [done|]. split; [|split; [lia|]].
      * split; [done|]. intros Hn. exfalso. apply Hn, Hin. done.
      * intros x. destruct Hin as [Hin _]. specialize (Hin eq_refl). set_solver.
    + assert (in_i (8 * is_encoding s) value) as Hvr by (apply value_encoding_le; done || lia).
      destruct (addInPlace_ok junk s value pos Hwf Hlen Hvr Hso) as (s' & Heq & Hsh' & Hel).
      assert (StronglySorted Z.lt (elems s')) as Hs'.
      { rewrite Hel. apply StronglySorted_insert; [by rewrite take_drop|..]; by apply search_ok_split. }
      pose proof Hsh' as (_ & Hl' & _).
      exists s', true. split; [|split; [done|split; [|split]]].
      * follow Heq. by simplify_eq.
      * split; [|done]. intros _ Hx. apply Hin in Hx. done.
      * rewrite <- (zlen_elems s'), <- (zlen_elems s), Hel by lia.
        rewrite <- (take_drop (Z.to_nat pos) (elems s)) at 3. zlia.
      * intros x. rewrite Hel. rewrite <- (take_drop (Z.to_nat pos) (elems s)) at 3. set_solver.
Qed.

End alloc.

(** Membership test: no access outside the array, and the right answer. *)
Theorem intsetFind_correct s value :
  wf s -> in_i 64 value -> intsetFind s value = Some (bool_decide (value ∈ elems s)).
Proof.
  intros Hwf Hv. pose proof Hwf as [Hsh _]. pose proof Hsh as (He & _).
  unfold intsetFind. case_decide.
  - destruct (intsetSearch_ok s value Hwf) as (found & pos & -> & Hso). cbn. f_equal.
    pose proof (search_ok_elem s value found pos Hwf Hso) as Hin.
    case_bool_decide; destruct found; tauto || (exfalso; intuition congruence).
  - rewrite bool_decide_false; [done|]. intros Hin. apply (elems_in_range s) in Hin; [|done].
    apply value_encoding_le in Hin; [lia|done|done].
Qed.

(** The accessors: [intsetMin] and [intsetMax] return the bounds of the members,
    [intsetGet] the member at a position and nothing past the end,
    [intsetRandom] a member whatever [rand()] returns. *)
Theorem intset_accessors s :
  wf s -> 0 < is_length s ->
  (exists lo, intsetMin s = Some lo /\ lo ∈ elems s /\ forall x, x ∈ elems s -> lo <= x) /\
  (exists hi, intsetMax s = Some hi /\ hi ∈ elems s /\ forall x, x ∈ elems s -> x <= hi) /\
  (forall pos, in_u 32 pos -> intsetGet s pos = Some (elems s !! Z.to_nat pos)) /\
  (forall r, 0 <= r -> exists x, intsetRandom r s = Some x /\ x ∈ elems s).
Proof.
  intros Hwf Hpos. pose proof Hwf as [Hsh _]. pose proof Hsh as (_ & Hl & _).
  assert (forall i, 0 <= i < is_length s -> elems s !! Z.to_nat i = Some (cell s i)) as Hlk.
  { intros i Hi. rewrite elems_lookup, decide_True by lia. do 2 f_equal. lia. }
  assert (forall i, 0 <= i < is_length s -> cell s i ∈ elems s) as Hin.
  { intros i Hi. apply list_elem_of_lookup. exists (Z.to_nat i). auto. }
  assert (forall x, x ∈ elems s -> exists i, 0 <= i < is_length s /\ x = cell s i) as Hex.
  { intros x Hx. apply list_elem_of_lookup in Hx as [i Hi]. rewrite elems_lookup in Hi.
    case_decide; simplify_eq. exists (Z.of_nat i). split; [lia|done]. }
  split; [|split; [|split]].
  - exists (cell s 0). split; [apply get_slot; done || lia|]. split; [apply Hin; lia|].
    intros x Hx. apply Hex in Hx as (i & Hi & ->). destruct (decide (i = 0)) as [->|]; [lia|].
    pose proof (wf_slot_lt s 0 i Hwf ltac:(lia) ltac:(lia)). lia.
  - exists (cell s (is_length s - 1)). unfold intsetMax, u32, i32.
    rewrite uwrap_small, swrap_small by (unfold in_u, in_i; lia).
    split; [apply get_slot; done || lia|]. split; [apply Hin; lia|].
    intros x Hx. apply Hex in Hx as (i & Hi & ->).
    destruct (decide (i = is_length s - 1)) as [->|]; [lia|].
    pose proof (wf_slot_lt s i (is_length s - 1) Hwf ltac:(lia) ltac:(lia)). lia.
  - intros pos Hp. unfold in_u in Hp. unfold intsetGet. case_decide.
    + unfold i32. rewrite swrap_small by (unfold in_i; lia).
      rewrite get_slot by (done || lia). cbn. by rewrite Hlk by lia.
    + rewrite elems_lookup, decide_False by lia. done.
  - intros r Hr. pose proof (Z.mod_pos_bound r (is_length s) ltac:(lia)).
    exists (cell s (r mod is_length s)). unfold intsetRandom, assert.
    rewrite decide_True by lia. cbn. split; [apply get_slot; done || lia|apply Hin; lia].
Qed.

(** ** Validation of a raw blob *)

Lemma intset_of_blob_ok p :
  bytes_ok p -> 8 <= zlen p ->
  exists s, intset_of_blob p = Some s /\ p = blob_of_intset s /\
    in_u 32 (is_encoding s) /\ in_u 32 (is_length s) /\ zlen p = 8 + zlen (is_contents s).
Proof.
  intros Hp Hl. unfold intset_of_blob. rewrite !mem_read_Some by lia. cbn [mbind option_bind].
  eexists. split; [done|]. unfold blob_of_intset. cbn [is_encoding is_length is_contents].
  assert (forall off, 0 <= off -> off + 4 <= zlen p ->
    le_bytes 4 (le_val (slice p off 4)) = slice p off 4 /\ in_u 32 (le_val (slice p off 4))) as Hw.
  { intros off H1 H2. assert (zlen (slice p off 4) = 4) as Hz by (apply zlen_slice; lia). split.
    - change 4%nat with (Z.to_nat 4). rewrite <- Hz at 1. unfold zlen. rewrite Nat2Z.id.
      apply le_bytes_le_val, bytes_ok_slice, Hp.
    - pose proof (le_val_bound (slice p off 4) (bytes_ok_slice _ _ _ Hp)) as Hb. by rewrite Hz in Hb. }
  destruct (Hw 0 ltac:(lia) ltac:(lia)) as [-> ?]. destruct (Hw 4 ltac:(lia) ltac:(lia)) as [-> ?].
  split; [|repeat split; try (unfold in_u in *; lia); zlia].
  rewrite app_assoc. change (slice p 4 4) with (slice p (0 + 4) 4).
  rewrite <- (slice_split p 0 4 4) by lia. unfold slice.
  change (Z.to_nat 0) with 0%nat. rewrite drop_0. change (Z.to_nat (4 + 4)) with 8%nat.
  symmetry. apply take_drop.
Qed.

Lemma validate_loop_ok n : forall s i prev,
  shape s -> 1 <= i -> i + Z.of_nat n = is_length s -> prev = cell s (i - 1) ->
  exists b, intsetValidate_loop n s i prev = Some b /\
    (b = true <-> forall j, i <= j < is_length s -> cell s (j - 1) < cell s j).
Proof.
  induction n as [|n IH]; intros s i prev Hsh Hi Hn ->; cbn [intsetValidate_loop].
  { exists true. split; [done|]. split; [|done]. intros; lia. }
  pose proof Hsh as (_ & Hl & _). unfold i32. rewrite swrap_small by (unfold in_i; lia).
  rewrite get_slot by (done || lia). cbn [mbind option_bind]. case_decide.
  - exists false. split; [done|]. split; [done|]. intros Hj. specialize (Hj i ltac:(lia)). lia.
  - destruct (IH s (i + 1) (cell s i)) as (b & -> & Hb); [done|lia|lia|f_equal; lia|].
    exists b. split; [done|]. rewrite Hb. split; intros Hj j Hij; [|apply Hj; lia].
    destruct (decide (j = i)) as [->|]; [lia|]. apply Hj. lia.
Qed.

Lemma adjacent_sorted s :
  0 <= is_length s ->
  (forall j, 1 <= j < is_length s -> cell s (j - 1) < cell s j) <-> StronglySorted Z.lt (elems s).
Proof.
  intros Hl. rewrite StronglySorted_lookup. split.
  - intros Hadj.
    assert (forall (d : nat) i, 0 <= i -> i + Z.of_nat d + 1 < is_length s ->
      cell s i < cell s (i + Z.of_nat d + 1)) as Hd.
    { induction d as [|d IH]; intros i Hi Hb.
      - replace (i + Z.of_nat 0 + 1) with (i + 1) by lia.
        specialize (Hadj (i + 1) ltac:(lia)). replace (i + 1 - 1) with i in Hadj by lia. done.
      - specialize (IH i Hi ltac:(lia)). specialize (Hadj (i + Z.of_nat (S d) + 1) ltac:(lia)).
        replace (i + Z.of_nat (S d) + 1 - 1) with (i + Z.of_nat d + 1) in Hadj by lia. lia. }
    intros i j x y Hij. rewrite !elems_lookup. repeat case_decide; try done. intros. simplify_eq.
    specialize (Hd (j - i - 1)%nat (Z.of_nat i) ltac:(lia)).
    replace (Z.of_nat i + Z.of_nat (j - i - 1) + 1) with (Z.of_nat j) in Hd by lia. apply Hd. lia.
  - intros Hs j Hj. apply (Hs (Z.to_nat (j - 1)) (Z.to_nat j)); [lia|..];
      rewrite elems_lookup, decide_True by lia; do 2 f_equal; lia.
Qed.

(** C39: The validation of an untrusted payload of at most 2^30 bytes never reads
    outside it.  It accepts exactly the payloads that are a non-empty intset: a
    known encoding, an array of the length in the header that fills the rest of
    the payload, at least one member, and, if [deep] is set, strictly increasing
    members.  The empty intset is rejected. *)
Theorem intsetValidateIntegrity_correct p deep :
  bytes_ok p -> zlen p <= 2 ^ 30 ->
  exists b, intsetValidateIntegrity p (zlen p) deep = Some b /\
    (b = true <-> exists s, intset_of_blob p = Some s /\ p = blob_of_intset s /\
                  shape s /\ is_length s <> 0 /\ (deep = true -> StronglySorted Z.lt (elems s))).
Proof.
  intros Hp Hsz. unfold intsetValidateIntegrity, sizeof_intset. case_decide as Hlt.
  { exists false. split; [done|]. split; [done|]. intros (s & _ & -> & _). exfalso.
    unfold blob_of_intset in Hlt. zlia. }
  destruct (intset_of_blob_ok p Hp ltac:(lia)) as (s & -> & Hblob & Henc & Hlen & Hz).
  cbn [mbind option_bind]. unfold in_u in *.
  assert ((exists s0, Some s = Some s0 /\ p = blob_of_intset s0 /\ shape s0 /\ is_length s0 <> 0 /\
            (deep = true -> StronglySorted Z.lt (elems s0))) <->
          (shape s /\ is_length s <> 0 /\ (deep = true -> StronglySorted Z.lt (elems s)))) as Hiff by naive_solver.
  setoid_rewrite Hiff. clear Hiff.
  case_decide as He.
  2: { exists false. split; [done|]. split; [done|]. intros [(He' & _) _]. unfold enc_ok in *. tauto. }
  assert (enc_ok (is_encoding s)) as Heok by (unfold enc_ok; tauto).
  assert (u64 (8 + is_length s * is_encoding s) = 8 + is_length s * is_encoding s) as ->.
  { apply uwrap_small. unfold in_u. enc_cases Heok; lia. }
  case_decide as Hsize.
  { exists false. split; [done|]. split; [done|]. intros [(_ & _ & Hc) _]. lia. }
  assert (0 <= is_length s <= 2 ^ 29) by (enc_cases Heok; lia).
  assert (shape s) as Hsh by (split; [done|]; lia).
  case_decide as H0. { exists false. split; [done|]. split; [done|]. tauto. }
  destruct deep; cbn [negb]; [|by exists true]. rewrite get_slot by (done || lia). cbn [mbind option_bind].
  destruct (validate_loop_ok (Z.to_nat (is_length s - 1)) s 1 (cell s 0)) as (b & -> & Hb);
    [done|lia|lia|done|].
  exists b. split; [done|]. rewrite Hb, adjacent_sorted by lia. tauto.
Qed.

(** ** The limit of [intsetMoveTail]

    The byte count of the move is a uint32_t: with 2^29 cells of 8 bytes it wraps
    to 0 and nothing is moved, so the insertion that follows overwrites a member. *)
Lemma moveTail_count_wraps s :
  is_encoding s = INTSET_ENC_INT64 -> is_length s = 2 ^ 29 ->
  8 * (is_length s + 1) <= zlen (is_contents s) ->
  intsetMoveTail s 0 1 = Some s.
Proof.
  intros He Hl Hz. unfold intsetMoveTail. rewrite Hl, He. rewrite decide_True by done.
  unfold u32. rewrite (uwrap_small 32 (2 ^ 29 - 0)) by (unfold in_u; lia).
  change (uwrap 32 ((2 ^ 29 - 0) * 8)) with 0. unfold mem_move.
  rewrite mem_read_Some by lia. cbn [mbind option_bind].
  rewrite mem_write_Some by (rewrite ?zlen_slice by lia; lia). cbn [mbind option_bind].
  unfold splice, slice. change (Z.to_nat 0) with 0%nat. rewrite take_0. cbn [app length].
  rewrite Nat.add_0_r, take_drop. by destruct s.
Qed.

(** ** Concrete instances *)

(** The set {1, 5} at 16 bits. *)
Definition intset_1_5 : intset := Intset INTSET_ENC_INT16 2 [1; 0; 5; 0].

Lemma wf_intset_1_5 : wf intset_1_5.
Proof.
  split; [split; [by left|split; [cbn; lia|reflexivity]]|].
  change (elems intset_1_5) with [1; 5]. repeat constructor.
Qed.

Lemma intsetAdd_correct_witness :
  exists s', intsetAdd (fun _ => 0) intset_1_5 70000 = Some (s', true) /\ wf s' /\ is_length s' = 3 /\
    (forall x, x ∈ elems s' <-> x = 70000 \/ x ∈ elems intset_1_5).
Proof.
  destruct (intsetAdd_correct (fun _ => 0) intset_1_5 70000) as (s' & b & E & Hwf & _ & Hl & H);
    [apply wf_intset_1_5|cbn; lia|unfold in_i; lia|].
  assert (b = true) as -> by (revert E; vm_compute; congruence). by exists s'.
Defined.


Lemma intsetFind_correct_witness :
  intsetFind intset_1_5 5 = Some (bool_decide (5 ∈ elems intset_1_5)).
Proof. apply (intsetFind_correct intset_1_5 5); [apply wf_intset_1_5|unfold in_i; lia]. Defined.

Lemma intset_accessors_witness :
  exists lo, intsetMin intset_1_5 = Some lo /\ lo ∈ elems intset_1_5 /\
    forall x, x ∈ elems intset_1_5 -> lo <= x.
Proof. apply (intset_accessors intset_1_5); [apply wf_intset_1_5|reflexivity]. Defined.

(** The members 5, 1 in the wrong order pass the shallow check only. *)
Lemma intsetValidateIntegrity_correct_witness :
  (exists s, intset_of_blob (blob_of_intset intset_1_5) = Some s /\ blob_of_intset intset_1_5 = blob_of_intset s /\
    shape s /\ is_length s <> 0 /\ (true = true -> StronglySorted Z.lt (elems s))) /\
  let p := [2; 0; 0; 0; 2; 0; 0; 0; 5; 0; 1; 0] in
  intsetValidateIntegrity p 12 false = Some true /\
  ~ exists s, intset_of_blob p = Some s /\ p = blob_of_intset s /\ shape s /\ is_length s <> 0 /\ (true = true -> StronglySorted Z.lt (elems s)).
Proof.
  split; [|intros p; split; [reflexivity|]].
  - destruct (intsetValidateIntegrity_correct (blob_of_intset intset_1_5) true) as (b & Hb & H); [|vm_compute; discriminate|].
    { vm_compute. repeat constructor; discriminate. }
    apply H. revert Hb. vm_compute. congruence.
  - destruct (intsetValidateIntegrity_correct p true) as (b & Hb & H); [|vm_compute; discriminate|].
    { vm_compute. repeat constructor; discriminate. }
    rewrite <- H. revert Hb. vm_compute. congruence.
Defined.

(** The executable model on a few sets. *)
Example add_then_find :
  (s1 ← intsetAdd (fun _ => 255) intset_1_5 (-70000);
   s2 ← intsetAdd (fun _ => 255) s1.1 3;
   Some (elems s2.1, is_encoding s2.1, s2.2)) = Some ([-70000; 1; 3; 5], 4, true).
Proof. vm_compute. reflexivity. Qed.

Example remove_keeps_order :
  (s1 ← intsetRemove (fun _ => 255) intset_1_5 1; Some (elems s1.1)) = Some [5].
Proof. vm_compute. reflexivity. Qed.
