(* ===== verification/Util.v ===== *)
(** * Number and string conversions (util.c)

    [string2ll] / [ll2string] and their relatives: the conversions every command
    that stores an integer goes through.  A [char] is a [Z] (signed, as on the
    targets Redis runs on); a C buffer is the list of its cells, so a store past
    its end is [None]. *)

From S2P Require Import Prelude.
From Stdlib Require Import Ascii String.

Abbreviation chars := (list Z).

(** The characters of a string literal. *)
Definition lit (s : string) : chars :=
  (fun a => Z.of_N (N_of_ascii a)) <$> list_ascii_of_string s.

Abbreviation ch_nul := 0.
Abbreviation ch_minus := 45.
Abbreviation ch_dot := 46.
Abbreviation ch_0 := 48.
Abbreviation ch_1 := 49.
Abbreviation ch_9 := 57.

Definition LONG_STR_SIZE : Z := 21.

(** [digits10]: the number of decimal digits; [fuel] bounds the C recursion on
    [v / 10^12], of which a 64-bit value needs one. *)
Fixpoint digits10_rec (fuel : nat) (v : Z) : Z :=
  match fuel with
  | O => 0
  | S fuel =>
    if decide (v < 10) then 1
    else if decide (v < 100) then 2
    else if decide (v < 1000) then 3
    else if decide (v < 1000000000000) then
      if decide (v < 100000000) then
        if decide (v < 1000000) then
          if decide (v < 10000) then 4
          else 5 + (if decide (v >= 100000) then 1 else 0)
        else 7 + (if decide (v >= 10000000) then 1 else 0)
      else if decide (v < 10000000000) then
        9 + (if decide (v >= 1000000000) then 1 else 0)
      else 11 + (if decide (v >= 100000000000) then 1 else 0)
    else 12 + digits10_rec fuel (v / 1000000000000)
  end.

Definition digits10 (v : Z) : Z := digits10_rec 2 v.

(** Like digits10() but for signed values. *)
Definition sdigits10 (v : Z) : Z :=
  if decide (v < 0) then
    let uv := if decide (v <> LLONG_MIN) then u64 (- v) else LLONG_MAX + 1 in
    digits10 uv + 1
  else digits10 v.

(** The table of the hundred two-digit strings. *)
Definition digits : chars :=
  lit "0001020304050607080910111213141516171819" ++
  lit "2021222324252627282930313233343536373839" ++
  lit "4041424344454647484950515253545556575859" ++
  lit "6061626364656667686970717273747576777879" ++
  lit "8081828384858687888990919293949596979899".

(** [while (value >= 100) {...}] of [ull2string]; [dst] starts at cell [o]. *)
Fixpoint ull2string_loop (fuel : nat) (dst : chars) (o value next : Z) : option (chars * Z * Z) :=
  match fuel with
  | O => None
  | S fuel =>
    if decide (value >= 100) then
      let i := (value mod 100) * 2 in
      let value := value / 100 in
      d1 ← peek digits (i + 1);
      dst ← poke dst (o + next) d1;
      d0 ← peek digits i;
      dst ← poke dst (o + u32 (next - 1)) d0;
      ull2string_loop fuel dst o value (u32 (next - 2))
    else Some (dst, value, next)
  end.

(** Handle last 1-2 digits. *)
Definition ull2string_last (dst : chars) (o value next : Z) : option chars :=
  if decide (value < 10) then poke dst (o + next) (ch_0 + value)
  else
    let i := value * 2 in
    d1 ← peek digits (i + 1);
    dst ← poke dst (o + next) d1;
    d0 ← peek digits i;
    poke dst (o + u32 (next - 1)) d0.

(** The [err:] label: force a NUL terminator. *)
Definition string_err (dst : chars) (o dstlen : Z) : option (chars * Z) :=
  if decide (dstlen > 0) then dst ← poke dst o ch_nul; Some (dst, 0) else Some (dst, 0).

(** Convert an unsigned long long into a string: the buffer and the returned
    length. *)
Definition ull2string (dst : chars) (o dstlen value : Z) : option (chars * Z) :=
  let length := digits10 value in
  if decide (length >= dstlen) then string_err dst o dstlen
  else
    let next := u32 (length - 1) in
    dst ← poke dst (o + u32 (next + 1)) ch_nul;
    '(dst, value, next) ← ull2string_loop 11 dst o value next;
    dst ← ull2string_last dst o value next;
    Some (dst, length).

(** Convert a long long into a string. *)
Definition ll2string (dst : chars) (dstlen svalue : Z) : option (chars * Z) :=
  if decide (svalue < 0) then
    let value := if decide (svalue <> LLONG_MIN) then u64 (- svalue) else LLONG_MAX + 1 in
    if decide (dstlen < 2) then string_err dst 0 dstlen
    else
      dst ← poke dst 0 ch_minus;
      '(dst, length) ← ull2string dst 1 (dstlen - 1) value;
      if decide (length = 0) then Some (dst, 0) else Some (dst, length + 1)
  else
    '(dst, length) ← ull2string dst 0 dstlen svalue;
    if decide (length = 0) then Some (dst, 0) else Some (dst, length + 0).

(** The loop of [string2ll] over the digits after the first: [None] is a read
    outside the string, [Some None] the overflow exit. *)
Fixpoint string2ll_loop (fuel : nat) (s : chars) (slen plen v : Z) : option (option (Z * Z)) :=
  match fuel with
  | O => None
  | S fuel =>
    if decide (plen < slen) then
      p0 ← peek s plen;
      if decide (p0 >= ch_0 /\ p0 <= ch_9) then
        if decide (v > ULLONG_MAX / 10) then Some None
        else
          let v := u64 (v * 10) in
          if decide (v > u64 (ULLONG_MAX - (p0 - ch_0))) then Some None
          else string2ll_loop fuel s slen (plen + 1) (u64 (v + (p0 - ch_0)))
      else Some (Some (plen, v))
    else Some (Some (plen, v))
  end.

(** The part of [string2ll] after the sign. *)
Definition string2ll_tail (s : chars) (slen : Z) (negative : bool) (plen : Z) : option (option Z) :=
  p0 ← peek s plen;
  if decide (p0 >= ch_1 /\ p0 <= ch_9) then
    r ← string2ll_loop (S (Z.to_nat slen)) s slen (plen + 1) (p0 - ch_0);
    match r with
    | None => Some None
    | Some (plen, v) =>
      if decide (plen < slen) then Some None
      else if negative then
        if decide (v > u64 (- (LLONG_MIN + 1) + 1)) then Some None
        else Some (Some (i64 (u64 (- v))))
      else
        if decide (v > LLONG_MAX) then Some None
        else Some (Some (i64 v))
    end
  else Some None.

(** Convert a string into a long long: [Some (Some v)] is the return value 1
    with [*value = v], [Some None] the return value 0. *)
Definition string2ll (s : chars) (slen : Z) : option (option Z) :=
  if decide (0 = slen \/ slen >= LONG_STR_SIZE) then Some None
  else
    s0 ← peek s 0;
    if decide (slen = 1 /\ s0 = ch_0) then Some (Some 0)
    else
      let negative := bool_decide (s0 = ch_minus) in
      let plen := if negative then 1 else 0 in
      if decide (negative = true /\ plen = slen) then Some None
      else string2ll_tail s slen negative plen.

(** Convert a string into a long (64 bits). *)
Definition string2l (s : chars) (slen : Z) : option (option Z) :=
  r ← string2ll s slen;
  match r with
  | None => Some None
  | Some llval => if decide (llval < LLONG_MIN \/ llval > LLONG_MAX) then Some None else Some (Some llval)
  end.

(** [while (value >= 100) {...}] of [fixedpoint_d2string]. *)
Fixpoint fixedpoint_loop (fuel : nat) (dst : chars) (o integer_digits value next : Z)
  : option (chars * Z * Z) :=
  match fuel with
  | O => None
  | S fuel =>
    if decide (value >= 100) then
      let i := (value mod 100) * 2 in
      let value := value / 100 in
      d1 ← peek digits (i + 1);
      dst ← poke dst (o + next) d1;
      d0 ← peek digits i;
      dst ← poke dst (o + (next - 1)) d0;
      let next := next - 2 in
      let next := if decide (next = integer_digits) then next - 1 else next in
      fixedpoint_loop fuel dst o integer_digits value next
    else Some (dst, value, next)
  end.

(** [fixedpoint_d2string]: [dzero] is [dvalue == 0] and [svalue] the scaled and
    rounded value [llrint(dvalue * powers_of_ten[fractional_digits])]; the
    floating-point operations themselves are outside the model. *)
Definition fixedpoint_d2string (dst : chars) (dstlen : Z) (dzero : bool) (svalue fractional_digits : Z)
  : option (chars * Z) :=
  if decide (fractional_digits < 1 \/ fractional_digits > 17) then string_err dst 0 dstlen
  else if decide (i32 dstlen < fractional_digits + 3) then string_err dst 0 dstlen
  else if dzero then
    dst ← poke dst 0 ch_0;
    dst ← poke dst 1 ch_dot;
    dst ← mem_write dst 2 (replicate (Z.to_nat fractional_digits) ch_0);
    dst ← poke dst (fractional_digits + 2) ch_nul;
    Some (dst, fractional_digits + 2)
  else
    let negative := bool_decide (svalue < 0) in
    let value := if negative
                 then (if decide (svalue <> LLONG_MIN) then u64 (- svalue) else LLONG_MAX + 1)
                 else svalue in
    if decide (negative = true /\ dstlen < 2) then string_err dst 0 dstlen
    else
      dst ← (if negative then poke dst 0 ch_minus else Some dst);
      let o := if negative then 1 else 0 in
      let dstlen := if negative then dstlen - 1 else dstlen in
      let ndigits := digits10 value in
      if decide (ndigits >= dstlen) then string_err dst o dstlen
      else
        let integer_digits := ndigits - fractional_digits in
        '(dst, integer_digits) ← (if decide (integer_digits < 1)
                                  then dst ← poke dst o ch_0; Some (dst, 1)
                                  else Some (dst, integer_digits));
        dst ← poke dst (o + integer_digits) ch_dot;
        let size := integer_digits + 1 + fractional_digits in
        dst ← mem_write dst (o + integer_digits + 1) (replicate (Z.to_nat fractional_digits) ch_0);
        '(dst, value, next) ← fixedpoint_loop 11 dst o integer_digits value (size - 1);
        dst ← (if decide (value < 10) then poke dst (o + next) (ch_0 + value)
               else
                 let i := value * 2 in
                 d1 ← peek digits (i + 1);
                 dst ← poke dst (o + next) d1;
                 d0 ← peek digits i;
                 poke dst (o + (next - 1)) d0);
        dst ← poke dst (o + size) ch_nul;
        Some (dst, size + (if negative then 1 else 0)).

(** The loop that skips the leading digits of a NUL-terminated string. *)
Fixpoint skip_digits (p : chars) : chars :=
  match p with
  | c :: rest => if decide (c >= ch_0 /\ c <= ch_9) then skip_digits rest else p
  | [] => []
  end.

(** [tolower] and [strcasecmp(u, w) == 0] of the C locale. *)
Definition tolower (c : Z) : Z := if decide (65 <= c <= 90) then c + 32 else c.

Fixpoint strcaseeq (u w : chars) : bool :=
  match u, w with
  | [], [] => true
  | a :: u, b :: w => bool_decide (tolower a = tolower b) && strcaseeq u w
  | _, _ => false
  end.

(** [strtoull(buf, &endptr, 10)] on a string of digits: saturates. *)
Fixpoint dval (acc : Z) (l : chars) : Z :=
  match l with
  | [] => acc
  | c :: l => dval (10 * acc + (c - ch_0)) l
  end.

Definition strtoull_digits (l : chars) : Z := Z.min (dval 0 l) ULLONG_MAX.

(** The unit suffix of [memtoull]. *)
Definition memtoull_unit (u : chars) : option Z :=
  if (bool_decide (u = []) || strcaseeq u (lit "b")) then Some 1
  else if strcaseeq u (lit "k") then Some 1000
  else if strcaseeq u (lit "kb") then Some 1024
  else if strcaseeq u (lit "m") then Some (1000 * 1000)
  else if strcaseeq u (lit "mb") then Some (1024 * 1024)
  else if strcaseeq u (lit "g") then Some (1000 * 1000 * 1000)
  else if strcaseeq u (lit "gb") then Some (1024 * 1024 * 1024)
  else None.

(** Convert a string representing an amount of memory into the number of bytes:
    [None] is the return with [*err = 1].  [p] is the string without its NUL. *)
Definition memtoull (p : chars) : option Z :=
  if decide (head p = Some ch_minus) then None
  else
    let u := skip_digits p in
    mul ← memtoull_unit u;
    let digits := zlen p - zlen u in
    if decide (digits >= 128) then None
    else Some (u64 (strtoull_digits (take (Z.to_nat digits) p) * mul)).

(** Search a memory buffer for any set of bytes, like strpbrk(): the index of
    the first hit. *)
Fixpoint mempbrk (s : chars) (chars_ : chars) (j : Z) : option Z :=
  match s with
  | [] => None
  | c :: s => if bool_decide (c ∈ chars_) then Some j else mempbrk s chars_ (j + 1)
  end.

(** The inner loop of [memmapchars] for one character. *)
Fixpoint mapchar (c : Z) (from to : chars) : Z :=
  match from, to with
  | f :: from, t :: to => if decide (c = f) then t else mapchar c from to
  | _, _ => c
  end.

(** Replace the characters of the [from] set by those of the [to] set. *)
Definition memmapchars (s from to : chars) : chars := (fun c => mapchar c from to) <$> s.

(** ** Decimal strings *)

Definition digit (c : Z) : Prop := ch_0 <= c <= ch_9.

(** [s] is the decimal representation of the natural number [n]: digits only,
    no leading zero. *)
Definition udecimal (s : chars) (n : Z) : Prop :=
  s <> [] /\ Forall digit s /\ dval 0 s = n /\ (forall t, s = ch_0 :: t -> t = []).

(** [s] is the decimal representation of the integer [v]. *)
Definition sdecimal (s : chars) (v : Z) : Prop :=
  (0 <= v /\ udecimal s v) \/ (v < 0 /\ exists t, s = ch_minus :: t /\ udecimal t (- v)).

Lemma dval_app l k acc : dval acc (l ++ k) = dval (dval acc l) k.
Proof. revert acc. induction l; intros; simpl; auto. Qed.

Lemma dval_shift l acc : dval acc l = acc * 10 ^ zlen l + dval 0 l.
Proof.
  revert acc. induction l as [|c l IH]; intros acc.
  - rewrite zlen_nil, Z.pow_0_r. cbn [dval]. lia.
  - cbn [dval]. rewrite IH, (IH (10 * 0 + _)). rewrite zlen_cons, Z.pow_add_r by zlia. lia.
Qed.

Lemma dval_bound l : Forall digit l -> 0 <= dval 0 l < 10 ^ zlen l.
Proof.
  induction 1 as [|c l Hc _ IH]; [cbn; done|].
  cbn [dval]. rewrite dval_shift, zlen_cons, Z.pow_add_r by zlia. unfold digit in Hc. nia.
Qed.

Lemma dval_ge l acc : Forall digit l -> 0 <= acc -> acc <= dval acc l.
Proof.
  intros Hl Ha. rewrite dval_shift. pose proof (dval_bound l Hl).
  pose proof (Z.pow_pos_nonneg 10 (zlen l) ltac:(lia) (zlen_nonneg l)). nia.
Qed.

(** [n] digits of [v], with leading zeros. *)
Fixpoint ndig (n : nat) (v : Z) : chars :=
  match n with
  | O => []
  | S n => ndig n (v / 10) ++ [ch_0 + v mod 10]
  end.

Lemma zlen_ndig n v : zlen (ndig n v) = Z.of_nat n.
Proof. revert v. induction n; intros; simpl; [done|]. rewrite zlen_app, IHn. zlia. Qed.

Lemma ndig_digits n v : Forall digit (ndig n v).
Proof.
  revert v. induction n; intros; simpl; [constructor|].
  apply Forall_app; split; [done|]. constructor; [|constructor].
  unfold digit. pose proof (Z.mod_pos_bound v 10). lia.
Qed.

Lemma dval_ndig n v : 0 <= v < 10 ^ Z.of_nat n -> dval 0 (ndig n v) = v.
Proof.
  revert v. induction n as [|n IH]; intros v Hv.
  - cbn in *. lia.
  - cbn [ndig]. rewrite dval_app. cbn [dval].
    replace (Z.of_nat (S n)) with (1 + Z.of_nat n) in Hv by lia.
    rewrite Z.pow_add_r in Hv by lia. rewrite IH.
    + pose proof (Z.div_mod v 10). lia.
    + split; [apply Z.div_pos; lia|]. apply Z.div_lt_upper_bound; lia.
Qed.

Lemma ndig_head n v : 10 ^ Z.of_nat n <= v -> exists c t, ndig (S n) v = c :: t /\ c <> ch_0 \/ 10 ^ Z.of_nat (S n) <= v.
Proof.
  revert v. induction n as [|n IH]; intros v Hv.
  - destruct (decide (10 ^ 1 <= v)); [eexists 0, []; right; done|].
    eexists _, []. left. split; [done|]. cbn in Hv. rewrite Z.mod_small by lia. lia.
  - replace (Z.of_nat (S n)) with (1 + Z.of_nat n) in Hv by lia. rewrite Z.pow_add_r in Hv by lia.
    destruct (IH (v / 10)) as (c & t & [[Hd Hc]|Hbig]).
    + apply Z.div_le_lower_bound; lia.
    + exists c, (t ++ [ch_0 + v mod 10]). left. split; [|done].
      change (ndig (S (S n)) v) with (ndig (S n) (v / 10) ++ [ch_0 + v mod 10]). by rewrite Hd.
    + exists 0, []. right. replace (Z.of_nat (S (S n))) with (1 + Z.of_nat (S n)) by lia.
      rewrite Z.pow_add_r by lia.
      pose proof (Z.mul_div_le v 10). lia.
Qed.

(** The digits that [ull2string] writes are the decimal representation. *)
Lemma ndig_udecimal n v :
  0 <= v < 10 ^ Z.of_nat (S n) -> (n = 0%nat \/ 10 ^ Z.of_nat n <= v) -> udecimal (ndig (S n) v) v.
Proof.
  intros Hv Hlo. split; [|split; [apply ndig_digits|split; [by apply dval_ndig|]]].
  - intros E. pose proof (zlen_ndig (S n) v) as Hz. rewrite E in Hz. zlia.
  - intros t E. destruct Hlo as [->|Hlo].
    + pose proof (zlen_ndig 1 v) as Hz. rewrite E, zlen_cons in Hz. apply zlen_0. lia.
    + destruct (ndig_head n v Hlo) as (c & t' & [[E' Hc]|Hbig]); [congruence|lia].
Qed.

(** ** [digits10] *)

Lemma digits10_spec v :
  in_u 64 v -> 1 <= digits10 v <= 20 /\ v < 10 ^ digits10 v /\ (digits10 v = 1 \/ 10 ^ (digits10 v - 1) <= v).
Proof.
  unfold in_u. intros Hv.
  pose proof (Z.div_mod v 1000000000000 ltac:(lia)) as Hdm.
  pose proof (Z.mod_pos_bound v 1000000000000 ltac:(lia)) as Hm.
  unfold digits10. cbn [digits10_rec].
  repeat case_decide; cbn [Z.add Pos.add Z.sub]; lia.
Qed.

(** ** Printing *)

Lemma digits_table k :
  0 <= k < 100 ->
  peek digits (k * 2) = Some (ch_0 + k / 10) /\ peek digits (k * 2 + 1) = Some (ch_0 + k mod 10).
Proof.
  intros Hk.
  assert (Forall (fun k => peek digits (k * 2) = Some (ch_0 + k / 10) /\
                           peek digits (k * 2 + 1) = Some (ch_0 + k mod 10)) (seqZ 0 100)) as Hall
    by (vm_compute; repeat constructor).
  rewrite Forall_forall in Hall. apply Hall, elem_of_seqZ. lia.
Qed.

Lemma ndig_two n v :
  ndig (S (S n)) v = ndig n (v / 100) ++ [ch_0 + (v mod 100) / 10; ch_0 + (v mod 100) mod 10].
Proof.
  cbn [ndig]. rewrite <- app_assoc. cbn [app]. rewrite Z.div_div by lia. do 3 f_equal.
  - f_equal. pose proof (Z.div_mod v 10). pose proof (Z.mod_pos_bound v 10).
    pose proof (Z.div_mod v 100). pose proof (Z.mod_pos_bound v 100).
    pose proof (Z.div_mod (v mod 100) 10). pose proof (Z.mod_pos_bound (v mod 100) 10).
    pose proof (Z.div_mod (v / 10) 10). pose proof (Z.mod_pos_bound (v / 10) 10).
    rewrite Z.div_div in * by lia. change (10 * 10) with 100 in *. lia.
  - f_equal. rewrite <- (Znumtheory.Zmod_div_mod 10 100 v); [done|lia|lia|by exists 10].
Qed.

Lemma ndig_one v : 0 <= v < 10 -> ndig 1 v = [ch_0 + v].
Proof. intros. cbn [ndig app]. by rewrite Z.mod_small by lia. Qed.

(** Two stores in descending order. *)
Lemma poke_two (m : chars) i c d :
  0 <= i -> i + 1 < zlen m ->
  (m ← poke m (i + 1) d; poke m i c) = Some (splice m i [c; d]).
Proof.
  intros. rewrite poke_splice by lia. cbn [mbind option_bind].
  rewrite poke_splice by (rewrite zlen_splice by zlia; lia).
  f_equal. change 1 with (zlen [c]). rewrite splice_splice_left by zlia. done.
Qed.

Lemma ull2string_body_ok fuel : forall dst o v next,
  0 <= o -> 0 <= next < 2 ^ 31 -> o + next < zlen dst ->
  0 <= v < 10 ^ (next + 1) -> (next = 0 \/ 10 ^ next <= v) -> next < 2 * Z.of_nat fuel ->
  ('(dst, value, next) ← ull2string_loop fuel dst o v next; ull2string_last dst o value next)
  = Some (splice dst o (ndig (Z.to_nat (next + 1)) v)).
Proof.
  induction fuel as [|fuel IH]; intros dst o v next Ho Hn Hb Hv Hlo Hf; [lia|].
  cbn [ull2string_loop]. case_decide as Hge.
  - assert (2 <= next) as Hn2.
    { destruct (decide (2 <= next)); [done|]. assert (next = 0 \/ next = 1) as [->| ->] by lia; cbn in Hv; lia. }
    pose proof (Z.mod_pos_bound v 100 ltac:(lia)) as Hm.
    destruct (digits_table (v mod 100) ltac:(lia)) as [H0 H1].
    rewrite H1, H0. cbn [mbind option_bind]. unfold u32. rewrite !uwrap_small by (unfold in_u; lia).
    pose proof (poke_two dst (o + (next - 1)) (ch_0 + v mod 100 / 10) (ch_0 + (v mod 100) mod 10)
      ltac:(lia) ltac:(lia)) as Hp.
    replace (o + (next - 1) + 1) with (o + next) in Hp by lia.
    destruct (poke dst (o + next) (ch_0 + (v mod 100) mod 10)) as [d1|]; cbn [mbind option_bind] in *; [|done].
    rewrite Hp. cbn [mbind option_bind].
    assert (10 ^ (next + 1) = 100 * 10 ^ (next - 1) /\ 10 ^ next = 100 * 10 ^ (next - 2)) as [P1 P2].
    { split; rewrite <- (Z.pow_add_r 10 2) by lia; f_equal; lia. }
    rewrite IH; try lia.
    + replace (next - 2 + 1) with (next - 1) by lia.
      replace (Z.to_nat (next + 1)) with (S (S (Z.to_nat (next - 1)))) by lia.
      rewrite ndig_two. f_equal.
      replace (o + (next - 1)) with (o + zlen (ndig (Z.to_nat (next - 1)) (v / 100)))
        by (rewrite zlen_ndig; lia).
      apply splice_splice_left; [lia|]. rewrite zlen_ndig. zlia.
    + rewrite zlen_splice by zlia. lia.
    + replace (next - 2 + 1) with (next - 1) by lia. split; [apply Z.div_pos; lia|].
      apply Z.div_lt_upper_bound; lia.
    + right. apply Z.div_le_lower_bound; lia.
  - cbn [mbind option_bind]. unfold ull2string_last. case_decide.
    + assert (next = 0) as -> by (destruct Hlo as [|Hlo]; [done|];
        destruct (decide (next = 0)); [done|]; pose proof (Z.pow_le_mono_r 10 1 next); lia).
      rewrite poke_splice by lia. rewrite Z.add_0_r.
      change (Z.to_nat (0 + 1)) with 1%nat. by rewrite ndig_one by lia.
    + assert (next = 1) as ->.
      { assert (next <> 0) by (intros ->; cbn in Hv; lia).
        destruct (decide (next = 1)); [done|]. pose proof (Z.pow_le_mono_r 10 2 next). lia. }
      destruct (digits_table v ltac:(lia)) as [H0 H1].
      rewrite H1, H0. cbn [mbind option_bind]. unfold u32. rewrite uwrap_small by (unfold in_u; lia).
      pose proof (poke_two dst (o + 0) (ch_0 + v / 10) (ch_0 + v mod 10) ltac:(lia) ltac:(lia)) as Hp.
      replace (o + 0 + 1) with (o + 1) in Hp by lia. change (1 - 1) with 0.
      etransitivity; [exact Hp|]. rewrite Z.add_0_r. f_equal. f_equal.
      change (Z.to_nat (1 + 1)) with 2%nat. rewrite ndig_two. cbn [ndig app].
      by rewrite (Z.mod_small v 100) by lia.
Qed.

Lemma ull2string_ok dst o dstlen v :
  in_u 64 v -> 0 <= o -> o + dstlen <= zlen dst -> digits10 v < dstlen ->
  ull2string dst o dstlen v =
    Some (splice dst o (ndig (Z.to_nat (digits10 v)) v ++ [ch_nul]), digits10 v).
Proof.
  intros Hv Ho Hd Hl. destruct (digits10_spec v Hv) as (Hr & Hhi & Hlo).
  unfold ull2string. rewrite decide_False by lia. unfold u32.
  rewrite !uwrap_small by (unfold in_u; rewrite ?uwrap_small by (unfold in_u; lia); lia).
  replace (digits10 v - 1 + 1) with (digits10 v) by lia.
  rewrite poke_splice by lia. cbn [mbind option_bind].
  pose proof (ull2string_body_ok 11 (splice dst (o + digits10 v) [ch_nul]) o v (digits10 v - 1)) as Hb.
  replace (digits10 v - 1 + 1) with (digits10 v) in Hb by lia.
  destruct (ull2string_loop _ _ _ _ _) as [[[d w] nx]|]; cbn [mbind option_bind] in *.
  - rewrite Hb; [|lia|lia|rewrite zlen_splice by zlia; lia|unfold in_u in Hv; lia| |lia].
    + cbn [mbind option_bind]. do 2 f_equal.
      replace (o + digits10 v) with (o + zlen (ndig (Z.to_nat (digits10 v)) v)) by (rewrite zlen_ndig; lia).
      apply splice_splice_left; [lia|]. rewrite zlen_ndig. zlia.
    + destruct Hlo; [left; lia|by right].
  - exfalso. enough (None = Some (splice (splice dst (o + digits10 v) [ch_nul]) o
      (ndig (Z.to_nat (digits10 v)) v))) by done.
    apply Hb; [lia|lia|rewrite zlen_splice by zlia; lia|unfold in_u in Hv; lia| |lia].
    destruct Hlo; [left; lia|by right].
Qed.

Lemma ndig_digits10 v : in_u 64 v -> udecimal (ndig (Z.to_nat (digits10 v)) v) v.
Proof.
  intros Hv. destruct (digits10_spec v Hv) as (Hr & Hhi & Hlo). unfold in_u in Hv.
  destruct (Z.to_nat (digits10 v)) as [|n] eqn:E; [lia|]. apply ndig_udecimal.
  - replace (Z.of_nat (S n)) with (digits10 v) by lia. lia.
  - destruct Hlo as [Hlo|Hlo]; [left; lia|right].
    by replace (Z.of_nat n) with (digits10 v - 1) by lia.
Qed.

Lemma string_err_ok dst o dstlen :
  0 <= o -> o + dstlen <= zlen dst ->
  exists dst', string_err dst o dstlen = Some (dst', 0) /\ zlen dst' = zlen dst.
Proof.
  intros. unfold string_err. case_decide; [|eauto].
  rewrite poke_splice by lia. cbn. eexists. split; [done|]. apply zlen_splice; zlia.
Qed.

Lemma ull2string_short dst o dstlen v :
  0 <= o -> o + dstlen <= zlen dst -> dstlen <= digits10 v ->
  exists dst', ull2string dst o dstlen v = Some (dst', 0) /\ zlen dst' = zlen dst.
Proof.
  intros. unfold ull2string. rewrite decide_True by lia. by apply string_err_ok.
Qed.

(** Printing a 64-bit integer: with room for the text and its NUL the buffer
    gets exactly the decimal representation and the length is returned; with
    less room 0 is returned.  No cell outside the buffer is written. *)
Lemma ll2string_ok dst dstlen v :
  in_i 64 v -> 0 <= dstlen <= zlen dst ->
  exists str, sdecimal str v /\
    (zlen str < dstlen ->
       ll2string dst dstlen v = Some (splice dst 0 (str ++ [ch_nul]), zlen str)) /\
    (dstlen <= zlen str ->
       exists dst', ll2string dst dstlen v = Some (dst', 0) /\ zlen dst' = zlen dst).
Proof.
  intros Hv Hd. unfold in_i in Hv. unfold ll2string. case_decide as Hneg.
  - assert ((if decide (v <> LLONG_MIN) then u64 (- v) else LLONG_MAX + 1) = - v) as ->.
    { unfold LLONG_MIN, LLONG_MAX, u64. case_decide; [apply uwrap_small; unfold in_u|]; lia. }
    assert (in_u 64 (- v)) as Hu by (unfold in_u; lia).
    pose proof (digits10_spec (- v) Hu) as (Hr & _).
    exists (ch_minus :: ndig (Z.to_nat (digits10 (- v))) (- v)).
    split; [right; split; [done|]; eexists; split; [done|]; by apply ndig_digits10|].
    rewrite zlen_cons, zlen_ndig, Z2Nat.id by lia. split; intros Hlen.
    + rewrite decide_False by lia. rewrite poke_splice by lia. cbn [mbind option_bind].
      rewrite ull2string_ok by (done || lia || (rewrite zlen_splice by zlia; lia)).
      cbn [mbind option_bind]. rewrite decide_False by lia. do 2 f_equal; [|lia].
      change 1 with (0 + zlen [ch_minus]) at 1.
      rewrite splice_splice_right; [done|lia|]. rewrite zlen_app, zlen_ndig. zlia.
    + case_decide; [by apply string_err_ok; lia|].
      rewrite poke_splice by lia. cbn [mbind option_bind].
      destruct (ull2string_short (splice dst 0 [ch_minus]) 1 (dstlen - 1) (- v)) as (d & -> & Hz);
        [lia|rewrite zlen_splice by zlia; lia|lia|].
      cbn [mbind option_bind]. rewrite decide_True by done. eexists. split; [done|].
      rewrite Hz. apply zlen_splice; zlia.
  - assert (in_u 64 v) as Hu by (unfold in_u; lia).
    pose proof (digits10_spec v Hu) as (Hr & _).
    exists (ndig (Z.to_nat (digits10 v)) v).
    split; [left; split; [lia|]; by apply ndig_digits10|].
    rewrite zlen_ndig, Z2Nat.id by lia. split; intros Hlen.
    + rewrite ull2string_ok by (done || lia). cbn [mbind option_bind].
      rewrite decide_False by lia. by rewrite Z.add_0_r.
    + destruct (ull2string_short dst 0 dstlen v) as (d & -> & Hz); [lia|lia|lia|].
      cbn [mbind option_bind]. rewrite decide_True by done. eauto.
Qed.

(** ** Parsing *)

(** What the digit loop computes on the rest of the string. *)
Lemma string2ll_loop_ok fuel : forall s plen v,
  0 <= plen <= zlen s -> in_u 64 v -> zlen s - plen < Z.of_nat fuel ->
  let rest := drop (Z.to_nat plen) s in
  exists r, string2ll_loop fuel s (zlen s) plen v = Some r /\
    (Forall digit rest -> dval v rest <= ULLONG_MAX -> r = Some (zlen s, dval v rest)) /\
    (forall p w, r = Some (p, w) -> p <= zlen s /\
       (p = zlen s -> Forall digit rest /\ w = dval v rest /\ in_u 64 w)).
Proof.
  induction fuel as [|fuel IH]; intros s plen v Hp Hv Hf rest; [lia|].
  cbn [string2ll_loop]. case_decide as Hlt.
  2: { assert (rest = []) as -> by (apply drop_ge; zlia). eexists. split; [done|].
       replace plen with (zlen s) by lia. split; [done|]. intros ?? [= <- <-].
       split; [lia|]. intros _. split; [constructor|done]. }
  destruct (peek_Some s plen ltac:(lia)) as [c Hc]. rewrite Hc. cbn [mbind option_bind].
  assert (rest = c :: drop (Z.to_nat (plen + 1)) s) as Hrest.
  { apply peek_inv in Hc as [_ Hc]. replace (Z.to_nat (plen + 1)) with (S (Z.to_nat plen)) by lia.
    by apply drop_S. }
  rewrite Hrest. set (rest' := drop (Z.to_nat (plen + 1)) s) in *. cbn [dval].
  unfold ULLONG_MAX, in_u, digit in *. case_decide as Hdig.
  2: { eexists. split; [done|]. split.
       - rewrite Forall_cons. unfold digit. lia.
       - intros ?? [= <- <-]. split; lia. }
  assert (Forall digit (c :: rest') -> 10 * v + (c - ch_0) <= dval (10 * v + (c - ch_0)) rest') as Hge.
  { rewrite Forall_cons. intros [? ?]. apply dval_ge; [done|]. unfold digit in *. lia. }
  change (18446744073709551615 / 10) with 1844674407370955161.
  case_decide as Ho1.
  { eexists. split; [done|]. split; [|done]. intros HF Hle. specialize (Hge HF). lia. }
  unfold u64. rewrite !(uwrap_small 64 (v * 10)) by (unfold in_u; lia).
  rewrite (uwrap_small 64 (18446744073709551615 - _)) by (unfold in_u; lia).
  case_decide as Ho2.
  { eexists. split; [done|]. split; [|done]. intros HF Hle. specialize (Hge HF). lia. }
  rewrite uwrap_small by (unfold in_u; lia).
  destruct (IH s (plen + 1) (v * 10 + (c - ch_0)) ltac:(lia) ltac:(unfold in_u; lia) ltac:(lia)) as (r & -> & H1 & H2).
  fold rest' in H1, H2. replace (10 * v) with (v * 10) by lia.
  exists r. split; [done|]. split.
  - rewrite Forall_cons. intros [_ ?]. auto.
  - intros p w Hr. destruct (H2 p w Hr) as [Hp' Hend]. split; [done|]. intros Hpe.
    destruct (Hend Hpe) as (? & ? & ?). split; [|done]. rewrite Forall_cons. split; [unfold digit; lia|done].
Qed.

Lemma udecimal_cons_inv c t n :
  udecimal (c :: t) n -> digit c /\ Forall digit t /\ dval (c - ch_0) t = n /\ (c = ch_0 -> t = []).
Proof.
  intros (_ & Hd & Hv & Hz). rewrite Forall_cons in Hd. destruct Hd. cbn [dval] in Hv.
  replace (10 * 0 + (c - ch_0)) with (c - ch_0) in Hv by lia.
  split; [done|]. split; [done|]. split; [done|]. intros ->. by apply Hz.
Qed.

Lemma udecimal_cons c t n :
  ch_1 <= c <= ch_9 -> Forall digit t -> dval (c - ch_0) t = n -> udecimal (c :: t) n.
Proof.
  intros Hc Ht Hn. split; [done|]. split; [|split].
  - constructor; [unfold digit; lia|done].
  - cbn [dval]. by replace (10 * 0 + (c - ch_0)) with (c - ch_0) by lia.
  - intros ? [= ? ?]. lia.
Qed.

(** The number of digits of a 64-bit value fits the length test. *)
Lemma udecimal_length c t n : udecimal (c :: t) n -> c <> ch_0 -> 10 ^ zlen t <= n.
Proof.
  intros H Hc. apply udecimal_cons_inv in H as (Hd & Ht & Hv & _).
  rewrite dval_shift in Hv. pose proof (dval_bound t Ht). unfold digit in Hd.
  pose proof (Z.pow_pos_nonneg 10 (zlen t) ltac:(lia) (zlen_nonneg t)). nia.
Qed.

(** The digits of a representation within 64 bits are at most nineteen. *)
Lemma udecimal_short c t n : udecimal (c :: t) n -> n <= 2 ^ 63 -> zlen t <= 18.
Proof.
  intros H Hn. destruct (decide (c = ch_0)) as [->|Hc].
  - apply udecimal_cons_inv in H as (_ & _ & _ & H). rewrite H by done. rewrite zlen_nil. lia.
  - pose proof (udecimal_length c t n H Hc). destruct (decide (zlen t <= 18)); [done|].
    pose proof (Z.pow_le_mono_r 10 19 (zlen t)). lia.
Qed.

(** The part of [string2ll] after the sign: first digit, loop and end test. *)
Lemma string2ll_digits_ok s plen :
  0 <= plen < zlen s ->
  let rest := drop (Z.to_nat plen) s in
  exists c t, rest = c :: t /\ peek s plen = Some c /\
    (ch_1 <= c <= ch_9 ->
     exists r, string2ll_loop (S (Z.to_nat (zlen s))) s (zlen s) (plen + 1) (c - ch_0) = Some r /\
       forall n, n <= ULLONG_MAX -> (r = Some (zlen s, n) <-> udecimal rest n)) /\
    (forall r p w, string2ll_loop (S (Z.to_nat (zlen s))) s (zlen s) (plen + 1) (c - ch_0) = Some r ->
       ch_1 <= c <= ch_9 -> r = Some (p, w) -> p <= zlen s /\ (p = zlen s -> in_u 64 w)).
Proof.
  intros Hp rest. destruct (peek_Some s plen ltac:(lia)) as [c Hc].
  assert (rest = c :: drop (Z.to_nat (plen + 1)) s) as Hrest.
  { apply peek_inv in Hc as [_ Hc']. replace (Z.to_nat (plen + 1)) with (S (Z.to_nat plen)) by lia.
    by apply drop_S. }
  exists c, (drop (Z.to_nat (plen + 1)) s). split; [done|]. split; [done|].
  assert (ch_1 <= c <= ch_9 -> in_u 64 (c - ch_0)) as Hu by (unfold in_u; lia).
  split.
  - intros H19. destruct (string2ll_loop_ok (S (Z.to_nat (zlen s))) s (plen + 1) (c - ch_0)
      ltac:(lia) ltac:(auto) ltac:(lia)) as (r & -> & H1 & H2).
    exists r. split; [done|]. intros n Hn. rewrite Hrest. split.
    + intros ->. destruct (H2 _ _ eq_refl) as [_ H3]. destruct (H3 eq_refl) as (? & -> & _).
      by apply udecimal_cons.
    + intros Hd. apply udecimal_cons_inv in Hd as (_ & Ht & Hv & _).
      rewrite H1; [by rewrite Hv|done|lia].
  - intros r p w Hr H19 ->.
    destruct (string2ll_loop_ok (S (Z.to_nat (zlen s))) s (plen + 1) (c - ch_0)
      ltac:(lia) ltac:(auto) ltac:(lia)) as (r' & Hr' & H1 & H2).
    rewrite Hr in Hr'. simplify_eq. destruct (H2 _ _ eq_refl) as [? H3]. split; [done|].
    intros Hpe. by destruct (H3 Hpe) as (_ & _ & ?).
Qed.

Lemma sdecimal_minus t v : sdecimal (ch_minus :: t) v <-> v < 0 /\ udecimal t (- v).
Proof.
  split.
  - intros [[_ H]|[Hv (t' & [= ->] & H)]]; [|done].
    apply udecimal_cons_inv in H as (Hd & _). unfold digit in Hd. lia.
  - intros [? ?]. right. eauto.
Qed.

Lemma sdecimal_plain c t v :
  c <> ch_minus -> sdecimal (c :: t) v <-> 0 <= v /\ udecimal (c :: t) v.
Proof.
  intros Hc. split.
  - intros [H|[_ (t' & [= -> ->] & _)]]; done.
  - intros H. by left.
Qed.

(** A representation starts with 1-9, or is the string "0". *)
Lemma udecimal_first c t n :
  udecimal (c :: t) n -> ch_1 <= c <= ch_9 \/ (c = ch_0 /\ t = [] /\ n = 0).
Proof.
  intros H. apply udecimal_cons_inv in H as (Hd & _ & Hv & Hz). unfold digit in Hd.
  destruct (decide (c = ch_0)) as [->|]; [|lia]. right. rewrite Hz in * by done.
  cbn in Hv. auto with lia.
Qed.

Lemma sdecimal_short s v : sdecimal s v -> in_i 64 v -> 0 < zlen s < LONG_STR_SIZE.
Proof.
  unfold in_i, LONG_STR_SIZE. intros [[Hv H]|[Hv (t & -> & H)]] Hr.
  - destruct s as [|c t]; [by destruct H|]. pose proof (udecimal_short c t v H ltac:(lia)). zlia.
  - destruct t as [|c t]; [by destruct H|]. pose proof (udecimal_short c t _ H ltac:(lia)). zlia.
Qed.

(** After a minus sign. *)
Lemma string2ll_tail_minus t :
  t <> [] ->
  let s := ch_minus :: t in
  exists r, string2ll_tail s (zlen s) true 1 = Some r /\
    forall v, r = Some v <-> sdecimal s v /\ in_i 64 v.
Proof.
  intros Ht s. assert (zlen s = 1 + zlen t) as Hz by apply zlen_cons.
  assert (1 <= zlen t) by (destruct t; [done|]; zlia). unfold string2ll_tail.
  destruct (string2ll_digits_ok s 1 ltac:(lia)) as (c & t' & Hrest & -> & Hloop & Hend).
  change (drop (Z.to_nat 1) s) with t in *. cbn [mbind option_bind].
  case_decide as Hc.
  2: { exists None. split; [done|]. intros v. split; [done|]. intros [H' _]. subst s.
       apply sdecimal_minus in H' as [Hv H']. rewrite Hrest in H'. apply udecimal_first in H'. lia. }
  destruct (Hloop ltac:(lia)) as (r & Hr & Hiff). rewrite Hr. cbn [mbind option_bind].
  specialize (Hend r). change (u64 (- (LLONG_MIN + 1) + 1)) with (2 ^ 63).
  assert (forall v, sdecimal s v /\ in_i 64 v <-> r = Some (zlen s, - v) /\ v < 0 /\ in_i 64 v) as Hs.
  { intros v. subst s. rewrite sdecimal_minus. unfold in_i, ULLONG_MAX in *. split.
    - intros [[? ?] ?]. split; [apply Hiff; [lia|done]|lia].
    - intros (H' & ? & ?). apply Hiff in H'; [|lia]. done. }
  setoid_rewrite Hs. destruct r as [[p w]|].
  2: { exists None. split; [done|]. naive_solver. }
  destruct (Hend p w Hr ltac:(lia) eq_refl) as [Hp Hw].
  case_decide as Hpl. { exists None. split; [done|]. intros v. split; [done|]. intros ([= -> _] & _). lia. }
  replace p with (zlen s) in * by lia. specialize (Hw eq_refl). unfold in_u in Hw.
  assert (1 <= w) as Hw1.
  { assert (udecimal t w) as Hd by (apply Hiff; [unfold ULLONG_MAX; lia|done]).
    rewrite Hrest in Hd. pose proof (udecimal_length c t' w Hd ltac:(lia)).
    pose proof (Z.pow_pos_nonneg 10 (zlen t') ltac:(lia) (zlen_nonneg t')). lia. }
  unfold in_i. case_decide as Hmax.
  - exists None. split; [done|]. intros v. split; [done|]. intros ([= ->] & ? & ?). lia.
  - eexists. split; [done|]. unfold i64, u64.
    assert (swrap 64 (uwrap 64 (- w)) = - w) as ->.
    { rewrite swrap_uwrap by lia. apply swrap_small; [lia|]. unfold in_i. lia. }
    intros v. split; [intros [= <-]; split; [do 2 f_equal; lia|lia]|intros ([= ->] & ? & ?); f_equal; lia].
Qed.

(** Without a sign. *)
Lemma string2ll_tail_plain c t :
  let s := c :: t in
  c <> ch_minus -> ~ (zlen s = 1 /\ c = ch_0) ->
  exists r, string2ll_tail s (zlen s) false 0 = Some r /\
    forall v, r = Some v <-> sdecimal s v /\ in_i 64 v.
Proof.
  intros s Hneg Hzero. assert (zlen s = 1 + zlen t) as Hz by apply zlen_cons.
  pose proof (zlen_nonneg t). unfold string2ll_tail.
  destruct (string2ll_digits_ok s 0 ltac:(lia)) as (c' & t' & Hrest & -> & Hloop & Hend).
  change (drop (Z.to_nat 0) s) with s in *. cbn [mbind option_bind].
  assert (c' = c /\ t' = t) as [-> ->] by (subst s; naive_solver).
  assert (forall v, sdecimal s v /\ in_i 64 v <-> 0 <= v /\ udecimal s v /\ in_i 64 v) as Hs.
  { intros v. subst s. rewrite sdecimal_plain by done. tauto. }
  setoid_rewrite Hs. clear Hs. case_decide as Hc.
  2: { exists None. split; [done|]. intros v. split; [done|]. intros (_ & H' & _).
       apply udecimal_first in H' as [H'|(-> & -> & _)]; [lia|]. exfalso. apply Hzero. done. }
  destruct (Hloop ltac:(lia)) as (r & Hr & Hiff). rewrite Hr. cbn [mbind option_bind].
  specialize (Hend r). unfold ULLONG_MAX, in_i in *.
  assert (forall v, 0 <= v /\ udecimal s v /\ - 2 ^ (64 - 1) <= v < 2 ^ (64 - 1) <->
    r = Some (zlen s, v) /\ 0 <= v < 2 ^ 63) as Hs.
  { intros v. split.
    - intros (? & H' & ?). apply Hiff in H'; [|lia]. split; [done|lia].
    - intros (H' & ?). apply Hiff in H'; [|lia]. split; [lia|]. split; [done|lia]. }
  setoid_rewrite Hs. destruct r as [[p w]|].
  2: { exists None. split; [done|]. naive_solver. }
  destruct (Hend p w Hr ltac:(lia) eq_refl) as [Hp Hw].
  case_decide as Hpl.
  { exists None. split; [done|]. intros v. split; [done|]. intros ([= -> ->] & _). lia. }
  replace p with (zlen s) in * by lia. specialize (Hw eq_refl). unfold in_u, LLONG_MAX in *.
  case_decide as Hmax.
  - exists None. split; [done|]. intros v. split; [done|]. intros ([= ->] & ?). lia.
  - eexists. split; [done|]. unfold i64. rewrite swrap_small by (unfold in_i; lia).
    intros v. split; [intros [= <-]; split; [done|lia]|intros ([= ->] & _); done].
Qed.

(** Parsing accepts exactly the decimal representations of the 64-bit signed
    integers, with their value: no sign or zero variants, no overflow, and no
    read outside the string. *)
Lemma string2ll_ok s :
  exists r, string2ll s (zlen s) = Some r /\
    forall v, r = Some v <-> sdecimal s v /\ in_i 64 v.
Proof.
  unfold string2ll. case_decide as Hlen.
  { exists None. split; [done|]. intros v. split; [done|]. intros [H1 H2].
    pose proof (sdecimal_short s v H1 H2). lia. }
  destruct s as [|c t]; [exfalso; apply Hlen; by left|].
  change (peek (c :: t) 0) with (Some c). cbn [mbind option_bind]. case_decide as Hzero.
  { destruct Hzero as [Hl ->]. assert (t = []) as -> by (apply zlen_0; rewrite zlen_cons in Hl; lia).
    exists (Some 0). split; [done|]. intros v. rewrite sdecimal_plain by done. unfold in_i. split.
    - intros [= <-]. split; [split; [lia|]|lia]. split; [done|]. split; [|split; [done|naive_solver]].
      constructor; [unfold digit; lia|constructor].
    - intros [[_ H] _]. apply udecimal_first in H as [H|(_ & _ & ->)]; [lia|done]. }
  case_bool_decide as Hneg.
  - subst c. case_decide as Honly; [|apply string2ll_tail_minus; intros ->; by apply Honly].
    exists None. split; [done|]. intros v. split; [done|]. intros [H _].
    apply sdecimal_minus in H as [_ H].
    assert (t = []) as -> by (apply zlen_0; rewrite zlen_cons in Honly; lia). by destruct H.
  - rewrite decide_False by (intros [? _]; done). by apply string2ll_tail_plain.
Qed.

(** C37: Whatever [ll2string] prints, [string2ll] reads back. *)
Theorem ll2string_string2ll dst v :
  in_i 64 v -> 21 <= zlen dst ->
  exists dst' n, ll2string dst (zlen dst) v = Some (dst', n) /\
    string2ll (slice dst' 0 n) n = Some (Some v).
Proof.
  intros Hv Hd. destruct (ll2string_ok dst (zlen dst) v Hv ltac:(lia)) as (str & Hs & Hok & _).
  pose proof (sdecimal_short str v Hs Hv) as Hl. unfold LONG_STR_SIZE in Hl.
  rewrite Hok by lia. eexists _, _. split; [done|].
  assert (slice (splice dst 0 (str ++ [ch_nul])) 0 (zlen str) = str) as ->.
  { rewrite slice_splice_inside by zlia. rewrite slice_app_l by zlia. by apply slice_full. }
  destruct (string2ll_ok str) as (r & -> & Hr). f_equal. by apply Hr.
Qed.

(** Printing a 64-bit integer: with room for the text and its NUL the buffer
    gets exactly the decimal representation and its length is returned; with
    less room 0 is returned.  No cell outside the buffer is written. *)
Theorem ll2string_correct dst dstlen v :
  in_i 64 v -> 0 <= dstlen <= zlen dst ->
  exists str, sdecimal str v /\
    (zlen str < dstlen ->
       ll2string dst dstlen v = Some (splice dst 0 (str ++ [ch_nul]), zlen str)) /\
    (dstlen <= zlen str ->
       exists dst', ll2string dst dstlen v = Some (dst', 0) /\ zlen dst' = zlen dst).
Proof. apply ll2string_ok. Qed.

(** Parsing accepts exactly the decimal representations of the 64-bit signed
    integers, with their value: no sign or zero variants, no overflow, and no
    read outside the string; the same holds of [string2l]. *)
Theorem string2ll_correct s :
  exists r, string2ll s (zlen s) = Some r /\ string2l s (zlen s) = Some r /\
    forall v, r = Some v <-> sdecimal s v /\ in_i 64 v.
Proof.
  destruct (string2ll_ok s) as (r & Hr & Hiff). exists r. split; [done|]. split; [|done].
  unfold string2l. rewrite Hr. cbn. destruct r as [v|]; [|done].
  destruct (Hiff v) as [H _]. specialize (H eq_refl) as [_ H].
  unfold in_i, LLONG_MIN, LLONG_MAX in *. by rewrite decide_False by lia.
Qed.

(** The digit count: [digits10] and [sdigits10] are the length of the text. *)
Theorem digits10_correct v :
  in_i 64 v -> exists str, sdecimal str v /\ sdigits10 v = zlen str.
Proof.
  intros Hv. unfold in_i in Hv. unfold sdigits10. case_decide.
  - assert ((if decide (v <> LLONG_MIN) then u64 (- v) else LLONG_MAX + 1) = - v) as ->.
    { unfold LLONG_MIN, LLONG_MAX, u64. case_decide; [apply uwrap_small; unfold in_u|]; lia. }
    assert (in_u 64 (- v)) as Hu by (unfold in_u; lia).
    pose proof (digits10_spec (- v) Hu) as (Hr & _).
    exists (ch_minus :: ndig (Z.to_nat (digits10 (- v))) (- v)). split.
    + right. split; [done|]. eexists. split; [done|]. by apply ndig_digits10.
    + rewrite zlen_cons, zlen_ndig. lia.
  - assert (in_u 64 v) as Hu by (unfold in_u; lia). pose proof (digits10_spec v Hu) as (Hr & _).
    exists (ndig (Z.to_nat (digits10 v)) v). split; [left; split; [lia|by apply ndig_digits10]|].
    rewrite zlen_ndig. lia.
Qed.

(** ** Concrete instances *)

Lemma ll2string_correct_witness :
  exists str, sdecimal str (-42) /\
    (zlen str < 8 ->
       ll2string (replicate 8 65) 8 (-42) = Some (splice (replicate 8 65) 0 (str ++ [ch_nul]), zlen str)) /\
    (8 <= zlen str ->
       exists dst', ll2string (replicate 8 65) 8 (-42) = Some (dst', 0) /\ zlen dst' = zlen (replicate 8 65)).
Proof.
  apply (ll2string_correct (replicate 8 65) 8 (-42)); [unfold in_i; lia|vm_compute; split; discriminate].
Defined.

Lemma ll2string_string2ll_witness :
  exists dst' n, ll2string (replicate 21 65) (zlen (replicate 21 65)) LLONG_MIN = Some (dst', n) /\
    string2ll (slice dst' 0 n) n = Some (Some LLONG_MIN).
Proof.
  apply (ll2string_string2ll (replicate 21 65) LLONG_MIN);
    [unfold in_i, LLONG_MIN; lia|vm_compute; discriminate].
Defined.

Lemma digits10_correct_witness : exists str, sdecimal str (-9999) /\ sdigits10 (-9999) = zlen str.
Proof. apply (digits10_correct (-9999)). unfold in_i; lia. Defined.

Example string2ll_min : string2ll (lit "-9223372036854775808") 20 = Some (Some LLONG_MIN).
Proof. vm_compute. reflexivity. Qed.

Example string2ll_leading_zero : string2ll (lit "01") 2 = Some None.
Proof. vm_compute. reflexivity. Qed.

(** ** Limits of [fixedpoint_d2string] and [memtoull] *)

(** 12.3 with one fractional digit: the pair of digits straddles the dot, which
    is overwritten, and the first cell keeps what was in the buffer. *)
Example fixedpoint_odd_digits :
  fixedpoint_d2string (replicate 8 65) 8 false 123 1 = Some ([65; 49; 50; 51; 0; 65; 65; 65], 4).
Proof. vm_compute. reflexivity. Qed.

(** 123.4567 with four fractional digits in a buffer of eight cells: the length
    test counts neither the dot nor the NUL, which is stored past the end. *)
Example fixedpoint_overflow :
  fixedpoint_d2string (replicate 8 65) 8 false 1234567 4 = None.
Proof. vm_compute. reflexivity. Qed.

(** 2^34 gigabytes are 0 bytes: the product wraps without an error. *)
Example memtoull_wraps : memtoull (lit "17179869184gb") = Some 0.
Proof. vm_compute. reflexivity. Qed.

(** ** A number has one decimal text *)

Definition no_zero (s : chars) : Prop := Forall digit s /\ forall t, s <> ch_0 :: t.

Lemma dval_nonneg s acc : Forall digit s -> 0 <= acc -> acc <= dval acc s.
Proof.
  intros Hs. revert acc. induction Hs as [|c s Hc _ IH]; intros acc Ha; cbn [dval]; [lia|].
  unfold digit in Hc. specialize (IH (10 * acc + (c - ch_0))). lia.
Qed.

Lemma no_zero_pos s : no_zero s -> s <> [] -> 0 < dval 0 s.
Proof.
  intros [Hd Hz] Hne. destruct s as [|c s]; [done|]. apply Forall_cons in Hd as [Hc Hd].
  assert (c <> ch_0) by (intros ->; by eapply Hz). unfold digit in Hc. cbn [dval].
  pose proof (dval_nonneg s (10 * 0 + (c - ch_0)) Hd). lia.
Qed.

Lemma no_zero_snoc s c : no_zero (s ++ [c]) -> no_zero s /\ digit c.
Proof.
  intros [Hd Hz]. apply Forall_app in Hd as [Hd Hc]. rewrite Forall_singleton in Hc.
  split; [split; [done|]|done]. intros t ->. apply (Hz (t ++ [c])). done.
Qed.

Lemma no_zero_inj s : forall t, no_zero s -> no_zero t -> dval 0 s = dval 0 t -> s = t.
Proof.
  induction s as [|c s IH] using rev_ind; intros t Hs Ht Hv.
  - destruct t as [|d t]; [done|]. pose proof (no_zero_pos _ Ht ltac:(done)). change (dval 0 []) with 0 in Hv. lia.
  - destruct t as [|d t _] using rev_ind.
    { assert (s ++ [c] <> []) as Hne by (by destruct s).
      pose proof (no_zero_pos _ Hs Hne). change (dval 0 []) with 0 in Hv. lia. }
    apply no_zero_snoc in Hs as [Hs Hc]. apply no_zero_snoc in Ht as [Ht Hd].
    rewrite !dval_app in Hv. cbn [dval] in Hv. unfold digit in Hc, Hd.
    f_equal; [apply IH; [done|done|lia]|f_equal; lia].
Qed.

Lemma udecimal_cases s n : udecimal s n -> (s = [ch_0] /\ n = 0) \/ (no_zero s /\ 0 < n).
Proof.
  intros (Hne & Hd & Hv & Hz). destruct s as [|c s]; [done|]. destruct (decide (c = ch_0)) as [->|Hc].
  - left. rewrite (Hz s eq_refl) in *. by subst.
  - right. assert (no_zero (c :: s)) as Hn by (split; [done|]; intros t [= ? _]; done).
    split; [done|]. rewrite <- Hv. by apply no_zero_pos.
Qed.

Lemma udecimal_inj s t n : udecimal s n -> udecimal t n -> s = t.
Proof.
  intros Hs Ht. destruct (udecimal_cases s n Hs) as [[-> ?]|[Hns ?]], (udecimal_cases t n Ht) as [[-> ?]|[Hnt ?]];
    [done|lia|lia|]. apply no_zero_inj; [done|done|].
  destruct Hs as (_ & _ & -> & _). by destruct Ht as (_ & _ & -> & _).
Qed.

Lemma sdecimal_inj s t v : sdecimal s v -> sdecimal t v -> s = t.
Proof.
  intros [[? Hs]|[? (s' & -> & Hs)]] [[? Ht]|[? (t' & -> & Ht)]]; [|lia|lia|].
  - by eapply udecimal_inj.
  - f_equal. by eapply udecimal_inj.
Qed.

Lemma sdecimal_fun s v w : sdecimal s v -> sdecimal s w -> v = w.
Proof.
  destruct s as [|c t].
  { intros [[_ [H _]]|[_ (t & H & _)]]; done. }
  destruct (decide (c = ch_minus)) as [->|Hc].
  - rewrite !sdecimal_minus. intros [? (_ & _ & ? & _)] [? (_ & _ & ? & _)]. lia.
  - rewrite !sdecimal_plain by done. intros [? (_ & _ & ? & _)] [? (_ & _ & ? & _)]. lia.
Qed.
