(* ===== verification/Glob.v ===== *)
(** * Glob-style pattern matching (util.c, stringmatchlen)

    The matcher behind KEYS, SCAN MATCH, PSUBSCRIBE, CONFIG GET and the ACL
    patterns.  It is modelled on indices into the two buffers, the way the C
    code moves its pointers, and proved equivalent to a declarative definition
    of a match, for patterns and strings whose lengths fit an int; only on the
    empty string it differs, which no pattern but the empty one matches.  The
    pattern buffer ends with a NUL, as every sds string does. *)

From S2P Require Import Prelude Util.

Abbreviation ch_star := 42.
Abbreviation ch_quest := 63.
Abbreviation ch_lbr := 91.
Abbreviation ch_bsl := 92.
Abbreviation ch_rbr := 93.
Abbreviation ch_caret := 94.

(** [while (patternLen && pattern[1] == '*') { pattern++; patternLen--; }] *)
Fixpoint collapse_stars (fuel : nat) (P : chars) (pi plen : Z) : option (Z * Z) :=
  match fuel with
  | O => None
  | S fuel =>
    if decide (plen <> 0) then
      c ← peek P (pi + 1);
      if decide (c = ch_star) then collapse_stars fuel P (pi + 1) (plen - 1)
      else Some (pi, plen)
    else Some (pi, plen)
  end.

(** [while( *pattern == '*') { pattern++; patternLen--; }] *)
Fixpoint trailing_stars (fuel : nat) (P : chars) (pi plen : Z) : option (Z * Z) :=
  match fuel with
  | O => None
  | S fuel =>
    c ← peek P pi;
    if decide (c = ch_star) then trailing_stars fuel P (pi + 1) (plen - 1)
    else Some (pi, plen)
  end.

(** The [while(1)] loop over the characters of a bracket expression: the new
    pattern position and length, and [match]. *)
Fixpoint bracket_loop (fuel : nat) (P : chars) (nocase : bool) (s0 pi plen : Z) (mtch : bool)
  : option (Z * Z * bool) :=
  match fuel with
  | O => None
  | S fuel =>
    p0 ← peek P pi;
    if decide (p0 = ch_bsl /\ plen >= 2) then
      let pi := pi + 1 in
      let plen := plen - 1 in
      p0 ← peek P pi;
      let mtch := if decide (p0 = s0) then true else mtch in
      bracket_loop fuel P nocase s0 (pi + 1) (plen - 1) mtch
    else if decide (p0 = ch_rbr) then Some (pi, plen, mtch)
    else if decide (plen = 0) then Some (pi - 1, plen + 1, mtch)
    else
      range ← (if decide (plen >= 3) then p1 ← peek P (pi + 1); Some (bool_decide (p1 = ch_minus))
               else Some false);
      if range : bool then
        end_ ← peek P (pi + 2);
        let start := p0 in
        let c := s0 in
        let '(start, end_) := if decide (start > end_) then (end_, start) else (start, end_) in
        let '(start, end_, c) :=
          if nocase then (tolower start, tolower end_, tolower c) else (start, end_, c) in
        let pi := pi + 2 in
        let plen := plen - 2 in
        let mtch := if decide (c >= start /\ c <= end_) then true else mtch in
        bracket_loop fuel P nocase s0 (pi + 1) (plen - 1) mtch
      else
        let mtch :=
          if negb nocase then (if decide (p0 = s0) then true else mtch)
          else (if decide (tolower p0 = tolower s0) then true else mtch) in
        bracket_loop fuel P nocase s0 (pi + 1) (plen - 1) mtch
  end.

(** [while(stringLen) {...}] of the star case; [rec] is the recursive call on the
    rest of the pattern.  The pair is the result and [*skipLongerMatches]. *)
Fixpoint star_loop (rec : Z -> Z -> bool -> option (bool * bool)) (n : nat) (si slen : Z) (skip : bool)
  : option (bool * bool) :=
  match n with
  | O => Some (false, true)
  | S n =>
    '(m, skip) ← rec si slen skip;
    if m : bool then Some (true, skip)
    else if skip : bool then Some (false, skip)
    else star_loop rec n (si + 1) (slen - 1) skip
  end.

(** [stringmatchlen_impl]; one unit of fuel per iteration or recursive call,
    each of which shortens the pattern. *)
Fixpoint stringmatchlen_impl (fuel : nat) (P S : chars) (nocase : bool) (pi plen si slen : Z) (skip : bool)
  : option (bool * bool) :=
  match fuel with
  | O => None
  | Datatypes.S fuel =>
    (* the end of the loop body: advance the pattern, stop at the end of the string *)
    let next pi plen si slen :=
      let pi := pi + 1 in
      let plen := plen - 1 in
      if decide (slen = 0) then
        '(_, plen) ← trailing_stars (Datatypes.S (Datatypes.S (Z.to_nat plen))) P pi plen;
        Some (bool_decide (plen = 0), skip)
      else stringmatchlen_impl fuel P S nocase pi plen si slen skip in
    if decide (plen <> 0 /\ slen <> 0) then
      p0 ← peek P pi;
      if decide (p0 = ch_star) then
        '(pi, plen) ← collapse_stars (Datatypes.S (Z.to_nat plen)) P pi plen;
        if decide (plen = 1) then Some (true, skip)
        else star_loop (fun si slen skip =>
               stringmatchlen_impl fuel P S nocase (pi + 1) (plen - 1) si slen skip)
               (Z.to_nat slen) si slen skip
      else if decide (p0 = ch_quest) then next pi plen (si + 1) (slen - 1)
      else if decide (p0 = ch_lbr) then
        let pi := pi + 1 in
        let plen := plen - 1 in
        p0 ← peek P pi;
        let not := bool_decide (p0 = ch_caret) in
        let '(pi, plen) := if not then (pi + 1, plen - 1) else (pi, plen) in
        s0 ← peek S si;
        '(pi, plen, mtch) ← bracket_loop (Datatypes.S (Datatypes.S (Z.to_nat plen))) P nocase s0 pi plen false;
        let mtch := if not then negb mtch else mtch in
        if negb mtch then Some (false, skip)
        else next pi plen (si + 1) (slen - 1)
      else
        let '(pi, plen) := if decide (p0 = ch_bsl /\ plen >= 2) then (pi + 1, plen - 1) else (pi, plen) in
        p0 ← peek P pi;
        s0 ← peek S si;
        if (if negb nocase then bool_decide (p0 <> s0) else bool_decide (tolower p0 <> tolower s0))
        then Some (false, skip)
        else next pi plen (si + 1) (slen - 1)
    else Some (bool_decide (plen = 0 /\ slen = 0), skip)
  end.

(** [stringmatchlen(pattern, patternLen, string, stringLen, nocase)] *)
Definition stringmatchlen (P : chars) (patternLen : Z) (S : chars) (stringLen : Z) (nocase : bool)
  : option bool :=
  r ← stringmatchlen_impl (Datatypes.S (Z.to_nat patternLen)) P S nocase 0 patternLen 0 stringLen false;
  Some r.1.

(** [stringmatch]: both arguments without their NUL, their lengths converted to
    int.  The matcher only counts them down. *)
Definition stringmatch (pattern string : chars) (nocase : bool) : option bool :=
  stringmatchlen (pattern ++ [ch_nul]) (i32 (zlen pattern)) string (i32 (zlen string)) nocase.

(** ** What a match is *)

(** A character, an escaped character or a range of a bracket expression. *)
Inductive citem := CChar (c : Z) | CEsc (c : Z) | CRange (a b : Z).

(** A pattern element that matches one character. *)
Inductive tok := TAny | TLit (c : Z) | TClass (neg : bool) (items : list citem).

(** The items of a bracket expression and what follows its closing bracket; an
    unterminated expression takes the rest of the pattern. *)
Fixpoint parse_class (p : chars) : list citem * chars :=
  match p with
  | [] => ([], [])
  | c :: r =>
    if decide (c = ch_bsl) then
      match r with
      | e :: r' => let '(i, q) := parse_class r' in (CEsc e :: i, q)
      | [] => ([CChar c], [])
      end
    else if decide (c = ch_rbr) then ([], r)
    else
      match r with
      | d :: ((b :: r') as rb) =>
        if decide (d = ch_minus) then let '(i, q) := parse_class r' in (CRange c b :: i, q)
        else let '(i, q) := parse_class r in (CChar c :: i, q)
      | _ => let '(i, q) := parse_class r in (CChar c :: i, q)
      end
  end.

(** The negation mark at the start of a bracket expression. *)
Definition strip_caret (r : chars) : bool * chars :=
  match r with
  | c :: r' => if decide (c = ch_caret) then (true, r') else (false, r)
  | [] => (false, [])
  end.

(** The first element of a pattern that starts with [c], not a star. *)
Definition next_tok (c : Z) (r : chars) : tok * chars :=
  if decide (c = ch_quest) then (TAny, r)
  else if decide (c = ch_lbr) then
    let '(neg, body) := strip_caret r in
    let '(i, q) := parse_class body in
    (TClass neg i, q)
  else if decide (c = ch_bsl) then
    match r with
    | e :: r' => (TLit e, r')
    | [] => (TLit c, [])
    end
  else (TLit c, r).

Definition eqc (nocase : bool) (a c : Z) : bool :=
  if nocase then bool_decide (tolower a = tolower c) else bool_decide (a = c).

Definition item_match (nocase : bool) (c : Z) (i : citem) : bool :=
  match i with
  | CChar a => eqc nocase a c
  | CEsc a => bool_decide (a = c)
  | CRange a b =>
    let lo := Z.min a b in
    let hi := Z.max a b in
    if nocase then bool_decide (tolower lo <= tolower c <= tolower hi) else bool_decide (lo <= c <= hi)
  end.

Definition tok_match (nocase : bool) (t : tok) (c : Z) : bool :=
  match t with
  | TAny => true
  | TLit a => eqc nocase a c
  | TClass neg items => xorb neg (existsb (item_match nocase c) items)
  end.

(** [gmatch nocase p s]: the pattern [p] matches the whole string [s]. *)
Inductive gmatch (nocase : bool) : chars -> chars -> Prop :=
  | gm_nil : gmatch nocase [] []
  | gm_star p s1 s2 : gmatch nocase p s2 -> gmatch nocase (ch_star :: p) (s1 ++ s2)
  | gm_one c r t q x s :
      c <> ch_star -> next_tok c r = (t, q) -> tok_match nocase t x = true ->
      gmatch nocase q s -> gmatch nocase (c :: r) (x :: s).

(** ** Positions as suffixes *)

(** The pointer at index [pi] of the pattern [P0] sees the suffix [p]. *)
Definition at_ (P0 : chars) (pi : Z) (p : chars) : Prop :=
  0 <= pi /\ drop (Z.to_nat pi) P0 = p /\ pi + zlen p = zlen P0.

Lemma at_cons P0 pi c r :
  at_ P0 pi (c :: r) -> peek (P0 ++ [ch_nul]) pi = Some c /\ peek P0 pi = Some c /\ at_ P0 (pi + 1) r.
Proof.
  intros (Hp & Hd & Hl). rewrite zlen_cons in Hl.
  assert (P0 !! Z.to_nat pi = Some c) as Hc.
  { rewrite <- (Nat.add_0_r (Z.to_nat pi)), <- lookup_drop, Hd. done. }
  split; [|split].
  - unfold peek. rewrite decide_True by lia. by apply lookup_app_l_Some.
  - unfold peek. by rewrite decide_True by lia.
  - split; [lia|]. split; [|lia]. replace (Z.to_nat (pi + 1)) with (Z.to_nat pi + 1)%nat by lia.
    by rewrite <- drop_drop, Hd.
Qed.

Lemma at_nil P0 pi : at_ P0 pi [] -> peek (P0 ++ [ch_nul]) pi = Some ch_nul.
Proof.
  intros (Hp & Hd & Hl). rewrite zlen_nil in Hl. unfold peek. rewrite decide_True by lia.
  rewrite lookup_app_r by zlia. by replace (_ - _)%nat with 0%nat by zlia.
Qed.

Lemma at_0 P0 : at_ P0 0 P0.
Proof. split; [lia|]. split; [done|lia]. Qed.

Section matching.
Variable nocase : bool.
Variable P0 S0 : chars.

Abbreviation P := (P0 ++ [ch_nul]).

(** *** Declarative facts *)

Lemma gmatch_star p s : gmatch nocase (ch_star :: p) s <-> exists s1 s2, s = s1 ++ s2 /\ gmatch nocase p s2.
Proof.
  split.
  - intros H. inversion H; subst; simplify_eq; eauto.
  - intros (s1 & s2 & -> & H). by constructor.
Qed.

Lemma gmatch_star_star p s :
  gmatch nocase (ch_star :: ch_star :: p) s <-> gmatch nocase (ch_star :: p) s.
Proof.
  rewrite gmatch_star. split.
  - intros (s1 & s2 & -> & H). apply gmatch_star in H as (s3 & s4 & -> & H).
    rewrite app_assoc. by constructor.
  - intros H. by exists [], s.
Qed.

Lemma gmatch_one c r t q s :
  c <> ch_star -> next_tok c r = (t, q) ->
  gmatch nocase (c :: r) s <-> exists x s', s = x :: s' /\ tok_match nocase t x = true /\ gmatch nocase q s'.
Proof.
  intros Hc Ht. split.
  - intros H. inversion H; subst; [done|].
    match goal with E : next_tok _ _ = _ |- _ => rewrite Ht in E; injection E as <- <- end. eauto.
  - intros (x & s' & -> & Hm & H). by econstructor.
Qed.

Lemma gmatch_nil_l s : gmatch nocase [] s <-> s = [].
Proof. split; [by inversion 1|intros ->; constructor]. Qed.

(** The empty string is matched by stars only. *)
Lemma gmatch_nil_r_cons c r :
  gmatch nocase (c :: r) [] <-> c = ch_star /\ gmatch nocase r [].
Proof.
  destruct (decide (c = ch_star)) as [->|Hc].
  - rewrite gmatch_star. split.
    + intros (s1 & s2 & Hs & H). symmetry in Hs. apply app_nil in Hs as [-> ->]. done.
    + intros [_ H]. by exists [], [].
  - split; [|by intros []]. destruct (next_tok c r) as [t q] eqn:E.
    rewrite (gmatch_one c r t q) by done. intros (x & s' & ? & _). done.
Qed.

(** *** The star loops *)

Lemma collapse_ok fuel : forall pi r,
  at_ P0 pi (ch_star :: r) -> zlen r < Z.of_nat fuel ->
  exists pi' (r' : chars), collapse_stars fuel P pi (1 + zlen r) = Some (pi', 1 + zlen r') /\
    at_ P0 pi' (ch_star :: r') /\ zlen r' <= zlen r /\ (forall q, r' <> ch_star :: q) /\
    (forall s, gmatch nocase (ch_star :: r) s <-> gmatch nocase (ch_star :: r') s).
Proof.
  induction fuel as [|fuel IH]; intros pi r Hat Hf; [zlia|].
  cbn [collapse_stars]. pose proof (zlen_nonneg r). rewrite decide_True by lia.
  apply at_cons in Hat as Hat'. destruct Hat' as (_ & _ & Hat').
  destruct r as [|d r].
  - rewrite (at_nil _ _ Hat'). cbn [mbind option_bind]. rewrite decide_False by done.
    eexists _, []. repeat (split; [done|]). done.
  - destruct (at_cons _ _ _ _ Hat') as (-> & _ & _). cbn [mbind option_bind]. case_decide as Hd.
    + subst d. rewrite zlen_cons in *.
      destruct (IH (pi + 1) r Hat' ltac:(lia)) as (pi' & r' & Hc & ? & ? & ? & Hm).
      replace (1 + (1 + zlen r) - 1) with (1 + zlen r) by lia.
      exists pi', r'. split; [done|]. split; [done|]. split; [lia|]. split; [done|].
      intros s. by rewrite gmatch_star_star.
    + eexists _, (d :: r). split; [done|]. split; [done|]. split; [lia|]. split; [naive_solver|done].
Qed.

Lemma trailing_ok fuel : forall pi p,
  at_ P0 pi p -> zlen p < Z.of_nat fuel ->
  exists pi' (p' : chars), trailing_stars fuel P pi (zlen p) = Some (pi', zlen p') /\
    (p' = [] <-> gmatch nocase p []).
Proof.
  induction fuel as [|fuel IH]; intros pi p Hat Hf; [zlia|].
  cbn [trailing_stars]. destruct p as [|c r].
  - rewrite (at_nil _ _ Hat). cbn [mbind option_bind]. rewrite decide_False by done.
    eexists _, []. split; [done|]. split; [intros; constructor|done].
  - destruct (at_cons _ _ _ _ Hat) as (-> & _ & Hat'). cbn [mbind option_bind].
    setoid_rewrite gmatch_nil_r_cons. rewrite zlen_cons in *. case_decide as Hc.
    + destruct (IH (pi + 1) r Hat' ltac:(lia)) as (pi' & p' & Ht & Hiff).
      replace (1 + zlen r - 1) with (zlen r) by lia. exists pi', p'. split; [done|].
      rewrite Hiff. split; [done|]. by intros [_ ?].
    + exists pi, (c :: r). rewrite zlen_cons. split; [done|]. split; [done|]. by intros [? _].
Qed.

(** *** Bracket expressions *)

Lemma if_orb (m : bool) (Q : Prop) `{Decision Q} :
  (if decide Q then true else m) = bool_decide Q || m.
Proof. case_decide; [by rewrite bool_decide_true|by rewrite bool_decide_false]. Qed.

Lemma range_item_match a b c :
  (let '(start, end_) := if decide (a > b) then (b, a) else (a, b) in
   let '(start, end_, c) :=
     if nocase then (tolower start, tolower end_, tolower c) else (start, end_, c) in
   bool_decide (c >= start /\ c <= end_)) = item_match nocase c (CRange a b).
Proof.
  cbn. destruct (decide (a > b)); [rewrite Z.min_r, Z.max_l by lia|rewrite Z.min_l, Z.max_r by lia];
    destruct nocase; apply bool_decide_ext; lia.
Qed.

(** The loop agrees with [parse_class] and the disjunction of its items. *)
Definition bracket_post (s0 : Z) (p : chars) (mtch : bool) (r : option (Z * Z * bool)) : Prop :=
  exists pi' plen' m, r = Some (pi', plen', m) /\
    m = existsb (item_match nocase s0) (parse_class p).1 || mtch /\
    at_ P0 (pi' + 1) (parse_class p).2 /\ plen' - 1 = zlen (parse_class p).2.

Lemma bracket_post_item s0 p q i mtch r :
  parse_class p = (i :: (parse_class q).1, (parse_class q).2) ->
  bracket_post s0 q (item_match nocase s0 i || mtch) r -> bracket_post s0 p mtch r.
Proof.
  intros Hp (pi' & plen' & m & -> & -> & H). exists pi', plen'. rewrite Hp. cbn [fst snd existsb].
  eexists. split; [done|]. split; [|done]. by destruct (item_match nocase s0 i), (existsb _ _).
Qed.

(** Whether a range starts at [c]. *)
Definition range_next (c : Z) (r : chars) : Prop := exists b r', r = ch_minus :: b :: r' /\ c <> ch_bsl.

Lemma range_next_dec c r : range_next c r \/ ~ range_next c r.
Proof.
  unfold range_next. destruct (decide (c = ch_bsl)) as [->|]; [right; naive_solver|].
  destruct r as [|d [|b r']]; [right; naive_solver..|].
  destruct (decide (d = ch_minus)) as [->|]; [left; eauto|right; naive_solver].
Qed.

Lemma no_range_peek pi c r : at_ P0 (pi + 1) r -> c <> ch_bsl -> ~ range_next c r ->
  (if decide (1 + zlen r >= 3) then p1 ← peek P (pi + 1); Some (bool_decide (p1 = ch_minus)) else Some false) = Some false.
Proof.
  intros Hat Hc Hno. destruct (decide (1 + zlen r >= 3)); [|done].
  destruct r as [|d [|b r']]; [zlia|zlia|]. destruct (at_cons _ _ _ _ Hat) as (-> & _ & _).
  cbn. rewrite bool_decide_false; [done|]. intros ->. apply Hno. by eexists _, _.
Qed.

Lemma no_range_parse c r : c <> ch_bsl -> c <> ch_rbr -> ~ range_next c r ->
  parse_class (c :: r) = (CChar c :: (parse_class r).1, (parse_class r).2).
Proof.
  intros Hc Hrbr Hno. cbn [parse_class]. rewrite !decide_False by done.
  destruct r as [|d [|b r']]; try by destruct (parse_class _).
  rewrite decide_False; [by destruct (parse_class _)|]. intros ->. apply Hno. by eexists _, _.
Qed.

Lemma bracket_ok fuel : forall s0 pi p mtch,
  at_ P0 pi p -> zlen p < Z.of_nat fuel ->
  bracket_post s0 p mtch (bracket_loop fuel P nocase s0 pi (zlen p) mtch).
Proof.
  induction fuel as [|fuel IH]; intros s0 pi p mtch Hat Hf; [zlia|].
  cbn [bracket_loop]. destruct p as [|c r].
  { rewrite (at_nil _ _ Hat). cbn [mbind option_bind].
    rewrite decide_False by (intros [? _]; done). rewrite decide_False by done.
    rewrite decide_True by done. eexists _, _, _. split; [done|]. cbn [parse_class fst snd existsb].
    replace (pi - 1 + 1) with pi by lia. done. }
  destruct (at_cons _ _ _ _ Hat) as (-> & _ & Hat'). cbn [mbind option_bind].
  rewrite zlen_cons in *. pose proof (zlen_nonneg r) as Hr0.
  assert (bracket_post s0 r (item_match nocase s0 (CChar c) || mtch)
    (bracket_loop fuel P nocase s0 (pi + 1) (1 + zlen r - 1)
      (if negb nocase then (if decide (c = s0) then true else mtch)
       else (if decide (tolower c = tolower s0) then true else mtch)))) as Hchar.
  { replace (1 + zlen r - 1) with (zlen r) by lia.
    assert ((if negb nocase then (if decide (c = s0) then true else mtch)
       else (if decide (tolower c = tolower s0) then true else mtch)) =
       item_match nocase s0 (CChar c) || mtch) as ->.
    { cbn. unfold eqc. destruct nocase; cbn; apply if_orb. }
    apply IH; [done|lia]. }
  destruct (decide (c = ch_bsl /\ 1 + zlen r >= 2)) as [Hesc|Hesc].
  { destruct Hesc as [-> Hl]. destruct r as [|e r']; [zlia|].
    destruct (at_cons _ _ _ _ Hat') as (-> & _ & Hat2). cbn [mbind option_bind].
    apply (bracket_post_item _ _ r' (CEsc e)).
    { cbn [parse_class]. rewrite decide_True by done. by destruct (parse_class r'). }
    rewrite if_orb. replace (1 + zlen (e :: r') - 1 - 1) with (zlen r') by zlia.
    apply IH; [done|zlia]. }
  destruct (decide (c = ch_rbr)) as [Hrbr|Hrbr].
  { subst c. eexists _, _, _. split; [done|]. cbn [parse_class].
    rewrite decide_False by done. rewrite decide_True by done. cbn. split; [done|]. split; [done|lia]. }
  rewrite decide_False by lia.
  destruct (range_next_dec c r) as [(b & r' & -> & Hb)|Hno].
  - rewrite !zlen_cons in *. pose proof (zlen_nonneg r').
    rewrite (decide_True (P := 1 + (1 + (1 + zlen r')) >= 3)) by lia.
    destruct (at_cons _ _ _ _ Hat') as (-> & _ & Hat2).
    destruct (at_cons _ _ _ _ Hat2) as (Hpk & _ & Hat3). cbn [mbind option_bind].
    replace (pi + 1 + 1) with (pi + 2) in * by lia. rewrite bool_decide_true by done.
    rewrite Hpk. cbn [mbind option_bind].
    apply (bracket_post_item _ _ r' (CRange c b)).
    { cbn [parse_class]. rewrite !decide_False by done. rewrite decide_True by done.
      by destruct (parse_class r'). }
    rewrite <- range_item_match.
    replace (1 + (1 + (1 + zlen r')) - 2 - 1) with (zlen r') by lia.
    destruct (if decide (c > b) then (b, c) else (c, b)) as [lo hi].
    destruct (if nocase then (tolower lo, tolower hi, tolower s0) else (lo, hi, s0)) as [[lo' hi'] c'].
    rewrite if_orb. apply IH; [done|lia].
  - destruct (decide (c = ch_bsl)) as [->|Hc].
    + assert (r = []) as -> by (apply zlen_0; lia). cbn [mbind option_bind].
      rewrite (decide_False (P := 1 + zlen (@nil Z) >= 3)) by (cbn; lia). cbn [mbind option_bind].
      eapply (bracket_post_item _ _ [] (CChar ch_bsl)); [done|]. exact Hchar.
    + rewrite (no_range_peek pi c r Hat' Hc Hno). cbn [mbind option_bind].
      eapply (bracket_post_item _ _ r (CChar c)); [|exact Hchar]. by apply no_range_parse.
Qed.
(** *** The matcher *)

(** No suffix of [s] matches [p]: what [skipLongerMatches] records. *)
Definition no_suffix (p s : chars) : Prop :=
  forall s1 s2, s = s1 ++ s2 -> ~ gmatch nocase p s2.

(** What a call on the pattern suffix [p] and the string suffix [s] returns. *)
Definition call_ok (p s : chars) (res : option (bool * bool)) : Prop :=
  exists b skip, res = Some (b, skip) /\ (b = true <-> gmatch nocase p s) /\
    (b = false -> skip = true -> no_suffix p s).

Lemma no_suffix_cons p x s : ~ gmatch nocase p (x :: s) -> no_suffix p s -> no_suffix p (x :: s).
Proof.
  intros H1 H2 s1 s2 Hs. destruct s1 as [|y s1]; cbn in Hs; [by subst|].
  injection Hs as -> ->. by apply (H2 s1 s2).
Qed.

Lemma no_suffix_star p s : no_suffix p s -> no_suffix (ch_star :: p) s.
Proof.
  intros H s1 s2 -> Hg. apply gmatch_star in Hg as (s3 & s4 & -> & Hg).
  apply (H (s1 ++ s3) s4); [by rewrite app_assoc|done].
Qed.

Lemma no_suffix_tok c r t q x s :
  c <> ch_star -> next_tok c r = (t, q) -> no_suffix q s -> no_suffix (c :: r) (x :: s).
Proof.
  intros Hc Ht H s1 s2 Hs Hg. rewrite (gmatch_one c r t q) in Hg by done.
  destruct Hg as (y & s' & -> & _ & Hg). destruct s1 as [|z s1]; cbn in Hs; injection Hs as ? ->.
  - by apply (H [] s').
  - apply (H (s1 ++ [y]) s'); [by rewrite <- app_assoc|done].
Qed.

Lemma star_loop_ok rec r : forall s si,
  (forall si s, at_ S0 si s -> s <> [] -> call_ok r s (rec si (zlen s) false)) ->
  ~ gmatch nocase r [] -> at_ S0 si s ->
  call_ok (ch_star :: r) s (star_loop rec (length s) si (zlen s) false).
Proof.
  intros s si Hrec Hnil Hat.
  enough (exists b skip, star_loop rec (length s) si (zlen s) false = Some (b, skip) /\
    (b = true <-> gmatch nocase (ch_star :: r) s) /\ (b = false -> no_suffix r s)) as (b & skip & H1 & H2 & H3).
  { exists b, skip. split; [done|]. split; [done|]. intros Hb _. by apply no_suffix_star, H3. }
  revert si Hat. induction s as [|x s IH]; intros si Hat; cbn [star_loop length].
  - exists false, true. split; [done|]. split; [|intros _ s1 s2 Hs; symmetry in Hs; by apply app_nil in Hs as [-> ->]].
    split; [done|]. rewrite gmatch_nil_r_cons. by intros [_ ?].
  - destruct (Hrec si (x :: s) Hat ltac:(done)) as (b & skip & -> & Hb & Hs). cbn [mbind option_bind].
    destruct b.
    { exists true, skip. split; [done|]. split; [|done]. split; [|done]. intros _.
      apply gmatch_star. exists [], (x :: s). split; [done|by apply Hb]. }
    assert (~ gmatch nocase r (x :: s)) as Hno by (intros Hg; by apply Hb in Hg).
    destruct skip.
    { exists false, true. split; [done|]. specialize (Hs eq_refl eq_refl). split; [|done]. split; [done|].
      intros Hg. exfalso. by apply (no_suffix_star _ _ Hs [] (x :: s)). }
    destruct (at_cons _ _ _ _ Hat) as (_ & _ & Hat'). rewrite zlen_cons.
    replace (1 + zlen s - 1) with (zlen s) by lia.
    destruct (IH _ Hat') as (b & skip & -> & Hb2 & Hs2).
    exists b, skip. split; [done|]. split.
    + rewrite Hb2, !gmatch_star. split.
      * intros (s1 & s2 & -> & Hg). by exists (x :: s1), s2.
      * intros (s1 & s2 & Hsp & Hg). destruct s1 as [|y s1]; cbn in Hsp; [by subst|].
        injection Hsp as -> ->. eauto.
    + intros ->. apply no_suffix_cons; auto.
Qed.

(** The rest of an iteration, after an element that matched one character. *)
Definition next_step (fuel : nat) (pi plen si slen : Z) : option (bool * bool) :=
  if decide (slen = 0) then
    '(_, plen) ← trailing_stars (S (S (Z.to_nat (plen - 1)))) P (pi + 1) (plen - 1);
    Some (bool_decide (plen = 0), false)
  else stringmatchlen_impl fuel P S0 nocase (pi + 1) (plen - 1) si slen false.

Lemma next_step_ok fuel pi q si s c r t x :
  (forall pi p si s, at_ P0 pi p -> at_ S0 si s -> s <> [] -> zlen p < Z.of_nat fuel ->
     call_ok p s (stringmatchlen_impl fuel P S0 nocase pi (zlen p) si (zlen s) false)) ->
  at_ P0 (pi + 1) q -> at_ S0 si s -> zlen q < Z.of_nat fuel ->
  c <> ch_star -> next_tok c r = (t, q) -> tok_match nocase t x = true ->
  forall plen, plen - 1 = zlen q -> call_ok (c :: r) (x :: s) (next_step fuel pi plen si (zlen s)).
Proof.
  intros IH Hat Has Hf Hc Ht Hm plen Hplen. unfold next_step. rewrite Hplen.
  assert (forall s', gmatch nocase (c :: r) (x :: s') <-> gmatch nocase q s') as Hiff.
  { intros s'. rewrite (gmatch_one c r t q) by done. split; [|eauto]. by intros (? & ? & [= <- <-] & _ & ?). }
  case_decide as Hs.
  - apply zlen_0 in Hs as ->.
    destruct (trailing_ok (S (S (Z.to_nat (zlen q)))) (pi + 1) q Hat ltac:(lia)) as (pi' & p' & -> & Ht').
    cbn [mbind option_bind]. eexists _, _. split; [done|]. split; [|done].
    rewrite Hiff, bool_decide_eq_true, <- Ht'. split; [apply zlen_0|by intros ->].
  - destruct (IH (pi + 1) q si s Hat Has ltac:(by intros ->) Hf) as (b & skip & -> & Hb & Hsk).
    exists b, skip. split; [done|]. split; [by rewrite Hiff|]. intros. by eapply no_suffix_tok; eauto.
Qed.

Lemma call_ok_mismatch c r t q x s :
  c <> ch_star -> next_tok c r = (t, q) -> tok_match nocase t x = false ->
  call_ok (c :: r) (x :: s) (Some (false, false)).
Proof.
  intros Hc Ht Hm. exists false, false. split; [done|]. split; [|done]. split; [done|].
  rewrite (gmatch_one c r t q) by done. intros (? & ? & [= <- <-] & ? & _). congruence.
Qed.

Lemma parse_class_length p : zlen (parse_class p).2 <= zlen p.
Proof.
  remember (length p) as n eqn:Hn. revert p Hn.
  induction n as [n IH] using lt_wf_ind. intros p Hn.
  assert (forall q, (length q < length p)%nat -> zlen (parse_class q).2 <= zlen q) as IH'
    by (intros q Hq; by apply (IH (length q)); lia).
  destruct p as [|c r]; [done|]. cbn [parse_class].
  repeat case_match; cbn [snd]; rewrite ?zlen_cons; try zlia;
    match goal with E : parse_class ?q = (_, ?l) |- _ =>
      pose proof (IH' q ltac:(cbn; lia)) as Hq; rewrite E in Hq; cbn [snd] in Hq; zlia end.
Qed.

Lemma strip_caret_ok pi r :
  at_ P0 pi r ->
  exists neg body p0, strip_caret r = (neg, body) /\ peek P pi = Some p0 /\
    bool_decide (p0 = ch_caret) = neg /\ at_ P0 (if neg then pi + 1 else pi) body /\
    (if neg then (pi + 1, zlen r - 1) else (pi, zlen r)) = (if neg then pi + 1 else pi, zlen body) /\
    zlen body <= zlen r.
Proof.
  intros Hat. destruct r as [|c r'].
  - exists false, [], 0. by rewrite (at_nil _ _ Hat).
  - destruct (at_cons _ _ _ _ Hat) as (Hp & _ & Hat'). cbn [strip_caret]. rewrite zlen_cons. case_decide as Hc.
    + exists true, r', c. split; [done|]. split; [done|]. split; [by apply bool_decide_true|].
      split; [done|]. split; [f_equal; lia|lia].
    + exists false, (c :: r'), c. split; [done|]. split; [done|]. split; [by apply bool_decide_false|].
      rewrite zlen_cons. split; [done|]. split; [done|lia].
Qed.

(** A bracket expression. *)
Lemma bracket_case fuel pi r si s x :
  (forall pi p si s, at_ P0 pi p -> at_ S0 si s -> s <> [] -> zlen p < Z.of_nat fuel ->
     call_ok p s (stringmatchlen_impl fuel P S0 nocase pi (zlen p) si (zlen s) false)) ->
  at_ P0 pi r -> at_ S0 si (x :: s) -> zlen r < Z.of_nat fuel ->
  call_ok (ch_lbr :: r) (x :: s)
    (p0 ← peek P pi;
     let not := bool_decide (p0 = ch_caret) in
     let '(pi, plen) := if not then (pi + 1, zlen r - 1) else (pi, zlen r) in
     s0 ← peek S0 si;
     '(pi, plen, mtch) ← bracket_loop (S (S (Z.to_nat plen))) P nocase s0 pi plen false;
     let mtch := if not then negb mtch else mtch in
     if negb mtch then Some (false, false) else next_step fuel pi plen (si + 1) (zlen s)).
Proof.
  intros IH Hat Has Hf. destruct (at_cons _ _ _ _ Has) as (_ & -> & Has').
  destruct (strip_caret_ok pi r Hat) as (neg & body & p0 & Hsc & -> & Hneg & Hb & Heq & Hbl).
  cbn [mbind option_bind]. rewrite Hneg, Heq.
  assert (next_tok ch_lbr r = (TClass neg (parse_class body).1, (parse_class body).2)) as Ht.
  { unfold next_tok. rewrite decide_False by done. rewrite decide_True by done.
    rewrite Hsc. by destruct (parse_class body). }
  destruct (bracket_ok (S (S (Z.to_nat (zlen body)))) x (if neg then pi + 1 else pi) body false Hb ltac:(lia))
    as (pi' & plen' & m & -> & -> & Hat' & Hl').
  cbn [mbind option_bind]. rewrite orb_false_r.
  assert ((if neg then negb (existsb (item_match nocase x) (parse_class body).1)
           else existsb (item_match nocase x) (parse_class body).1) =
          tok_match nocase (TClass neg (parse_class body).1) x) as ->.
  { cbn. by destruct neg, (existsb _ _). }
  destruct (tok_match _ _ x) eqn:Hm; cbn [negb].
  - eapply next_step_ok; eauto; try done. pose proof (parse_class_length body). lia.
  - by eapply call_ok_mismatch.
Qed.

(** A literal or escaped character. *)
Lemma literal_case fuel pi c r si s x :
  (forall pi p si s, at_ P0 pi p -> at_ S0 si s -> s <> [] -> zlen p < Z.of_nat fuel ->
     call_ok p s (stringmatchlen_impl fuel P S0 nocase pi (zlen p) si (zlen s) false)) ->
  at_ P0 pi (c :: r) -> at_ S0 si (x :: s) -> zlen r < Z.of_nat fuel ->
  c <> ch_star -> c <> ch_quest -> c <> ch_lbr ->
  call_ok (c :: r) (x :: s)
    (let '(pi, plen) := if decide (c = ch_bsl /\ 1 + zlen r >= 2) then (pi + 1, 1 + zlen r - 1)
                        else (pi, 1 + zlen r) in
     p0 ← peek P pi;
     s0 ← peek S0 si;
     if (if negb nocase then bool_decide (p0 <> s0) else bool_decide (tolower p0 <> tolower s0))
     then Some (false, false)
     else next_step fuel pi plen (si + 1) (zlen s)).
Proof.
  intros IH Hat Has Hf Hc Hq Hb. pose proof (zlen_nonneg r).
  destruct (at_cons _ _ _ _ Has) as (_ & Hx & Has').
  assert (exists pi' a q, (if decide (c = ch_bsl /\ 1 + zlen r >= 2) then (pi + 1, 1 + zlen r - 1)
      else (pi, 1 + zlen r)) = (pi', 1 + zlen q) /\ peek P pi' = Some a /\
      next_tok c r = (TLit a, q) /\ at_ P0 (pi' + 1) q /\ zlen q <= zlen r)
    as (pi' & a & q & -> & -> & Ht & Hat' & Hl).
  { destruct (at_cons _ _ _ _ Hat) as (Hp & _ & Hat1). unfold next_tok.
    rewrite (decide_False (P := c = ch_quest)) by done. rewrite (decide_False (P := c = ch_lbr)) by done.
    case_decide as Hesc.
    - destruct Hesc as [-> Hl]. rewrite decide_True by done. destruct r as [|e r']; [zlia|].
      destruct (at_cons _ _ _ _ Hat1) as (Hp1 & _ & Hat2). rewrite zlen_cons.
      exists (pi + 1), e, r'. split; [f_equal; lia|]. repeat (split; [done|]). lia.
    - exists pi, c, r. split; [done|]. split; [done|]. split; [|split; [done|lia]].
      case_decide; [|done]. subst c. assert (r = []) as -> by (apply zlen_0; lia). done. }
  cbn [mbind option_bind]. rewrite Hx. cbn [mbind option_bind].
  assert ((if negb nocase then bool_decide (a <> x) else bool_decide (tolower a <> tolower x)) =
          negb (tok_match nocase (TLit a) x)) as ->.
  { cbn. unfold eqc. destruct nocase; cbn; apply bool_decide_not. }
  destruct (tok_match nocase (TLit a) x) eqn:Hm; cbn [negb].
  - eapply next_step_ok; eauto; lia.
  - by eapply call_ok_mismatch.
Qed.

Lemma stringmatchlen_impl_ok fuel : forall pi p si s,
  at_ P0 pi p -> at_ S0 si s -> s <> [] -> zlen p < Z.of_nat fuel ->
  call_ok p s (stringmatchlen_impl fuel P S0 nocase pi (zlen p) si (zlen s) false).
Proof.
  induction fuel as [|fuel IH]; intros pi p si s Hat Has Hs Hf; [zlia|].
  destruct s as [|x s]; [done|]. cbn [stringmatchlen_impl]. destruct p as [|c r].
  { rewrite decide_False by (intros [? _]; done). eexists _, _. split; [done|]. split; [|done].
    rewrite bool_decide_eq_true, gmatch_nil_l. split; [|done]. intros [_ ?]. zlia. }
  rewrite decide_True by zlia.
  destruct (at_cons _ _ _ _ Hat) as (-> & _ & Hat'). cbn [mbind option_bind].
  destruct (at_cons _ _ _ _ Has) as (Hsx & Hsx' & Has').
  rewrite !zlen_cons in *. replace (1 + zlen s - 1) with (zlen s) by lia.
  pose proof (zlen_nonneg r). pose proof (zlen_nonneg s).
  destruct (decide (c = ch_star)) as [->|Hc].
  { destruct (collapse_ok (S (Z.to_nat (1 + zlen r))) pi r Hat ltac:(lia)) as (pi' & r' & -> & Hat2 & Hl & Hns & Hm).
    cbn [mbind option_bind]. case_decide as H1.
    - assert (r' = []) as -> by (apply zlen_0; lia). eexists _, _. split; [done|]. split; [|done].
      split; [|done]. intros _. rewrite Hm, gmatch_star. exists (x :: s), []. rewrite app_nil_r. split; [done|constructor].
    - replace (1 + zlen r' - 1) with (zlen r') by lia.
      destruct (at_cons _ _ _ _ Hat2) as (_ & _ & Hat3).
      assert (call_ok (ch_star :: r') (x :: s) (star_loop (fun si slen skip =>
        stringmatchlen_impl fuel P S0 nocase (pi' + 1) (zlen r') si slen skip)
        (length (x :: s)) si (zlen (x :: s)) false)) as (b & skip & He & Hb & Hsk).
      { apply star_loop_ok; [|destruct r'; [done|]; rewrite gmatch_nil_r_cons; naive_solver|done].
        intros. apply IH; [done..|lia]. }
      rewrite zlen_cons in He. replace (Z.to_nat (1 + zlen s)) with (length (x :: s)) by zlia.
      exists b, skip. split; [done|]. split; [by rewrite Hm|].
      intros H1' H2' s1 s2 Hsp Hg. apply (Hsk H1' H2' s1 s2 Hsp). by apply Hm. }
  destruct (decide (c = ch_quest)) as [->|Hq].
  { apply (next_step_ok fuel pi r (si + 1) s ch_quest r TAny x IH); try done; lia. }
  destruct (decide (c = ch_lbr)) as [->|Hb].
  { replace (1 + zlen r - 1) with (zlen r) by lia.
    apply (bracket_case fuel (pi + 1) r si s x IH); try done; lia. }
  apply literal_case; done || lia.
Qed.
End matching.

(** ** The theorems *)

Lemma i32_len (l : chars) : zlen l <= INT32_MAX -> i32 (zlen l) = zlen l.
Proof. intros. apply swrap_small; [lia|]. unfold in_i, INT32_MAX in *. zlia. Qed.

(** The empty string is matched by the empty pattern only: a pattern of stars,
    which matches it by the declarative definition, is rejected. *)
Lemma stringmatchlen_empty nocase pattern :
  zlen pattern <= INT32_MAX -> stringmatch pattern [] nocase = Some (bool_decide (pattern = [])).
Proof.
  intros Hp. unfold stringmatch, stringmatchlen. rewrite i32_len by done. cbn [stringmatchlen_impl].
  rewrite decide_False by (intros [_ ?]; done). cbn. f_equal. apply bool_decide_ext.
  split; [intros [? _]; by apply zlen_0|intros ->; done].
Qed.

(** C14: For every pattern and string whose lengths fit an int, the empty ones
    included, the matcher with its early termination returns and never reads
    outside the two buffers.  It answers whether the pattern matches the string
    by the declarative definition, except that of all patterns only the empty one
    is taken to match the empty string. *)
Theorem stringmatchlen_correct nocase pattern string :
  zlen pattern <= INT32_MAX -> zlen string <= INT32_MAX ->
  exists b, stringmatch pattern string nocase = Some b /\
    (b = true <-> gmatch nocase pattern string /\ (string = [] -> pattern = [])).
Proof.
  intros Hp Hs. destruct (decide (string = [])) as [->|Hne].
  { rewrite stringmatchlen_empty by done. eexists. split; [done|]. rewrite bool_decide_eq_true. split; [intros ->|by intros [_ H]; apply H].
    split; [constructor|done]. }
  unfold stringmatch, stringmatchlen. rewrite !i32_len by done.
  destruct (stringmatchlen_impl_ok nocase pattern string (S (Z.to_nat (zlen pattern))) 0 pattern 0 string)
    as (b & skip & -> & Hb & _); [apply at_0|apply at_0|done|zlia|].
  exists b. split; [done|]. rewrite Hb. tauto.
Qed.

(** ** Concrete instances *)

Lemma stringmatchlen_correct_witness :
  gmatch false (42 :: [97; 42; 98]) [97; 120; 98] /\ ~ gmatch false [97; 42; 98] [97; 120].
Proof.
  split.
  - destruct (stringmatchlen_correct false (42 :: [97; 42; 98]) [97; 120; 98]) as (b & E & H); [done|done|].
    apply H. revert E. vm_compute. congruence.
  - destruct (stringmatchlen_correct false [97; 42; 98] [97; 120]) as (b & E & H); [done|done|]. intros Hg.
    assert (b = true) as -> by (apply H; split; [done|discriminate]). revert E. vm_compute. congruence.
Defined.

(** "h[^e-g]llo*" and "hallo", "hello". *)
Example glob_class :
  stringmatch [104; 91; 94; 101; 45; 103; 93; 108; 108; 111; 42] [104; 97; 108; 108; 111] false = Some true /\
  stringmatch [104; 91; 94; 101; 45; 103; 93; 108; 108; 111; 42] [104; 101; 108; 108; 111] false = Some false.
Proof. vm_compute. done. Qed.

(** "*" does not match the empty string. *)
Example glob_star_empty : stringmatch [42] [] false = Some false /\ gmatch false [42] [].
Proof. split; [reflexivity|]. apply (gm_star false [] [] []). constructor. Qed.

(** With [nocase] an escaped character in brackets is still compared exactly:
    the pattern of a bracketed, escaped A rejects a. *)
Example glob_escape_nocase :
  stringmatch [91; 92; 65; 93] [97] true = Some false /\ stringmatch [91; 65; 93] [97] true = Some true.
Proof. vm_compute. done. Qed.
