(* ===== verification/Adlist.v ===== *)
(** * Doubly linked lists (adlist.c)

    The generic list behind the client lists, the reply lists, the slow log, the
    replication structures and the pub/sub tables.  The nodes live in a store
    addressed by pointers, so that sharing and dangling pointers are visible:
    following NULL or a freed node is [None].  The theorems say that the
    functions implement the operations on sequences of values and touch nothing
    else in the store. *)

From S2P Require Import Prelude.

Abbreviation loc := positive.
(** A pointer; [None] is NULL. *)
Abbreviation ptr := (option loc).

Section adlist.
Context {V : Type}.

Record listNode := ListNode { n_prev : ptr; n_next : ptr; n_value : V }.

(** The methods of a list: [dup] can fail, [free] is recorded in a trace. *)
Record list_ := List_ {
  l_head : ptr;
  l_tail : ptr;
  l_dup : option (V -> option V);
  l_free : bool;
  l_match : option (V -> V -> bool);
  l_len : Z
}.

Record listIter := ListIter { it_next : ptr; it_direction : Z }.

Definition AL_START_HEAD : Z := 0.
Definition AL_START_TAIL : Z := 1.

(** The store: the live nodes, and the values given to the [free] method. *)
Record store := Store { nodes : gmap loc listNode; freed : list V }.

Definition load (h : store) (p : ptr) : option listNode := a ← p; nodes h !! a.

Definition put (h : store) (a : loc) (n : listNode) : store := Store (<[a := n]> (nodes h)) (freed h).

(** [p->prev = x] and [p->next = x]. *)
Definition set_prev (h : store) (p : ptr) (x : ptr) : option store :=
  a ← p; n ← nodes h !! a; Some (put h a (ListNode x (n_next n) (n_value n))).

Definition set_next (h : store) (p : ptr) (x : ptr) : option store :=
  a ← p; n ← nodes h !! a; Some (put h a (ListNode (n_prev n) x (n_value n))).

(** [zmalloc] of a node (it aborts the process instead of returning NULL) and
    [zfree]. *)
Definition new_node (h : store) (n : listNode) : store * loc :=
  let a := fresh (dom (nodes h)) in (put h a n, a).

Definition zfree (h : store) (p : ptr) : option store :=
  a ← p; _ ← nodes h !! a; Some (Store (delete a (nodes h)) (freed h)).

Definition call_free (l : list_) (h : store) (v : V) : store :=
  if l_free l then Store (nodes h) (freed h ++ [v]) else h.

Definition with_ends (l : list_) (hd tl : ptr) (len : Z) : list_ :=
  List_ hd tl (l_dup l) (l_free l) (l_match l) len.

Definition listCreate : list_ := List_ None None None false None 0.

(** The [while(len--)] loop of [listEmpty]. *)
Fixpoint listEmpty_loop (len : nat) (l : list_) (h : store) (current : ptr) : option store :=
  match len with
  | O => Some h
  | S len =>
    n ← load h current;
    let next := n_next n in
    let h := call_free l h (n_value n) in
    h ← zfree h current;
    listEmpty_loop len l h next
  end.

Definition listEmpty (h : store) (l : list_) : option (store * list_) :=
  h ← listEmpty_loop (Z.to_nat (l_len l)) l h (l_head l);
  Some (h, with_ends l None None 0).

(** [listRelease]: the list header itself is not a node of the store. *)
Definition listRelease (h : store) (l : list_) : option store :=
  '(h, _) ← listEmpty h l; Some h.

(** Add a node that has already been allocated to the head of list. *)
Definition listLinkNodeHead (h : store) (l : list_) (node : loc) : option (store * list_) :=
  if decide (l_len l = 0) then
    h ← set_prev h (Some node) None;
    h ← set_next h (Some node) None;
    Some (h, with_ends l (Some node) (Some node) (u64 (l_len l + 1)))
  else
    h ← set_prev h (Some node) None;
    h ← set_next h (Some node) (l_head l);
    h ← set_prev h (l_head l) (Some node);
    Some (h, with_ends l (Some node) (l_tail l) (u64 (l_len l + 1))).

Definition listAddNodeHead (h : store) (l : list_) (value : V) : option (store * list_) :=
  let '(h, node) := new_node h (ListNode None None value) in
  listLinkNodeHead h l node.

(** Add a node that has already been allocated to the tail of list. *)
Definition listLinkNodeTail (h : store) (l : list_) (node : loc) : option (store * list_) :=
  if decide (l_len l = 0) then
    h ← set_prev h (Some node) None;
    h ← set_next h (Some node) None;
    Some (h, with_ends l (Some node) (Some node) (u64 (l_len l + 1)))
  else
    h ← set_prev h (Some node) (l_tail l);
    h ← set_next h (Some node) None;
    h ← set_next h (l_tail l) (Some node);
    Some (h, with_ends l (l_head l) (Some node) (u64 (l_len l + 1))).

Definition listAddNodeTail (h : store) (l : list_) (value : V) : option (store * list_) :=
  let '(h, node) := new_node h (ListNode None None value) in
  listLinkNodeTail h l node.

Definition listInsertNode (h : store) (l : list_) (old_node : loc) (value : V) (after : bool)
  : option (store * list_) :=
  old ← load h (Some old_node);
  let '(pv, nx) := if after then (Some old_node, n_next old) else (n_prev old, Some old_node) in
  let '(h, node) := new_node h (ListNode pv nx value) in
  let tail := if after then (if decide (l_tail l = Some old_node) then Some node else l_tail l) else l_tail l in
  let head := if after then l_head l else (if decide (l_head l = Some old_node) then Some node else l_head l) in
  h ← (if decide (pv <> None) then set_next h pv (Some node) else Some h);
  h ← (if decide (nx <> None) then set_prev h nx (Some node) else Some h);
  Some (h, with_ends l head tail (u64 (l_len l + 1))).

(** Remove the specified node from the list without freeing it. *)
Definition listUnlinkNode (h : store) (l : list_) (node : loc) : option (store * list_) :=
  n ← load h (Some node);
  h ← (if decide (n_prev n <> None) then set_next h (n_prev n) (n_next n) else Some h);
  let head := if decide (n_prev n <> None) then l_head l else n_next n in
  h ← (if decide (n_next n <> None) then set_prev h (n_next n) (n_prev n) else Some h);
  let tail := if decide (n_next n <> None) then l_tail l else n_prev n in
  h ← set_next h (Some node) None;
  h ← set_prev h (Some node) None;
  Some (h, with_ends l head tail (u64 (l_len l - 1))).

Definition listDelNode (h : store) (l : list_) (node : loc) : option (store * list_) :=
  '(h, l) ← listUnlinkNode h l node;
  n ← load h (Some node);
  let h := call_free l h (n_value n) in
  h ← zfree h (Some node);
  Some (h, l).

Definition listGetIterator (l : list_) (direction : Z) : listIter :=
  if decide (direction = AL_START_HEAD) then ListIter (l_head l) direction
  else ListIter (l_tail l) direction.

Definition listRewind (l : list_) : listIter := ListIter (l_head l) AL_START_HEAD.
Definition listRewindTail (l : list_) : listIter := ListIter (l_tail l) AL_START_TAIL.

(** The returned element and the advanced iterator. *)
Definition listNext (h : store) (iter : listIter) : option (ptr * listIter) :=
  let current := it_next iter in
  if decide (current <> None) then
    n ← load h current;
    Some (current,
          ListIter (if decide (it_direction iter = AL_START_HEAD) then n_next n else n_prev n)
                   (it_direction iter))
  else Some (current, iter).

(** The loop of [listDup]: the copy, or [Some (h, None)] when [dup] failed and
    the copy was released. *)
Fixpoint listDup_loop (fuel : nat) (h : store) (copy : list_) (iter : listIter)
  : option (store * option list_) :=
  match fuel with
  | O => None
  | S fuel =>
    '(node, iter) ← listNext h iter;
    if decide (node = None) then Some (h, Some copy)
    else
      n ← load h node;
      let value := match l_dup copy with Some dup => dup (n_value n) | None => Some (n_value n) end in
      match value with
      | None => h ← listRelease h copy; Some (h, None)
      | Some value =>
        '(h, copy) ← listAddNodeTail h copy value;
        listDup_loop fuel h copy iter
      end
  end.

Definition listDup (h : store) (orig : list_) : option (store * option list_) :=
  let copy := List_ None None (l_dup orig) (l_free orig) (l_match orig) 0 in
  listDup_loop (S (Z.to_nat (l_len orig))) h copy (listRewind orig).

(** [eqv] compares the value pointers when no match method is set. *)
Fixpoint listSearchKey_loop (fuel : nat) (eqv : V -> V -> bool) (h : store) (l : list_) (key : V)
  (iter : listIter) : option ptr :=
  match fuel with
  | O => None
  | S fuel =>
    '(node, iter) ← listNext h iter;
    if decide (node = None) then Some None
    else
      n ← load h node;
      if match l_match l with Some f => f (n_value n) key | None => eqv key (n_value n) end
      then Some node
      else listSearchKey_loop fuel eqv h l key iter
  end.

Definition listSearchKey (eqv : V -> V -> bool) (h : store) (l : list_) (key : V) : option ptr :=
  listSearchKey_loop (S (Z.to_nat (l_len l))) eqv h l key (listRewind l).

(** [while(index-- && n) n = n->prev] (or [n->next]). *)
Fixpoint listIndex_loop (index : nat) (h : store) (backward : bool) (n : ptr) : option ptr :=
  match index with
  | O => Some n
  | S index =>
    if decide (n = None) then Some None
    else
      nd ← load h n;
      listIndex_loop index h backward (if backward then n_prev nd else n_next nd)
  end.

Definition listIndex (h : store) (l : list_) (index : Z) : option ptr :=
  if decide (index < 0) then listIndex_loop (Z.to_nat (- index - 1)) h true (l_tail l)
  else listIndex_loop (Z.to_nat index) h false (l_head l).

(** Rotate the list removing the tail node and inserting it to the head. *)
Definition listRotateTailToHead (h : store) (l : list_) : option (store * list_) :=
  if decide (l_len l <= 1) then Some (h, l)
  else
    let tail := l_tail l in
    t ← load h tail;
    let ltail := n_prev t in
    h ← set_next h ltail None;
    h ← set_prev h (l_head l) tail;
    h ← set_prev h tail None;
    h ← set_next h tail (l_head l);
    Some (h, with_ends l tail ltail (l_len l)).

(** Rotate the list removing the head node and inserting it to the tail. *)
Definition listRotateHeadToTail (h : store) (l : list_) : option (store * list_) :=
  if decide (l_len l <= 1) then Some (h, l)
  else
    let head := l_head l in
    hd ← load h head;
    let lhead := n_next hd in
    h ← set_prev h lhead None;
    h ← set_next h (l_tail l) head;
    h ← set_next h head None;
    h ← set_prev h head (l_tail l);
    Some (h, with_ends l lhead head (l_len l)).

(** Add all the elements of the list 'o' at the end of the list 'l'. *)
Definition listJoin (h : store) (l o : list_) : option (store * list_ * list_) :=
  if decide (l_len o = 0) then Some (h, l, o)
  else
    h ← set_prev h (l_head o) (l_tail l);
    '(h, head) ← (if decide (l_tail l <> None)
                  then h ← set_next h (l_tail l) (l_head o); Some (h, l_head l)
                  else Some (h, l_head o));
    Some (h, with_ends l head (l_tail o) (u64 (l_len l + l_len o)), with_ends o None None 0).

(** Initializes the node's value so that it is not a member of any list. *)
Definition listInitNode (h : store) (node : loc) (value : V) : store :=
  put h node (ListNode None None value).
End adlist.

(** ** Representation *)

Section rep.
Context {V : Type}.
Implicit Types (h : @store V) (l : @list_ V) (m : gmap loc (@listNode V)) (xs ys : list (loc * V)).

Definition first xs (qn : ptr) : ptr := match xs with [] => qn | (a, _) :: _ => Some a end.
Definition lastp (pp : ptr) xs : ptr := match last xs with None => pp | Some (a, _) => Some a end.

(** [xs] is a chain of nodes entered from [pp] and left to [qn]. *)
Fixpoint dseg m (pp : ptr) xs (qn : ptr) : Prop :=
  match xs with
  | [] => True
  | (a, v) :: ys => m !! a = Some (ListNode pp (first ys qn) v) /\ dseg m (Some a) ys qn
  end.

(** The list [l] holds the nodes [xs], in order. *)
Record rep h l xs : Prop := Rep {
  rep_seg : dseg (nodes h) None xs None;
  rep_nodup : NoDup xs.*1;
  rep_head : l_head l = first xs None;
  rep_tail : l_tail l = lastp None xs;
  rep_len : l_len l = zlen xs
}.

(** [h'] differs from [h] at most at the addresses of [xs] and [ys]. *)
Definition frame h h' xs ys : Prop :=
  forall a, a ∉ xs.*1 -> a ∉ ys.*1 -> nodes h' !! a = nodes h !! a.

(** The list keeps its methods. *)
Definition same_methods l l' : Prop :=
  l_dup l' = l_dup l /\ l_free l' = l_free l /\ l_match l' = l_match l.

Lemma lastp_app pp xs a v : lastp pp (xs ++ [(a, v)]) = Some a.
Proof. unfold lastp. by rewrite last_snoc. Qed.

Lemma lastp_cons pp a v xs : lastp pp ((a, v) :: xs) = lastp (Some a) xs.
Proof. unfold lastp. rewrite last_cons. by destruct (last xs) as [[]|]. Qed.

Lemma dseg_app m pp xs ys qn :
  dseg m pp (xs ++ ys) qn <-> dseg m pp xs (first ys qn) /\ dseg m (lastp pp xs) ys qn.
Proof.
  revert pp. induction xs as [|[a v] xs IH]; intros pp; cbn [dseg app].
  - unfold lastp. cbn. tauto.
  - rewrite IH, lastp_cons.
    assert (first (xs ++ ys) qn = first xs (first ys qn)) as -> by (by destruct xs as [|[]]). tauto.
Qed.

Lemma dseg_insert m pp xs qn a n : a ∉ xs.*1 -> dseg m pp xs qn -> dseg (<[a := n]> m) pp xs qn.
Proof.
  revert pp. induction xs as [|[b v] xs IH]; intros pp Ha H; cbn [dseg] in *; [done|].
  cbn in Ha. apply not_elem_of_cons in Ha as [Hne Ha]. destruct H as [Hb H].
  split; [by rewrite lookup_insert_ne|auto].
Qed.

Lemma dseg_delete m pp xs qn a : a ∉ xs.*1 -> dseg m pp xs qn -> dseg (delete a m) pp xs qn.
Proof.
  revert pp. induction xs as [|[b v] xs IH]; intros pp Ha H; cbn [dseg] in *; [done|].
  cbn in Ha. apply not_elem_of_cons in Ha as [Hne Ha]. destruct H as [Hb H].
  split; [by rewrite lookup_delete_ne|auto].
Qed.

(** Re-targeting the first [prev] or the last [next] pointer of a chain. *)
Lemma dseg_set_prev m pp pp' b w ys qn :
  NoDup ((b, w) :: ys).*1 -> dseg m pp ((b, w) :: ys) qn ->
  dseg (<[b := ListNode pp' (first ys qn) w]> m) pp' ((b, w) :: ys) qn.
Proof.
  cbn. intros Hn [_ H]. apply NoDup_cons in Hn as [Hb _].
  split; [by rewrite lookup_insert_eq|by apply dseg_insert].
Qed.

Lemma dseg_set_next m pp b w ys qn qn' :
  NoDup (ys ++ [(b, w)]).*1 -> dseg m pp (ys ++ [(b, w)]) qn ->
  dseg (<[b := ListNode (lastp pp ys) qn' w]> m) pp (ys ++ [(b, w)]) qn'.
Proof.
  intros Hn H. apply dseg_app in H as [H1 _]. apply dseg_app.
  rewrite fmap_app in Hn. apply NoDup_app in Hn as (_ & Hd & _).
  split; [|cbn; split; [by rewrite lookup_insert_eq|done]].
  apply dseg_insert; [|done]. intros Hin. apply (Hd b Hin). set_solver.
Qed.

Lemma dseg_lookup_last m pp b w ys qn :
  dseg m pp (ys ++ [(b, w)]) qn -> m !! b = Some (ListNode (lastp pp ys) qn w).
Proof. intros H. apply dseg_app in H as [_ H]. cbn in H. tauto. Qed.

Lemma dseg_fresh m pp xs qn : dseg m pp xs qn -> fresh (dom m) ∉ xs.*1.
Proof.
  intros H Hin. apply (is_fresh (dom m)). revert pp H Hin.
  induction xs as [|[b v] xs IH]; intros pp H Hin; [by apply elem_of_nil in Hin|].
  cbn in H. destruct H as [Hb H]. cbn in Hin. apply elem_of_cons in Hin as [->|Hin].
  - apply elem_of_dom. eauto.
  - eauto.
Qed.

(** Sequences of stores on a known node, computed. *)
Ltac heap_step :=
  unfold new_node, set_prev, set_next, load, put, listInitNode in *; cbn [nodes freed mbind option_bind];
  rewrite ?insert_insert_eq, ?lookup_insert_eq; cbn [mbind option_bind nodes freed n_prev n_next n_value];
  rewrite ?insert_insert_eq, ?lookup_insert_eq; cbn [mbind option_bind nodes freed n_prev n_next n_value].

Lemma u64_len (n : Z) : 0 <= n -> n + 1 < 2 ^ 64 -> u64 (n + 1) = n + 1.
Proof. intros. apply uwrap_small. unfold in_u. lia. Qed.

Lemma zlen_cons_neq0 {A} (x : A) (k : list A) : zlen (x :: k) <> 0.
Proof. zlia. Qed.

(** *** Insertion at the ends *)

Lemma listLinkNodeHead_ok h l xs a v pv nx :
  rep h l xs -> zlen xs + 1 < 2 ^ 64 -> a ∉ xs.*1 -> nodes h !! a = Some (ListNode pv nx v) ->
  exists h' l', listLinkNodeHead h l a = Some (h', l') /\ rep h' l' ((a, v) :: xs) /\
    frame h h' xs [(a, v)] /\ freed h' = freed h /\ same_methods l l'.
Proof.
  intros [Hseg Hnd Hhd Htl Hlen] Hb Ha Hna. unfold listLinkNodeHead. rewrite Hlen, Hhd, Htl.
  rewrite u64_len by zlia. destruct xs as [|[b w] ys].
  - rewrite decide_True by done. heap_step. rewrite Hna. heap_step.
    eexists _, _. split; [done|]. split; [|split; [|done]].
    + split; cbn; [by rewrite lookup_insert_eq|by apply NoDup_singleton|done..].
    + intros c _ Hc. cbn in Hc. cbn. rewrite lookup_insert_ne by set_solver. done.
  - rewrite decide_False by apply zlen_cons_neq0. cbn [first fmap list_fmap] in *.
    apply not_elem_of_cons in Ha as [Hab Ha]. heap_step. rewrite Hna. heap_step.
    rewrite lookup_insert_ne by done. pose proof Hseg as [Hb' Hys]. rewrite Hb'. heap_step.
    eexists _, _. split; [done|]. split; [|split; [|done]].
    + split; cbn [l_head l_tail l_len with_ends nodes].
      * split; [rewrite lookup_insert_ne by done; by rewrite lookup_insert_eq|].
        apply (dseg_set_prev _ None); [done|]. apply dseg_insert; [cbn; set_solver|done].
      * cbn. apply NoDup_cons. split; [set_solver|done].
      * done.
      * by rewrite !lastp_cons.
      * zlia.
    + intros c Hc1 Hc2. cbn in *. rewrite !lookup_insert_ne by set_solver. done.
Qed.

Lemma listLinkNodeTail_ok h l xs a v pv nx :
  rep h l xs -> zlen xs + 1 < 2 ^ 64 -> a ∉ xs.*1 -> nodes h !! a = Some (ListNode pv nx v) ->
  exists h' l', listLinkNodeTail h l a = Some (h', l') /\ rep h' l' (xs ++ [(a, v)]) /\
    frame h h' xs [(a, v)] /\ freed h' = freed h /\ same_methods l l'.
Proof.
  intros [Hseg Hnd Hhd Htl Hlen] Hb Ha Hna. unfold listLinkNodeTail. rewrite Hlen, Hhd, Htl.
  rewrite u64_len by zlia. destruct xs as [|[b w] ys _] using rev_ind.
  - rewrite decide_True by done. heap_step. rewrite Hna. heap_step.
    eexists _, _. split; [done|]. split; [|split; [|done]].
    + split; cbn; [by rewrite lookup_insert_eq|by apply NoDup_singleton|done..].
    + intros c _ Hc. cbn in Hc. cbn. rewrite lookup_insert_ne by set_solver. done.
  - rewrite decide_False by zlia. rewrite lastp_app.
    rewrite fmap_app in Ha. cbn in Ha. apply not_elem_of_app in Ha as [Ha Hab].
    heap_step. rewrite Hna. heap_step. assert (a <> b) as Hne by set_solver.
    rewrite lookup_insert_ne by done. rewrite (dseg_lookup_last _ _ _ _ _ _ Hseg). heap_step.
    eexists _, _. split; [done|]. split; [|split; [|done]].
    + split; cbn [l_head l_tail l_len with_ends nodes].
      * apply dseg_app. cbn [first dseg]. rewrite lastp_app. split.
        -- apply (dseg_set_next _ _ _ _ _ None); [done|]. apply dseg_insert; [|done].
           rewrite fmap_app. set_solver.
        -- split; [|done]. rewrite lookup_insert_ne by done. by rewrite lookup_insert_eq.
      * rewrite fmap_app. apply NoDup_app. split; [done|]. split; [|by apply NoDup_singleton].
        intros c Hc Hc'. cbn in Hc'. apply list_elem_of_singleton in Hc' as ->.
        rewrite fmap_app in Hc. set_solver.
      * by destruct ys as [|[]].
      * by rewrite lastp_app.
      * zlia.
    + intros c Hc1 Hc2. rewrite fmap_app in Hc1. cbn in *. rewrite !lookup_insert_ne by set_solver. done.
Qed.

(** The store after an allocation still represents the list. *)
Lemma rep_new h l xs n :
  rep h l xs ->
  let a := fresh (dom (nodes h)) in
  rep (put h a n) l xs /\ a ∉ xs.*1 /\ nodes (put h a n) !! a = Some n.
Proof.
  intros [Hseg Hnd Hhd Htl Hlen] a. pose proof (dseg_fresh _ _ _ _ Hseg) as Ha. fold a in Ha.
  split; [|split; [done|cbn; by rewrite lookup_insert_eq]].
  split; try done. cbn. by apply dseg_insert.
Qed.

Lemma frame_new h h' xs a v n :
  frame (put h a n) h' xs [(a, v)] -> frame h h' xs [(a, v)].
Proof. intros Hf b H1 H2. rewrite Hf by done. cbn in *. apply lookup_insert_ne. set_solver. Qed.

Lemma listAddNodeHead_ok h l xs v :
  rep h l xs -> zlen xs + 1 < 2 ^ 64 ->
  exists h' l' a, listAddNodeHead h l v = Some (h', l') /\ rep h' l' ((a, v) :: xs) /\
    nodes h !! a = None /\ frame h h' xs [(a, v)] /\ freed h' = freed h /\ same_methods l l'.
Proof.
  intros Hr Hb. unfold listAddNodeHead, new_node.
  destruct (rep_new h l xs (ListNode None None v) Hr) as (Hr' & Ha & Hn).
  destruct (listLinkNodeHead_ok _ _ _ _ _ _ _ Hr' Hb Ha Hn) as (h' & l' & -> & ? & Hf & ? & ?).
  eexists _, _, _. split; [done|]. split; [done|]. split; [|split; [by eapply frame_new|done]].
  apply not_elem_of_dom, is_fresh.
Qed.

Lemma listAddNodeTail_ok h l xs v :
  rep h l xs -> zlen xs + 1 < 2 ^ 64 ->
  exists h' l' a, listAddNodeTail h l v = Some (h', l') /\ rep h' l' (xs ++ [(a, v)]) /\
    nodes h !! a = None /\ frame h h' xs [(a, v)] /\ freed h' = freed h /\ same_methods l l'.
Proof.
  intros Hr Hb. unfold listAddNodeTail, new_node.
  destruct (rep_new h l xs (ListNode None None v) Hr) as (Hr' & Ha & Hn).
  destruct (listLinkNodeTail_ok _ _ _ _ _ _ _ Hr' Hb Ha Hn) as (h' & l' & -> & ? & Hf & ? & ?).
  eexists _, _, _. split; [done|]. split; [done|]. split; [|split; [by eapply frame_new|done]].
  apply not_elem_of_dom, is_fresh.
Qed.

(** *** Insertion and removal in the middle *)

(** The two stores that make a chain pass through [node] between [xs] and [ys]:
    the last [next] of [xs] and the first [prev] of [ys]. *)
Definition relink h (pv nx : ptr) (to_next to_prev : ptr) : option store :=
  h ← (if decide (pv <> None) then set_next h pv to_next else Some h);
  if decide (nx <> None) then set_prev h nx to_prev else Some h.

Lemma relink_ok h xs ys qn' pp' qn pp :
  dseg (nodes h) None xs qn -> dseg (nodes h) pp ys None -> NoDup (xs.*1 ++ ys.*1) ->
  exists h', relink h (lastp None xs) (first ys None) qn' pp' = Some h' /\
    dseg (nodes h') None xs qn' /\ dseg (nodes h') pp' ys None /\ freed h' = freed h /\
    (forall a, a ∉ xs.*1 -> a ∉ ys.*1 -> nodes h' !! a = nodes h !! a).
Proof.
  intros Hx Hy Hnd. apply NoDup_app in Hnd as (Hnx & Hd & Hny). unfold relink.
  assert (exists h1, (if decide (lastp None xs <> None) then set_next h (lastp None xs) qn' else Some h)
      = Some h1 /\ dseg (nodes h1) None xs qn' /\ dseg (nodes h1) pp ys None /\ freed h1 = freed h /\
      (forall a, a ∉ xs.*1 -> nodes h1 !! a = nodes h !! a)) as (h1 & -> & Hx1 & Hy1 & Hf1 & Hfr1).
  { destruct xs as [|[b w] zs _] using rev_ind; [exists h; by cbn|].
    rewrite lastp_app, decide_True by done. unfold set_next. cbn [mbind option_bind].
    rewrite (dseg_lookup_last _ _ _ _ _ _ Hx). cbn. eexists. split; [done|].
    split; [by eapply dseg_set_next|]. rewrite fmap_app in *. cbn in *. split; [|split; [done|]].
    - apply dseg_insert; [|done]. intros Hin. apply (Hd b); [set_solver|done].
    - intros a Ha. apply lookup_insert_ne. set_solver. }
  cbn [mbind option_bind].
  destruct ys as [|[b w] zs]; [exists h1; cbn; repeat (split; [done|]); auto|].
  cbn [first]. rewrite decide_True by done. unfold set_prev. cbn [mbind option_bind].
  pose proof Hy1 as [Hb _]. rewrite Hb. cbn. eexists. split; [done|].
  cbn in Hd, Hny. split; [|split; [by apply (dseg_set_prev _ pp)|split; [done|]]].
  - apply dseg_insert; [|done]. intros Hin. apply (Hd b Hin). set_solver.
  - intros a Ha1 Ha2. cbn in Ha2. cbn. rewrite lookup_insert_ne by set_solver. auto.
Qed.

Lemma lastp_app2 pp xs ys : lastp pp (xs ++ ys) = lastp (lastp pp xs) ys.
Proof.
  revert pp. induction xs as [|[a v] xs IH]; intros pp; [done|].
  cbn [app]. by rewrite !lastp_cons.
Qed.

Lemma first_app xs ys qn : first (xs ++ ys) qn = first xs (first ys qn).
Proof. by destruct xs as [|[]]. Qed.

(** The chain with a node in the middle, from its two halves. *)
Lemma dseg_middle m xs a v ys :
  dseg m None xs (Some a) -> dseg m (Some a) ys None ->
  m !! a = Some (ListNode (lastp None xs) (first ys None) v) -> dseg m None (xs ++ (a, v) :: ys) None.
Proof. intros H1 H2 Ha. apply dseg_app. cbn. auto. Qed.

Lemma NoDup_split (l1 l2 : list loc) a : NoDup (l1 ++ a :: l2) -> NoDup (l1 ++ l2) /\ a ∉ l1 /\ a ∉ l2.
Proof.
  rewrite !NoDup_app, NoDup_cons. intros (H1 & H2 & H3 & H4). split_and!; try done.
  - intros x Hx Hx'. apply (H2 x Hx). set_solver.
  - intros Hin. apply (H2 a Hin). set_solver.
Qed.

Lemma NoDup_join (l1 l2 : list loc) a : NoDup (l1 ++ l2) -> a ∉ l1 ++ l2 -> NoDup (l1 ++ a :: l2).
Proof.
  rewrite !NoDup_app, NoDup_cons. intros (H1 & H2 & H3) Ha. split_and!; try done; try set_solver.
Qed.

(** A node inserted between the two parts of the list. *)
Lemma insert_between h l xs ys v :
  rep h l (xs ++ ys) -> zlen (xs ++ ys) + 1 < 2 ^ 64 ->
  let node := fresh (dom (nodes h)) in
  exists h', relink (put h node (ListNode (lastp None xs) (first ys None) v))
      (lastp None xs) (first ys None) (Some node) (Some node) = Some h' /\
    rep h' (with_ends l (first (xs ++ [(node, v)]) (first ys None))
              (lastp (lastp None xs) ((node, v) :: ys)) (u64 (l_len l + 1)))
        (xs ++ (node, v) :: ys) /\
    frame h h' (xs ++ ys) [(node, v)] /\ freed h' = freed h.
Proof.
  intros Hr Hb node. destruct (rep_new h l _ (ListNode (lastp None xs) (first ys None) v) Hr) as (Hr' & Ha & Hn).
  fold node in Hr', Ha, Hn. destruct Hr' as [Hseg Hnd Hhd Htl Hlen].
  apply dseg_app in Hseg as [Hx Hy]. rewrite fmap_app in *.
  destruct (relink_ok _ _ _ (Some node) (Some node) _ _ Hx Hy Hnd) as (h' & -> & Hx' & Hy' & Hf' & Hfr).
  exists h'. split; [done|]. apply not_elem_of_app in Ha as [Hax Hay].
  split; [|split; [|by rewrite Hf']].
  - split; cbn [l_head l_tail l_len with_ends].
    + apply dseg_middle; [done|done|]. by rewrite Hfr.
    + rewrite fmap_app. cbn. apply NoDup_join; [done|set_solver].
    + by rewrite !first_app.
    + by rewrite lastp_app2.
    + rewrite Hlen, u64_len by zlia. zlia.
  - intros b Hb1 Hb2. rewrite fmap_app in Hb1. rewrite Hfr by set_solver. cbn in *.
    apply lookup_insert_ne. set_solver.
Qed.

Lemma in_seg_neq m pp xs qn a v ys :
  NoDup (xs ++ (a, v) :: ys).*1 -> dseg m pp (xs ++ (a, v) :: ys) qn ->
  m !! a = Some (ListNode (lastp pp xs) (first ys qn) v).
Proof. intros _ H. apply dseg_app in H as [_ H]. cbn in H. tauto. Qed.

(** In a list without repetition the end of a prefix is the end of the list only
    when nothing follows. *)
Lemma lastp_eq_iff xs a v ys :
  NoDup (xs ++ (a, v) :: ys).*1 -> (lastp None (xs ++ (a, v) :: ys) = Some a <-> ys = []).
Proof.
  intros Hnd. rewrite lastp_app2, lastp_cons. split; [|by intros ->].
  destruct ys as [|[b w] zs _] using rev_ind; [done|]. rewrite lastp_app. intros [= ->].
  rewrite !fmap_app in Hnd. cbn in Hnd. apply NoDup_app in Hnd as (_ & _ & Hnd).
  apply NoDup_cons in Hnd as [Hin _]. rewrite fmap_app in Hin. cbn in Hin. set_solver.
Qed.

Lemma first_eq_iff xs a v ys :
  NoDup (xs ++ (a, v) :: ys).*1 -> (first (xs ++ (a, v) :: ys) None = Some a <-> xs = []).
Proof.
  intros Hnd. split; [|by intros ->]. destruct xs as [|[b w] zs]; [done|]. cbn. intros [= ->].
  cbn in Hnd. apply NoDup_cons in Hnd as [Hin _]. rewrite fmap_app in Hin. cbn in Hin. set_solver.
Qed.

Lemma listInsertNode_ok h l xs a v ys w after :
  rep h l (xs ++ (a, v) :: ys) -> zlen (xs ++ (a, v) :: ys) + 1 < 2 ^ 64 ->
  exists h' l' b, listInsertNode h l a w after = Some (h', l') /\
    rep h' l' (if after then xs ++ (a, v) :: (b, w) :: ys else xs ++ (b, w) :: (a, v) :: ys) /\
    nodes h !! b = None /\ frame h h' (xs ++ (a, v) :: ys) [(b, w)] /\ freed h' = freed h /\
    same_methods l l'.
Proof.
  intros Hr Hb. pose proof Hr as [Hseg Hnd Hhd Htl Hlen].
  pose proof (in_seg_neq _ _ _ _ _ _ _ Hnd Hseg) as Ha.
  unfold listInsertNode, load. cbn [mbind option_bind]. rewrite Ha. cbn [mbind option_bind n_prev n_next].
  set (node := fresh (dom (nodes h))).
  assert (nodes h !! node = None) as Hno by (apply not_elem_of_dom, is_fresh).
  destruct after.
  - destruct (insert_between h l (xs ++ [(a, v)]) ys w) as (h' & Hre & Hrep & Hfr & Hf).
    { by rewrite <- app_assoc. } { by rewrite <- app_assoc. }
    fold node in Hre, Hrep, Hfr. rewrite lastp_app in *. unfold relink in Hre.
    unfold new_node. fold node.
    destruct (if decide (Some a <> None) then _ else _) as [h1|]; [|done]. cbn [mbind option_bind] in *.
    rewrite Hre. clear Hre. cbn [mbind option_bind]. eexists _, _, node. split; [done|].
    split; [|split; [done|split; [|done]]].
    + destruct Hrep as [R1 R2 R3 R4 R5]. rewrite <- app_assoc in R1, R2, R5. cbn [app] in *.
      split; try done; cbn [l_head l_tail l_len with_ends] in *.
      * rewrite Hhd, !first_app. done.
      * rewrite Htl. case_decide as Ht.
        -- apply lastp_eq_iff in Ht as ->; [|done]. by rewrite lastp_app2, !lastp_cons.
        -- rewrite !lastp_app2, !lastp_cons. destruct ys as [|y ys _] using rev_ind; [by rewrite lastp_app2, lastp_cons in Ht|].
           destruct y. by rewrite !lastp_app.
      * rewrite R5. zlia.
    + by rewrite <- app_assoc in Hfr.
  - destruct (insert_between h l xs ((a, v) :: ys) w) as (h' & Hre & Hrep & Hfr & Hf); [done..|].
    fold node in Hre, Hrep, Hfr. cbn [first] in *. unfold relink in Hre.
    unfold new_node. fold node.
    destruct (if decide (lastp None xs <> None) then _ else _) as [h1|]; [|done]. cbn [mbind option_bind] in *.
    rewrite Hre. clear Hre. cbn [mbind option_bind]. eexists _, _, node. split; [done|].
    split; [|split; [done|split; [done|done]]].
    destruct Hrep as [R1 R2 R3 R4 R5]. split; try done; cbn [l_head l_tail l_len with_ends] in *.
    + rewrite Hhd. case_decide as Ht.
      * apply first_eq_iff in Ht as ->; [|done]. done.
      * rewrite !first_app. destruct xs as [|[]]; [by cbn in Ht|]. done.
    + rewrite Htl. by rewrite !lastp_app2, !lastp_cons.
Qed.

Lemma listUnlinkNode_ok h l xs a v ys :
  rep h l (xs ++ (a, v) :: ys) -> zlen (xs ++ (a, v) :: ys) < 2 ^ 64 ->
  exists h' l', listUnlinkNode h l a = Some (h', l') /\ rep h' l' (xs ++ ys) /\
    nodes h' !! a = Some (ListNode None None v) /\
    frame h h' (xs ++ (a, v) :: ys) [] /\ freed h' = freed h /\ same_methods l l'.
Proof.
  intros [Hseg Hnd Hhd Htl Hlen] Hb.
  pose proof (in_seg_neq _ _ _ _ _ _ _ Hnd Hseg) as Ha.
  apply dseg_app in Hseg as [Hx Hy]. cbn [dseg first] in Hx, Hy. destruct Hy as [_ Hy].
  rewrite fmap_app in Hnd. cbn in Hnd. apply NoDup_split in Hnd as (Hnd & Hax & Hay).
  unfold listUnlinkNode, load. cbn [mbind option_bind]. rewrite Ha. cbn [mbind option_bind n_prev n_next].
  destruct (relink_ok h xs ys (first ys None) (lastp None xs) _ _ Hx Hy Hnd) as (h1 & Hre & Hx1 & Hy1 & Hf1 & Hfr1).
  unfold relink in Hre.
  destruct (if decide (lastp None xs <> None) then _ else _) as [h0|]; [|done]. cbn [mbind option_bind] in *.
  rewrite Hre. clear Hre h0. cbn [mbind option_bind].
  assert (nodes h1 !! a = Some (ListNode (lastp None xs) (first ys None) v)) as Ha1 by (by rewrite Hfr1).
  heap_step. rewrite Ha1. heap_step. eexists _, _. split; [done|].
  split; [|split; [by cbn; rewrite lookup_insert_eq|split; [|done]]].
  - split; cbn [l_head l_tail l_len with_ends nodes].
    + apply dseg_app. split; apply dseg_insert; done.
    + by rewrite fmap_app.
    + rewrite Hhd, !first_app. destruct xs as [|[]]; [done|]. rewrite decide_True; [done|].
      rewrite lastp_cons. unfold lastp. by destruct (last _) as [[]|].
    + rewrite Htl, !lastp_app2, lastp_cons. destruct ys as [|[] ys]; [done|]. cbn [first].
      rewrite decide_True by done. by rewrite !lastp_cons.
    + rewrite Hlen. unfold u64. rewrite uwrap_small; [zlia|]. unfold in_u. zlia.
  - intros b Hb1 _. rewrite fmap_app in Hb1. cbn in *. rewrite lookup_insert_ne by set_solver. apply Hfr1; set_solver.
Qed.

Lemma listDelNode_ok h l xs a v ys :
  rep h l (xs ++ (a, v) :: ys) -> zlen (xs ++ (a, v) :: ys) < 2 ^ 64 ->
  exists h' l', listDelNode h l a = Some (h', l') /\ rep h' l' (xs ++ ys) /\ nodes h' !! a = None /\
    frame h h' (xs ++ (a, v) :: ys) [] /\
    freed h' = freed h ++ (if l_free l then [v] else []) /\ same_methods l l'.
Proof.
  intros Hr Hb. pose proof Hr as [_ Hnd _ _ _]. unfold listDelNode.
  destruct (listUnlinkNode_ok h l xs a v ys Hr Hb) as (h1 & l1 & -> & [Hseg Hnd1 Hhd Htl Hlen] & Ha & Hfr & Hf & Hm).
  cbn [mbind option_bind]. unfold load. cbn [mbind option_bind]. rewrite Ha. cbn [mbind option_bind n_value].
  assert (nodes (call_free l1 h1 v) = nodes h1) as Hcf by (unfold call_free; by destruct (l_free l1)).
  unfold zfree. cbn [mbind option_bind]. rewrite Hcf, Ha. cbn [mbind option_bind].
  eexists _, _. split; [done|]. rewrite fmap_app in Hnd. cbn in Hnd. apply NoDup_split in Hnd as (_ & Hax & Hay).
  split; [|split; [by cbn; rewrite lookup_delete_eq|split; [|split; [|done]]]].
  - split; try done. cbn. apply dseg_delete; [rewrite fmap_app; set_solver|done].
  - intros b Hb1 Hb2. rewrite fmap_app in Hb1. cbn in *. rewrite lookup_delete_ne by set_solver.
    apply Hfr; [rewrite fmap_app; cbn|]; done.
  - cbn. unfold call_free. destruct Hm as (_ & -> & _). destruct (l_free l); cbn; rewrite Hf; [done|by rewrite app_nil_r].
Qed.

(** *** Rotation *)

Lemma set_next_last h ys b w qn qn' pp :
  dseg (nodes h) pp (ys ++ [(b, w)]) qn -> NoDup (ys ++ [(b, w)]).*1 ->
  exists h', set_next h (Some b) qn' = Some h' /\ dseg (nodes h') pp (ys ++ [(b, w)]) qn' /\
    freed h' = freed h /\ forall a, a <> b -> nodes h' !! a = nodes h !! a.
Proof.
  intros H Hnd. unfold set_next. cbn [mbind option_bind]. rewrite (dseg_lookup_last _ _ _ _ _ _ H). cbn.
  eexists. split; [done|]. split; [by eapply dseg_set_next|]. split; [done|].
  intros. by apply lookup_insert_ne.
Qed.

Lemma set_prev_first h ys b w pp pp' qn :
  dseg (nodes h) pp ((b, w) :: ys) qn -> NoDup ((b, w) :: ys).*1 ->
  exists h', set_prev h (Some b) pp' = Some h' /\ dseg (nodes h') pp' ((b, w) :: ys) qn /\
    freed h' = freed h /\ forall a, a <> b -> nodes h' !! a = nodes h !! a.
Proof.
  intros H Hnd. unfold set_prev. cbn [mbind option_bind]. pose proof H as [Hb _]. rewrite Hb. cbn.
  eexists. split; [done|]. split; [by apply (dseg_set_prev _ pp)|]. split; [done|].
  intros. by apply lookup_insert_ne.
Qed.

Lemma dseg_ext m m' pp xs qn :
  (forall a, a ∈ xs.*1 -> m' !! a = m !! a) -> dseg m pp xs qn -> dseg m' pp xs qn.
Proof.
  revert pp. induction xs as [|[b v] xs IH]; intros pp Hm H; cbn [dseg] in *; [done|].
  destruct H as [Hb H]. cbn in Hm. split; [rewrite Hm by set_solver; done|]. apply IH; [set_solver|done].
Qed.

Lemma listRotateTailToHead_ok h l xs a v :
  rep h l (xs ++ [(a, v)]) ->
  exists h' l', listRotateTailToHead h l = Some (h', l') /\ rep h' l' ((a, v) :: xs) /\
    frame h h' (xs ++ [(a, v)]) [] /\ freed h' = freed h /\ same_methods l l'.
Proof.
  intros Hr. pose proof Hr as [Hseg Hnd Hhd Htl Hlen]. unfold listRotateTailToHead. case_decide as Hl1.
  { destruct xs as [|x xs]; [|exfalso; zlia]. exists h, l. repeat (split; [done|]). done. }
  destruct xs as [|[b w] ys]; [exfalso; cbn in Hlen; zlia|].
  rewrite Htl, lastp_app. unfold load. cbn [mbind option_bind].
  rewrite (dseg_lookup_last _ _ _ _ _ _ Hseg). cbn [mbind option_bind n_prev].
  apply dseg_app in Hseg as [Hx Ha]. cbn [first] in Hx. cbn [dseg] in Ha. destruct Ha as [Ha _].
  rewrite fmap_app in Hnd. pose proof Hnd as Hnd'. apply NoDup_app in Hnd' as (Hnx & Hd & _).
  assert (forall c, c ∈ ((b, w) :: ys).*1 -> c <> a) as Hne by (intros c Hc ->; apply (Hd a Hc); cbn; set_solver).
  rewrite Hhd. cbn [first app].
  assert (exists h1, set_next h (lastp None ((b, w) :: ys)) None = Some h1 /\ dseg (nodes h1) None ((b, w) :: ys) None /\
    freed h1 = freed h /\ forall c, c ∉ ((b, w) :: ys).*1 -> nodes h1 !! c = nodes h !! c)
    as (h1 & -> & Hx1 & Hf1 & Hfr1).
  { destruct ((b, w) :: ys) as [|[c u] zs _] eqn:E using rev_ind; [done|]. rewrite lastp_app.
    destruct (set_next_last h zs c u _ None _ Hx Hnx) as (h1 & H1 & H2 & H3 & H4). exists h1.
    split; [done|]. split; [done|]. split; [done|]. intros d Hd'. apply H4. rewrite fmap_app in Hd'. cbn in Hd'. set_solver. }
  cbn [mbind option_bind].
  destruct (set_prev_first h1 ys b w None (Some a) None Hx1 Hnx) as (h2 & -> & Hx2 & Hf2 & Hfr2).
  cbn [mbind option_bind].
  assert (b <> a) as Hba by (apply Hne; cbn; set_solver).
  assert (nodes h2 !! a = Some (ListNode (lastp None ((b, w) :: ys)) None v)) as Ha2.
  { rewrite Hfr2 by done. rewrite Hfr1; [done|]. intros Hin. by apply (Hne a). }
  heap_step. rewrite Ha2. heap_step. eexists _, _. split; [done|].
  split; [|split; [|split; [cbn; congruence|done]]].
  - split; cbn [l_head l_tail l_len with_ends nodes].
    + split; [by rewrite lookup_insert_eq|]. apply dseg_insert; [|done]. intros Hin. by apply (Hne a).
    + cbn [fmap list_fmap]. apply NoDup_cons. split; [|done]. intros Hin. by apply (Hne a).
    + done.
    + by rewrite !lastp_cons.
    + rewrite Hlen. zlia.
  - intros c Hc _. cbn in Hc. rewrite fmap_app in Hc. cbn in *. rewrite lookup_insert_ne by set_solver.
    rewrite Hfr2 by set_solver. apply Hfr1. cbn. set_solver.
Qed.

Lemma listRotateHeadToTail_ok h l xs a v :
  rep h l ((a, v) :: xs) ->
  exists h' l', listRotateHeadToTail h l = Some (h', l') /\ rep h' l' (xs ++ [(a, v)]) /\
    frame h h' ((a, v) :: xs) [] /\ freed h' = freed h /\ same_methods l l'.
Proof.
  intros Hr. pose proof Hr as [Hseg Hnd Hhd Htl Hlen]. unfold listRotateHeadToTail. case_decide as Hl1.
  { destruct xs as [|x xs]; [|exfalso; zlia]. exists h, l. repeat (split; [done|]). done. }
  destruct xs as [|[b w] ys]; [exfalso; cbn in Hlen; zlia|].
  rewrite Hhd. cbn [first]. unfold load. cbn [mbind option_bind]. destruct Hseg as [Ha Hx]. rewrite Ha.
  cbn [mbind option_bind n_next first].
  pose proof Hnd as Hnd'. cbn in Hnd'. apply NoDup_cons in Hnd' as [Hna Hnx].
  destruct (set_prev_first h ys b w (Some a) None None Hx Hnx) as (h1 & -> & Hx1 & Hf1 & Hfr1).
  cbn [mbind option_bind]. rewrite Htl, lastp_cons.
  assert (exists h2 c, lastp (Some a) ((b, w) :: ys) = Some c /\ lastp None ((b, w) :: ys) = Some c /\
    set_next h1 (Some c) (Some a) = Some h2 /\
    dseg (nodes h2) None ((b, w) :: ys) (Some a) /\
    freed h2 = freed h1 /\ forall c, c ∉ ((b, w) :: ys).*1 -> nodes h2 !! c = nodes h1 !! c)
    as (h2 & c & Hc1 & Hc2 & Hsn & Hx2 & Hf2 & Hfr2).
  { destruct ((b, w) :: ys) as [|[c u] zs _] eqn:E using rev_ind; [done|]. rewrite !lastp_app.
    destruct (set_next_last h1 zs c u _ (Some a) _ Hx1) as (h2 & H1 & H2 & H3 & H4); [change (NoDup ((b, w) :: ys).*1) in Hnx; by rewrite E in Hnx|].
    exists h2, c. split; [done|]. split; [done|]. split; [done|]. split; [done|]. split; [done|].
    intros d Hd'. apply H4. rewrite fmap_app in Hd'. cbn in Hd'. set_solver. }
  rewrite Hc1, Hsn. cbn [mbind option_bind].
  assert (nodes h2 !! a = Some (ListNode None (Some b) v)) as Ha2.
  { rewrite Hfr2 by done. rewrite Hfr1; [done|]. intros ->. apply Hna. set_solver. }
  heap_step. rewrite Ha2. heap_step. eexists _, _. split; [done|].
  split; [|split; [|split; [cbn; congruence|done]]].
  - split; cbn [l_head l_tail l_len with_ends nodes].
    + apply dseg_app. cbn [first]. rewrite Hc2.
      split; [by apply (dseg_insert _ None ((b, w) :: ys))|].
      split; [by rewrite lookup_insert_eq|done].
    + rewrite fmap_app. cbn [fmap list_fmap]. apply NoDup_app. split; [done|]. split; [|by apply NoDup_singleton].
      intros d Hd Hd'. apply list_elem_of_singleton in Hd' as ->. done.
    + by rewrite first_app.
    + by rewrite lastp_app.
    + rewrite Hlen. zlia.
  - intros d Hd _. cbn in Hd. cbn. rewrite lookup_insert_ne by set_solver. rewrite Hfr2 by (cbn; set_solver).
    apply Hfr1. set_solver.
Qed.

(** *** Joining two lists *)

Lemma listJoin_ok h l o xs ys :
  rep h l xs -> rep h o ys -> NoDup (xs.*1 ++ ys.*1) -> zlen (xs ++ ys) < 2 ^ 64 ->
  exists h' l' o', listJoin h l o = Some (h', l', o') /\ rep h' l' (xs ++ ys) /\ rep h' o' [] /\
    frame h h' xs ys /\ freed h' = freed h /\ same_methods l l' /\ same_methods o o'.
Proof.
  intros Hrl Hro Hnd Hb. pose proof Hrl as [Hx Hnx Hhl Htl Hll]. pose proof Hro as [Hy Hny Hho Hto Hlo].
  unfold listJoin. rewrite Hlo. destruct ys as [|[b w] ys'].
  { rewrite decide_True by done. exists h, l, o. rewrite app_nil_r. repeat (split; [done|]). done. }
  rewrite decide_False by apply zlen_cons_neq0. rewrite Hho, Htl. cbn [first].
  destruct (set_prev_first h ys' b w None (lastp None xs) None Hy Hny) as (h1 & -> & Hy1 & Hf1 & Hfr1).
  cbn [mbind option_bind]. set (ys := (b, w) :: ys') in *.
  pose proof Hnd as Hnd'. apply NoDup_app in Hnd' as (_ & Hd & _).
  assert (dseg (nodes h1) None xs None) as Hx1.
  { eapply dseg_ext; [|exact Hx]. intros a Ha. apply Hfr1. intros ->. apply (Hd b Ha). cbn. set_solver. }
  assert (exists h2, (if decide (lastp None xs <> None) then h2 ← set_next h1 (lastp None xs) (Some b); Some (h2, l_head l)
      else Some (h1, Some b)) = Some (h2, first (xs ++ ys) None) /\
      dseg (nodes h2) None xs (Some b) /\ freed h2 = freed h1 /\
      (forall a, a ∉ xs.*1 -> nodes h2 !! a = nodes h1 !! a)) as (h2 & -> & Hx2 & Hf2 & Hfr2).
  { destruct xs as [|[c u] zs _] using rev_ind; [by exists h1|].
    rewrite lastp_app, decide_True by done.
    destruct (set_next_last h1 zs c u None (Some b) None Hx1 Hnx) as (h2 & -> & ? & ? & Hfr).
    exists h2. cbn [mbind option_bind]. split; [by rewrite Hhl, !first_app|]. split; [done|]. split; [done|].
    intros a Ha. apply Hfr. rewrite fmap_app in Ha. cbn in Ha. set_solver. }
  cbn [mbind option_bind]. eexists _, _, _. split; [done|].
  split; [|split; [|split; [|split; [congruence|done]]]].
  - split; cbn [l_head l_tail l_len with_ends].
    + apply dseg_app. cbn [first]. split; [done|]. eapply dseg_ext; [|exact Hy1].
      intros a Ha. apply Hfr2. intros Ha'. by apply (Hd a Ha').
    + by rewrite fmap_app.
    + done.
    + rewrite Hto, lastp_app2. subst ys. by rewrite !lastp_cons.
    + rewrite Hll. unfold u64. rewrite uwrap_small; [zlia|]. unfold in_u. zlia.
  - split; try done. apply NoDup_nil_2.
  - intros a H1 H2. rewrite Hfr2 by done. apply Hfr1. intros ->. apply H2. cbn. set_solver.
Qed.

(** *** Iteration *)

Lemma listIndex_forward h n : forall pp xs,
  dseg (nodes h) pp xs None ->
  listIndex_loop n h false (first xs None) = Some (first (drop n xs) None).
Proof.
  induction n as [|n IH]; intros pp xs H; cbn [listIndex_loop]; [by rewrite drop_0|].
  destruct xs as [|[a v] xs]; [done|]. cbn [first]. rewrite decide_False by done.
  destruct H as [Ha H]. unfold load. cbn [mbind option_bind]. rewrite Ha. cbn [mbind option_bind n_next].
  by rewrite (IH _ _ H).
Qed.

Lemma listIndex_backward h n : forall xs qn,
  dseg (nodes h) None xs qn ->
  listIndex_loop n h true (lastp None xs) = Some (lastp None (take (length xs - n) xs)).
Proof.
  induction n as [|n IH]; intros xs qn H; cbn [listIndex_loop]; [by rewrite Nat.sub_0_r, firstn_all|].
  destruct xs as [|[a v] xs _] using rev_ind; [done|]. rewrite lastp_app, decide_False by done.
  unfold load. cbn [mbind option_bind]. rewrite (dseg_lookup_last _ _ _ _ _ _ H). cbn [mbind option_bind n_prev].
  apply dseg_app in H as [H _]. rewrite (IH _ _ H). rewrite length_app. cbn [length].
  replace (length xs + 1 - S n)%nat with (length xs - n)%nat by lia. by rewrite take_app_le by lia.
Qed.

(** The address at a signed index: negative indices count from the tail. *)
Definition index_of xs (index : Z) : ptr :=
  let k := if decide (index < 0) then zlen xs + index else index in
  if decide (0 <= k) then fst <$> xs !! Z.to_nat k else None.

Lemma first_drop xs n : first (drop n xs) None = fst <$> xs !! n.
Proof.
  revert n. induction xs as [|[a v] xs IH]; intros n; [by rewrite drop_nil|].
  destruct n; [done|]. apply IH.
Qed.

Lemma lastp_take xs n : (n <= length xs)%nat -> lastp None (take n xs) = if decide (n = 0%nat) then None else fst <$> xs !! pred n.
Proof.
  intros Hn. case_decide; [by subst|]. unfold lastp. destruct n as [|n]; [done|]. cbn [pred].
  rewrite last_lookup, length_take. replace (Init.Nat.pred _) with n by lia. rewrite lookup_take_lt by lia.
  destruct (xs !! n) as [[]|] eqn:E; [done|]. apply lookup_ge_None in E. lia.
Qed.

Lemma listIndex_ok h l xs index : rep h l xs -> listIndex h l index = Some (index_of xs index).
Proof.
  intros [Hseg _ Hhd Htl _]. unfold listIndex, index_of. case_decide as Hneg.
  - rewrite Htl, (listIndex_backward _ _ _ _ Hseg), lastp_take by lia. f_equal.
    repeat case_decide; try done; try zlia. f_equal. f_equal. zlia.
  - rewrite Hhd, (listIndex_forward _ _ _ _ Hseg), first_drop. by rewrite decide_True by lia.
Qed.

(** The test of [listSearchKey]. *)
Definition key_match (eqv : V -> V -> bool) l (key v : V) : bool :=
  match l_match l with Some f => f v key | None => eqv key v end.

Lemma listSearchKey_loop_ok eqv h l key n : forall pp xs,
  dseg (nodes h) pp xs None -> (length xs < n)%nat ->
  listSearchKey_loop n eqv h l key (ListIter (first xs None) AL_START_HEAD) =
    Some (fst <$> List.find (fun x => key_match eqv l key x.2) xs).
Proof.
  induction n as [|n IH]; intros pp xs H Hn; [lia|]. cbn [listSearchKey_loop]. unfold listNext. cbn [it_next].
  destruct xs as [|[a v] xs]; [done|]. destruct H as [Ha H]. cbn [first].
  rewrite decide_True by done. unfold load. cbn [mbind option_bind]. rewrite Ha. cbn [mbind option_bind].
  rewrite decide_False by done. rewrite Ha. cbn [mbind option_bind n_value n_next it_direction].
  rewrite decide_True by done. cbn [List.find snd]. fold (key_match eqv l key v).
  destruct (key_match eqv l key v); [done|]. apply (IH _ _ H). cbn in Hn. lia.
Qed.

Lemma listSearchKey_ok eqv h l xs key :
  rep h l xs ->
  listSearchKey eqv h l key = Some (fst <$> List.find (fun x => key_match eqv l key x.2) xs).
Proof.
  intros [Hseg _ Hhd _ Hlen]. unfold listSearchKey, listRewind. rewrite Hhd.
  eapply listSearchKey_loop_ok; [exact Hseg|]. rewrite Hlen. zlia.
Qed.

(** *** Emptying *)

Lemma listEmpty_loop_ok l n : forall h pp xs,
  n = length xs -> dseg (nodes h) pp xs None -> NoDup xs.*1 ->
  exists h', listEmpty_loop n l h (first xs None) = Some h' /\
    (forall a, nodes h' !! a = if decide (a ∈ xs.*1) then None else nodes h !! a) /\
    freed h' = freed h ++ (if l_free l then xs.*2 else []).
Proof.
  induction n as [|n IH]; intros h pp xs Hn H Hnd; destruct xs as [|[a v] xs]; try done.
  { exists h. split; [done|]. split; [|by destruct (l_free l); rewrite app_nil_r].
    intros a. rewrite decide_False; [done|]. apply not_elem_of_nil. }
  cbn [listEmpty_loop first]. destruct H as [Ha H]. cbn in Hnd. apply NoDup_cons in Hnd as [Hna Hnd].
  unfold load. cbn [mbind option_bind]. rewrite Ha. cbn [mbind option_bind n_value n_next].
  assert (nodes (call_free l h v) = nodes h) as Hcf by (unfold call_free; by destruct (l_free l)).
  unfold zfree. cbn [mbind option_bind]. rewrite Hcf, Ha. cbn [mbind option_bind].
  destruct (IH (Store (delete a (nodes h)) (freed (call_free l h v))) (Some a) xs) as (h' & -> & Hl & Hf).
  { cbn in Hn. lia. } { cbn. by apply dseg_delete. } { done. }
  exists h'. split; [done|]. split.
  - intros b. rewrite Hl. cbn [nodes fmap list_fmap].
    destruct (decide (b = a)) as [->|Hne].
    + rewrite decide_False by done. rewrite lookup_delete_eq. by rewrite decide_True by set_solver.
    + rewrite lookup_delete_ne by done. repeat case_decide; set_solver.
  - rewrite Hf. cbn [freed]. unfold call_free. destruct (l_free l); cbn; [by rewrite <- app_assoc|done].
Qed.

Lemma listEmpty_ok h l xs :
  rep h l xs ->
  exists h' l', listEmpty h l = Some (h', l') /\ rep h' l' [] /\
    (forall a, nodes h' !! a = if decide (a ∈ xs.*1) then None else nodes h !! a) /\
    freed h' = freed h ++ (if l_free l then xs.*2 else []) /\ same_methods l l'.
Proof.
  intros [Hseg Hnd Hhd Htl Hlen]. unfold listEmpty. rewrite Hhd.
  destruct (listEmpty_loop_ok l (Z.to_nat (l_len l)) h None xs) as (h' & -> & Hl & Hf);
    [rewrite Hlen; zlia|done|done|].
  cbn. eexists _, _. split; [done|]. split; [|done]. split; try done. apply NoDup_nil_2.
Qed.

(** *** Duplication *)

Definition dup_of l (v : V) : option V := match l_dup l with Some dup => dup v | None => Some v end.

(** While copying: the store is the original one plus the nodes of the copy. *)
Record copying h0 h l copy cs : Prop := Copying {
  cp_rep : rep h copy cs;
  cp_old : forall a, a ∉ cs.*1 -> nodes h !! a = nodes h0 !! a;
  cp_new : forall a, a ∈ cs.*1 -> nodes h0 !! a = None;
  cp_freed : freed h = freed h0;
  cp_methods : same_methods l copy
}.

Lemma listDup_loop_ok h0 l n : forall h copy cs pp rest,
  copying h0 h l copy cs -> dseg (nodes h0) pp rest None -> (length rest < n)%nat ->
  zlen cs + zlen rest < 2 ^ 64 ->
  match mapM (dup_of l) rest.*2 with
  | Some ws =>
    exists h' copy' cs', listDup_loop n h copy (ListIter (first rest None) AL_START_HEAD) = Some (h', Some copy') /\
      copying h0 h' l copy' cs' /\ cs'.*2 = cs.*2 ++ ws
  | None =>
    exists h', listDup_loop n h copy (ListIter (first rest None) AL_START_HEAD) = Some (h', None) /\
      forall a, nodes h' !! a = nodes h0 !! a
  end.
Proof.
  induction n as [|n IH]; intros h copy cs pp rest Hc H Hn Hb; [lia|].
  cbn [listDup_loop]. unfold listNext. cbn [it_next]. destruct rest as [|[a v] rest].
  { cbn. exists h, copy, cs. rewrite app_nil_r. done. }
  destruct H as [Ha H]. pose proof Hc as [Hrep Hold Hnew Hfreed Hmeth].
  assert (nodes h !! a = Some (ListNode pp (first rest None) v)) as Ha'.
  { rewrite Hold; [done|]. intros Hin. rewrite Hnew in Ha; done. }
  cbn [first]. rewrite decide_True by done. unfold load. cbn [mbind option_bind]. rewrite Ha'.
  cbn [mbind option_bind]. rewrite decide_False by done. rewrite Ha'. cbn [mbind option_bind n_value n_next it_direction].
  rewrite decide_True by done. pose proof Hmeth as (Hdup & _). rewrite Hdup. fold (dup_of l v).
  cbn [fmap list_fmap snd mapM]. change (mapM (dup_of l) (v :: rest.*2)) with
    (y ← dup_of l v; k ← mapM (dup_of l) rest.*2; Some (y :: k)).
  destruct (dup_of l v) as [w|]; cbn [mbind option_bind].
  - destruct (listAddNodeTail_ok h copy cs w Hrep ltac:(zlia)) as (h1 & c1 & b & -> & Hrep1 & Hb0 & Hfr & Hf & Hm1).
    cbn [mbind option_bind].
    assert (copying h0 h1 l c1 (cs ++ [(b, w)])) as Hc1.
    { split; [done|..].
      - intros c Hcn. rewrite fmap_app in Hcn. cbn in Hcn. rewrite Hfr by (cbn; set_solver). apply Hold. set_solver.
      - intros c Hcn. rewrite fmap_app in Hcn. cbn in Hcn. apply elem_of_app in Hcn as [Hcn|Hcn]; [auto|].
        apply list_elem_of_singleton in Hcn as ->. rewrite <- Hold; [done|]. intros Hin.
        destruct Hrep as [Hseg _ _ _ _]. apply list_elem_of_fmap in Hin as ([b' w'] & -> & Hin).
        apply list_elem_of_split in Hin as (l1 & l2 & ->). apply dseg_app in Hseg as [_ [Hs _]]. cbn in Hb0. congruence.
      - congruence.
      - destruct Hmeth as (?&?&?), Hm1 as (?&?&?). repeat split; congruence. }
    specialize (IH h1 c1 (cs ++ [(b, w)]) (Some a) rest Hc1 H ltac:(cbn in Hn; lia) ltac:(zlia)).
    destruct (mapM (dup_of l) rest.*2) as [ws|]; cbn [mbind option_bind].
    + destruct IH as (h' & copy' & cs' & -> & ? & Hws). exists h', copy', cs'. split; [done|]. split; [done|].
      rewrite Hws, fmap_app, <- app_assoc. done.
    + exact IH.
  - unfold listRelease. destruct (listEmpty_ok h copy cs Hrep) as (h' & c' & -> & _ & Hl & _).
    cbn [mbind option_bind]. exists h'. split; [done|]. intros c. rewrite Hl. case_decide; [by rewrite Hnew|auto].
Qed.

Lemma listDup_ok h l xs :
  rep h l xs -> zlen xs < 2 ^ 64 ->
  match mapM (dup_of l) xs.*2 with
  | Some ws =>
    exists h' copy ys, listDup h l = Some (h', Some copy) /\ rep h' copy ys /\ ys.*2 = ws /\
      rep h' l xs /\ freed h' = freed h /\ same_methods l copy
  | None =>
    exists h', listDup h l = Some (h', None) /\ rep h' l xs /\ forall a, nodes h' !! a = nodes h !! a
  end.
Proof.
  intros Hr Hb. pose proof Hr as [Hseg Hnd Hhd Htl Hlen]. unfold listDup, listRewind. rewrite Hhd.
  pose proof (listDup_loop_ok h l (S (Z.to_nat (l_len l))) h
    (List_ None None (l_dup l) (l_free l) (l_match l) 0) [] None xs) as Hloop.
  assert (forall h', (forall a, a ∈ xs.*1 -> nodes h' !! a = nodes h !! a) -> rep h' l xs) as Hkeep.
  { intros h' Hext. split; try done. by eapply dseg_ext. }
  destruct (mapM (dup_of l) xs.*2) as [ws|].
  - destruct Hloop as (h' & copy & cs & -> & [Hrep Hold Hnew Hf Hm] & Hws); [|done|rewrite Hlen; zlia|zlia|].
    { split; try done. split; try done. apply NoDup_nil_2. cbn. set_solver. }
    exists h', copy, cs. split; [done|]. split; [done|]. split; [done|]. split; [|done].
    apply Hkeep. intros a Ha. apply Hold. intros Hin. apply Hnew in Hin.
    apply list_elem_of_fmap in Ha as ([a' v'] & -> & Ha). apply list_elem_of_split in Ha as (l1 & l2 & ->).
    apply dseg_app in Hseg as [_ [Hs _]]. cbn in Hin. congruence.
  - destruct Hloop as (h' & -> & Hsame); [|done|rewrite Hlen; zlia|zlia|].
    { split; try done. split; try done. apply NoDup_nil_2. cbn. set_solver. }
    exists h'. split; [done|]. split; [|done]. by apply Hkeep.
Qed.

(** ** Refinement of sequences

    The client's view: operations on a sequence of values, positions by index. *)

Inductive list_op :=
  | OpAddHead (v : V)
  | OpAddTail (v : V)
  | OpInsert (index : Z) (v : V) (after : bool)
  | OpDel (index : Z)
  | OpRotateTailToHead
  | OpRotateHeadToTail.

(** The calls a client makes; a NULL from [listIndex] skips the operation. *)
Definition exec_op (op : list_op) (h : store) (l : list_) : option (store * list_) :=
  match op with
  | OpAddHead v => listAddNodeHead h l v
  | OpAddTail v => listAddNodeTail h l v
  | OpInsert index v after =>
    n ← listIndex h l index;
    match n with Some a => listInsertNode h l a v after | None => Some (h, l) end
  | OpDel index =>
    n ← listIndex h l index;
    match n with Some a => listDelNode h l a | None => Some (h, l) end
  | OpRotateTailToHead => listRotateTailToHead h l
  | OpRotateHeadToTail => listRotateHeadToTail h l
  end.

Fixpoint exec_ops (ops : list list_op) (h : store) (l : list_) : option (store * list_) :=
  match ops with
  | [] => Some (h, l)
  | op :: ops => '(h, l) ← exec_op op h l; exec_ops ops h l
  end.

(** The position an index denotes in a sequence of [n] values. *)
Definition position (n : nat) (index : Z) : option nat :=
  let k := if decide (index < 0) then Z.of_nat n + index else index in
  if decide (0 <= k < Z.of_nat n) then Some (Z.to_nat k) else None.

(** The same operations on sequences. *)
Definition spec_op (op : list_op) (vs : list V) : list V :=
  match op with
  | OpAddHead v => v :: vs
  | OpAddTail v => vs ++ [v]
  | OpInsert index v after =>
    match position (length vs) index with
    | Some k => let k := if after then S k else k in take k vs ++ v :: drop k vs
    | None => vs
    end
  | OpDel index =>
    match position (length vs) index with
    | Some k => take k vs ++ drop (S k) vs
    | None => vs
    end
  | OpRotateTailToHead => match last vs with Some v => v :: take (pred (length vs)) vs | None => vs end
  | OpRotateHeadToTail => match vs with v :: vs' => vs' ++ [v] | [] => [] end
  end.

(** Nodes of other structures are left alone and not captured. *)
Definition foreign_kept h h' xs xs' : Prop :=
  forall a n, nodes h !! a = Some n -> a ∉ xs.*1 -> nodes h' !! a = Some n /\ a ∉ xs'.*1.

Lemma index_of_position xs index :
  match position (length xs.*2) index with
  | Some k => exists pre a v post, xs = pre ++ (a, v) :: post /\ length pre = k /\ index_of xs index = Some a
  | None => index_of xs index = None
  end.
Proof.
  unfold position, index_of. rewrite length_fmap. fold (zlen xs).
  set (k := if decide (index < 0) then zlen xs + index else index).
  case_decide as Hk.
  - rewrite decide_True by lia. destruct (xs !! Z.to_nat k) as [[a v]|] eqn:E.
    + exists (take (Z.to_nat k) xs), a, v, (drop (S (Z.to_nat k)) xs).
      split; [by rewrite take_drop_middle|]. split; [rewrite length_take; zlia|done].
    + apply lookup_ge_None in E. zlia.
  - case_decide; [|done]. rewrite (proj2 (lookup_ge_None xs (Z.to_nat k))); [done|zlia].
Qed.

Lemma take_middle {A} (l1 l2 : list A) x : take (length l1) (l1 ++ x :: l2) = l1.
Proof. by rewrite take_app_length. Qed.

Lemma drop_middle {A} (l1 l2 : list A) x : drop (S (length l1)) (l1 ++ x :: l2) = l2.
Proof. rewrite cons_middle, app_assoc. rewrite drop_app_ge; rewrite length_app; cbn; [|lia].
  by replace (_ - _)%nat with 0%nat by lia. Qed.

Lemma take_S_middle {A} (l1 l2 : list A) x : take (S (length l1)) (l1 ++ x :: l2) = l1 ++ [x].
Proof. rewrite cons_middle, app_assoc. rewrite take_app_le by (rewrite length_app; cbn; lia).
  apply firstn_all2. rewrite length_app. cbn. lia. Qed.

(** The elements of the new chain are old ones or freshly allocated. *)
Lemma foreign_intro h h' xs xs' ys :
  frame h h' xs ys -> (forall a, a ∈ ys.*1 -> nodes h !! a = None) ->
  (forall a, a ∈ xs'.*1 -> a ∈ xs.*1 \/ a ∈ ys.*1) -> foreign_kept h h' xs xs'.
Proof.
  intros Hf Hnew Hsub a n Ha Hx.
  assert (a ∉ ys.*1) by (intros Hin; rewrite Hnew in Ha; done).
  split; [by rewrite Hf|]. intros Hin. destruct (Hsub a Hin); done.
Qed.

Lemma exec_op_ok op h l xs :
  rep h l xs -> zlen xs + 1 < 2 ^ 64 ->
  exists h' l' xs', exec_op op h l = Some (h', l') /\ rep h' l' xs' /\
    xs'.*2 = spec_op op xs.*2 /\ zlen xs' <= zlen xs + 1 /\ foreign_kept h h' xs xs'.
Proof.
  intros Hr Hb. assert (foreign_kept h h xs xs) as Hid by done.
  destruct op as [v|v|index v after|index| |]; cbn [exec_op spec_op].
  - destruct (listAddNodeHead_ok h l xs v Hr Hb) as (h' & l' & a & -> & Hr' & Ha & Hf & _).
    eexists _, _, _. split; [done|]. split; [done|]. split; [done|]. split; [zlia|].
    apply (foreign_intro _ _ _ _ _ Hf); cbn; set_solver.
  - destruct (listAddNodeTail_ok h l xs v Hr Hb) as (h' & l' & a & -> & Hr' & Ha & Hf & _).
    eexists _, _, _. split; [done|]. split; [done|]. split; [by rewrite fmap_app|]. split; [zlia|].
    apply (foreign_intro _ _ _ _ _ Hf); [cbn; set_solver|]. intros c. rewrite fmap_app. set_solver.
  - rewrite (listIndex_ok _ _ _ _ Hr). cbn [mbind option_bind]. pose proof (index_of_position xs index) as Hp.
    destruct (position _ index) as [k|]; [|rewrite Hp; eexists _, _, xs; split_and!; try done; lia].
    destruct Hp as (l1 & a & w & l2 & -> & Hk & ->).
    destruct (listInsertNode_ok h l l1 a w l2 v after Hr Hb) as (h' & l' & b & -> & Hr' & Hb0 & Hf & _).
    eexists _, _, _. split; [done|]. split; [done|]. split; [|split].
    + rewrite fmap_app. cbn [fmap list_fmap snd]. replace k with (length l1.*2) by (by rewrite length_fmap).
      destruct after; rewrite fmap_app; cbn [fmap list_fmap snd].
      * rewrite take_S_middle, drop_middle. by rewrite <- app_assoc.
      * rewrite take_middle. rewrite drop_app_length. done.
    + destruct after; zlia.
    + apply (foreign_intro _ _ _ _ _ Hf); [cbn; set_solver|]. intros c.
      destruct after; rewrite !fmap_app; cbn; set_solver.
  - rewrite (listIndex_ok _ _ _ _ Hr). cbn [mbind option_bind]. pose proof (index_of_position xs index) as Hp.
    destruct (position _ index) as [k|]; [|rewrite Hp; eexists _, _, xs; split_and!; try done; lia].
    destruct Hp as (l1 & a & w & l2 & -> & Hk & ->).
    destruct (listDelNode_ok h l l1 a w l2 Hr ltac:(lia)) as (h' & l' & -> & Hr' & _ & Hf & _).
    eexists _, _, _. split; [done|]. split; [done|]. split; [|split; [zlia|]].
    + rewrite !fmap_app. cbn [fmap list_fmap snd]. replace k with (length l1.*2) by (by rewrite length_fmap).
      by rewrite take_middle, drop_middle.
    + apply (foreign_intro _ _ _ _ _ Hf); [cbn; set_solver|]. intros c. rewrite !fmap_app. cbn. set_solver.
  - destruct xs as [|[a v] xs _] using rev_ind.
    + unfold listRotateTailToHead. destruct Hr as [? ? ? ? Hlen]. rewrite Hlen.
      rewrite decide_True by done. eexists _, _, []. split_and!; done.
    + destruct (listRotateTailToHead_ok h l xs a v Hr) as (h' & l' & -> & Hr' & Hf & _).
      eexists _, _, _. split; [done|]. split; [done|]. split; [|split; [zlia|]].
      * rewrite fmap_app. cbn. rewrite last_snoc, length_app. cbn.
        replace (Init.Nat.pred (length xs.*2 + 1)) with (length xs.*2) by lia. by rewrite take_app_length.
      * apply (foreign_intro _ _ _ _ _ Hf); [cbn; set_solver|]. intros c. rewrite fmap_app. cbn. set_solver.
  - destruct xs as [|[a v] xs].
    + unfold listRotateHeadToTail. destruct Hr as [? ? ? ? Hlen]. rewrite Hlen.
      rewrite decide_True by done. eexists _, _, []. split_and!; done.
    + destruct (listRotateHeadToTail_ok h l xs a v Hr) as (h' & l' & -> & Hr' & Hf & _).
      eexists _, _, _. split; [done|]. split; [done|]. split; [by rewrite fmap_app|split; [zlia|]].
      apply (foreign_intro _ _ _ _ _ Hf); [cbn; set_solver|]. intros c. rewrite fmap_app. cbn. set_solver.
Qed.

(** C15: Any sequence of insertions, deletions and rotations on a list runs without
    following a NULL or freed pointer, yields the sequence of values that the
    same operations yield on sequences, and leaves every node that belongs to
    another structure untouched and outside the list. *)
Theorem list_ops_refine ops : forall h l xs,
  rep h l xs -> zlen xs + zlen ops < 2 ^ 64 ->
  exists h' l' xs', exec_ops ops h l = Some (h', l') /\ rep h' l' xs' /\
    xs'.*2 = fold_left (fun vs op => spec_op op vs) ops xs.*2 /\ foreign_kept h h' xs xs'.
Proof.
  induction ops as [|op ops IH]; intros h l xs Hr Hb; cbn [exec_ops fold_left].
  { exists h, l, xs. split_and!; done. }
  destruct (exec_op_ok op h l xs Hr ltac:(zlia)) as (h1 & l1 & xs1 & -> & Hr1 & Hv & Hlen & Hk).
  cbn [mbind option_bind]. rewrite <- Hv.
  destruct (IH h1 l1 xs1 Hr1 ltac:(zlia)) as (h' & l' & xs' & -> & Hr' & Hv' & Hk').
  exists h', l', xs'. split_and!; try done. intros a n Ha Hx. destruct (Hk a n Ha Hx). eauto.
Qed.

(** Joining moves every node of the second list behind the first, in order, and
    leaves the second list empty; no node is copied. *)
Theorem listJoin_correct h l o xs ys :
  rep h l xs -> rep h o ys -> NoDup (xs.*1 ++ ys.*1) -> zlen (xs ++ ys) < 2 ^ 64 ->
  exists h' l' o', listJoin h l o = Some (h', l', o') /\ rep h' l' (xs ++ ys) /\ rep h' o' [] /\
    frame h h' xs ys.
Proof.
  intros. destruct (listJoin_ok h l o xs ys) as (h' & l' & o' & ? & ? & ? & ? & _); [done..|].
  eauto 10.
Qed.

(** Duplicating: when [dup] succeeds on every value the copy holds the copies in
    order and the original is unchanged; when it fails on one, the partial copy
    is released and the store is the original one. *)
Theorem listDup_correct h l xs :
  rep h l xs -> zlen xs < 2 ^ 64 ->
  match mapM (dup_of l) xs.*2 with
  | Some ws =>
    exists h' copy ys, listDup h l = Some (h', Some copy) /\ rep h' copy ys /\ ys.*2 = ws /\
      rep h' l xs /\ freed h' = freed h /\ same_methods l copy
  | None =>
    exists h', listDup h l = Some (h', None) /\ rep h' l xs /\ forall a, nodes h' !! a = nodes h !! a
  end.
Proof. apply listDup_ok. Qed.

(** Lookups: [listIndex] follows the list to the node at a signed index,
    [listSearchKey] to the first node that matches, and [listEmpty] frees every
    node of the list, and only those, after its value. *)
Theorem list_lookup_correct eqv h l xs :
  rep h l xs ->
  (forall index, listIndex h l index = Some (index_of xs index)) /\
  (forall key, listSearchKey eqv h l key = Some (fst <$> List.find (fun x => key_match eqv l key x.2) xs)) /\
  (exists h' l', listEmpty h l = Some (h', l') /\ rep h' l' [] /\
     (forall a, nodes h' !! a = if decide (a ∈ xs.*1) then None else nodes h !! a) /\
     freed h' = freed h ++ (if l_free l then xs.*2 else [])).
Proof.
  intros Hr. split; [|split].
  - intros. by apply listIndex_ok.
  - intros. by apply listSearchKey_ok.
  - destruct (listEmpty_ok h l xs Hr) as (h' & l' & ? & ? & ? & ? & _). eauto 10.
Qed.
End rep.

(** ** Concrete instances *)

Definition store0 : @store Z := Store ∅ [].

Lemma rep_empty : rep store0 listCreate [].
Proof. split; try done. apply NoDup_nil_2. Qed.

Lemma list_ops_refine_witness :
  exists h' l' xs',
    exec_ops [OpAddTail 1; OpAddTail 2; OpAddHead 0; OpRotateTailToHead; OpDel 1; OpInsert (-1) 9 true]
      store0 listCreate = Some (h', l') /\ rep h' l' xs' /\ xs'.*2 = [2; 1; 9] /\
    foreign_kept store0 h' [] xs'.
Proof.
  apply (list_ops_refine [OpAddTail 1; OpAddTail 2; OpAddHead 0; OpRotateTailToHead; OpDel 1;
    OpInsert (-1) 9 true] store0 listCreate []); [apply rep_empty|reflexivity].
Defined.

Definition store2 : @store Z := Store {[1%positive := ListNode None None 7; 2%positive := ListNode None None 8]} [].
Definition list1 : @list_ Z := List_ (Some 1%positive) (Some 1%positive) None true None 1.
Definition list2 : @list_ Z := List_ (Some 2%positive) (Some 2%positive) None true None 1.

Lemma rep_list1 : rep store2 list1 [(1%positive, 7)].
Proof. split; try done. apply NoDup_singleton. Qed.

Lemma rep_list2 : rep store2 list2 [(2%positive, 8)].
Proof. split; try done. apply NoDup_singleton. Qed.

Lemma listJoin_correct_witness :
  exists h' l' o', listJoin store2 list1 list2 = Some (h', l', o') /\
    rep h' l' [(1%positive, 7); (2%positive, 8)] /\ rep h' o' [] /\
    frame store2 h' [(1%positive, 7)] [(2%positive, 8)].
Proof.
  apply (listJoin_correct store2 list1 list2 [(1%positive, 7)] [(2%positive, 8)]);
    [apply rep_list1|apply rep_list2| |reflexivity].
  change (NoDup [1%positive; 2%positive]). repeat constructor; set_solver.
Defined.

Lemma listDup_correct_witness :
  exists h' copy ys, listDup store2 list1 = Some (h', Some copy) /\ rep h' copy ys /\ ys.*2 = [7] /\
    rep h' list1 [(1%positive, 7)] /\ freed h' = [] /\ same_methods list1 copy.
Proof. apply (listDup_correct store2 list1 [(1%positive, 7)]); [apply rep_list1|reflexivity]. Defined.

Lemma list_lookup_correct_witness :
  forall index, listIndex store2 list1 index = Some (index_of [(1%positive, 7)] index).
Proof. apply (list_lookup_correct Z.eqb store2 list1 [(1%positive, 7)]). apply rep_list1. Defined.
