(* ===== verification/Dict.v ===== *)
(** * Hash tables with incremental rehashing (dict.c)

    The hash table behind the key space, the expires, sets, hashes and the
    tables of commands.  A dictionary has two tables; while it is being resized
    its entries move from the first to the second a bucket at a time.  A bucket
    is a chain of entries; a pointer to an entry is NULL, a key stored in place
    of an entry, an entry without a value or an entry with one.

    [None] is undefined behaviour or a failed assertion.  The theorems say that
    the operations implement an association list whatever the state of the
    resizing, that rehashing terminates and that a cursor scan returns every
    element that stays in the dictionary, also when the tables are resized
    between the calls. *)

From S2P Require Import Prelude.

(** The global [dict_can_resize] and its values. *)
Inductive dictResizeEnable := DICT_RESIZE_ENABLE | DICT_RESIZE_AVOID | DICT_RESIZE_FORBID.

#[global] Instance dictResizeEnable_eq_dec : EqDecision dictResizeEnable.
Proof. solve_decision. Defined.

Definition DICT_OK : Z := 0.
Definition DICT_ERR : Z := 1.
Definition dict_force_resize_ratio : Z := 5.
Definition DICT_HT_INITIAL_EXP : Z := 2.
Definition DICT_HT_INITIAL_SIZE : Z := 2 ^ DICT_HT_INITIAL_EXP.
Definition LONG_MAX : Z := 2 ^ 63 - 1.

(** The size and the index mask of a table of exponent [exp]. *)
Definition DICTHT_SIZE (exp : Z) : Z := if decide (exp = -1) then 0 else u64 (Z.shiftl 1 exp).
Definition DICTHT_SIZE_MASK (exp : Z) : Z := if decide (exp = -1) then 0 else DICTHT_SIZE exp - 1.

(** [__builtin_clzl], defined on nonzero arguments. *)
Definition clzl (x : Z) : Z := 63 - Z.log2 x.

Definition _dictNextExp (size : Z) : Z :=
  if decide (size <= DICT_HT_INITIAL_SIZE) then DICT_HT_INITIAL_EXP
  else if decide (size >= LONG_MAX) then 8 * 8 - 1
  else 8 * 8 - clzl (size - 1).

(** [rev]: the bits of [v] in reverse order, by swapping halves. *)
Fixpoint rev_loop (fuel : nat) (s mask v : Z) : option Z :=
  match fuel with
  | O => None
  | S fuel =>
      let s := Z.shiftr s 1 in
      if decide (s > 0) then
        let mask := Z.lxor mask (u64 (Z.shiftl mask s)) in
        let v := Z.lor (Z.land (Z.shiftr v s) mask) (Z.land (u64 (Z.shiftl v s)) (ULLONG_MAX - mask)) in
        rev_loop fuel s mask v
      else Some v
  end.

Definition rev (v : Z) : Z := default 0 (rev_loop 8 (8 * 8) ULLONG_MAX v).

(** The increment of the reversed cursor above a mask. *)
Definition next_cursor (v m : Z) : Z :=
  let v := Z.lor v (ULLONG_MAX - m) in
  let v := rev v in
  let v := u64 (v + 1) in
  rev v.

Section dict.
Context {K V : Type} `{EqDecision K}.

(** The methods of a dictionary type.  [key_is_odd] is the least significant
    bit of the key pointer; the ratio given to [expandAllowed] is kept as its
    numerator and denominator. *)
Record dictType := DictType {
  hashFunction : K -> Z;
  keyDup : option (K -> K);
  valDup : option (V -> V);
  keyCompare : option (K -> K -> bool);
  keyDestructor : bool;
  valDestructor : bool;
  expandAllowed : option (Z -> Z -> Z -> bool);
  no_value : bool;
  keys_are_odd : bool;
  key_is_odd : K -> bool
}.

(** A [dictEntry] pointer.  The value of an entry just allocated is
    indeterminate: [None]. *)
Inductive dictEntry :=
  | NULL
  | IsKey (key : K)
  | NoValue (key : K) (next : dictEntry)
  | Normal (key : K) (val : option V) (next : dictEntry).

Record dictht := DictHT {
  ht_table : option (list dictEntry);
  ht_used : Z;
  ht_size_exp : Z
}.

Record dict := Dict {
  ht0 : dictht;
  ht1 : dictht;
  rehashidx : Z;
  pauserehash : Z
}.

(** Calls of the destructors of the dictionary type, in order. *)
Inductive destroyed := DestroyKey (k : K) | DestroyVal (v : V).

(** Position of an entry: table, bucket and place in the chain. *)
Definition eref : Type := Z * Z * nat.

Variable type : dictType.
Variable dict_can_resize : dictResizeEnable.

(** ** Entries *)

Definition is_null (de : dictEntry) : bool := match de with NULL => true | _ => false end.

Definition entryIsKey (de : dictEntry) : bool := match de with IsKey _ => true | _ => false end.

Definition dictGetKey (de : dictEntry) : option K :=
  match de with
  | NULL => None
  | IsKey k => Some k
  | NoValue k _ => Some k
  | Normal k _ _ => Some k
  end.

Definition dictGetVal (de : dictEntry) : option V :=
  match de with Normal _ v _ => v | _ => None end.

Definition dictGetNext (de : dictEntry) : option dictEntry :=
  match de with
  | NULL => None
  | IsKey _ => Some NULL
  | NoValue _ n => Some n
  | Normal _ _ n => Some n
  end.

Definition dictSetNext (de next : dictEntry) : option dictEntry :=
  match de with
  | NoValue k _ => Some (NoValue k next)
  | Normal k v _ => Some (Normal k v next)
  | _ => None
  end.

Definition dictSetVal (de : dictEntry) (val : V) : option dictEntry :=
  match de with
  | Normal k _ n => Some (Normal k (Some (match valDup type with Some f => f val | None => val end)) n)
  | _ => None
  end.

(** [key == he_key || dictCompareKeys(d, key, he_key)]. *)
Definition key_match (key he_key : K) : bool :=
  bool_decide (key = he_key) ||
  match keyCompare type with Some cmp => cmp key he_key | None => bool_decide (key = he_key) end.

Definition dictFreeKey (de : dictEntry) : option (list destroyed) :=
  if keyDestructor type then k ← dictGetKey de; Some [DestroyKey k] else Some [].

Definition dictFreeVal (de : dictEntry) : option (list destroyed) :=
  if valDestructor type then v ← dictGetVal de; Some [DestroyVal v] else Some [].

(** [dictFreeUnlinkedEntry]: safe on NULL. *)
Definition dictFreeUnlinkedEntry (he : dictEntry) : option (list destroyed) :=
  if is_null he then Some []
  else fk ← dictFreeKey he; fv ← dictFreeVal he; Some (fk ++ fv).

(** ** The tables *)

Definition ht (d : dict) (i : Z) : dictht := if decide (i = 0) then ht0 d else ht1 d.

Definition set_ht (d : dict) (i : Z) (h : dictht) : dict :=
  if decide (i = 0) then Dict h (ht1 d) (rehashidx d) (pauserehash d)
  else Dict (ht0 d) h (rehashidx d) (pauserehash d).

(** [d->ht_table[i][idx]], its assignment, and [d->ht_used[i] += n]. *)
Definition get_bucket (d : dict) (i idx : Z) : option dictEntry :=
  t ← ht_table (ht d i); peek t idx.

Definition set_bucket (d : dict) (i idx : Z) (de : dictEntry) : option dict :=
  t ← ht_table (ht d i);
  t ← poke t idx de;
  Some (set_ht d i (DictHT (Some t) (ht_used (ht d i)) (ht_size_exp (ht d i)))).

Definition add_used (d : dict) (i n : Z) : dict :=
  set_ht d i (DictHT (ht_table (ht d i)) (u64 (ht_used (ht d i) + n)) (ht_size_exp (ht d i))).

Definition set_rehashidx (d : dict) (r : Z) : dict := Dict (ht0 d) (ht1 d) r (pauserehash d).
Definition set_pause (d : dict) (n : Z) : dict := Dict (ht0 d) (ht1 d) (rehashidx d) n.

Definition dictSlots (d : dict) : Z := u64 (DICTHT_SIZE (ht_size_exp (ht0 d)) + DICTHT_SIZE (ht_size_exp (ht1 d))).
Definition dictSize (d : dict) : Z := u64 (ht_used (ht0 d) + ht_used (ht1 d)).
Definition dictIsRehashing (d : dict) : bool := bool_decide (rehashidx d <> -1).
Definition dictPauseRehashing (d : dict) : dict := set_pause d (i16 (pauserehash d + 1)).
Definition dictResumeRehashing (d : dict) : dict := set_pause d (i16 (pauserehash d - 1)).

Definition reset_ht : dictht := DictHT None 0 (-1).
Definition _dictReset (d : dict) (htidx : Z) : dict := set_ht d htidx reset_ht.

Definition dictCreate : dict := Dict reset_ht reset_ht (-1) 0.

(** ** Resizing *)

(** [malloc_failed] is [None] for the NULL pointer (the allocation then succeeds
    or the process aborts), or what [ztrycalloc] does: [Some true] when it fails. *)
Definition _dictExpand (d : dict) (size : Z) (malloc_failed : option bool) : dict * Z * bool :=
  if dictIsRehashing d || bool_decide (ht_used (ht0 d) > size) then (d, DICT_ERR, false) else
  let new_ht_size_exp := _dictNextExp size in
  let newsize := u64 (Z.shiftl 1 new_ht_size_exp) in
  if decide (newsize < size \/ u64 (newsize * 8) < newsize) then (d, DICT_ERR, false) else
  if decide (new_ht_size_exp = ht_size_exp (ht0 d)) then (d, DICT_ERR, false) else
  if default false malloc_failed then (d, DICT_ERR, true) else
  let new := DictHT (Some (replicate (Z.to_nat newsize) NULL)) 0 new_ht_size_exp in
  match ht_table (ht0 d) with
  | None => (set_ht d 0 new, DICT_OK, false)
  | Some _ => (set_rehashidx (set_ht d 1 new) 0, DICT_OK, false)
  end.

Definition dictExpand (d : dict) (size : Z) : dict * Z := fst (_dictExpand d size None).

Definition dictTryExpand (d : dict) (size : Z) (fails : bool) : dict * Z :=
  let '(d, _, malloc_failed) := _dictExpand d size (Some fails) in
  (d, if (malloc_failed : bool) then DICT_ERR else DICT_OK).

Definition dictResize (d : dict) : dict * Z :=
  if bool_decide (dict_can_resize <> DICT_RESIZE_ENABLE) || dictIsRehashing d then (d, DICT_ERR) else
  let minimal := ht_used (ht0 d) in
  let minimal := if decide (minimal < DICT_HT_INITIAL_SIZE) then DICT_HT_INITIAL_SIZE else minimal in
  dictExpand d minimal.

(** Moves one entry to the second table. *)
Definition rehash_entry (d : dict) (de : dictEntry) : option dict :=
  key ← dictGetKey de;
  let h := if decide (ht_size_exp (ht1 d) > ht_size_exp (ht0 d))
           then Z.land (hashFunction type key) (DICTHT_SIZE_MASK (ht_size_exp (ht1 d)))
           else Z.land (rehashidx d) (DICTHT_SIZE_MASK (ht_size_exp (ht1 d))) in
  b ← get_bucket d 1 h;
  de ← (if no_value type then
          if keys_are_odd type && is_null b then
            _ ← assert (key_is_odd type key = true); Some (IsKey key)
          else if entryIsKey de then Some (NoValue key b)
          else match de with NoValue _ _ => dictSetNext de b | _ => None end
        else dictSetNext de b);
  d ← set_bucket d 1 h de;
  let d := add_used d 0 (-1) in
  Some (add_used d 1 1).

Fixpoint rehash_bucket (d : dict) (de : dictEntry) : option dict :=
  match de with
  | NULL => Some d
  | IsKey _ => rehash_entry d de
  | NoValue _ nextde => d ← rehash_entry d de; rehash_bucket d nextde
  | Normal _ _ nextde => d ← rehash_entry d de; rehash_bucket d nextde
  end.

(** Skips empty buckets of the first table; the flag says that the visits of
    empty buckets are used up. *)
Fixpoint skip_empty (empty_visits : nat) (d : dict) : option (dict * nat * bool) :=
  match empty_visits with
  | O => None
  | S rest =>
      b ← get_bucket d 0 (rehashidx d);
      if is_null b then
        let d := set_rehashidx d (rehashidx d + 1) in
        match rest with O => Some (d, O, true) | _ => skip_empty rest d end
      else Some (d, empty_visits, false)
  end.

(** The loop over the [n] buckets; the flag says that it returned early. *)
Fixpoint rehash_loop (n empty_visits : nat) (d : dict) : option (dict * bool) :=
  match n with
  | O => Some (d, false)
  | S n =>
      if decide (ht_used (ht0 d) = 0) then Some (d, false) else
      _ ← assert (DICTHT_SIZE (ht_size_exp (ht0 d)) > rehashidx d);
      '(d, empty_visits, stop) ← skip_empty empty_visits d;
      if (stop : bool) then Some (d, true) else
      de ← get_bucket d 0 (rehashidx d);
      d ← rehash_bucket d de;
      d ← set_bucket d 0 (rehashidx d) NULL;
      rehash_loop n empty_visits (set_rehashidx d (rehashidx d + 1))
  end.

Definition dictRehash (d : dict) (n : nat) : option (dict * Z) :=
  _ ← assert (Z.of_nat n * 10 < 2 ^ 31);
  let s0 := DICTHT_SIZE (ht_size_exp (ht0 d)) in
  let s1 := DICTHT_SIZE (ht_size_exp (ht1 d)) in
  if bool_decide (dict_can_resize = DICT_RESIZE_FORBID) || negb (dictIsRehashing d) then Some (d, 0) else
  if decide (dict_can_resize = DICT_RESIZE_AVOID /\
             ((s1 > s0 /\ s1 / s0 < dict_force_resize_ratio) \/
              (s1 < s0 /\ s0 / s1 < dict_force_resize_ratio))) then Some (d, 0) else
  '(d, early) ← rehash_loop n (n * 10) d;
  if (early : bool) then Some (d, 1) else
  if decide (ht_used (ht0 d) = 0) then
    let d := set_ht d 0 (ht1 d) in
    let d := _dictReset d 1 in
    Some (set_rehashidx d (-1), 0)
  else Some (d, 1).

Definition _dictRehashStep (d : dict) : option dict :=
  if decide (pauserehash d = 0) then '(d, _) ← dictRehash d 1; Some d else Some d.

(** [dictRehashMilliseconds]: [clock] gives the successive elapsed times. *)
Fixpoint rehash_ms_loop (fuel : nat) (d : dict) (ms rehashes : Z) (clock : nat -> Z) : option (dict * Z) :=
  match fuel with
  | O => None
  | S fuel =>
      '(d, more) ← dictRehash d 100;
      if decide (more = 0) then Some (d, rehashes) else
      let rehashes := i32 (rehashes + 100) in
      if decide (clock 0%nat > ms) then Some (d, rehashes)
      else rehash_ms_loop fuel d ms rehashes (fun n => clock (S n))
  end.

Definition dictRehashMilliseconds (fuel : nat) (d : dict) (ms : Z) (clock : nat -> Z) : option (dict * Z) :=
  if decide (pauserehash d > 0) then Some (d, 0) else rehash_ms_loop fuel d ms 0 clock.

Definition dictTypeExpandAllowed (d : dict) : bool :=
  match expandAllowed type with
  | None => true
  | Some f => f (u64 (DICTHT_SIZE (_dictNextExp (u64 (ht_used (ht0 d) + 1))) * 8))
                (ht_used (ht0 d)) (DICTHT_SIZE (ht_size_exp (ht0 d)))
  end.

Definition _dictExpandIfNeeded (d : dict) : dict * Z :=
  if dictIsRehashing d then (d, DICT_OK) else
  if decide (DICTHT_SIZE (ht_size_exp (ht0 d)) = 0) then dictExpand d DICT_HT_INITIAL_SIZE else
  if decide ((dict_can_resize = DICT_RESIZE_ENABLE /\
              ht_used (ht0 d) >= DICTHT_SIZE (ht_size_exp (ht0 d))) \/
             (dict_can_resize <> DICT_RESIZE_FORBID /\
              ht_used (ht0 d) / DICTHT_SIZE (ht_size_exp (ht0 d)) > dict_force_resize_ratio)) then
    if negb (dictTypeExpandAllowed d) then (d, DICT_OK)
    else dictExpand d (u64 (ht_used (ht0 d) + 1))
  else (d, DICT_OK).

(** ** Searching *)

(** Place of the key in a chain. *)
Fixpoint chain_search (key : K) (he : dictEntry) : option nat :=
  match he with
  | NULL => None
  | IsKey k => if key_match key k then Some O else None
  | NoValue k next => if key_match key k then Some O else S <$> chain_search key next
  | Normal k _ next => if key_match key k then Some O else S <$> chain_search key next
  end.

Definition search_table (d : dict) (key : K) (table : Z) : option (option eref) :=
  let idx := Z.land (hashFunction type key) (DICTHT_SIZE_MASK (ht_size_exp (ht d table))) in
  he ← get_bucket d table idx;
  Some ((fun n => (table, idx, n)) <$> chain_search key he).

(** The search of both tables that all the operations share. *)
Definition search_tables (d : dict) (key : K) : option (option eref) :=
  r ← search_table d key 0;
  match r with
  | Some e => Some (Some e)
  | None => if negb (dictIsRehashing d) then Some None else search_table d key 1
  end.

Definition rehash_if_rehashing (d : dict) : option dict :=
  if dictIsRehashing d then _dictRehashStep d else Some d.

Definition dictFind (d : dict) (key : K) : option (dict * option eref) :=
  if decide (dictSize d = 0) then Some (d, None) else
  d ← rehash_if_rehashing d;
  r ← search_tables d key;
  Some (d, r).

(** The entry at a position. *)
Fixpoint chain_nth (n : nat) (he : dictEntry) : option dictEntry :=
  match n with
  | O => if is_null he then None else Some he
  | S n => next ← dictGetNext he; chain_nth n next
  end.

Definition deref (d : dict) (e : eref) : option dictEntry :=
  let '(table, idx, n) := e in he ← get_bucket d table idx; chain_nth n he.

(** [dictFetchValue]: the outer option of the result is NULL. *)
Definition dictFetchValue (d : dict) (key : K) : option (dict * option V) :=
  '(d, r) ← dictFind d key;
  match r with
  | None => Some (d, None)
  | Some e => he ← deref d e; v ← dictGetVal he; Some (d, Some v)
  end.

(** ** Inserting *)

(** The position is the bucket; the second result is [*existing]. *)
Definition dictFindPositionForInsert (d : dict) (key : K) : option (dict * option (Z * Z) * option eref) :=
  d ← rehash_if_rehashing d;
  let '(d, ret) := _dictExpandIfNeeded d in
  if decide (ret = DICT_ERR) then Some (d, None, None) else
  r ← search_tables d key;
  match r with
  | Some e => Some (d, None, Some e)
  | None =>
      let table := if dictIsRehashing d then 1 else 0 in
      Some (d, Some (table, Z.land (hashFunction type key) (DICTHT_SIZE_MASK (ht_size_exp (ht d table)))), None)
  end.

Definition dictInsertAtPosition (d : dict) (key : K) (position : Z * Z) : option (dict * eref) :=
  let htidx := if dictIsRehashing d then 1 else 0 in
  _ ← assert (position.1 = htidx /\ 0 <= position.2 <= DICTHT_SIZE_MASK (ht_size_exp (ht d htidx)));
  bucket ← get_bucket d htidx position.2;
  entry ← (if no_value type then
             if keys_are_odd type && is_null bucket then
               _ ← assert (key_is_odd type key = true); Some (IsKey key)
             else Some (NoValue key bucket)
           else Some (Normal key None bucket));
  d ← set_bucket d htidx position.2 entry;
  Some (add_used d htidx 1, (htidx, position.2, O)).

Definition dictAddRaw (d : dict) (key : K) : option (dict * option eref * option eref) :=
  '(d, position, existing) ← dictFindPositionForInsert d key;
  match position with
  | None => Some (d, None, existing)
  | Some p =>
      let key := match keyDup type with Some f => f key | None => key end in
      '(d, e) ← dictInsertAtPosition d key p;
      Some (d, Some e, existing)
  end.

(** An update of the entry at a position of the tables. *)
Fixpoint chain_update (n : nat) (f : dictEntry -> option dictEntry) (he : dictEntry) : option dictEntry :=
  match n with
  | O => f he
  | S n => next ← dictGetNext he; next ← chain_update n f next; dictSetNext he next
  end.

Definition update_entry (d : dict) (e : eref) (f : dictEntry -> option dictEntry) : option dict :=
  let '(table, idx, n) := e in
  he ← get_bucket d table idx; he ← chain_update n f he; set_bucket d table idx he.

Definition dictAdd (d : dict) (key : K) (val : V) : option (dict * Z) :=
  '(d, entry, _) ← dictAddRaw d key;
  match entry with
  | None => Some (d, DICT_ERR)
  | Some e =>
      if no_value type then Some (d, DICT_OK)
      else d ← update_entry d e (fun de => dictSetVal de val); Some (d, DICT_OK)
  end.

Definition dictReplace (d : dict) (key : K) (val : V) : option (dict * Z * list destroyed) :=
  '(d, entry, existing) ← dictAddRaw d key;
  match entry with
  | Some e => d ← update_entry d e (fun de => dictSetVal de val); Some (d, 1, [])
  | None =>
      e ← existing;
      he ← deref d e;
      oldval ← dictGetVal he;
      d ← update_entry d e (fun de => dictSetVal de val);
      Some (d, 0, if valDestructor type then [DestroyVal oldval] else [])
  end.

Definition dictAddOrFind (d : dict) (key : K) : option (dict * option eref) :=
  '(d, entry, existing) ← dictAddRaw d key;
  Some (d, match entry with Some e => Some e | None => existing end).

(** ** Deleting *)

(** The entry is unlinked from its chain: [dictSetNext(prevHe, dictGetNext(he))],
    or the bucket is assigned when it is the first. *)
Definition dictGenericDelete (d : dict) (key : K) (nofree : bool) : option (dict * option dictEntry * list destroyed) :=
  if decide (dictSize d = 0) then Some (d, None, []) else
  d ← rehash_if_rehashing d;
  r ← search_tables d key;
  match r with
  | None => Some (d, None, [])
  | Some e =>
      he ← deref d e;
      d ← update_entry d e dictGetNext;
      freed ← (if nofree then Some [] else dictFreeUnlinkedEntry he);
      Some (add_used d e.1.1 (-1), Some he, freed)
  end.

Definition dictDelete (d : dict) (key : K) : option (dict * Z * list destroyed) :=
  '(d, he, freed) ← dictGenericDelete d key false;
  Some (d, match he with Some _ => DICT_OK | None => DICT_ERR end, freed).

Definition dictUnlink (d : dict) (key : K) : option (dict * option dictEntry) :=
  '(d, he, _) ← dictGenericDelete d key true; Some (d, he).

(** [dictTwoPhaseUnlinkFind] and [dictTwoPhaseUnlinkFree]; [plink] is the
    position of the entry. *)
Definition dictTwoPhaseUnlinkFind (d : dict) (key : K) : option (dict * option eref) :=
  if decide (dictSize d = 0) then Some (d, None) else
  d ← rehash_if_rehashing d;
  r ← search_tables d key;
  match r with
  | None => Some (d, None)
  | Some e => Some (dictPauseRehashing d, Some e)
  end.

Definition dictTwoPhaseUnlinkFree (d : dict) (plink : option eref) : option (dict * list destroyed) :=
  match plink with
  | None => Some (d, [])
  | Some e =>
      he ← deref d e;
      let d := add_used d e.1.1 (-1) in
      d ← update_entry d e dictGetNext;
      fk ← dictFreeKey he;
      fv ← dictFreeVal he;
      Some (dictResumeRehashing d, fk ++ fv)
  end.

(** The destructors of a chain, in order, and of a table while [ht_used] is not 0. *)
Fixpoint clear_chain (d : dict) (htidx : Z) (he : dictEntry) : option (dict * list destroyed) :=
  match he with
  | NULL => Some (d, [])
  | IsKey _ => fk ← dictFreeKey he; fv ← dictFreeVal he; Some (add_used d htidx (-1), fk ++ fv)
  | NoValue _ next | Normal _ _ next =>
      fk ← dictFreeKey he;
      fv ← dictFreeVal he;
      '(d, fs) ← clear_chain (add_used d htidx (-1)) htidx next;
      Some (d, fk ++ fv ++ fs)
  end.

Fixpoint clear_loop (n : nat) (d : dict) (htidx i : Z) : option (dict * list destroyed) :=
  match n with
  | O => Some (d, [])
  | S n =>
      if decide (ht_used (ht d htidx) > 0) then
        he ← get_bucket d htidx i;
        '(d, fs) ← clear_chain d htidx he;
        '(d, fs') ← clear_loop n d htidx (i + 1);
        Some (d, fs ++ fs')
      else Some (d, [])
  end.

Definition _dictClear (d : dict) (htidx : Z) : option (dict * list destroyed) :=
  '(d, fs) ← clear_loop (Z.to_nat (DICTHT_SIZE (ht_size_exp (ht d htidx)))) d htidx 0;
  Some (_dictReset d htidx, fs).

Definition dictEmpty (d : dict) : option (dict * list destroyed) :=
  '(d, f0) ← _dictClear d 0;
  '(d, f1) ← _dictClear d 1;
  Some (set_pause (set_rehashidx d (-1)) 0, f0 ++ f1).

(** [dictRelease]: the dictionary itself is gone. *)
Definition dictRelease (d : dict) : option (list destroyed) :=
  '(d, f0) ← _dictClear d 0;
  '(d, f1) ← _dictClear d 1;
  Some (f0 ++ f1).

(** ** Cursor scan *)

(** The entries given to the callback for a chain. *)
Fixpoint emit_chain (de : dictEntry) : list (K * option V) :=
  match de with
  | NULL => []
  | IsKey k => [(k, None)]
  | NoValue k next => (k, None) :: emit_chain next
  | Normal k v next => (k, v) :: emit_chain next
  end.

(** The expansions of the cursor in the larger table [t1]. *)
Fixpoint scan_loop (fuel : nat) (d : dict) (htidx1 m0 m1 v : Z) : option (list (K * option V) * Z) :=
  match fuel with
  | O => None
  | S fuel =>
      de ← get_bucket d htidx1 (Z.land v m1);
      let v := next_cursor v m1 in
      if decide (Z.land v (Z.lxor m0 m1) <> 0) then
        '(out, v) ← scan_loop fuel d htidx1 m0 m1 v;
        Some (emit_chain de ++ out, v)
      else Some (emit_chain de, v)
  end.

(** [dictScan] ([dictScanDefrag] without defragmentation callbacks): the entries
    emitted and the next cursor. *)
Definition dictScan (d : dict) (v : Z) : option (list (K * option V) * Z) :=
  if decide (dictSize d = 0) then Some ([], 0) else
  if negb (dictIsRehashing d) then
    let m0 := DICTHT_SIZE_MASK (ht_size_exp (ht d 0)) in
    de ← get_bucket d 0 (Z.land v m0);
    Some (emit_chain de, next_cursor v m0)
  else
    let '(htidx0, htidx1) :=
      if decide (DICTHT_SIZE (ht_size_exp (ht d 0)) > DICTHT_SIZE (ht_size_exp (ht d 1)))
      then (1, 0) else (0, 1) in
    let m0 := DICTHT_SIZE_MASK (ht_size_exp (ht d htidx0)) in
    let m1 := DICTHT_SIZE_MASK (ht_size_exp (ht d htidx1)) in
    de ← get_bucket d htidx0 (Z.land v m0);
    '(out, v) ← scan_loop (Z.to_nat (DICTHT_SIZE (ht_size_exp (ht d htidx1)))) d htidx1 m0 m1 v;
    Some (emit_chain de ++ out, v).

(** ** Invariant *)

(** The entries of a table and of the dictionary, in bucket order. *)
Definition tbl_entries (l : list dictEntry) : list (K * option V) := l ≫= emit_chain.

Definition ht_entries (h : dictht) : list (K * option V) :=
  match ht_table h with None => [] | Some l => tbl_entries l end.

Definition dict_entries (d : dict) : list (K * option V) := ht_entries (ht0 d) ++ ht_entries (ht1 d).

(** The entries with the given key. *)
Definition matching (key : K) (es : list (K * option V)) : list (K * option V) :=
  filter (fun e => key_match key e.1 = true) es.

(** No key occurs twice. *)
Definition distinct (es : list (K * option V)) : Prop :=
  forall key, (length (matching key es) <= 1)%nat.

(** The kind of the entries agrees with the dictionary type. *)
Fixpoint chain_ok (de : dictEntry) : Prop :=
  match de with
  | NULL => True
  | IsKey _ => no_value type = true /\ keys_are_odd type = true
  | NoValue _ next => no_value type = true /\ chain_ok next
  | Normal _ _ next => no_value type = false /\ chain_ok next
  end.

(** Keys stored without an entry must be odd. *)
Definition key_ok (k : K) : Prop :=
  no_value type = true -> keys_are_odd type = true -> key_is_odd type k = true.

(** An entry belongs to bucket [i] of a table of exponent [exp]. *)
Definition placed (exp i : Z) (e : K * option V) : Prop :=
  Z.land (hashFunction type e.1) (2 ^ exp - 1) = i /\ key_ok e.1.

Definition tbl_ok (exp : Z) (l : list dictEntry) : Prop :=
  2 <= exp <= 60 /\ zlen l = 2 ^ exp /\
  forall i c, l !! i = Some c -> chain_ok c /\ Forall (placed exp (Z.of_nat i)) (emit_chain c).

Definition ht_ok (h : dictht) : Prop :=
  match ht_table h with
  | None => ht_used h = 0 /\ ht_size_exp h = -1
  | Some l => tbl_ok (ht_size_exp h) l /\ ht_used h = zlen (tbl_entries l)
  end.

(** While rehashing both tables exist, of different sizes, and the buckets of
    the first table below [rehashidx] are empty. *)
Definition rehash_ok (d : dict) : Prop :=
  if dictIsRehashing d then
    exists l0 l1, ht_table (ht0 d) = Some l0 /\ ht_table (ht1 d) = Some l1 /\
    ht_size_exp (ht0 d) <> ht_size_exp (ht1 d) /\ 0 <= rehashidx d <= zlen l0 /\
    forall i, (Z.of_nat i < rehashidx d) -> l0 !! i = Some NULL
  else ht_table (ht1 d) = None.

Definition dict_ok (d : dict) : Prop :=
  ht_ok (ht0 d) /\ ht_ok (ht1 d) /\ rehash_ok d /\
  distinct (dict_entries d) /\ zlen (dict_entries d) < 2 ^ 64.

(** What a dictionary type must promise: [key_match] is an equivalence, equal
    keys have equal hashes, and a duplicated key equals its original. *)
Class DictTypeOk : Prop := {
  hash_range : forall k, 0 <= hashFunction type k < 2 ^ 64;
  match_sym : forall k k', key_match k k' = key_match k' k;
  match_trans : forall k k' k'', key_match k k' = true -> key_match k' k'' = true -> key_match k k'' = true;
  match_hash : forall k k', key_match k k' = true -> hashFunction type k = hashFunction type k';
  dup_match : forall f k, keyDup type = Some f -> key_match k (f k) = true
}.

Context `{TypeOk : !DictTypeOk}.

(** ** Keys and association lists *)

Lemma match_refl k : key_match k k = true.
Proof. unfold key_match. by rewrite bool_decide_true. Qed.

Lemma match_eq k k' key : key_match k k' = true -> key_match key k = key_match key k'.
Proof.
  intros Hm. destruct (key_match key k) eqn:E1, (key_match key k') eqn:E2; [done| | |done].
  - by rewrite (match_trans _ _ _ E1 Hm) in E2.
  - rewrite match_sym in Hm. by rewrite (match_trans _ _ _ E2 Hm) in E1.
Qed.

Lemma matching_app key es es' : matching key (es ++ es') = matching key es ++ matching key es'.
Proof. apply filter_app. Qed.

Lemma matching_cons key e es :
  matching key (e :: es) = if key_match key e.1 then e :: matching key es else matching key es.
Proof. unfold matching. rewrite filter_cons. by destruct (key_match key e.1). Qed.

#[local] Instance matching_proper key : Proper ((≡ₚ) ==> (≡ₚ)) (matching key).
Proof. intros es es' Hes. unfold matching. by rewrite Hes. Qed.

#[local] Instance distinct_proper : Proper ((≡ₚ) ==> iff) distinct.
Proof.
  intros es es' Hes. unfold distinct. split; intros H key; specialize (H key).
  - by rewrite <- Hes.
  - by rewrite Hes.
Qed.

Lemma matching_nil key es : matching key es = [] <-> Forall (fun e => key_match key e.1 = false) es.
Proof.
  induction es as [|e es IH]; [by split|]. rewrite matching_cons, Forall_cons.
  destruct (key_match key e.1); split; [done|by intros []| | ]; tauto.
Qed.

Lemma distinct_cons e es : distinct (e :: es) <-> matching e.1 es = [] /\ distinct es.
Proof.
  split.
  - intros H. split.
    + specialize (H e.1). rewrite matching_cons, match_refl in H. simpl in H.
      destruct (matching e.1 es); [done|simpl in H; lia].
    + intros key. specialize (H key). rewrite matching_cons in H.
      destruct (key_match key e.1); simpl in H; lia.
  - intros [H1 H2] key. rewrite matching_cons. destruct (key_match key e.1) eqn:E; [|apply H2].
    enough (matching key es = []) as -> by (simpl; lia).
    apply matching_nil. apply matching_nil in H1. eapply Forall_impl; [exact H1|].
    intros e' He'. cbn in *. rewrite match_sym, (match_eq _ _ _ E), match_sym. done.
Qed.

(** A matching entry of a distinct list is the only one. *)
Lemma distinct_matching key es e :
  distinct es -> e ∈ es -> key_match key e.1 = true -> matching key es = [e].
Proof.
  intros Hd He Hm. assert (e ∈ matching key es) as Hin by (apply list_elem_of_filter; done).
  specialize (Hd key). destruct (matching key es) as [|a [|b l]]; [by apply elem_of_nil in Hin| |simpl in Hd; lia].
  apply list_elem_of_singleton in Hin. by subst.
Qed.

(** ** Chains *)

Lemma emit_null de : is_null de = true -> emit_chain de = [].
Proof. by destruct de. Qed.

Lemma is_null_spec de : is_null de = true <-> de = NULL.
Proof. by destruct de. Qed.

Lemma chain_search_None key c : chain_search key c = None -> matching key (emit_chain c) = [].
Proof.
  induction c as [|k|k n IH|k v n IH]; cbn [chain_search emit_chain]; [done|..];
    rewrite matching_cons; cbn; destruct (key_match key k); try done;
    intros H; apply IH; by destruct (chain_search key n).
Qed.

Lemma chain_search_Some key c n :
  chain_search key c = Some n ->
  exists he k v, chain_nth n c = Some he /\ head (emit_chain he) = Some (k, v) /\ key_match key k = true.
Proof.
  revert n. induction c as [|k|k c IH|k v c IH]; cbn [chain_search]; intros n; [done|..];
    destruct (key_match key k) eqn:E.
  - intros [= <-]. eexists _, k, _. done.
  - done.
  - intros [= <-]. eexists _, k, _. done.
  - destruct (chain_search key c) eqn:Es; [|done]. intros [= <-].
    destruct (IH _ eq_refl) as (he & k' & v' & ? & ? & ?). eexists _, _, _. done.
  - intros [= <-]. eexists _, k, _. done.
  - destruct (chain_search key c) eqn:Es; [|done]. intros [= <-].
    destruct (IH _ eq_refl) as (he & k' & v' & ? & ? & ?). eexists _, _, _. done.
Qed.

(** The tail of a chain from a position on. *)
Lemma chain_nth_emit n c he :
  chain_nth n c = Some he -> he <> NULL /\ emit_chain he = drop n (emit_chain c) /\ (chain_ok c -> chain_ok he).
Proof.
  revert c. induction n as [|n IH]; intros c; cbn [chain_nth].
  - destruct (is_null c) eqn:E; [done|]. intros [= <-]. split_and!; [by intros ->|done|done].
  - destruct c as [|k|k c|k v c]; cbn [dictGetNext mbind option_bind]; [done|..]; intros H; apply IH in H as (?&?&?).
    + split_and!; [done|done|naive_solver].
    + split_and!; [done|done|cbn; naive_solver].
    + split_and!; [done|done|cbn; naive_solver].
Qed.

Lemma chain_update_emit n f c he he' :
  chain_nth n c = Some he -> f he = Some he' -> (chain_ok he -> chain_ok he') ->
  exists c', chain_update n f c = Some c' /\ emit_chain c' = take n (emit_chain c) ++ emit_chain he' /\
  (chain_ok c -> chain_ok c').
Proof.
  revert c. induction n as [|n IH]; intros c; cbn [chain_nth chain_update].
  - destruct (is_null c); [done|]. intros [= <-] Hf Hok. exists he'. done.
  - destruct c as [|k|k c|k v c]; cbn [dictGetNext mbind option_bind]; [done|..]; intros H Hf Hok.
    + destruct n; done.
    + destruct (IH _ H Hf Hok) as (c' & -> & Hc' & Hok'). cbn.
      eexists. split_and!; [done|by cbn; rewrite Hc'|naive_solver].
    + destruct (IH _ H Hf Hok) as (c' & -> & Hc' & Hok'). cbn.
      eexists. split_and!; [done|by cbn; rewrite Hc'|naive_solver].
Qed.

Lemma dictGetNext_emit he :
  he <> NULL -> exists next e, dictGetNext he = Some next /\ emit_chain he = e :: emit_chain next /\
  dictGetKey he = Some e.1 /\ dictGetVal he = e.2 /\ (chain_ok he -> chain_ok next).
Proof. destruct he; [done|..]; intros _; eexists _, _; cbn; naive_solver. Qed.

(** ** Tables *)

(** Replacing a bucket replaces its entries. *)
Lemma tbl_entries_insert l i c c' :
  l !! i = Some c ->
  exists rest, tbl_entries l ≡ₚ emit_chain c ++ rest /\ tbl_entries (<[i := c']> l) ≡ₚ emit_chain c' ++ rest.
Proof.
  intros Hi. exists (tbl_entries (take i l) ++ tbl_entries (drop (S i) l)).
  rewrite <- (take_drop_middle l i c Hi) at 1.
  assert (i < length l)%nat by (by eapply lookup_lt_Some). rewrite insert_take_drop by done.
  unfold tbl_entries. rewrite !bind_app, !bind_cons. split; solve_Permutation.
Qed.

Lemma pow2_ge_4 e : 2 <= e -> 4 <= 2 ^ e.
Proof. intros. change 4 with (2 ^ 2). apply Z.pow_le_mono_r; lia. Qed.

Lemma DICTHT_SIZE_pow e : 2 <= e <= 60 -> DICTHT_SIZE e = 2 ^ e.
Proof.
  intros. unfold DICTHT_SIZE. rewrite decide_False by lia. rewrite Z.shiftl_1_l.
  apply uwrap_small. unfold in_u. split; [lia|]. apply Z.pow_lt_mono_r; lia.
Qed.

Lemma DICTHT_SIZE_MASK_pow e : 2 <= e <= 60 -> DICTHT_SIZE_MASK e = 2 ^ e - 1.
Proof. intros. unfold DICTHT_SIZE_MASK. rewrite decide_False by lia. by rewrite DICTHT_SIZE_pow. Qed.

Lemma land_mask h e : 0 <= e -> Z.land h (2 ^ e - 1) = h mod 2 ^ e.
Proof. intros. rewrite <- Z.land_ones by lia. by rewrite Z.ones_equiv, Z.sub_1_r. Qed.

Lemma land_mask_range h e : 0 <= e -> 0 <= Z.land h (2 ^ e - 1) < 2 ^ e.
Proof. intros. rewrite land_mask by lia. apply Z.mod_pos_bound. lia. Qed.

Lemma matching_tbl_nil key l :
  (forall i c, l !! i = Some c -> matching key (emit_chain c) = []) -> matching key (tbl_entries l) = [].
Proof.
  induction l as [|c l IH]; intros H; [done|]. unfold tbl_entries. rewrite bind_cons, matching_app.
  rewrite (H 0%nat c) by done. apply IH. intros i. apply (H (S i)).
Qed.

(** Entries with a key are only in the bucket of its hash. *)
Lemma matching_bucket exp l key :
  tbl_ok exp l ->
  exists c, peek l (Z.land (hashFunction type key) (2 ^ exp - 1)) = Some c /\
  matching key (tbl_entries l) = matching key (emit_chain c).
Proof.
  intros (Hexp & Hlen & Hl). set (idx := Z.land _ _).
  assert (0 <= idx < 2 ^ exp) as Hidx by (apply land_mask_range; lia).
  destruct (peek_Some l idx ltac:(lia)) as (c & Hc). exists c. split; [done|].
  apply peek_inv in Hc as [_ Hc]. rewrite <- (take_drop_middle l _ c Hc) at 1.
  unfold tbl_entries. rewrite bind_app, bind_cons, !matching_app.
  assert (forall j c, l !! j = Some c -> j <> Z.to_nat idx -> matching key (emit_chain c) = []) as Hother.
  { intros j cj Hj Hne. apply matching_nil. destruct (Hl _ _ Hj) as [_ Hp].
    eapply Forall_impl; [exact Hp|]. intros e [He _]. destruct (key_match key e.1) eqn:E; [|done].
    apply match_hash in E. fold idx in He. rewrite <- E in He. subst idx. lia. }
  rewrite (matching_tbl_nil key (take _ l)), (matching_tbl_nil key (drop _ l)).
  - by rewrite app_nil_r.
  - intros i ci. rewrite lookup_drop. intros Hi. eapply Hother; [done|lia].
  - intros i ci Hi. apply lookup_take_Some in Hi as [Hi ?]. eapply Hother; [done|lia].
Qed.

(** The dictionary with one bucket and one counter replaced. *)
Definition with_bucket (d : dict) (i idx : Z) (c : dictEntry) (used : Z) : dict :=
  set_ht d i (DictHT (<[Z.to_nat idx := c]> <$> ht_table (ht d i)) used (ht_size_exp (ht d i))).

(** Computes the accesses to the fields and to the two tables. *)
Ltac fields :=
  cbn [ht0 ht1 ht_table ht_used ht_size_exp rehashidx pauserehash set_rehashidx set_pause
       fmap option_fmap option_map mbind option_bind fst snd] in *.
Ltac tables :=
  repeat match goal with
  | H : context [ht ?d 0] |- _ => change (ht d 0) with (ht0 d) in H
  | H : context [ht ?d 1] |- _ => change (ht d 1) with (ht1 d) in H
  | |- context [ht ?d 0] => change (ht d 0) with (ht0 d)
  | |- context [ht ?d 1] => change (ht d 1) with (ht1 d)
  | H : context [set_ht ?d 0 ?h] |- _ =>
      change (set_ht d 0 h) with (Dict h (ht1 d) (rehashidx d) (pauserehash d)) in H
  | H : context [set_ht ?d 1 ?h] |- _ =>
      change (set_ht d 1 h) with (Dict (ht0 d) h (rehashidx d) (pauserehash d)) in H
  | |- context [set_ht ?d 0 ?h] => change (set_ht d 0 h) with (Dict h (ht1 d) (rehashidx d) (pauserehash d))
  | |- context [set_ht ?d 1 ?h] => change (set_ht d 1 h) with (Dict (ht0 d) h (rehashidx d) (pauserehash d))
  end; fields.

Lemma ht_set_ht d i h : ht (set_ht d i h) i = h.
Proof. unfold ht, set_ht. destruct (decide (i = 0)); done. Qed.

Lemma set_ht_set_ht d i h h' : set_ht (set_ht d i h) i h' = set_ht d i h'.
Proof. unfold set_ht. destruct (decide (i = 0)); done. Qed.

Lemma get_bucket_inv d i idx c :
  get_bucket d i idx = Some c ->
  exists l, ht_table (ht d i) = Some l /\ 0 <= idx < zlen l /\ l !! Z.to_nat idx = Some c.
Proof.
  unfold get_bucket. intros H. unbind H. apply peek_inv in H as []. eauto.
Qed.

Lemma set_bucket_eq d i idx c c' :
  get_bucket d i idx = Some c -> set_bucket d i idx c' = Some (with_bucket d i idx c' (ht_used (ht d i))).
Proof.
  intros H. apply get_bucket_inv in H as (l & Hl & Hidx & _). unfold set_bucket, with_bucket.
  rewrite Hl. cbn [mbind option_bind]. by rewrite poke_Some.
Qed.

Lemma add_used_with d i idx c u n :
  add_used (with_bucket d i idx c u) i n = with_bucket d i idx c (u64 (u + n)).
Proof. unfold add_used, with_bucket. by rewrite ht_set_ht, set_ht_set_ht. Qed.

Lemma ht_ok_ht d i : dict_ok d -> ht_ok (ht d i).
Proof. intros (? & ? & _). unfold ht. by case_decide. Qed.

(** Replacing a bucket of a well-formed table. *)
Lemma ht_ok_bucket h idx c c' u l :
  ht_ok h -> ht_table h = Some l -> l !! Z.to_nat idx = Some c -> 0 <= idx ->
  chain_ok c' -> Forall (placed (ht_size_exp h) idx) (emit_chain c') ->
  u = ht_used h + zlen (emit_chain c') - zlen (emit_chain c) ->
  ht_ok (DictHT (Some (<[Z.to_nat idx := c']> l)) u (ht_size_exp h)).
Proof.
  unfold ht_ok. intros Hok Hl Hc Hidx Hc' Hp ->. rewrite Hl in Hok. cbn.
  destruct Hok as ((He & Hlen & Hall) & Hu). split.
  - split; [done|]. split; [by autorewrite with zlen|].
    intros j cj Hj. destruct (decide (Z.to_nat idx = j)) as [<-|].
    + rewrite list_lookup_insert_eq in Hj by (eapply lookup_lt_Some; done). injection Hj as <-.
      rewrite Z2Nat.id by done. done.
    + rewrite list_lookup_insert_ne in Hj by done. by apply Hall.
  - destruct (tbl_entries_insert l (Z.to_nat idx) c c' Hc) as (rest & H1 & H2).
    unfold zlen in *. rewrite H2. rewrite H1 in Hu. rewrite length_app in *. lia.
Qed.

Lemma dict_entries_bucket d i idx c c' u :
  i = 0 \/ i = 1 -> get_bucket d i idx = Some c ->
  exists rest, dict_entries d ≡ₚ emit_chain c ++ rest /\
  dict_entries (with_bucket d i idx c' u) ≡ₚ emit_chain c' ++ rest.
Proof.
  intros Hi (l & Hl & Hidx & Hc)%get_bucket_inv.
  destruct (tbl_entries_insert l (Z.to_nat idx) c c' Hc) as (rest & H1 & H2).
  unfold dict_entries, with_bucket. rewrite Hl. destruct Hi as [->| ->]; tables.
  - exists (rest ++ ht_entries (ht1 d)). unfold ht_entries at 1 3. rewrite Hl. cbn.
    rewrite H1, H2. by rewrite !app_assoc.
  - exists (rest ++ ht_entries (ht0 d)). unfold ht_entries at 2 4. rewrite Hl. cbn.
    rewrite H1, H2. split; solve_Permutation.
Qed.

Lemma rehash_ok_bucket d i idx c c' u :
  i = 0 \/ i = 1 -> rehash_ok d -> get_bucket d i idx = Some c ->
  (c = NULL -> i = 0 -> dictIsRehashing d = true -> c' = NULL) ->
  rehash_ok (with_bucket d i idx c' u).
Proof.
  intros Hi Hr Hc HN. apply get_bucket_inv in Hc as (l & Hl & Hidx & Hc).
  unfold rehash_ok in *. replace (dictIsRehashing (with_bucket d i idx c' u)) with (dictIsRehashing d)
    by (by destruct Hi as [->| ->]).
  unfold with_bucket. rewrite Hl. destruct (dictIsRehashing d) eqn:Er.
  - destruct Hr as (l0 & l1 & H0 & H1 & Hne & Hri & Hnull).
    destruct Hi as [->| ->]; tables.
    + rewrite H0 in Hl. injection Hl as <-. eexists _, _. split_and!; [done|done|done|lia|zlia|].
      intros j Hj. destruct (decide (Z.to_nat idx = j)) as [<-|].
      * rewrite Hnull in Hc by done. injection Hc as <-. rewrite HN by done.
        apply list_lookup_insert_eq. zlia.
      * rewrite list_lookup_insert_ne by done. by apply Hnull.
    + eexists _, _. split_and!; try done; lia.
  - destruct Hi as [->| ->]; tables; [done|]. by rewrite Hl in Hr.
Qed.

(** A bucket of a well-formed dictionary can be replaced by entries that belong
    to it. *)
Lemma dict_ok_bucket d i idx c c' u :
  dict_ok d -> i = 0 \/ i = 1 -> get_bucket d i idx = Some c ->
  chain_ok c' -> Forall (placed (ht_size_exp (ht d i)) idx) (emit_chain c') ->
  u = ht_used (ht d i) + zlen (emit_chain c') - zlen (emit_chain c) ->
  (c = NULL -> i = 0 -> dictIsRehashing d = true -> c' = NULL) ->
  exists rest, dict_entries d ≡ₚ emit_chain c ++ rest /\
  dict_entries (with_bucket d i idx c' u) ≡ₚ emit_chain c' ++ rest /\
  (distinct (emit_chain c' ++ rest) -> zlen (emit_chain c' ++ rest) < 2 ^ 64 ->
   dict_ok (with_bucket d i idx c' u)).
Proof.
  intros Hok Hi Hc Hc' Hp Hu HN.
  destruct (dict_entries_bucket d i idx c c' u Hi Hc) as (rest & H1 & H2).
  exists rest. split_and!; [done|done|]. intros Hd Hlen.
  pose proof (ht_ok_ht d i Hok) as Hhi. destruct Hok as (H0 & H1' & Hr & _).
  pose proof (get_bucket_inv _ _ _ _ Hc) as (l & Hl & Hidx & Hlc).
  assert (ht_ok (DictHT (<[Z.to_nat idx := c']> <$> ht_table (ht d i)) u (ht_size_exp (ht d i)))) as Hnew.
  { rewrite Hl. cbn. eapply ht_ok_bucket; try done; lia. }
  split_and!.
  - unfold with_bucket. destruct Hi as [->| ->]; done.
  - unfold with_bucket. destruct Hi as [->| ->]; done.
  - by eapply rehash_ok_bucket.
  - by rewrite H2.
  - unfold zlen. rewrite H2. done.
Qed.

(** ** Expanding *)

Lemma dictNextExp_bounds size :
  0 <= size < 2 ^ 64 ->
  2 <= _dictNextExp size <= 63 /\ (size <= 2 ^ 60 -> _dictNextExp size <= 60 /\ size <= 2 ^ _dictNextExp size).
Proof.
  intros Hs. unfold _dictNextExp, DICT_HT_INITIAL_EXP, DICT_HT_INITIAL_SIZE, DICT_HT_INITIAL_EXP, LONG_MAX, clzl.
  destruct (decide (size <= 2 ^ 2)); [lia|]. destruct (decide (size >= 2 ^ 63 - 1)); [lia|].
  pose proof (Z.log2_spec (size - 1) ltac:(lia)) as [H1 H2].
  replace (8 * 8 - (63 - Z.log2 (size - 1))) with (Z.succ (Z.log2 (size - 1))) by lia.
  assert (2 <= Z.log2 (size - 1)) by (change 2 with (Z.log2 4); apply Z.log2_le_mono; lia).
  assert (Z.log2 (size - 1) < 63) by (apply Z.log2_lt_pow2; lia).
  split; [lia|]. intros Hle.
  assert (Z.log2 (size - 1) < 60) by (apply Z.log2_lt_pow2; lia). lia.
Qed.

(** The overflow test of [_dictExpand] accepts the exponents up to 60. *)
Lemma newsize_overflow e :
  2 <= e <= 63 -> ~ u64 (u64 (Z.shiftl 1 e) * 8) < u64 (Z.shiftl 1 e) -> e <= 60.
Proof.
  intros He Hn. destruct (decide (e <= 60)); [done|]. exfalso. apply Hn.
  assert (e = 61 \/ e = 62 \/ e = 63) as [->|[->| ->]] by lia; by vm_compute.
Qed.

Lemma newsize_fits e : 2 <= e <= 60 -> ~ u64 (2 ^ e * 8) < 2 ^ e.
Proof.
  intros He. pose proof (pow2_ge_4 e). unfold u64. rewrite uwrap_small; [lia|].
  unfold in_u. change (2 ^ e * 8) with (2 ^ e * 2 ^ 3). rewrite <- Z.pow_add_r by lia.
  split; [lia|]. apply Z.pow_lt_mono_r; lia.
Qed.

Lemma tbl_entries_empty n : tbl_entries (replicate n NULL) = [].
Proof. induction n; [done|]. unfold tbl_entries in *. simpl. done. Qed.

Lemma tbl_ok_empty e : 2 <= e <= 60 -> tbl_ok e (replicate (Z.to_nat (2 ^ e)) NULL).
Proof.
  intros He. pose proof (pow2_ge_4 e). split; [done|]. split; [zlia|].
  intros i c [-> _]%lookup_replicate. done.
Qed.

Lemma rehashing_true d : dictIsRehashing d = true <-> rehashidx d <> -1.
Proof. unfold dictIsRehashing. by rewrite bool_decide_eq_true. Qed.

Lemma rehashing_false d : dictIsRehashing d = false <-> rehashidx d = -1.
Proof. unfold dictIsRehashing. rewrite bool_decide_eq_false. lia. Qed.

(** Expanding keeps the entries, whether it happens or not. *)
Lemma dictExpand_ok_gen d size mf :
  dict_ok d -> 0 <= size < 2 ^ 64 ->
  dict_ok (_dictExpand d size mf).1.1 /\ dict_entries (_dictExpand d size mf).1.1 = dict_entries d /\
  pauserehash (_dictExpand d size mf).1.1 = pauserehash d.
Proof.
  intros Hok Hs. unfold _dictExpand.
  destruct (dictIsRehashing d || bool_decide (ht_used (ht0 d) > size)) eqn:E1; [done|].
  apply orb_false_iff in E1 as [Hr Hu]. destruct (dictNextExp_bounds size Hs) as [He _].
  set (e := _dictNextExp size) in *. destruct (decide _) as [|Hov]; [done|].
  assert (e <= 60) by (apply newsize_overflow; tauto).
  assert (u64 (Z.shiftl 1 e) = 2 ^ e) as Hpow.
  { rewrite <- DICTHT_SIZE_pow by lia. unfold DICTHT_SIZE. by rewrite (decide_False (P := e = -1)) by lia. }
  destruct (decide (e = _)) as [|Hne]; [done|]. destruct (default false mf); [done|].
  destruct Hok as (H0 & H1 & Hrok & Hd & Hlen). unfold rehash_ok in Hrok. rewrite Hr in Hrok.
  assert (ht_ok (DictHT (Some (replicate (Z.to_nat (u64 (Z.shiftl 1 e))) NULL)) 0 e)) as Hnew.
  { unfold ht_ok. cbn. rewrite tbl_entries_empty, Hpow. split; [apply tbl_ok_empty; lia|done]. }
  destruct (ht_table (ht0 d)) as [l0|] eqn:E0; cbn [fst].
  - assert (dict_entries (set_rehashidx (set_ht d 1 (DictHT (Some (replicate (Z.to_nat (u64 (Z.shiftl 1 e))) NULL)) 0 e)) 0)
            = dict_entries d) as He'.
    { unfold dict_entries, ht_entries. tables. by rewrite tbl_entries_empty, Hrok. }
    split; [|by split]. unfold dict_ok. rewrite He'. split; [done|]. split; [exact Hnew|]. split; [|done].
    unfold rehash_ok, dictIsRehashing. rewrite bool_decide_true by done. cbn. eexists _, _. split_and!; [done|done|naive_solver|done|apply zlen_nonneg|lia].
  - assert (dict_entries (set_ht d 0 (DictHT (Some (replicate (Z.to_nat (u64 (Z.shiftl 1 e))) NULL)) 0 e))
            = dict_entries d) as He'.
    { unfold dict_entries, ht_entries. tables. by rewrite tbl_entries_empty, E0. }
    split; [|by split]. unfold dict_ok. rewrite He'. split; [exact Hnew|]. split; [done|]. split; [|done].
    unfold rehash_ok. change (dictIsRehashing _) with (dictIsRehashing d). by rewrite Hr.
Qed.

Lemma fst_dictExpand d size : (dictExpand d size).1 = (_dictExpand d size None).1.1.
Proof. unfold dictExpand. by destruct (_dictExpand d size None) as [[] ?]. Qed.

Lemma dictExpand_ok d size :
  dict_ok d -> 0 <= size < 2 ^ 64 ->
  dict_ok (dictExpand d size).1 /\ dict_entries (dictExpand d size).1 = dict_entries d /\
  pauserehash (dictExpand d size).1 = pauserehash d.
Proof. rewrite fst_dictExpand. apply dictExpand_ok_gen. Qed.

(** ** Rehashing *)

(** The destination bucket that [rehash_entry] computes is the one of the hash. *)
Lemma rehash_index h e0 e1 r :
  2 <= e0 <= 60 -> 2 <= e1 <= 60 -> Z.land h (2 ^ e0 - 1) = r ->
  (if decide (e1 > e0) then Z.land h (DICTHT_SIZE_MASK e1) else Z.land r (DICTHT_SIZE_MASK e1))
  = Z.land h (2 ^ e1 - 1).
Proof.
  intros H0 H1 <-. rewrite DICTHT_SIZE_MASK_pow by done. destruct (decide (e1 > e0)) as [|Hle]; [done|].
  rewrite !land_mask by lia. symmetry. apply Znumtheory.Zmod_div_mod; [lia|lia|].
  exists (2 ^ (e0 - e1)). rewrite <- Z.pow_add_r by lia. f_equal. lia.
Qed.

(** The entry linked in front of a bucket, as [rehash_entry] builds it. *)
Lemma relink_entry_ok de b k :
  chain_ok de -> chain_ok b -> de <> NULL -> dictGetKey de = Some k -> key_ok k ->
  exists e rest de',
  emit_chain de = e :: rest /\
  (if no_value type then
     if keys_are_odd type && is_null b then
       _ ← assert (key_is_odd type k = true); Some (IsKey k)
     else if entryIsKey de then Some (NoValue k b)
     else match de with NoValue _ _ => dictSetNext de b | _ => None end
   else dictSetNext de b) = Some de' /\
  emit_chain de' = e :: emit_chain b /\ chain_ok de' /\ e.1 = k.
Proof.
  intros Hde Hb HN Hk Hodd. unfold key_ok in Hodd.
  assert (forall k', no_value type = true -> keys_are_odd type && is_null b = true -> k' = k ->
    (_ ← assert (key_is_odd type k' = true); Some (IsKey k')) = Some (IsKey k)) as Hodd'.
  { intros k' Hnv [? ?]%andb_true_iff ->. by rewrite assert_True by auto. }
  destruct de as [|k'|k' n|k' v n]; cbn in Hde, Hk; [done|..]; injection Hk as ->; destruct Hde as [Hnv Hde];
    rewrite Hnv; [destruct (keys_are_odd type && is_null b) eqn:Eb..|]; try rewrite Hodd' by done;
    try apply andb_true_iff in Eb as [Hko Eb]; eexists _, _, _; split_and!; try done; cbn; by rewrite ?(emit_null b).
Qed.

(** An entry that may be moved: its bucket in the first table is [rehashidx]. *)
Definition movable (d : dict) (e : K * option V) : Prop := placed (ht_size_exp (ht0 d)) (rehashidx d) e.

Lemma rehash_entry_ok d de l1 :
  2 <= ht_size_exp (ht0 d) <= 60 -> ht_table (ht1 d) = Some l1 -> ht_ok (ht1 d) ->
  chain_ok de -> de <> NULL -> Forall (movable d) (emit_chain de) ->
  1 <= ht_used (ht0 d) < 2 ^ 64 -> ht_used (ht1 d) + 1 < 2 ^ 64 ->
  exists l1' e rest, emit_chain de = e :: rest /\
  rehash_entry d de = Some (Dict (DictHT (ht_table (ht0 d)) (ht_used (ht0 d) - 1) (ht_size_exp (ht0 d)))
    (DictHT (Some l1') (ht_used (ht1 d) + 1) (ht_size_exp (ht1 d))) (rehashidx d) (pauserehash d)) /\
  ht_ok (DictHT (Some l1') (ht_used (ht1 d) + 1) (ht_size_exp (ht1 d))) /\
  tbl_entries l1' ≡ₚ e :: tbl_entries l1.
Proof.
  intros He0 Hl1 Hh1 Hde HN Hp Hu0 Hu1.
  destruct (dictGetNext_emit de HN) as (next & e & _ & Hemit & Hkey & _ & _).
  rewrite Hemit in Hp. apply Forall_cons in Hp as [[Hpe Hko] _].
  pose proof Hh1 as Hh1'. unfold ht_ok in Hh1'. rewrite Hl1 in Hh1'. destruct Hh1' as [Ht1 Hlen1].
  unfold rehash_entry. rewrite Hkey. cbn [mbind option_bind].
  rewrite (rehash_index (hashFunction type e.1) _ _ _ He0 ltac:(apply Ht1) Hpe).
  set (h := Z.land _ _). assert (0 <= h < 2 ^ ht_size_exp (ht1 d)) as Hh by (apply land_mask_range; destruct Ht1; lia).
  destruct (peek_Some l1 h) as (b & Hb). { destruct Ht1 as (_ & -> & _). done. }
  assert (get_bucket d 1 h = Some b) as Hgb. { unfold get_bucket. tables. rewrite Hl1. done. }
  rewrite Hgb. cbn [mbind option_bind]. apply peek_inv in Hb as [_ Hb].
  destruct (proj2 (proj2 Ht1) _ _ Hb) as [Hbok Hbp].
  destruct (relink_entry_ok de b e.1 Hde Hbok HN Hkey Hko) as (e' & rest & de' & Hemit' & -> & Hde' & Hok' & _).
  rewrite Hemit in Hemit'. injection Hemit' as <- <-. cbn [mbind option_bind].
  rewrite (set_bucket_eq _ _ _ _ _ Hgb). cbn [mbind option_bind].
  exists (<[Z.to_nat h := de']> l1), e, (emit_chain next). split; [done|].
  assert (ht_ok (DictHT (Some (<[Z.to_nat h:=de']> l1)) (ht_used (ht1 d) + 1) (ht_size_exp (ht1 d)))) as Hnew.
  { eapply ht_ok_bucket; try done; [lia| |rewrite Hde', zlen_cons; lia].
    rewrite Hde'. constructor; [by split|]. rewrite Z2Nat.id in Hbp by lia. done. }
  split_and!; [|done|].
  - unfold add_used, with_bucket. tables. rewrite Hl1. cbn. do 4 f_equal; apply uwrap_small; unfold in_u; [lia|].
    rewrite Hlen1. pose proof (zlen_nonneg (tbl_entries l1)). lia.
  - destruct (tbl_entries_insert l1 (Z.to_nat h) b de' Hb) as (r & -> & ->). by rewrite Hde'.
Qed.

(** Moving a chain puts its entries in the second table. *)
Definition bucket_moves (de : dictEntry) : Prop := forall d l1,
  2 <= ht_size_exp (ht0 d) <= 60 -> ht_table (ht1 d) = Some l1 -> ht_ok (ht1 d) ->
  chain_ok de -> Forall (movable d) (emit_chain de) ->
  zlen (emit_chain de) <= ht_used (ht0 d) < 2 ^ 64 -> ht_used (ht1 d) + zlen (emit_chain de) < 2 ^ 64 ->
  exists l1',
  rehash_bucket d de = Some (Dict (DictHT (ht_table (ht0 d)) (ht_used (ht0 d) - zlen (emit_chain de)) (ht_size_exp (ht0 d)))
    (DictHT (Some l1') (ht_used (ht1 d) + zlen (emit_chain de)) (ht_size_exp (ht1 d))) (rehashidx d) (pauserehash d)) /\
  ht_ok (DictHT (Some l1') (ht_used (ht1 d) + zlen (emit_chain de)) (ht_size_exp (ht1 d))) /\
  tbl_entries l1' ≡ₚ emit_chain de ++ tbl_entries l1.

Lemma bucket_moves_step de next e :
  (forall d, rehash_bucket d de = rehash_entry d de ≫= fun d => rehash_bucket d next) ->
  de <> NULL -> emit_chain de = e :: emit_chain next -> (chain_ok de -> chain_ok next) ->
  bucket_moves next -> bucket_moves de.
Proof.
  intros Hstep HN Hemit Hnext IH d l1 He Hl1 Hh1 Hok Hm Hu0 Hu1. rewrite Hstep.
  destruct (rehash_entry_ok d de l1 He Hl1 Hh1 Hok HN Hm) as (l1' & e' & rest & Hemit' & -> & Hh1' & Hp);
    [rewrite Hemit in *; zlia..|].
  rewrite Hemit in Hemit'. injection Hemit' as <- <-. rewrite Hemit in *. cbn [mbind option_bind].
  set (d1 := Dict _ _ _ _). apply Forall_cons in Hm as [_ Hm].
  destruct (IH d1 l1' He eq_refl Hh1' (Hnext Hok) Hm) as (l1'' & -> & Hh'' & Hp''); [cbn; zlia..|].
  exists l1''. subst d1. cbn [ht_used ht_table ht_size_exp ht0 ht1 rehashidx pauserehash] in *. rewrite zlen_cons. split_and!.
  - do 3 f_equal; lia.
  - by replace (ht_used (ht1 d) + (1 + zlen (emit_chain next))) with (ht_used (ht1 d) + 1 + zlen (emit_chain next)) by lia.
  - rewrite Hp'', Hp. solve_Permutation.
Qed.

Lemma rehash_bucket_ok de : bucket_moves de.
Proof.
  assert (bucket_moves NULL) as Hnull.
  { intros d l1 ? ? ? ? ? ? ?. exists l1. destruct d as [[] [] ? ?]. cbn in *. subst.
    rewrite zlen_nil, Z.sub_0_r, Z.add_0_r. done. }
  induction de as [|k|k n IH|k v n IH]; [done| | |].
  - apply (bucket_moves_step _ NULL (k, None)); try done. intros d. cbn [rehash_bucket]. by destruct (rehash_entry d (IsKey k)).
  - apply (bucket_moves_step _ n (k, None)); try done. by intros [].
  - apply (bucket_moves_step _ n (k, v)); try done. by intros [].
Qed.

(** While entries remain in the first table, [rehashidx] is inside it. *)
Lemma rehashidx_lt d l0 :
  ht_table (ht0 d) = Some l0 -> ht_ok (ht0 d) -> ht_used (ht0 d) <> 0 ->
  (forall i, Z.of_nat i < rehashidx d -> l0 !! i = Some NULL) -> rehashidx d < zlen l0.
Proof.
  intros Hl0 Hok Hu Hnull. unfold ht_ok in Hok. rewrite Hl0 in Hok. destruct Hok as [_ Hused].
  destruct (decide (rehashidx d < zlen l0)); [done|]. exfalso. apply Hu. rewrite Hused.
  replace (tbl_entries l0) with (@nil (K * option V)); [done|].
  assert (forall l, (forall i c, l !! i = Some c -> c = NULL) -> tbl_entries l = []) as Hall.
  { induction l as [|c l IH]; intros H; [done|]. rewrite (H O c eq_refl). apply IH.
    intros i. apply (H (S i)). }
  symmetry. apply Hall. intros i c Hi. pose proof (lookup_lt_Some _ _ _ Hi).
  rewrite Hnull in Hi by zlia. by injection Hi.
Qed.

Lemma set_rehashidx_ok d l0 r :
  dict_ok d -> dictIsRehashing d = true -> ht_table (ht0 d) = Some l0 ->
  rehashidx d <= r <= zlen l0 ->
  (forall i, rehashidx d <= Z.of_nat i < r -> l0 !! i = Some NULL) ->
  dict_ok (set_rehashidx d r) /\ dictIsRehashing (set_rehashidx d r) = true.
Proof.
  intros (H0 & H1 & Hr & Hd) Hre Hl0 Hle Hnull. unfold rehash_ok in Hr. rewrite Hre in Hr.
  destruct Hr as (l0' & l1 & Hl0' & Hl1 & Hne & Hri & Hn). rewrite Hl0 in Hl0'. injection Hl0' as <-.
  assert (dictIsRehashing (set_rehashidx d r) = true) as Hre' by (apply rehashing_true; cbn; lia).
  split; [|done]. split; [done|]. split; [done|]. split; [|done].
  unfold rehash_ok. rewrite Hre'. exists l0, l1. cbn. split; [done|]. split; [done|]. split; [done|].
  split; [lia|]. intros i Hi. destruct (decide (Z.of_nat i < rehashidx d)); [by apply Hn|apply Hnull; lia].
Qed.

Lemma rehashing_tables d :
  dict_ok d -> dictIsRehashing d = true ->
  exists l0 l1, ht_table (ht0 d) = Some l0 /\ ht_table (ht1 d) = Some l1 /\
  ht_size_exp (ht0 d) <> ht_size_exp (ht1 d) /\ 0 <= rehashidx d <= zlen l0 /\
  (forall i, Z.of_nat i < rehashidx d -> l0 !! i = Some NULL) /\
  tbl_ok (ht_size_exp (ht0 d)) l0 /\ tbl_ok (ht_size_exp (ht1 d)) l1.
Proof.
  intros (H0 & H1 & Hr & Hd) Hre. unfold rehash_ok in Hr. rewrite Hre in Hr.
  destruct Hr as (l0 & l1 & Hl0 & Hl1 & Hne & Hri & Hn). exists l0, l1.
  unfold ht_ok in H0, H1. rewrite Hl0 in H0. rewrite Hl1 in H1.
  split_and!; try done; tauto.
Qed.

(** Skipping stops at a bucket with entries or when the visits are used up;
    it always makes progress in the second case. *)
Lemma skip_empty_ok ev : forall d,
  dict_ok d -> dictIsRehashing d = true -> ht_used (ht0 d) <> 0 -> (0 < ev)%nat ->
  exists r ev' stop, skip_empty ev d = Some (set_rehashidx d r, ev', stop) /\
  dict_ok (set_rehashidx d r) /\ dictIsRehashing (set_rehashidx d r) = true /\ rehashidx d <= r /\
  if (stop : bool) then rehashidx d < r
  else (0 < ev')%nat /\ exists c, get_bucket d 0 r = Some c /\ c <> NULL.
Proof.
  induction ev as [|ev IH]; intros d Hok Hre Hu Hev; [lia|].
  destruct (rehashing_tables d Hok Hre) as (l0 & l1 & Hl0 & _ & _ & Hri & Hn & _ & _).
  pose proof (rehashidx_lt d l0 Hl0 (proj1 Hok) Hu Hn) as Hlt.
  destruct (peek_Some l0 (rehashidx d) ltac:(lia)) as (c & Hc).
  assert (get_bucket d 0 (rehashidx d) = Some c) as Hgb by (unfold get_bucket; tables; rewrite Hl0; done).
  cbn [skip_empty]. rewrite Hgb. cbn [mbind option_bind]. apply peek_inv in Hc as [_ Hc].
  destruct (is_null c) eqn:Ec.
  - apply is_null_spec in Ec as ->.
    destruct (set_rehashidx_ok d l0 (rehashidx d + 1) Hok Hre Hl0 ltac:(lia)) as [Hok1 Hre1].
    { intros i Hi. by replace i with (Z.to_nat (rehashidx d)) by lia. }
    destruct ev as [|ev].
    + eexists _, _, _. split; [done|]. split_and!; [done|done|lia|lia].
    + destruct (IH _ Hok1 Hre1 Hu ltac:(lia)) as (r & ev' & stop & -> & ? & ? & Hle & Hs).
      exists r, ev', stop. cbn in Hle. split_and!; [done|done|done|lia|].
      destruct stop; [cbn in Hs; lia|done].
  - exists (rehashidx d), (S ev), false. replace (set_rehashidx d (rehashidx d)) with d by (by destruct d).
    split_and!; [done|done|done|lia|lia|]. exists c. split; [done|]. by intros ->.
Qed.

(** Moving one whole bucket. *)
Lemma rehash_one_ok d c :
  dict_ok d -> dictIsRehashing d = true -> get_bucket d 0 (rehashidx d) = Some c ->
  exists d1 d2, rehash_bucket d c = Some d1 /\ set_bucket d1 0 (rehashidx d1) NULL = Some d2 /\
  rehashidx d2 = rehashidx d /\
  dict_ok (set_rehashidx d2 (rehashidx d + 1)) /\ dictIsRehashing (set_rehashidx d2 (rehashidx d + 1)) = true /\
  dict_entries d2 ≡ₚ dict_entries d /\ pauserehash d2 = pauserehash d /\
  ht_size_exp (ht0 d2) = ht_size_exp (ht0 d).
Proof.
  intros Hok Hre Hgb. pose proof Hok as (H0 & H1 & _ & Hdist & Hlen).
  destruct (rehashing_tables d Hok Hre) as (l0 & l1 & Hl0 & Hl1 & Hne & Hri & Hn & Ht0 & Ht1).
  pose proof (get_bucket_inv _ _ _ _ Hgb) as (l & Hl & Hidx & Hc). tables.
  rewrite Hl0 in Hl. injection Hl as <-. pose proof Ht0 as (He0 & Hlen0 & Hall0).
  destruct (Hall0 _ _ Hc) as [Hcok Hcp]. rewrite Z2Nat.id in Hcp by lia.
  destruct (tbl_entries_insert l0 _ c NULL Hc) as (rest & Hp0 & Hp0').
  unfold ht_ok in H0. rewrite Hl0 in H0. destruct H0 as [_ Hu0].
  pose proof H1 as H1'. unfold ht_ok in H1'. rewrite Hl1 in H1'. destruct H1' as [_ Hu1].
  assert (dict_entries d = tbl_entries l0 ++ tbl_entries l1) as Hde by (unfold dict_entries, ht_entries; by rewrite Hl0, Hl1).
  assert (zlen (tbl_entries l0) = zlen (emit_chain c) + zlen rest) as Hz by (unfold zlen; rewrite Hp0, length_app; lia).
  rewrite Hde, zlen_app in Hlen.
  destruct (rehash_bucket_ok c d l1 He0 Hl1 H1 Hcok Hcp ltac:(zlia) ltac:(zlia)) as (l1' & -> & Hh1' & Hp1).
  set (d1 := Dict _ _ _ _). assert (get_bucket d1 0 (rehashidx d1) = Some c) as Hgb1.
  { revert Hgb. unfold get_bucket. subst d1. tables. done. }
  exists d1. eexists. split; [done|]. split; [by apply (set_bucket_eq _ _ _ c)|].
  unfold with_bucket. subst d1. tables. rewrite Hl0. fields. split; [done|].
  assert (tbl_entries (<[Z.to_nat (rehashidx d):=NULL]> l0) ++ tbl_entries l1' ≡ₚ dict_entries d) as Hperm.
  { rewrite Hde, Hp0', Hp1, Hp0. simpl. solve_Permutation. }
  split_and!; try done; cycle 1; [apply rehashing_true; cbn; lia|].
  split_and!; [|exact Hh1'| | |]; unfold dict_entries, ht_entries; fields; rewrite ?Hperm.
  - eapply (ht_ok_bucket (ht0 d) (rehashidx d) c NULL _ l0); try done; [|lia|].
    + unfold ht_ok. rewrite Hl0. done.
    + change (emit_chain NULL) with (@nil (K * option V)). rewrite zlen_nil. lia.
  - unfold rehash_ok. rewrite (proj2 (rehashing_true _)) by (cbn; lia). cbn.
    eexists _, _. split_and!; [done|done|done|lia|zlia|]. intros i Hi.
    destruct (decide (Z.to_nat (rehashidx d) = i)) as [<-|].
    + apply list_lookup_insert_eq. zlia.
    + rewrite list_lookup_insert_ne by done. apply Hn. lia.
  - done.
  - unfold zlen in *. rewrite Hperm, Hde, length_app. lia.
Qed.

(** What every rehashing function keeps. *)
Definition same_dict (d d' : dict) : Prop :=
  dict_ok d' /\ dict_entries d' ≡ₚ dict_entries d /\ pauserehash d' = pauserehash d.

Lemma same_dict_trans d d' d'' : same_dict d d' -> same_dict d' d'' -> same_dict d d''.
Proof. intros (? & H1 & ?) (? & H2 & ?). split_and!; [done|by rewrite H2|congruence]. Qed.

Lemma rehash_loop_ok n : forall ev d,
  dict_ok d -> dictIsRehashing d = true -> (0 < ev \/ n = 0)%nat ->
  exists d' early, rehash_loop n ev d = Some (d', early) /\ same_dict d d' /\
  dictIsRehashing d' = true /\ ht_size_exp (ht0 d') = ht_size_exp (ht0 d) /\ rehashidx d <= rehashidx d' /\
  (if (early : bool) then rehashidx d < rehashidx d'
   else ht_used (ht0 d') = 0 \/ rehashidx d + Z.of_nat n <= rehashidx d').
Proof.
  induction n as [|n IH]; intros ev d Hok Hre Hev; cbn [rehash_loop].
  { exists d, false. split_and!; try done; right; lia. }
  destruct (decide (ht_used (ht0 d) = 0)) as [Hu|Hu].
  { exists d, false. split_and!; try done; by left. }
  destruct (rehashing_tables d Hok Hre) as (l0 & l1 & Hl0 & Hl1 & Hne & Hri & Hn & Ht0 & Ht1).
  pose proof (rehashidx_lt d l0 Hl0 (proj1 Hok) Hu Hn) as Hlt.
  rewrite assert_True; [|rewrite DICTHT_SIZE_pow by apply Ht0; destruct Ht0; lia]. cbn [mbind option_bind].
  destruct (skip_empty_ok ev d Hok Hre Hu ltac:(lia)) as (r & ev' & stop & -> & Hok1 & Hre1 & Hle & Hs).
  cbn [mbind option_bind]. destruct stop.
  { eexists _, true. split_and!; [done|split_and!; done|done|done|cbn; lia|cbn; lia]. }
  destruct Hs as (Hev' & c & Hc & _). replace (get_bucket (set_rehashidx d r) 0 _) with (Some c) by done.
  cbn [mbind option_bind]. destruct (rehash_one_ok (set_rehashidx d r) c Hok1 Hre1 Hc)
    as (d1 & d2 & -> & H2 & Hr2 & Hok2 & Hre2 & Hp2 & Hpause2 & Hexp2). cbn [mbind option_bind].
  rewrite H2. cbn [mbind option_bind]. rewrite Hr2. fields.
  destruct (IH ev' _ Hok2 Hre2 (or_introl Hev')) as (d' & early & -> & Hsame & Hre' & Hexp' & Hle' & Hs').
  fields. exists d', early. split; [done|]. split_and!; try done.
  - apply (same_dict_trans d (set_rehashidx d2 (r + 1))); [|done]. done.
  - congruence.
  - lia.
  - destruct early; [lia|]. destruct Hs'; [by left|right; lia].
Qed.

(** The buckets of the first table still to visit. *)
Definition rehash_left (d : dict) : Z :=
  if dictIsRehashing d then 2 ^ ht_size_exp (ht0 d) - rehashidx d + 1 else 0.

Lemma rehash_left_pos d : dict_ok d -> dictIsRehashing d = true -> 0 < rehash_left d.
Proof.
  intros Hok Hre. unfold rehash_left. rewrite Hre.
  destruct (rehashing_tables d Hok Hre) as (l0 & l1 & Hl0 & Hl1 & Hne & Hri & Hn & Ht0 & Ht1).
  destruct Ht0 as (_ & <- & _). lia.
Qed.

(** When the first table is empty the second takes its place. *)
Lemma rehash_finish_ok d :
  dict_ok d -> dictIsRehashing d = true -> ht_used (ht0 d) = 0 ->
  same_dict d (set_rehashidx (_dictReset (set_ht d 0 (ht1 d)) 1) (-1)).
Proof.
  intros Hok Hre Hu. pose proof Hok as (H0 & H1 & _ & Hd & Hlen).
  destruct (rehashing_tables d Hok Hre) as (l0 & l1 & Hl0 & Hl1 & Hne & Hri & Hn & Ht0 & Ht1).
  unfold ht_ok in H0. rewrite Hl0 in H0. destruct H0 as [_ H0]. rewrite Hu in H0.
  symmetry in H0. apply zlen_0 in H0.
  assert (dict_entries (set_rehashidx (_dictReset (set_ht d 0 (ht1 d)) 1) (-1)) = dict_entries d) as He.
  { unfold _dictReset, dict_entries, ht_entries. tables. rewrite Hl0, H0, Hl1. cbn. by rewrite app_nil_r. }
  unfold same_dict, dict_ok. rewrite He. split_and!; try done.
Qed.

(** [dictRehash] keeps the dictionary, and does some work when resizing is
    enabled. *)
Lemma dictRehash_ok d n :
  dict_ok d -> Z.of_nat n * 10 < 2 ^ 31 ->
  exists d' r, dictRehash d n = Some (d', r) /\ same_dict d d' /\
  (dictIsRehashing d = false -> d' = d /\ r = 0) /\
  (r <> 0 -> dictIsRehashing d' = true) /\
  (dict_can_resize = DICT_RESIZE_ENABLE -> dictIsRehashing d = true -> (0 < n)%nat ->
   rehash_left d' < rehash_left d /\ (r = 0 -> dictIsRehashing d' = false)).
Proof.
  intros Hok Hn. unfold dictRehash. rewrite assert_True by done. cbn [mbind option_bind].
  destruct (bool_decide (dict_can_resize = DICT_RESIZE_FORBID)) eqn:Ef; cbn [orb].
  { apply bool_decide_eq_true in Ef. exists d, 0. split_and!; try done. by rewrite Ef. }
  destruct (dictIsRehashing d) eqn:Hre; cbn [negb]; [|by exists d, 0].
  destruct (decide _) as [[Ha _]|_].
  { exists d, 0. split_and!; try done. by rewrite Ha. }
  destruct (rehash_loop_ok n (n * 10) d Hok Hre ltac:(lia)) as (d1 & early & -> & Hsame & Hre1 & Hexp & Hle & Hs).
  cbn [mbind option_bind].
  assert ((0 < n)%nat -> early = true \/ ht_used (ht0 d1) <> 0 -> rehash_left d1 < rehash_left d) as Hleft.
  { intros Hpos Hor. unfold rehash_left. rewrite Hre, Hre1, Hexp. destruct early; [lia|]. destruct Hor, Hs; lia || done. }
  destruct early.
  { exists d1, 1. split_and!; try done. split; [by apply Hleft; [|left]|done]. }
  destruct (decide (ht_used (ht0 d1) = 0)) as [Hu|Hu].
  - eexists _, 0. split; [done|]. split; [eapply same_dict_trans; [done|by apply rehash_finish_ok; [apply Hsame|..]]|].
    split_and!; try done. intros _ _ _. split; [|done]. pose proof (rehash_left_pos d Hok Hre). unfold rehash_left at 1. done.
  - exists d1, 1. split_and!; try done. split; [apply Hleft; [done|by right]|done].
Qed.

Lemma rehashStep_ok d : dict_ok d -> exists d', _dictRehashStep d = Some d' /\ same_dict d d'.
Proof.
  intros Hok. unfold _dictRehashStep. destruct (decide (pauserehash d = 0)); [|by exists d].
  destruct (dictRehash_ok d 1 Hok ltac:(lia)) as (d' & r & -> & Hs & _). by exists d'.
Qed.

Lemma rehash_if_rehashing_ok d : dict_ok d -> exists d', rehash_if_rehashing d = Some d' /\ same_dict d d'.
Proof.
  intros Hok. unfold rehash_if_rehashing. destruct (dictIsRehashing d); [by apply rehashStep_ok|].
  by exists d.
Qed.

(** ** Searching *)

Lemma dictSize_entries d : dict_ok d -> dictSize d = zlen (dict_entries d).
Proof.
  intros (H0 & H1 & _ & _ & Hlen). unfold dictSize, dict_entries, ht_entries, ht_ok in *.
  assert (forall h, match ht_table h with None => ht_used h = 0 /\ ht_size_exp h = -1
    | Some l => tbl_ok (ht_size_exp h) l /\ ht_used h = zlen (tbl_entries l) end ->
    ht_used h = zlen (match ht_table h with None => [] | Some l => tbl_entries l end)) as Hu.
  { intros h Hh. destruct (ht_table h); [tauto|]. by destruct Hh as [-> _]. }
  rewrite (Hu _ H0), (Hu _ H1). rewrite zlen_app in *. apply uwrap_small. unfold in_u. zlia.
Qed.

(** The position [e] holds the entry [(k, v)] with the given key. *)
Definition located (d : dict) (key : K) (e : eref) (he : dictEntry) (kv : K * option V) : Prop :=
  let '(t, idx, n) := e in
  (t = 0 \/ t = 1) /\ exists c tl, get_bucket d t idx = Some c /\ chain_nth n c = Some he /\
  emit_chain he = kv :: tl /\ key_match key kv.1 = true.

Lemma search_table_ok d key t l :
  dict_ok d -> (t = 0 \/ t = 1) -> ht_table (ht d t) = Some l ->
  exists r, search_table d key t = Some r /\
  match r with
  | None => matching key (tbl_entries l) = []
  | Some e => exists he kv, located d key e he kv
  end.
Proof.
  intros Hok Ht Hl. pose proof (ht_ok_ht d t Hok) as Hh. unfold ht_ok in Hh. rewrite Hl in Hh. destruct Hh as [Htbl _].
  unfold search_table. rewrite DICTHT_SIZE_MASK_pow by apply Htbl.
  destruct (matching_bucket _ l key Htbl) as (c & Hc & Hm).
  assert (get_bucket d t (Z.land (hashFunction type key) (2 ^ ht_size_exp (ht d t) - 1)) = Some c) as Hgb
    by (unfold get_bucket; rewrite Hl; done).
  rewrite Hgb. cbn [mbind option_bind]. eexists. split; [done|]. rewrite Hm.
  destruct (chain_search key c) as [n|] eqn:E; cbn.
  - apply chain_search_Some in E as (he & k & v & Hn & Hhd & Hmatch). exists he, (k, v). split; [done|].
    destruct (emit_chain he) as [|kv tl] eqn:Ee; [done|]. injection Hhd as ->. exists c, tl. done.
  - by apply chain_search_None.
Qed.

Lemma search_tables_ok d key :
  dict_ok d -> ht_table (ht0 d) <> None ->
  exists r, search_tables d key = Some r /\
  match r with
  | None => matching key (dict_entries d) = []
  | Some e => exists he kv, located d key e he kv
  end.
Proof.
  intros Hok Hne. destruct (ht_table (ht0 d)) as [l0|] eqn:E0; [|done].
  destruct (search_table_ok d key 0 l0 Hok (or_introl eq_refl) E0) as (r & Hr & Hres).
  unfold search_tables. rewrite Hr. cbn [mbind option_bind]. destruct r as [e|]; [by exists (Some e)|].
  destruct (dictIsRehashing d) eqn:Hre; cbn [negb].
  - destruct (rehashing_tables d Hok Hre) as (l0' & l1 & Hl0 & Hl1 & _).
    destruct (search_table_ok d key 1 l1 Hok (or_intror eq_refl) Hl1) as (r & Hr1 & Hres1).
    exists r. split; [done|]. destruct r; [done|]. unfold dict_entries, ht_entries. rewrite E0, Hl1, matching_app.
    by rewrite Hres, Hres1.
  - exists None. split; [done|]. destruct Hok as (_ & _ & Hrok & _). unfold rehash_ok in Hrok. rewrite Hre in Hrok.
    unfold dict_entries, ht_entries. rewrite E0, Hrok, app_nil_r. done.
Qed.

(** A nonempty dictionary has its first table. *)
Lemma nonempty_table d : dict_ok d -> dict_entries d <> [] -> ht_table (ht0 d) <> None.
Proof.
  intros (H0 & H1 & Hr & _) Hne Hnone. apply Hne. unfold rehash_ok in Hr.
  destruct (dictIsRehashing d); [by destruct Hr as (l0 & l1 & ? & _); congruence|].
  unfold dict_entries, ht_entries. by rewrite Hnone, Hr.
Qed.

Lemma located_bucket d key e he kv :
  dict_ok d -> located d key e he kv ->
  exists c, get_bucket d e.1.1 e.1.2 = Some c /\ chain_nth e.2 c = Some he /\ (e.1.1 = 0 \/ e.1.1 = 1) /\
  he <> NULL /\ chain_ok c /\ chain_ok he /\ key_match key kv.1 = true /\
  (exists pre tl, emit_chain c = pre ++ kv :: tl /\ length pre = e.2 /\ emit_chain he = kv :: tl) /\
  Forall (placed (ht_size_exp (ht d e.1.1)) e.1.2) (emit_chain c).
Proof.
  destruct e as [[t idx] n]. intros Hok (Ht & c & tl & Hgb & Hn & Hemit & Hm). exists c. cbn.
  pose proof (get_bucket_inv _ _ _ _ Hgb) as (l & Hl & Hidx & Hc).
  pose proof (ht_ok_ht d t Hok) as Hh. unfold ht_ok in Hh. rewrite Hl in Hh. destruct Hh as [(_ & _ & Hall) _].
  destruct (Hall _ _ Hc) as [Hcok Hp]. rewrite Z2Nat.id in Hp by lia.
  destruct (chain_nth_emit n c he Hn) as (HN & Hdrop & Hheok).
  split_and!; try done; [by apply Hheok|]. exists (take n (emit_chain c)), tl.
  rewrite <- Hemit, Hdrop, take_drop. split_and!; [done| |done].
  rewrite length_take. rewrite Hemit in Hdrop. symmetry in Hdrop.
  assert (n < length (emit_chain c))%nat; [|lia].
  destruct (decide (n < length (emit_chain c))%nat) as [|Hge]; [done|]. rewrite drop_ge in Hdrop by lia. done.
Qed.

(** A located entry is the one the dictionary has for the key. *)
Lemma located_matching d key e he kv :
  dict_ok d -> located d key e he kv -> kv ∈ dict_entries d /\ matching key (dict_entries d) = [kv].
Proof.
  intros Hok Hloc. destruct (located_bucket _ _ _ _ _ Hok Hloc) as (c & Hgb & _ & Ht & _ & _ & _ & Hm & (pre & tl & Hc & _) & _).
  destruct (dict_entries_bucket d _ _ c c 0 Ht Hgb) as (rest & Hp & _).
  assert (kv ∈ dict_entries d) as Hin by (rewrite Hp, Hc; set_solver).
  split; [done|]. destruct Hok as (_ & _ & _ & Hd & _). by apply distinct_matching.
Qed.

Lemma located_deref d key e he kv :
  located d key e he kv -> deref d e = Some he /\ dictGetKey he = Some kv.1 /\ dictGetVal he = kv.2.
Proof.
  destruct e as [[t idx] n]. intros (Ht & c & tl & Hgb & Hn & Hemit & Hm). unfold deref. rewrite Hgb. cbn.
  split; [done|]. destruct he; cbn in Hemit; by simplify_eq.
Qed.

(** ** Updating an entry in place *)

(** The general update: the entry and what follows it become [he']. *)
Lemma update_entry_eq d key e he kv he' f :
  dict_ok d -> located d key e he kv -> f he = Some he' -> (chain_ok he -> chain_ok he') ->
  exists c c' pre tl, update_entry d e f = Some (with_bucket d e.1.1 e.1.2 c' (ht_used (ht d e.1.1))) /\
  get_bucket d e.1.1 e.1.2 = Some c /\ chain_ok c' /\ c <> NULL /\
  emit_chain he = kv :: tl /\ emit_chain c = pre ++ kv :: tl /\ emit_chain c' = pre ++ emit_chain he' /\
  Forall (placed (ht_size_exp (ht d e.1.1)) e.1.2) (emit_chain c).
Proof.
  intros Hok Hloc Hf Hfok. destruct (located_bucket _ _ _ _ _ Hok Hloc)
    as (c & Hgb & Hn & Ht & HN & Hcok & Hheok & Hm & (pre & tl & Hc & Hpre & Hhe) & Hp).
  destruct (chain_update_emit _ f c he he' Hn Hf Hfok) as (c' & Hu & Hc' & Hok').
  exists c, c', pre, tl. destruct e as [[t idx] n]. cbn in *. rewrite Hgb. cbn. rewrite Hu. cbn.
  rewrite (set_bucket_eq _ _ _ _ _ Hgb). split_and!; try done; [by apply Hok'|by intros ->; destruct n|].
  by rewrite Hc', Hc, <- Hpre, take_app_length.
Qed.

Lemma used_bounds d key e he kv :
  dict_ok d -> located d key e he kv -> 1 <= ht_used (ht d e.1.1) < 2 ^ 64.
Proof.
  intros Hok Hloc.
  destruct (located_bucket _ _ _ _ _ Hok Hloc) as (c & Hgb & _ & Ht & _ & _ & _ & _ & (pre & tl & Hc & _) & _).
  pose proof (get_bucket_inv _ _ _ _ Hgb) as (l & Hl & Hidx & Hlc).
  pose proof (ht_ok_ht d e.1.1 Hok) as Hh. unfold ht_ok in Hh. rewrite Hl in Hh. destruct Hh as [_ ->].
  destruct (tbl_entries_insert l _ c c Hlc) as (r & Hr & _). split.
  - unfold zlen. rewrite Hr, Hc. rewrite !length_app. simpl. lia.
  - destruct Hok as (_ & _ & _ & _ & Hlen). unfold dict_entries, ht_entries in Hlen.
    destruct Ht as [Ht|Ht]; rewrite Ht in Hl; tables; rewrite Hl in Hlen; zlia.
Qed.

(** Changing a counter commutes with changing a bucket. *)
Lemma update_entry_add_used d e f d1 n :
  update_entry d e f = Some d1 -> update_entry (add_used d e.1.1 n) e f = Some (add_used d1 e.1.1 n).
Proof.
  destruct e as [[t idx] m]. unfold update_entry. cbn [fst]. intros H.
  unbind H. unbind H. rename E into Hgb.
  assert (get_bucket (add_used d t n) t idx = Some r) as Hgb'
    by (unfold get_bucket, add_used in *; by rewrite ht_set_ht).
  rewrite Hgb'. cbn [mbind option_bind]. rewrite E0. cbn [mbind option_bind].
  rewrite (set_bucket_eq _ _ _ _ _ Hgb) in H. rewrite (set_bucket_eq _ _ _ _ _ Hgb'). f_equal. injection H as <-.
  rewrite add_used_with. unfold with_bucket, add_used. by rewrite ht_set_ht, set_ht_set_ht.
Qed.

(** Unlinking the located entry. *)
Lemma unlink_ok d key e he kv :
  dict_ok d -> located d key e he kv ->
  exists d1, update_entry d e dictGetNext = Some d1 /\
  dict_ok (add_used d1 e.1.1 (-1)) /\ dict_entries d ≡ₚ kv :: dict_entries (add_used d1 e.1.1 (-1)) /\
  pauserehash (add_used d1 e.1.1 (-1)) = pauserehash d.
Proof.
  intros Hok Hloc. pose proof (located_bucket _ _ _ _ _ Hok Hloc) as (_ & _ & _ & Ht & HN & _).
  destruct (dictGetNext_emit he HN) as (next & kv' & Hnext & Hemit & _ & _ & Hnok).
  destruct (update_entry_eq d key e he kv next dictGetNext Hok Hloc Hnext Hnok)
    as (c & c' & pre & tl & Hu & Hgb & Hc'ok & HcN & Hhe & Hc & Hc' & Hp).
  rewrite Hhe in Hemit. injection Hemit as <- Htl. rewrite <- Htl in Hc'.
  eexists. split; [done|]. rewrite add_used_with. pose proof (used_bounds _ _ _ _ _ Hok Hloc).
  rewrite (uwrap_small 64) by (unfold in_u; lia).
  assert (Forall (placed (ht_size_exp (ht d e.1.1)) e.1.2) (emit_chain c')) as Hp'.
  { rewrite Hc', Hc in *. apply Forall_app in Hp as [? Hp]. apply Forall_cons in Hp as [_ ?]. by apply Forall_app. }
  destruct (dict_ok_bucket d _ _ c c' (ht_used (ht d e.1.1) + -1) Hok Ht Hgb Hc'ok Hp') as (rest' & Hq & Hq' & Hok').
  { rewrite Hc, Hc'. zlia. }
  { done. }
  assert (dict_entries d ≡ₚ kv :: (emit_chain c' ++ rest')) as Hperm.
  { rewrite Hq, Hc, Hc'. solve_Permutation. }
  split_and!.
  - destruct Hok as (_ & _ & _ & Hdis & Hlen). apply Hok'.
    + rewrite Hperm in Hdis. by apply distinct_cons in Hdis as [].
    + unfold zlen in *. rewrite Hperm in Hlen. cbn [length] in Hlen. lia.
  - by rewrite Hq', Hperm.
  - by destruct Ht as [-> | ->].
Qed.

(** Setting the value of the located entry. *)
Definition dup_val (val : V) : V := match valDup type with Some f => f val | None => val end.

Lemma set_val_ok d key e he kv val :
  dict_ok d -> located d key e he kv -> no_value type = false ->
  exists d' rest, update_entry d e (fun de => dictSetVal de val) = Some d' /\ dict_ok d' /\
  dict_entries d ≡ₚ kv :: rest /\ dict_entries d' ≡ₚ (kv.1, Some (dup_val val)) :: rest /\
  pauserehash d' = pauserehash d.
Proof.
  intros Hok Hloc Hnv.
  pose proof (located_bucket _ _ _ _ _ Hok Hloc) as (_ & _ & _ & Ht & HN & _ & Hheok & _ & (_ & tl' & _ & _ & Hhe') & _).
  assert (exists he', dictSetVal he val = Some he' /\ emit_chain he' = (kv.1, Some (dup_val val)) :: tl' /\
    (chain_ok he -> chain_ok he')) as (he' & Hset & Hemit' & Hok').
  { destruct he; cbn in *; [done|destruct Hheok; congruence..|]. eexists. split; [done|].
    injection Hhe' as <- <-. done. }
  destruct (update_entry_eq d key e he kv he' (fun de => dictSetVal de val) Hok Hloc Hset Hok')
    as (c & c' & pre & tl & Hu & Hgb & Hc'ok & HcN & Hhe & Hc & Hc' & Hp).
  rewrite Hhe in Hhe'. injection Hhe' as <-. rewrite Hemit' in Hc'.
  assert (Forall (placed (ht_size_exp (ht d e.1.1)) e.1.2) (emit_chain c')) as Hp'.
  { rewrite Hc', Hc in *. apply Forall_app in Hp as [? Hp]. apply Forall_cons in Hp as [? ?].
    apply Forall_app. split; [done|]. by constructor. }
  destruct (dict_ok_bucket d _ _ c c' (ht_used (ht d e.1.1)) Hok Ht Hgb Hc'ok Hp') as (rest & Hq & Hq' & Hokd).
  { rewrite Hc, Hc'. zlia. }
  { done. }
  eexists _, (pre ++ tl ++ rest). split; [done|].
  assert (dict_entries d ≡ₚ kv :: (pre ++ tl ++ rest)) as Hperm by (rewrite Hq, Hc; solve_Permutation).
  assert (emit_chain c' ++ rest ≡ₚ (kv.1, Some (dup_val val)) :: (pre ++ tl ++ rest)) as Hperm'
    by (rewrite Hc'; solve_Permutation).
  destruct Hok as (_ & _ & _ & Hdis & Hlen). split_and!; [|done|by rewrite Hq'|by destruct Ht as [-> | ->]].
  apply Hokd; unfold zlen in *; rewrite Hperm'.
  - rewrite Hperm in Hdis. apply distinct_cons. by apply distinct_cons in Hdis.
  - rewrite Hperm in Hlen. cbn [length] in *. lia.
Qed.

(** ** Inserting *)

Definition target (d : dict) : Z := if dictIsRehashing d then 1 else 0.

Lemma target_ok d :
  dict_ok d -> ht_table (ht0 d) <> None ->
  (target d = 0 \/ target d = 1) /\ exists l, ht_table (ht d (target d)) = Some l /\
  tbl_ok (ht_size_exp (ht d (target d))) l /\ 0 <= ht_used (ht d (target d)) <= zlen (dict_entries d).
Proof.
  intros Hok Htbl. assert (exists l, ht_table (ht d (target d)) = Some l) as (l & Hl).
  { unfold target. destruct (dictIsRehashing d) eqn:Hre.
    - destruct (rehashing_tables d Hok Hre) as (l0 & l1 & Hl0 & Hl1 & _). by exists l1.
    - tables. destruct (ht_table (ht0 d)); [by eexists|done]. }
  assert (target d = 0 \/ target d = 1) as Ht by (unfold target; destruct (dictIsRehashing d); lia).
  pose proof (ht_ok_ht d (target d) Hok) as Hh. unfold ht_ok in Hh. rewrite Hl in Hh. destruct Hh as [Htb Hused].
  split; [done|]. exists l. split; [done|]. split; [done|]. rewrite Hused. unfold dict_entries, ht_entries.
  destruct Ht as [Ht|Ht]; rewrite Ht in Hl; tables; rewrite Hl; zlia.
Qed.

(** The entry that [dictInsertAtPosition] links in front of the bucket [b]. *)
Lemma new_entry_ok k b :
  key_ok k -> chain_ok b ->
  exists de, (if no_value type then
      if keys_are_odd type && is_null b then
        _ ← assert (key_is_odd type k = true); Some (IsKey k)
      else Some (NoValue k b)
    else Some (Normal k None b)) = Some de /\
  emit_chain de = (k, None) :: emit_chain b /\ chain_ok de /\ is_null de = false.
Proof.
  unfold key_ok. intros Hko Hb. destruct (no_value type) eqn:Hnv; [|by eexists].
  destruct (keys_are_odd type && is_null b) eqn:Eb; [|by eexists].
  apply andb_true_iff in Eb as [Hodd Eb]. rewrite assert_True by auto.
  eexists. split; [done|]. cbn. by rewrite emit_null.
Qed.

Lemma insert_ok d key k :
  dict_ok d -> ht_table (ht0 d) <> None -> matching key (dict_entries d) = [] -> key_match key k = true -> key_ok k ->
  zlen (dict_entries d) + 1 < 2 ^ 64 ->
  let idx := Z.land (hashFunction type key) (DICTHT_SIZE_MASK (ht_size_exp (ht d (target d)))) in
  exists d' he, dictInsertAtPosition d k (target d, idx) = Some (d', (target d, idx, O)) /\ dict_ok d' /\
  located d' key (target d, idx, O) he (k, None) /\
  dict_entries d' ≡ₚ (k, None) :: dict_entries d /\ pauserehash d' = pauserehash d.
Proof.
  intros Hok Htbl Hm Hk Hko Hlen idx. destruct (target_ok d Hok Htbl) as (Ht & l & Hl & Htb & Hle).
  pose proof Htb as (Hexp & Hlenl & Hall). subst idx. rewrite DICTHT_SIZE_MASK_pow by done. set (idx := Z.land _ _).
  assert (0 <= idx < 2 ^ ht_size_exp (ht d (target d))) as Hidx by (apply land_mask_range; lia).
  destruct (peek_Some l idx ltac:(lia)) as (b & Hb).
  assert (get_bucket d (target d) idx = Some b) as Hgb by (unfold get_bucket; by rewrite Hl).
  apply peek_inv in Hb as [_ Hb]. destruct (Hall _ _ Hb) as [Hbok Hbp]. rewrite Z2Nat.id in Hbp by lia.
  destruct (new_entry_ok k b Hko Hbok) as (de & Hde & Hemit & Hdeok & HN).
  unfold dictInsertAtPosition. fold (target d). rewrite (assert_True (_ /\ _)) by (rewrite DICTHT_SIZE_MASK_pow by done; cbn; lia).
  cbn [mbind option_bind fst snd]. rewrite Hgb. cbn [mbind option_bind]. rewrite Hde. cbn [mbind option_bind].
  rewrite (set_bucket_eq _ _ _ _ _ Hgb). cbn [mbind option_bind]. rewrite add_used_with.
  rewrite (uwrap_small 64) by (unfold in_u; lia). exists (with_bucket d (target d) idx de (ht_used (ht d (target d)) + 1)), de.
  split; [done|].
  destruct (dict_ok_bucket d (target d) idx b de (ht_used (ht d (target d)) + 1) Hok Ht Hgb Hdeok) as (rest & Hq & Hq' & Hokd).
  { rewrite Hemit. constructor; [|done]. split; [|done]. cbn. rewrite <- (match_hash _ _ Hk). done. }
  { rewrite Hemit. zlia. }
  { unfold target. intros _ Ht0 Hre. by rewrite Hre in Ht0. }
  rewrite Hemit in *. cbn [app] in *. rewrite <- Hq in *. split_and!; [| |done|by destruct Ht as [-> | ->]].
  - destruct Hok as (_ & _ & _ & Hdis & _). apply Hokd; [|unfold zlen in *; rewrite <- Hq; cbn [length]; lia].
    rewrite <- Hq. apply distinct_cons. split; [|done]. cbn. rewrite <- Hm. unfold matching. apply list_filter_iff.
    intros e. rewrite match_sym, <- (match_eq _ _ e.1 Hk), match_sym. done.
  - split; [done|]. exists de, (emit_chain b). split_and!; [|by cbn; rewrite HN|done|done].
    unfold get_bucket, with_bucket. rewrite ht_set_ht, Hl. fields. unfold peek. rewrite decide_True by lia.
    apply list_lookup_insert_eq. zlia.
Qed.

(** ** The operations *)

Lemma dictFind_ok d key :
  dict_ok d ->
  exists d' r, dictFind d key = Some (d', r) /\ same_dict d d' /\
  match r with
  | None => matching key (dict_entries d) = []
  | Some e => exists he kv, located d' key e he kv
  end.
Proof.
  intros Hok. unfold dictFind. destruct (decide (dictSize d = 0)) as [Hz|Hz].
  { exists d, None. split_and!; try done. rewrite dictSize_entries in Hz by done. apply zlen_0 in Hz. by rewrite Hz. }
  destruct (rehash_if_rehashing_ok d Hok) as (d1 & -> & Hs). cbn [mbind option_bind].
  destruct (search_tables_ok d1 key) as (r & -> & Hr); [apply Hs| |].
  { apply nonempty_table; [apply Hs|]. destruct Hs as (_ & Hp & _). intros Hnil. rewrite Hnil in Hp.
    apply Permutation_nil in Hp. rewrite dictSize_entries, Hp in Hz by done. done. }
  exists d1, r. split; [done|]. split; [done|]. destruct r; [done|].
  destruct Hs as (_ & Hp & _). pose proof (matching_proper key _ _ Hp) as Hq. rewrite Hr in Hq.
  by apply Permutation_nil in Hq.
Qed.

Lemma ExpandIfNeeded_ok d :
  dict_ok d -> zlen (dict_entries d) < 2 ^ 60 ->
  exists d', _dictExpandIfNeeded d = (d', DICT_OK) /\ same_dict d d' /\ ht_table (ht0 d') <> None.
Proof.
  intros Hok Hlen. pose proof Hok as (H0 & _ & Hr & _).
  assert (ht_used (ht0 d) <= zlen (dict_entries d) /\ 0 <= ht_used (ht0 d)) as [Hu Hu'].
  { unfold ht_ok, dict_entries, ht_entries in *. destruct (ht_table (ht0 d)); destruct H0; zlia. }
  assert (forall size, ht_used (ht0 d) <= size -> 0 <= size <= 2 ^ 60 -> dictIsRehashing d = false ->
    _dictNextExp size <> ht_size_exp (ht0 d) ->
    exists d', dictExpand d size = (d', DICT_OK) /\ same_dict d d' /\ ht_table (ht0 d') <> None) as Hexpand.
  { intros size Hle Hs Hre Hne. destruct (dictExpand_ok d size Hok ltac:(lia)) as (Hok' & He & Hp).
    destruct (dictNextExp_bounds size ltac:(lia)) as [Hb Hb']. destruct Hb' as [Hb1 Hb2]; [lia|].
    pose proof (newsize_fits (_dictNextExp size) ltac:(lia)).
    exists (dictExpand d size).1. revert Hok' He Hp. unfold dictExpand, _dictExpand. rewrite Hre.
    rewrite bool_decide_eq_false_2 by lia. cbn [orb]. replace (u64 (Z.shiftl 1 (_dictNextExp size))) with (2 ^ _dictNextExp size).
    2: { rewrite <- DICTHT_SIZE_pow by lia. unfold DICTHT_SIZE. rewrite (decide_False (P := _ = -1)) by lia. done. }
    rewrite decide_False by lia. rewrite decide_False by done. cbn [default].
    destruct (ht_table (ht0 d)) eqn:E0; fields; intros Hok' He Hp; (split; [done|]; split; [split_and!; [done|by rewrite He|done]|]);
      tables; congruence. }
  unfold _dictExpandIfNeeded. destruct (dictIsRehashing d) eqn:Hre.
  { exists d. split; [done|]. split; [done|]. destruct (rehashing_tables d Hok Hre) as (l0 & l1 & -> & _). done. }
  unfold ht_ok in H0. destruct (ht_table (ht0 d)) as [l0|] eqn:E0.
  - destruct H0 as [Ht0 Hused]. rewrite DICTHT_SIZE_pow by apply Ht0. pose proof (pow2_ge_4 (ht_size_exp (ht0 d)) ltac:(apply Ht0)).
    rewrite decide_False by lia. destruct (decide _) as [Hgrow|_]; [|exists d; split_and!; try done; congruence].
    destruct (dictTypeExpandAllowed d); cbn [negb]; [|exists d; split_and!; try done; congruence].
    assert (2 ^ ht_size_exp (ht0 d) <= ht_used (ht0 d)) as Hfull.
    { destruct Hgrow as [[_ ?]|[_ Hq]]; [lia|]. unfold dict_force_resize_ratio in Hq.
      pose proof (Z.mul_div_le (ht_used (ht0 d)) (2 ^ ht_size_exp (ht0 d)) ltac:(lia)). nia. }
    unfold u64. rewrite uwrap_small by (unfold in_u; lia).
    apply Hexpand; [lia|lia|done|]. destruct (dictNextExp_bounds (ht_used (ht0 d) + 1) ltac:(lia)) as [_ Hb].
    intros He. rewrite He in Hb. lia.
  - destruct H0 as [Hu0 He]. rewrite He. rewrite decide_True by done. apply Hexpand; [rewrite Hu0; done|done|done|].
    rewrite He. done.
Qed.

Definition dup_key (key : K) : K := match keyDup type with Some f => f key | None => key end.

Lemma dup_key_match key : key_match key (dup_key key) = true.
Proof. unfold dup_key. destruct (keyDup type) eqn:E; [by apply dup_match|apply match_refl]. Qed.

Lemma dictAddRaw_ok d key :
  dict_ok d -> zlen (dict_entries d) < 2 ^ 60 -> key_ok (dup_key key) ->
  exists d' r existing, dictAddRaw d key = Some (d', r, existing) /\ dict_ok d' /\ pauserehash d' = pauserehash d /\
  match r with
  | None => same_dict d d' /\ exists e he kv, existing = Some e /\ located d' key e he kv
  | Some e => existing = None /\ matching key (dict_entries d) = [] /\
      dict_entries d' ≡ₚ (dup_key key, None) :: dict_entries d /\
      exists he, located d' key e he (dup_key key, None)
  end.
Proof.
  intros Hok Hlen Hko. unfold dictAddRaw, dictFindPositionForInsert.
  destruct (rehash_if_rehashing_ok d Hok) as (d1 & -> & Hs1). cbn [mbind option_bind].
  assert (zlen (dict_entries d1) = zlen (dict_entries d)) as Hlen1.
  { destruct Hs1 as (_ & Hp & _). unfold zlen. by rewrite Hp. }
  destruct (ExpandIfNeeded_ok d1) as (d2 & -> & Hs2 & Htbl); [apply Hs1|lia|].
  rewrite decide_False by done. pose proof (same_dict_trans _ _ _ Hs1 Hs2) as Hs.
  destruct (search_tables_ok d2 key) as (r & -> & Hr); [apply Hs|done|]. cbn [mbind option_bind].
  pose proof Hs as (Hok2 & Hp2 & Hpause). destruct r as [e|].
  - exists d2, None, (Some e). destruct Hr as (he & kv & Hloc). split_and!; try done. by exists e, he, kv.
  - cbn [mbind option_bind]. fold (target d2). fold (dup_key key).
    destruct (insert_ok d2 key (dup_key key) Hok2 Htbl Hr (dup_key_match key) Hko) as (d' & he & -> & Hok' & Hloc & Hp' & Hpause').
    { unfold zlen in *. rewrite Hp2. lia. }
    cbn [mbind option_bind]. eexists d', (Some _), None. split; [done|]. rewrite Hp2 in Hp'.
    split_and!; try done; [congruence| |by exists he].
    pose proof (matching_proper key _ _ Hp2) as Hq. rewrite Hr in Hq. by apply Permutation_nil in Hq.
Qed.

(** ** Refinement of an association list *)

(** The value stored by an insertion, and the destructor calls for an entry. *)
Definition new_val (val : V) : option V := if no_value type then None else Some (dup_val val).

Definition free_entry (e : K * option V) : list destroyed :=
  (if keyDestructor type then [DestroyKey e.1] else []) ++
  (if valDestructor type then match e.2 with Some v => [DestroyVal v] | None => [] end else []).

Definition spec_find (es : list (K * option V)) (key : K) : option (K * option V) := head (matching key es).

Definition spec_add (es : list (K * option V)) (key : K) (val : V) : list (K * option V) * Z :=
  match matching key es with
  | [] => ((dup_key key, new_val val) :: es, DICT_OK)
  | _ => (es, DICT_ERR)
  end.

Definition spec_replace (es : list (K * option V)) (key : K) (val : V) : list (K * option V) * Z * list destroyed :=
  match matching key es with
  | [] => ((dup_key key, Some (dup_val val)) :: es, 1, [])
  | e :: _ => ((fun e => if key_match key e.1 then (e.1, Some (dup_val val)) else e) <$> es, 0,
               if valDestructor type then match e.2 with Some v => [DestroyVal v] | None => [] end else [])
  end.

Definition spec_delete (es : list (K * option V)) (key : K) : list (K * option V) * Z * list destroyed :=
  match matching key es with
  | [] => (es, DICT_ERR, [])
  | e :: _ => (filter (fun e => key_match key e.1 = false) es, DICT_OK, free_entry e)
  end.

(** Every entry of a dictionary with values has its value. *)
Definition vals_ok (es : list (K * option V)) : Prop := no_value type = false -> Forall (fun e => is_Some e.2) es.

(** The dictionary [d] implements the association list [es]. *)
Definition implements (d : dict) (es : list (K * option V)) : Prop :=
  dict_ok d /\ dict_entries d ≡ₚ es /\ vals_ok es.

#[local] Instance vals_ok_proper : Proper ((≡ₚ) ==> iff) vals_ok.
Proof. intros es es' H. unfold vals_ok. by rewrite H. Qed.

Lemma implements_matching d es key : implements d es -> matching key (dict_entries d) = matching key es.
Proof.
  intros ((_ & _ & _ & Hd & _) & Hp & _). pose proof (matching_proper key _ _ Hp) as Hq.
  specialize (Hd key). destruct (matching key (dict_entries d)) as [|a [|b l]]; [|simpl|simpl in Hd; lia].
  - by apply Permutation_nil in Hq.
  - by apply Permutation_singleton_l in Hq.
Qed.

Lemma implements_same d d' es : implements d es -> same_dict d d' -> implements d' es.
Proof. intros (_ & Hp & Hv) (Hok & Hp' & _). split_and!; [done|by rewrite Hp'|done]. Qed.

(** How the specification acts on a list split at the matching entry. *)
Lemma no_match_filter key (es : list (K * option V)) :
  Forall (fun e : K * option V => key_match key e.1 = false) es -> filter (fun e : K * option V => key_match key e.1 = false) es = es.
Proof. induction 1 as [|e l He _ IH]; [done|]. rewrite filter_cons, decide_True by done. by rewrite IH. Qed.

Lemma no_match_fmap key (es : list (K * option V)) v :
  Forall (fun e : K * option V => key_match key e.1 = false) es ->
  ((fun e : K * option V => if key_match key e.1 then (e.1, v) else e) <$> es) = es.
Proof. induction 1 as [|e l He _ IH]; [done|]. rewrite fmap_cons, He. by rewrite IH. Qed.

Lemma matching_split (es : list (K * option V)) key kv rest :
  distinct es -> es ≡ₚ kv :: rest -> key_match key kv.1 = true ->
  matching key es = [kv] /\ filter (fun e : K * option V => key_match key e.1 = false) es ≡ₚ rest /\
  forall v, ((fun e : K * option V => if key_match key e.1 then (e.1, v) else e) <$> es) ≡ₚ (kv.1, v) :: rest.
Proof.
  intros Hd Hp Hm. assert (kv ∈ es) as Hin by (rewrite Hp; set_solver).
  split; [by apply distinct_matching|]. rewrite Hp in Hd. apply distinct_cons in Hd as [Hno _].
  apply matching_nil in Hno. assert (Forall (fun e : K * option V => key_match key e.1 = false) rest) as Hno'.
  { eapply Forall_impl; [exact Hno|]. intros e He. cbn in *.
    rewrite match_sym, (match_eq _ _ e.1 Hm), match_sym. done. }
  split.
  - rewrite Hp, filter_cons. rewrite decide_False by congruence. by rewrite no_match_filter.
  - intros v. rewrite Hp, fmap_cons, Hm. by rewrite no_match_fmap.
Qed.

Lemma dictFind_refines d es key :
  implements d es ->
  exists d' r, dictFind d key = Some (d', r) /\ implements d' es /\
  match r with
  | None => spec_find es key = None
  | Some e => exists he kv, deref d' e = Some he /\ dictGetKey he = Some kv.1 /\ dictGetVal he = kv.2 /\
      spec_find es key = Some kv
  end.
Proof.
  intros Hi. destruct (dictFind_ok d key (proj1 Hi)) as (d' & r & Hf & Hs & Hr).
  exists d', r. pose proof (implements_same _ _ _ Hi Hs) as Hi'. split; [done|]. split; [done|].
  unfold spec_find. destruct r as [e|].
  - destruct Hr as (he & kv & Hloc). exists he, kv. destruct (located_deref _ _ _ _ _ Hloc) as (? & ? & ?).
    destruct (located_matching _ _ _ _ _ (proj1 Hi') Hloc) as [_ Hm]. rewrite (implements_matching d' es key Hi') in Hm.
    split_and!; try done. by rewrite Hm.
  - rewrite (implements_matching d es key Hi) in Hr. by rewrite Hr.
Qed.

Lemma dictAdd_refines d es key val :
  implements d es -> zlen es < 2 ^ 60 -> key_ok (dup_key key) ->
  exists d' ret, dictAdd d key val = Some (d', ret) /\ ret = (spec_add es key val).2 /\
  implements d' (spec_add es key val).1.
Proof.
  intros Hi Hlen Hko. pose proof Hi as (Hok & Hp & Hv).
  destruct (dictAddRaw_ok d key Hok) as (d1 & r & ex & Hadd & Hok1 & _ & Hr); [unfold zlen in *; by rewrite Hp|done|].
  unfold dictAdd, spec_add. rewrite Hadd. cbn [mbind option_bind]. rewrite <- (implements_matching d es key Hi).
  destruct r as [e|].
  - destruct Hr as (-> & Hm & Hp1 & he & Hloc). rewrite Hm. unfold new_val. destruct (no_value type) eqn:Hnv.
    + eexists _, _. split; [done|]. split; [done|]. split_and!; [done|by rewrite Hp1, Hp|by intros ?; congruence].
    + destruct (set_val_ok d1 key e he _ val Hok1 Hloc Hnv) as (d2 & rest & -> & Hok2 & Hq & Hq' & _). cbn [mbind option_bind].
      eexists _, _. split; [done|]. split; [done|].
      rewrite Hq in Hp1. apply Permutation_cons_inv in Hp1. rewrite Hp1, Hp in Hq'. split_and!; [done|done|].
      intros _. constructor; [by eexists|]. by apply Hv.
  - destruct Hr as (Hs & e & he & kv & -> & Hloc). destruct (located_matching _ _ _ _ _ Hok1 Hloc) as [_ Hm].
    pose proof (implements_same _ _ _ Hi Hs) as Hi1.
    rewrite (implements_matching d es key Hi), <- (implements_matching d1 es key Hi1), Hm.
    eexists _, _. done.
Qed.

Lemma dictReplace_refines d es key val :
  implements d es -> zlen es < 2 ^ 60 -> key_ok (dup_key key) -> no_value type = false ->
  exists d' ret freed, dictReplace d key val = Some (d', ret, freed) /\ (ret, freed) = ((spec_replace es key val).1.2, (spec_replace es key val).2) /\
  implements d' (spec_replace es key val).1.1.
Proof.
  intros Hi Hlen Hko Hnv. pose proof Hi as (Hok & Hp & Hv).
  destruct (dictAddRaw_ok d key Hok) as (d1 & r & ex & Hadd & Hok1 & _ & Hr); [unfold zlen in *; by rewrite Hp|done|].
  unfold dictReplace, spec_replace. rewrite Hadd. cbn [mbind option_bind]. rewrite <- (implements_matching d es key Hi).
  destruct r as [e|].
  - destruct Hr as (-> & Hm & Hp1 & he & Hloc). rewrite Hm.
    destruct (set_val_ok d1 key e he _ val Hok1 Hloc Hnv) as (d2 & rest & -> & Hok2 & Hq & Hq' & _). cbn [mbind option_bind].
    eexists _, _, _. split; [done|]. split; [done|].
    rewrite Hq in Hp1. apply Permutation_cons_inv in Hp1. rewrite Hp1, Hp in Hq'. split_and!; [done|done|].
    intros _. constructor; [by eexists|]. by apply Hv.
  - destruct Hr as (Hs & e & he & kv & -> & Hloc). destruct (located_matching _ _ _ _ _ Hok1 Hloc) as [Hin Hm].
    pose proof (implements_same _ _ _ Hi Hs) as Hi1. pose proof Hi1 as (_ & Hp1 & _).
    rewrite (implements_matching d es key Hi), <- (implements_matching d1 es key Hi1), Hm. cbn [mbind option_bind].
    destruct (located_deref _ _ _ _ _ Hloc) as (-> & _ & Hgv). cbn [mbind option_bind]. rewrite Hgv.
    assert (is_Some kv.2) as [ov Hov].
    { specialize (Hv Hnv). rewrite Forall_forall in Hv. apply Hv. by rewrite <- Hp1. }
    rewrite Hov. cbn [mbind option_bind].
    destruct (set_val_ok d1 key e he kv val Hok1 Hloc Hnv) as (d2 & rest & -> & Hok2 & Hq & Hq' & _). cbn [mbind option_bind].
    eexists _, _, _. split; [done|]. split; [done|]. cbn [fst]. rewrite Hp1 in Hq.
    assert (key_match key kv.1 = true) as Hk by (destruct e as [[? ?] ?]; destruct Hloc as (_ & c & tl & _ & _ & _ & Hk); done).
    destruct (matching_split es key kv rest) as (_ & _ & Hfm); [|done|done|].
    { rewrite <- Hp1. apply Hok1. }
    split_and!; [done|by rewrite Hq', Hfm|]. rewrite Hfm. rewrite Hq in Hv. intros Hnv'. specialize (Hv Hnv').
    apply Forall_cons in Hv as [_ Hv]. constructor; [by eexists|done].
Qed.

Lemma free_entry_ok he kv :
  dictGetKey he = Some kv.1 -> dictGetVal he = kv.2 -> (valDestructor type = true -> is_Some kv.2) ->
  dictFreeUnlinkedEntry he = Some (free_entry kv).
Proof.
  intros Hk Hv Hd. unfold dictFreeUnlinkedEntry, dictFreeKey, dictFreeVal, free_entry.
  destruct (is_null he) eqn:E; [by destruct he|]. rewrite Hk, Hv. destruct (valDestructor type).
  - destruct (Hd eq_refl) as [v ->]. by destruct (keyDestructor type).
  - by destruct (keyDestructor type).
Qed.

Lemma implements_delete d d' es key kv :
  implements d es -> dict_ok d' -> dict_entries d ≡ₚ kv :: dict_entries d' -> key_match key kv.1 = true ->
  matching key es = [kv] /\ implements d' (filter (fun e : K * option V => key_match key e.1 = false) es).
Proof.
  intros (Hok & Hp & Hv) Hok' Hperm Hk. rewrite Hp in Hperm.
  destruct (matching_split es key kv (dict_entries d')) as (Hm & Hfilter & _); [|done|done|].
  { rewrite <- Hp. apply Hok. }
  split; [done|]. split_and!; [done|by rewrite Hfilter|]. rewrite Hfilter. rewrite Hperm in Hv.
  intros Hnv. specialize (Hv Hnv). by apply Forall_cons in Hv as [].
Qed.

Lemma dictDelete_refines d es key :
  implements d es -> (valDestructor type = true -> no_value type = false) ->
  exists d' ret freed, dictDelete d key = Some (d', ret, freed) /\
  (ret, freed) = ((spec_delete es key).1.2, (spec_delete es key).2) /\
  implements d' (spec_delete es key).1.1.
Proof.
  intros Hi Hvd. destruct (dictFind_ok d key (proj1 Hi)) as (d1 & r & Hf & Hs & Hr).
  pose proof (implements_same _ _ _ Hi Hs) as Hi1. unfold dictFind in Hf.
  unfold dictDelete, dictGenericDelete, spec_delete. destruct (decide (dictSize d = 0)) as [Hz|Hz].
  { injection Hf as <- <-. rewrite (implements_matching d es key Hi) in Hr. rewrite Hr. eexists _, _, _. done. }
  unbind Hf. unbind Hf. injection Hf as -> ->. rewrite E. cbn [mbind option_bind]. rewrite E0. cbn [mbind option_bind].
  destruct r as [e|].
  - destruct Hr as (he & kv & Hloc). destruct (located_deref _ _ _ _ _ Hloc) as (-> & Hgk & Hgv). cbn [mbind option_bind].
    destruct (unlink_ok d1 key e he kv (proj1 Hi1) Hloc) as (d2 & -> & Hok2 & Hp2 & _). cbn [mbind option_bind].
    assert (key_match key kv.1 = true) as Hk by (destruct e as [[? ?] ?]; destruct Hloc as (_ & c & tl & _ & _ & _ & Hk); done).
    destruct (implements_delete _ _ _ key _ Hi1 Hok2 Hp2 Hk) as [Hm Hi2]. rewrite Hm.
    rewrite (free_entry_ok he kv Hgk Hgv). 2: { intros Hd. destruct Hi as (_ & _ & Hv). specialize (Hv (Hvd Hd)).
      rewrite Forall_forall in Hv. apply Hv. assert (kv ∈ matching key es) as Hin by (rewrite Hm; set_solver).
      by apply list_elem_of_filter in Hin as [_ ?]. }
    cbn [mbind option_bind]. eexists _, _, _. done.
  - rewrite (implements_matching d es key Hi) in Hr. rewrite Hr. eexists _, _, _. done.
Qed.

(** ** Emptying *)

Lemma add_used_add_used d i a b :
  add_used (add_used d i a) i b = add_used d i (a + b).
Proof.
  unfold add_used. rewrite ht_set_ht, set_ht_set_ht. fields. do 2 f_equal. unfold u64, uwrap.
  rewrite Zplus_mod_idemp_l. f_equal. lia.
Qed.

Lemma add_used_0 d i : (i = 0 \/ i = 1) -> 0 <= ht_used (ht d i) < 2 ^ 64 -> add_used d i 0 = d.
Proof.
  intros Hi Hu. unfold add_used. rewrite Z.add_0_r, (uwrap_small 64) by done.
  destruct d as [[] [] ? ?], Hi as [-> | ->]; done.
Qed.

(** The values of the entries that a destructor reads are initialised. *)
Definition freeable (es : list (K * option V)) : Prop :=
  Forall (fun e => valDestructor type = true -> is_Some e.2) es.

Lemma free_key_val he kv :
  he <> NULL -> dictGetKey he = Some kv.1 -> dictGetVal he = kv.2 -> (valDestructor type = true -> is_Some kv.2) ->
  exists fk fv, dictFreeKey he = Some fk /\ dictFreeVal he = Some fv /\ fk ++ fv = free_entry kv.
Proof.
  intros HN Hk Hv Hd. pose proof (free_entry_ok he kv Hk Hv Hd) as H. unfold dictFreeUnlinkedEntry in H.
  destruct (is_null he) eqn:E; [by apply is_null_spec in E|]. unbind H. unbind H. injection H as H. eauto.
Qed.

(** Clearing a chain destroys its entries and counts them off. *)
Definition chain_clears (c : dictEntry) : Prop := forall d i,
  freeable (emit_chain c) -> (i = 0 \/ i = 1) -> zlen (emit_chain c) <= ht_used (ht d i) < 2 ^ 64 ->
  clear_chain d i c = Some (add_used d i (- zlen (emit_chain c)), emit_chain c ≫= free_entry).

Lemma chain_clears_step c next kv :
  c <> NULL -> emit_chain c = kv :: emit_chain next -> dictGetKey c = Some kv.1 -> dictGetVal c = kv.2 ->
  (forall d i, clear_chain d i c = fk ← dictFreeKey c; fv ← dictFreeVal c;
    '(d, fs) ← clear_chain (add_used d i (-1)) i next; Some (d, fk ++ fv ++ fs)) ->
  chain_clears next -> chain_clears c.
Proof.
  intros HN He Hk Hv Heq IH d i Hf Hi Hu. rewrite Heq, He in *.
  apply Forall_cons in Hf as [Hf1 Hf]. destruct (free_key_val c kv HN Hk Hv Hf1) as (fk & fv & -> & -> & Hfkv).
  cbn [mbind option_bind]. rewrite IH; [|done|done|].
  2: { unfold add_used. rewrite ht_set_ht. fields. unfold u64. rewrite (uwrap_small 64) by (unfold in_u; zlia). zlia. }
  cbn [mbind option_bind]. rewrite add_used_add_used, zlen_cons, bind_cons, <- Hfkv, app_assoc. do 3 f_equal. lia.
Qed.

Lemma clear_chain_ok c : chain_clears c.
Proof.
  assert (chain_clears NULL) as Hnull.
  { intros d i _ Hi Hu. cbn [clear_chain emit_chain]. by rewrite add_used_0 by (done || cbn in Hu; lia). }
  induction c as [|k|k n IH|k v n IH]; [done| | |].
  - apply (chain_clears_step _ NULL (k, None)); try done. intros d' i'. cbn [clear_chain].
    destruct (dictFreeKey (IsKey k)), (dictFreeVal (IsKey k)); cbn [mbind option_bind]; try done. by rewrite app_nil_r.
  - by apply (chain_clears_step _ n (k, None)).
  - by apply (chain_clears_step _ n (k, v)).
Qed.

Lemma clear_loop_ok n : forall d i j l,
  ht_table (ht d i) = Some l -> (i = 0 \/ i = 1) -> 0 <= j -> j + Z.of_nat n = zlen l ->
  freeable (tbl_entries l) -> ht_used (ht d i) = zlen (tbl_entries (drop (Z.to_nat j) l)) ->
  zlen (tbl_entries l) < 2 ^ 64 ->
  exists d', clear_loop n d i j = Some (d', tbl_entries (drop (Z.to_nat j) l) ≫= free_entry) /\
  _dictReset d' i = _dictReset d i.
Proof.
  induction n as [|n IH]; intros d i j l Hl Hi Hj Hn Hf Hu Hlen; cbn [clear_loop].
  { exists d. rewrite drop_ge by zlia. done. }
  destruct (decide (ht_used (ht d i) > 0)) as [Hpos|Hpos].
  - destruct (peek_Some l j ltac:(zlia)) as (c & Hc). unfold get_bucket. rewrite Hl. cbn [mbind option_bind].
    rewrite Hc. cbn [mbind option_bind]. apply peek_inv in Hc as [_ Hc].
    rewrite <- (take_drop (Z.to_nat j) l) in Hf, Hlen. unfold tbl_entries in Hf, Hlen. rewrite bind_app in Hf, Hlen.
    rewrite (drop_S _ _ _ Hc) in *. unfold tbl_entries in Hu |- *. rewrite bind_cons in *.
    apply Forall_app in Hf as [Hf0 Hf]. apply Forall_app in Hf as [Hf1 Hf2].
    rewrite clear_chain_ok; [|done|done|rewrite Hu; zlia]. cbn [mbind option_bind].
    set (d1 := add_used d i _).
    assert (ht_used (ht d1 i) = zlen (tbl_entries (drop (S (Z.to_nat j)) l))) as Hu1.
    { subst d1. unfold add_used. rewrite ht_set_ht. fields. rewrite Hu. rewrite zlen_app.
      rewrite (uwrap_small 64); [unfold tbl_entries; lia|unfold in_u; zlia]. }
    replace (S (Z.to_nat j)) with (Z.to_nat (j + 1)) in * by lia.
    destruct (IH d1 i (j + 1) l) as (d' & -> & Hres); try done.
    + subst d1. unfold add_used. by rewrite ht_set_ht.
    + lia.
    + lia.
    + unfold freeable, tbl_entries. rewrite <- (take_drop_middle l _ c Hc). rewrite bind_app, bind_cons.
      rewrite !Forall_app. by replace (S (Z.to_nat j)) with (Z.to_nat (j + 1)) by lia.
    + unfold tbl_entries. rewrite <- (take_drop_middle l _ c Hc). rewrite bind_app, bind_cons.
      by replace (S (Z.to_nat j)) with (Z.to_nat (j + 1)) by lia.
    + cbn [mbind option_bind]. exists d'. split; [by rewrite bind_app|]. rewrite Hres.
      subst d1. unfold _dictReset, add_used. by rewrite set_ht_set_ht.
  - exists d. split; [|done]. replace (tbl_entries (drop (Z.to_nat j) l)) with (@nil (K * option V)); [done|].
    symmetry. apply zlen_0. zlia.
Qed.

Lemma dictClear_ok d i :
  ht_ok (ht d i) -> (i = 0 \/ i = 1) -> freeable (ht_entries (ht d i)) -> zlen (ht_entries (ht d i)) < 2 ^ 64 ->
  _dictClear d i = Some (_dictReset d i, ht_entries (ht d i) ≫= free_entry).
Proof.
  intros Hok Hi Hf Hlen. unfold _dictClear, ht_ok, ht_entries in *. destruct (ht_table (ht d i)) as [l|] eqn:El.
  - destruct Hok as [(He & Hl & _) Hu]. rewrite DICTHT_SIZE_pow by done.
    destruct (clear_loop_ok (Z.to_nat (2 ^ ht_size_exp (ht d i))) d i 0 l) as (d' & -> & Hres); try done; [zlia|].
    cbn [mbind option_bind]. by rewrite Hres.
  - destruct Hok as [_ ->]. done.
Qed.

Lemma dict_ok_empty : dict_ok dictCreate.
Proof. split_and!; try done. intros key. cbn. lia. Qed.

(** [dictEmpty] destroys every entry once and leaves a new dictionary. *)
Lemma dictEmpty_ok d es :
  implements d es -> (valDestructor type = true -> no_value type = false) ->
  exists freed, dictEmpty d = Some (dictCreate, freed) /\ freed ≡ₚ es ≫= free_entry.
Proof.
  intros (Hok & Hp & Hv) Hvd. pose proof Hok as (H0 & H1 & _ & _ & Hlen).
  assert (freeable (dict_entries d)) as Hf.
  { rewrite <- Hp in Hv. apply Forall_forall. intros e He Hd. specialize (Hv (Hvd Hd)).
    rewrite Forall_forall in Hv. by apply Hv. }
  unfold dict_entries in Hf, Hlen. apply Forall_app in Hf as [Hf0 Hf1]. rewrite zlen_app in Hlen.
  unfold dictEmpty. rewrite dictClear_ok; [|done|lia|done|tables; zlia]. cbn [mbind option_bind].
  rewrite dictClear_ok; [|done|lia|done|unfold _dictReset; tables; zlia]. cbn [mbind option_bind].
  eexists. split; [done|]. unfold _dictReset. tables. rewrite <- Hp. unfold dict_entries. by rewrite bind_app.
Qed.

(** ** Two-phase unlinking *)

Lemma set_ht_pause d p i h : set_ht (set_pause d p) i h = set_pause (set_ht d i h) p.
Proof. unfold set_ht. by destruct (decide (i = 0)). Qed.

Lemma ht_pause d p i : ht (set_pause d p) i = ht d i.
Proof. done. Qed.

Lemma add_used_pause d p i n : add_used (set_pause d p) i n = set_pause (add_used d i n) p.
Proof. unfold add_used. by rewrite set_ht_pause, ht_pause. Qed.

Lemma update_entry_pause d p e f d' :
  update_entry d e f = Some d' -> update_entry (set_pause d p) e f = Some (set_pause d' p).
Proof.
  destruct e as [[t idx] n]. unfold update_entry, get_bucket, set_bucket. rewrite ht_pause. intros H.
  follow H. simplify_eq. by rewrite set_ht_pause.
Qed.

(** Looking up first and unlinking later is the same as deleting. *)
Lemma twoPhase_ok d es key :
  implements d es -> (valDestructor type = true -> no_value type = false) -> in_i 16 (pauserehash d) ->
  exists d1 e d2 freed ret, dictTwoPhaseUnlinkFind d key = Some (d1, e) /\
  dictTwoPhaseUnlinkFree d1 e = Some (d2, freed) /\ dictDelete d key = Some (d2, ret, freed) /\
  (ret = DICT_OK <-> is_Some e).
Proof.
  intros Hi Hvd Hpause. destruct (dictFind_ok d key (proj1 Hi)) as (d1 & r & Hf & Hs & Hr).
  destruct (dictDelete_refines d es key Hi Hvd) as (d2 & ret & freed & Hdel & _). pose proof Hdel as Hdel'.
  unfold dictFind in Hf. unfold dictDelete, dictGenericDelete in Hdel. unfold dictTwoPhaseUnlinkFind.
  destruct (decide (dictSize d = 0)) as [Hz|Hz].
  { injection Hdel as <- <- <-. exists d, None, d, [], DICT_ERR. by split_and!. }
  unbind Hf. unbind Hf. injection Hf as -> ->. rewrite E in *. cbn [mbind option_bind] in *. rewrite E0 in *.
  cbn [mbind option_bind] in *. destruct r as [e|]; 
    [|injection Hdel as <- <- <-; exists d1, None, d1, [], DICT_ERR; by split_and!].
  destruct Hr as (he & kv & Hloc). destruct (located_deref _ _ _ _ _ Hloc) as (Hderef & Hgk & Hgv).
  rewrite Hderef in Hdel. cbn [mbind option_bind] in Hdel.
  destruct (update_entry d1 e dictGetNext) as [d3|] eqn:Eu; [|done]. cbn [mbind option_bind] in Hdel.
  unfold dictFreeUnlinkedEntry in Hdel. destruct (is_null he) eqn:En.
  { apply is_null_spec in En as ->. done. }
  destruct (dictFreeKey he) as [fk|] eqn:Ek; [|done]. destruct (dictFreeVal he) as [fv|] eqn:Ev; [|done].
  cbn [mbind option_bind] in Hdel. injection Hdel as <- <- <-.
  exists (dictPauseRehashing d1), (Some e), (add_used d3 e.1.1 (-1)), (fk ++ fv), DICT_OK.
  split; [done|]. split; [|split; [done|by split]].
  unfold dictTwoPhaseUnlinkFree, dictPauseRehashing. replace (deref (set_pause d1 _) e) with (deref d1 e) by done.
  rewrite Hderef. cbn [mbind option_bind]. rewrite add_used_pause.
  rewrite (update_entry_pause _ _ _ _ _ (update_entry_add_used _ _ _ _ (-1) Eu)). cbn [mbind option_bind].
  rewrite Ek, Ev. cbn [mbind option_bind]. unfold dictResumeRehashing. fields. do 2 f_equal.
  assert (pauserehash (add_used d3 e.1.1 (-1)) = pauserehash d) as Hp.
  { destruct (unlink_ok d1 key e he kv (proj1 Hs) Hloc) as (d3' & Hu' & _ & _ & Hp). rewrite Eu in Hu'. injection Hu' as <-.
    rewrite Hp. apply Hs. }
  unfold set_pause. fields. transitivity (set_pause (add_used d3 e.1.1 (-1)) (pauserehash (add_used d3 e.1.1 (-1)))).
  - unfold set_pause. f_equal. rewrite Hp. destruct Hs as (_ & _ & ->). unfold i16, in_i, swrap in *. 
    replace ((pauserehash d + 1 + 2 ^ (16 - 1)) mod 2 ^ 16 - 2 ^ (16 - 1) - 1 + 2 ^ (16 - 1))
      with ((pauserehash d + 1 + 2 ^ (16 - 1)) mod 2 ^ 16 - 1) by lia.
    rewrite Zminus_mod_idemp_l. rewrite Z.mod_small; lia.
  - by destruct (add_used d3 e.1.1 (-1)).
Qed.

(** ** Termination of rehashing *)

(** Repeated calls of [dictRehash] finish within one call per bucket. *)
Fixpoint rehash_all (fuel : nat) (d : dict) (n : nat) : option dict :=
  match fuel with
  | O => None
  | S fuel => '(d, more) ← dictRehash d n; if decide (more = 0) then Some d else rehash_all fuel d n
  end.

Lemma rehash_all_ok n fuel : forall d,
  dict_ok d -> dict_can_resize = DICT_RESIZE_ENABLE -> (0 < n)%nat -> Z.of_nat n * 10 < 2 ^ 31 ->
  rehash_left d <= Z.of_nat fuel ->
  exists d', rehash_all (S fuel) d n = Some d' /\ same_dict d d' /\ dictIsRehashing d' = false.
Proof.
  induction fuel as [|fuel IH]; intros d Hok Hen Hn Hn' Hf;
    destruct (dictRehash_ok d n Hok Hn') as (d1 & r & Hr & Hs & Hnr & Hmore & Hprog);
    cbn [rehash_all]; rewrite Hr; cbn [mbind option_bind]; destruct (dictIsRehashing d) eqn:Hre.
  - pose proof (rehash_left_pos d Hok Hre). lia.
  - destruct (Hnr eq_refl) as [-> ->]. by exists d.
  - destruct (Hprog Hen eq_refl Hn) as [Hlt Hdone]. destruct (decide (r = 0)) as [->|Hr0].
    + exists d1. by split_and!; [|apply Hs..|apply Hdone].
    + destruct (IH d1 (proj1 Hs) Hen Hn Hn' ltac:(lia)) as (d' & Hd' & Hs' & Hend). exists d'.
      split; [exact Hd'|]. split; [by eapply same_dict_trans|done].
  - destruct (Hnr eq_refl) as [-> ->]. by exists d.
Qed.

End dict.

(** * Sequences of operations

    The resize policy is a global that changes between the calls (it follows the
    presence of a child process), so every operation carries its own. *)

Section sequences.
Context {K V : Type} `{EqDecision K}.
Variable type : @dictType K V.

Inductive dop :=
  | DAdd (k : K) (v : V)
  | DReplace (k : K) (v : V)
  | DDelete (k : K)
  | DFind (k : K)
  | DRehash (n : nat)
  | DExpand (size : Z)
  | DTryExpand (size : Z) (fails : bool)
  | DResize.

Inductive dres :=
  | RInt (ret : Z) (freed : list (@destroyed K V))
  | REntry (e : option (K * option V))
  | RUnit.

(** The model of one call and of a sequence of calls. *)
Definition run_op (policy : dictResizeEnable) (d : dict) (op : dop) : option (dict * dres) :=
  match op with
  | DAdd k v => '(d, r) ← dictAdd type policy d k v; Some (d, RInt r [])
  | DReplace k v => '(d, r, fs) ← dictReplace type policy d k v; Some (d, RInt r fs)
  | DDelete k => '(d, r, fs) ← dictDelete type policy d k; Some (d, RInt r fs)
  | DFind k =>
      '(d, r) ← dictFind type policy d k;
      match r with
      | None => Some (d, REntry None)
      | Some e => he ← deref d e; key ← dictGetKey he; Some (d, REntry (Some (key, dictGetVal he)))
      end
  | DRehash n => '(d, _) ← dictRehash type policy d n; Some (d, RUnit)
  | DExpand size => Some ((dictExpand d size).1, RUnit)
  | DTryExpand size fails => Some ((dictTryExpand d size fails).1, RUnit)
  | DResize => Some ((dictResize policy d).1, RUnit)
  end.

Fixpoint run_ops (d : dict) (ops : list (dictResizeEnable * dop)) : option (dict * list dres) :=
  match ops with
  | [] => Some (d, [])
  | (policy, op) :: ops =>
      '(d, r) ← run_op policy d op; '(d, rs) ← run_ops d ops; Some (d, r :: rs)
  end.

(** The same calls on an association list. *)
Definition spec_op (es : list (K * option V)) (op : dop) : list (K * option V) * dres :=
  match op with
  | DAdd k v => ((spec_add type es k v).1, RInt (spec_add type es k v).2 [])
  | DReplace k v =>
      ((spec_replace type es k v).1.1, RInt (spec_replace type es k v).1.2 (spec_replace type es k v).2)
  | DDelete k => ((spec_delete type es k).1.1, RInt (spec_delete type es k).1.2 (spec_delete type es k).2)
  | DFind k => (es, REntry (spec_find type es k))
  | _ => (es, RUnit)
  end.

Fixpoint spec_ops (es : list (K * option V)) (ops : list (dictResizeEnable * dop)) : list (K * option V) * list dres :=
  match ops with
  | [] => (es, [])
  | (_, op) :: ops =>
      let '(es, r) := spec_op es op in let '(es, rs) := spec_ops es ops in (es, r :: rs)
  end.

(** What a caller must respect: odd keys where the type says so, values only in
    dictionaries with values, sizes of the type [unsigned long]. *)
Definition op_pre (op : dop) : Prop :=
  match op with
  | DAdd k _ => key_ok type (dup_key type k)
  | DReplace k _ => key_ok type (dup_key type k) /\ no_value type = false
  | DDelete _ => valDestructor type = true -> no_value type = false
  | DRehash n => Z.of_nat n * 10 < 2 ^ 31
  | DExpand size | DTryExpand size _ => 0 <= size < 2 ^ 64
  | _ => True
  end.

Context `{TypeOk : !DictTypeOk type}.

Lemma implements_expand d es size mf :
  implements type d es -> 0 <= size < 2 ^ 64 -> implements type (_dictExpand d size mf).1.1 es.
Proof.
  intros Hi Hs. destruct (dictExpand_ok_gen type d size mf (proj1 Hi) Hs) as (Hok & He & Hp).
  destruct Hi as (_ & Hperm & Hv). split_and!; [done|by rewrite He|done].
Qed.

Lemma length_spec_op es op : zlen (spec_op es op).1 <= zlen es + 1.
Proof.
  destruct op as [k v|k v|k|k|n|size|size fails|]; cbn [spec_op fst]; try lia.
  - unfold spec_add. destruct (matching type k es); cbn [fst]; autorewrite with zlen; lia.
  - unfold spec_replace. destruct (matching type k es); cbn [fst]; autorewrite with zlen; lia.
  - unfold spec_delete. destruct (matching type k es) as [|e l]; cbn [fst]; [lia|].
    unfold zlen. pose proof (length_filter (λ e0 : K * option V, key_match type k e0.1 = false) es). lia.
Qed.

Lemma dictResize_implements policy d es :
  implements type d es -> implements type (dictResize policy d).1 es.
Proof.
  intros Hi. unfold dictResize. destruct (bool_decide _ || _); [done|].
  rewrite fst_dictExpand. apply implements_expand; [done|].
  pose proof (dictSize_entries type d (proj1 Hi)) as Hsz. destruct Hi as ((H0 & _ & _ & _ & Hlen) & _).
  unfold ht_ok, dict_entries, ht_entries in *. unfold DICT_HT_INITIAL_SIZE, DICT_HT_INITIAL_EXP.
  destruct (ht_table (ht0 d)); [destruct H0 as [_ Hu]|destruct H0 as [Hu _]];
    destruct (decide (ht_used (ht0 d) < 2 ^ 2)); zlia.
Qed.

Lemma run_op_refines policy d es op :
  implements type d es -> op_pre op -> zlen es < 2 ^ 60 ->
  exists d', run_op policy d op = Some (d', (spec_op es op).2) /\ implements type d' (spec_op es op).1.
Proof.
  intros Hi Hpre Hlen. destruct op as [k v|k v|k|k|n|size|size fails|]; cbn [run_op spec_op fst snd].
  - destruct (dictAdd_refines type policy d es k v Hi Hlen Hpre) as (d' & r & -> & -> & Hi'). by exists d'.
  - destruct Hpre as [Hko Hnv].
    destruct (dictReplace_refines type policy d es k v Hi Hlen Hko Hnv) as (d' & r & fs & -> & [= -> ->] & Hi').
    by exists d'.
  - destruct (dictDelete_refines type policy d es k Hi Hpre) as (d' & r & fs & -> & [= -> ->] & Hi'). by exists d'.
  - destruct (dictFind_refines type policy d es k Hi) as (d' & r & -> & Hi' & Hr). exists d'. cbn [mbind option_bind].
    destruct r as [e|]; [|by rewrite Hr]. destruct Hr as (he & kv & -> & Hk & Hv & ->). cbn [mbind option_bind].
    rewrite Hk. cbn [mbind option_bind]. rewrite Hv. by destruct kv.
  - destruct (dictRehash_ok type policy d n (proj1 Hi) Hpre) as (d' & r & -> & Hs & _). exists d'. split; [done|].
    by eapply implements_same.
  - eexists. split; [done|]. rewrite fst_dictExpand. by apply implements_expand.
  - eexists. split; [done|]. unfold dictTryExpand.
    pose proof (implements_expand d es size (Some fails) Hi Hpre) as Hi'.
    by destruct (_dictExpand d size (Some fails)) as [[d' r] mf].
  - eexists. split; [done|]. by apply dictResize_implements.
Qed.

Lemma run_ops_refines ops : forall d es,
  implements type d es -> Forall (fun op => op_pre op.2) ops -> zlen es + zlen ops < 2 ^ 60 ->
  exists d', run_ops d ops = Some (d', (spec_ops es ops).2) /\ implements type d' (spec_ops es ops).1.
Proof.
  induction ops as [|[policy op] ops IH]; intros d es Hi Hpre Hlen; cbn [run_ops spec_ops]; [by exists d|].
  apply Forall_cons in Hpre as [Hop Hpre]. rewrite zlen_cons in Hlen. pose proof (zlen_nonneg ops).
  destruct (run_op_refines policy d es op Hi Hop ltac:(lia)) as (d1 & -> & Hi1). cbn [mbind option_bind].
  pose proof (length_spec_op es op). destruct (spec_op es op) as [es1 r]. cbn [fst snd] in *.
  destruct (IH d1 es1 Hi1 Hpre ltac:(lia)) as (d2 & -> & Hi2). cbn [mbind option_bind].
  exists d2. by destruct (spec_ops es1 ops).
Qed.

End sequences.

(** * Properties *)

(** C7: a hash table, resized and rehashed incrementally in any way the callers
    and the resize policy ask for, behaves as an association list: every sequence
    of adds, replacements, deletions, lookups, rehash steps, expansions (also
    with failing allocations) and shrinks, from the empty dictionary, runs without
    undefined behaviour or failed assertion, returns the results of the
    association list and leaves a well-formed dictionary with its entries. *)
Theorem dict_refines_assoc {K V : Type} `{EqDecision K} (type : @dictType K V) (Hty : DictTypeOk type)
    (ops : list (dictResizeEnable * dop)) :
  Forall (fun op => op_pre type op.2) ops -> zlen ops < 2 ^ 60 ->
  exists d, run_ops type dictCreate ops = Some (d, (spec_ops type [] ops).2) /\
  dict_ok type d /\ dict_entries d ≡ₚ (spec_ops type [] ops).1.
Proof.
  intros Hpre Hlen. destruct (run_ops_refines type ops dictCreate []) as (d & Hrun & Hok & Hp & _); [|done|done|eauto].
  split_and!; [by apply dict_ok_empty|done|by intros _].
Qed.

(** A dictionary of integers with a poor hash function, for the examples. *)
Definition int_type : @dictType Z Z :=
  DictType (fun k => u64 (k / 2)) None None None true true None false false (fun _ => false).

#[export] Instance int_type_ok : DictTypeOk int_type.
Proof.
  split; unfold key_match; cbn.
  - intros k. apply (uwrap_range 64). lia.
  - intros k k'. rewrite !orb_diag. apply bool_decide_ext. split; congruence.
  - intros k k' k''. rewrite !orb_diag, !bool_decide_eq_true. congruence.
  - intros k k'. rewrite orb_diag, bool_decide_eq_true. by intros ->.
  - done.
Qed.

Definition example_ops : list (dictResizeEnable * @dop Z Z) :=
  [(DICT_RESIZE_ENABLE, DAdd 1 10); (DICT_RESIZE_ENABLE, DAdd 2 20); (DICT_RESIZE_ENABLE, DAdd 3 30);
   (DICT_RESIZE_ENABLE, DAdd 4 40); (DICT_RESIZE_ENABLE, DAdd 5 50); (DICT_RESIZE_AVOID, DAdd 3 31);
   (DICT_RESIZE_ENABLE, DReplace 3 32); (DICT_RESIZE_ENABLE, DDelete 1); (DICT_RESIZE_ENABLE, DFind 3);
   (DICT_RESIZE_FORBID, DRehash 1); (DICT_RESIZE_ENABLE, DRehash 100); (DICT_RESIZE_ENABLE, DFind 1);
   (DICT_RESIZE_ENABLE, DTryExpand 64 true); (DICT_RESIZE_ENABLE, DExpand 64); (DICT_RESIZE_ENABLE, DDelete 4)].

Lemma dict_refines_assoc_witness :
  zlen example_ops < 2 ^ 60 /\
  (spec_ops int_type [] example_ops).2 =
    [RInt 0 []; RInt 0 []; RInt 0 []; RInt 0 []; RInt 0 []; RInt 1 []; RInt 0 [DestroyVal 30];
     RInt 0 [DestroyKey 1; DestroyVal 10]; REntry (Some (3, Some 32)); RUnit; RUnit; REntry None; RUnit; RUnit;
     RInt 0 [DestroyKey 4; DestroyVal 40]] /\
  exists d, run_ops int_type dictCreate example_ops = Some (d, (spec_ops int_type [] example_ops).2) /\
  dict_ok int_type d /\ dict_entries d ≡ₚ [(5, Some 50); (3, Some 32); (2, Some 20)].
Proof.
  split; [done|]. split; [by vm_compute|].
  replace [(5, Some 50); (3, Some 32); (2, Some 20)] with (spec_ops int_type [] example_ops).1 by (by vm_compute).
  apply (dict_refines_assoc int_type _ example_ops); [|done].
  repeat constructor; done.
Defined.

(** C31: incremental rehashing terminates and loses nothing: when resizing is
    enabled, calling [dictRehash] with any positive step count ends after at most
    one call per bucket left in the old table and two more, with rehashing
    finished and the same entries. *)
Theorem dictRehash_terminates {K V : Type} `{EqDecision K} (type : @dictType K V) (Hty : DictTypeOk type) d n :
  dict_ok type d -> (0 < n)%nat -> Z.of_nat n * 10 < 2 ^ 31 ->
  exists d', rehash_all type DICT_RESIZE_ENABLE (S (Z.to_nat (rehash_left d))) d n = Some d' /\
  dictIsRehashing d' = false /\ dict_ok type d' /\ dict_entries d' ≡ₚ dict_entries d.
Proof.
  intros Hok Hn Hn'. destruct (rehash_all_ok type DICT_RESIZE_ENABLE n (Z.to_nat (rehash_left d)) d Hok eq_refl Hn Hn')
    as (d' & Hr & (Hok' & Hp & _) & Hend); [lia|]. by exists d'.
Qed.

(** The dictionary after the first [n] calls of the example. *)
Definition example_dict (n : nat) : @dict Z Z :=
  default dictCreate (fst <$> run_ops int_type dictCreate (take n example_ops)).

Lemma example_dict_ok n : implements int_type (example_dict n) (spec_ops int_type [] (take n example_ops)).1.
Proof.
  destruct (run_ops_refines int_type (take n example_ops) dictCreate []) as (d & Hrun & Hi).
  - split_and!; [by apply dict_ok_empty|done|by intros _].
  - apply Forall_take. repeat constructor; done.
  - rewrite zlen_nil, zlen_take. change (zlen example_ops) with 15. lia.
  - unfold example_dict. by rewrite Hrun.
Qed.

Lemma dictRehash_terminates_witness :
  dictIsRehashing (example_dict 5) = true /\
  exists d', rehash_all int_type DICT_RESIZE_ENABLE (S (Z.to_nat (rehash_left (example_dict 5)))) (example_dict 5) 1 = Some d' /\
  dictIsRehashing d' = false /\ dict_ok int_type d' /\ dict_entries d' ≡ₚ dict_entries (example_dict 5).
Proof.
  split; [by vm_compute|]. apply (dictRehash_terminates int_type _ (example_dict 5) 1); [apply example_dict_ok|lia|lia].
Defined.

(** [dictEmpty] calls the destructors exactly once for every entry of both
    tables and leaves a dictionary like a new one. *)
Theorem dictEmpty_correct {K V : Type} `{EqDecision K} (type : @dictType K V) (Hty : DictTypeOk type) d es :
  implements type d es -> (valDestructor type = true -> no_value type = false) ->
  exists freed, dictEmpty type d = Some (dictCreate, freed) /\ freed ≡ₚ es ≫= free_entry type.
Proof. apply dictEmpty_ok. Qed.

Lemma dictEmpty_correct_witness :
  exists freed, dictEmpty int_type (example_dict 5) = Some (dictCreate, freed) /\
  freed ≡ₚ (spec_ops int_type [] (take 5 example_ops)).1 ≫= free_entry int_type.
Proof. apply (dictEmpty_correct int_type _ (example_dict 5)); [apply example_dict_ok|done]. Defined.

(** finding an entry with [dictTwoPhaseUnlinkFind] and removing it later with
    [dictTwoPhaseUnlinkFree] leaves the dictionary that [dictDelete] leaves, the
    pause counter included, and destroys the same things. *)
Theorem twoPhaseUnlink_is_delete {K V : Type} `{EqDecision K} (type : @dictType K V) (Hty : DictTypeOk type)
    (policy : dictResizeEnable) d es key :
  implements type d es -> (valDestructor type = true -> no_value type = false) -> in_i 16 (pauserehash d) ->
  exists d1 e d2 freed ret, dictTwoPhaseUnlinkFind type policy d key = Some (d1, e) /\
  dictTwoPhaseUnlinkFree type d1 e = Some (d2, freed) /\ dictDelete type policy d key = Some (d2, ret, freed) /\
  (ret = DICT_OK <-> is_Some e).
Proof. intros ???. by apply (twoPhase_ok type policy d es). Qed.

Lemma twoPhaseUnlink_is_delete_witness :
  in_i 16 (pauserehash (example_dict 5)) /\
  exists d1 e d2 freed ret, dictTwoPhaseUnlinkFind int_type DICT_RESIZE_ENABLE (example_dict 5) 2 = Some (d1, e) /\
  dictTwoPhaseUnlinkFree int_type d1 e = Some (d2, freed) /\
  dictDelete int_type DICT_RESIZE_ENABLE (example_dict 5) 2 = Some (d2, ret, freed) /\ (ret = DICT_OK <-> is_Some e).
Proof.
  split; [by vm_compute|].
  apply (twoPhaseUnlink_is_delete int_type _ DICT_RESIZE_ENABLE (example_dict 5) _ 2 (example_dict_ok 5)); [done|].
  by vm_compute.
Defined.
