(* ===== verification/DictScan.v ===== *)
(** * The cursor scan of dictionaries (dict.c: rev, dictScan)

    SCAN, SSCAN, HSCAN and ZSCAN walk a dictionary with a cursor and keep no
    state between the calls, while the dictionary grows, shrinks and rehashes.
    The cursor is incremented from its most significant bit downwards.  The
    theorems of this file state what that buys: reading the cursor backwards,
    a call covers an interval of reversed hash values and returns the start of
    the next one, whatever the size of the tables; so the calls of a complete
    iteration cover every hash value, and an element that is in the dictionary
    at every call is returned. *)

From S2P Require Import Prelude Dict.

(** ** Bits of the reversed cursor *)

Definition swap_halves (s mask v : Z) : Z :=
  Z.lor (Z.land (Z.shiftr v s) mask) (Z.land (u64 (Z.shiftl v s)) (ULLONG_MAX - mask)).

(** The steps of [rev], with the masks the loop computes. *)
Lemma rev_unfold v :
  rev v = swap_halves 1 0x5555555555555555 (swap_halves 2 0x3333333333333333 (swap_halves 4 0x0F0F0F0F0F0F0F0F
    (swap_halves 8 0x00FF00FF00FF00FF (swap_halves 16 0x0000FFFF0000FFFF (swap_halves 32 0x00000000FFFFFFFF v))))).
Proof. reflexivity. Qed.

#[local] Opaque rev.

Definition swap_index (s mask i : Z) : Z := if Z.testbit mask i then i + s else i - s.

Lemma testbit_u64 x i : 0 <= i < 64 -> Z.testbit (u64 x) i = Z.testbit x i.
Proof. intros. unfold u64, uwrap. rewrite Z.mod_pow2_bits_low by lia. done. Qed.

Lemma testbit_max i : 0 <= i < 64 -> Z.testbit ULLONG_MAX i = true.
Proof. intros. change ULLONG_MAX with (Z.ones 64). apply Z.ones_spec_low. lia. Qed.

Lemma testbit_compl m i :
  0 <= m < 2 ^ 64 -> 0 <= i < 64 -> Z.testbit (ULLONG_MAX - m) i = negb (Z.testbit m i).
Proof.
  intros Hm Hi. rewrite Z.sub_nocarry_ldiff.
  - by rewrite Z.ldiff_spec, testbit_max.
  - change ULLONG_MAX with (Z.ones 64). apply Z.ldiff_ones_r_low; [lia|].
    destruct (decide (m = 0)) as [->|]; [done|]. apply Z.log2_lt_pow2; lia.
Qed.

Lemma swap_halves_spec s mask v i :
  0 <= s -> 0 <= mask < 2 ^ 64 -> 0 <= i < 64 ->
  Z.testbit (swap_halves s mask v) i = Z.testbit v (swap_index s mask i).
Proof.
  intros Hs Hm Hi. unfold swap_halves, swap_index.
  rewrite Z.lor_spec, !Z.land_spec, Z.shiftr_spec, testbit_u64, Z.shiftl_spec, testbit_compl by lia.
  destruct (Z.testbit mask i); cbn [negb]; rewrite ?andb_true_r, ?andb_false_r; [apply orb_false_r|done].
Qed.

(** The six swaps move bit [63 - i] to bit [i]. *)
Lemma swap_indices i :
  0 <= i < 64 ->
  let i1 := swap_index 1 0x5555555555555555 i in
  let i2 := swap_index 2 0x3333333333333333 i1 in
  let i3 := swap_index 4 0x0F0F0F0F0F0F0F0F i2 in
  let i4 := swap_index 8 0x00FF00FF00FF00FF i3 in
  let i5 := swap_index 16 0x0000FFFF0000FFFF i4 in
  let i6 := swap_index 32 0x00000000FFFFFFFF i5 in
  0 <= i1 < 64 /\ 0 <= i2 < 64 /\ 0 <= i3 < 64 /\ 0 <= i4 < 64 /\ 0 <= i5 < 64 /\ i6 = 63 - i.
Proof.
  intros Hi. cbv zeta.
  assert (i ∈ seqZ 0 64) as Hin by (apply elem_of_seqZ; lia). revert i Hi Hin.
  enough (Forall (fun i =>
    let i1 := swap_index 1 0x5555555555555555 i in
    let i2 := swap_index 2 0x3333333333333333 i1 in
    let i3 := swap_index 4 0x0F0F0F0F0F0F0F0F i2 in
    let i4 := swap_index 8 0x00FF00FF00FF00FF i3 in
    let i5 := swap_index 16 0x0000FFFF0000FFFF i4 in
    let i6 := swap_index 32 0x00000000FFFFFFFF i5 in
    0 <= i1 < 64 /\ 0 <= i2 < 64 /\ 0 <= i3 < 64 /\ 0 <= i4 < 64 /\ 0 <= i5 < 64 /\ i6 = 63 - i) (seqZ 0 64)) as H.
  { intros i _ Hin. rewrite Forall_forall in H. by apply H. }
  cbv zeta. apply (bool_decide_unpack _). by vm_compute.
Qed.

Lemma testbit_rev v i : 0 <= i < 64 -> Z.testbit (rev v) i = Z.testbit v (63 - i).
Proof.
  intros Hi. destruct (swap_indices i Hi) as (H1 & H2 & H3 & H4 & H5 & H6).
  rewrite rev_unfold. rewrite !swap_halves_spec by lia. by rewrite H6.
Qed.

Lemma testbit_high x i : 0 <= x < 2 ^ 64 -> 64 <= i -> Z.testbit x i = false.
Proof. intros Hx Hi. apply (proj1 (Z.bounded_iff_bits_nonneg 64 x ltac:(lia) ltac:(lia))); lia. Qed.

Lemma swap_halves_range s mask v : 0 <= mask <= ULLONG_MAX -> 0 <= swap_halves s mask v < 2 ^ 64.
Proof.
  unfold ULLONG_MAX. intros Hm. unfold swap_halves, ULLONG_MAX.
  assert (0 <= Z.lor (Z.land (Z.shiftr v s) mask) (Z.land (u64 (Z.shiftl v s)) (18446744073709551615 - mask))) as Hn.
  { apply Z.lor_nonneg. split; apply Z.land_nonneg; lia. }
  split; [done|]. apply (Z.bounded_iff_bits_nonneg 64); [lia|done|]. intros l Hl.
  rewrite Z.lor_spec, !Z.land_spec. rewrite (testbit_high mask), (testbit_high (_ - mask)) by lia.
  by rewrite !andb_false_r.
Qed.

Lemma rev_range v : 0 <= rev v < 2 ^ 64.
Proof. rewrite rev_unfold. by apply swap_halves_range. Qed.

Lemma rev_rev v : 0 <= v < 2 ^ 64 -> rev (rev v) = v.
Proof.
  intros Hv. apply Z.bits_inj'. intros n Hn. destruct (decide (n < 64)).
  - rewrite !testbit_rev by lia. f_equal. lia.
  - rewrite !testbit_high; [done|done|lia|apply rev_range|lia].
Qed.

Lemma rev_0 : rev 0 = 0.
Proof. rewrite rev_unfold. reflexivity. Qed.

(** ** The cursor as a position among the reversed hash values *)

(** The width of the interval of reversed hash values of one bucket. *)
Definition width (e : Z) : Z := 2 ^ (64 - e).

Lemma width_pos e : e <= 64 -> 0 < width e.
Proof. intros. apply Z.pow_pos_nonneg; lia. Qed.

Lemma width_split e : 0 <= e <= 64 -> 2 ^ e * width e = 2 ^ 64.
Proof. intros. unfold width. rewrite <- Z.pow_add_r by lia. f_equal. lia. Qed.

(** Hash values whose reversals are in the same interval have the same bucket. *)
Lemma same_bucket v h e :
  0 <= e <= 64 -> 0 <= v < 2 ^ 64 -> 0 <= h < 2 ^ 64 -> rev v / width e = rev h / width e ->
  Z.land h (2 ^ e - 1) = Z.land v (2 ^ e - 1).
Proof.
  intros He Hv Hh Heq. unfold width in Heq. rewrite <- !Z.shiftr_div_pow2 in Heq by lia.
  rewrite Z.sub_1_r, <- Z.ones_equiv, !Z.land_ones by lia.
  apply Z.bits_inj'. intros j Hj. destruct (decide (j < e)).
  - rewrite !Z.mod_pow2_bits_low by lia.
    rewrite <- (rev_rev v Hv), <- (rev_rev h Hh), (testbit_rev (rev v)), (testbit_rev (rev h)) by lia.
    replace (63 - j) with (63 - j - (64 - e) + (64 - e)) by lia.
    rewrite <- !Z.shiftr_spec by lia. by rewrite Heq.
  - by rewrite !Z.mod_pow2_bits_high by lia.
Qed.

(** Setting the bits above the mask fills the interval. *)
Lemma rev_fill v e :
  2 <= e <= 60 -> 0 <= v < 2 ^ 64 ->
  rev (Z.lor v (ULLONG_MAX - (2 ^ e - 1))) = rev v / width e * width e + (width e - 1).
Proof.
  intros He Hv. set (w := Z.lor _ _). pose proof (width_pos e ltac:(lia)).
  assert (0 <= 2 ^ e - 1 < 2 ^ 64) as Hm.
  { pose proof (Z.pow_lt_mono_r 2 e 64). pose proof (Z.pow_pos_nonneg 2 e). lia. }
  assert (forall j, 0 <= j < 64 -> Z.testbit w (63 - j) = Z.testbit v (63 - j) || bool_decide (j < 64 - e)) as Hw.
  { intros j Hj. subst w. rewrite Z.lor_spec, testbit_compl by lia. f_equal.
    rewrite Z.sub_1_r, <- Z.ones_equiv. destruct (decide (j < 64 - e)).
    - rewrite Z.ones_spec_high by lia. by rewrite bool_decide_true.
    - rewrite Z.ones_spec_low by lia. by rewrite bool_decide_false. }
  pose proof (Z.div_mod (rev w) (width e) ltac:(lia)) as Hdm.
  assert (rev w / width e = rev v / width e) as Hq.
  { unfold width. rewrite <- !Z.shiftr_div_pow2 by lia. apply Z.bits_inj'. intros j Hj.
    rewrite !Z.shiftr_spec by lia. destruct (decide (j + (64 - e) < 64)).
    - rewrite !testbit_rev by lia. rewrite Hw by lia. rewrite bool_decide_false by lia. apply orb_false_r.
    - rewrite !testbit_high; [done|apply rev_range|lia|apply rev_range|lia]. }
  assert (rev w mod width e = width e - 1) as Hr.
  { unfold width. rewrite Z.sub_1_r, <- Z.ones_equiv. apply Z.bits_inj'. intros j Hj.
    destruct (decide (j < 64 - e)).
    - rewrite Z.mod_pow2_bits_low, Z.ones_spec_low, testbit_rev, Hw by lia.
      rewrite bool_decide_true by lia. apply orb_true_r.
    - rewrite Z.mod_pow2_bits_high, Z.ones_spec_high by lia. done. }
  rewrite Hq, Hr in Hdm. lia.
Qed.

Lemma rev_next_cursor v e :
  2 <= e <= 60 -> 0 <= v < 2 ^ 64 ->
  0 <= next_cursor v (2 ^ e - 1) < 2 ^ 64 /\
  rev (next_cursor v (2 ^ e - 1)) = u64 ((rev v / width e + 1) * width e).
Proof.
  intros He Hv. unfold next_cursor. split; [apply rev_range|].
  rewrite rev_rev by (apply (uwrap_range 64); lia). rewrite rev_fill by done. f_equal. lia.
Qed.

(** Where a call of the scan ends: the cursor 0 is the end of all the hash values. *)
Definition scan_end (v : Z) : Z := if decide (v = 0) then 2 ^ 64 else rev v.

Lemma rev_eq_0 v : 0 <= v < 2 ^ 64 -> rev v = 0 -> v = 0.
Proof. intros Hv H0. rewrite <- (rev_rev v Hv), H0. done. Qed.

(** The end after the interval of [v]. *)
Lemma scan_end_next v v' e :
  0 <= e <= 60 -> 0 <= v < 2 ^ 64 -> 0 <= v' < 2 ^ 64 ->
  rev v' = u64 ((rev v / width e + 1) * width e) -> scan_end v' = (rev v / width e + 1) * width e.
Proof.
  intros He Hv Hv' Hr. pose proof (width_pos e ltac:(lia)) as Hw. pose proof (width_split e ltac:(lia)) as Hs.
  pose proof (rev_range v) as Hrv.
  assert (0 <= rev v / width e < 2 ^ e) as Hq.
  { split; [apply Z.div_pos; lia|]. apply Z.div_lt_upper_bound; [lia|]. rewrite Z.mul_comm, Hs. lia. }
  unfold scan_end. destruct (decide (rev v / width e + 1 = 2 ^ e)) as [Heq|Hne].
  - rewrite Heq, Hs in *. rewrite decide_True; [done|]. apply rev_eq_0; [done|]. by rewrite Hr.
  - unfold u64 in Hr. rewrite uwrap_small in Hr by (unfold in_u; rewrite <- Hs; nia).
    rewrite decide_False; [done|]. intros ->. rewrite rev_0 in Hr. nia.
Qed.

(** The test that ends the loop over the larger table. *)
Lemma land_xor_masks w e0 e1 :
  2 <= e0 -> e0 < e1 <= 60 -> 0 <= w < 2 ^ 64 -> rev w mod width e1 = 0 ->
  Z.land w (Z.lxor (2 ^ e0 - 1) (2 ^ e1 - 1)) = 0 <-> rev w mod width e0 = 0.
Proof.
  intros He0 He1 Hw Hmod.
  assert (forall j, 0 <= j -> Z.testbit (Z.lxor (2 ^ e0 - 1) (2 ^ e1 - 1)) j = bool_decide (e0 <= j < e1)) as Hmask.
  { intros j Hj. rewrite !Z.sub_1_r, <- !Z.ones_equiv, Z.lxor_spec, !Z.testbit_ones by lia.
    destruct (decide (e0 <= j < e1)); [rewrite bool_decide_true by done|rewrite bool_decide_false by done];
      destruct (Z.ltb_spec j e0), (Z.ltb_spec j e1), (Z.leb_spec 0 j); cbn; done || lia. }
  assert (forall i, 0 <= i < 64 - e1 -> Z.testbit (rev w) i = false) as Hlow.
  { intros i Hi. rewrite <- (Z.mod_pow2_bits_low _ (64 - e1)) by lia. unfold width in Hmod. rewrite Hmod. apply Z.bits_0. }
  split; intros H.
  - unfold width. apply Z.bits_inj'. intros i Hi. rewrite Z.bits_0. destruct (decide (i < 64 - e0)).
    + rewrite Z.mod_pow2_bits_low by lia. destruct (decide (i < 64 - e1)); [apply Hlow; lia|].
      rewrite testbit_rev by lia. apply (f_equal (fun x => Z.testbit x (63 - i))) in H.
      rewrite Z.land_spec, Hmask, Z.bits_0 in H by lia. rewrite bool_decide_true in H by lia. by rewrite andb_true_r in H.
    + by rewrite Z.mod_pow2_bits_high by lia.
  - apply Z.bits_inj'. intros j Hj. rewrite Z.bits_0, Z.land_spec, Hmask by lia.
    destruct (decide (e0 <= j < e1)); [|rewrite bool_decide_false by done; apply andb_false_r].
    rewrite bool_decide_true, andb_true_r by done. rewrite <- (rev_rev w Hw), testbit_rev by lia.
    rewrite <- (Z.mod_pow2_bits_low _ (64 - e0)) by lia. unfold width in H. rewrite H. apply Z.bits_0.
Qed.

(** One increment in the larger table, seen from the smaller one. *)
Lemma expansion_step w w' e0 e1 :
  2 <= e0 -> e0 < e1 <= 60 -> 0 <= w < 2 ^ 64 -> 0 <= w' < 2 ^ 64 ->
  rev w' = u64 ((rev w / width e1 + 1) * width e1) ->
  let D := 2 ^ (e1 - e0) in let P := rev w / width e1 in
  rev w / width e0 = P / D /\
  (((P + 1) mod D = 0 /\ Z.land w' (Z.lxor (2 ^ e0 - 1) (2 ^ e1 - 1)) = 0 /\
    (P + 1) * width e1 = (rev w / width e0 + 1) * width e0) \/
   (P mod D + 1 < D /\ Z.land w' (Z.lxor (2 ^ e0 - 1) (2 ^ e1 - 1)) <> 0 /\
    rev w' = (P + 1) * width e1 /\ rev w' / width e1 = P + 1 /\ rev w' / width e0 = rev w / width e0)).
Proof.
  intros He0 He1 Hw Hw' Hr D P. pose proof (width_pos e1 ltac:(lia)) as HW1. pose proof (width_pos e0 ltac:(lia)) as HW0.
  assert (0 < D) as HD by (apply Z.pow_pos_nonneg; lia).
  assert (width e0 = width e1 * D) as HW by (unfold width, D; rewrite <- Z.pow_add_r by lia; f_equal; lia).
  assert (rev w / width e0 = P / D) as Hq by (rewrite HW, <- Z.div_div by lia; done).
  pose proof (width_split e1 ltac:(lia)) as Hs1. pose proof (rev_range w) as Hrw.
  assert (0 <= P < 2 ^ e1) as HP.
  { subst P. split; [apply Z.div_pos; lia|]. apply Z.div_lt_upper_bound; lia. }
  assert (2 ^ e1 = 2 ^ e0 * D) as Hpe by (unfold D; rewrite <- Z.pow_add_r by lia; f_equal; lia).
  assert (forall x, u64 (x * width e1) mod width e1 = 0) as Hmul1.
  { intros x. unfold u64, uwrap. rewrite <- Hs1, Z.mul_comm, (Z.mul_comm (2 ^ e1)), Z.mul_mod_distr_l by lia.
    rewrite Z.mul_comm. apply Z.mod_mul. lia. }
  pose proof (land_xor_masks w' e0 e1 He0 He1 Hw' ltac:(rewrite Hr; apply Hmul1)) as Hland.
  split; [done|]. pose proof (Z.div_mod P D ltac:(lia)) as Hdm. pose proof (Z.mod_pos_bound P D HD) as Hmb.
  destruct (decide (P mod D + 1 = D)) as [Hlast|Hmore].
  - left. assert (P + 1 = (P / D + 1) * D) as HP1 by lia.
    assert ((P + 1) * width e1 = (rev w / width e0 + 1) * width e0) as Hend by (rewrite Hq, HW, HP1; ring).
    split; [rewrite HP1; apply Z.mod_mul; lia|]. split; [|done]. apply Hland. rewrite Hr. fold P. rewrite Hend.
    unfold u64, uwrap. rewrite <- (width_split e0) by lia. rewrite (Z.mul_comm _ (width e0)), (Z.mul_comm (2 ^ e0)).
    rewrite Z.mul_mod_distr_l by lia. rewrite Z.mul_comm. apply Z.mod_mul. lia.
  - right. assert (P + 1 < 2 ^ e1) as Hlt. { assert (P / D < 2 ^ e0) by (apply Z.div_lt_upper_bound; lia). assert (D * (P / D + 1) <= D * 2 ^ e0) by nia. lia. }
    assert (rev w' = (P + 1) * width e1) as Hw1.
    { rewrite Hr. apply uwrap_small. unfold in_u. rewrite <- Hs1. nia. }
    assert ((P + 1) / D = P / D) as Hdiv. { symmetry. apply (Z.div_unique _ _ _ (P mod D + 1)); lia. }
    split; [lia|]. split; [|split_and!].
    + intros H0. apply Hland in H0. rewrite Hw1, HW, Z.mul_comm, Z.mul_mod_distr_l in H0 by lia.
      assert ((P + 1) mod D = P mod D + 1) as Hm. { symmetry. apply (Z.mod_unique _ _ (P / D)); lia. }
      rewrite Hm in H0. nia.
    + done.
    + rewrite Hw1. apply Z.div_mul. lia.
    + rewrite Hw1, Hq, HW, (Z.mul_comm (width e1)), Z.div_mul_cancel_r by lia. done.
Qed.

(** ** One call *)

Section scan.
Context {K V : Type} `{EqDecision K}.
Variable type : @dictType K V.
Context `{TypeOk : !DictTypeOk type}.

Abbreviation rhash e := (rev (hashFunction type (fst e))).

(** The bucket at the cursor has all the entries of its interval. *)
Lemma bucket_at_cursor d t l e v :
  ht_table (ht d t) = Some l -> tbl_ok type e l -> 0 <= v < 2 ^ 64 ->
  exists c, get_bucket d t (Z.land v (2 ^ e - 1)) = Some c /\
  (forall ent, ent ∈ emit_chain c -> ent ∈ tbl_entries l) /\
  (forall ent, ent ∈ tbl_entries l -> rev v / width e = rhash ent / width e -> ent ∈ emit_chain c).
Proof.
  intros Hl (He & Hlen & Hall) Hv.
  pose proof (land_mask_range v e ltac:(lia)) as Hidx. unfold get_bucket. rewrite Hl. cbn [mbind option_bind].
  destruct (peek_Some l (Z.land v (2 ^ e - 1)) ltac:(lia)) as (c & Hc). exists c. split; [done|].
  apply peek_inv in Hc as [_ Hc]. split.
  - intros ent Hent. unfold tbl_entries. apply list_elem_of_bind. exists c. split; [done|]. by eapply list_elem_of_lookup_2.
  - intros ent Hent Hint. apply list_elem_of_bind in Hent as (c' & Hent & Hin).
    apply list_elem_of_lookup_1 in Hin as (i & Hi). destruct (Hall i c' Hi) as [_ Hp].
    rewrite Forall_forall in Hp. destruct (Hp ent Hent) as [Hplace _].
    rewrite (same_bucket v (hashFunction type ent.1) e) in Hplace; [|lia|done|apply (hash_range type)|done].
    rewrite Hplace, Nat2Z.id in Hc. congruence.
Qed.

(** The loop over the expansions of the cursor covers one interval of the
    smaller table, and ends. *)
Lemma scan_loop_ok d t l e0 e1 :
  ht_table (ht d t) = Some l -> tbl_ok type e1 l -> 2 <= e0 -> e0 < e1 ->
  forall fuel v, 0 <= v < 2 ^ 64 -> 2 ^ (e1 - e0) - (rev v / width e1) mod 2 ^ (e1 - e0) <= Z.of_nat fuel ->
  exists out v', scan_loop fuel d t (2 ^ e0 - 1) (2 ^ e1 - 1) v = Some (out, v') /\
  0 <= v' < 2 ^ 64 /\ rev v' = u64 ((rev v / width e0 + 1) * width e0) /\
  (forall ent, ent ∈ out -> ent ∈ tbl_entries l) /\
  (forall ent, ent ∈ tbl_entries l -> rev v <= rhash ent < (rev v / width e0 + 1) * width e0 -> ent ∈ out).
Proof.
  intros Hl Htbl He0 He01. pose proof Htbl as (He1 & _ & _).
  pose proof (width_pos e1 ltac:(lia)) as HW1.
  induction fuel as [|fuel IH]; intros v Hv Hfuel.
  { pose proof (Z.mod_pos_bound (rev v / width e1) (2 ^ (e1 - e0)) ltac:(apply Z.pow_pos_nonneg; lia)). lia. }
  cbn [scan_loop]. destruct (bucket_at_cursor d t l e1 v Hl Htbl Hv) as (c & -> & Hsub & Hcov). cbn [mbind option_bind].
  destruct (rev_next_cursor v e1 He1 Hv) as [Hv1 Hr1]. set (v1 := next_cursor v (2 ^ e1 - 1)) in *.
  destruct (expansion_step v v1 e0 e1 He0 ltac:(lia) Hv Hv1 Hr1) as [Hq [(Hm & -> & Hend)|(Hm & Hne & Hw1 & Hp1 & Hq1)]].
  - rewrite decide_False by lia. exists (emit_chain c), v1. split; [done|]. split; [done|].
    split; [by rewrite <- Hend|]. split; [done|]. intros ent Hent Hrange. apply Hcov; [done|]. rewrite <- Hend in Hrange.
    apply (Z.div_unique _ _ _ (rhash ent - rev v / width e1 * width e1)); [|lia]. left.
    pose proof (Z.mul_div_le (rev v) (width e1) HW1). lia.
  - rewrite decide_True by done. destruct (IH v1 Hv1) as (out & v' & -> & Hv' & Hr' & Hsub' & Hcov').
    { rewrite Hp1. rewrite <- (Z.mod_unique (rev v / width e1 + 1) (2 ^ (e1 - e0)) ((rev v / width e1) / 2 ^ (e1 - e0))
        ((rev v / width e1) mod 2 ^ (e1 - e0) + 1)); [lia| |].
      - pose proof (Z.mod_pos_bound (rev v / width e1) (2 ^ (e1 - e0)) ltac:(apply Z.pow_pos_nonneg; lia)). lia.
      - pose proof (Z.div_mod (rev v / width e1) (2 ^ (e1 - e0)) ltac:(apply Z.pow_nonzero; lia)). lia. }
    cbn [mbind option_bind]. eexists _, v'. split; [done|]. rewrite Hq1 in *. split; [done|]. split; [done|].
    split; [intros ent [?|?]%elem_of_app; auto|]. intros ent Hent Hrange. apply elem_of_app.
    destruct (decide (rhash ent < (rev v / width e1 + 1) * width e1)).
    + left. apply Hcov; [done|]. apply (Z.div_unique _ _ _ (rhash ent - rev v / width e1 * width e1)); [|lia]. left.
      pose proof (Z.mul_div_le (rev v) (width e1) HW1). lia.
    + right. apply Hcov'; [done|]. lia.
Qed.

(** The exponent of the smaller table. *)
Definition scan_exp (d : @dict K V) : Z :=
  if dictIsRehashing d then Z.min (ht_size_exp (ht0 d)) (ht_size_exp (ht1 d)) else ht_size_exp (ht0 d).

Lemma DICTHT_SIZE_lt e e' :
  2 <= e <= 60 -> 2 <= e' <= 60 -> DICTHT_SIZE e > DICTHT_SIZE e' <-> e' < e.
Proof.
  intros. rewrite !DICTHT_SIZE_pow by done. split; intros.
  - destruct (decide (e' < e)); [done|]. pose proof (Z.pow_le_mono_r 2 e e'). lia.
  - pose proof (Z.pow_lt_mono_r 2 e' e). lia.
Qed.

(** The two-table call, with the smaller table [t0] and the larger [t1]. *)
Lemma scan_two_tables d v t0 t1 l0 l1 e0 e1 :
  ht_table (ht d t0) = Some l0 -> ht_table (ht d t1) = Some l1 -> tbl_ok type e0 l0 -> tbl_ok type e1 l1 -> e0 < e1 ->
  0 <= v < 2 ^ 64 ->
  exists c out v', get_bucket d t0 (Z.land v (2 ^ e0 - 1)) = Some c /\
  scan_loop (Z.to_nat (2 ^ e1)) d t1 (2 ^ e0 - 1) (2 ^ e1 - 1) v = Some (out, v') /\
  0 <= v' < 2 ^ 64 /\ scan_end v' = (rev v / width e0 + 1) * width e0 /\
  (forall ent, ent ∈ emit_chain c ++ out -> ent ∈ tbl_entries l0 ++ tbl_entries l1) /\
  (forall ent, ent ∈ tbl_entries l0 ++ tbl_entries l1 -> rev v <= rhash ent < scan_end v' -> ent ∈ emit_chain c ++ out).
Proof.
  intros Hl0 Hl1 Ht0 Ht1 Hlt Hv. pose proof Ht0 as (He0 & _ & _).
  destruct (bucket_at_cursor d t0 l0 e0 v Hl0 Ht0 Hv) as (c & Hc & Hsub & Hcov).
  destruct (scan_loop_ok d t1 l1 e0 e1 Hl1 Ht1 ltac:(lia) Hlt (Z.to_nat (2 ^ e1)) v Hv) as (out & v' & Hloop & Hv' & Hr & Hsub1 & Hcov1).
  { pose proof (Z.mod_pos_bound (rev v / width e1) (2 ^ (e1 - e0)) ltac:(apply Z.pow_pos_nonneg; lia)).
    pose proof (Z.pow_le_mono_r 2 (e1 - e0) e1). lia. }
  pose proof (scan_end_next v v' e0 ltac:(lia) Hv Hv' Hr) as Hend.
  exists c, out, v'. split; [done|]. split; [done|]. split; [done|]. split; [done|]. split.
  - intros ent [?|?]%elem_of_app; apply elem_of_app; auto.
  - intros ent [Hin|Hin]%elem_of_app Hrange; apply elem_of_app; rewrite Hend in Hrange; [left|right; by apply Hcov1].
    apply Hcov; [done|]. apply (Z.div_unique _ _ _ (rhash ent - rev v / width e0 * width e0)); [|lia]. left.
    pose proof (Z.mul_div_le (rev v) (width e0) (width_pos e0 ltac:(lia))). lia.
Qed.

(** A call covers the reversed hash values from its cursor to the next one. *)
Lemma dictScan_ok d v :
  dict_ok type d -> 0 <= v < 2 ^ 64 ->
  exists out v', dictScan d v = Some (out, v') /\ 0 <= v' < 2 ^ 64 /\ rev v < scan_end v' /\
  (dict_entries d <> [] -> scan_end v' = (rev v / width (scan_exp d) + 1) * width (scan_exp d)) /\
  (forall ent, ent ∈ out -> ent ∈ dict_entries d) /\
  (forall ent, ent ∈ dict_entries d -> rev v <= rhash ent < scan_end v' -> ent ∈ out).
Proof.
  intros Hok Hv. unfold dictScan. pose proof (rev_range v) as Hrv.
  assert (forall e, 2 <= e <= 60 -> rev v < (rev v / width e + 1) * width e) as Hprog.
  { intros e He. pose proof (width_pos e ltac:(lia)). pose proof (Z.mul_succ_div_gt (rev v) (width e) ltac:(lia)). lia. }
  destruct (decide (dictSize d = 0)) as [Hz|Hz].
  { rewrite (dictSize_entries type) in Hz by done. apply zlen_0 in Hz. rewrite Hz.
    exists [], 0. split; [done|]. split; [done|]. split; [unfold scan_end; case_decide; lia|]. split; [done|]. split; [done|]. by intros ent ?%elem_of_nil. }
  unfold scan_exp. destruct (dictIsRehashing d) eqn:Hre; cbn [negb].
  - destruct (rehashing_tables type d Hok Hre) as (l0 & l1 & Hl0 & Hl1 & Hne & _ & _ & Ht0 & Ht1).
    pose proof Ht0 as (He0 & _ & _). pose proof Ht1 as (He1 & _ & _).
    assert (dict_entries d = tbl_entries l0 ++ tbl_entries l1) as Hd by (unfold dict_entries, ht_entries; by rewrite Hl0, Hl1).
    change (ht d 0) with (ht0 d). change (ht d 1) with (ht1 d).
    destruct (decide (DICTHT_SIZE (ht_size_exp (ht0 d)) > DICTHT_SIZE (ht_size_exp (ht1 d)))) as [Hgt|Hle];
      rewrite DICTHT_SIZE_lt in * by done; change (ht d 0) with (ht0 d); change (ht d 1) with (ht1 d);
      rewrite !DICTHT_SIZE_MASK_pow, DICTHT_SIZE_pow by done.
    + destruct (scan_two_tables d v 1 0 l1 l0 _ _ Hl1 Hl0 Ht1 Ht0 Hgt Hv) as (c & out & v' & -> & Hloop & Hv' & Hend & Hsub & Hcov).
      cbn [mbind option_bind]. rewrite Hloop. cbn [mbind option_bind]. eexists _, v'. split; [done|].
      rewrite Hend in Hcov |- *. rewrite Z.min_r, Hd by lia. split; [done|]. split; [by apply Hprog|].
      split; [done|]. split; intros ent; rewrite (Permutation_app_comm (tbl_entries l0)); [apply Hsub|apply Hcov].
    + destruct (scan_two_tables d v 0 1 l0 l1 _ _ Hl0 Hl1 Ht0 Ht1 ltac:(lia) Hv) as (c & out & v' & -> & Hloop & Hv' & Hend & Hsub & Hcov).
      cbn [mbind option_bind]. rewrite Hloop. cbn [mbind option_bind]. eexists _, v'. split; [done|].
      rewrite Hend in Hcov |- *. rewrite Z.min_l, Hd by lia. split; [done|]. split; [by apply Hprog|]. done.
  - pose proof (dictSize_entries type d Hok) as Hsz.
    destruct (ht_table (ht0 d)) as [l0|] eqn:El0; [|exfalso; apply (nonempty_table type d Hok); [intros Hnil; rewrite Hnil in Hsz; done|done]].
    pose proof Hok as (H0 & _ & Hr & _). unfold ht_ok in H0. rewrite El0 in H0. destruct H0 as [Ht0 _]. pose proof Ht0 as (He0 & _ & _).
    unfold rehash_ok in Hr. rewrite Hre in Hr.
    assert (dict_entries d = tbl_entries l0) as Hd by (unfold dict_entries, ht_entries; rewrite El0, Hr; apply app_nil_r).
    change (ht d 0) with (ht0 d). rewrite DICTHT_SIZE_MASK_pow by done.
    destruct (bucket_at_cursor d 0 l0 _ v El0 Ht0 Hv) as (c & -> & Hsub & Hcov). cbn [mbind option_bind].
    destruct (rev_next_cursor v _ He0 Hv) as [Hv' Hr']. eexists _, _. split; [done|].
    rewrite (scan_end_next v _ (ht_size_exp (ht0 d)) ltac:(lia) Hv Hv' Hr'), Hd.
    split; [done|]. split; [by apply Hprog|]. split; [done|]. split; [done|].
    intros ent Hent Hrange. apply Hcov; [done|].
    apply (Z.div_unique _ _ _ (rhash ent - rev v / width (ht_size_exp (ht0 d)) * width (ht_size_exp (ht0 d)))); [|lia]. left.
    pose proof (Z.mul_div_le (rev v) (width (ht_size_exp (ht0 d))) (width_pos (ht_size_exp (ht0 d)) ltac:(lia))). lia.
Qed.
End scan.

(** ** A complete iteration *)

Section iteration.
Context {K V : Type} `{EqDecision K}.
Variable type : @dictType K V.

(** The calls of an iteration, each on the dictionary as it is at that call,
    until the cursor is 0 again. *)
Fixpoint scan_calls (ds : list dict) (v : Z) : option (list (K * option V) * Z) :=
  match ds with
  | [] => Some ([], v)
  | d :: ds =>
      '(out, v') ← dictScan d v;
      if decide (v' = 0) then Some (out, 0)
      else '(out', w) ← scan_calls ds v'; Some (out ++ out', w)
  end.

Definition has_key (key : K) (es : list (K * option V)) : Prop :=
  exists e, e ∈ es /\ key_match type key e.1 = true.

Context `{TypeOk : !DictTypeOk type}.

Lemma scan_calls_cover key : forall ds v out,
  ds <> [] -> Forall (dict_ok type) ds -> 0 <= v < 2 ^ 64 -> scan_calls ds v = Some (out, 0) ->
  Forall (fun d => has_key key (dict_entries d)) ds -> rev v <= rev (hashFunction type key) ->
  has_key key out.
Proof.
  induction ds as [|d ds IH]; intros v out Hne Hok Hv Hrun Hkey Hle; [done|].
  apply Forall_cons in Hok as [Hokd Hok]. apply Forall_cons in Hkey as [(e & He & Hm) Hkey].
  destruct (dictScan_ok type d v Hokd Hv) as (out0 & v' & Hscan & Hv' & _ & _ & _ & Hcov).
  cbn [scan_calls] in Hrun. rewrite Hscan in Hrun. cbn [mbind option_bind] in Hrun.
  pose proof (match_hash type _ _ Hm) as Hh. specialize (Hcov e He). rewrite <- Hh in Hcov.
  destruct (decide (v' = 0)) as [->|Hv0].
  - injection Hrun as <-. exists e. split; [|done]. apply Hcov. pose proof (rev_range (hashFunction type key)).
    unfold scan_end. rewrite decide_True by done. lia.
  - unbind Hrun. destruct r as [out1 w]. injection Hrun as <- ->.
    unfold scan_end in Hcov. rewrite decide_False in Hcov by done.
    destruct (decide (rev (hashFunction type key) < rev v')).
    + exists e. split; [|done]. apply elem_of_app. left. apply Hcov. lia.
    + destruct (IH v' out1) as (e' & He' & Hm'); try done; [|lia|].
      * intros ->. cbn in E. congruence.
      * exists e'. split; [apply elem_of_app; by right|done].
Qed.

Lemma scan_exp_range d : dict_ok type d -> dict_entries d <> [] -> 2 <= scan_exp d <= 60.
Proof.
  intros Hok Hne. unfold scan_exp. destruct (dictIsRehashing d) eqn:Hre.
  - destruct (rehashing_tables type d Hok Hre) as (l0 & l1 & _ & _ & _ & _ & _ & (? & _) & (? & _)). lia.
  - pose proof (nonempty_table type d Hok Hne) as Ht. destruct Hok as (H0 & _). unfold ht_ok in H0.
    destruct (ht_table (ht0 d)); [|done]. by destruct H0 as [(? & _) _].
Qed.

Lemma scan_calls_end d (Hok : dict_ok type d) (Hne : dict_entries d <> []) : forall n v,
  0 <= v < 2 ^ 64 -> (0 < n)%nat -> rev v mod width (scan_exp d) = 0 ->
  2 ^ 64 - rev v <= Z.of_nat n * width (scan_exp d) ->
  exists out, scan_calls (replicate n d) v = Some (out, 0).
Proof.
  pose proof (scan_exp_range d Hok Hne). set (W := width (scan_exp d)).
  assert (0 < W) as HW by (apply width_pos; lia).
  induction n as [|n IH]; intros v Hv Hn Hmod Hleft; [lia|]. cbn [replicate scan_calls].
  destruct (dictScan_ok type d v Hok Hv) as (out & v' & -> & Hv' & _ & Hend & _). specialize (Hend Hne). fold W in Hend.
  cbn [mbind option_bind]. destruct (decide (v' = 0)) as [->|Hv0]; [by exists out|].
  unfold scan_end in Hend. rewrite decide_False in Hend by done. pose proof (rev_range v').
  pose proof (Z.div_mod (rev v) W ltac:(lia)) as Hdm.
  destruct (IH v' Hv') as (out' & ->).
  - destruct n; [lia|lia].
  - rewrite Hend. apply Z.mod_mul. lia.
  - rewrite Hend. lia.
  - by exists (out ++ out').
Qed.

End iteration.

(** C10: the guarantee of SCAN. Between the calls of a complete iteration (from
    cursor 0 until 0 is returned) the dictionary may be any well-formed state
    whatsoever: grown, shrunk, in the middle of a rehashing. A key that is in the
    dictionary at every call is returned by at least one of them. *)
Theorem dictScan_complete {K V : Type} `{EqDecision K} (type : @dictType K V) (Hty : DictTypeOk type)
    (key : K) (ds : list dict) out :
  ds <> [] -> Forall (dict_ok type) ds -> Forall (fun d => has_key type key (dict_entries d)) ds ->
  scan_calls ds 0 = Some (out, 0) -> has_key type key out.
Proof.
  intros Hne Hok Hkey Hrun. eapply (scan_calls_cover type key ds 0); try done. rewrite rev_0. apply rev_range.
Qed.

(** The calls of the example meet a table of 4 buckets, its rehashing to 8, the
    table of 8 buckets and its rehashing to 64. *)
Lemma dictScan_complete_witness :
  has_key int_type 3 [(1, Some 10); (4, Some 40); (5, Some 50); (3, Some 30); (2, Some 20)].
Proof.
  apply (dictScan_complete int_type _ 3 (map example_dict [4; 5; 5; 11; 11; 14]%nat)).
  - done.
  - repeat (apply Forall_cons; split; [apply (proj1 (example_dict_ok _))|]). constructor.
  - repeat (apply Forall_cons; split; [|]); [..|constructor].
    all: unfold has_key.
    1-3: exists (3, Some 30); split; [apply (bool_decide_unpack _); by vm_compute|done].
    all: exists (3, Some 32); split; [apply (bool_decide_unpack _); by vm_compute|done].
  - by vm_compute.
Defined.

(** C32: a scan of a dictionary that does not change ends after at most one call
    per bucket of its smaller table, and returns all its keys. *)
Theorem dictScan_terminates {K V : Type} `{EqDecision K} (type : @dictType K V) (Hty : DictTypeOk type) (d : dict) :
  dict_ok type d -> dict_entries d <> [] ->
  exists out, scan_calls (replicate (Z.to_nat (2 ^ scan_exp d)) d) 0 = Some (out, 0) /\
  forall key, has_key type key (dict_entries d) -> has_key type key out.
Proof.
  intros Hok Hne. assert (2 <= scan_exp d <= 60) as He by (by apply (scan_exp_range type)).
  assert (0 < 2 ^ scan_exp d) by (apply Z.pow_pos_nonneg; lia).
  destruct (scan_calls_end type d Hok Hne (Z.to_nat (2 ^ scan_exp d)) 0) as (out & Hout).
  - lia.
  - lia.
  - done.
  - rewrite rev_0, Z2Nat.id, width_split by lia. lia.
  - exists out. split; [done|]. intros key Hkey.
    eapply (scan_calls_cover type key _ 0 out); [| | |exact Hout| |].
    + destruct (Z.to_nat (2 ^ scan_exp d)) eqn:E; [lia|done].
    + by apply Forall_replicate.
    + lia.
    + by apply Forall_replicate.
    + rewrite rev_0. apply rev_range.
Qed.

Lemma dictScan_terminates_witness :
  exists out, scan_calls (replicate 4 (example_dict 5)) 0 = Some (out, 0) /\
  forall key, has_key int_type key (dict_entries (example_dict 5)) -> has_key int_type key out.
Proof.
  replace 4%nat with (Z.to_nat (2 ^ scan_exp (example_dict 5))) by (by vm_compute).
  apply (dictScan_terminates int_type _ (example_dict 5)); [apply (proj1 (example_dict_ok _))|by vm_compute].
Defined.
