(* ===== verification/Lzf.v ===== *)
(** * LZF compression (lzf_c.c, lzf_d.c)

    The compressor of RDB strings and of quicklist nodes, with the configuration
    of lzfP.h: HLOG 16, VERY_FAST, CHECK_INPUT, and a hash table that is not
    initialised.  Pointers are offsets from the start of their buffer; an access
    outside a buffer is [None].

    The format is the relation [encodes], with the numbers that the code of both
    files uses: runs of 1 to 32 literals, references of 3 to 264 octets, offsets
    up to 8192.  The comment in lzf_c.c that draws the format has the same three
    shapes of token with other numbers (runs up to 33, references of L+1 or L+8
    octets, offsets up to 4096), which neither file follows.

    The decompressor accepts exactly the blocks of [encodes] that fit its output.
    The compressor, whatever its hash table held, stays inside its buffers on
    inputs that do not have exactly one octet ([lzf_compress_one_octet]), and
    produces a block that stands for its input, or gives up, which it does not
    when the output has a thirty-second part more room than the input. *)

From S2P Require Import Prelude.

Definition HLOG : Z := 16.
Definition HSIZE : Z := Z.shiftl 1 HLOG.
Definition MAX_LIT : Z := Z.shiftl 1 5.
Definition MAX_OFF : Z := Z.shiftl 1 13.
Definition MAX_REF : Z := Z.shiftl 1 8 + Z.shiftl 1 3.

Definition E2BIG : Z := 7.
Definition EINVAL : Z := 22.

(** ** The hash of three octets *)

Definition FRST (inp : bytes) (p : Z) : option Z :=
  p0 ← peek inp p; p1 ← peek inp (p + 1); Some (Z.lor (Z.shiftl p0 8) p1).

Definition NEXT (v : Z) (inp : bytes) (p : Z) : option Z :=
  p2 ← peek inp (p + 2); Some (Z.lor (u32 (Z.shiftl v 8)) p2).

Definition IDX (h : Z) : Z := Z.land (u32 (Z.shiftr h (3 * 8 - HLOG) - h * 5)) (HSIZE - 1).

(** The hash table: one position for every slot, with anything in the slots that
    were not written. *)
Definition LZF_STATE : Type := Z -> Z.
Definition set_slot (htab : LZF_STATE) (i p : Z) : LZF_STATE := fun j => if decide (j = i) then p else htab j.

(** ** Compression *)

(** The unrolled comparisons: the length reached, and whether they broke off. *)
Fixpoint match_unrolled (n : nat) (inp : bytes) (ref ip len : Z) : option (Z * bool) :=
  match n with
  | O => Some (len, false)
  | S n =>
      let len := len + 1 in
      a ← peek inp (ref + len); b ← peek inp (ip + len);
      if decide (a <> b) then Some (len, true) else match_unrolled n inp ref ip len
  end.

(** [do len++; while (len < maxlen && ref[len] == ip[len])]. *)
Fixpoint match_more (fuel : nat) (inp : bytes) (ref ip maxlen len : Z) : option Z :=
  match fuel with
  | O => None
  | S fuel =>
      let len := len + 1 in
      if decide (len < maxlen) then
        a ← peek inp (ref + len); b ← peek inp (ip + len);
        if decide (a = b) then match_more fuel inp ref ip maxlen len else Some len
      else Some len
  end.

Definition match_len (inp : bytes) (ref ip maxlen : Z) : option Z :=
  '(len, broke) ← (if decide (maxlen > 16) then match_unrolled 16 inp ref ip 2 else Some (2, false));
  if (broke : bool) then Some len
  else match_more (S (Z.to_nat maxlen)) inp ref ip maxlen len.

Record lzf_state := LzfState {
  ip : Z; op : Z; lit : Z; hval : Z; htab : LZF_STATE; outb : bytes
}.

(** The outcome of an iteration: the function returns, the loop ends, or it goes on. *)
Inductive lzf_outcome := LzfReturn (n : Z) (out : bytes) | LzfBreak (s : lzf_state) | LzfNext (s : lzf_state).

(** The test for a match at [ref]. *)
Definition is_match (inp : bytes) (ref ip : Z) : option bool :=
  let off := u64 (ip - ref - 1) in
  if decide (off < MAX_OFF /\ ref > 0) then
    r2 ← peek inp (ref + 2); i2 ← peek inp (ip + 2);
    if decide (r2 = i2) then
      r ← mem_read inp ref 2; i ← mem_read inp ip 2;
      Some (bool_decide (r = i))
    else Some false
  else Some false.

(** The octets of a back reference. *)
Definition write_ref (out : bytes) (op off len : Z) : option (bytes * Z) :=
  '(out, op) ← (if decide (len < 7) then
                  out ← poke out op (u8 (Z.shiftr off 8 + Z.shiftl len 5)); Some (out, op + 1)
                else
                  out ← poke out op (u8 (Z.shiftr off 8 + Z.shiftl 7 5));
                  out ← poke out (op + 1) (u8 (len - 7)); Some (out, op + 2));
  out ← poke out op (u8 off);
  Some (out, op + 1).

(** The branch for a match. *)
Definition emit_match (inp : bytes) (s : lzf_state) (ref : Z) : option lzf_outcome :=
  let in_end := zlen inp in
  let out_end := zlen (outb s) in
  let nolit := if decide (lit s = 0) then 1 else 0 in
  let maxlen := in_end - ip s - 2 in
  let maxlen := if decide (maxlen > MAX_REF) then MAX_REF else maxlen in
  let off := u64 (ip s - ref - 1) in
  if decide (op s + 3 + 1 >= out_end /\ op s - nolit + 3 + 1 >= out_end) then Some (LzfReturn 0 (outb s)) else
  out ← poke (outb s) (op s - lit s - 1) (u8 (lit s - 1));
  let op1 := op s - nolit in
  len ← match_len inp ref (ip s) maxlen;
  let len := len - 2 in
  '(out, op1) ← write_ref out op1 off len;
  let op1 := op1 + 1 in
  let ip1 := ip s + 1 + (len + 1) in
  if decide (ip1 >= in_end - 2) then Some (LzfBreak (LzfState ip1 op1 0 (hval s) (htab s) out)) else
  let ip2 := ip1 - 1 - 1 in
  h ← FRST inp ip2;
  h ← NEXT h inp ip2;
  let ht := set_slot (htab s) (IDX h) ip2 in
  h ← NEXT h inp (ip2 + 1);
  let ht := set_slot ht (IDX h) (ip2 + 1) in
  Some (LzfNext (LzfState (ip2 + 2) op1 0 h ht out)).

(** The end of a run of [MAX_LIT] literals. *)
Definition close_full_run (s : lzf_state) : option lzf_state :=
  if decide (lit s = MAX_LIT) then
    out ← poke (outb s) (op s - lit s - 1) (u8 (lit s - 1));
    Some (LzfState (ip s) (op s + 1) 0 (hval s) (htab s) out)
  else Some s.

(** [lit++; *op++ = *ip++], and the end of a full run. *)
Definition copy_literal (inp : bytes) (s : lzf_state) : option lzf_state :=
  b ← peek inp (ip s);
  out ← poke (outb s) (op s) b;
  close_full_run (LzfState (ip s + 1) (op s + 1) (lit s + 1) (hval s) (htab s) out).

(** One iteration of the main loop. *)
Definition compress_step (inp : bytes) (s : lzf_state) : option lzf_outcome :=
  h ← NEXT (hval s) inp (ip s);
  let ref := htab s (IDX h) in
  let s := LzfState (ip s) (op s) (lit s) h (set_slot (htab s) (IDX h) (ip s)) (outb s) in
  m ← is_match inp ref (ip s);
  if (m : bool) then emit_match inp s ref
  else if decide (op s >= zlen (outb s)) then Some (LzfReturn 0 (outb s))
  else s ← copy_literal inp s; Some (LzfNext s).

Fixpoint compress_loop (fuel : nat) (inp : bytes) (s : lzf_state) : option lzf_outcome :=
  match fuel with
  | O => None
  | S fuel =>
      if decide (ip s < zlen inp - 2) then
        o ← compress_step inp s;
        match o with LzfNext s => compress_loop fuel inp s | _ => Some o end
      else Some (LzfBreak s)
  end.

(** The literals left at the end. *)
Fixpoint tail_loop (fuel : nat) (inp : bytes) (s : lzf_state) : option lzf_state :=
  match fuel with
  | O => None
  | S fuel =>
      if decide (ip s < zlen inp) then s ← copy_literal inp s; tail_loop fuel inp s else Some s
  end.

Definition lzf_compress (inp out : bytes) (htab : LZF_STATE) : option (Z * bytes) :=
  if decide (zlen inp = 0 \/ zlen out = 0) then Some (0, out) else
  h ← FRST inp 0;
  o ← compress_loop (S (length inp)) inp (LzfState 0 1 0 h htab out);
  match o with
  | LzfReturn n out => Some (n, out)
  | LzfNext _ => None
  | LzfBreak s =>
      if decide (op s + 3 > zlen (outb s)) then Some (0, outb s) else
      s ← tail_loop (S (length inp)) inp s;
      out ← poke (outb s) (op s - lit s - 1) (u8 (lit s - 1));
      Some (op s - (if decide (lit s = 0) then 1 else 0), out)
  end.

(** ** Decompression *)

(** Octet by octet copying of [n] octets from position [ref] of the output to its end. *)
Fixpoint copy_octets (n : nat) (out : bytes) (ref : Z) : option bytes :=
  match n with
  | O => Some out
  | S n => b ← peek out ref; copy_octets n (out ++ [b]) (ref + 1)
  end.

Inductive lzf_result := Decompressed (out : bytes) | DecompressError (errno : Z).

(** The back reference: fall-through copying up to 11 octets, [memcpy] for
    disjoint areas, octets otherwise. *)
Definition copy_ref (out : bytes) (ref len : Z) : option bytes :=
  if decide (len <= 9) then copy_octets (Z.to_nat (len + 2)) out ref
  else
    let len := len + 2 in
    if decide (zlen out >= ref + len) then bs ← mem_read out ref len; Some (out ++ bs)
    else copy_octets (Z.to_nat len) out ref.

(** One control octet: the new input position and output, or the error. *)
Definition decompress_step (inp : bytes) (ip : Z) (out : bytes) (out_len : Z) : option (Z * bytes + Z) :=
  let in_end := zlen inp in
  ctrl ← peek inp ip;
  let ip := ip + 1 in
  if decide (ctrl < Z.shiftl 1 5) then
    let ctrl := ctrl + 1 in
    if decide (zlen out + ctrl > out_len) then Some (inr E2BIG) else
    if decide (ip + ctrl > in_end) then Some (inr EINVAL) else
    bs ← mem_read inp ip ctrl;
    Some (inl (ip + ctrl, out ++ bs))
  else
    let len := Z.shiftr ctrl 5 in
    let ref := zlen out - Z.shiftl (Z.land ctrl 0x1f) 8 - 1 in
    if decide (ip >= in_end) then Some (inr EINVAL) else
    '(len, ip) ← (if decide (len = 7) then b ← peek inp ip; Some (len + b, ip + 1) else Some (len, ip));
    if decide (ip >= in_end) then Some (inr EINVAL) else
    b ← peek inp ip;
    let ref := ref - b in
    let ip := ip + 1 in
    if decide (zlen out + len + 2 > out_len) then Some (inr E2BIG) else
    if decide (ref < 0) then Some (inr EINVAL) else
    out ← copy_ref out ref len;
    Some (inl (ip, out)).

Fixpoint decompress_loop (fuel : nat) (inp : bytes) (ip : Z) (out : bytes) (out_len : Z) : option lzf_result :=
  match fuel with
  | O => None
  | S fuel =>
      if decide (ip < zlen inp) then
        r ← decompress_step inp ip out out_len;
        match r with
        | inr errno => Some (DecompressError errno)
        | inl (ip, out) => decompress_loop fuel inp ip out out_len
        end
      else Some (Decompressed out)
  end.

(** The caller sees the length of the output, or 0 and [errno]. *)
Definition lzf_decompress (inp : bytes) (out_len : Z) : option lzf_result :=
  decompress_loop (S (length inp)) inp 0 [] out_len.

(** ** The format *)

(** The octets of a back reference to the octet [off + 1] positions before the
    end, of [len + 2] octets. *)
Definition ref_bytes (off len : Z) : bytes :=
  if decide (len < 7) then [off / 256 + 32 * len; off mod 256]
  else [off / 256 + 224; len - 7; off mod 256].

(** [encodes src out]: the block [src] stands for the octets [out].  A run of
    literals has up to [MAX_LIT] octets, a reference copies [len + 2] octets, at
    most [MAX_REF], from at most [MAX_OFF] octets back. *)
Inductive encodes : bytes -> bytes -> Prop :=
  | encodes_nil : encodes [] []
  | encodes_lit src out lits :
      encodes src out -> 1 <= zlen lits <= 32 -> encodes (src ++ (zlen lits - 1) :: lits) (out ++ lits)
  | encodes_ref src out off len bs :
      encodes src out -> 0 <= off < 8192 -> off < zlen out -> 1 <= len <= 262 -> zlen bs = len + 2 ->
      (forall i, (i < length bs)%nat ->
        (out ++ bs) !! (length out + i)%nat = (out ++ bs) !! (Z.to_nat (zlen out - off - 1) + i)%nat) ->
      encodes (src ++ ref_bytes off len) (out ++ bs).

(** ** Copying *)

Lemma copy_octets_eq bs : forall out ref,
  0 <= ref < zlen out ->
  (forall i, (i < length bs)%nat -> (out ++ bs) !! (length out + i)%nat = (out ++ bs) !! (Z.to_nat ref + i)%nat) ->
  copy_octets (length bs) out ref = Some (out ++ bs).
Proof.
  induction bs as [|b bs IH]; intros out ref Href Heq; cbn [copy_octets length].
  { by rewrite app_nil_r. }
  pose proof (Heq 0%nat ltac:(simpl; lia)) as H0. rewrite !Nat.add_0_r in H0.
  rewrite list_lookup_middle in H0 by done. rewrite lookup_app_l in H0 by zlia.
  unfold peek. rewrite decide_True by lia. rewrite <- H0. cbn [mbind option_bind].
  rewrite IH; [by rewrite <- app_assoc|zlia|].
  intros i Hi. specialize (Heq (S i) ltac:(simpl; lia)). rewrite <- app_assoc. cbn [app].
  rewrite length_app. cbn [length]. replace (Z.to_nat (ref + 1)) with (S (Z.to_nat ref)) by lia.
  replace (length out + 1 + i)%nat with (length out + S i)%nat by lia.
  by replace (S (Z.to_nat ref) + i)%nat with (Z.to_nat ref + S i)%nat by lia.
Qed.

(** There is always something to copy. *)
Lemma copy_octets_exists n : forall out ref,
  0 <= ref < zlen out ->
  exists bs, length bs = n /\ copy_octets n out ref = Some (out ++ bs) /\
  forall i, (i < n)%nat -> (out ++ bs) !! (length out + i)%nat = (out ++ bs) !! (Z.to_nat ref + i)%nat.
Proof.
  induction n as [|n IH]; intros out ref Href.
  { exists []. cbn. rewrite app_nil_r. split_and!; try done. lia. }
  destruct (peek_Some out ref Href) as (b & Hb). cbn [copy_octets]. rewrite Hb. cbn [mbind option_bind].
  apply peek_inv in Hb as [_ Hb].
  destruct (IH (out ++ [b]) (ref + 1) ltac:(zlia)) as (bs & Hlen & -> & Heq).
  exists (b :: bs). rewrite <- app_assoc. split_and!; [simpl; lia|done|]. intros [|i] Hi.
  - rewrite !Nat.add_0_r, list_lookup_middle by done. rewrite lookup_app_l by (by eapply lookup_lt_Some). done.
  - specialize (Heq i ltac:(lia)). rewrite <- app_assoc in Heq. cbn [app] in Heq.
    rewrite length_app in Heq. cbn [length] in Heq.
    replace (Z.to_nat (ref + 1)) with (S (Z.to_nat ref)) in Heq by lia.
    replace (length out + S i)%nat with (length out + 1 + i)%nat by lia. rewrite Heq. f_equal. lia.
Qed.

(** The three ways of copying are one. *)
Lemma copy_ref_eq out ref len :
  0 <= ref < zlen out -> 1 <= len -> copy_ref out ref len = copy_octets (Z.to_nat (len + 2)) out ref.
Proof.
  intros Href Hlen. unfold copy_ref. destruct (decide (len <= 9)); [done|].
  destruct (decide (zlen out >= ref + (len + 2))); [|done].
  rewrite mem_read_Some by lia. cbn [mbind option_bind].
  assert (length (slice out ref (len + 2)) = Z.to_nat (len + 2)) as Hl.
  { pose proof (zlen_slice out ref (len + 2) ltac:(lia) ltac:(lia) ltac:(lia)). unfold zlen in *. lia. }
  rewrite <- Hl. rewrite copy_octets_eq; [done|done|].
  intros i Hi. rewrite lookup_app_r by lia. rewrite (lookup_app_l out) by zlia.
  replace (length out + i - length out)%nat with i by lia. unfold slice.
  rewrite lookup_take_lt by lia. apply lookup_drop.
Qed.

(** ** The decompressor accepts the format *)

Lemma peek_app_r {A} (l k : list A) i : 0 <= i -> peek (l ++ k) (zlen l + i) = peek k i.
Proof.
  intros. unfold peek. rewrite !decide_True by zlia. rewrite lookup_app_r by zlia. f_equal. zlia.
Qed.

Lemma peek_middle {A} (l k : list A) x : peek (l ++ x :: k) (zlen l) = Some x.
Proof. unfold peek. rewrite decide_True by zlia. apply list_lookup_middle. zlia. Qed.

Lemma ref_bytes_ctrl off len :
  0 <= off < 8192 -> 1 <= len <= 262 ->
  let ctrl := off / 256 + 32 * Z.min len 7 in
  32 <= ctrl < 256 /\ Z.shiftr ctrl 5 = Z.min len 7 /\ Z.shiftl (Z.land ctrl 0x1f) 8 = off / 256 * 256.
Proof.
  intros Ho Hl ctrl. assert (0 <= off / 256 < 32) by (split; [apply Z.div_pos|apply Z.div_lt_upper_bound]; lia).
  subst ctrl. split; [lia|]. split.
  - rewrite Z.shiftr_div_pow2 by lia. change (2 ^ 5) with 32.
    replace (off / 256 + 32 * Z.min len 7) with (Z.min len 7 * 32 + off / 256) by lia.
    rewrite Z.div_add_l by lia. rewrite Z.div_small by lia. lia.
  - change 0x1f with (Z.ones 5). rewrite Z.land_ones by lia. change (2 ^ 5) with 32.
    replace (off / 256 + 32 * Z.min len 7) with (off / 256 + Z.min len 7 * 32) by lia.
    rewrite Z_mod_plus_full, Z.mod_small by lia. rewrite Z.shiftl_mul_pow2 by lia. done.
Qed.

(** A literal run. *)
Lemma step_lit src lits rest out out_len :
  1 <= zlen lits <= 32 -> zlen out + zlen lits <= out_len ->
  decompress_step (src ++ (zlen lits - 1) :: lits ++ rest) (zlen src) out out_len
  = Some (inl (zlen src + 1 + zlen lits, out ++ lits)).
Proof.
  intros Hl Hout. unfold decompress_step.
  rewrite peek_middle.
  cbn [mbind option_bind]. change (Z.shiftl 1 5) with 32. rewrite decide_True by lia.
  replace (zlen lits - 1 + 1) with (zlen lits) by lia. rewrite decide_False by lia.
  rewrite decide_False by zlia. rewrite mem_read_Some by zlia. cbn [mbind option_bind].
  rewrite slice_app_r by zlia. replace (zlen src + 1 - zlen src) with (zlen [zlen lits - 1]) by (rewrite zlen_cons, zlen_nil; lia).
  change ((zlen lits - 1) :: lits ++ rest) with ([zlen lits - 1] ++ (lits ++ rest)).
  rewrite slice_app_r by lia. rewrite Z.sub_diag, slice_app_l by zlia. by rewrite slice_full.
Qed.

(** A back reference. *)
Lemma step_ref src rest out out_len off len :
  0 <= off < 8192 -> off < zlen out -> 1 <= len <= 262 -> zlen out + len + 2 <= out_len ->
  decompress_step (src ++ ref_bytes off len ++ rest) (zlen src) out out_len
  = (fun o => inl (zlen src + zlen (ref_bytes off len), o)) <$> copy_octets (Z.to_nat (len + 2)) out (zlen out - off - 1).
Proof.
  intros Ho Hoff Hl Hout. destruct (ref_bytes_ctrl off len Ho Hl) as (Hc & Hlen & Hsh).
  set (ctrl := off / 256 + 32 * Z.min len 7) in *.
  assert (0 <= off mod 256 < 256) as Hm by (apply Z.mod_pos_bound; lia).
  pose proof (Z.div_mod off 256 ltac:(lia)) as Hdm.
  assert (exists mid, ref_bytes off len = ctrl :: mid ++ [off mod 256] /\ mid = if decide (len < 7) then [] else [len - 7]) as (mid & Hrb & Hmid).
  { unfold ref_bytes, ctrl. destruct (decide (len < 7)).
    - rewrite Z.min_l by lia. by exists [].
    - rewrite Z.min_r by lia. by exists [len - 7]. }
  rewrite Hrb. unfold decompress_step.
  replace (peek _ (zlen src)) with (Some ctrl) by (symmetry; apply peek_middle).
  cbn [mbind option_bind]. change (Z.shiftl 1 5) with 32. rewrite decide_False by lia. rewrite Hlen, Hsh.
  rewrite (decide_False (P := zlen src + 1 >= _)) by zlia.
  assert (forall ip, ip = zlen src + 1 + zlen mid ->
    peek (src ++ (ctrl :: mid ++ [off mod 256]) ++ rest) ip = Some (off mod 256)) as Hpk.
  { intros ip ->. replace (src ++ _) with ((src ++ ctrl :: mid) ++ (off mod 256 :: rest)) by (by rewrite <- !app_assoc; cbn; rewrite <- app_assoc).
    replace (zlen src + 1 + zlen mid) with (zlen (src ++ ctrl :: mid)) by zlia. apply peek_middle. }
  assert (forall l ip, l = len -> ip = zlen src + 1 + zlen mid ->
    (if decide (ip >= zlen (src ++ (ctrl :: mid ++ [off mod 256]) ++ rest)) then Some (inr EINVAL) else
     b ← peek (src ++ (ctrl :: mid ++ [off mod 256]) ++ rest) ip;
     if decide (zlen out + l + 2 > out_len) then Some (inr E2BIG) else
     if decide (zlen out - off / 256 * 256 - 1 - b < 0) then Some (inr EINVAL) else
     out ← copy_ref out (zlen out - off / 256 * 256 - 1 - b) l; Some (inl (ip + 1, out)))
    = (fun o => inl (zlen src + zlen (ctrl :: mid ++ [off mod 256]), o)) <$> copy_octets (Z.to_nat (len + 2)) out (zlen out - off - 1)) as Hend.
  { intros l ip -> Hip. rewrite decide_False by zlia. rewrite (Hpk ip Hip). cbn [mbind option_bind].
    rewrite decide_False by lia. rewrite decide_False by lia.
    replace (zlen out - off / 256 * 256 - 1 - off mod 256) with (zlen out - off - 1) by lia.
    rewrite copy_ref_eq by lia. destruct (copy_octets _ _ _); [|done]. cbn. do 3 f_equal. zlia. }
  destruct (decide (len < 7)); subst mid.
  - rewrite Z.min_l, (decide_False (P := len = 7)) by lia. cbn [mbind option_bind]. apply Hend; [done|zlia].
  - rewrite Z.min_r, (decide_True (P := 7 = 7)) by lia.
    replace (peek _ (zlen src + 1)) with (Some (len - 7)).
    2: { rewrite peek_app_r by lia. done. }
    cbn [mbind option_bind]. apply Hend; [lia|zlia].
Qed.

(** Every block of the format is decoded, one step per token. *)
Lemma encodes_runs src out L :
  encodes src out -> zlen out <= L -> forall rest,
  exists k, (k <= length src)%nat /\ forall fuel,
  decompress_loop (k + fuel) (src ++ rest) 0 [] L = decompress_loop fuel (src ++ rest) (zlen src) out L.
Proof.
  intros Henc. induction Henc as [|src out lits Henc IH Hl|src out off len bs Henc IH Ho Hoff Hl Hbs Heq]; intros HL rest.
  - by exists O.
  - rewrite zlen_app in HL. rewrite <- app_assoc. cbn [app].
    destruct (IH ltac:(zlia) ((zlen lits - 1) :: lits ++ rest)) as (k & Hk & Hrun). exists (k + 1)%nat.
    split; [zlia|]. intros fuel. replace (k + 1 + fuel)%nat with (k + S fuel)%nat by lia. rewrite Hrun. cbn [decompress_loop].
    rewrite decide_True by zlia. rewrite step_lit by zlia. cbn [mbind option_bind]. f_equal. zlia.
  - rewrite zlen_app in HL. rewrite <- app_assoc.
    destruct (IH ltac:(zlia) (ref_bytes off len ++ rest)) as (k & Hk & Hrun). exists (k + 1)%nat.
    assert (2 <= zlen (ref_bytes off len)) by (unfold ref_bytes; case_decide; zlia).
    split; [zlia|]. intros fuel. replace (k + 1 + fuel)%nat with (k + S fuel)%nat by lia. rewrite Hrun. cbn [decompress_loop].
    rewrite decide_True by zlia. rewrite step_ref by lia.
    replace (Z.to_nat (len + 2)) with (length bs) by zlia.
    rewrite copy_octets_eq; [|lia|done]. cbn [fmap option_fmap option_map mbind option_bind]. f_equal. zlia.
Qed.

Lemma decompress_complete src out L :
  encodes src out -> zlen out <= L -> lzf_decompress src L = Some (Decompressed out).
Proof.
  intros Henc HL. destruct (encodes_runs src out L Henc HL []) as (k & Hk & Hrun). rewrite app_nil_r in Hrun.
  unfold lzf_decompress. replace (S (length src)) with (k + S (length src - k))%nat by lia.
  rewrite Hrun. cbn [decompress_loop]. by rewrite decide_False by lia.
Qed.

(** ** The decompressor accepts nothing else *)

Lemma take_slice {A} (m : list A) a n :
  0 <= a -> 0 <= n -> take (Z.to_nat (a + n)) m = take (Z.to_nat a) m ++ slice m a n.
Proof. intros. pose proof (slice_split m 0 a n ltac:(lia) ltac:(lia) ltac:(lia)) as H1. exact H1. Qed.

Lemma slice_cons {A} (m : list A) a n x :
  peek m a = Some x -> 0 <= n -> slice m a (1 + n) = x :: slice m (a + 1) n.
Proof.
  intros Hx Hn. apply peek_inv in Hx as [Ha Hx]. unfold slice. rewrite (drop_S _ _ _ Hx).
  replace (Z.to_nat (1 + n)) with (S (Z.to_nat n)) by lia. replace (Z.to_nat (a + 1)) with (S (Z.to_nat a)) by lia. done.
Qed.

Lemma peek_byte (m : bytes) i x : bytes_ok m -> peek m i = Some x -> 0 <= x < 256.
Proof. intros Hm [_ Hx]%peek_inv. rewrite Forall_lookup in Hm. by apply Hm in Hx. Qed.

(** What an accepted back reference was. *)
Lemma ref_bytes_parse ctrl b2 :
  32 <= ctrl < 256 -> 0 <= b2 < 256 ->
  let off := Z.shiftl (Z.land ctrl 0x1f) 8 + b2 in
  0 <= off < 8192 /\ off mod 256 = b2 /\ ctrl = off / 256 + 32 * Z.shiftr ctrl 5 /\ 1 <= Z.shiftr ctrl 5 <= 7.
Proof.
  intros Hc Hb off. subst off. change 0x1f with (Z.ones 5).
  rewrite Z.land_ones, Z.shiftl_mul_pow2, Z.shiftr_div_pow2 by lia. change (2 ^ 5) with 32. change (2 ^ 8) with 256.
  pose proof (Z.mod_pos_bound ctrl 32 ltac:(lia)). pose proof (Z.div_mod ctrl 32 ltac:(lia)).
  assert ((ctrl mod 32 * 256 + b2) mod 256 = b2) as Hm by (rewrite Z.add_comm, Z_mod_plus_full; apply Z.mod_small; lia).
  assert ((ctrl mod 32 * 256 + b2) / 256 = ctrl mod 32) as Hd by (rewrite Z.div_add_l, Z.div_small by lia; lia).
  rewrite Hm, Hd. split; [lia|]. split; [done|]. split; lia.
Qed.

(** The control octet and the optional length octet of a back reference. *)
Lemma ref_header inp i ctrl :
  bytes_ok inp -> peek inp i = Some ctrl -> 32 <= ctrl < 256 -> i + 1 < zlen inp ->
  exists len ip, (if decide (Z.shiftr ctrl 5 = 7) then b ← peek inp (i + 1); Some (Z.shiftr ctrl 5 + b, i + 1 + 1)
     else Some (Z.shiftr ctrl 5, i + 1)) = Some (len, ip) /\ i + 1 <= ip <= i + 2 /\
  (forall b2, 0 <= b2 < 256 -> peek inp ip = Some b2 -> 1 <= len <= 262 /\
    slice inp i (ip + 1 - i) = ref_bytes (Z.shiftl (Z.land ctrl 0x1f) 8 + b2) len).
Proof.
  intros Hb Hctrl Hc Hi. destruct (peek_inv _ _ _ Hctrl) as [Hi0 _].
  destruct (decide (Z.shiftr ctrl 5 = 7)) as [H7|H7].
  - destruct (peek_Some inp (i + 1) ltac:(lia)) as (b & Hpb). pose proof (peek_byte _ _ _ Hb Hpb) as Hbb. rewrite Hpb.
    eexists _, _. split; [done|]. split; [lia|]. intros b2 Hb2 Hp2.
    destruct (ref_bytes_parse ctrl b2 Hc Hb2) as (_ & Hm & Hd & _). rewrite H7 in *.
    split; [lia|]. unfold ref_bytes. rewrite decide_False by lia. rewrite Hm.
    replace (i + 1 + 1 + 1 - i) with (1 + (1 + (1 + 0))) by lia.
    rewrite (slice_cons _ _ _ ctrl), (slice_cons _ _ _ b), (slice_cons _ _ _ b2) by (done || lia).
    unfold slice. cbn [take Z.to_nat]. f_equal; [lia|]. f_equal. lia.
  - eexists _, _. split; [done|]. split; [lia|]. intros b2 Hb2 Hp2.
    destruct (ref_bytes_parse ctrl b2 Hc Hb2) as (_ & Hm & Hd & Hr).
    split; [lia|]. unfold ref_bytes. rewrite decide_True by lia. rewrite Hm.
    replace (i + 1 + 1 - i) with (1 + (1 + 0)) by lia.
    rewrite (slice_cons _ _ _ ctrl), (slice_cons _ _ _ b2) by (done || lia). unfold slice. cbn [take Z.to_nat]. f_equal. lia.
Qed.

Lemma decompress_step_sound inp i out L :
  bytes_ok inp -> 0 <= i < zlen inp -> encodes (take (Z.to_nat i) inp) out ->
  exists r, decompress_step inp i out L = Some r /\
  forall i' out', r = inl (i', out') -> i < i' <= zlen inp /\ encodes (take (Z.to_nat i') inp) out' /\ zlen out' <= L.
Proof.
  intros Hb Hi Henc. unfold decompress_step. destruct (peek_Some inp i Hi) as (ctrl & Hctrl).
  pose proof (peek_byte _ _ _ Hb Hctrl) as Hc. rewrite Hctrl. cbn [mbind option_bind]. change (Z.shiftl 1 5) with 32.
  destruct (decide (ctrl < 32)) as [Hlit|Href].
  - destruct (decide (zlen out + (ctrl + 1) > L)); [by eexists|].
    destruct (decide (i + 1 + (ctrl + 1) > zlen inp)); [by eexists|].
    rewrite mem_read_Some by lia. cbn [mbind option_bind]. eexists. split; [done|]. intros i' out' [= <- <-].
    split; [lia|]. split; [|zlia].
    replace (i + 1 + (ctrl + 1)) with (i + (1 + (ctrl + 1))) by lia. rewrite take_slice, (slice_cons _ _ _ ctrl) by (done || lia).
    assert (zlen (slice inp (i + 1) (ctrl + 1)) = ctrl + 1) as Hsl by (apply zlen_slice; lia).
    replace ctrl with (zlen (slice inp (i + 1) (ctrl + 1)) - 1) at 1 by lia. apply encodes_lit; [done|lia].
  - destruct (decide (i + 1 >= zlen inp)); [by eexists|].
    destruct (ref_header inp i ctrl Hb Hctrl ltac:(lia) ltac:(lia)) as (len & ip & Hmid & Hip & Hbytes).
    rewrite Hmid. cbn [mbind option_bind]. destruct (decide (ip >= zlen inp)); [by eexists|].
    destruct (peek_Some inp ip ltac:(lia)) as (b2 & Hp2). pose proof (peek_byte _ _ _ Hb Hp2) as Hb2. rewrite Hp2. cbn [mbind option_bind].
    destruct (Hbytes b2 Hb2 Hp2) as [Hlen Hsl]. destruct (ref_bytes_parse ctrl b2 ltac:(lia) Hb2) as (Hoff & _).
    set (off := Z.shiftl (Z.land ctrl 31) 8 + b2) in *.
    replace (zlen out - Z.shiftl (Z.land ctrl 31) 8 - 1 - b2) with (zlen out - off - 1) by (subst off; lia).
    destruct (decide (zlen out + len + 2 > L)); [by eexists|]. destruct (decide (zlen out - off - 1 < 0)); [by eexists|].
    rewrite copy_ref_eq by lia.
    destruct (copy_octets_exists (Z.to_nat (len + 2)) out (zlen out - off - 1) ltac:(lia)) as (bs & Hbs & -> & Heq).
    cbn [mbind option_bind]. eexists. split; [done|]. intros i' out' [= <- <-]. split; [lia|]. split; [|zlia].
    replace (ip + 1) with (i + (ip + 1 - i)) by lia. rewrite take_slice, Hsl by lia.
    apply encodes_ref; try done; [lia|zlia|]. by rewrite Hbs.
Qed.

Lemma decompress_loop_sound fuel : forall inp i out L,
  bytes_ok inp -> 0 <= i <= zlen inp -> encodes (take (Z.to_nat i) inp) out -> zlen out <= L -> zlen inp - i < Z.of_nat fuel ->
  exists r, decompress_loop fuel inp i out L = Some r /\
  forall out', r = Decompressed out' -> encodes inp out' /\ zlen out' <= L.
Proof.
  induction fuel as [|fuel IH]; intros inp i out L Hb Hi Henc HL Hf; [lia|]. cbn [decompress_loop].
  destruct (decide (i < zlen inp)) as [Hlt|Hge].
  - destruct (decompress_step_sound inp i out L Hb ltac:(lia) Henc) as (r & -> & Hr). cbn [mbind option_bind].
    destruct r as [[i' out']|e]; [|by eexists]. destruct (Hr _ _ eq_refl) as (Hi' & Henc' & HL').
    apply IH; try done; lia.
  - eexists. split; [done|]. intros out' [= <-]. rewrite firstn_all2 in Henc by zlia. done.
Qed.

(** ** The compressor *)

(** Octets that agree. *)
Definition agrees (inp : bytes) (ref i n : Z) : Prop :=
  forall j, 0 <= j < n -> peek inp (ref + j) = peek inp (i + j).

Lemma agrees_extend inp ref i n a :
  agrees inp ref i n -> peek inp (ref + n) = Some a -> peek inp (i + n) = Some a -> agrees inp ref i (n + 1).
Proof.
  intros H Ha Hb j Hj. destruct (decide (j = n)) as [->|]; [congruence|]. apply H. lia.
Qed.

Lemma match_unrolled_ok n : forall inp ref i len,
  0 <= ref < i -> 2 <= len -> i + len + Z.of_nat n < zlen inp -> agrees inp ref i (len + 1) ->
  exists len' broke, match_unrolled n inp ref i len = Some (len', broke) /\ len <= len' <= len + Z.of_nat n /\
  agrees inp ref i (if (broke : bool) then len' else len' + 1) /\ (broke = true -> len < len').
Proof.
  induction n as [|n IH]; intros inp ref i len Href Hlen Hend Hag; cbn [match_unrolled].
  { exists len, false. split; [done|]. split; [lia|]. done. }
  destruct (peek_Some inp (ref + (len + 1)) ltac:(lia)) as (a & Ha). destruct (peek_Some inp (i + (len + 1)) ltac:(lia)) as (b & Hb).
  rewrite Ha, Hb. cbn [mbind option_bind]. destruct (decide (a <> b)) as [|Heq].
  - exists (len + 1), true. split; [done|]. split; [lia|]. split; [done|lia].
  - assert (a = b) as <- by (destruct (decide (a = b)); tauto).
    destruct (IH inp ref i (len + 1) Href ltac:(lia) ltac:(lia)) as (len' & broke & -> & Hl & Hag' & Hbr).
    { by eapply agrees_extend. }
    exists len', broke. split; [done|]. split; [lia|]. split; [done|]. intros H. specialize (Hbr H). lia.
Qed.

Lemma match_more_ok fuel : forall inp ref i maxlen len,
  0 <= ref < i -> 2 <= len -> i + maxlen <= zlen inp -> i + len + 1 <= zlen inp -> agrees inp ref i (len + 1) ->
  (0 < fuel)%nat -> maxlen - len <= Z.of_nat fuel ->
  exists len', match_more fuel inp ref i maxlen len = Some len' /\ len + 1 <= len' <= Z.max (len + 1) maxlen /\
  agrees inp ref i len' /\ i + len' <= zlen inp.
Proof.
  induction fuel as [|fuel IH]; intros inp ref i maxlen len Href Hlen Hmax Hend Hag Hf Hfuel; [lia|]. cbn [match_more].
  destruct (decide (len + 1 < maxlen)) as [Hlt|Hge].
  - destruct (peek_Some inp (ref + (len + 1)) ltac:(lia)) as (a & Ha). destruct (peek_Some inp (i + (len + 1)) ltac:(lia)) as (b & Hb).
    rewrite Ha, Hb. cbn [mbind option_bind]. destruct (decide (a = b)) as [<-|].
    + destruct (IH inp ref i maxlen (len + 1)) as (len' & -> & Hl & Hag' & Hend'); try lia; [by eapply agrees_extend|].
      exists len'. split; [done|]. split; [lia|done].
    + exists (len + 1). split; [done|]. split; [lia|]. split; [done|lia].
  - exists (len + 1). split; [done|]. split; [lia|]. split; [done|lia].
Qed.

Lemma match_len_ok inp ref i :
  0 <= ref < i -> i + 3 <= zlen inp -> agrees inp ref i 3 ->
  let maxlen := zlen inp - i - 2 in
  let maxlen := if decide (maxlen > MAX_REF) then MAX_REF else maxlen in
  exists len, match_len inp ref i maxlen = Some len /\ 3 <= len <= 264 /\ i + len <= zlen inp /\ agrees inp ref i len.
Proof.
  intros Href Hi Hag. cbv zeta. change MAX_REF with 264. set (maxlen := if decide _ then _ else _).
  assert (1 <= maxlen <= 264 /\ i + maxlen + 2 <= zlen inp) as [Hm Hm'] by (subst maxlen; case_decide; lia).
  unfold match_len. destruct (decide (maxlen > 16)) as [Hbig|Hsmall].
  - destruct (match_unrolled_ok 16 inp ref i 2 Href ltac:(lia) ltac:(lia) Hag) as (len & broke & -> & Hl & Hag' & Hbr).
    cbn [mbind option_bind]. destruct broke.
    + specialize (Hbr eq_refl). exists len. split; [done|]. split; [lia|]. split; [lia|done].
    + destruct (match_more_ok (S (Z.to_nat maxlen)) inp ref i maxlen len) as (len' & -> & Hl' & Hag'' & Hend); try done; try lia.
      exists len'. split; [done|]. split; [lia|]. split; [lia|done].
  - cbn [mbind option_bind].
    destruct (match_more_ok (S (Z.to_nat maxlen)) inp ref i maxlen 2) as (len' & -> & Hl' & Hag'' & Hend); try done; try lia.
    exists len'. split; [done|]. split; [lia|]. split; [lia|done].
Qed.

(** The slots hold addresses, and the input is not in the first 8192 octets of
    the address space. *)
Definition slots_ok (htab : LZF_STATE) : Prop := forall j, htab j < 2 ^ 64 - 8192.

Lemma set_slot_ok htab i p : slots_ok htab -> p < 2 ^ 63 -> slots_ok (set_slot htab i p).
Proof. intros H Hp j. unfold set_slot. case_decide; [lia|apply H]. Qed.

Lemma off_small i ref :
  0 <= i < 2 ^ 63 -> ref < 2 ^ 64 - 8192 -> 0 < ref -> u64 (i - ref - 1) < 8192 ->
  ref < i /\ u64 (i - ref - 1) = i - ref - 1.
Proof.
  intros Hi Href Hpos Hoff. destruct (decide (ref < i)).
  - split; [done|]. apply uwrap_small. unfold in_u. lia.
  - exfalso. unfold u64, uwrap in Hoff.
    rewrite <- (Z.mod_unique (i - ref - 1) (2 ^ 64) (-1) (i - ref - 1 + 2 ^ 64)) in Hoff; lia.
Qed.

(** What [is_match] establishes; it reads inside the input. *)
Lemma is_match_ok inp ref i :
  0 <= i -> i + 3 <= zlen inp -> zlen inp < 2 ^ 63 -> ref < 2 ^ 64 - 8192 ->
  exists b, is_match inp ref i = Some b /\
  (b = true -> 0 < ref < i /\ u64 (i - ref - 1) = i - ref - 1 /\ i - ref - 1 < 8192 /\ agrees inp ref i 3).
Proof.
  intros Hi Hend Hlen Hbound. unfold is_match. change MAX_OFF with 8192.
  destruct (decide (u64 (i - ref - 1) < 8192 /\ ref > 0)) as [[Hoff Hpos]|]; [|by eexists].
  destruct (off_small i ref ltac:(lia) Hbound ltac:(lia) Hoff) as [Hlt Hu].
  destruct (peek_Some inp (ref + 2) ltac:(lia)) as (r2 & Hr2). destruct (peek_Some inp (i + 2) ltac:(lia)) as (i2 & Hi2).
  rewrite Hr2, Hi2. cbn [mbind option_bind]. destruct (decide (r2 = i2)) as [<-|]; [|by eexists].
  rewrite !mem_read_Some by lia. cbn [mbind option_bind]. eexists. split; [done|].
  intros Heq%bool_decide_eq_true. split; [lia|]. split; [done|]. split; [lia|].
  destruct (peek_Some inp ref ltac:(lia)) as (r0 & Hr0). destruct (peek_Some inp (ref + 1) ltac:(lia)) as (r1 & Hr1).
  destruct (peek_Some inp i ltac:(lia)) as (i0 & Hi0). destruct (peek_Some inp (i + 1) ltac:(lia)) as (i1 & Hi1).
  change 2 with (1 + (1 + 0)) in Heq. rewrite (slice_cons inp ref _ r0), (slice_cons inp (ref + 1) _ r1),
    (slice_cons inp i _ i0), (slice_cons inp (i + 1) _ i1) in Heq by (done || lia).
  injection Heq as -> ->. intros j Hj. assert (j = 0 \/ j = 1 \/ j = 2) as [->|[->| ->]] by lia.
  - rewrite !Z.add_0_r. congruence.
  - congruence.
  - congruence.
Qed.

(** The invariant of the main loop: the octets before the header of the current
    run are a block for the input before the run, and the run has its octets. *)
Definition run_inv (inp : bytes) (s : lzf_state) : Prop :=
  0 <= lit s <= 32 /\ lit s <= ip s <= zlen inp /\ 0 <= op s - lit s - 1 /\
  op s <= zlen (outb s) + (if decide (lit s = 0) then 1 else 0) /\
  slots_ok (htab s) /\
  encodes (take (Z.to_nat (op s - lit s - 1)) (outb s)) (take (Z.to_nat (ip s - lit s)) inp) /\
  slice (outb s) (op s - lit s) (lit s) = slice inp (ip s - lit s) (lit s).

Definition lzf_inv (inp : bytes) (s : lzf_state) : Prop := lit s < 32 /\ run_inv inp s.

Lemma take_splice {A} (m : list A) off bs n : n <= off -> off <= zlen m -> take (Z.to_nat n) (splice m off bs) = take (Z.to_nat n) m.
Proof.
  intros. destruct (decide (0 <= n)); [|by replace (Z.to_nat n) with O by lia].
  unfold splice. rewrite take_app_le by zlia. rewrite take_take. f_equal. lia.
Qed.

(** Closing a nonempty run makes it part of the block. *)
Lemma close_run inp s out :
  run_inv inp s -> 0 < lit s -> op s <= zlen (outb s) -> out = splice (outb s) (op s - lit s - 1) [lit s - 1] ->
  encodes (take (Z.to_nat (op s)) out) (take (Z.to_nat (ip s)) inp).
Proof.
  intros (Hlit & Hip & Hop & _ & _ & Henc & Hrun) Hpos Hend ->.
  set (h := op s - lit s - 1) in *. set (o := splice (outb s) h [lit s - 1]).
  assert (zlen o = zlen (outb s)) as Hlo by (apply zlen_splice; rewrite ?zlen_cons, ?zlen_nil; lia).
  replace (op s) with (h + (1 + lit s)) by lia. rewrite take_slice by lia.
  assert (peek o h = Some (lit s - 1)) as Hpk.
  { subst o. unfold splice. replace h with (zlen (take (Z.to_nat h) (outb s))) at 3 by zlia. apply peek_middle. }
  rewrite (slice_cons _ _ _ _ Hpk) by lia. subst o. rewrite take_splice by lia.
  rewrite slice_splice_after by (rewrite ?zlen_cons, ?zlen_nil; lia).
  replace (h + 1) with (op s - lit s) by lia. rewrite Hrun.
  replace (ip s) with (ip s - lit s + lit s) at 2 by lia. rewrite take_slice by lia.
  assert (zlen (slice inp (ip s - lit s) (lit s)) = lit s) as Hz by (apply zlen_slice; lia).
  replace (lit s - 1) with (zlen (slice inp (ip s - lit s) (lit s)) - 1) by lia. apply encodes_lit; [done|lia].
Qed.

Lemma u8_small x : 0 <= x < 256 -> u8 x = x.
Proof. intros. by apply uwrap_small. Qed.

(** The header of a run that has just ended, empty or not. *)
Lemma end_run inp s :
  run_inv inp s -> op s - lit s - 1 < zlen (outb s) ->
  let nolit := if decide (lit s = 0) then 1 else 0 in
  exists out, poke (outb s) (op s - lit s - 1) (u8 (lit s - 1)) = Some out /\ zlen out = zlen (outb s) /\
  encodes (take (Z.to_nat (op s - nolit)) out) (take (Z.to_nat (ip s)) inp).
Proof.
  intros Hinv Hend nolit. pose proof Hinv as (Hlit & Hip & Hop & Hout & _ & Henc & _).
  rewrite poke_splice by lia. eexists. split; [done|].
  split; [apply zlen_splice; rewrite ?zlen_cons, ?zlen_nil; lia|]. subst nolit. destruct (decide (lit s = 0)) as [H0|H0].
  - rewrite H0 in *. rewrite take_splice by lia. replace (op s - 0 - 1) with (op s - 1) in Henc by lia. by rewrite Z.sub_0_r in Henc.
  - rewrite Z.sub_0_r. rewrite u8_small by lia. eapply close_run; [done|lia|lia|done].
Qed.

(** The state after a token: no run is open. *)
Lemma fresh_run_inv inp i o h ht out :
  0 <= i <= zlen inp -> 1 <= o <= zlen out + 1 -> slots_ok ht -> encodes (take (Z.to_nat (o - 1)) out) (take (Z.to_nat i) inp) ->
  lzf_inv inp (LzfState i o 0 h ht out).
Proof.
  intros Hi Ho Hs Henc. split; [cbn; lia|]. split_and!; cbn [lit op ip outb hval htab]; try done; try lia.
  - rewrite decide_True by done. lia.
  - by replace (o - 0 - 1) with (o - 1) by lia; rewrite Z.sub_0_r.
Qed.

(** Copying one literal. *)
Lemma copy_literal_ok inp s :
  lzf_inv inp s -> ip s < zlen inp -> op s < zlen (outb s) ->
  exists s', copy_literal inp s = Some s' /\ lzf_inv inp s' /\ ip s' = ip s + 1 /\
  zlen (outb s') = zlen (outb s) /\ (op s' = op s + 1 /\ lit s' = lit s + 1 \/ op s' = op s + 2 /\ lit s' = 0 /\ lit s = 31).
Proof.
  intros (Hlt & Hlit & Hip & Hop & Hend & Hslots & Henc & Hrun) Hi Ho. unfold copy_literal.
  destruct (peek_Some inp (ip s) ltac:(lia)) as (b & Hb). rewrite Hb. cbn [mbind option_bind].
  rewrite poke_splice by lia. cbn [mbind option_bind]. set (out := splice (outb s) (op s) [b]).
  assert (zlen out = zlen (outb s)) as Hlo by (apply zlen_splice; rewrite ?zlen_cons, ?zlen_nil; lia).
  set (s1 := LzfState (ip s + 1) (op s + 1) (lit s + 1) (hval s) (htab s) out).
  assert (run_inv inp s1) as Hinv.
  { subst s1. split_and!; cbn [lit op ip outb hval htab]; try done; try lia.
    - rewrite decide_False by lia. lia.
    - replace (op s + 1 - (lit s + 1) - 1) with (op s - lit s - 1) by lia. replace (ip s + 1 - (lit s + 1)) with (ip s - lit s) by lia.
      subst out. by rewrite take_splice by lia.
    - replace (op s + 1 - (lit s + 1)) with (op s - lit s) by lia. replace (ip s + 1 - (lit s + 1)) with (ip s - lit s) by lia.
      rewrite !slice_split by lia. subst out. rewrite slice_splice_before by (rewrite ?zlen_cons, ?zlen_nil; lia).
      rewrite Hrun. f_equal. replace (op s - lit s + lit s) with (op s) by lia. replace (ip s - lit s + lit s) with (ip s) by lia.
      change 1 with (zlen [b]) at 1. rewrite slice_splice_same by (rewrite ?zlen_cons, ?zlen_nil; lia).
      change 1 with (1 + 0). rewrite (slice_cons _ _ _ b) by (done || lia). done. }
  unfold close_full_run. change MAX_LIT with 32. destruct (decide (lit s1 = 32)) as [Hfull|Hmore]; cbn in Hfull || cbn in Hmore.
  - destruct (end_run inp s1 Hinv) as (out2 & -> & Hl2 & Henc2); [cbn; lia|]. cbn [mbind option_bind]. eexists. split; [done|].
    rewrite decide_False in Henc2 by (cbn; lia). rewrite Z.sub_0_r in Henc2. cbn [lit op ip outb hval htab s1] in *.
    split; [|split_and!; try lia]. apply fresh_run_inv; [lia|lia|done|]. by replace (op s + 1 + 1 - 1) with (op s + 1) by lia.
  - exists s1. split; [done|]. split; [|split_and!; cbn; try lia]. split; [cbn; lia|done].
Qed.

(** The octets of a back reference, written. *)
Lemma write_ref_ok out o off len :
  0 <= o -> o + 3 <= zlen out -> 0 <= off < 8192 -> 1 <= len <= 262 ->
  exists out', write_ref out o off len = Some (out', o + zlen (ref_bytes off len)) /\ zlen out' = zlen out /\
  take (Z.to_nat (o + zlen (ref_bytes off len))) out' = take (Z.to_nat o) out ++ ref_bytes off len /\
  2 <= zlen (ref_bytes off len) <= 3.
Proof.
  intros Ho Hend Hoff Hlen. unfold write_ref.
  assert (exists k out1, (if decide (len < 7) then out1 ← poke out o (u8 (Z.shiftr off 8 + Z.shiftl len 5)); Some (out1, o + 1)
     else out1 ← poke out o (u8 (Z.shiftr off 8 + Z.shiftl 7 5)); out1 ← poke out1 (o + 1) (u8 (len - 7)); Some (out1, o + 2)) =
     Some (out1, o + zlen k) /\ 1 <= zlen k <= 2 /\ out1 = splice out o k /\ ref_bytes off len = k ++ [off mod 256])
    as (k & out1 & -> & Hk & -> & Hrb).
  { assert (0 <= off / 256 < 32) by (split; [apply Z.div_pos|apply Z.div_lt_upper_bound]; lia).
    unfold ref_bytes. rewrite !Z.shiftr_div_pow2, !Z.shiftl_mul_pow2 by lia. change (2 ^ 8) with 256. change (2 ^ 5) with 32.
    destruct (decide (len < 7)).
    - exists [off / 256 + 32 * len]. rewrite poke_splice by lia. cbn [mbind option_bind]. eexists.
      rewrite u8_small by lia. rewrite (Z.mul_comm 32 len). split_and!; try done; rewrite ?zlen_cons, ?zlen_nil; lia.
    - exists [off / 256 + 224; len - 7]. rewrite poke_splice by lia. cbn [mbind option_bind].
      rewrite poke_splice by (rewrite zlen_splice; rewrite ?zlen_cons, ?zlen_nil; lia). cbn [mbind option_bind]. eexists.
      rewrite !u8_small by lia. split_and!; try done; rewrite ?zlen_cons, ?zlen_nil; try lia.
      replace (o + 1) with (o + zlen [off / 256 + 7 * 32]) by done. rewrite splice_splice_right by (rewrite ?zlen_cons, ?zlen_nil; lia). done. }
  cbn [mbind option_bind]. rewrite poke_splice by (rewrite zlen_splice; lia). cbn [mbind option_bind].
  assert (u8 off = off mod 256) as -> by done. rewrite splice_splice_right by (rewrite ?zlen_cons, ?zlen_nil; lia).
  rewrite <- Hrb. assert (zlen (ref_bytes off len) = zlen k + 1) as Hz by (rewrite Hrb; zlia).
  exists (splice out o (ref_bytes off len)). split; [do 2 f_equal; lia|]. split; [apply zlen_splice; lia|]. split; [|lia].
  rewrite take_slice by zlia. rewrite take_splice by lia. f_equal. apply slice_splice_same; lia.
Qed.

(** A match stands for the next octets of the input. *)
Lemma encodes_match src inp i ref n :
  encodes src (take (Z.to_nat i) inp) -> 0 <= ref < i -> i - ref - 1 < 8192 -> 3 <= n <= 264 -> i + n <= zlen inp ->
  agrees inp ref i n -> encodes (src ++ ref_bytes (i - ref - 1) (n - 2)) (take (Z.to_nat (i + n)) inp).
Proof.
  intros Henc Href Hoff Hn Hend Hag. rewrite take_slice by lia.
  assert (zlen (take (Z.to_nat i) inp) = i) as Hz by zlia.
  assert (zlen (slice inp i n) = n) as Hzs by (apply zlen_slice; lia).
  apply encodes_ref; try lia; [done|]. intros j Hj. rewrite <- take_slice by lia. rewrite Hz.
  replace (i - (i - ref - 1) - 1) with ref by lia. replace (length (take (Z.to_nat i) inp)) with (Z.to_nat i) by zlia.
  assert (Z.of_nat j < n) by (unfold zlen in Hzs; lia). rewrite !lookup_take_lt by lia.
  specialize (Hag (Z.of_nat j) ltac:(lia)). unfold peek in Hag. rewrite !decide_True in Hag by lia.
  replace (Z.to_nat i + j)%nat with (Z.to_nat (i + Z.of_nat j)) by lia.
  replace (Z.to_nat ref + j)%nat with (Z.to_nat (ref + Z.of_nat j)) by lia. done.
Qed.

(** Hashing stays inside the input. *)
Lemma FRST_Some inp p : 0 <= p -> p + 1 < zlen inp -> exists h, FRST inp p = Some h.
Proof.
  intros. unfold FRST. destruct (peek_Some inp p ltac:(lia)) as (a & ->).
  destruct (peek_Some inp (p + 1) ltac:(lia)) as (b & ->). by eexists.
Qed.

Lemma NEXT_Some v inp p : 0 <= p -> p + 2 < zlen inp -> exists h, NEXT v inp p = Some h.
Proof. intros. unfold NEXT. destruct (peek_Some inp (p + 2) ltac:(lia)) as (a & ->). by eexists. Qed.

(** The closed tokens take at most 33 octets for 32 of the input. *)
Definition compact (s : lzf_state) : Prop := 32 * (op s - lit s - 1) <= 33 * (ip s - lit s).

(** An output buffer in which the block has room in any case. *)
Definition roomy (inp out : bytes) : Prop := 33 * zlen inp + 128 <= 32 * zlen out.

(** What an iteration leaves. *)
Definition outcome_ok (inp : bytes) (s : lzf_state) (o : lzf_outcome) : Prop :=
  match o with
  | LzfReturn n _ => n = 0 /\ ~ roomy inp (outb s)
  | LzfBreak s' => lzf_inv inp s' /\ compact s' /\ zlen inp - 2 <= ip s' /\ zlen (outb s') = zlen (outb s)
  | LzfNext s' => lzf_inv inp s' /\ compact s' /\ ip s < ip s' /\ zlen (outb s') = zlen (outb s)
  end.

Lemma copy_literal_compact s s' :
  compact s -> ip s' = ip s + 1 -> op s' = op s + 1 /\ lit s' = lit s + 1 \/ op s' = op s + 2 /\ lit s' = 0 /\ lit s = 31 -> compact s'.
Proof. unfold compact. lia. Qed.

Lemma zlen_ref_bytes off len : 1 <= len -> zlen (ref_bytes off len) <= len + 1.
Proof. intros. unfold ref_bytes. case_decide; rewrite ?zlen_cons, ?zlen_nil; lia. Qed.

Lemma emit_match_ok inp s ref :
  lzf_inv inp s -> compact s -> ip s + 3 <= zlen inp -> zlen inp < 2 ^ 63 -> 0 < ref < ip s ->
  u64 (ip s - ref - 1) = ip s - ref - 1 -> ip s - ref - 1 < 8192 -> agrees inp ref (ip s) 3 ->
  exists o, emit_match inp s ref = Some o /\ outcome_ok inp s o.
Proof.
  intros [Hlit Hinv] Hcomp Hip Hlen Href Hu Hoff Hag. unfold compact in Hcomp. pose proof Hinv as (Hl & Hip' & Hop & Hout & Hslots & _).
  unfold emit_match. rewrite Hu. set (nolit := if decide (lit s = 0) then 1 else 0).
  assert (nolit = 0 /\ 0 < lit s \/ nolit = 1 /\ lit s = 0) as Hno by (subst nolit; case_decide; lia).
  destruct (decide (op s + 3 + 1 >= zlen (outb s) /\ op s - nolit + 3 + 1 >= zlen (outb s))) as [|Hroom].
  { eexists. split; [done|]. split; [done|]. unfold roomy. lia. }
  destruct (end_run inp s Hinv) as (out & -> & Hlo & Henc); [lia|]. fold nolit in Henc. cbn [mbind option_bind].
  destruct (match_len_ok inp ref (ip s) ltac:(lia) Hip Hag) as (n & -> & Hn & Hend & Hag'). cbn [mbind option_bind].
  destruct (write_ref_ok out (op s - nolit) (ip s - ref - 1) (n - 2)) as (out' & -> & Hlo' & Htake & Hk); try lia.
  cbn [mbind option_bind]. pose proof (zlen_ref_bytes (ip s - ref - 1) (n - 2) ltac:(lia)) as Hk'. set (k := zlen (ref_bytes (ip s - ref - 1) (n - 2))) in *.
  assert (encodes (take (Z.to_nat (op s - nolit + k)) out') (take (Z.to_nat (ip s + n)) inp)) as Henc'.
  { rewrite Htake. apply encodes_match; try done; lia. }
  replace (ip s + 1 + (n - 2 + 1)) with (ip s + n) by lia. destruct (decide (ip s + n >= zlen inp - 2)).
  - eexists. split; [done|]. cbn. split; [|unfold compact; cbn; lia]. apply fresh_run_inv; [lia|lia|done|].
    by replace (op s - nolit + k + 1 - 1) with (op s - nolit + k) by lia.
  - destruct (FRST_Some inp (ip s + n - 1 - 1) ltac:(lia) ltac:(lia)) as (h1 & ->). cbn [mbind option_bind].
    destruct (NEXT_Some h1 inp (ip s + n - 1 - 1) ltac:(lia) ltac:(lia)) as (h2 & ->). cbn [mbind option_bind].
    destruct (NEXT_Some h2 inp (ip s + n - 1 - 1 + 1) ltac:(lia) ltac:(lia)) as (h3 & ->). cbn [mbind option_bind].
    eexists. split; [done|]. cbn [outcome_ok ip outb]. replace (ip s + n - 1 - 1 + 2) with (ip s + n) by lia. split; [|unfold compact; cbn; lia].
    apply fresh_run_inv; [lia|lia| |by replace (op s - nolit + k + 1 - 1) with (op s - nolit + k) by lia].
    apply set_slot_ok; [apply set_slot_ok; [done|lia]|lia].
Qed.

Lemma compress_step_ok inp s :
  lzf_inv inp s -> compact s -> ip s < zlen inp - 2 -> zlen inp < 2 ^ 63 -> exists o, compress_step inp s = Some o /\ outcome_ok inp s o.
Proof.
  intros [Hlt Hinv] Hcomp Hip Hlen. pose proof Hinv as (Hl & Hip' & Hop & Hout & Hslots & Henc & Hrun). unfold compress_step.
  destruct (NEXT_Some (hval s) inp (ip s) ltac:(lia) ltac:(lia)) as (h & ->). cbn [mbind option_bind].
  set (s1 := LzfState (ip s) (op s) (lit s) h (set_slot (htab s) (IDX h) (ip s)) (outb s)).
  assert (lzf_inv inp s1) as Hinv1.
  { split; [done|]. split_and!; try done; try (cbn; lia). cbn. apply set_slot_ok; [done|lia]. }
  change (ip s1) with (ip s).
  destruct (is_match_ok inp (htab s (IDX h)) (ip s) ltac:(lia) ltac:(lia) Hlen (Hslots _)) as (b & -> & Hb). cbn [mbind option_bind].
  destruct b.
  - destruct (Hb eq_refl) as (Href & Hu & Hoff & Hag). apply (emit_match_ok inp s1); try done. cbn. lia.
  - destruct (decide (op s1 >= zlen (outb s1))); [eexists; split; [done|]; split; [done|]; unfold roomy, compact in *; cbn in *; lia|].
    destruct (copy_literal_ok inp s1 Hinv1) as (s' & -> & Hinv' & Hi' & Hlo & Hcase); [cbn; lia|cbn in *; lia|]. cbn [mbind option_bind].
    eexists. split; [done|]. split; [done|]. split; [by eapply (copy_literal_compact s1)|]. split; [cbn in *; lia|done].
Qed.

Lemma compress_loop_ok fuel : forall inp s,
  lzf_inv inp s -> compact s -> zlen inp < 2 ^ 63 -> zlen inp - ip s < Z.of_nat fuel ->
  exists o, compress_loop fuel inp s = Some o /\
  match o with LzfNext _ => False | LzfReturn n _ => n = 0 /\ ~ roomy inp (outb s)
  | LzfBreak s' => lzf_inv inp s' /\ compact s' /\ zlen inp - 2 <= ip s' /\ zlen (outb s') = zlen (outb s) end.
Proof.
  induction fuel as [|fuel IH]; intros inp s Hinv Hcomp Hlen Hf.
  { destruct Hinv as (_ & _ & ? & _). lia. }
  cbn [compress_loop]. destruct (decide (ip s < zlen inp - 2)) as [Hlt|].
  - destruct (compress_step_ok inp s Hinv Hcomp Hlt Hlen) as (o & -> & Ho). cbn [mbind option_bind].
    destruct o as [n out|s'|s']; [by eexists| |].
    + eexists. split; [done|]. done.
    + destruct Ho as (Hinv' & Hcomp' & Hi' & Hlo). destruct (IH inp s' Hinv' Hcomp' Hlen ltac:(lia)) as (o & -> & Ho).
      eexists. split; [done|]. unfold roomy in *. destruct o; try done; by rewrite Hlo in Ho.
  - eexists. split; [done|]. split_and!; try done. lia.
Qed.

(** At most two literals are left, and there is room for them. *)
Lemma tail_loop_ok fuel inp s :
  lzf_inv inp s -> zlen inp - 2 <= ip s -> op s + 3 <= zlen (outb s) -> (2 < fuel)%nat ->
  exists s', tail_loop fuel inp s = Some s' /\ lzf_inv inp s' /\ ip s' = zlen inp /\ zlen (outb s') = zlen (outb s) /\
  op s' - lit s' - 1 < zlen (outb s').
Proof.
  intros Hinv Hip Hroom Hf. destruct fuel as [|[|[|fuel]]]; try lia. cbn [tail_loop].
  assert (ip s <= zlen inp /\ 0 <= lit s) as [Hle Hl0] by (destruct Hinv as (_ & ? & ? & _); lia).
  destruct (decide (ip s < zlen inp)) as [H1|H1].
  2: { exists s. split_and!; try done; lia. }
  destruct (copy_literal_ok inp s Hinv H1 ltac:(lia)) as (s1 & -> & Hinv1 & Hi1 & Hlo1 & Hcase1). cbn [mbind option_bind].
  destruct (decide (ip s1 < zlen inp)) as [H2|H2].
  2: { exists s1. split_and!; try done; lia. }
  destruct (copy_literal_ok inp s1 Hinv1 H2 ltac:(lia)) as (s2 & -> & Hinv2 & Hi2 & Hlo2 & Hcase2). cbn [mbind option_bind].
  rewrite decide_False by lia. exists s2. split_and!; try done; lia.
Qed.

Lemma encodes_nonempty src out : encodes src out -> out <> [] -> src <> [].
Proof.
  intros Henc. destruct Henc as [|src out lits|src out off len bs]; [done|..]; intros _ Heq; apply app_eq_nil in Heq as [_ Heq]; [done|].
  unfold ref_bytes in Heq. by case_decide.
Qed.

Lemma lzf_compress_ok inp out htab :
  zlen inp <> 1 -> zlen inp < 2 ^ 63 -> slots_ok htab ->
  exists n out', lzf_compress inp out htab = Some (n, out') /\ (inp <> [] -> roomy inp out -> n <> 0) /\
  (n = 0 \/ 0 < n <= zlen out /\ zlen out' = zlen out /\ encodes (take (Z.to_nat n) out') inp).
Proof.
  intros H1 Hlen Hslots. unfold lzf_compress. pose proof (zlen_nonneg inp). pose proof (zlen_nonneg out).
  assert (inp <> [] -> 0 < zlen inp) as Hpos by (destruct inp; [done|zlia]).
  destruct (decide _) as [Hz|Hne]; [eexists _, _; split; [done|]; split; [unfold roomy; intros ?%Hpos; lia|by left]|].
  destruct (FRST_Some inp 0 ltac:(lia) ltac:(lia)) as (h & ->). cbn [mbind option_bind].
  assert (lzf_inv inp (LzfState 0 1 0 h htab out)) as Hinv.
  { apply fresh_run_inv; [lia|lia|done|]. constructor. }
  destruct (compress_loop_ok (S (length inp)) inp _ Hinv) as (o & -> & Ho); [unfold compact; cbn; lia|done|cbn; zlia|]. cbn [mbind option_bind].
  destruct o as [n out'|s|s]; [destruct Ho as [-> Ho]; eexists _, _; split; [done|]; split; [done|by left]| |done]. destruct Ho as (Hinv' & Hcomp & Hip & Hlo). cbn in Hlo.
  destruct (decide (op s + 3 > zlen (outb s))).
  { eexists _, _. split; [done|]. split; [|by left]. unfold roomy, compact in *. destruct Hinv' as (_ & ? & ? & _). lia. }
  destruct (tail_loop_ok (S (length inp)) inp s Hinv' Hip ltac:(lia) ltac:(zlia)) as (s' & -> & Hinv2 & Hi2 & Hlo2 & Hh). cbn [mbind option_bind].
  destruct (end_run inp s' (proj2 Hinv2) Hh) as (out' & -> & Hlo3 & Henc). cbn [mbind option_bind]. eexists _, _. split; [done|].
  rewrite Hi2 in Henc. rewrite (firstn_all2 inp) in Henc by zlia.
  set (r := op s' - (if decide (lit s' = 0) then 1 else 0)) in *. enough (0 < r <= zlen out /\ zlen out' = zlen out /\ encodes (take (Z.to_nat r) out') inp) by (split; [lia|by right]). split_and!; [|subst r; destruct Hinv2 as (_ & ? & _ & _ & ? & _); case_decide; lia|lia|done].
  destruct (decide (0 < r)); [done|]. exfalso. replace (Z.to_nat r) with O in Henc by lia.
  apply encodes_nonempty in Henc; [done|]. intros ->. rewrite zlen_nil in *. lia.
Qed.

(** ** Properties *)

(** C12: for every input that does not have exactly one octet, every output
    buffer and every content of the uninitialised hash table the compressor
    returns without leaving its buffers.  It gives up and returns 0, never with a
    nonempty input and an output buffer 1/32 larger than it and 4 more octets, or
    it returns the length of a block from which the decompressor gives the input
    back into any buffer that can hold it. *)
Theorem lzf_roundtrip inp out htab :
  zlen inp <> 1 -> zlen inp < 2 ^ 63 -> slots_ok htab ->
  exists n out', lzf_compress inp out htab = Some (n, out') /\
  (inp <> [] -> 33 * zlen inp + 128 <= 32 * zlen out -> n <> 0) /\
  (n = 0 \/ 0 < n <= zlen out /\ zlen out' = zlen out /\
    forall L, zlen inp <= L -> lzf_decompress (take (Z.to_nat n) out') L = Some (Decompressed inp)).
Proof.
  intros H1 Hlen Hslots. destruct (lzf_compress_ok inp out htab H1 Hlen Hslots) as (n & out' & Hc & Hroom & [H0|(Hn & Ho & Henc)]).
  - exists n, out'. split_and!; [done|done|by left].
  - exists n, out'. split_and!; [done|done|]. right. split_and!; [lia|lia|done|]. intros L HL. by apply decompress_complete.
Qed.

(** An input with a short match, a long match and literals. *)
Definition lzf_sample : bytes := [7; 1; 2; 3; 1; 2; 3] ++ replicate 40 9 ++ [1; 2; 3; 8].

Lemma lzf_roundtrip_witness :
  exists out', lzf_compress lzf_sample (replicate 64 0) (fun _ => 12345) = Some (16, out') /\
  lzf_decompress (take 16 out') 100 = Some (Decompressed lzf_sample).
Proof.
  destruct (lzf_roundtrip lzf_sample (replicate 64 0) (fun _ => 12345)) as (n & out' & Hc & Hn & H); [done|done|by intros j|].
  assert (n = 16) as -> by (revert Hc; vm_compute; congruence). exists out'. split; [exact Hc|].
  destruct H as [H|(_ & _ & H)]; [by destruct (Hn ltac:(done) ltac:(done))|]. by apply (H 100).
Defined.

(** the compressor returns, reads only its input and writes only its output
    buffer, whatever addresses the hash table holds; it returns 0, or the length
    of a block that stands for the input. *)
Theorem lzf_compress_correct inp out htab :
  zlen inp <> 1 -> zlen inp < 2 ^ 63 -> slots_ok htab ->
  exists n out', lzf_compress inp out htab = Some (n, out') /\
  (n = 0 \/ 0 < n <= zlen out /\ zlen out' = zlen out /\ encodes (take (Z.to_nat n) out') inp).
Proof. intros H1 H2 H3. destruct (lzf_compress_ok inp out htab H1 H2 H3) as (n & out' & H & _ & H'). by exists n, out'. Qed.

Lemma lzf_compress_correct_witness :
  slots_ok (fun j => - j * j) /\ exists n out', lzf_compress lzf_sample (replicate 30 0) (fun j => - j * j) = Some (n, out') /\
  (n = 0 \/ 0 < n <= 30 /\ zlen out' = 30 /\ encodes (take (Z.to_nat n) out') lzf_sample).
Proof.
  assert (slots_ok (fun j => - j * j)) as Hs by (intros j; nia). split; [done|].
  apply (lzf_compress_correct lzf_sample (replicate 30 0) (fun j => - j * j)); done.
Defined.

(** C23: on any octets and any output size the decompressor returns without
    reading or writing outside its buffers.  It succeeds with [out] exactly when
    the input is a sequence of the tokens of [encodes] that stands for [out] and
    [out] fits: runs of 1 to 32 literals and references of 3 to 264 octets with
    offsets up to 8192, the numbers of the code and not of the comment in
    lzf_c.c. *)
Theorem lzf_decompress_correct inp L :
  bytes_ok inp -> 0 <= L ->
  exists r, lzf_decompress inp L = Some r /\ forall out, r = Decompressed out <-> encodes inp out /\ zlen out <= L.
Proof.
  intros Hb HL. unfold lzf_decompress.
  destruct (decompress_loop_sound (S (length inp)) inp 0 [] L Hb) as (r & Hr & Hsound); [zlia|constructor|done|zlia|].
  exists r. split; [done|]. intros out. split; [apply Hsound|]. intros [Henc Hfit].
  pose proof (decompress_complete inp out L Henc Hfit) as Hd. unfold lzf_decompress in Hd. congruence.
Qed.

Lemma lzf_decompress_correct_witness :
  (forall out, encodes [1; 65; 66; 32; 1] out /\ zlen out <= 9 <-> out = [65; 66; 65; 66; 65]) /\
  (forall out, ~ (encodes [1; 65; 66; 32; 1; 255] out /\ zlen out <= 9)).
Proof.
  split.
  - destruct (lzf_decompress_correct [1; 65; 66; 32; 1] 9) as (r & Hr & H); [repeat constructor; lia|done|].
    assert (r = Decompressed [65; 66; 65; 66; 65]) as -> by (revert Hr; vm_compute; congruence). intros out. rewrite <- H. split; congruence.
  - destruct (lzf_decompress_correct [1; 65; 66; 32; 1; 255] 9) as (r & Hr & H); [repeat constructor; lia|done|].
    assert (r = DecompressError EINVAL) as -> by (revert Hr; vm_compute; congruence). intros out. by rewrite <- H.
Defined.

(** The first hash is computed before the length is looked at: an input of one
    octet is read one octet past its end. *)
Example lzf_compress_one_octet : lzf_compress [65] (replicate 8 0) (fun _ => 0) = None.
Proof. by vm_compute. Qed.
