(* ===== verification/Listpack.v ===== *)
(** * Listpacks: listpack.c

    A listpack is one block of memory: a header with the total size and the
    number of elements, the entries, and the terminator 0xFF.  An entry is the
    encoded element (integers of 7 to 64 bits, strings with a length of 6, 12
    or 32 bits) followed by the length of that encoding, written so that it can
    be read from its last byte.  The model works on the bytes of the block: a
    pointer into the listpack is an offset in the block, [NULL] is [None], and
    a read or a write outside the block is undefined behaviour.

    The allocator is a parameter: [usable n] is the usable size of a block
    requested with [n] bytes and [junk] what a grown block holds past the old
    bytes.  Allocation does not fail (zmalloc aborts the process instead).

    The theorems relate the bytes to a list of entries: every operation keeps
    the representation and does to the list what its name says, lookups and
    walks in both directions follow the list, strings that are canonical
    decimal numbers come back as the same text, and the integrity check accepts
    every listpack and rejects every block that a walk could leave. *)

From S2P Require Import Prelude Util.

#[local] Set Default Proof Using "Type".

Definition LP_HDR_SIZE : Z := 6.
Definition LP_HDR_NUMELE_UNKNOWN : Z := 65535.
Definition LP_INTBUF_SIZE : Z := 21.
Definition LP_EOF : Z := 255.
Definition LISTPACK_MAX_SAFETY_SIZE : Z := Z.shiftl 1 30.

Definition LP_ENCODING_IS_7BIT_UINT (b : Z) : Prop := Z.land b 128 = 0.
Definition LP_ENCODING_IS_6BIT_STR (b : Z) : Prop := Z.land b 192 = 128.
Definition LP_ENCODING_IS_13BIT_INT (b : Z) : Prop := Z.land b 224 = 192.
Definition LP_ENCODING_IS_12BIT_STR (b : Z) : Prop := Z.land b 240 = 224.
Definition LP_ENCODING_IS_16BIT_INT (b : Z) : Prop := Z.land b 255 = 241.
Definition LP_ENCODING_IS_24BIT_INT (b : Z) : Prop := Z.land b 255 = 242.
Definition LP_ENCODING_IS_32BIT_INT (b : Z) : Prop := Z.land b 255 = 243.
Definition LP_ENCODING_IS_64BIT_INT (b : Z) : Prop := Z.land b 255 = 244.
Definition LP_ENCODING_IS_32BIT_STR (b : Z) : Prop := Z.land b 255 = 240.

#[global] Instance is_7bit_uint_dec b : Decision (LP_ENCODING_IS_7BIT_UINT b) := _.
#[global] Instance is_6bit_str_dec b : Decision (LP_ENCODING_IS_6BIT_STR b) := _.
#[global] Instance is_13bit_int_dec b : Decision (LP_ENCODING_IS_13BIT_INT b) := _.
#[global] Instance is_12bit_str_dec b : Decision (LP_ENCODING_IS_12BIT_STR b) := _.
#[global] Instance is_16bit_int_dec b : Decision (LP_ENCODING_IS_16BIT_INT b) := _.
#[global] Instance is_24bit_int_dec b : Decision (LP_ENCODING_IS_24BIT_INT b) := _.
#[global] Instance is_32bit_int_dec b : Decision (LP_ENCODING_IS_32BIT_INT b) := _.
#[global] Instance is_64bit_int_dec b : Decision (LP_ENCODING_IS_64BIT_INT b) := _.
#[global] Instance is_32bit_str_dec b : Decision (LP_ENCODING_IS_32BIT_STR b) := _.

#[global] Typeclasses Opaque LP_ENCODING_IS_7BIT_UINT LP_ENCODING_IS_6BIT_STR LP_ENCODING_IS_13BIT_INT
  LP_ENCODING_IS_12BIT_STR LP_ENCODING_IS_16BIT_INT LP_ENCODING_IS_24BIT_INT
  LP_ENCODING_IS_32BIT_INT LP_ENCODING_IS_64BIT_INT LP_ENCODING_IS_32BIT_STR.

(** [p[0] | p[1]<<8 | ... ] over [n] bytes, the [i]-th byte first. *)
Fixpoint get_le (n : nat) (lp : bytes) (p i : Z) : option Z :=
  match n with
  | O => Some 0
  | S n => b ← peek lp (p + i); r ← get_le n lp p (i + 1); Some (Z.lor (Z.shiftl b (8 * i)) r)
  end.

Definition LP_ENCODING_6BIT_STR_LEN (lp : bytes) (p : Z) : option Z :=
  b ← peek lp p; Some (Z.land b 63).
Definition LP_ENCODING_12BIT_STR_LEN (lp : bytes) (p : Z) : option Z :=
  b0 ← peek lp p; b1 ← peek lp (p + 1); Some (Z.lor (Z.shiftl (Z.land b0 15) 8) b1).
Definition LP_ENCODING_32BIT_STR_LEN (lp : bytes) (p : Z) : option Z := get_le 4 lp (p + 1) 0.

Definition lpGetTotalBytes (lp : bytes) : option Z := get_le 4 lp 0 0.
Definition lpGetNumElements (lp : bytes) : option Z := get_le 2 lp 4 0.
Definition lpSetTotalBytes (lp : bytes) (v : Z) : option bytes :=
  mem_write lp 0 [Z.land v 255; Z.land (Z.shiftr v 8) 255; Z.land (Z.shiftr v 16) 255;
                  Z.land (Z.shiftr v 24) 255].
Definition lpSetNumElements (lp : bytes) (v : Z) : option bytes :=
  mem_write lp 4 [Z.land v 255; Z.land (Z.shiftr v 8) 255].

Definition lpBytes (lp : bytes) : option Z := lpGetTotalBytes lp.

(** [lp] is [NULL] or a listpack. *)
Definition lpSafeToAdd (lp : option bytes) (add : Z) : option bool :=
  len ← match lp with Some lp => lpGetTotalBytes lp | None => Some 0 end;
  Some (negb (bool_decide (u64 (len + add) > LISTPACK_MAX_SAFETY_SIZE))).

(** A copy of [string2ll] of util.c. *)
Definition lpStringToInt64 (s : bytes) (slen : Z) : option (option Z) :=
  if decide (slen = 0 \/ slen >= LONG_STR_SIZE) then Some None
  else
    p0 ← peek s 0;
    if decide (slen = 1 /\ p0 = ch_0) then Some (Some 0)
    else
      let negative := bool_decide (p0 = ch_minus) in
      let plen := if negative then 1 else 0 in
      if decide (negative = true /\ plen = slen) then Some None
      else string2ll_tail s slen negative plen.

(** The bytes of [intenc]; [enclen] is their number. *)
Definition lpEncodeIntegerGetType (v : Z) : bytes :=
  if decide (v >= 0 /\ v <= 127) then [u8 v]
  else if decide (v >= -4096 /\ v <= 4095) then
    let v := if decide (v < 0) then Z.shiftl 1 13 + v else v in
    [u8 (Z.lor (Z.shiftr v 8) 192); Z.land v 255]
  else if decide (v >= -32768 /\ v <= 32767) then
    let v := if decide (v < 0) then Z.shiftl 1 16 + v else v in
    [241; Z.land v 255; u8 (Z.shiftr v 8)]
  else if decide (v >= -8388608 /\ v <= 8388607) then
    let v := if decide (v < 0) then Z.shiftl 1 24 + v else v in
    [242; Z.land v 255; Z.land (Z.shiftr v 8) 255; u8 (Z.shiftr v 16)]
  else if decide (v >= -2147483648 /\ v <= 2147483647) then
    let v := if decide (v < 0) then Z.shiftl 1 32 + v else v in
    [243; Z.land v 255; Z.land (Z.shiftr v 8) 255; Z.land (Z.shiftr v 16) 255; u8 (Z.shiftr v 24)]
  else
    let uv := u64 v in
    [244; Z.land uv 255; Z.land (Z.shiftr uv 8) 255; Z.land (Z.shiftr uv 16) 255;
     Z.land (Z.shiftr uv 24) 255; Z.land (Z.shiftr uv 32) 255; Z.land (Z.shiftr uv 40) 255;
     Z.land (Z.shiftr uv 48) 255; u8 (Z.shiftr uv 56)].

(** How an element is stored: [inl intenc] is LP_ENCODING_INT, [inr enclen] is
    LP_ENCODING_STRING. *)
Definition lpEncodeGetType (ele : bytes) (size : Z) : option (bytes + Z) :=
  r ← lpStringToInt64 ele size;
  match r with
  | Some v => Some (inl (lpEncodeIntegerGetType v))
  | None =>
    Some (inr (if decide (size < 64) then 1 + size
               else if decide (size < 4096) then 2 + size else 5 + size))
  end.

(** The bytes stored in [buf]; the return value is their number. *)
Definition lpEncodeBacklen (l : Z) : bytes :=
  if decide (l <= 127) then [u8 l]
  else if decide (l < 16383) then [u8 (Z.shiftr l 7); Z.lor (Z.land l 127) 128]
  else if decide (l < 2097151) then
    [u8 (Z.shiftr l 14); Z.lor (Z.land (Z.shiftr l 7) 127) 128; Z.lor (Z.land l 127) 128]
  else if decide (l < 268435455) then
    [u8 (Z.shiftr l 21); Z.lor (Z.land (Z.shiftr l 14) 127) 128;
     Z.lor (Z.land (Z.shiftr l 7) 127) 128; Z.lor (Z.land l 127) 128]
  else
    [u8 (Z.shiftr l 28); Z.lor (Z.land (Z.shiftr l 21) 127) 128;
     Z.lor (Z.land (Z.shiftr l 14) 127) 128; Z.lor (Z.land (Z.shiftr l 7) 127) 128;
     Z.lor (Z.land l 127) 128].

(** [lpEncodeBacklen(NULL, l)]. *)
Definition lpBacklenSize (l : Z) : Z := zlen (lpEncodeBacklen l).

(** The loop reads at most five bytes, the shifts being 0, 7, 14, 21 and 28. *)
Fixpoint lpDecodeBacklen_loop (fuel : nat) (lp : bytes) (p val shift : Z) : option Z :=
  match fuel with
  | O => None
  | S fuel =>
    b ← peek lp p;
    let val := Z.lor val (Z.shiftl (Z.land b 127) shift) in
    if decide (Z.land b 128 = 0) then Some val
    else
      let shift := shift + 7 in
      if decide (shift > 28) then Some ULLONG_MAX
      else lpDecodeBacklen_loop fuel lp (p - 1) val shift
  end.

Definition lpDecodeBacklen (lp : bytes) (p : Z) : option Z := lpDecodeBacklen_loop 5 lp p 0 0.

(** The bytes written to [buf]. *)
Definition lpEncodeString (s : bytes) (len : Z) : bytes :=
  if decide (len < 64) then u8 (Z.lor len 128) :: slice s 0 len
  else if decide (len < 4096) then
    u8 (Z.lor (Z.shiftr len 8) 224) :: Z.land len 255 :: slice s 0 len
  else
    240 :: Z.land len 255 :: Z.land (Z.shiftr len 8) 255 :: Z.land (Z.shiftr len 16) 255 ::
    Z.land (Z.shiftr len 24) 255 :: slice s 0 len.

Definition lpCurrentEncodedSizeUnsafe (lp : bytes) (p : Z) : option Z :=
  b ← peek lp p;
  if decide (LP_ENCODING_IS_7BIT_UINT b) then Some 1
  else if decide (LP_ENCODING_IS_6BIT_STR b) then
    len ← LP_ENCODING_6BIT_STR_LEN lp p; Some (1 + len)
  else if decide (LP_ENCODING_IS_13BIT_INT b) then Some 2
  else if decide (LP_ENCODING_IS_16BIT_INT b) then Some 3
  else if decide (LP_ENCODING_IS_24BIT_INT b) then Some 4
  else if decide (LP_ENCODING_IS_32BIT_INT b) then Some 5
  else if decide (LP_ENCODING_IS_64BIT_INT b) then Some 9
  else if decide (LP_ENCODING_IS_12BIT_STR b) then
    len ← LP_ENCODING_12BIT_STR_LEN lp p; Some (2 + len)
  else if decide (LP_ENCODING_IS_32BIT_STR b) then
    len ← LP_ENCODING_32BIT_STR_LEN lp p; Some (u32 (5 + len))
  else if decide (b = LP_EOF) then Some 1
  else Some 0.

Definition lpCurrentEncodedSizeBytes (lp : bytes) (p : Z) : option Z :=
  b ← peek lp p;
  if decide (LP_ENCODING_IS_7BIT_UINT b) then Some 1
  else if decide (LP_ENCODING_IS_6BIT_STR b) then Some 1
  else if decide (LP_ENCODING_IS_13BIT_INT b) then Some 1
  else if decide (LP_ENCODING_IS_16BIT_INT b) then Some 1
  else if decide (LP_ENCODING_IS_24BIT_INT b) then Some 1
  else if decide (LP_ENCODING_IS_32BIT_INT b) then Some 1
  else if decide (LP_ENCODING_IS_64BIT_INT b) then Some 1
  else if decide (LP_ENCODING_IS_12BIT_STR b) then Some 2
  else if decide (LP_ENCODING_IS_32BIT_STR b) then Some 5
  else if decide (b = LP_EOF) then Some 1
  else Some 0.

Definition lpSkip (lp : bytes) (p : Z) : option Z :=
  entrylen ← lpCurrentEncodedSizeUnsafe lp p;
  Some (p + (entrylen + lpBacklenSize entrylen)).

(** The outcomes of [lpValidateNext]: 0, 1 with [*pp = NULL], 1 with [*pp = p]. *)
Inductive lp_valid := Invalid | ValidEnd | ValidNext (p : Z).

Definition OUT_OF_RANGE (lpbytes p : Z) : Prop := p < LP_HDR_SIZE \/ p > lpbytes - 1.
#[global] Instance out_of_range_dec n p : Decision (OUT_OF_RANGE n p) := _.

Definition lpValidateNext (lp : bytes) (pp : option Z) (lpbytes : Z) : option lp_valid :=
  match pp with
  | None => Some Invalid
  | Some p =>
    if decide (OUT_OF_RANGE lpbytes p) then Some Invalid
    else
      b ← peek lp p;
      if decide (b = LP_EOF) then Some ValidEnd
      else
        lenbytes ← lpCurrentEncodedSizeBytes lp p;
        if decide (lenbytes = 0) then Some Invalid
        else if decide (OUT_OF_RANGE lpbytes (p + lenbytes)) then Some Invalid
        else
          size ← lpCurrentEncodedSizeUnsafe lp p;
          let encodedBacklen := lpBacklenSize size in
          let entrylen := size + encodedBacklen in
          if decide (OUT_OF_RANGE lpbytes (p + entrylen)) then Some Invalid
          else
            let p := p + entrylen in
            prevlen ← lpDecodeBacklen lp (p - 1);
            if decide (u64 (prevlen + encodedBacklen) <> entrylen) then Some Invalid
            else Some (ValidNext p)
  end.

Definition lpAssertValidEntry (lp : bytes) (lpbytes p : Z) : option unit :=
  r ← lpValidateNext lp (Some p) lpbytes;
  match r with Invalid => None | _ => Some tt end.

Definition lpNext (lp : bytes) (p : Z) : option (option Z) :=
  p ← lpSkip lp p;
  b ← peek lp p;
  if decide (b = LP_EOF) then Some None
  else
    n ← lpBytes lp;
    _ ← lpAssertValidEntry lp n p;
    Some (Some p).

Definition lpPrev (lp : bytes) (p : Z) : option (option Z) :=
  if decide (p = LP_HDR_SIZE) then Some None
  else
    let p := p - 1 in
    prevlen ← lpDecodeBacklen lp p;
    let prevlen := u64 (prevlen + lpBacklenSize prevlen) in
    let p := p - (prevlen - 1) in
    n ← lpBytes lp;
    _ ← lpAssertValidEntry lp n p;
    Some (Some p).

Definition lpFirst (lp : bytes) : option (option Z) :=
  let p := LP_HDR_SIZE in
  b ← peek lp p;
  if decide (b = LP_EOF) then Some None
  else
    n ← lpBytes lp;
    _ ← lpAssertValidEntry lp n p;
    Some (Some p).

Definition lpLast (lp : bytes) : option (option Z) :=
  n ← lpGetTotalBytes lp;
  lpPrev lp (n - 1).

(** The scan of [lpLength]. *)
Fixpoint lpLength_loop (fuel : nat) (lp : bytes) (p : option Z) (count : Z) : option Z :=
  match p with
  | None => Some count
  | Some p =>
    match fuel with
    | O => None
    | S fuel => p ← lpNext lp p; lpLength_loop fuel lp p (u32 (count + 1))
    end
  end.

(** The count and the listpack, whose header may have been updated. *)
Definition lpLength (lp : bytes) : option (Z * bytes) :=
  numele ← lpGetNumElements lp;
  if decide (numele <> LP_HDR_NUMELE_UNKNOWN) then Some (numele, lp)
  else
    p ← lpFirst lp;
    count ← lpLength_loop (length lp) lp p 0;
    if decide (count < LP_HDR_NUMELE_UNKNOWN) then
      lp ← lpSetNumElements lp count; Some (count, lp)
    else Some (count, lp).

(** What [lpGetWithSize] returns: a string at an offset of the listpack with
    its length, an integer, or ([intbuf] given) the contents of [intbuf]. *)
Inductive lp_got := GotStr (off len : Z) | GotInt (v : Z).

(** The conversion of the unsigned value at the end of [lpGetWithSize]. *)
Definition lp_signed (uval negstart negmax : Z) : Z :=
  if decide (uval >= negstart) then i64 (- (i64 (u64 (negmax - uval))) - 1) else i64 uval.

(** [entry_size] is [None] where the code leaves [*entry_size] as it was. *)
Definition lpGetWithSize (lp : bytes) (p : Z) : option (lp_got * option Z) :=
  b ← peek lp p;
  if decide (LP_ENCODING_IS_7BIT_UINT b) then
    Some (GotInt (lp_signed (Z.land b 127) ULLONG_MAX 0), Some 2)
  else if decide (LP_ENCODING_IS_6BIT_STR b) then
    count ← LP_ENCODING_6BIT_STR_LEN lp p;
    Some (GotStr (p + 1) count, Some (1 + count + lpBacklenSize (count + 1)))
  else if decide (LP_ENCODING_IS_13BIT_INT b) then
    b1 ← peek lp (p + 1);
    let uval := Z.lor (Z.shiftl (Z.land b 31) 8) b1 in
    Some (GotInt (lp_signed uval (Z.shiftl 1 12) 8191), Some 3)
  else if decide (LP_ENCODING_IS_16BIT_INT b) then
    uval ← get_le 2 lp (p + 1) 0;
    Some (GotInt (lp_signed uval (Z.shiftl 1 15) 65535), Some 4)
  else if decide (LP_ENCODING_IS_24BIT_INT b) then
    uval ← get_le 3 lp (p + 1) 0;
    Some (GotInt (lp_signed uval (Z.shiftl 1 23) (Z.shiftr UINT32_MAX 8)), Some 5)
  else if decide (LP_ENCODING_IS_32BIT_INT b) then
    uval ← get_le 4 lp (p + 1) 0;
    Some (GotInt (lp_signed uval (Z.shiftl 1 31) UINT32_MAX), Some 6)
  else if decide (LP_ENCODING_IS_64BIT_INT b) then
    uval ← get_le 8 lp (p + 1) 0;
    Some (GotInt (lp_signed uval (Z.shiftl 1 63) ULLONG_MAX), Some 10)
  else if decide (LP_ENCODING_IS_12BIT_STR b) then
    count ← LP_ENCODING_12BIT_STR_LEN lp p;
    Some (GotStr (p + 2) count, Some (2 + count + lpBacklenSize (count + 2)))
  else if decide (LP_ENCODING_IS_32BIT_STR b) then
    count ← LP_ENCODING_32BIT_STR_LEN lp p;
    Some (GotStr (p + 5) count, Some (5 + count + lpBacklenSize (count + 5)))
  else Some (GotInt (lp_signed (12345678900000000 + b) ULLONG_MAX 0), None).

(** [lpGet] with [intbuf == NULL]; [lpGetValue] returns the same. *)
Definition lpGet (lp : bytes) (p : Z) : option lp_got :=
  '(g, _) ← lpGetWithSize lp p; Some g.

(** [lpGet] with a buffer: the returned string. *)
Definition lpGetString (lp : bytes) (p : Z) (intbuf : bytes) : option bytes :=
  g ← lpGet lp p;
  match g with
  | GotStr off len => mem_read lp off len
  | GotInt v =>
    '(intbuf, count) ← ll2string intbuf LP_INTBUF_SIZE v;
    mem_read intbuf 0 count
  end.

(** [memcmp(lp + off, s, slen) == 0]. *)
Definition lp_memcmp (lp : bytes) (off : Z) (s : bytes) (slen : Z) : option bool :=
  x ← mem_read lp off slen; y ← mem_read s 0 slen; Some (bool_decide (x = y)).

(** What [lpFind] knows of the searched string as an integer: not tried yet
    (0), no integer (UCHAR_MAX), the integer (1, with [vll]). *)
Inductive lp_vencoding := NotTried | NotInt | IsInt (vll : Z).

(** The step that sets [vencoding]. *)
Definition lpFind_encode (s : bytes) (slen : Z) (v : lp_vencoding) : option lp_vencoding :=
  match v with
  | NotTried =>
    if decide (slen >= 32 \/ slen = 0) then Some NotInt
    else r ← lpStringToInt64 s slen; Some (match r with Some n => IsInt n | None => NotInt end)
  | _ => Some v
  end.

(** The comparison at one entry: whether it is equal, [vencoding] and the
    entry size afterwards. *)
Definition lpFind_test (lp : bytes) (p lp_bytes : Z) (s : bytes) (slen : Z) (v : lp_vencoding)
    (entry_size : Z) : option (bool * lp_vencoding * Z) :=
  '(g, sz) ← lpGetWithSize lp p;
  let entry_size := default entry_size sz in
  match g with
  | GotStr off ll =>
    _ ← assert (p >= LP_HDR_SIZE /\ p + entry_size < lp_bytes);
    if decide (slen = ll) then
      same ← lp_memcmp lp off s slen; Some (same, v, entry_size)
    else Some (false, v, entry_size)
  | GotInt ll =>
    v ← lpFind_encode s slen v;
    Some (match v with IsInt vll => bool_decide (ll = vll) | _ => false end, v, entry_size)
  end.

(** The validation of the position before the next iteration of [lpFind]. *)
Definition lpFind_check (lp : bytes) (p lp_bytes : Z) : option unit :=
  if decide (p + 8 >= lp_bytes) then lpAssertValidEntry lp lp_bytes p
  else assert (p >= LP_HDR_SIZE /\ p < lp_bytes).

Fixpoint lpFind_loop (fuel : nat) (lp : bytes) (p lp_bytes : Z) (s : bytes) (slen skip skipcnt : Z)
    (v : lp_vencoding) (entry_size : Z) : option (option Z) :=
  match fuel with
  | O => None
  | S fuel =>
    let next p skipcnt v entry_size :=
      _ ← lpFind_check lp p lp_bytes;
      b ← peek lp p;
      if decide (b = LP_EOF) then Some None
      else lpFind_loop fuel lp p lp_bytes s slen skip skipcnt v entry_size in
    if decide (skipcnt = 0) then
      '(found, v, entry_size) ← lpFind_test lp p lp_bytes s slen v entry_size;
      if (found : bool) then Some (Some p)
      else next (p + entry_size) (i32 skip) v entry_size
    else
      p ← lpSkip lp p;
      next p (i32 (skipcnt - 1)) v entry_size
  end.

Definition lpFind (lp : bytes) (p : Z) (s : bytes) (slen skip : Z) : option (option Z) :=
  lp_bytes ← lpBytes lp;
  lpFind_loop (length lp) lp p lp_bytes s slen skip 0 NotTried 123456789.

Definition lpCompare (lp : bytes) (p : Z) (s : bytes) (slen : Z) : option bool :=
  b ← peek lp p;
  if decide (b = LP_EOF) then Some false
  else
    g ← lpGet lp p;
    match g with
    | GotStr off sz => if decide (slen = sz) then lp_memcmp lp off s slen else Some false
    | GotInt sz =>
      r ← lpStringToInt64 s slen;
      Some (match r with Some sval => bool_decide (sz = sval) | None => false end)
    end.

(** The forward and backward loops of [lpSeek]. *)
Fixpoint lpSeek_forward (fuel : nat) (lp : bytes) (index : Z) (ele : option Z) : option (option Z) :=
  match ele with
  | Some p =>
    if decide (index > 0) then
      match fuel with
      | O => None
      | S fuel => ele ← lpNext lp p; lpSeek_forward fuel lp (index - 1) ele
      end
    else Some ele
  | None => Some None
  end.

Fixpoint lpSeek_backward (fuel : nat) (lp : bytes) (index : Z) (ele : option Z) : option (option Z) :=
  match ele with
  | Some p =>
    if decide (index < -1) then
      match fuel with
      | O => None
      | S fuel => ele ← lpPrev lp p; lpSeek_backward fuel lp (index + 1) ele
      end
    else Some ele
  | None => Some None
  end.

Definition lpSeek_scan (lp : bytes) (forward : bool) (index : Z) : option (option Z) :=
  if forward then ele ← lpFirst lp; lpSeek_forward (length lp) lp index ele
  else ele ← lpLast lp; lpSeek_backward (length lp) lp index ele.

Definition lpSeek (lp : bytes) (index : Z) : option (option Z) :=
  numele ← lpGetNumElements lp;
  if decide (numele <> LP_HDR_NUMELE_UNKNOWN) then
    let index := if decide (index < 0) then numele + index else index in
    if decide (index < 0) then Some None
    else if decide (index >= numele) then Some None
    else if decide (index > Z.quot numele 2) then lpSeek_scan lp false (index - numele)
    else lpSeek_scan lp true index
  else lpSeek_scan lp (negb (bool_decide (index < 0))) index.

Definition lpValidateFirst (lp : bytes) : option (option Z) :=
  b ← peek lp LP_HDR_SIZE; Some (if decide (b = LP_EOF) then None else Some LP_HDR_SIZE).

(** The entries of [lpValidateIntegrity]: [inl (p, count)] is the end of the
    loop, [inr tt] the return of 0.  [entry_cb] is the optional callback. *)
Fixpoint lpValidate_loop (fuel : nat) (lp : bytes) (n numele : Z)
    (entry_cb : option (Z -> Z -> bool)) (p count : Z) : option (Z * Z + unit) :=
  b ← peek lp p;
  if decide (b = LP_EOF) then Some (inl (p, count))
  else
    match fuel with
    | O => None
    | S fuel =>
      r ← lpValidateNext lp (Some p) n;
      match r with
      | ValidNext p' =>
        if match entry_cb with Some cb => negb (cb p numele) | None => false end then Some (inr tt)
        else lpValidate_loop fuel lp n numele entry_cb p' (u32 (count + 1))
      | _ => Some (inr tt)
      end
    end.

Definition lpValidateIntegrity (lp : bytes) (size : Z) (deep : bool)
    (entry_cb : option (Z -> Z -> bool)) : option bool :=
  if decide (size < LP_HDR_SIZE + 1) then Some false
  else
    n ← lpGetTotalBytes lp;
    if decide (n <> size) then Some false
    else
      b ← peek lp (size - 1);
      if decide (b <> LP_EOF) then Some false
      else if negb deep then Some true
      else
        numele ← lpGetNumElements lp;
        r ← lpValidate_loop (length lp) lp n numele entry_cb LP_HDR_SIZE 0;
        match r with
        | inr _ => Some false
        | inl (p, count) =>
          if decide (p <> size - 1) then Some false
          else if decide (numele <> LP_HDR_NUMELE_UNKNOWN /\ numele <> count) then Some false
          else Some true
        end.

Definition lpEstimateBytesRepeatedInteger (lval rep : Z) : Z :=
  let enclen := zlen (lpEncodeIntegerGetType lval) in
  let backlen := lpBacklenSize enclen in
  u64 (LP_HDR_SIZE + (enclen + backlen) * rep + 1).

(** ** Operations that allocate *)

Inductive lp_where := LP_BEFORE | LP_AFTER | LP_REPLACE.
#[global] Instance lp_where_eq_dec : EqDecision lp_where.
Proof. solve_decision. Defined.

(** The element given to [lpInsert]: [elestr] with its [size] bytes, [eleint]
    with its [size] bytes, or neither, which deletes. *)
Inductive lp_ele := EleStr (s : bytes) | EleInt (intenc : bytes) | EleDelete.
#[global] Instance lp_ele_is_delete_dec (e : lp_ele) : Decision (e = EleDelete).
Proof. destruct e; (by left) || by right. Defined.

Section alloc.
Variable junk : nat -> Z.
Variable usable : Z -> Z.

Definition lp_realloc (lp : bytes) (n : Z) : bytes := mem_realloc junk lp (usable n).
Definition lp_malloc (n : Z) : bytes := mem_realloc junk [] (usable n).
Definition lp_malloc_size (lp : bytes) : Z := zlen lp.

Definition lpNew (capacity : Z) : option bytes :=
  let lp := lp_malloc (if decide (capacity > LP_HDR_SIZE + 1) then capacity else LP_HDR_SIZE + 1) in
  lp ← lpSetTotalBytes lp (LP_HDR_SIZE + 1);
  lp ← lpSetNumElements lp 0;
  poke lp LP_HDR_SIZE LP_EOF.

Definition lpShrinkToFit (lp : bytes) : option bytes :=
  size ← lpGetTotalBytes lp;
  Some (if decide (size < lp_malloc_size lp) then lp_realloc lp size else lp).

Definition lpDup (lp : bytes) : option bytes :=
  lpbytes ← lpBytes lp;
  bs ← mem_read lp 0 lpbytes;
  mem_write (lp_malloc lpbytes) 0 bs.

(** The encoded element that [lpInsert] stores (no bytes for a deletion). *)
Definition lpInsert_encode (ele : lp_ele) : option bytes :=
  match ele with
  | EleStr s =>
    r ← lpEncodeGetType s (zlen s);
    Some (match r with inl intenc => intenc | inr _ => lpEncodeString s (zlen s) end)
  | EleInt intenc => Some intenc
  | EleDelete => Some []
  end.

(** Making room: the reallocation before, the move of the tail and the
    reallocation after. [newlen] is [enclen + backlen_size]. *)
Definition lpInsert_room (lp : bytes) (poff newlen replaced_len old_listpack_bytes
    new_listpack_bytes : Z) (where_ : lp_where) : option bytes :=
  let lp := if decide (new_listpack_bytes > old_listpack_bytes /\
                       new_listpack_bytes > lp_malloc_size lp)
            then lp_realloc lp new_listpack_bytes else lp in
  lp ← if decide (where_ = LP_BEFORE)
       then mem_move lp (poff + newlen) poff (old_listpack_bytes - poff)
       else mem_move lp (poff + newlen) (poff + replaced_len)
              (old_listpack_bytes - poff - replaced_len);
  Some (if decide (new_listpack_bytes < old_listpack_bytes)
        then lp_realloc lp new_listpack_bytes else lp).

(** The header update at the end of [lpInsert]. *)
Definition lpInsert_header (lp : bytes) (where_ : lp_where) (delete : bool)
    (new_listpack_bytes : Z) : option bytes :=
  lp ← if decide (where_ <> LP_REPLACE \/ delete = true) then
         num_elements ← lpGetNumElements lp;
         if decide (num_elements <> LP_HDR_NUMELE_UNKNOWN) then
           if delete then lpSetNumElements lp (u32 (num_elements - 1))
           else lpSetNumElements lp (u32 (num_elements + 1))
         else Some lp
       else Some lp;
  lpSetTotalBytes lp new_listpack_bytes.

(** The size of the entry that is replaced. *)
Definition lpInsert_replaced (lp : bytes) (p : Z) (where_ : lp_where) : option Z :=
  if decide (where_ = LP_REPLACE) then
    n ← lpCurrentEncodedSizeUnsafe lp p;
    let n := u32 (n + lpBacklenSize n) in
    total ← lpGetTotalBytes lp;
    _ ← assert (p >= LP_HDR_SIZE /\ p + n < total);
    Some n
  else Some 0.

(** The new listpack and [*newp]; [Some None] is the return of [NULL]. *)
Definition lpInsert (lp : bytes) (ele : lp_ele) (p : Z) (where_ : lp_where) :
    option (option (bytes * option Z)) :=
  let delete := bool_decide (ele = EleDelete) in
  let where_ := if delete then LP_REPLACE else where_ in
  '(p, where_) ←
     if decide (where_ = LP_AFTER) then
       p ← lpSkip lp p;
       total ← lpGetTotalBytes lp;
       _ ← assert (p >= LP_HDR_SIZE /\ p < total);
       Some (p, LP_BEFORE)
     else Some (p, where_);
  enc ← lpInsert_encode ele;
  let backlen := if delete then [] else lpEncodeBacklen (zlen enc) in
  let newlen := zlen enc + zlen backlen in
  old_listpack_bytes ← lpGetTotalBytes lp;
  replaced_len ← lpInsert_replaced lp p where_;
  let new_listpack_bytes := u64 (old_listpack_bytes + newlen - replaced_len) in
  if decide (new_listpack_bytes > UINT32_MAX) then Some None
  else
    lp ← lpInsert_room lp p newlen replaced_len old_listpack_bytes new_listpack_bytes where_;
    b ← peek lp p;
    let newp := if decide (delete = true /\ b = LP_EOF) then None else Some p in
    lp ← if delete then Some lp
         else lp ← mem_write lp p enc; mem_write lp (p + zlen enc) backlen;
    lp ← lpInsert_header lp where_ delete new_listpack_bytes;
    Some (Some (lp, newp)).

Definition lpInsertString (lp s : bytes) (p : Z) (where_ : lp_where) :=
  lpInsert lp (EleStr s) p where_.

Definition lpInsertInteger (lp : bytes) (lval p : Z) (where_ : lp_where) :=
  lpInsert lp (EleInt (lpEncodeIntegerGetType lval)) p where_.

Definition lpAppend (lp ele : bytes) : option (option (bytes * option Z)) :=
  listpack_bytes ← lpGetTotalBytes lp;
  lpInsert lp (EleStr ele) (listpack_bytes - 1) LP_BEFORE.

Definition lpAppendInteger (lp : bytes) (lval : Z) : option (option (bytes * option Z)) :=
  listpack_bytes ← lpGetTotalBytes lp;
  lpInsertInteger lp lval (listpack_bytes - 1) LP_BEFORE.

Definition lpPrepend (lp s : bytes) : option (option (bytes * option Z)) :=
  p ← lpFirst lp;
  match p with
  | None => lpAppend lp s
  | Some p => lpInsert lp (EleStr s) p LP_BEFORE
  end.

Definition lpPrependInteger (lp : bytes) (lval : Z) : option (option (bytes * option Z)) :=
  p ← lpFirst lp;
  match p with
  | None => lpAppendInteger lp lval
  | Some p => lpInsertInteger lp lval p LP_BEFORE
  end.

Definition lpReplace (lp : bytes) (p : Z) (s : bytes) := lpInsert lp (EleStr s) p LP_REPLACE.
Definition lpReplaceInteger (lp : bytes) (p lval : Z) := lpInsertInteger lp lval p LP_REPLACE.
Definition lpDelete (lp : bytes) (p : Z) := lpInsert lp EleDelete p LP_REPLACE.

(** The walk over the entries to delete: [tail] and [deleted]. *)
Fixpoint lpDeleteRange_loop (fuel : nat) (lp : bytes) (n num tail deleted : Z) : option (Z * Z) :=
  if decide (num = 0) then Some (tail, deleted)
  else
    match fuel with
    | O => None
    | S fuel =>
      let deleted := deleted + 1 in
      tail ← lpSkip lp tail;
      b ← peek lp tail;
      if decide (b = LP_EOF) then Some (tail, deleted)
      else
        _ ← lpAssertValidEntry lp n tail;
        lpDeleteRange_loop fuel lp n (num - 1) tail deleted
    end.

(** The listpack and [*p]. *)
Definition lpDeleteRangeWithEntry (lp : bytes) (p num : Z) : option (bytes * option Z) :=
  n ← lpBytes lp;
  let eofptr := n - 1 in
  if decide (num = 0) then Some (lp, Some p)
  else
    '(tail, deleted) ← lpDeleteRange_loop (length lp) lp n num p 0;
    lp ← mem_move lp p tail (eofptr - tail + 1);
    lp ← lpSetTotalBytes lp (n - (tail - p));
    numele ← lpGetNumElements lp;
    lp ← if decide (numele <> LP_HDR_NUMELE_UNKNOWN)
         then lpSetNumElements lp (u64 (numele - deleted)) else Some lp;
    lp ← lpShrinkToFit lp;
    b ← peek lp p;
    Some (lp, if decide (b = LP_EOF) then None else Some p).

Definition lpDeleteRange (lp : bytes) (index num : Z) : option bytes :=
  numele ← lpGetNumElements lp;
  if decide (num = 0) then Some lp
  else
    p ← lpSeek lp index;
    match p with
    | None => Some lp
    | Some p =>
      let known := bool_decide (numele <> LP_HDR_NUMELE_UNKNOWN) in
      let index := if decide (known = true /\ index < 0) then numele + index else index in
      if decide (known = true /\ u64 (numele - index) <= num) then
        lp ← poke lp p LP_EOF;
        lp ← lpSetTotalBytes lp (p + 1);
        lp ← lpSetNumElements lp index;
        lpShrinkToFit lp
      else '(lp, _) ← lpDeleteRangeWithEntry lp p num; Some lp
    end.

(** The loop of [lpBatchDelete]: the listpack and [dst]. *)
Fixpoint lpBatchDelete_loop (lp : bytes) (lp_end : Z) (ps : list Z) (dst : Z) : option (bytes * Z) :=
  match ps with
  | [] => Some (lp, dst)
  | skip :: ps =>
    b ← peek lp skip;
    _ ← assert (b <> LP_EOF);
    keep_start ← lpSkip lp skip;
    let keep_end := match ps with next :: _ => next | [] => lp_end end in
    if decide (ps <> [] /\ keep_start = keep_end) then lpBatchDelete_loop lp lp_end ps dst
    else
      _ ← assert (keep_end > keep_start);
      let bytes_to_keep := keep_end - keep_start in
      lp ← mem_move lp dst keep_start bytes_to_keep;
      lpBatchDelete_loop lp lp_end ps (dst + bytes_to_keep)
  end.

Definition lpBatchDelete (lp : bytes) (ps : list Z) : option bytes :=
  match ps with
  | [] => Some lp
  | dst :: _ =>
    total_bytes ← lpGetTotalBytes lp;
    let lp_end := total_bytes in
    b ← peek lp (lp_end - 1);
    _ ← assert (b = LP_EOF);
    '(lp, dst) ← lpBatchDelete_loop lp lp_end ps dst;
    let total_bytes := total_bytes - (lp_end - dst) in
    b ← peek lp (total_bytes - 1);
    _ ← assert (b = LP_EOF);
    lp ← lpSetTotalBytes lp total_bytes;
    numele ← lpGetNumElements lp;
    lp ← if decide (numele <> LP_HDR_NUMELE_UNKNOWN)
         then lpSetNumElements lp (u64 (numele - zlen ps)) else Some lp;
    lpShrinkToFit lp
  end.

(** [*first] and [*second] are [NULL] or listpacks, [same] says that they are
    the same pointer. The result is the merged listpack with [*first] and
    [*second] afterwards; [Some None] is the return of [NULL]. *)
Definition lpMerge (first second : option bytes) (same : bool) :
    option (option (bytes * option bytes * option bytes)) :=
  match first, second with
  | Some first, Some second =>
    if same then Some None
    else
      first_bytes ← lpBytes first;
      '(first_len, first) ← lpLength first;
      second_bytes ← lpBytes second;
      '(second_len, second) ← lpLength second;
      let append := bool_decide (first_bytes >= second_bytes) in
      let '(target, target_bytes, source, source_bytes) :=
        if append then (first, first_bytes, second, second_bytes)
        else (second, second_bytes, first, first_bytes) in
      let lpbytes := u64 (first_bytes + second_bytes - LP_HDR_SIZE - 1) in
      _ ← assert (lpbytes < UINT32_MAX);
      let lplength := first_len + second_len in
      let lplength := if decide (lplength < 65535) then lplength else 65535 in
      let target := lp_realloc target lpbytes in
      target ←
        if append then
          bs ← mem_read source LP_HDR_SIZE (source_bytes - LP_HDR_SIZE);
          mem_write target (target_bytes - 1) bs
        else
          target ← mem_move target (source_bytes - 1) LP_HDR_SIZE (target_bytes - LP_HDR_SIZE);
          bs ← mem_read source 0 (source_bytes - 1);
          mem_write target 0 bs;
      target ← lpSetNumElements target lplength;
      target ← lpSetTotalBytes target lpbytes;
      Some (Some (target, if append then Some target else None,
                  if append then None else Some target))
  | _, _ => Some None
  end.
End alloc.

(** ** The entries of a listpack

    An entry in each of its encodings; a value can have several (5 can be
    stored as a 7-bit or as a 64-bit integer), of which the code writes the
    shortest. *)
Inductive lp_ent :=
  | U7 (v : Z) | S6 (s : bytes) | I13 (v : Z) | I16 (v : Z) | I24 (v : Z) | I32 (v : Z) | I64 (v : Z)
  | S12 (s : bytes) | S32 (s : bytes).

Definition ent_ok (e : lp_ent) : Prop :=
  match e with
  | U7 v => 0 <= v <= 127
  | S6 s => zlen s < 64
  | I13 v => in_i 13 v
  | I16 v => in_i 16 v
  | I24 v => in_i 24 v
  | I32 v => in_i 32 v
  | I64 v => in_i 64 v
  | S12 s => zlen s < 4096
  | S32 s => zlen s < 2 ^ 32
  end.

(** The encoded element. *)
Definition enc (e : lp_ent) : bytes :=
  match e with
  | U7 v => [v]
  | S6 s => 128 + zlen s :: s
  | I13 v => [192 + v mod 2 ^ 13 / 256; v mod 256]
  | I16 v => 241 :: le_bytes 2 v
  | I24 v => 242 :: le_bytes 3 v
  | I32 v => 243 :: le_bytes 4 v
  | I64 v => 244 :: le_bytes 8 v
  | S12 s => 224 + zlen s / 256 :: zlen s mod 256 :: s
  | S32 s => 240 :: le_bytes 4 (zlen s) ++ s
  end.

(** What an entry holds, where its string starts in the encoding. *)
Inductive lp_val := VStr (s : bytes) | VInt (v : Z).

Definition val (e : lp_ent) : lp_val :=
  match e with
  | U7 v | I13 v | I16 v | I24 v | I32 v | I64 v => VInt v
  | S6 s | S12 s | S32 s => VStr s
  end.

Definition str_pos (e : lp_ent) : Z :=
  match e with S12 _ => 2 | S32 _ => 5 | _ => 1 end.

(** The text of an entry: its string, or its integer in decimal. *)
Definition ent_text (e : lp_ent) (t : bytes) : Prop :=
  match val e with VStr s => t = s | VInt v => sdecimal t v end.

(** ** Classes of encoding bytes *)

Definition lp_classes (b : Z) : bool :=
  bool_decide ((Z.land b 128 = 0 <-> b < 128) /\ (Z.land b 192 = 128 <-> 128 <= b < 192) /\
    (Z.land b 224 = 192 <-> 192 <= b < 224) /\ (Z.land b 240 = 224 <-> 224 <= b < 240) /\
    Z.land b 255 = b).

Lemma lp_classes_ok b : byte_ok b ->
  (Z.land b 128 = 0 <-> b < 128) /\ (Z.land b 192 = 128 <-> 128 <= b < 192) /\
  (Z.land b 224 = 192 <-> 192 <= b < 224) /\ (Z.land b 240 = 224 <-> 224 <= b < 240) /\
  Z.land b 255 = b.
Proof.
  intros Hb. apply (bool_decide_unpack _). apply Is_true_true.
  apply (byte_forall lp_classes); [by vm_compute|done].
Qed.

(** Decides the chain of encoding tests on the byte [b]. *)
Ltac lp_dispatch b Hb :=
  let H1 := fresh in let H2 := fresh in let H3 := fresh in let H4 := fresh in
  let H5 := fresh in
  destruct (lp_classes_ok b Hb) as (H1 & H2 & H3 & H4 & H5);
  unfold byte_ok, LP_EOF in *;
  unfold LP_ENCODING_IS_7BIT_UINT, LP_ENCODING_IS_6BIT_STR, LP_ENCODING_IS_13BIT_INT,
    LP_ENCODING_IS_12BIT_STR, LP_ENCODING_IS_16BIT_INT, LP_ENCODING_IS_24BIT_INT,
    LP_ENCODING_IS_32BIT_INT, LP_ENCODING_IS_64BIT_INT, LP_ENCODING_IS_32BIT_STR;
  repeat (case_decide; [try (exfalso; lia)|try (exfalso; lia)]).

Lemma get_le_ok m p bs i :
  0 <= i -> bytes_ok bs -> bytes_at m (p + i) bs ->
  get_le (length bs) m p i = Some (Z.shiftl (le_val bs) (8 * i)).
Proof.
  intros Hi Hok. revert i Hi. induction Hok as [|b bs Hb Hbs IH]; intros i Hi Hat.
  { cbn [length get_le le_val]. by rewrite Z.shiftl_0_l. }
  apply bytes_at_cons in Hat as [Hp Hat]. cbn [length get_le le_val]. rewrite Hp.
  cbn [mbind option_bind]. rewrite IH; [|lia|by rewrite Z.add_assoc]. cbn [mbind option_bind].
  f_equal. replace (8 * (i + 1)) with (8 + 8 * i) by lia.
  rewrite <- Z.shiftl_shiftl by lia. rewrite <- Z.shiftl_lor. f_equal.
  unfold byte_ok in Hb. rewrite lor_shiftl_add by lia. lia.
Qed.

Lemma get_le_le_bytes m p n v :
  bytes_at m p (le_bytes n v) -> get_le n m p 0 = Some (v mod 2 ^ (8 * Z.of_nat n)).
Proof.
  intros H. rewrite <- (Z.add_0_r p) in H.
  pose proof (get_le_ok m p _ 0 ltac:(lia) (le_bytes_ok n v) H) as E.
  rewrite length_le_bytes in E. rewrite E, Z.shiftl_0_r. by rewrite le_val_le_bytes.
Qed.

Lemma set_total_bytes v :
  [Z.land v 255; Z.land (Z.shiftr v 8) 255; Z.land (Z.shiftr v 16) 255; Z.land (Z.shiftr v 24) 255]
  = le_bytes 4 v.
Proof.
  cbn [le_bytes]. rewrite !land_255, !shiftr_div by lia. rewrite !Z.div_div by lia. reflexivity.
Qed.

Lemma set_num_bytes v : [Z.land v 255; Z.land (Z.shiftr v 8) 255] = le_bytes 2 v.
Proof. cbn [le_bytes]. rewrite !land_255, !shiftr_div by lia. reflexivity. Qed.

Lemma u8_mod x : u8 x = x mod 256.
Proof. reflexivity. Qed.

(** ** The encoder writes the shortest encoding *)

Definition int_ent (v : Z) : lp_ent :=
  if decide (0 <= v <= 127) then U7 v
  else if decide (in_i 13 v) then I13 v
  else if decide (in_i 16 v) then I16 v
  else if decide (in_i 24 v) then I24 v
  else if decide (in_i 32 v) then I32 v
  else I64 v.

Definition str_ent (s : bytes) : lp_ent :=
  if decide (zlen s < 64) then S6 s else if decide (zlen s < 4096) then S12 s else S32 s.

Lemma le_bytes_shift n k v : le_bytes n (k * 2 ^ (8 * Z.of_nat n) + v) = le_bytes n v.
Proof.
  revert k v. induction n as [|n IH]; intros; [done|]. cbn [le_bytes]. rewrite pow256_succ.
  replace (k * (256 * 2 ^ (8 * Z.of_nat n)) + v) with (v + k * 2 ^ (8 * Z.of_nat n) * 256) by lia.
  f_equal; [by rewrite Z_mod_plus_full|]. rewrite Z_div_plus_full by lia. rewrite Z.add_comm. apply IH.
Qed.

Lemma wide_le n v :
  le_bytes n (if decide (v < 0) then Z.shiftl 1 (8 * Z.of_nat n) + v else v) = le_bytes n v.
Proof.
  case_decide; [|done]. rewrite Z.shiftl_mul_pow2 by lia. apply le_bytes_shift.
Qed.

Lemma intenc_13 v :
  in_i 13 v ->
  let w := if decide (v < 0) then Z.shiftl 1 13 + v else v in
  [u8 (Z.lor (Z.shiftr w 8) 192); Z.land w 255] = enc (I13 v).
Proof.
  intros Hv w. unfold in_i in Hv. assert (w = v mod 2 ^ 13) as ->.
  { unfold w. change (Z.shiftl 1 13) with (2 ^ 13).
    case_decide; [rewrite <- (Z_mod_plus_full v 1)|]; rewrite Z.mod_small; lia. }
  cbn [enc]. rewrite u8_mod, land_255, shiftr_div by lia.
  pose proof (Z.mod_pos_bound v (2 ^ 13)).
  assert (0 <= v mod 2 ^ 13 / 2 ^ 8 < 2 ^ 5).
  { split; [apply Z.div_pos; lia|apply Z.div_lt_upper_bound; lia]. }
  change (Z.lor ?x 192) with (Z.lor x (Z.shiftl 6 5)). rewrite lor_shiftl_add by lia.
  rewrite (Z.mod_small (_ + 6 * _)) by lia. change (2 ^ 8) with 256. f_equal; [lia|]. f_equal.
  change (2 ^ 13) with (256 * 32). rewrite Z.rem_mul_r by lia.
  rewrite (Z.mul_comm 256), Z_mod_plus_full. by rewrite Z.mod_mod.
Qed.

Lemma intenc_bytes w :
  [Z.land w 255; u8 (Z.shiftr w 8)] = le_bytes 2 w /\
  [Z.land w 255; Z.land (Z.shiftr w 8) 255; u8 (Z.shiftr w 16)] = le_bytes 3 w /\
  [Z.land w 255; Z.land (Z.shiftr w 8) 255; Z.land (Z.shiftr w 16) 255; u8 (Z.shiftr w 24)]
    = le_bytes 4 w /\
  [Z.land w 255; Z.land (Z.shiftr w 8) 255; Z.land (Z.shiftr w 16) 255; Z.land (Z.shiftr w 24) 255;
   Z.land (Z.shiftr w 32) 255; Z.land (Z.shiftr w 40) 255; Z.land (Z.shiftr w 48) 255;
   u8 (Z.shiftr w 56)] = le_bytes 8 w.
Proof.
  cbn [le_bytes]. rewrite !u8_mod, !land_255, !shiftr_div by lia. rewrite !Z.div_div by lia. done.
Qed.

Lemma lpEncodeIntegerGetType_ok v :
  in_i 64 v -> lpEncodeIntegerGetType v = enc (int_ent v) /\ ent_ok (int_ent v) /\
    val (int_ent v) = VInt v.
Proof.
  intros Hv. unfold lpEncodeIntegerGetType, int_ent.
  case_decide as H1.
  { rewrite decide_True by lia. cbn [enc ent_ok val]. rewrite u8_mod, Z.mod_small by lia.
    split_and!; [done|lia|lia|done]. }
  rewrite (decide_False (P := 0 <= v <= 127)) by lia. case_decide as H2.
  { rewrite (decide_True (P := in_i 13 v)) by (unfold in_i; lia). cbn zeta. rewrite intenc_13 by (unfold in_i; lia).
    split_and!; [done|unfold ent_ok, in_i; lia|done]. }
  rewrite (decide_False (P := in_i 13 v)) by (unfold in_i; lia). case_decide as H3.
  { rewrite (decide_True (P := in_i 16 v)) by (unfold in_i; lia). cbn zeta. rewrite (proj1 (intenc_bytes _)).
    rewrite (wide_le 2). split_and!; [done|unfold ent_ok, in_i; lia|done]. }
  rewrite (decide_False (P := in_i 16 v)) by (unfold in_i; lia). case_decide as H4.
  { rewrite (decide_True (P := in_i 24 v)) by (unfold in_i; lia). cbn zeta. rewrite (proj1 (proj2 (intenc_bytes _))).
    rewrite (wide_le 3). split_and!; [done|unfold ent_ok, in_i; lia|done]. }
  rewrite (decide_False (P := in_i 24 v)) by (unfold in_i; lia). case_decide as H5.
  { rewrite (decide_True (P := in_i 32 v)) by (unfold in_i; lia). cbn zeta.
    rewrite (proj1 (proj2 (proj2 (intenc_bytes _)))).
    rewrite (wide_le 4). split_and!; [done|unfold ent_ok, in_i; lia|done]. }
  rewrite (decide_False (P := in_i 32 v)) by (unfold in_i; lia). cbn zeta.
  rewrite (proj2 (proj2 (proj2 (intenc_bytes _)))). split_and!; [|done|done].
  cbn [enc]. f_equal. unfold u64, uwrap. rewrite (Z.mod_eq v (2 ^ 64)) by lia.
  rewrite <- (le_bytes_shift 8 (- (v / 2 ^ 64)) v). f_equal. lia.
Qed.

Lemma lpStringToInt64_ok s :
  exists r, lpStringToInt64 s (zlen s) = Some r /\ forall v, r = Some v <-> sdecimal s v /\ in_i 64 v.
Proof.
  destruct (string2ll_ok s) as (r & Hr & Hiff). exists r. split; [|done].
  rewrite <- Hr. unfold lpStringToInt64, string2ll.
  destruct (decide (zlen s = 0 \/ zlen s >= LONG_STR_SIZE)) as [E|E].
  - rewrite decide_True; [done|]. destruct E; [left; lia|by right].
  - rewrite decide_False; [done|]. intros [?|?]; apply E; [left; lia|by right].
Qed.

Lemma lpEncodeString_ok s :
  zlen s < 2 ^ 32 ->
  lpEncodeString s (zlen s) = enc (str_ent s) /\ ent_ok (str_ent s) /\ val (str_ent s) = VStr s.
Proof.
  intros Hs. unfold lpEncodeString, str_ent. rewrite slice_full by done.
  pose proof (zlen_nonneg s). case_decide.
  { split_and!; [|done|done]. cbn [enc]. f_equal. rewrite u8_mod.
    change (Z.lor ?x 128) with (Z.lor x (Z.shiftl 2 6)). rewrite lor_shiftl_add by lia.
    rewrite Z.mod_small; lia. }
  case_decide.
  { split_and!; [|done|done]. cbn [enc]. rewrite u8_mod, land_255, shiftr_div by lia. f_equal.
    change (2 ^ 8) with 256.
    assert (0 <= zlen s / 256 < 16) by (split; [apply Z.div_pos; lia|apply Z.div_lt_upper_bound; lia]).
    change (Z.lor ?x 224) with (Z.lor x (Z.shiftl 14 4)). rewrite lor_shiftl_add by lia.
    rewrite Z.mod_small; lia. }
  split_and!; [|done|done]. cbn [enc]. rewrite <- (set_total_bytes (zlen s)). reflexivity.
Qed.

(** The entry for a string: the shortest one for the integer of which it is the
    decimal text, or else the shortest one for its bytes. *)
Definition ele_ent (s : bytes) (e : lp_ent) : Prop :=
  (exists v, sdecimal s v /\ in_i 64 v /\ e = int_ent v) \/ ((forall v, in_i 64 v -> ~ sdecimal s v) /\ e = str_ent s).

Lemma lpInsert_encode_str s :
  zlen s < 2 ^ 32 -> exists e, lpInsert_encode (EleStr s) = Some (enc e) /\ ent_ok e /\ ent_text e s /\ ele_ent s e.
Proof.
  intros Hs. unfold lpInsert_encode, lpEncodeGetType.
  destruct (lpStringToInt64_ok s) as (r & -> & Hr). cbn [mbind option_bind].
  destruct r as [v|].
  - destruct (Hr v) as [[Hd Hv] _]; [done|].
    destruct (lpEncodeIntegerGetType_ok v Hv) as (-> & Hok & Hval).
    eexists. split_and!; [done|done|unfold ent_text; by rewrite Hval|]. left. by exists v.
  - destruct (lpEncodeString_ok s Hs) as (-> & Hok & Hval).
    eexists. split_and!; [done|done|unfold ent_text; by rewrite Hval|]. right. split; [|done].
    intros v Hv Hd. destruct (Hr v) as [_ H]. by discriminate H.
Qed.

(** ** The length before an entry *)

Lemma group_low x : Z.land (Z.lor (Z.land x 127) 128) 127 = x mod 128 /\
  Z.land (Z.lor (Z.land x 127) 128) 128 <> 0 /\ byte_ok (Z.lor (Z.land x 127) 128).
Proof.
  rewrite (land_127 x). pose proof (Z.mod_pos_bound x 128 ltac:(lia)).
  change (Z.lor ?y 128) with (Z.lor y (Z.shiftl 1 7)). rewrite lor_shiftl_add by lia.
  assert (byte_ok (x mod 128 + 1 * 2 ^ 7)) as Hb by (unfold byte_ok; lia).
  destruct (lp_classes_ok _ Hb) as (H1 & _).
  split_and!; [|lia|done]. rewrite land_127. change (2 ^ 7) with 128.
  rewrite Z_mod_plus_full. by rewrite Z.mod_mod.
Qed.

Lemma group_high x : 0 <= x < 128 -> Z.land (u8 x) 127 = x /\ Z.land (u8 x) 128 = 0.
Proof.
  intros Hx. rewrite u8_mod, Z.mod_small by lia.
  assert (byte_ok x) as Hb by (unfold byte_ok; lia).
  destruct (lp_classes_ok _ Hb) as (H1 & _).
  rewrite land_127, Z.mod_small by lia. split; [done|]. lia.
Qed.

(** One more group: the bits below [shift] have been read, the others follow. *)
Lemma decode_group l k : 0 <= k -> 0 <= l ->
  Z.lor (l mod 2 ^ k) (Z.shiftl (l / 2 ^ k mod 128) k) = l mod 2 ^ (k + 7).
Proof.
  intros. rewrite lor_shiftl_add; [|lia|apply Z.mod_pos_bound; lia].
  rewrite Z.pow_add_r by lia. change (2 ^ 7) with 128. rewrite Z.rem_mul_r by lia. lia.
Qed.

Lemma decode_more m p l k fuel :
  0 <= k -> k + 7 <= 28 -> 0 <= l -> peek m p = Some (Z.lor (Z.land (Z.shiftr l k) 127) 128) ->
  lpDecodeBacklen_loop (S fuel) m p (l mod 2 ^ k) k =
  lpDecodeBacklen_loop fuel m (p - 1) (l mod 2 ^ (k + 7)) (k + 7).
Proof.
  intros Hk Hk' Hl Hp. cbn [lpDecodeBacklen_loop]. rewrite Hp. cbn [mbind option_bind].
  destruct (group_low (Z.shiftr l k)) as (-> & Hc & _).
  rewrite shiftr_div, decode_group by lia. rewrite !decide_False by (rewrite ?shiftr_div in Hc; lia).
  done.
Qed.

Lemma decode_last m p l k fuel :
  0 <= k -> 0 <= l < 2 ^ (k + 7) -> peek m p = Some (u8 (Z.shiftr l k)) ->
  lpDecodeBacklen_loop (S fuel) m p (l mod 2 ^ k) k = Some l.
Proof.
  intros Hk Hl Hp. rewrite Z.pow_add_r in Hl by lia.
  assert (0 <= l / 2 ^ k < 128).
  { split; [apply Z.div_pos; lia|apply Z.div_lt_upper_bound; lia]. }
  cbn [lpDecodeBacklen_loop]. rewrite Hp. cbn [mbind option_bind]. rewrite shiftr_div by lia.
  destruct (group_high (l / 2 ^ k)) as [-> Hc]; [lia|]. rewrite decide_True by done.
  rewrite <- (Z.mod_small (l / 2 ^ k) 128) by lia. rewrite decode_group by lia.
  rewrite Z.pow_add_r by lia. by rewrite Z.mod_small by lia.
Qed.

Lemma backlen_size_range l : 1 <= lpBacklenSize l <= 5.
Proof. unfold lpBacklenSize, lpEncodeBacklen. repeat case_decide; zlia. Qed.

Lemma decode_first m p l fuel :
  0 <= l -> peek m p = Some (Z.lor (Z.land l 127) 128) ->
  lpDecodeBacklen_loop (S fuel) m p 0 0 = lpDecodeBacklen_loop fuel m (p - 1) (l mod 2 ^ 7) 7.
Proof.
  intros Hl Hp. pose proof (decode_more m p l 0 fuel) as E. rewrite Z.pow_0_r, Z.mod_1_r in E.
  apply E; [lia|lia|done|]. by rewrite Z.shiftr_0_r.
Qed.

(** A byte known at an equal position. *)
Ltac peek_at :=
  match goal with
  | H : peek ?m ?q = Some _ |- peek ?m ?q' = _ => replace q' with q by lia; exact H
  end.

(** Reading a length backwards from its last byte gives what was written. *)
Lemma backlen_decode m p l :
  0 <= l < 2 ^ 35 -> bytes_at m p (lpEncodeBacklen l) ->
  lpDecodeBacklen m (p + lpBacklenSize l - 1) = Some l.
Proof.
  intros Hl. unfold lpBacklenSize, lpEncodeBacklen, lpDecodeBacklen.
  repeat case_decide; rewrite !bytes_at_cons; intros Hat; destruct_and! Hat.
  - change (zlen _) with 1. pose proof (decode_last m p l 0 4) as E.
    rewrite Z.pow_0_r, Z.mod_1_r, Z.shiftr_0_r in E. replace (p + 1 - 1) with p by lia.
    apply E; [lia|lia|done].
  - change (zlen _) with 2. rewrite (decode_first _ _ l) by (lia || peek_at).
    apply (decode_last _ _ l 7); [lia|lia|peek_at].
  - change (zlen _) with 3. rewrite (decode_first _ _ l) by (lia || peek_at).
    rewrite (decode_more _ _ l 7) by (lia || peek_at).
    apply (decode_last _ _ l 14); [lia|lia|peek_at].
  - change (zlen _) with 4. rewrite (decode_first _ _ l) by (lia || peek_at).
    rewrite (decode_more _ _ l 7) by (lia || peek_at).
    rewrite (decode_more _ _ l 14) by (lia || peek_at).
    apply (decode_last _ _ l 21); [lia|lia|peek_at].
  - change (zlen _) with 5. rewrite (decode_first _ _ l) by (lia || peek_at).
    rewrite (decode_more _ _ l 7) by (lia || peek_at).
    rewrite (decode_more _ _ l 14) by (lia || peek_at).
    rewrite (decode_more _ _ l 21) by (lia || peek_at).
    apply (decode_last _ _ l 28); [lia|lia|peek_at].
Qed.

(** Whatever the bytes are, a result keeps the bits read so far. *)
Lemma decode_keeps fuel : forall m p v shift l,
  0 <= shift <= 28 -> 0 <= v < 2 ^ shift -> lpDecodeBacklen_loop fuel m p v shift = Some l ->
  l = ULLONG_MAX \/ (0 <= l < 2 ^ 35 /\ l mod 2 ^ shift = v).
Proof.
  induction fuel as [|fuel IH]; intros m p v shift l Hs Hv H; [done|].
  cbn [lpDecodeBacklen_loop] in H. unbind H. rewrite land_127 in H.
  pose proof (Z.mod_pos_bound r 128 ltac:(lia)) as Hr.
  rewrite lor_shiftl_add in H by lia.
  assert (0 <= v + r mod 128 * 2 ^ shift < 2 ^ (shift + 7)).
  { rewrite Z.pow_add_r by lia. change (2 ^ 7) with 128. nia. }
  pose proof (Z.pow_le_mono_r 2 (shift + 7) 35 ltac:(lia) ltac:(lia)).
  case_decide.
  { right. injection H as <-. split; [lia|]. rewrite Z_mod_plus_full. by apply Z.mod_small. }
  case_decide; [left; congruence|].
  apply IH in H as [?|[? Hm]]; [by left| |lia|lia]. right. split; [done|].
  rewrite <- (Z.mod_small v (2 ^ shift)) by lia. rewrite <- (Z_mod_plus_full v (r mod 128)).
  rewrite <- Hm. rewrite Z.pow_add_r by lia. rewrite Z.rem_mul_r by lia.
  rewrite (Z.mul_comm (2 ^ shift)), Z_mod_plus_full. by rewrite Z.mod_mod by lia.
Qed.

Lemma decode_low m p l :
  lpDecodeBacklen m p = Some l ->
  l = ULLONG_MAX \/ (0 <= l < 2 ^ 35 /\ exists b, peek m p = Some b /\ l mod 128 = b mod 128).
Proof.
  unfold lpDecodeBacklen. intros H. cbn [lpDecodeBacklen_loop] in H. unbind H.
  rewrite land_127, Z.lor_0_l, Z.shiftl_0_r in H.
  pose proof (Z.mod_pos_bound r 128 ltac:(lia)).
  case_decide.
  { right. injection H as <-. split; [lia|]. eexists. split; [done|]. by rewrite Z.mod_mod. }
  case_decide; [left; congruence|]. apply (decode_keeps 4) in H as [?|[? Hm]]; [by left| |lia|lia].
  right. split; [done|]. eexists. split; [done|]. done.
Qed.

(** ** Reading an entry *)

Lemma str_pos_pos e : 1 <= str_pos e.
Proof. destruct e; cbn; lia. Qed.

Lemma enc_first e : ent_ok e -> exists b bs, enc e = b :: bs /\ byte_ok b /\ b < 245.
Proof.
  intros He. destruct e; cbn [enc ent_ok] in *; eexists _, _; (split; [done|]); unfold byte_ok, in_i in *;
    zlen_nonneg_all; try lia.
  - pose proof (Z.mod_pos_bound v (2 ^ 13) ltac:(lia)).
    assert (0 <= v mod 2 ^ 13 / 256 < 32) by (split; [apply Z.div_pos; lia|apply Z.div_lt_upper_bound; lia]).
    lia.
  - assert (0 <= zlen s / 256 < 16) by (split; [apply Z.div_pos; lia|apply Z.div_lt_upper_bound; lia]).
    lia.
Qed.

Lemma lp_signed_ok w v :
  0 < w <= 64 -> in_i w v -> lp_signed (v mod 2 ^ w) (Z.shiftl 1 (w - 1)) (2 ^ w - 1) = v.
Proof.
  intros Hw Hv. unfold lp_signed. rewrite Z.shiftl_mul_pow2, Z.mul_1_l by lia.
  pose proof (in_i_mono w 64 v ltac:(lia) Hv) as H64. unfold in_i in *.
  pose proof (pow2_split w ltac:(lia)) as Hp.
  pose proof (Z.pow_le_mono_r 2 (w - 1) 63 ltac:(lia) ltac:(lia)).
  destruct (decide (v < 0)).
  - rewrite <- (Z_mod_plus_full v 1 (2 ^ w)). rewrite Z.mod_small by lia. rewrite decide_True by lia.
    unfold u64, i64. rewrite uwrap_small by (unfold in_u; lia).
    rewrite (swrap_small 64 (2 ^ w - 1 - _)) by (unfold in_i; lia). rewrite swrap_small by (unfold in_i; lia). lia.
  - rewrite Z.mod_small by lia. rewrite decide_False by lia.
    unfold i64. by rewrite swrap_small by (unfold in_i; lia).
Qed.

Lemma lp_signed_7 v : 0 <= v <= 127 -> lp_signed v ULLONG_MAX 0 = v.
Proof.
  intros. unfold lp_signed, ULLONG_MAX. rewrite decide_False by lia.
  unfold i64. by rewrite swrap_small by (unfold in_i; lia).
Qed.

(** Where [lpGet] finds the value of the entry at [p]. *)
Definition got (p : Z) (e : lp_ent) : lp_got :=
  match val e with VStr s => GotStr (p + str_pos e) (zlen s) | VInt v => GotInt v end.

Definition ent_size (e : lp_ent) : Z := zlen (enc e) + lpBacklenSize (zlen (enc e)).

Lemma i13_bytes v b :
  in_i 13 v -> b = 192 + v mod 2 ^ 13 / 256 ->
  192 <= b < 224 /\ Z.lor (Z.shiftl (b mod 32) 8) (v mod 256) = v mod 2 ^ 13.
Proof.
  intros Hv ->. pose proof (Z.mod_pos_bound v (2 ^ 13) ltac:(lia)).
  pose proof (Z.mod_pos_bound v 256 ltac:(lia)).
  assert (0 <= v mod 2 ^ 13 / 256 < 32) by (split; [apply Z.div_pos; lia|apply Z.div_lt_upper_bound; lia]).
  split; [lia|]. rewrite Z.lor_comm, lor_shiftl_add by lia.
  replace (192 + v mod 2 ^ 13 / 256) with (v mod 2 ^ 13 / 256 + 6 * 32) by lia.
  rewrite Z_mod_plus_full, (Z.mod_small (_ / _)) by lia.
  assert (v mod 256 = v mod 2 ^ 13 mod 256) as ->.
  { change (2 ^ 13) with (256 * 32). rewrite Z.rem_mul_r by lia.
    rewrite (Z.mul_comm 256), Z_mod_plus_full. by rewrite Z.mod_mod. }
  rewrite (Z.div_mod (v mod 2 ^ 13) 256) at 3 by lia. lia.
Qed.

Lemma s12_bytes (n b : Z) :
  0 <= n < 4096 -> b = 224 + n / 256 ->
  224 <= b < 240 /\ Z.lor (Z.shiftl (b mod 16) 8) (n mod 256) = n.
Proof.
  intros Hn ->. pose proof (Z.mod_pos_bound n 256 ltac:(lia)).
  assert (0 <= n / 256 < 16) by (split; [apply Z.div_pos; lia|apply Z.div_lt_upper_bound; lia]).
  split; [lia|]. rewrite Z.lor_comm, lor_shiftl_add by lia.
  replace (224 + n / 256) with (n / 256 + 14 * 16) by lia.
  rewrite Z_mod_plus_full, (Z.mod_small (_ / _)) by lia.
  rewrite (Z.div_mod n 256) at 3 by lia. lia.
Qed.

Lemma ent_read m p e :
  ent_ok e -> bytes_at m p (enc e) ->
  lpGetWithSize m p = Some (got p e, Some (ent_size e)).
Proof.
  intros He Hat. destruct (enc_first e He) as (b & bs & Heq & Hb & Hlt).
  rewrite Heq in Hat. apply bytes_at_cons in Hat as [Hp Hat].
  unfold lpGetWithSize, got, ent_size, LP_ENCODING_6BIT_STR_LEN, LP_ENCODING_12BIT_STR_LEN,
    LP_ENCODING_32BIT_STR_LEN.
  rewrite Hp. cbn [mbind option_bind].
  destruct e; cbn [enc ent_ok val str_pos] in *; injection Heq as Hb0 <-; zlen_nonneg_all.
  - lp_dispatch b Hb. rewrite land_127, Z.mod_small by lia. subst v.
    rewrite lp_signed_7 by lia. done.
  - lp_dispatch b Hb. cbn [mbind option_bind]. rewrite land_63, <- Hb0.
    replace ((128 + zlen s) mod 64) with (zlen s); [rewrite zlen_cons; by rewrite (Z.add_comm (zlen s))|].
    replace (128 + zlen s) with (zlen s + 2 * 64) by lia. rewrite Z_mod_plus_full. rewrite Z.mod_small; lia.
  - destruct (i13_bytes v b He ltac:(done)) as [? Hu]. lp_dispatch b Hb.
    apply bytes_at_cons in Hat as [-> _]. cbn [mbind option_bind]. rewrite land_31, Hu.
    rewrite (lp_signed_ok 13) by done. done.
  - lp_dispatch b Hb. rewrite (get_le_le_bytes _ _ 2 v) by done. cbn [mbind option_bind].
    change (8 * Z.of_nat 2) with 16. rewrite (lp_signed_ok 16) by done. done.
  - lp_dispatch b Hb. rewrite (get_le_le_bytes _ _ 3 v) by done. cbn [mbind option_bind].
    change (8 * Z.of_nat 3) with 24. rewrite (lp_signed_ok 24) by done. done.
  - lp_dispatch b Hb. rewrite (get_le_le_bytes _ _ 4 v) by done. cbn [mbind option_bind].
    change (8 * Z.of_nat 4) with 32. rewrite (lp_signed_ok 32) by done. done.
  - lp_dispatch b Hb. rewrite (get_le_le_bytes _ _ 8 v) by done. cbn [mbind option_bind].
    change (8 * Z.of_nat 8) with 64. rewrite (lp_signed_ok 64) by done. done.
  - destruct (s12_bytes (zlen s) b ltac:(lia) ltac:(done)) as [? Hu]. lp_dispatch b Hb.
    apply bytes_at_cons in Hat as [-> _]. cbn [mbind option_bind]. rewrite land_15, Hu.
    rewrite !zlen_cons. rewrite (Z.add_comm (zlen s)), Z.add_assoc. done.
  - lp_dispatch b Hb. apply (bytes_at_app m _ (le_bytes 4 (zlen s)) s) in Hat as [Hat _].
    rewrite (get_le_le_bytes _ _ 4 (zlen s)) by done. cbn [mbind option_bind].
    change (8 * Z.of_nat 4) with 32. rewrite Z.mod_small by lia.
    rewrite zlen_cons, zlen_app, zlen_le_bytes. rewrite (Z.add_comm (zlen s)), Z.add_assoc. done.
Qed.

Lemma zlen_enc_pos e : 1 <= zlen (enc e).
Proof. destruct e; cbn [enc]; autorewrite with zlen; zlen_nonneg_all; lia. Qed.

Lemma ent_enc_size m p e :
  ent_ok e -> bytes_at m p (enc e) -> zlen (enc e) < 2 ^ 32 ->
  lpCurrentEncodedSizeUnsafe m p = Some (zlen (enc e)) /\
  exists k, lpCurrentEncodedSizeBytes m p = Some k /\ 1 <= k <= zlen (enc e).
Proof.
  intros He Hat Hlen. destruct (enc_first e He) as (b & bs & Heq & Hb & Hlt).
  rewrite Heq in Hat. apply bytes_at_cons in Hat as [Hp Hat].
  pose proof (zlen_enc_pos e). unfold lpCurrentEncodedSizeUnsafe, lpCurrentEncodedSizeBytes,
    LP_ENCODING_6BIT_STR_LEN, LP_ENCODING_12BIT_STR_LEN, LP_ENCODING_32BIT_STR_LEN.
  rewrite Hp. cbn [mbind option_bind].
  destruct e; cbn [enc ent_ok val str_pos] in *; injection Heq as Hb0 <-.
  - lp_dispatch b Hb. eauto with lia.
  - pose proof (zlen_nonneg s). lp_dispatch b Hb. rewrite land_63, <- Hb0.
    replace ((128 + zlen s) mod 64) with (zlen s); [rewrite zlen_cons in *; eauto with lia|].
    replace (128 + zlen s) with (zlen s + 2 * 64) by lia. rewrite Z_mod_plus_full. rewrite Z.mod_small; lia.
  - destruct (i13_bytes v b He ltac:(done)) as [? _]. lp_dispatch b Hb. eauto with lia.
  - lp_dispatch b Hb. eauto with lia.
  - lp_dispatch b Hb. eauto with lia.
  - lp_dispatch b Hb. eauto with lia.
  - lp_dispatch b Hb. eauto with lia.
  - pose proof (zlen_nonneg s).
    destruct (s12_bytes (zlen s) b ltac:(lia) ltac:(done)) as [? Hu]. lp_dispatch b Hb.
    apply bytes_at_cons in Hat as [-> _]. cbn [mbind option_bind]. rewrite land_15, Hu.
    rewrite !zlen_cons in *. split; [f_equal; lia|]. eauto with lia.
  - pose proof (zlen_nonneg s). lp_dispatch b Hb.
    apply (bytes_at_app m _ (le_bytes 4 (zlen s)) s) in Hat as [Hat _].
    rewrite (get_le_le_bytes _ _ 4 (zlen s)) by done. cbn [mbind option_bind].
    change (8 * Z.of_nat 4) with 32. rewrite Z.mod_small by lia.
    rewrite zlen_cons, zlen_app, zlen_le_bytes in *. unfold u32.
    rewrite uwrap_small by (unfold in_u; lia). split; [f_equal; lia|]. eauto with lia.
Qed.

Definition entry_bytes (e : lp_ent) : bytes := enc e ++ lpEncodeBacklen (zlen (enc e)).

Lemma zlen_entry_bytes e : zlen (entry_bytes e) = ent_size e.
Proof. unfold entry_bytes. by rewrite zlen_app. Qed.

Lemma ent_size_pos e : 2 <= ent_size e.
Proof. unfold ent_size. pose proof (zlen_enc_pos e). pose proof (backlen_size_range (zlen (enc e))). lia. Qed.

(** A well-formed entry passes the check of [lpValidateNext]. *)
Lemma entry_valid m p e n :
  ent_ok e -> bytes_at m p (entry_bytes e) -> LP_HDR_SIZE <= p -> p + ent_size e <= n - 1 -> n <= 2 ^ 32 ->
  lpValidateNext m (Some p) n = Some (ValidNext (p + ent_size e)).
Proof.
  intros He Hat Hp Hn Hn32. apply bytes_at_app in Hat as [Hat Hbl].
  pose proof (zlen_enc_pos e). pose proof (backlen_size_range (zlen (enc e))).
  unfold ent_size, LP_HDR_SIZE in *.
  destruct (ent_enc_size m p e He Hat ltac:(lia)) as (Hs & k & Hk & ?).
  destruct (enc_first e He) as (b & bs & Heq & Hb & Hlt).
  rewrite Heq in Hat. apply bytes_at_cons in Hat as [Hpk _].
  unfold lpValidateNext, OUT_OF_RANGE, LP_EOF, LP_HDR_SIZE. rewrite decide_False by lia.
  rewrite Hpk. cbn [mbind option_bind]. rewrite decide_False by lia. rewrite Hk. cbn [mbind option_bind].
  rewrite !decide_False by lia. rewrite Hs. cbn [mbind option_bind]. rewrite decide_False by lia.
  rewrite Z.add_assoc. rewrite backlen_decode by (lia || done). cbn [mbind option_bind].
  unfold u64. rewrite uwrap_small by (unfold in_u; lia). by rewrite decide_False by lia.
Qed.

(** ** Checked positions

    What [lpValidateNext] establishes about any bytes. *)
Lemma valid_next_inv m p n p' :
  (forall size, lpCurrentEncodedSizeUnsafe m p = Some size -> 0 <= size) ->
  lpValidateNext m (Some p) n = Some (ValidNext p') ->
  exists size b, peek m p = Some b /\ b <> LP_EOF /\ lpCurrentEncodedSizeUnsafe m p = Some size /\
    LP_HDR_SIZE <= p /\ p' = p + (size + lpBacklenSize size) /\ p' <= n - 1 /\ 0 <= size < 2 ^ 35 /\
    lpDecodeBacklen m (p' - 1) = Some size.
Proof.
  unfold lpValidateNext, OUT_OF_RANGE. intros Hpos H. case_decide; [done|]. unbind H. case_decide; [done|].
  unbind H. case_decide; [done|]. case_decide; [done|]. unbind H. case_decide; [done|]. unbind H.
  case_decide as Hu; [done|]. injection H as <-.
  pose proof (backlen_size_range r1). specialize (Hpos r1 E1). exists r1, r.
  assert (r2 = r1 /\ r2 < 2 ^ 35) as [-> ?].
  { destruct (decode_low _ _ _ E2) as [->|[Hr _]].
    - unfold u64, uwrap, ULLONG_MAX in Hu.
      replace (18446744073709551615 + lpBacklenSize r1) with (lpBacklenSize r1 - 1 + 1 * 2 ^ 64) in Hu by lia.
      rewrite Z_mod_plus_full, Z.mod_small in Hu by lia. lia.
    - unfold u64 in Hu. rewrite uwrap_small in Hu by (unfold in_u; lia). lia. }
  split_and!; (done || lia).
Qed.

(** Moving over a checked entry, forwards and back. *)
Lemma valid_skip m p n p' :
  (forall size, lpCurrentEncodedSizeUnsafe m p = Some size -> 0 <= size) ->
  lpValidateNext m (Some p) n = Some (ValidNext p') -> lpSkip m p = Some p'.
Proof.
  intros Hpos H. apply valid_next_inv in H as (size & b & _ & _ & Hs & _ & -> & _); [|done].
  unfold lpSkip. by rewrite Hs.
Qed.

Lemma valid_prev m p n p' :
  (forall size, lpCurrentEncodedSizeUnsafe m p = Some size -> 0 <= size) ->
  lpValidateNext m (Some p) n = Some (ValidNext p') -> lpBytes m = Some n ->
  lpPrev m p' = Some (Some p).
Proof.
  intros Hpos H Hn. pose proof H as Hv.
  apply valid_next_inv in H as (size & b & _ & _ & Hs & Hp & Hp' & _ & Hr & Hd); [|done].
  pose proof (backlen_size_range size). unfold lpPrev, LP_HDR_SIZE in *. rewrite decide_False by lia.
  rewrite Hd. cbn [mbind option_bind]. unfold u64. rewrite uwrap_small by (unfold in_u; lia).
  replace (p' - 1 - (size + lpBacklenSize size - 1)) with p by lia. rewrite Hn. cbn [mbind option_bind].
  unfold lpAssertValidEntry. by rewrite Hv.
Qed.

Lemma encoded_size_nonneg m p size :
  bytes_ok m -> lpCurrentEncodedSizeUnsafe m p = Some size -> 0 <= size.
Proof.
  intros Hm. unfold lpCurrentEncodedSizeUnsafe, LP_ENCODING_6BIT_STR_LEN, LP_ENCODING_12BIT_STR_LEN.
  intros H. unbind H. pose proof (Z.land_nonneg r 63). pose proof (Z.land_nonneg r 15).
  repeat case_decide; try (injection H as <-; lia).
  - rewrite E in H. cbn [mbind option_bind] in H. injection H as <-. lia.
  - rewrite E in H. cbn [mbind option_bind] in H. unbind H. unbind E0. injection E0 as <-. injection H as <-.
    apply peek_inv in E1 as [_ E1].
    pose proof (Forall_lookup_1 _ _ _ _ Hm E1) as Hr. unfold byte_ok in Hr.
    assert (0 <= Z.lor (Z.shiftl (Z.land r 15) 8) r1); [|lia].
    apply Z.lor_nonneg. split; [apply Z.shiftl_nonneg; lia|lia].
  - unbind H. injection H as <-. apply uwrap_range. lia.
Qed.
