(* ===== verification/ListpackOps.v ===== *)
(** * Operations on listpacks: theorems

    The bytes of a listpack against the list of its entries: the walks, the
    lookups, and the operations of listpack.c that change the block
    ([lpInsert] and its wrappers, the deletions of ranges and batches,
    [lpMerge]).  [lp_rep m es] says that the block [m] holds the entries
    [es]. *)

From S2P Require Import Prelude Util Listpack.

#[local] Set Default Proof Using "Type".

(** ** Chains of checked positions

    [lp_chain m n p ps]: starting at [p], the checked entries of the first [n]
    bytes of [m] are at [ps], and the terminator follows the last one. *)
Inductive lp_chain (m : bytes) (n : Z) : Z -> list Z -> Prop :=
  | chain_end p : p = n - 1 -> peek m p = Some LP_EOF -> lp_chain m n p []
  | chain_entry p p' ps :
      lpValidateNext m (Some p) n = Some (ValidNext p') ->
      (forall size, lpCurrentEncodedSizeUnsafe m p = Some size -> 0 <= size) ->
      lp_chain m n p' ps -> lp_chain m n p (p :: ps).

Lemma chain_head m n p ps : lp_chain m n p ps -> default (n - 1) (head ps) = p.
Proof. by destruct 1. Qed.

Lemma chain_app m n p ps1 ps2 :
  lp_chain m n p (ps1 ++ ps2) -> lp_chain m n (default (n - 1) (head ps2)) ps2.
Proof.
  revert p. induction ps1 as [|q ps1 IH]; intros p H; cbn [app] in *.
  - by rewrite (chain_head _ _ _ _ H).
  - inversion H; subst. eauto.
Qed.

Lemma chain_valid m n p ps1 q ps2 :
  lp_chain m n p (ps1 ++ q :: ps2) ->
  lpValidateNext m (Some q) n = Some (ValidNext (default (n - 1) (head ps2))) /\
  (forall size, lpCurrentEncodedSizeUnsafe m q = Some size -> 0 <= size).
Proof.
  intros H. apply chain_app in H. cbn [head default] in H. inversion H as [|? p' ? Hv Hs Hc]; subst.
  by rewrite (chain_head _ _ _ _ Hc).
Qed.

Lemma chain_length m n p ps : lp_chain m n p ps -> 6 <= p -> zlen ps + p <= n - 1.
Proof.
  induction 1 as [p Hp _|p p' ps Hv Hs _ IH]; intros H6; [rewrite zlen_nil; lia|].
  apply valid_next_inv in Hv as (size & b & _ & _ & _ & _ & Hp' & _ & Hr & _); [|done].
  pose proof (backlen_size_range size). rewrite zlen_cons. lia.
Qed.

Lemma chain_assert m n p ps : lp_chain m n p ps -> ps <> [] -> lpAssertValidEntry m n p = Some tt.
Proof.
  intros H Hps. destruct H as [|p p' ps Hv _ _]; [done|]. unfold lpAssertValidEntry. by rewrite Hv.
Qed.

Lemma chain_peek m n p ps :
  lp_chain m n p ps -> exists b, peek m p = Some b /\ (b = LP_EOF <-> ps = []).
Proof.
  intros H. destruct H as [p _ ?|p p' ps Hv Hs _]; [by exists LP_EOF|].
  apply valid_next_inv in Hv as (size & b & ? & ? & _); [|done]. naive_solver.
Qed.

(** The pointer returned for the start of a chain: [NULL] at the end. *)
Lemma chain_ptr m n p ps :
  lp_chain m n p ps -> lpBytes m = Some n ->
  (b ← peek m p;
   if decide (b = LP_EOF) then Some None
   else k ← lpBytes m; _ ← lpAssertValidEntry m k p; Some (Some p)) = Some (head ps).
Proof.
  intros Hc Hn. destruct (chain_peek _ _ _ _ Hc) as (b & -> & Hb). cbn [mbind option_bind].
  destruct ps as [|q ps].
  - by rewrite decide_True by (by apply Hb).
  - rewrite decide_False by (rewrite Hb; done). rewrite Hn. cbn [mbind option_bind].
    rewrite (chain_assert _ _ _ _ Hc) by done. by inversion Hc.
Qed.

Section walks.
Variables (m : bytes) (n : Z) (ps : list Z).
Hypothesis Hc : lp_chain m n LP_HDR_SIZE ps.
Hypothesis Hn : lpBytes m = Some n.

Lemma lpFirst_chain : lpFirst m = Some (head ps).
Proof using Hc Hn. apply (chain_ptr _ _ _ _ Hc Hn). Qed.

Lemma lpSkip_chain ps1 q ps2 : ps = ps1 ++ q :: ps2 -> lpSkip m q = Some (default (n - 1) (head ps2)).
Proof using Hc. intros ->. destruct (chain_valid _ _ _ _ _ _ Hc). by eapply valid_skip. Qed.

Lemma lpNext_chain ps1 q ps2 : ps = ps1 ++ q :: ps2 -> lpNext m q = Some (head ps2).
Proof using Hc Hn.
  intros E. unfold lpNext. rewrite (lpSkip_chain _ _ _ E). cbn [mbind option_bind].
  apply (chain_ptr m n); [|done]. rewrite E, cons_middle, app_assoc in Hc. by apply chain_app in Hc.
Qed.

Lemma lpPrev_chain ps1 q ps2 :
  ps = ps1 ++ q :: ps2 -> lpPrev m (default (n - 1) (head ps2)) = Some (Some q).
Proof using Hc Hn. intros ->. destruct (chain_valid _ _ _ _ _ _ Hc). by eapply valid_prev. Qed.

(** The position before [q], or before the terminator. *)
Lemma lpPrev_chain_last ps1 ps2 :
  ps = ps1 ++ ps2 -> lpPrev m (default (n - 1) (head ps2)) = Some (last ps1).
Proof using Hc Hn.
  intros E. destruct ps1 as [|p ps1 _] using rev_ind.
  - cbn in E. subst ps2. rewrite (chain_head _ _ _ _ Hc). unfold lpPrev. by rewrite decide_True.
  - rewrite <- app_assoc in E. rewrite last_snoc. by apply (lpPrev_chain ps1 p ps2).
Qed.

Lemma lpLast_chain : lpLast m = Some (last ps).
Proof using Hc Hn.
  unfold lpLast. unfold lpBytes in Hn. rewrite Hn. cbn [mbind option_bind].
  apply (lpPrev_chain_last ps []). by rewrite app_nil_r.
Qed.

Lemma lpLength_loop_chain ps2 : forall fuel ps1 count,
  ps = ps1 ++ ps2 -> (length ps2 <= fuel)%nat -> 0 <= count -> count + zlen ps2 < 2 ^ 32 ->
  lpLength_loop fuel m (head ps2) count = Some (count + zlen ps2).
Proof using Hc Hn.
  induction ps2 as [|q ps2 IH]; intros fuel ps1 count E Hf Hc0 Hlt.
  { destruct fuel; cbn; f_equal; rewrite zlen_nil; lia. }
  destruct fuel as [|fuel]; [cbn in Hf; lia|]. cbn [head lpLength_loop].
  rewrite (lpNext_chain _ _ _ E). cbn [mbind option_bind]. rewrite zlen_cons in *.
  pose proof (zlen_nonneg ps2). unfold u32. rewrite uwrap_small by (unfold in_u; lia).
  rewrite (IH fuel (ps1 ++ [q])); [f_equal; lia|by rewrite <- app_assoc|cbn in Hf; lia|lia|lia].
Qed.

Lemma lpSeek_forward_chain ps2 : forall fuel ps1 index,
  ps = ps1 ++ ps2 -> (length ps2 <= fuel)%nat -> 0 <= index ->
  lpSeek_forward fuel m index (head ps2) = Some (ps2 !! Z.to_nat index).
Proof using Hc Hn.
  induction ps2 as [|q ps2 IH]; intros fuel ps1 index E Hf Hi; [by destruct fuel|].
  destruct fuel as [|fuel]; [cbn in Hf; lia|]. cbn [head lpSeek_forward]. case_decide.
  - rewrite (lpNext_chain _ _ _ E). cbn [mbind option_bind].
    rewrite (IH fuel (ps1 ++ [q])); [|by rewrite <- app_assoc|cbn in Hf; lia|lia].
    f_equal. replace (Z.to_nat index) with (S (Z.to_nat (index - 1))) by lia. done.
  - replace (Z.to_nat index) with 0%nat by lia. done.
Qed.

Lemma lpSeek_backward_chain ps1 : forall fuel ps2 index,
  ps = ps1 ++ ps2 -> (length ps1 <= fuel)%nat -> index <= -1 ->
  lpSeek_backward fuel m index (last ps1) = Some (reverse ps1 !! Z.to_nat (- index - 1)).
Proof using Hc Hn.
  induction ps1 as [|q ps1 IH] using rev_ind; intros fuel ps2 index E Hf Hi; [by destruct fuel|].
  rewrite length_app in Hf. cbn in Hf. destruct fuel as [|fuel]; [lia|].
  rewrite last_snoc, reverse_snoc. cbn [lpSeek_backward]. case_decide.
  - rewrite <- app_assoc in E. pose proof (lpPrev_chain_last ps1 (q :: ps2) E) as Hp.
    change (lpPrev m q = Some (last ps1)) in Hp. rewrite Hp. cbn [mbind option_bind].
    rewrite (IH fuel (q :: ps2)); [|done|lia|lia].
    f_equal. replace (Z.to_nat (- index - 1)) with (S (Z.to_nat (- (index + 1) - 1))) by lia. done.
  - replace (Z.to_nat (- index - 1)) with 0%nat by lia. done.
Qed.
End walks.

(** The position [lpSeek] looks for: from the head, or from the tail. *)
Definition seek_spec {A} (ps : list A) (index : Z) : option A :=
  if decide (0 <= index) then ps !! Z.to_nat index else reverse ps !! Z.to_nat (- index - 1).

(** The header count is exact, or unknown. *)
Definition count_ok (num k : Z) : Prop := (num = k /\ k < LP_HDR_NUMELE_UNKNOWN) \/ num = LP_HDR_NUMELE_UNKNOWN.

Lemma seek_spec_back {A} (ps : list A) i :
  0 <= i < zlen ps -> ps !! Z.to_nat i = reverse ps !! Z.to_nat (- (i - zlen ps) - 1).
Proof.
  intros Hi. rewrite reverse_lookup by zlia. f_equal. zlia.
Qed.

Lemma lpSeek_chain m n ps num index :
  lp_chain m n LP_HDR_SIZE ps -> lpBytes m = Some n -> n <= zlen m ->
  lpGetNumElements m = Some num -> count_ok num (zlen ps) -> lpSeek m index = Some (seek_spec ps index).
Proof.
  intros Hc Hn Hm Hnum Hok. pose proof (chain_length _ _ _ _ Hc ltac:(by unfold LP_HDR_SIZE)) as Hlen.
  unfold LP_HDR_SIZE in Hlen.
  assert (forall i, 0 <= i -> lpSeek_scan m true i = Some (ps !! Z.to_nat i)) as Hf.
  { intros i Hi. unfold lpSeek_scan. rewrite (lpFirst_chain m n ps) by done. cbn [mbind option_bind].
    apply (lpSeek_forward_chain m n ps Hc Hn ps _ []); [done|zlia|done]. }
  assert (forall i, i <= -1 -> lpSeek_scan m false i = Some (reverse ps !! Z.to_nat (- i - 1))) as Hb.
  { intros i Hi. unfold lpSeek_scan. rewrite (lpLast_chain m n ps) by done. cbn [mbind option_bind].
    apply (lpSeek_backward_chain m n ps Hc Hn ps _ []); [by rewrite app_nil_r|zlia|done]. }
  unfold lpSeek, seek_spec. rewrite Hnum. cbn [mbind option_bind].
  destruct (decide (num <> LP_HDR_NUMELE_UNKNOWN)) as [Hk|Hk].
  - destruct Hok as [[-> _]|?]; [|done]. pose proof (zlen_nonneg ps).
    assert (forall i, zlen ps <= i -> ps !! Z.to_nat i = None) as Hout.
    { intros i Hi. apply lookup_ge_None. zlia. }
    assert (forall i, zlen ps <= i -> reverse ps !! Z.to_nat i = None) as Hout'.
    { intros i Hi. apply lookup_ge_None. rewrite length_reverse. zlia. }
    destruct (decide (index < 0)).
    + rewrite (decide_False (P := 0 <= index)) by lia. case_decide; [by rewrite Hout' by lia|].
      rewrite decide_False by lia. case_decide.
      * rewrite Hb by lia. do 3 f_equal. lia.
      * rewrite Hf by lia. f_equal. rewrite seek_spec_back by lia. do 2 f_equal. lia.
    + rewrite (decide_True (P := 0 <= index)) by lia. rewrite (decide_False (P := index < 0)) by lia. case_decide; [by rewrite Hout by lia|].
      case_decide; [|by rewrite Hf by lia].
      rewrite Hb by lia. by rewrite (seek_spec_back ps index) by lia.
  - case_bool_decide.
    + rewrite decide_False by lia. apply Hb. lia.
    + rewrite decide_True by lia. apply Hf. lia.
Qed.

(** ** The block of a list of entries *)

Definition body (es : list lp_ent) : bytes := es ≫= entry_bytes.
Definition total (es : list lp_ent) : Z := zlen (body es) + 7.

Record lp_rep (m : bytes) (es : list lp_ent) : Prop := {
  rep_fits : total es < 2 ^ 32;
  rep_ents : Forall ent_ok es;
  rep_total : bytes_at m 0 (le_bytes 4 (total es));
  rep_num : exists num, bytes_at m 4 (le_bytes 2 num) /\ count_ok num (zlen es);
  rep_body : bytes_at m LP_HDR_SIZE (body es ++ [LP_EOF]);
}.

(** The offsets of entries that start at [p]. *)
Fixpoint positions (p : Z) (es : list lp_ent) : list Z :=
  match es with
  | [] => []
  | e :: es => p :: positions (p + ent_size e) es
  end.

Lemma zlen_positions p es : zlen (positions p es) = zlen es.
Proof.
  revert p. induction es as [|e es IH]; intros; [done|]. cbn [positions]. by rewrite !zlen_cons, IH.
Qed.

Lemma body_app es1 es2 : body (es1 ++ es2) = body es1 ++ body es2.
Proof. unfold body. by rewrite bind_app. Qed.

Lemma body_cons e es : body (e :: es) = entry_bytes e ++ body es.
Proof. reflexivity. Qed.

Lemma zlen_body_cons e es : zlen (body (e :: es)) = ent_size e + zlen (body es).
Proof. by rewrite body_cons, zlen_app, zlen_entry_bytes. Qed.

Lemma zlen_body_le es : 2 * zlen es <= zlen (body es).
Proof.
  induction es as [|e es IH]; [done|]. rewrite zlen_body_cons, zlen_cons. pose proof (ent_size_pos e). lia.
Qed.

Lemma positions_app p es1 es2 :
  positions p (es1 ++ es2) = positions p es1 ++ positions (p + zlen (body es1)) es2.
Proof.
  revert p. induction es1 as [|e es1 IH]; intros p; cbn [app positions].
  - f_equal. change (body []) with (@nil Z). rewrite zlen_nil. lia.
  - rewrite IH, zlen_body_cons. do 3 f_equal. lia.
Qed.

Lemma body_chain m n p es :
  Forall ent_ok es -> bytes_at m p (body es ++ [LP_EOF]) -> LP_HDR_SIZE <= p ->
  p + zlen (body es) = n - 1 -> n <= 2 ^ 32 -> lp_chain m n p (positions p es).
Proof.
  intros Hok. revert p. induction Hok as [|e es He Hes IH]; intros p Hat Hp Hn Hn32.
  - apply bytes_at_single in Hat. change (body []) with (@nil Z) in Hn. rewrite zlen_nil in Hn.
    constructor; [lia|done].
  - rewrite body_cons, <- app_assoc, bytes_at_app, zlen_entry_bytes in Hat. destruct Hat as [Hat Hat'].
    rewrite zlen_body_cons in Hn. pose proof (ent_size_pos e). pose proof (zlen_nonneg (body es)).
    cbn [positions]. econstructor.
    + apply entry_valid; (done || lia).
    + intros size Hs. apply bytes_at_app in Hat as [Hat _]. unfold ent_size in *.
      pose proof (backlen_size_range (zlen (enc e))). unfold LP_HDR_SIZE in Hp.
      destruct (ent_enc_size m p e He Hat ltac:(lia)) as [Hs' _]. pose proof (zlen_enc_pos e).
      rewrite Hs' in Hs. injection Hs as <-. lia.
    + apply IH; (done || lia).
Qed.

Section rep.
Variables (m : bytes) (es : list lp_ent).
Hypothesis Hrep : lp_rep m es.

Lemma rep_block : total es <= zlen m.
Proof using Hrep.
  pose proof (bytes_at_bound _ _ _ (rep_body _ _ Hrep)) as [_ H]. rewrite zlen_app in H.
  change (zlen [LP_EOF]) with 1 in H. unfold total, LP_HDR_SIZE in *. lia.
Qed.

Lemma rep_bytes : lpBytes m = Some (total es).
Proof using Hrep.
  unfold lpBytes, lpGetTotalBytes. rewrite (get_le_le_bytes _ _ 4 (total es)) by apply Hrep.
  f_equal. apply Z.mod_small. split; [unfold total; zlen_nonneg_all; lia|apply Hrep].
Qed.

Lemma rep_count : exists num, lpGetNumElements m = Some num /\ count_ok num (zlen es).
Proof using Hrep.
  destruct (rep_num _ _ Hrep) as (num & Hat & Hok). exists num. split; [|done].
  unfold lpGetNumElements. rewrite (get_le_le_bytes _ _ 2 num) by done. f_equal. apply Z.mod_small.
  change (8 * Z.of_nat 2) with 16.
  pose proof (zlen_nonneg es). unfold count_ok, LP_HDR_NUMELE_UNKNOWN in Hok. lia.
Qed.

Lemma rep_chain : lp_chain m (total es) LP_HDR_SIZE (positions LP_HDR_SIZE es).
Proof using Hrep.
  pose proof (rep_fits _ _ Hrep).
  apply body_chain; [apply Hrep|apply Hrep|done|unfold total, LP_HDR_SIZE in *; lia|lia].
Qed.

(** The entry at a position. *)
Lemma rep_entry es1 e es2 :
  es = es1 ++ e :: es2 ->
  ent_ok e /\ bytes_at m (LP_HDR_SIZE + zlen (body es1)) (entry_bytes e).
Proof using Hrep.
  intros E. split.
  - eapply Forall_elt. rewrite <- E. apply Hrep.
  - pose proof (rep_body _ _ Hrep) as Hb. rewrite E, body_app, body_cons, <- !app_assoc in Hb.
    apply bytes_at_app in Hb as [_ Hb]. by apply bytes_at_app in Hb as [Hb _].
Qed.
End rep.

Lemma lpSeek_ok m es index :
  lp_rep m es -> lpSeek m index = Some (seek_spec (positions LP_HDR_SIZE es) index).
Proof.
  intros H. destruct (rep_count m es H) as (num & Hnum & Hok).
  apply (lpSeek_chain m (total es) _ num); [by apply rep_chain|by apply rep_bytes|by apply rep_block|done|].
  by rewrite zlen_positions.
Qed.

(** ** Header updates *)

Definition keeps (m m' : bytes) (off len : Z) : Prop :=
  forall q cs, bytes_at m q cs -> q + zlen cs <= off \/ off + len <= q -> bytes_at m' q cs.

Lemma lpSetTotalBytes_ok m v :
  4 <= zlen m ->
  exists m', lpSetTotalBytes m v = Some m' /\ zlen m' = zlen m /\ bytes_at m' 0 (le_bytes 4 v) /\ keeps m m' 0 4.
Proof.
  intros. unfold lpSetTotalBytes. rewrite set_total_bytes.
  apply mem_write_region; [lia|]. rewrite zlen_le_bytes. lia.
Qed.

Lemma lpSetNumElements_ok m v :
  6 <= zlen m ->
  exists m', lpSetNumElements m v = Some m' /\ zlen m' = zlen m /\ bytes_at m' 4 (le_bytes 2 v) /\ keeps m m' 4 2.
Proof.
  intros. unfold lpSetNumElements. rewrite set_num_bytes.
  apply mem_write_region; [lia|]. rewrite zlen_le_bytes. lia.
Qed.

Lemma lpLength_ok m es :
  lp_rep m es -> exists m', lpLength m = Some (zlen es, m') /\ lp_rep m' es /\ zlen m' = zlen m.
Proof.
  intros H. destruct (rep_count m es H) as (num & Hnum & Hok).
  unfold lpLength. rewrite Hnum. cbn [mbind option_bind].
  destruct (decide (num <> LP_HDR_NUMELE_UNKNOWN)) as [Hk|Hk].
  { destruct Hok as [[-> _]|?]; [|done]. eauto. }
  pose proof (rep_chain m es H) as Hc. pose proof (rep_bytes m es H) as Hn.
  rewrite (lpFirst_chain m (total es) _ Hc Hn). cbn [mbind option_bind].
  pose proof (rep_block m es H). pose proof (rep_fits _ _ H). pose proof (zlen_body_le es).
  pose proof (zlen_positions LP_HDR_SIZE es) as Hz. pose proof (zlen_nonneg es). unfold total in *.
  rewrite (lpLength_loop_chain m _ _ Hc Hn _ _ []); [|done|zlia|lia|lia].
  cbn [mbind option_bind]. rewrite Hz, Z.add_0_l. case_decide as Hlt; [|eauto].
  destruct (lpSetNumElements_ok m (zlen es)) as (m' & -> & Hm' & Hat & Hkeep); [lia|].
  cbn [mbind option_bind]. eexists. split; [done|]. split; [|done]. split.
  - apply H.
  - apply H.
  - apply Hkeep; [apply H|]. rewrite zlen_le_bytes. lia.
  - exists (zlen es). split; [done|]. by left.
  - apply Hkeep; [apply H|]. unfold LP_HDR_SIZE. lia.
Qed.

(** ** [lpInsert] *)

Section alloc.
Variable junk : nat -> Z.
Variable usable : Z -> Z.
Hypothesis usable_ge : forall n, n <= usable n.

(** The tail [C] moves from behind the replaced bytes to behind the new ones,
    what is before it stays. *)
Lemma lpInsert_room_ok m p k r C old w :
  6 <= p -> 0 <= k -> 0 <= r -> bytes_at m (p + r) C -> old = p + r + zlen C ->
  (w = LP_BEFORE -> r = 0) -> 0 < zlen C ->
  exists m', lpInsert_room junk usable m p k r old (old + k - r) w = Some m' /\
    old + k - r <= zlen m' /\ bytes_at m' (p + k) C /\
    forall q cs, bytes_at m q cs -> q + zlen cs <= p -> bytes_at m' q cs.
Proof using usable_ge.
  intros Hp Hk Hr HC Hold Hw HCpos. unfold lpInsert_room, lp_malloc_size, lp_realloc.
  pose proof (bytes_at_bound _ _ _ HC) as [_ HmC].
  set (new := old + k - r). set (m1 := if decide _ then _ else m).
  assert (new <= zlen m1 /\ bytes_at m1 (p + r) C /\
          forall q cs, bytes_at m q cs -> q + zlen cs <= p -> bytes_at m1 q cs) as (Hm1 & HC1 & Hkeep1).
  { unfold m1. pose proof (usable_ge new). case_decide.
    - rewrite zlen_mem_realloc by lia. split; [done|].
      split; [apply bytes_at_realloc; [done|lia]|]. intros. apply bytes_at_realloc; [done|lia].
    - split; [|by eauto]. lia. }
  assert (exists m2, (if decide (w = LP_BEFORE) then mem_move m1 (p + k) p (old - p)
                      else mem_move m1 (p + k) (p + r) (old - p - r)) = Some m2 /\
            zlen m2 = zlen m1 /\ bytes_at m2 (p + k) C /\
            forall q cs, bytes_at m1 q cs -> q + zlen cs <= p -> bytes_at m2 q cs)
    as (m2 & -> & Hm2 & HC2 & Hkeep2).
  { destruct (mem_move_region m1 (p + k) (p + r) C) as (m2 & Hmv & Hz & Hat & Hkp); [done|lia|lia|].
    exists m2. split.
    - case_decide.
      + rewrite <- Hmv. f_equal; [rewrite Hw by done; lia|rewrite Hw in * by done; lia].
      + rewrite <- Hmv. f_equal. lia.
    - split_and!; [done|done|]. intros q cs Hcs Hq. apply Hkp; [done|]. left. lia. }
  cbn [mbind option_bind]. eexists. split; [done|]. pose proof (usable_ge new). case_decide.
  - rewrite zlen_mem_realloc by lia. split; [done|]. split; [apply bytes_at_realloc; [done|lia]|].
    intros. apply bytes_at_realloc; [eauto|lia].
  - split; [lia|]. split; [done|]. eauto.
Qed.

(** The entry that is replaced is measured correctly. *)
Lemma lpInsert_replaced_ok m es1 e es2 :
  lp_rep m (es1 ++ e :: es2) ->
  lpInsert_replaced m (LP_HDR_SIZE + zlen (body es1)) LP_REPLACE = Some (ent_size e).
Proof.
  intros H. destruct (rep_entry m _ H _ _ _ eq_refl) as [He Hat].
  pose proof (rep_fits _ _ H) as Hfit. pose proof (rep_bytes _ _ H) as Hn.
  unfold total in *. rewrite body_app, zlen_app, zlen_body_cons in *.
  pose proof (ent_size_pos e). pose proof (backlen_size_range (zlen (enc e))). pose proof (zlen_enc_pos e).
  zlen_nonneg_all. apply bytes_at_app in Hat as [Hat _]. unfold ent_size in *.
  destruct (ent_enc_size m _ e He Hat ltac:(lia)) as [Hs _].
  unfold lpInsert_replaced. rewrite decide_True by done. rewrite Hs. cbn [mbind option_bind].
  unfold lpBytes in Hn. rewrite Hn. cbn [mbind option_bind].
  unfold u32. rewrite uwrap_small by (unfold in_u; lia). unfold LP_HDR_SIZE.
  by rewrite assert_True by lia.
Qed.

(** The header after inserting, replacing or deleting one entry. *)
Lemma lpInsert_header_ok m w delete new k k' :
  6 <= zlen m -> (exists num, bytes_at m 4 (le_bytes 2 num) /\ count_ok num k) -> 0 <= k -> 0 <= k' ->
  k' = k + (if decide (w <> LP_REPLACE \/ delete = true) then if delete then -1 else 1 else 0) ->
  exists m', lpInsert_header m w delete new = Some m' /\ zlen m' = zlen m /\
    bytes_at m' 0 (le_bytes 4 new) /\ keeps m m' 0 6 /\
    exists num, bytes_at m' 4 (le_bytes 2 num) /\ count_ok num k'.
Proof.
  intros Hm (num & Hat & Hok) Hk0 Hk' Hk. unfold count_ok, LP_HDR_NUMELE_UNKNOWN in Hok.
  assert (lpGetNumElements m = Some (num mod 2 ^ 16)) as Hnum by apply (get_le_le_bytes _ _ 2 num Hat).
  assert (exists m1, (if decide (w <> LP_REPLACE \/ delete = true) then
      num_elements ← lpGetNumElements m;
      if decide (num_elements <> LP_HDR_NUMELE_UNKNOWN) then
        if delete then lpSetNumElements m (u32 (num_elements - 1))
        else lpSetNumElements m (u32 (num_elements + 1))
      else Some m else Some m) = Some m1 /\ zlen m1 = zlen m /\ keeps m m1 4 2 /\
      exists num, bytes_at m1 4 (le_bytes 2 num) /\ count_ok num k') as (m1 & Hm1 & Hz1 & Hkp1 & Hnum1).
  { assert (keeps m m 4 2) as Hrefl by (intros ? ? ? ?; done).
    destruct (decide (w <> LP_REPLACE \/ delete = true)) as [Hd|Hd] in Hk |- *;
      [|exists m; split_and!; [done|done|done|]; exists num; split; [done|];
        replace k' with k by lia; done].
    rewrite Hnum. cbn [mbind option_bind]. unfold LP_HDR_NUMELE_UNKNOWN at 1. case_decide as Hu.
    - destruct Hok as [[-> Hk65]| ->]; [|done].
      rewrite Z.mod_small by lia.
      destruct (lpSetNumElements_ok m k') as (m1 & Hs & Hz & Hb & Hkp); [done|]. exists m1.
      assert (u32 k' = k') as Hu32 by (apply uwrap_small; unfold in_u; destruct delete; lia).
      split.
      { destruct delete; rewrite <- Hs; f_equal; rewrite <- Hu32; f_equal; lia. }
      split_and!; [done|done|]. exists k'. split; [done|]. unfold count_ok, LP_HDR_NUMELE_UNKNOWN.
      destruct delete; lia.
    - exists m. split_and!; [done|done|done|]. exists num. split; [done|]. right.
      unfold LP_HDR_NUMELE_UNKNOWN. destruct Hok as [[-> Hk65]|?]; [|done].
      rewrite Z.mod_small in Hu by (destruct delete; lia). lia. }
  unfold lpInsert_header. rewrite Hm1. cbn [mbind option_bind].
  destruct (lpSetTotalBytes_ok m1 new) as (m2 & -> & Hz2 & Hb2 & Hkp2); [lia|].
  exists m2. split_and!; [done|lia|done| |].
  - intros q cs Hcs Hd. apply Hkp2; [apply Hkp1; [done|lia]|]. pose proof (bytes_at_bound _ _ _ Hcs). lia.
  - destruct Hnum1 as (num1 & Hb1 & Hok1). exists num1. split; [|done].
    apply Hkp2; [done|]. rewrite zlen_le_bytes. lia.
Qed.

Lemma rep_parts m es1 oes es2 :
  lp_rep m (es1 ++ oes ++ es2) ->
  let p := LP_HDR_SIZE + zlen (body es1) in
  bytes_at m LP_HDR_SIZE (body es1) /\ bytes_at m (p + zlen (body oes)) (body es2 ++ [LP_EOF]) /\
  total (es1 ++ oes ++ es2) = p + zlen (body oes) + zlen (body es2 ++ [LP_EOF]).
Proof.
  intros H p. pose proof (rep_body _ _ H) as Hb. rewrite !body_app, <- !app_assoc in Hb.
  apply bytes_at_app in Hb as [HA Hb]. apply bytes_at_app in Hb as [_ HC].
  split_and!; [done|done|]. unfold total, p, LP_HDR_SIZE. rewrite !body_app, !zlen_app.
  change (zlen [LP_EOF]) with 1. lia.
Qed.

(** What [lpInsert] stores: the new entries and the bytes written. *)
Definition stores (ele : lp_ele) (nes : list lp_ent) : Prop :=
  match ele with
  | EleDelete => nes = []
  | _ => exists e, nes = [e] /\ ent_ok e /\ lpInsert_encode ele = Some (enc e)
  end.

(** What it replaces; an insertion after an entry is one before the next
    ([lpInsert_after_ok]). *)
Definition replaces (ele : lp_ele) (w : lp_where) (oes : list lp_ent) : Prop :=
  match ele, w with
  | EleDelete, _ | _, LP_REPLACE => exists e, oes = [e]
  | _, LP_BEFORE => oes = []
  | _, LP_AFTER => False
  end.

Lemma body_single e : body [e] = entry_bytes e.
Proof. unfold body. cbn. apply app_nil_r. Qed.

Lemma stores_bytes ele nes :
  stores ele nes ->
  let delete := bool_decide (ele = EleDelete) in
  Forall ent_ok nes /\ (delete = true <-> nes = []) /\
  exists encb, lpInsert_encode ele = Some encb /\
    encb ++ (if delete then [] else lpEncodeBacklen (zlen encb)) = body nes.
Proof.
  intros Hs delete. unfold delete. destruct ele; cbn [stores] in Hs;
    [destruct Hs as (e & -> & He & Henc)..|].
  1,2: rewrite bool_decide_false by done; split_and!; [by constructor|done|];
    eexists; split; [done|]; by rewrite body_single.
  subst nes. rewrite bool_decide_true by done. split_and!; [done|done|]. by exists [].
Qed.

Lemma replaces_bytes m es1 oes es2 ele w nes :
  lp_rep m (es1 ++ oes ++ es2) -> stores ele nes -> replaces ele w oes ->
  let delete := bool_decide (ele = EleDelete) in
  let w' := if delete then LP_REPLACE else w in
  w' <> LP_AFTER /\ (w' = LP_BEFORE -> oes = []) /\
  lpInsert_replaced m (LP_HDR_SIZE + zlen (body es1)) w' = Some (zlen (body oes)) /\
  zlen nes = zlen oes + (if decide (w' <> LP_REPLACE \/ delete = true) then if delete then -1 else 1 else 0).
Proof.
  intros Hrep Hs Hr delete w'.
  assert ((w' = LP_REPLACE /\ exists e, oes = [e]) \/ (w' = LP_BEFORE /\ oes = [] /\ delete = false)) as Hcase.
  { unfold w', delete. destruct ele, w; cbn in Hr |- *; naive_solver. }
  assert (zlen nes = if delete then 0 else 1) as ->.
  { unfold delete. destruct ele; cbn [stores] in Hs; [destruct Hs as (e & -> & _)..|]; subst; done. }
  destruct Hcase as [[Hw (e & ->)]|[Hw [-> Hd]]]; rewrite Hw.
  - split_and!; [done|done| |destruct delete; done].
    rewrite body_single, zlen_entry_bytes. by apply (lpInsert_replaced_ok m es1 e es2).
  - rewrite Hd. split_and!; done.
Qed.

Lemma stores_bound ele nes : stores ele nes -> zlen (body nes) < 2 ^ 33.
Proof.
  intros Hs. assert (nes = [] \/ exists e, nes = [e] /\ ent_ok e) as [->|(e & -> & He)].
  { destruct ele; cbn [stores] in Hs; naive_solver. }
  - done.
  - rewrite body_single, zlen_entry_bytes. unfold ent_size.
    pose proof (backlen_size_range (zlen (enc e))).
    assert (zlen (enc e) < 2 ^ 32 + 6); [|lia].
    destruct e; cbn [enc ent_ok] in *; autorewrite with zlen; lia.
Qed.

(** Storing the entry behind the bytes that stay. *)
Lemma lpInsert_store_ok m p encb backlen (delete : bool) :
  6 <= p -> p + zlen (encb ++ backlen) <= zlen m -> (delete = true -> encb ++ backlen = []) ->
  exists m', (if delete then Some m
              else lp ← mem_write m p encb; mem_write lp (p + zlen encb) backlen) = Some m' /\
    zlen m' = zlen m /\ bytes_at m' p (encb ++ backlen) /\ keeps m m' p (zlen (encb ++ backlen)).
Proof.
  intros Hp Hm Hd. destruct delete.
  - rewrite Hd by done. exists m. split_and!; [done|done|apply bytes_at_nil; zlen_nonneg_all; lia|].
    intros ? ? ? ?. done.
  - rewrite zlen_app in *. zlen_nonneg_all.
    destruct (mem_write_region m p encb) as (m1 & -> & Hz1 & Hat1 & Hk1); [lia|lia|].
    cbn [mbind option_bind].
    destruct (mem_write_region m1 (p + zlen encb) backlen) as (m2 & -> & Hz2 & Hat2 & Hk2); [lia|lia|].
    exists m2. split_and!; [done|lia| |].
    + apply bytes_at_app. split; [|done]. apply Hk2; [done|lia].
    + intros q cs Hcs Hq. apply Hk2; [apply Hk1; [done|lia]|lia].
Qed.

(** Making room, storing and updating the header turn the old entries into the
    new ones. *)
Lemma lpInsert_tail_ok m es1 oes es2 nes encb backlen (delete : bool) w :
  let p := LP_HDR_SIZE + zlen (body es1) in
  let es' := es1 ++ nes ++ es2 in
  lp_rep m (es1 ++ oes ++ es2) -> Forall ent_ok nes -> encb ++ backlen = body nes ->
  (delete = true <-> nes = []) -> (w = LP_BEFORE -> oes = []) ->
  zlen nes = zlen oes + (if decide (w <> LP_REPLACE \/ delete = true) then if delete then -1 else 1 else 0) ->
  total es' < 2 ^ 32 ->
  exists m1 m2 m3 b,
    lpInsert_room junk usable m p (zlen (body nes)) (zlen (body oes)) (total (es1 ++ oes ++ es2))
      (total es') w = Some m1 /\
    peek m1 p = Some b /\ (delete = true -> (b = LP_EOF <-> es2 = [])) /\
    (if delete then Some m1
     else lp ← mem_write m1 p encb; mem_write lp (p + zlen encb) backlen) = Some m2 /\
    lpInsert_header m2 w delete (total es') = Some m3 /\ lp_rep m3 es'.
Proof using usable_ge.
  intros p es' Hrep Hok Hbl Hdel HwB Hcount Hfit'.
  destruct (rep_parts m es1 oes es2 Hrep) as (HA & HC & Htot). fold p in HC, Htot.
  set (C := body es2 ++ [LP_EOF]) in *.
  assert (0 < zlen C) as HCpos.
  { unfold C. rewrite zlen_app. change (zlen [LP_EOF]) with 1. zlen_nonneg_all. lia. }
  assert (total es' = total (es1 ++ oes ++ es2) + zlen (body nes) - zlen (body oes)) as Htot'.
  { unfold es', total. rewrite !body_app, !zlen_app. lia. }
  assert (6 <= p) as Hp by (unfold p, LP_HDR_SIZE; zlen_nonneg_all; lia).
  pose proof (zlen_nonneg (body nes)). pose proof (zlen_nonneg (body oes)).
  destruct (lpInsert_room_ok m p (zlen (body nes)) (zlen (body oes)) C (total (es1 ++ oes ++ es2)) w)
    as (m1 & Hroom & Hz1 & HC1 & Hk1); [lia|lia|lia|done|lia|by intros ->%HwB|lia|].
  rewrite <- Htot' in Hroom, Hz1.
  destruct (lpInsert_store_ok m1 p encb backlen delete) as (m2 & Hstore & Hz2 & Hat2 & Hk2);
    [done|rewrite Hbl; lia|intros ->%Hdel; done|]. rewrite Hbl in Hat2, Hk2.
  assert (forall q cs, bytes_at m q cs -> q + zlen cs <= 6 -> bytes_at m2 q cs) as Hhdr.
  { intros q cs Hcs Hq. apply Hk2; [apply Hk1; [done|lia]|lia]. }
  destruct (lpInsert_header_ok m2 w delete (total es') (zlen (es1 ++ oes ++ es2)) (zlen es'))
    as (m3 & Hh & Hz3 & Ht3 & Hk3 & Hnum3).
  { lia. }
  { destruct (rep_num _ _ Hrep) as (num & Hnum & Hcnt). exists num. split; [|done].
    apply Hhdr; [done|]. rewrite zlen_le_bytes. lia. }
  { zlen_nonneg_all. lia. }
  { zlen_nonneg_all. lia. }
  { unfold es'. rewrite !zlen_app. lia. }
  assert (exists b, peek m1 p = Some b) as [b Hb] by (apply peek_Some; lia).
  exists m1, m2, m3, b. split_and!; [done|done| |done|done|].
  - intros ->%Hdel. change (zlen (body [])) with 0 in HC1. rewrite Z.add_0_r in HC1.
    unfold C in HC1. destruct es2 as [|e2 es2].
    + apply bytes_at_single in HC1. naive_solver.
    + pose proof (rep_ents _ _ Hrep) as Hes. rewrite !Forall_app, Forall_cons in Hes.
      destruct (enc_first e2 ltac:(tauto)) as (b2 & bs2 & Heq & _ & Hlt).
      rewrite body_cons in HC1. unfold entry_bytes in HC1. rewrite Heq in HC1. cbn [app] in HC1.
      apply bytes_at_cons in HC1 as [HC1 _]. rewrite HC1 in Hb. injection Hb as <-.
      unfold LP_EOF. split; [lia|done].
  - split; [done| |done|done|].
    + pose proof (rep_ents _ _ Hrep) as Hes. unfold es'. rewrite !Forall_app in *. tauto.
    + apply Hk3; [|unfold LP_HDR_SIZE; lia]. unfold es'. rewrite !body_app, <- !app_assoc.
      apply bytes_at_app. split; [|apply bytes_at_app; split].
      * apply Hk2; [apply Hk1; [done|]|]; unfold p, LP_HDR_SIZE; lia.
      * done.
      * apply Hk2; [done|]. fold p. lia.
Qed.

Lemma lpInsert_ok m es1 oes es2 ele w nes :
  lp_rep m (es1 ++ oes ++ es2) -> stores ele nes -> replaces ele w oes ->
  let p := LP_HDR_SIZE + zlen (body es1) in
  let es' := es1 ++ nes ++ es2 in
  if decide (total es' <= UINT32_MAX) then
    exists m', lpInsert junk usable m ele p w = Some (Some (m', head (positions p (nes ++ es2)))) /\
      lp_rep m' es'
  else lpInsert junk usable m ele p w = Some None.
Proof using usable_ge.
  intros Hrep Hst Hre p es'. destruct (stores_bytes ele nes Hst) as (Hok & Hdel & encb & Henc & Hbl).
  destruct (replaces_bytes m es1 oes es2 ele w nes Hrep Hst Hre) as (HwA & HwB & Hrl & Hcount).
  fold p in Hrl. set (delete := bool_decide (ele = EleDelete)) in *.
  set (w' := if delete then LP_REPLACE else w) in *.
  set (backlen := if delete then [] else lpEncodeBacklen (zlen encb)) in *.
  pose proof (rep_fits _ _ Hrep) as Hfit. pose proof (rep_bytes _ _ Hrep) as Hn. unfold lpBytes in Hn.
  assert (total es' = total (es1 ++ oes ++ es2) + zlen (body nes) - zlen (body oes)) as Htot'.
  { unfold es', total. rewrite !body_app, !zlen_app. lia. }
  assert (zlen encb + zlen backlen = zlen (body nes)) as Hnew by (by rewrite <- Hbl, zlen_app).
  unfold lpInsert. fold delete. fold w'. rewrite (decide_False (P := w' = LP_AFTER)) by done.
  cbn [mbind option_bind]. rewrite Henc. cbn [mbind option_bind]. fold backlen. rewrite Hn.
  cbn [mbind option_bind]. rewrite Hrl. cbn [mbind option_bind]. rewrite Hnew, <- Htot'.
  pose proof (stores_bound ele nes Hst). pose proof (zlen_nonneg (body es')) as Hpos.
  assert (u64 (total es') = total es') as ->.
  { apply uwrap_small. unfold in_u. unfold total in *. zlen_nonneg_all. lia. }
  destruct (decide (total es' <= UINT32_MAX)) as [Hbig|Hbig]; [|by rewrite decide_True by lia].
  rewrite (decide_False (P := total es' > UINT32_MAX)) by lia. unfold UINT32_MAX in Hbig.
  destruct (lpInsert_tail_ok m es1 oes es2 nes encb backlen delete w')
    as (m1 & m2 & m3 & b & Hroom & Hb & Heof & Hstore & Hh & Hrep'); [done..|unfold es' in *; lia|].
  fold p es' in Hroom. rewrite Hroom.
  cbn [mbind option_bind]. fold p in Hb, Hstore. rewrite Hb. cbn [mbind option_bind].
  rewrite Hstore. cbn [mbind option_bind]. fold es' in Hh. rewrite Hh. cbn [mbind option_bind].
  exists m3. split; [|done]. do 3 f_equal. clear - Hdel Heof. clearbody delete. destruct delete.
  - assert (nes = []) as -> by (by apply Hdel). cbn [app]. specialize (Heof eq_refl).
    destruct es2; cbn [positions head]; [rewrite decide_True by (split; [done|by apply Heof]); done|].
    rewrite decide_False; [done|]. intros [_ Hb']. by apply Heof in Hb'.
  - rewrite decide_False by (by intros [? _]). destruct nes; [|done].
    destruct Hdel as [_ Hd]. by discriminate Hd.
Qed.

(** ** Positions of entries *)

Lemma positions_head m es1 es2 :
  lp_rep m (es1 ++ es2) ->
  default (total (es1 ++ es2) - 1) (head (positions (LP_HDR_SIZE + zlen (body es1)) es2)) =
  LP_HDR_SIZE + zlen (body es1).
Proof.
  intros H. pose proof (rep_chain _ _ H) as Hc. rewrite positions_app in Hc.
  destruct es2 as [|e es2]; [|done]. cbn [positions head default]. unfold total, LP_HDR_SIZE.
  rewrite app_nil_r. lia.
Qed.

Lemma lpSkip_ok m es1 e es2 :
  lp_rep m (es1 ++ e :: es2) ->
  lpSkip m (LP_HDR_SIZE + zlen (body es1)) = Some (LP_HDR_SIZE + zlen (body (es1 ++ [e]))).
Proof.
  intros H. pose proof (rep_chain _ _ H) as Hc. rewrite positions_app in Hc. cbn [positions] in Hc.
  rewrite (lpSkip_chain _ _ _ Hc _ _ _ eq_refl). f_equal.
  rewrite cons_middle, app_assoc in H. pose proof (positions_head _ _ _ H) as Hp.
  rewrite <- app_assoc in Hp. cbn [app] in Hp. rewrite <- Hp. do 3 f_equal.
  rewrite body_app, zlen_app, body_single, zlen_entry_bytes. lia.
Qed.

Lemma lpInsert_after_ok m es1 e es2 ele :
  lp_rep m (es1 ++ e :: es2) -> ele <> EleDelete ->
  lpInsert junk usable m ele (LP_HDR_SIZE + zlen (body es1)) LP_AFTER =
  lpInsert junk usable m ele (LP_HDR_SIZE + zlen (body (es1 ++ [e]))) LP_BEFORE.
Proof.
  intros H Hele. unfold lpInsert. rewrite bool_decide_false by done.
  rewrite decide_True by done. rewrite (lpSkip_ok m es1 e es2 H). cbn [mbind option_bind].
  pose proof (rep_bytes _ _ H) as Hn. unfold lpBytes in Hn. rewrite Hn. cbn [mbind option_bind].
  rewrite assert_True; [done|]. unfold total, LP_HDR_SIZE. rewrite !body_app, !zlen_app, !zlen_body_cons.
  change (zlen (body [])) with 0. pose proof (ent_size_pos e). zlen_nonneg_all. lia.
Qed.

Lemma rep_end m es : lp_rep m es -> total es - 1 = LP_HDR_SIZE + zlen (body es).
Proof. intros. unfold total, LP_HDR_SIZE. lia. Qed.

(** ** Shrinking and copying the block *)

Lemma rep_region m m' es :
  lp_rep m es -> (forall q cs, bytes_at m q cs -> q + zlen cs <= total es -> bytes_at m' q cs) -> lp_rep m' es.
Proof.
  intros [Hf He Ht (num & Hn & Hc) Hb] Hk. pose proof (zlen_nonneg (body es)). unfold total in Hk. split.
  - done.
  - done.
  - apply Hk; [done|]. rewrite zlen_le_bytes. lia.
  - exists num. split; [|done]. apply Hk; [done|]. rewrite zlen_le_bytes. lia.
  - apply Hk; [done|]. rewrite zlen_app. change (zlen [LP_EOF]) with 1. unfold LP_HDR_SIZE. lia.
Qed.

Lemma lpShrinkToFit_ok m es :
  lp_rep m es -> exists m', lpShrinkToFit junk usable m = Some m' /\ lp_rep m' es.
Proof using usable_ge.
  intros H. unfold lpShrinkToFit. pose proof (rep_bytes _ _ H) as Hn. unfold lpBytes in Hn.
  rewrite Hn. cbn [mbind option_bind]. eexists. split; [done|]. case_decide; [|done].
  apply (rep_region m); [done|]. intros q cs Hcs Hq. apply bytes_at_realloc; [done|].
  pose proof (usable_ge (total es)). lia.
Qed.

Lemma lpDup_ok m es :
  lp_rep m es -> exists m', lpDup junk usable m = Some m' /\ lp_rep m' es.
Proof using usable_ge.
  intros H. unfold lpDup. rewrite (rep_bytes _ _ H). cbn [mbind option_bind].
  pose proof (rep_block _ _ H). assert (0 <= total es) by (unfold total; zlen_nonneg_all; lia).
  rewrite mem_read_Some by lia. cbn [mbind option_bind]. unfold lp_malloc.
  pose proof (usable_ge (total es)).
  destruct (mem_write_region (mem_realloc junk [] (usable (total es))) 0 (slice m 0 (total es)))
    as (m' & -> & _ & Hat & _); [lia|rewrite zlen_slice, zlen_mem_realloc by lia; lia|].
  eexists. split; [done|]. apply (rep_region m); [done|]. intros q cs (? & ? & Hcs) Hq.
  destruct Hat as (? & Hz & Hat). rewrite zlen_slice in Hz, Hat by lia. zlen_nonneg_all.
  split_and!; [lia|lia|]. rewrite <- Hcs at 2. rewrite <- (Z.add_0_l q).
  rewrite <- (slice_slice m' 0 (total es)) by lia. rewrite Hat. apply slice_slice; lia.
Qed.

Lemma lpNew_ok capacity :
  exists m, lpNew junk usable capacity = Some m /\ lp_rep m [].
Proof using usable_ge.
  unfold lpNew, lp_malloc. set (n := if decide _ then _ else _).
  assert (7 <= n) by (unfold n, LP_HDR_SIZE; case_decide; lia). pose proof (usable_ge n).
  set (m0 := mem_realloc junk [] (usable n)).
  assert (7 <= zlen m0) as Hz0 by (unfold m0; rewrite zlen_mem_realloc; lia).
  destruct (lpSetTotalBytes_ok m0 (LP_HDR_SIZE + 1)) as (m1 & -> & Hz1 & Ht & _); [lia|].
  cbn [mbind option_bind]. destruct (lpSetNumElements_ok m1 0) as (m2 & -> & Hz2 & Hn & Hk2); [lia|].
  cbn [mbind option_bind]. unfold LP_HDR_SIZE. rewrite poke_splice by lia.
  destruct (mem_write_region m2 6 [LP_EOF]) as (m3 & Hm3 & _ & Hat & Hk3); [lia|change (zlen [LP_EOF]) with 1; lia|].
  rewrite mem_write_Some in Hm3 by (change (zlen [LP_EOF]) with 1; lia).
  exists m3. split; [done|]. split; [done|by apply Forall_nil| | |exact Hat].
  - apply Hk3; [apply Hk2; [done|]|]; rewrite zlen_le_bytes; lia.
  - exists 0. split; [|by left]. apply Hk3; [done|]. rewrite zlen_le_bytes. lia.
Qed.

(** ** Deleting ranges *)

(** Subtracting the deleted entries from a count that is known. *)
Lemma count_update m k d :
  6 <= zlen m -> (exists num, bytes_at m 4 (le_bytes 2 num) /\ count_ok num k) -> 0 <= d <= k ->
  exists m', (numele ← lpGetNumElements m;
              if decide (numele <> LP_HDR_NUMELE_UNKNOWN)
              then lpSetNumElements m (u64 (numele - d)) else Some m) = Some m' /\
    zlen m' = zlen m /\ keeps m m' 4 2 /\ exists num, bytes_at m' 4 (le_bytes 2 num) /\ count_ok num (k - d).
Proof.
  intros Hm (num & Hat & Hok) Hd. unfold lpGetNumElements.
  rewrite (get_le_le_bytes _ _ 2 num) by done. cbn [mbind option_bind].
  change (8 * Z.of_nat 2) with 16. unfold count_ok, LP_HDR_NUMELE_UNKNOWN in *.
  case_decide as Hu.
  - destruct Hok as [[-> Hlt]| ->]; [|done]. rewrite Z.mod_small by lia.
    unfold u64. rewrite uwrap_small by (unfold in_u; lia).
    destruct (lpSetNumElements_ok m (k - d)) as (m' & -> & Hz & Hb & Hk); [done|].
    eexists. split_and!; [done|done|done|]. exists (k - d). split; [done|]. lia.
  - exists m. split_and!; [done|done|by intros ? ? ? ?|]. exists num. split; [done|].
    destruct Hok as [[-> Hlt]|?]; [|by right]. rewrite Z.mod_small in Hu by lia. lia.
Qed.

(** Deleting the bytes of [oes]: the tail moves down, the header follows. *)
Lemma rep_cut m es1 oes es2 :
  lp_rep m (es1 ++ oes ++ es2) ->
  let p := LP_HDR_SIZE + zlen (body es1) in
  exists m1 m2 m3, mem_move m p (p + zlen (body oes)) (zlen (body es2 ++ [LP_EOF])) = Some m1 /\
    lpSetTotalBytes m1 (total (es1 ++ es2)) = Some m2 /\
    (numele ← lpGetNumElements m2;
     if decide (numele <> LP_HDR_NUMELE_UNKNOWN)
     then lpSetNumElements m2 (u64 (numele - zlen oes)) else Some m2) = Some m3 /\
    lp_rep m3 (es1 ++ es2).
Proof.
  intros H p. destruct (rep_parts m es1 oes es2 H) as (HA & HC & Htot). fold p in HC, Htot.
  pose proof (rep_fits _ _ H) as Hfit. pose proof (rep_block _ _ H) as Hblk.
  assert (6 <= p) by (unfold p, LP_HDR_SIZE; zlen_nonneg_all; lia).
  pose proof (zlen_nonneg (body oes)).
  destruct (mem_move_region m p _ _ HC) as (m1 & Hm1 & Hz1 & Hat1 & Hk1); [lia|lia|].
  destruct (lpSetTotalBytes_ok m1 (total (es1 ++ es2))) as (m2 & Hm2 & Hz2 & Ht2 & Hk2).
  { rewrite Hz1. zlen_nonneg_all. lia. }
  destruct (count_update m2 (zlen (es1 ++ oes ++ es2)) (zlen oes)) as (m3 & Hm3 & Hz3 & Hk3 & Hn3).
  { rewrite Hz2, Hz1. zlen_nonneg_all. lia. }
  { destruct (rep_num _ _ H) as (num & Hb & Hc). exists num. split; [|done].
    apply Hk2; [apply Hk1; [done|]|]; rewrite zlen_le_bytes; lia. }
  { rewrite !zlen_app. zlen_nonneg_all. lia. }
  exists m1, m2, m3. split_and!; [done|done|done|]. split.
  - unfold total in *. rewrite !body_app, !zlen_app in *. lia.
  - pose proof (rep_ents _ _ H) as He. rewrite !Forall_app in *. tauto.
  - apply Hk3; [done|]. rewrite zlen_le_bytes. lia.
  - replace (zlen (es1 ++ es2)) with (zlen (es1 ++ oes ++ es2) - zlen oes); [done|].
    rewrite !zlen_app. lia.
  - assert (bytes_at m1 LP_HDR_SIZE (body (es1 ++ es2) ++ [LP_EOF])) as Hb.
    { rewrite body_app, <- app_assoc. apply bytes_at_app. split; [|done].
      apply Hk1; [done|]. left. unfold p. lia. }
    apply Hk3; [apply Hk2; [done|]|]; unfold LP_HDR_SIZE; lia.
Qed.

Lemma lpDeleteRange_loop_chain m n ps : forall fuel ps1 ps2 num deleted,
  lp_chain m n LP_HDR_SIZE ps -> ps = ps1 ++ ps2 -> 0 <= num -> (num <> 0 -> ps2 <> []) ->
  (length ps2 <= fuel)%nat ->
  lpDeleteRange_loop fuel m n num (default (n - 1) (head ps2)) deleted =
  Some (default (n - 1) (head (drop (Z.to_nat num) ps2)), deleted + Z.min num (zlen ps2)).
Proof.
  induction fuel as [|fuel IH]; intros ps1 ps2 num deleted Hc E Hnum Hne Hf.
  - destruct ps2; [|cbn in Hf; lia]. destruct (decide (num = 0)) as [->|]; [|by exfalso; apply Hne].
    cbn [lpDeleteRange_loop]. rewrite decide_True by done. change (zlen (@nil Z)) with 0. do 2 f_equal. lia.
  - cbn [lpDeleteRange_loop]. case_decide as H0.
    { subst num. do 2 f_equal. zlen_nonneg_all. lia. }
    destruct ps2 as [|q ps2]; [by exfalso; apply Hne|]. cbn [head default id].
    rewrite (lpSkip_chain m n ps Hc _ _ _ E). cbn [mbind option_bind].
    assert (lp_chain m n (default (n - 1) (head ps2)) ps2) as Hc2.
    { rewrite E, cons_middle, app_assoc in Hc. by apply chain_app in Hc. }
    destruct (chain_peek _ _ _ _ Hc2) as (b & -> & Hb). cbn [mbind option_bind].
    assert (drop (Z.to_nat num) (q :: ps2) = drop (Z.to_nat (num - 1)) ps2) as ->.
    { replace (Z.to_nat num) with (S (Z.to_nat (num - 1))) by lia. done. }
    rewrite zlen_cons. case_decide as Hb'.
    + apply Hb in Hb' as ->. rewrite drop_nil. change (zlen (@nil Z)) with 0. do 2 f_equal. lia.
    + rewrite (chain_assert _ _ _ _ Hc2) by (by rewrite <- Hb). cbn [mbind option_bind].
      rewrite (IH (ps1 ++ [q])); [do 2 f_equal; lia|done|by rewrite <- app_assoc|lia| |cbn in Hf; lia].
      intros _. by rewrite <- Hb.
Qed.

Lemma positions_drop p es k :
  drop k (positions p es) = positions (p + zlen (body (take k es))) (drop k es).
Proof.
  revert p k. induction es as [|e es IH]; intros p k; [by destruct k|].
  destruct k as [|k]; cbn [positions drop take].
  - change (zlen (body [])) with 0. by rewrite Z.add_0_r.
  - rewrite IH. f_equal. rewrite zlen_body_cons. lia.
Qed.

Lemma rep_eof m es1 es2 :
  lp_rep m (es1 ++ es2) ->
  exists b, peek m (LP_HDR_SIZE + zlen (body es1)) = Some b /\ (b = LP_EOF <-> es2 = []).
Proof.
  intros H. pose proof (rep_chain _ _ H) as Hc. rewrite positions_app in Hc. apply chain_app in Hc.
  rewrite (positions_head m) in Hc by done. destruct (chain_peek _ _ _ _ Hc) as (b & Hb & Hiff).
  exists b. split; [done|]. rewrite Hiff. by destruct es2.
Qed.

(** Deleting [num] entries from the first of [es2] on. *)
Lemma lpDeleteRangeWithEntry_ok m es1 es2 num :
  lp_rep m (es1 ++ es2) -> 0 <= num -> es2 <> [] ->
  let p := LP_HDR_SIZE + zlen (body es1) in
  let es' := es1 ++ drop (Z.to_nat num) es2 in
  exists m', lpDeleteRangeWithEntry junk usable m p num =
    Some (m', head (positions p (drop (Z.to_nat num) es2))) /\ lp_rep m' es'.
Proof using usable_ge.
  intros H Hnum Hne p es'. pose proof (rep_bytes _ _ H) as Hn. pose proof (rep_chain _ _ H) as Hc.
  unfold lpDeleteRangeWithEntry. rewrite Hn. cbn [mbind option_bind]. case_decide as H0.
  { subst num. exists m. split; [|done]. by destruct es2. }
  set (oes := take (Z.to_nat num) es2). set (es3 := drop (Z.to_nat num) es2).
  assert (es2 = oes ++ es3) as E by (symmetry; apply take_drop).
  rewrite positions_app in Hc. fold p in Hc. pose proof (positions_head m es1 es2 H) as Hp. fold p in Hp.
  pose proof (rep_block _ _ H) as Hblk. pose proof (zlen_body_le (es1 ++ es2)) as Hle.
  pose proof (lpDeleteRange_loop_chain m _ _ (length m) _ _ num 0 Hc eq_refl Hnum) as Hloop.
  rewrite Hp in Hloop. rewrite Hloop; clear Hloop.
  2: { intros _. by destruct es2. }
  2: { pose proof (zlen_positions p es2). unfold total in *. rewrite !zlen_app in *. unfold zlen in *. lia. }
  cbn [mbind option_bind]. rewrite positions_drop. fold oes es3.
  assert (default (total (es1 ++ es2) - 1) (head (positions (p + zlen (body oes)) es3)) =
          p + zlen (body oes)) as ->.
  { rewrite E, app_assoc in H. apply positions_head in H. rewrite body_app, zlen_app in H.
    rewrite E, app_assoc. unfold p. by rewrite <- Z.add_assoc. }
  rewrite E in H. destruct (rep_cut m es1 oes es3 H) as (m1 & m2 & m3 & Hm1 & Hm2 & Hm3 & Hrep3).
  fold p in Hm1. destruct (rep_parts _ _ _ _ H) as (_ & _ & Htot). fold p in Htot.
  rewrite <- E in Htot.
  replace (total (es1 ++ es2) - 1 - (p + zlen (body oes)) + 1) with (zlen (body es3 ++ [LP_EOF])) by lia.
  rewrite Hm1. cbn [mbind option_bind].
  assert (total (es1 ++ es2) - (p + zlen (body oes) - p) = total (es1 ++ es3)) as ->.
  { unfold total in *. rewrite !body_app, !zlen_app in *. change (zlen [LP_EOF]) with 1 in *.
    unfold LP_HDR_SIZE in *. lia. }
  rewrite Hm2. cbn [mbind option_bind].
  assert (0 + Z.min num (zlen (positions p es2)) = zlen oes) as ->.
  { rewrite zlen_positions. unfold oes. rewrite zlen_take. lia. }
  apply bind_Some_inv in Hm3 as (numele & Hne3 & Hm3). rewrite Hne3. cbn [mbind option_bind].
  rewrite Hm3. cbn [mbind option_bind].
  destruct (lpShrinkToFit_ok m3 _ Hrep3) as (m4 & -> & Hrep4). cbn [mbind option_bind].
  destruct (rep_eof m4 es1 es3 Hrep4) as (b & Hb & Hiff). fold p in Hb. rewrite Hb. cbn [mbind option_bind].
  exists m4. split; [|done]. do 2 f_equal. destruct es3 as [|e3 es3].
  - by rewrite decide_True by (by apply Hiff).
  - rewrite decide_False; [done|]. by rewrite Hiff.
Qed.

(** ** Merging *)

Lemma rep_header m es num :
  total es < 2 ^ 32 -> Forall ent_ok es -> bytes_at m LP_HDR_SIZE (body es ++ [LP_EOF]) ->
  count_ok num (zlen es) ->
  exists m1 m2, lpSetNumElements m num = Some m1 /\ lpSetTotalBytes m1 (total es) = Some m2 /\ lp_rep m2 es.
Proof.
  intros Hfit He Hb Hc. pose proof (bytes_at_bound _ _ _ Hb) as [_ Hz]. unfold LP_HDR_SIZE in Hz.
  zlen_nonneg_all.
  destruct (lpSetNumElements_ok m num) as (m1 & Hm1 & Hz1 & Hn1 & Hk1); [lia|].
  destruct (lpSetTotalBytes_ok m1 (total es)) as (m2 & Hm2 & Hz2 & Ht2 & Hk2); [lia|].
  exists m1, m2. split_and!; [done|done|]. split; [done|done|done| |].
  - exists num. split; [|done]. apply Hk2; [done|]. rewrite zlen_le_bytes. lia.
  - apply Hk2; [apply Hk1; [done|]|]; unfold LP_HDR_SIZE; lia.
Qed.

Lemma rep_prefix m es :
  lp_rep m es -> exists hdr, zlen hdr = 6 /\ bytes_at m 0 (hdr ++ body es).
Proof.
  intros H. destruct (rep_num _ _ H) as (num & Hn & _). pose proof (rep_total _ _ H) as Ht.
  pose proof (rep_body _ _ H) as Hb. apply bytes_at_app in Hb as [Hb _].
  exists (le_bytes 4 (total es) ++ le_bytes 2 num). split; [by rewrite zlen_app, !zlen_le_bytes|].
  apply bytes_at_app. split; [by apply bytes_at_app|]. by rewrite zlen_app, !zlen_le_bytes.
Qed.

(** The bytes of the merged listpack, in the block of the first or the second. *)
Lemma merge_append m1 m2 es1 es2 n :
  lp_rep m1 es1 -> lp_rep m2 es2 -> n = total (es1 ++ es2) ->
  exists t, (bs ← mem_read m2 LP_HDR_SIZE (total es2 - LP_HDR_SIZE);
             mem_write (lp_realloc junk usable m1 n) (total es1 - 1) bs) = Some t /\
    bytes_at t LP_HDR_SIZE (body (es1 ++ es2) ++ [LP_EOF]).
Proof using usable_ge.
  intros H1 H2 ->. pose proof (rep_block _ _ H1). pose proof (usable_ge (total (es1 ++ es2))).
  assert (total (es1 ++ es2) = total es1 + zlen (body es2)) as Ht.
  { unfold total. rewrite body_app, zlen_app. lia. }
  rewrite (bytes_at_read m2 _ (body es2 ++ [LP_EOF])); [|apply H2|].
  2: { rewrite zlen_app. change (zlen [LP_EOF]) with 1. unfold total, LP_HDR_SIZE. lia. }
  cbn [mbind option_bind]. unfold lp_realloc. rewrite (rep_end _ _ H1).
  pose proof (rep_body _ _ H1) as Hb. apply bytes_at_app in Hb as [Hb _].
  assert (6 + zlen (body es1) + 1 = total es1) as Ht1 by (unfold total; lia).
  zlen_nonneg_all. unfold LP_HDR_SIZE in *.
  destruct (mem_write_region (mem_realloc junk m1 (usable (total (es1 ++ es2)))) (6 + zlen (body es1))
    (body es2 ++ [LP_EOF])) as (t & -> & _ & Hat & Hk).
  { lia. }
  { rewrite zlen_mem_realloc, zlen_app by lia. change (zlen [LP_EOF]) with 1. lia. }
  exists t. split; [done|]. rewrite body_app, <- app_assoc. apply bytes_at_app. split; [|done].
  apply Hk; [apply bytes_at_realloc; [done|lia]|lia].
Qed.

Lemma merge_prepend m1 m2 es1 es2 n :
  lp_rep m1 es1 -> lp_rep m2 es2 -> n = total (es1 ++ es2) ->
  exists t, (target ← mem_move (lp_realloc junk usable m2 n) (total es1 - 1) LP_HDR_SIZE
                        (total es2 - LP_HDR_SIZE);
             bs ← mem_read m1 0 (total es1 - 1); mem_write target 0 bs) = Some t /\
    bytes_at t LP_HDR_SIZE (body (es1 ++ es2) ++ [LP_EOF]).
Proof using usable_ge.
  intros H1 H2 ->. pose proof (rep_block _ _ H1). pose proof (usable_ge (total (es1 ++ es2))).
  assert (total (es1 ++ es2) = total es1 + zlen (body es2)) as Ht.
  { unfold total. rewrite body_app, zlen_app. lia. }
  assert (6 + zlen (body es1) + 1 = total es1) as Ht1 by (unfold total; lia).
  rewrite (rep_end _ _ H1). pose proof (rep_body _ _ H2) as Hb. unfold LP_HDR_SIZE in *.
  assert (zlen (body es2 ++ [LP_EOF]) = total es2 - 6) as Hz2.
  { rewrite zlen_app. change (zlen [LP_EOF]) with 1. unfold total. lia. }
  unfold lp_realloc. zlen_nonneg_all.
  destruct (mem_move_region (mem_realloc junk m2 (usable (total (es1 ++ es2)))) (6 + zlen (body es1)) 6
    (body es2 ++ [LP_EOF])) as (t1 & Hm & Hz & Hat & Hk).
  { apply bytes_at_realloc; [done|]. unfold total in *. lia. }
  { lia. }
  { rewrite zlen_mem_realloc by lia. unfold total in *. lia. }
  rewrite Hz2 in Hm. rewrite Hm. cbn [mbind option_bind].
  destruct (rep_prefix _ _ H1) as (hdr & Hh & Hpre).
  rewrite (bytes_at_read m1 0 _ _ Hpre) by (rewrite zlen_app; lia). cbn [mbind option_bind].
  destruct (mem_write_region t1 0 (hdr ++ body es1)) as (t2 & -> & _ & Hat2 & Hk2).
  { lia. }
  { rewrite Hz, zlen_mem_realloc, zlen_app by lia. lia. }
  exists t2. split; [done|]. rewrite body_app, <- app_assoc. apply bytes_at_app in Hat2 as [_ Hat2].
  rewrite Hh in Hat2. apply bytes_at_app. split; [done|]. apply Hk2; [done|]. rewrite !zlen_app. lia.
Qed.

Lemma lpMerge_ok m1 m2 es1 es2 :
  lp_rep m1 es1 -> lp_rep m2 es2 -> total (es1 ++ es2) < UINT32_MAX ->
  exists m', lpMerge junk usable (Some m1) (Some m2) false =
      Some (Some (m', if bool_decide (total es1 >= total es2) then Some m' else None,
                  if bool_decide (total es1 >= total es2) then None else Some m')) /\
    lp_rep m' (es1 ++ es2).
Proof using usable_ge.
  intros H1 H2 Hfit. unfold lpMerge. rewrite (rep_bytes _ _ H1). cbn [mbind option_bind].
  destruct (lpLength_ok _ _ H1) as (m1' & -> & H1' & Hz1). cbn [mbind option_bind].
  rewrite (rep_bytes _ _ H2). cbn [mbind option_bind].
  destruct (lpLength_ok _ _ H2) as (m2' & -> & H2' & Hz2). cbn [mbind option_bind].
  set (n := u64 (total es1 + total es2 - LP_HDR_SIZE - 1)).
  assert (n = total (es1 ++ es2)) as Hn.
  { unfold n, u64, total, UINT32_MAX, LP_HDR_SIZE in *. rewrite body_app, zlen_app in *.
    zlen_nonneg_all. rewrite uwrap_small by (unfold in_u; lia). lia. }
  assert (forall t, bytes_at t LP_HDR_SIZE (body (es1 ++ es2) ++ [LP_EOF]) ->
    exists t1 t2, lpSetNumElements t (if decide (zlen es1 + zlen es2 < 65535)
                    then zlen es1 + zlen es2 else 65535) = Some t1 /\
      lpSetTotalBytes t1 n = Some t2 /\ lp_rep t2 (es1 ++ es2)) as Hfin.
  { intros t Hb. rewrite Hn. apply rep_header; [unfold UINT32_MAX in Hfit; lia| |done|].
    - apply Forall_app. split; [apply H1|apply H2].
    - unfold count_ok, LP_HDR_NUMELE_UNKNOWN. rewrite zlen_app. case_decide; lia. }
  case_bool_decide; (rewrite assert_True by (rewrite Hn; done)); cbn [mbind option_bind].
  - destruct (merge_append m1' m2' es1 es2 n H1' H2' Hn) as (t & Hm & Hb).
    destruct (Hfin t Hb) as (t1 & t2 & Ht1 & Ht2 & Hrep).
    rewrite Hm. cbn [mbind option_bind]. rewrite Ht1. cbn [mbind option_bind]. rewrite Ht2.
    exists t2. done.
  - destruct (merge_prepend m1' m2' es1 es2 n H1' H2' Hn) as (t & Hm & Hb).
    destruct (Hfin t Hb) as (t1 & t2 & Ht1 & Ht2 & Hrep).
    rewrite Hm. cbn [mbind option_bind]. rewrite Ht1. cbn [mbind option_bind]. rewrite Ht2.
    exists t2. done.
Qed.

(** ** Deleting by index *)

(** The index from the head that [index] stands for. *)
Definition norm_index (n index : Z) : Z := if decide (0 <= index) then index else n + index.

Lemma seek_norm {A} (l : list A) index :
  seek_spec l index =
  (let i := norm_index (zlen l) index in if decide (0 <= i) then l !! Z.to_nat i else None).
Proof.
  unfold seek_spec, norm_index. destruct (decide (0 <= index)) as [H|H]; cbn zeta.
  - by rewrite decide_True.
  - destruct (decide (0 <= zlen l + index)).
    + rewrite (seek_spec_back l) by lia. do 2 f_equal. lia.
    + apply lookup_ge_None. rewrite length_reverse. zlia.
Qed.

Lemma positions_lookup p es i q :
  positions p es !! i = Some q <-> (i < length es)%nat /\ q = p + zlen (body (take i es)).
Proof.
  revert p i. induction es as [|e es IH]; intros p i.
  - split; [by destruct i|]. cbn. lia.
  - destruct i as [|i]; cbn [positions take length].
    + change (zlen (body [])) with 0. cbn [lookup list_lookup]. split; [intros [= ->]; lia|].
      intros [_ ->]. f_equal. lia.
    + cbn [lookup list_lookup]. rewrite IH, zlen_body_cons. split; intros [? ->]; split; lia.
Qed.

Lemma take_drop_parts {A} (l : list A) i k : l = take i l ++ take k (drop i l) ++ drop (i + k) l.
Proof. rewrite <- drop_drop. by rewrite !take_drop. Qed.

(** Deleting everything from an entry on: the terminator replaces it. *)
Lemma rep_truncate m es1 es2 :
  lp_rep m (es1 ++ es2) -> zlen es1 < 65535 ->
  let p := LP_HDR_SIZE + zlen (body es1) in
  exists m1 m2 m3, poke m p LP_EOF = Some m1 /\ lpSetTotalBytes m1 (p + 1) = Some m2 /\
    lpSetNumElements m2 (zlen es1) = Some m3 /\ lp_rep m3 es1.
Proof.
  intros H Hlt p. pose proof (rep_block _ _ H) as Hblk. pose proof (rep_fits _ _ H) as Hfit.
  assert (p + 1 = total es1) as Hp1 by (unfold p, total, LP_HDR_SIZE; lia).
  assert (p + 1 <= total (es1 ++ es2)) as Hle.
  { unfold total in *. rewrite body_app, zlen_app. zlen_nonneg_all. lia. }
  assert (6 <= p) by (unfold p, LP_HDR_SIZE; zlen_nonneg_all; lia).
  destruct (mem_write_region m p [LP_EOF]) as (m1 & Hm1 & Hz1 & Hat1 & Hk1);
    [lia|change (zlen [LP_EOF]) with 1; lia|].
  rewrite mem_write_Some in Hm1 by (change (zlen [LP_EOF]) with 1; lia).
  rewrite poke_splice by lia.
  destruct (lpSetTotalBytes_ok m1 (p + 1)) as (m2 & Hm2 & Hz2 & Ht2 & Hk2); [lia|].
  destruct (lpSetNumElements_ok m2 (zlen es1)) as (m3 & Hm3 & Hz3 & Hn3 & Hk3); [lia|].
  exists m1, m2, m3. split_and!; [done|done|done|]. split.
  - lia.
  - pose proof (rep_ents _ _ H) as He. by apply Forall_app in He as [He _].
  - rewrite <- Hp1. apply Hk3; [done|]. rewrite zlen_le_bytes. lia.
  - exists (zlen es1). split; [done|]. by left.
  - pose proof (rep_body _ _ H) as Hb. rewrite body_app, <- app_assoc in Hb.
    apply bytes_at_app in Hb as [Hb _].
    apply Hk3; [apply Hk2; [|unfold LP_HDR_SIZE; lia]|unfold LP_HDR_SIZE; lia].
    apply bytes_at_app. split; [|done]. apply Hk1; [done|]. unfold p. lia.
Qed.

Lemma lpDeleteRange_ok m es index num :
  lp_rep m es -> in_u 64 num ->
  let i := norm_index (zlen es) index in
  exists m', lpDeleteRange junk usable m index num = Some m' /\
    lp_rep m' (if decide (0 <= i < zlen es)
               then take (Z.to_nat i) es ++ drop (Z.to_nat i + Z.to_nat num) es else es).
Proof using usable_ge.
  intros H Hnum i. destruct (rep_count _ _ H) as (numele & Hn & Hok).
  unfold lpDeleteRange. rewrite Hn. cbn [mbind option_bind]. destruct (decide (num = 0)) as [->|H0].
  { exists m. split; [done|]. case_decide; [|done]. rewrite Nat.add_0_r. by rewrite take_drop. }
  rewrite (lpSeek_ok m es) by done. rewrite seek_norm, zlen_positions. fold i. cbn [mbind option_bind].
  destruct (decide (0 <= i < zlen es)) as [Hi|Hi].
  2: { exists m. split; [|done]. destruct (decide (0 <= i)); [|done].
       rewrite lookup_ge_None_2; [done|]. pose proof (zlen_positions LP_HDR_SIZE es). unfold zlen in *. lia. }
  cbn zeta. rewrite decide_True by lia.
  set (es1 := take (Z.to_nat i) es). set (es2 := drop (Z.to_nat i) es).
  assert (es = es1 ++ es2) as E by (symmetry; apply take_drop).
  assert (zlen es1 = i) as Hi1 by (unfold es1; rewrite zlen_take; lia).
  assert (positions LP_HDR_SIZE es !! Z.to_nat i = Some (LP_HDR_SIZE + zlen (body es1))) as ->.
  { apply positions_lookup. split; [unfold zlen in Hi; lia|done]. }
  case_decide as Hfast.
  - destruct Hfast as [Hk Hle]. apply bool_decide_eq_true in Hk. destruct Hok as [[-> Hlt]|?]; [|done].
    unfold LP_HDR_NUMELE_UNKNOWN in Hlt.
    assert ((if decide (bool_decide (zlen es <> LP_HDR_NUMELE_UNKNOWN) = true /\ index < 0)
             then zlen es + index else index) = zlen es1) as Hidx.
    { rewrite Hi1. unfold i, norm_index. rewrite (bool_decide_true _ Hk). repeat case_decide; lia. }
    rewrite Hidx in *. unfold u64 in Hle. rewrite uwrap_small in Hle by (unfold in_u; lia).
    rewrite E in H. destruct (rep_truncate m es1 es2 H ltac:(lia)) as (m1 & m2 & m3 & -> & Hm2 & Hm3 & Hr).
    cbn [mbind option_bind]. rewrite Hm2. cbn [mbind option_bind]. rewrite Hm3. cbn [mbind option_bind].
    rewrite drop_ge, app_nil_r by (unfold zlen in *; lia). by apply lpShrinkToFit_ok.
  - rewrite <- drop_drop. fold es2. rewrite E in H.
    destruct (lpDeleteRangeWithEntry_ok m es1 es2 num H) as (m' & -> & Hr).
    { unfold in_u in Hnum. lia. }
    { intros Hnil. rewrite Hnil, app_nil_r in E. rewrite E in Hi. lia. }
    cbn [mbind option_bind]. eauto.
Qed.

(** ** Deleting a batch

    The entries from the first deleted one on, as groups of a deleted entry
    and the entries kept after it. *)
Definition group_ents (gs : list (lp_ent * list lp_ent)) : list lp_ent := gs ≫= (fun g => g.1 :: g.2).
Definition group_kept (gs : list (lp_ent * list lp_ent)) : list lp_ent := gs ≫= snd.

Fixpoint group_pos (p : Z) (gs : list (lp_ent * list lp_ent)) : list Z :=
  match gs with
  | [] => []
  | (e, k) :: gs => p :: group_pos (p + ent_size e + zlen (body k)) gs
  end.

Lemma lpSkip_entry m p e :
  ent_ok e -> bytes_at m p (entry_bytes e) -> ent_size e <= 2 ^ 32 ->
  lpSkip m p = Some (p + ent_size e) /\ exists b, peek m p = Some b /\ b <> LP_EOF.
Proof.
  intros He Hat Hlt. apply bytes_at_app in Hat as [Hat _]. unfold ent_size in *.
  pose proof (backlen_size_range (zlen (enc e))). split.
  - unfold lpSkip. destruct (ent_enc_size m p e He Hat ltac:(lia)) as [-> _]. done.
  - destruct (enc_first e He) as (b & bs & Heq & _ & Hb). rewrite Heq in Hat.
    apply bytes_at_cons in Hat as [Hat _]. exists b. split; [done|]. unfold LP_EOF. lia.
Qed.

Lemma group_ents_cons e k gs : group_ents ((e, k) :: gs) = e :: k ++ group_ents gs.
Proof. reflexivity. Qed.

Lemma zlen_group_pos p gs : zlen (group_pos p gs) = zlen gs.
Proof.
  revert p. induction gs as [|[e k] gs IH]; intros p; [done|]. cbn [group_pos]. by rewrite !zlen_cons, IH.
Qed.

Lemma zlen_group gs : zlen (group_ents gs) = zlen (group_kept gs) + zlen gs.
Proof.
  induction gs as [|[e k] gs IH]; [done|]. rewrite group_ents_cons.
  change (group_kept ((e, k) :: gs)) with (k ++ group_kept gs). rewrite !zlen_cons, !zlen_app. lia.
Qed.

Lemma group_kept_body gs : zlen (body (group_kept gs)) <= zlen (body (group_ents gs)).
Proof.
  induction gs as [|[e k] gs IH]; [done|]. rewrite group_ents_cons.
  change (group_kept ((e, k) :: gs)) with (k ++ group_kept gs).
  rewrite zlen_body_cons, !body_app, !zlen_app. pose proof (ent_size_pos e). lia.
Qed.

Lemma group_kept_ok gs : Forall ent_ok (group_ents gs) -> Forall ent_ok (group_kept gs).
Proof.
  induction gs as [|[e k] gs IH]; [done|]. rewrite group_ents_cons.
  change (group_kept ((e, k) :: gs)) with (k ++ group_kept gs).
  rewrite Forall_cons, !Forall_app. tauto.
Qed.

(** One step: the kept bytes move down to [dst], what follows them stays. *)
Lemma batch_move (m : bytes) dst src K rest :
  bytes_at m src (K ++ rest) -> 6 <= dst <= src ->
  exists m', mem_move m dst src (zlen K) = Some m' /\ zlen m' = zlen m /\ bytes_at m' dst K /\
    bytes_at m' (src + zlen K) rest /\
    forall r cs, bytes_at m r cs -> r + zlen cs <= dst -> bytes_at m' r cs.
Proof.
  intros Hat Hd. pose proof (bytes_at_bound _ _ _ Hat) as [_ Hz]. rewrite zlen_app in Hz.
  apply bytes_at_app in Hat as [HK Hrest]. zlen_nonneg_all.
  destruct (mem_move_region m dst src K HK) as (m' & Hm & Hz' & Hat' & Hk); [lia|lia|].
  exists m'. split_and!; [done|done|done| |].
  - apply Hk; [done|]. lia.
  - intros. apply Hk; [done|]. lia.
Qed.

Lemma lpBatchDelete_loop_ok gs : forall m q dst lp_end,
  gs <> [] -> Forall ent_ok (group_ents gs) -> 6 <= dst <= q ->
  bytes_at m q (body (group_ents gs) ++ [LP_EOF]) ->
  lp_end = q + zlen (body (group_ents gs)) + 1 -> lp_end <= 2 ^ 32 ->
  exists m', lpBatchDelete_loop m lp_end (group_pos q gs) dst =
      Some (m', dst + zlen (body (group_kept gs)) + 1) /\ zlen m' = zlen m /\
    bytes_at m' dst (body (group_kept gs) ++ [LP_EOF]) /\
    forall r cs, bytes_at m r cs -> r + zlen cs <= dst -> bytes_at m' r cs.
Proof.
  induction gs as [|[e k] gs IH]; intros m q dst lp_end Hne Hok Hd Hat Hend H32; [done|].
  rewrite group_ents_cons in *. apply Forall_cons in Hok as [He Hok]. apply Forall_app in Hok as [Hk Hok].
  rewrite body_cons, body_app, <- !app_assoc in Hat. apply bytes_at_app in Hat as [Hate Hat].
  rewrite zlen_entry_bytes in Hat. rewrite zlen_body_cons, body_app, zlen_app in Hend.
  pose proof (ent_size_pos e). zlen_nonneg_all.
  destruct (lpSkip_entry m q e He Hate) as (Hskip & b & Hb & Hbne); [lia|].
  change (group_kept ((e, k) :: gs)) with (k ++ group_kept gs). rewrite body_app, zlen_app, <- app_assoc.
  cbn [group_pos lpBatchDelete_loop]. rewrite Hb. cbn [mbind option_bind].
  rewrite assert_True by done. cbn [mbind option_bind]. rewrite Hskip. cbn [mbind option_bind].
  destruct gs as [|g gs].
  - cbn [group_pos]. change (group_ents []) with (@nil lp_ent) in *.
    change (group_kept []) with (@nil lp_ent). change (body []) with (@nil Z) in *. cbn [app] in *.
    rewrite zlen_nil in *. rewrite decide_False by (intros [? _]; done).
    rewrite assert_True by lia. cbn [mbind option_bind].
    pose proof (batch_move m dst (q + ent_size e) (body k ++ [LP_EOF]) []) as Hmv.
    rewrite app_nil_r, zlen_app in Hmv. change (zlen [LP_EOF]) with 1 in Hmv.
    destruct Hmv as (m' & Hm & Hz & Hat' & _ & Hkeep); [done|lia|].
    replace (lp_end - (q + ent_size e)) with (zlen (body k) + 1) by lia. rewrite Hm. cbn [mbind option_bind].
    cbn [lpBatchDelete_loop]. exists m'. split_and!; [|done|done|done]. do 2 f_equal. lia.
  - assert (exists ps', group_pos (q + ent_size e + zlen (body k)) (g :: gs) =
              (q + ent_size e + zlen (body k)) :: ps') as [ps' Eps] by (destruct g; by eexists).
    destruct (decide (k = [])) as [->|Hkne].
    + change (body []) with (@nil Z) in *. rewrite zlen_nil, ?Z.add_0_r in *. cbn [app] in *.
      rewrite Eps. rewrite decide_True by done. rewrite <- Eps.
      destruct (IH m (q + ent_size e) dst lp_end) as (m' & Hl & Hz & Hat' & Hkeep);
        [done|done|lia|done|lia|done|].
      exists m'. split_and!; [|done|done|done]. rewrite Hl. do 2 f_equal.
    + assert (0 < zlen (body k)) as Hkpos.
      { destruct k as [|e' k]; [done|]. rewrite zlen_body_cons. pose proof (ent_size_pos e').
        pose proof (zlen_nonneg (body k)). lia. }
      rewrite Eps. rewrite decide_False by lia. rewrite <- Eps. rewrite assert_True by lia.
      cbn [mbind option_bind].
      destruct (batch_move m dst (q + ent_size e) (body k) _ Hat) as (m1 & Hm & Hz & Hat1 & Hrest & Hkeep1); [lia|].
      replace (q + ent_size e + zlen (body k) - (q + ent_size e)) with (zlen (body k)) by lia.
      rewrite Hm. cbn [mbind option_bind].
      destruct (IH m1 (q + ent_size e + zlen (body k)) (dst + zlen (body k)) lp_end)
        as (m' & Hl & Hz' & Hat' & Hkeep); [done|done|lia|done|lia|done|].
      exists m'. split_and!; [rewrite Hl; do 2 f_equal; lia|lia| |].
      * apply bytes_at_app. split; [apply Hkeep; [done|lia]|done].
      * intros r cs Hcs Hr. apply Hkeep; [by apply Hkeep1|lia].
Qed.

Lemma lpBatchDelete_ok m pre gs :
  lp_rep m (pre ++ group_ents gs) ->
  exists m', lpBatchDelete junk usable m (group_pos (LP_HDR_SIZE + zlen (body pre)) gs) = Some m' /\
    lp_rep m' (pre ++ group_kept gs).
Proof using usable_ge.
  intros H. destruct gs as [|[e k] gs]; [by exists m|].
  set (G := (e, k) :: gs) in *. set (p := LP_HDR_SIZE + zlen (body pre)).
  pose proof (rep_bytes _ _ H) as Hn. unfold lpBytes in Hn. pose proof (rep_fits _ _ H) as Hfit.
  pose proof (rep_body _ _ H) as Hb. rewrite body_app, <- app_assoc in Hb.
  pose proof (rep_block _ _ H) as Hblk.
  apply bytes_at_app in Hb as [Hpre Hb]. fold p in Hb.
  assert (total (pre ++ group_ents G) = p + zlen (body (group_ents G)) + 1) as Htot.
  { unfold total, p, LP_HDR_SIZE. rewrite body_app, zlen_app. lia. }
  assert (6 <= p) by (unfold p, LP_HDR_SIZE; zlen_nonneg_all; lia).
  pose proof (rep_ents _ _ H) as Hok. apply Forall_app in Hok as [Hokp Hok].
  unfold lpBatchDelete. change (group_pos p G) with (p :: group_pos (p + ent_size e + zlen (body k)) gs) at 1.
  cbv beta iota. rewrite Hn. cbn [mbind option_bind].
  pose proof Hb as Heof. apply bytes_at_app in Heof as [_ Heof]. apply bytes_at_single in Heof.
  replace (total (pre ++ group_ents G) - 1) with (p + zlen (body (group_ents G))) by lia.
  rewrite Heof. cbn [mbind option_bind]. rewrite assert_True by done. cbn [mbind option_bind].
  destruct (lpBatchDelete_loop_ok G m p p (total (pre ++ group_ents G)))
    as (m1 & -> & Hz1 & Hat1 & Hk1); [done|done|lia|done|lia|lia|].
  cbn [mbind option_bind]. set (dst := p + zlen (body (group_kept G)) + 1).
  replace (total (pre ++ group_ents G) - (total (pre ++ group_ents G) - dst)) with dst by lia.
  pose proof Hat1 as Heof1. apply bytes_at_app in Heof1 as [_ Heof1]. apply bytes_at_single in Heof1.
  replace (dst - 1) with (p + zlen (body (group_kept G))) by (unfold dst; lia).
  rewrite Heof1. cbn [mbind option_bind]. rewrite assert_True by done. cbn [mbind option_bind].
  destruct (lpSetTotalBytes_ok m1 dst) as (m2 & -> & Hz2 & Ht2 & Hk2); [zlen_nonneg_all; lia|].
  cbn [mbind option_bind]. rewrite zlen_group_pos.
  destruct (count_update m2 (zlen (pre ++ group_ents G)) (zlen G)) as (m3 & Hm3 & Hz3 & Hk3 & Hn3).
  { zlen_nonneg_all; lia. }
  { destruct (rep_num _ _ H) as (num & Hnum & Hc). exists num. split; [|done].
    apply Hk2; [apply Hk1; [done|]|]; rewrite zlen_le_bytes; lia. }
  { rewrite zlen_app, zlen_group. zlen_nonneg_all. lia. }
  apply bind_Some_inv in Hm3 as (numele & Hne & Hm3). rewrite Hne. cbn [mbind option_bind].
  rewrite Hm3. cbn [mbind option_bind]. apply lpShrinkToFit_ok.
  assert (total (pre ++ group_kept G) = dst) as Htot'.
  { unfold total, dst, p, LP_HDR_SIZE. rewrite body_app, zlen_app. lia. }
  split.
  - pose proof (group_kept_body G). lia.
  - apply Forall_app. split; [done|by apply group_kept_ok].
  - rewrite Htot'. apply Hk3; [done|]. rewrite zlen_le_bytes. lia.
  - replace (zlen (pre ++ group_kept G)) with (zlen (pre ++ group_ents G) - zlen G); [done|].
    rewrite !zlen_app, zlen_group. lia.
  - apply Hk3; [apply Hk2; [|unfold LP_HDR_SIZE; lia]|unfold LP_HDR_SIZE; lia].
    rewrite body_app, <- app_assoc. apply bytes_at_app. split; [|done]. apply Hk1; [done|]. unfold p. lia.
Qed.
End alloc.

(** ** Reading entries *)

Lemma enc_str e s : val e = VStr s -> exists pre, enc e = pre ++ s /\ zlen pre = str_pos e.
Proof.
  destruct e; cbn; intros [= <-].
  - by exists [128 + zlen s0].
  - by exists [224 + zlen s0 / 256; zlen s0 mod 256].
  - exists (240 :: le_bytes 4 (zlen s0)). split; [done|]. by rewrite zlen_cons, zlen_le_bytes.
Qed.

Lemma ent_int_range e v : ent_ok e -> val e = VInt v -> in_i 64 v.
Proof.
  destruct e; cbn [ent_ok val]; intros He [= <-]; try done; try (unfold in_i; lia);
    (eapply in_i_mono; [|exact He]; lia).
Qed.

Lemma ent_get m p e : ent_ok e -> bytes_at m p (enc e) -> lpGet m p = Some (got p e).
Proof. intros He Hat. unfold lpGet. by rewrite (ent_read m p e He Hat). Qed.

Lemma ent_str_at m p e s :
  bytes_at m p (enc e) -> val e = VStr s -> bytes_at m (p + str_pos e) s.
Proof.
  intros Hat Hv. destruct (enc_str e s Hv) as (pre & Heq & Hpre). rewrite Heq in Hat.
  apply bytes_at_app in Hat as [_ Hat]. by rewrite Hpre in Hat.
Qed.

(** With a buffer, the text of the entry is returned. *)
Lemma lpGetString_ok m p e t buf :
  ent_ok e -> bytes_at m p (enc e) -> ent_text e t -> LP_INTBUF_SIZE <= zlen buf ->
  lpGetString m p buf = Some t.
Proof.
  intros He Hat Ht Hbuf. unfold lpGetString. rewrite (ent_get m p e He Hat). cbn [mbind option_bind].
  unfold got, ent_text in *. destruct (val e) as [s|v] eqn:Hv.
  - subst t. apply bytes_at_read; [|done]. by apply ent_str_at.
  - pose proof (ent_int_range e v He Hv) as Hr. unfold LP_INTBUF_SIZE in *.
    destruct (ll2string_ok buf 21 v Hr ltac:(lia)) as (str & Hs & Hok & _).
    pose proof (sdecimal_short str v Hs Hr) as Hl. unfold LONG_STR_SIZE in Hl.
    rewrite Hok by lia. cbn [mbind option_bind]. rewrite (sdecimal_inj t str v Ht Hs).
    apply bytes_at_read; [|done].
    assert (bytes_at (splice buf 0 (str ++ [ch_nul])) 0 (str ++ [ch_nul])) as Hsp.
    { apply bytes_at_splice; [lia|]. rewrite zlen_app. change (zlen [ch_nul]) with 1. lia. }
    by apply bytes_at_app in Hsp as [Hsp _].
Qed.

(** Whether the text of an entry is [s]. *)
Definition text_is (e : lp_ent) (s : bytes) : bool :=
  match val e with
  | VStr t => bool_decide (t = s)
  | VInt v => bool_decide (lpStringToInt64 s (zlen s) = Some (Some v))
  end.

Lemma text_is_ok e s : ent_ok e -> text_is e s = true <-> ent_text e s.
Proof.
  intros He. unfold text_is, ent_text. destruct (val e) as [t|v] eqn:Hv; rewrite bool_decide_eq_true.
  - split; congruence.
  - destruct (lpStringToInt64_ok s) as (r & -> & Hr). pose proof (ent_int_range e v He Hv).
    specialize (Hr v). split; [intros [= ->]; by apply Hr|]. intros. f_equal. by apply Hr.
Qed.

Lemma lp_memcmp_ok m p t s :
  bytes_at m p t -> zlen s = zlen t -> lp_memcmp m p s (zlen s) = Some (bool_decide (t = s)).
Proof.
  intros Hat Hz. unfold lp_memcmp. rewrite (bytes_at_read m p t) by done. cbn [mbind option_bind].
  rewrite mem_read_Some by (zlen_nonneg_all; lia). cbn [mbind option_bind]. by rewrite slice_full by done.
Qed.

Lemma lpCompare_ok m p e s :
  ent_ok e -> bytes_at m p (enc e) -> lpCompare m p s (zlen s) = Some (text_is e s).
Proof.
  intros He Hat. destruct (enc_first e He) as (b & bs & Heq & _ & Hb).
  assert (peek m p = Some b) as Hp. { rewrite Heq in Hat. by apply bytes_at_cons in Hat as [? _]. }
  unfold lpCompare. rewrite Hp. cbn [mbind option_bind]. rewrite decide_False by (unfold LP_EOF; lia).
  rewrite (ent_get m p e He Hat). cbn [mbind option_bind]. unfold got, text_is.
  destruct (val e) as [t|v] eqn:Hv.
  - case_decide as Hz; [apply lp_memcmp_ok; [by apply ent_str_at|done]|].
    rewrite bool_decide_false; [done|]. by intros ->.
  - destruct (lpStringToInt64_ok s) as (r & -> & _). cbn [mbind option_bind]. f_equal.
    destruct r as [n|]; [|by rewrite bool_decide_false].
    apply bool_decide_ext. split; congruence.
Qed.

(** ** Finding an entry *)

Fixpoint find_spec (skip cnt : nat) (s : bytes) (p : Z) (es : list lp_ent) : option Z :=
  match es with
  | [] => None
  | e :: es =>
    match cnt with
    | O => if text_is e s then Some p else find_spec skip skip s (p + ent_size e) es
    | S cnt => find_spec skip cnt s (p + ent_size e) es
    end
  end.

(** What is cached about the searched string is true of it. *)
Definition venc_ok (s : bytes) (v : lp_vencoding) : Prop :=
  match v with
  | NotTried => True
  | NotInt => lpStringToInt64 s (zlen s) = Some None
  | IsInt n => lpStringToInt64 s (zlen s) = Some (Some n)
  end.

Lemma lpFind_encode_ok s v :
  venc_ok s v -> exists v', lpFind_encode s (zlen s) v = Some v' /\ venc_ok s v' /\ v' <> NotTried.
Proof.
  destruct v; cbn [venc_ok lpFind_encode]; intros Hv; [|by eexists|by eexists].
  case_decide as Hl.
  - exists NotInt. split_and!; [done| |done]. cbn. unfold lpStringToInt64.
    rewrite decide_True; [done|]. unfold LONG_STR_SIZE. lia.
  - destruct (lpStringToInt64_ok s) as (r & Hr & _). rewrite Hr. cbn [mbind option_bind].
    destruct r; eexists; (split; [done|]); done.
Qed.

Lemma lpFind_test_ok m p n e s v sz :
  ent_ok e -> bytes_at m p (enc e) -> LP_HDR_SIZE <= p -> p + ent_size e < n -> venc_ok s v ->
  exists v', lpFind_test m p n s (zlen s) v sz = Some (text_is e s, v', ent_size e) /\ venc_ok s v'.
Proof.
  intros He Hat Hp Hn Hv. unfold lpFind_test. rewrite (ent_read m p e He Hat). cbn [mbind option_bind].
  unfold got, text_is. destruct (val e) as [t|n'] eqn:Hval; cbn [default id].
  - rewrite assert_True by (cbn [default id]; lia). cbn [mbind option_bind]. exists v. split; [|done].
    case_decide as Hz.
    + rewrite (lp_memcmp_ok m _ t) by (done || by apply ent_str_at). done.
    + rewrite bool_decide_false; [done|]. by intros ->.
  - destruct (lpFind_encode_ok s v Hv) as (v' & -> & Hv' & Hne). cbn [mbind option_bind].
    exists v'. split; [|done]. do 3 f_equal. destruct v'; cbn [venc_ok] in Hv'; [done|..]; rewrite Hv'.
    + by rewrite bool_decide_false.
    + apply bool_decide_ext. split; congruence.
Qed.

Lemma lpFind_check_ok m n p ps :
  lp_chain m n p ps -> LP_HDR_SIZE <= p -> p < n -> lpFind_check m p n = Some tt.
Proof.
  intros Hc Hp Hn. unfold lpFind_check. case_decide; [|by rewrite assert_True by lia].
  destruct Hc as [p Hp' Hb|p p' ps Hv _ _].
  - unfold lpAssertValidEntry, lpValidateNext, OUT_OF_RANGE. rewrite decide_False by lia.
    rewrite Hb. cbn [mbind option_bind]. by rewrite decide_True.
  - unfold lpAssertValidEntry. by rewrite Hv.
Qed.

Lemma snoc_split {A} (l1 : list A) x l2 : l1 ++ x :: l2 = (l1 ++ [x]) ++ l2.
Proof. by rewrite <- app_assoc. Qed.

(** The state after moving over one entry of [lpFind]. *)
Lemma lpFind_next m es1 e es2 :
  lp_rep m (es1 ++ e :: es2) ->
  let p' := LP_HDR_SIZE + zlen (body es1) + ent_size e in
  p' = LP_HDR_SIZE + zlen (body (es1 ++ [e])) /\
  lpFind_check m p' (total (es1 ++ e :: es2)) = Some tt /\
  exists b, peek m p' = Some b /\ (b = LP_EOF <-> es2 = []).
Proof.
  intros H p'. assert (p' = LP_HDR_SIZE + zlen (body (es1 ++ [e]))) as Hp'.
  { unfold p'. rewrite body_app, zlen_app, body_single, zlen_entry_bytes. lia. }
  split; [done|]. rewrite Hp'. rewrite (snoc_split es1 e es2) in H |- *. split; [|by apply rep_eof].
  pose proof (rep_chain _ _ H) as Hc. rewrite positions_app in Hc. apply chain_app in Hc.
  rewrite (positions_head m) in Hc by done.
  apply (lpFind_check_ok m _ _ _ Hc); unfold LP_HDR_SIZE, total; rewrite ?body_app, ?zlen_app; zlen_nonneg_all; lia.
Qed.

Lemma lpFind_loop_ok m s skip es2 : forall fuel es1 cnt v sz,
  lp_rep m (es1 ++ es2) -> es2 <> [] -> (length es2 <= fuel)%nat -> Z.of_nat skip < 2 ^ 31 ->
  (cnt <= skip)%nat -> venc_ok s v ->
  let p := LP_HDR_SIZE + zlen (body es1) in
  lpFind_loop fuel m p (total (es1 ++ es2)) s (zlen s) (Z.of_nat skip) (Z.of_nat cnt) v sz =
  Some (find_spec skip cnt s p es2).
Proof.
  induction es2 as [|e es2 IH]; intros fuel es1 cnt v sz H Hne Hf Hskip Hcnt Hv p; [done|].
  destruct fuel as [|fuel]; [cbn in Hf; lia|]. destruct (rep_entry m _ H _ _ _ eq_refl) as [He Hat].
  destruct (lpFind_next m es1 e es2 H) as (Hp' & Hchk & b & Hb & Hiff).
  assert (forall v' sz' cnt', venc_ok s v' -> (cnt' <= skip)%nat ->
    (_ ← lpFind_check m (p + ent_size e) (total (es1 ++ e :: es2));
     b ← peek m (p + ent_size e);
     if decide (b = LP_EOF) then Some None
     else lpFind_loop fuel m (p + ent_size e) (total (es1 ++ e :: es2)) s (zlen s) (Z.of_nat skip)
            (Z.of_nat cnt') v' sz') = Some (find_spec skip cnt' s (p + ent_size e) es2)) as Hnext.
  { intros v' sz' cnt' Hv' Hc'. fold p in Hchk, Hb, Hp'. rewrite Hchk. cbn [mbind option_bind].
    rewrite Hb. cbn [mbind option_bind]. case_decide as Hd; [apply Hiff in Hd as ->; done|].
    rewrite Hp'. rewrite (snoc_split es1 e es2) in H |- *.
    apply IH; [done| |cbn in Hf; lia|done|done|done]. by rewrite <- Hiff. }
  cbn [lpFind_loop]. fold p in Hat. destruct cnt as [|cnt].
  - rewrite decide_True by done. pose proof Hat as Hat'. apply bytes_at_app in Hat' as [Hat' _].
    destruct (lpFind_test_ok m p (total (es1 ++ e :: es2)) e s v sz He Hat') as (v' & -> & Hv').
    { unfold p, LP_HDR_SIZE. zlen_nonneg_all. lia. }
    { unfold p, total, LP_HDR_SIZE. rewrite body_app, zlen_app, zlen_body_cons. zlen_nonneg_all. lia. }
    { done. }
    cbn [mbind option_bind]. cbn [find_spec]. destruct (text_is e s); [done|].
    unfold i32. rewrite swrap_small by (unfold in_i; lia). by apply Hnext.
  - rewrite decide_False by lia. pose proof (rep_fits _ _ H) as Hfit.
    destruct (lpSkip_entry m p e He Hat) as (-> & _).
    { unfold total in Hfit. rewrite body_app, zlen_app, zlen_body_cons in Hfit. zlen_nonneg_all. lia. }
    cbn [mbind option_bind]. unfold i32. rewrite swrap_small by (unfold in_i; lia).
    replace (Z.of_nat (S cnt) - 1) with (Z.of_nat cnt) by lia. apply Hnext; [done|lia].
Qed.

Lemma lpFind_ok m es1 es2 s skip :
  lp_rep m (es1 ++ es2) -> es2 <> [] -> 0 <= skip < 2 ^ 31 ->
  let p := LP_HDR_SIZE + zlen (body es1) in
  lpFind m p s (zlen s) skip = Some (find_spec (Z.to_nat skip) 0 s p es2).
Proof.
  intros H Hne Hs p. unfold lpFind. rewrite (rep_bytes _ _ H). cbn [mbind option_bind].
  pose proof (lpFind_loop_ok m s (Z.to_nat skip) es2 (length m) es1 0 NotTried 123456789) as Hl.
  rewrite Z2Nat.id in Hl by lia. apply Hl; [done|done| |lia|lia|done].
  pose proof (rep_block _ _ H). pose proof (zlen_body_le (es1 ++ es2)). unfold total in *.
  rewrite zlen_app in *. unfold zlen in *. lia.
Qed.
