(* ===== verification/ListpackSpec.v ===== *)
(** * What listpacks promise

    The contract of listpack.c: a listpack is a list of byte strings, every
    operation acts on that list, walks and lookups read it, and the integrity
    check of untrusted bytes never reads outside them and accepts only bytes
    that can be walked in both directions. *)

From S2P Require Import Prelude Util Listpack ListpackOps.

#[local] Set Default Proof Using "Type".

(** The listpack in [m] holds the strings [ts]. *)
Definition lp_list (m : bytes) (ts : list bytes) : Prop :=
  exists es, lp_rep m es /\ Forall2 ent_text es ts.

(** An element given to the operations, and its text. *)
Inductive lp_item := ItemStr (s : bytes) | ItemInt (v : Z).

Definition item_text (x : lp_item) (t : bytes) : Prop :=
  match x with
  | ItemStr s => t = s /\ zlen s < 2 ^ 32
  | ItemInt v => sdecimal t v /\ in_i 64 v
  end.

(** A sequence of operations, as clients compose them: the position is found
    with [lpSeek] and an index out of range leaves the listpack alone. *)
Inductive lp_op :=
  | OpAppend (x : lp_item)
  | OpPrepend (x : lp_item)
  | OpInsert (index : Z) (w : lp_where) (x : lp_item)
  | OpDelete (index : Z)
  | OpDeleteRange (index num : Z).

Section run.
Variable junk : nat -> Z.
Variable usable : Z -> Z.

(** The listpack of a result, without [*newp]. *)
Definition lp_of (r : option (option (bytes * option Z))) : option (option bytes) :=
  r ← r; Some (match r with Some (lp, _) => Some lp | None => None end).

Definition run_insert (m : bytes) (x : lp_item) (p : Z) (w : lp_where) :
    option (option (bytes * option Z)) :=
  match x with
  | ItemStr s => lpInsertString junk usable m s p w
  | ItemInt v => lpInsertInteger junk usable m v p w
  end.

Definition run_append (m : bytes) (x : lp_item) : option (option (bytes * option Z)) :=
  match x with ItemStr s => lpAppend junk usable m s | ItemInt v => lpAppendInteger junk usable m v end.

Definition run_prepend (m : bytes) (x : lp_item) : option (option (bytes * option Z)) :=
  match x with ItemStr s => lpPrepend junk usable m s | ItemInt v => lpPrependInteger junk usable m v end.

Definition run_op (m : bytes) (op : lp_op) : option (option bytes) :=
  match op with
  | OpAppend x => lp_of (run_append m x)
  | OpPrepend x => lp_of (run_prepend m x)
  | OpInsert index w x =>
    p ← lpSeek m index;
    match p with Some p => lp_of (run_insert m x p w) | None => Some (Some m) end
  | OpDelete index =>
    p ← lpSeek m index;
    match p with Some p => lp_of (lpDelete junk usable m p) | None => Some (Some m) end
  | OpDeleteRange index num => m ← lpDeleteRange junk usable m index num; Some (Some m)
  end.

Fixpoint run_ops (m : bytes) (ops : list lp_op) : option (option bytes) :=
  match ops with
  | [] => Some (Some m)
  | op :: ops =>
    r ← run_op m op;
    match r with Some m => run_ops m ops | None => Some None end
  end.
End run.

(** The same operation on a list of strings; [t] is the text of its element. *)
Definition spec_op (ts : list bytes) (op : lp_op) (t : bytes) : list bytes :=
  let at_index index f :=
    let i := norm_index (zlen ts) index in
    if decide (0 <= i < zlen ts) then f (Z.to_nat i) else ts in
  match op with
  | OpAppend _ => ts ++ [t]
  | OpPrepend _ => t :: ts
  | OpInsert index w _ =>
    at_index index (fun i =>
      match w with
      | LP_BEFORE => take i ts ++ t :: drop i ts
      | LP_AFTER => take (S i) ts ++ t :: drop (S i) ts
      | LP_REPLACE => take i ts ++ t :: drop (S i) ts
      end)
  | OpDelete index => at_index index (fun i => take i ts ++ drop (S i) ts)
  | OpDeleteRange index num => at_index index (fun i => take i ts ++ drop (i + Z.to_nat num) ts)
  end.

Definition op_ok (op : lp_op) (t : bytes) : Prop :=
  match op with
  | OpAppend x | OpPrepend x | OpInsert _ _ x => item_text x t
  | OpDelete _ => True
  | OpDeleteRange _ num => in_u 64 num
  end.

Definition spec_ops (ts : list bytes) (ops : list (lp_op * bytes)) : list bytes :=
  foldl (fun ts o => spec_op ts o.1 o.2) ts ops.

(** An upper bound of the bytes a list of strings needs. *)
Definition text_size (ts : list bytes) : Z := 7 + Z.of_nat (sum_list_with (fun t => (length t + 10)%nat) ts).

Definition op_size (o : lp_op * bytes) : Z :=
  match o.1 with OpDelete _ | OpDeleteRange _ _ => 0 | _ => zlen o.2 + 10 end.

Lemma ent_size_text e t : ent_ok e -> ent_text e t -> ent_size e <= zlen t + 10.
Proof.
  intros He Ht. unfold ent_size. pose proof (backlen_size_range (zlen (enc e))) as Hb.
  destruct (val e) as [s|v] eqn:Hv.
  - unfold ent_text in Ht. rewrite Hv in Ht. subst t. destruct e; cbn in Hv; simplify_eq; cbn [enc];
      autorewrite with zlen in *; cbn [enc] in Hb; autorewrite with zlen in Hb; lia.
  - assert (zlen (enc e) <= 9) as Hl.
    { destruct e; cbn in Hv; simplify_eq; cbn [enc]; autorewrite with zlen; lia. }
    assert (lpBacklenSize (zlen (enc e)) = 1) as ->.
    { unfold lpBacklenSize, lpEncodeBacklen. by rewrite decide_True by lia. }
    zlen_nonneg_all. lia.
Qed.

Lemma text_size_app ts1 ts2 : text_size (ts1 ++ ts2) = text_size ts1 + text_size ts2 - 7.
Proof. unfold text_size. rewrite sum_list_with_app. lia. Qed.

Lemma text_size_cons t ts : text_size (t :: ts) = text_size ts + (zlen t + 10).
Proof. unfold text_size, zlen. cbn [sum_list_with]. lia. Qed.

Lemma total_text es ts : Forall ent_ok es -> Forall2 ent_text es ts -> total es <= text_size ts.
Proof.
  intros Hok H2. unfold total. revert Hok. induction H2 as [|e t es ts Ht _ IH]; intros Hok.
  - done.
  - apply Forall_cons in Hok as [He Hok]. rewrite zlen_body_cons, text_size_cons.
    pose proof (ent_size_text e t He Ht). specialize (IH Hok). lia.
Qed.

(** Taking parts of the list. *)
Lemma text_size_take_drop ts i k :
  text_size (take i ts ++ drop (i + k) ts) <= text_size ts.
Proof.
  rewrite (take_drop_parts ts i k) at 3. rewrite !text_size_app.
  assert (7 <= text_size (take k (drop i ts))) by (unfold text_size; lia). lia.
Qed.

Section refine.
Variable junk : nat -> Z.
Variable usable : Z -> Z.
Hypothesis usable_ge : forall n, n <= usable n.

Definition item_ele (x : lp_item) : lp_ele :=
  match x with ItemStr s => EleStr s | ItemInt v => EleInt (lpEncodeIntegerGetType v) end.

(** The entry for an item: that of the shortest encoding. *)
Definition item_ent (x : lp_item) (e : lp_ent) : Prop :=
  match x with ItemStr s => ele_ent s e | ItemInt v => e = int_ent v end.

Lemma item_encoded x t :
  item_text x t -> exists e, stores (item_ele x) [e] /\ ent_ok e /\ ent_text e t /\ item_ent x e.
Proof.
  destruct x as [s|v]; cbn [item_text item_ele stores item_ent].
  - intros [-> Hs]. destruct (lpInsert_encode_str s Hs) as (e & Henc & Hok & Ht & He). eauto 10.
  - intros [Ht Hv]. destruct (lpEncodeIntegerGetType_ok v Hv) as (Henc & Hok & Hval).
    exists (int_ent v). split_and!; [|done|unfold ent_text; by rewrite Hval|done].
    eexists. split_and!; [done|done|]. cbn [lpInsert_encode]. by rewrite Henc.
Qed.

Lemma item_stores x t :
  item_text x t -> exists e, stores (item_ele x) [e] /\ ent_ok e /\ ent_text e t.
Proof. intros H. destruct (item_encoded x t H) as (e & ? & ? & ? & _). eauto. Qed.

(** One insertion, replacement or deletion, on the strings. *)
Lemma lpInsert_list m es1 oes es2 ts1 nts ts2 ele w nes :
  lp_rep m (es1 ++ oes ++ es2) -> stores ele nes -> replaces ele w oes -> Forall ent_ok nes ->
  Forall2 ent_text es1 ts1 -> Forall2 ent_text nes nts -> Forall2 ent_text es2 ts2 ->
  text_size (ts1 ++ nts ++ ts2) <= UINT32_MAX ->
  exists m', lp_of (lpInsert junk usable m ele (LP_HDR_SIZE + zlen (body es1)) w) = Some (Some m') /\
    lp_list m' (ts1 ++ nts ++ ts2).
Proof using usable_ge.
  intros Hrep Hst Hre Hok H1 Hn H2 Hsz.
  assert (Forall2 ent_text (es1 ++ nes ++ es2) (ts1 ++ nts ++ ts2)) as HF by (by repeat apply Forall2_app).
  pose proof (lpInsert_ok junk usable usable_ge m es1 oes es2 ele w nes Hrep Hst Hre) as Hins. cbn zeta in Hins.
  rewrite decide_True in Hins.
  - destruct Hins as (m' & -> & Hrep'). exists m'. split; [done|]. by exists (es1 ++ nes ++ es2).
  - etrans; [|exact Hsz]. apply total_text; [|done].
    pose proof (rep_ents _ _ Hrep) as He. rewrite !Forall_app in *. tauto.
Qed.

(** The entries before and after a new one: [lpInsert] is called with the entry
    that follows [es1], or with the terminator to insert before it. *)
Definition insert_at (w : lp_where) (es1 es2 : list lp_ent) : option (list lp_ent * list lp_ent) :=
  match w, es2 with
  | LP_BEFORE, _ => Some (es1, es2)
  | LP_AFTER, e :: es2 => Some (es1 ++ [e], es2)
  | LP_REPLACE, e :: es2 => Some (es1, es2)
  | _, [] => None
  end.

Lemma lpInsert_item m es1 es2 x e w pre post :
  lp_rep m (es1 ++ es2) -> stores (item_ele x) [e] -> insert_at w es1 es2 = Some (pre, post) ->
  let p := LP_HDR_SIZE + zlen (body es1) in
  if decide (total (pre ++ e :: post) <= UINT32_MAX) then
    exists m', lpInsert junk usable m (item_ele x) p w = Some (Some (m', Some (LP_HDR_SIZE + zlen (body pre)))) /\ lp_rep m' (pre ++ e :: post)
  else lpInsert junk usable m (item_ele x) p w = Some None.
Proof using usable_ge.
  intros Hrep Hst Hat p. destruct w; [injection Hat as <- <-|destruct es2 as [|o es2]; [done|injection Hat as <- <-]..].
  - apply (lpInsert_ok junk usable usable_ge m es1 [] es2 (item_ele x) LP_BEFORE [e]); [done|done|by destruct x].
  - unfold p. rewrite (lpInsert_after_ok junk usable m es1 o es2) by (done || by destruct x). rewrite (snoc_split es1 o es2) in Hrep.
    apply (lpInsert_ok junk usable usable_ge m (es1 ++ [o]) [] es2 (item_ele x) LP_BEFORE [e]); [done|done|by destruct x].
  - apply (lpInsert_ok junk usable usable_ge m es1 [o] es2 (item_ele x) LP_REPLACE [e]); [done|done|by destruct x; exists o].
Qed.

(** A deletion makes the block smaller. *)
Lemma lpInsert_delete m es1 e es2 w :
  lp_rep m (es1 ++ e :: es2) -> let p := LP_HDR_SIZE + zlen (body es1) in
  exists m', lpInsert junk usable m EleDelete p w = Some (Some (m', head (positions p es2))) /\ lp_rep m' (es1 ++ es2).
Proof using usable_ge.
  intros Hrep p. pose proof (lpInsert_ok junk usable usable_ge m es1 [e] es2 EleDelete w [] Hrep eq_refl) as H. cbn zeta in H.
  rewrite decide_True in H; [apply H; by exists e|]. pose proof (rep_fits _ _ Hrep) as Hfit. unfold total, UINT32_MAX in *. rewrite !body_app, !zlen_app in *.
  rewrite zlen_body_cons in Hfit. pose proof (ent_size_pos e). change (zlen (body [])) with 0. lia.
Qed.

(** The entry at an index. *)
Lemma list_at m ts index :
  lp_list m ts ->
  let i := norm_index (zlen ts) index in
  (~ (0 <= i < zlen ts) /\ lpSeek m index = Some None) \/
  (0 <= i < zlen ts /\ exists es1 e es2 t,
     lp_rep m (es1 ++ e :: es2) /\ lpSeek m index = Some (Some (LP_HDR_SIZE + zlen (body es1))) /\
     Forall2 ent_text es1 (take (Z.to_nat i) ts) /\ ent_text e t /\
     Forall2 ent_text es2 (drop (S (Z.to_nat i)) ts) /\
     ts = take (Z.to_nat i) ts ++ t :: drop (S (Z.to_nat i)) ts).
Proof.
  intros (es & Hrep & HF) i. pose proof (Forall2_length _ _ _ HF) as Hlen.
  assert (zlen es = zlen ts) as Hz by (unfold zlen; lia).
  rewrite (lpSeek_ok m es) by done. rewrite seek_norm, zlen_positions, Hz. fold i. cbn zeta.
  destruct (decide (0 <= i < zlen ts)) as [Hi|Hi]; [right|left].
  - split; [done|]. rewrite decide_True by lia.
    destruct (lookup_lt_is_Some_2 ts (Z.to_nat i)) as [t Ht]; [unfold zlen in Hi; lia|].
    destruct (Forall2_lookup_r _ _ _ _ _ HF Ht) as (e & He & Het).
    exists (take (Z.to_nat i) es), e, (drop (S (Z.to_nat i)) es), t.
    rewrite (take_drop_middle es _ e He), (take_drop_middle ts _ t Ht).
    split_and!; [done| |by apply Forall2_take|done|by apply Forall2_drop|done].
    f_equal. apply positions_lookup. split; [|done]. unfold zlen in Hi. lia.
  - split; [done|]. case_decide; [|done]. f_equal. apply lookup_ge_None.
    pose proof (zlen_positions LP_HDR_SIZE es). unfold zlen in *. lia.
Qed.

Lemma text_size_mid ts1 t ts2 : text_size (ts1 ++ t :: ts2) = text_size (ts1 ++ ts2) + (zlen t + 10).
Proof. rewrite !text_size_app, text_size_cons. lia. Qed.

Lemma run_insert_ok m ts index w x t :
  lp_list m ts -> item_text x t -> text_size ts + (zlen t + 10) <= UINT32_MAX ->
  exists m', run_op junk usable m (OpInsert index w x) = Some (Some m') /\
    lp_list m' (spec_op ts (OpInsert index w x) t).
Proof using usable_ge.
  intros Hl Hx Hsz. destruct (item_stores x t Hx) as (e' & Hst & Hok & Ht').
  assert (forall p w, run_insert junk usable m x p w = lpInsert junk usable m (item_ele x) p w) as Hri.
  { intros. destruct x; done. }
  cbn [run_op spec_op]. destruct (list_at m ts index Hl) as [[Hi ->]|[Hi Hat]]; cbn [mbind option_bind].
  { exists m. split; [done|]. by rewrite decide_False. }
  destruct Hat as (es1 & e & es2 & u & Hrep & -> & H1 & Heu & H2 & Ets). cbn [mbind option_bind].
  rewrite (decide_True (P := 0 <= _ < _)) by done. rewrite Hri.
  set (i := Z.to_nat (norm_index (zlen ts) index)) in *.
  assert (Forall2 ent_text [e'] [t]) as Hn by (by repeat constructor).
  assert (Forall ent_ok [e']) as Hoks by (by repeat constructor).
  assert (drop i ts = u :: drop (S i) ts /\ take (S i) ts = take i ts ++ [u]) as [Ed Et].
  { rewrite Ets at 1 3. assert (length (take i ts) = i) as Hi'.
    { rewrite length_take. unfold i, zlen in *. lia. }
    split; [by rewrite drop_app_length'|]. rewrite take_app_ge, Hi' by lia.
    by replace (S i - i)%nat with 1%nat by lia. }
  destruct w.
  - rewrite Ed. apply (lpInsert_list m es1 [] (e :: es2) (take i ts) [t] (u :: drop (S i) ts) _ _ [e']);
      [done|done|by destruct x|done|done|done|by constructor|].
    cbn [app]. rewrite text_size_mid. rewrite <- Ets. done.
  - rewrite (lpInsert_after_ok junk usable m es1 e es2) by (done || by destruct x).
    rewrite Et. rewrite (snoc_split es1 e es2) in Hrep.
    apply (lpInsert_list m (es1 ++ [e]) [] es2 (take i ts ++ [u]) [t] (drop (S i) ts) _ _ [e']);
      [done|done|by destruct x|done|apply Forall2_app; [done|by repeat constructor]|done|done|].
    cbn [app]. rewrite text_size_mid. rewrite <- app_assoc. cbn [app]. rewrite <- Ets. done.
  - apply (lpInsert_list m es1 [e] es2 (take i ts) [t] (drop (S i) ts) _ _ [e']);
      [done|done|destruct x; by exists e|done|done|done|done|].
    cbn [app]. rewrite text_size_mid. rewrite Ets in Hsz at 1. rewrite text_size_mid in Hsz.
    zlen_nonneg_all. lia.
Qed.

Lemma run_delete_ok m ts index t :
  lp_list m ts -> text_size ts <= UINT32_MAX ->
  exists m', run_op junk usable m (OpDelete index) = Some (Some m') /\
    lp_list m' (spec_op ts (OpDelete index) t).
Proof using usable_ge.
  intros Hl Hsz. unfold run_op, spec_op.
  destruct (list_at m ts index Hl) as [[Hi ->]|[Hi Hat]]; cbn [mbind option_bind].
  { exists m. split; [done|]. by rewrite decide_False. }
  destruct Hat as (es1 & e & es2 & u & Hrep & -> & H1 & Heu & H2 & Ets). cbn [mbind option_bind].
  rewrite (decide_True (P := 0 <= _ < _)) by done.
  set (i := Z.to_nat (norm_index (zlen ts) index)) in *.
  apply (lpInsert_list m es1 [e] es2 (take i ts) [] (drop (S i) ts) EleDelete LP_REPLACE []);
    [done|done|by exists e|done|done|done|done|].
  rewrite app_nil_l. rewrite Ets in Hsz. rewrite text_size_mid in Hsz. zlen_nonneg_all. lia.
Qed.

Lemma run_append_ok m ts x t :
  lp_list m ts -> item_text x t -> text_size ts + (zlen t + 10) <= UINT32_MAX ->
  exists m', run_op junk usable m (OpAppend x) = Some (Some m') /\ lp_list m' (ts ++ [t]).
Proof using usable_ge.
  intros (es & Hrep & HF) Hx Hsz. destruct (item_stores x t Hx) as (e' & Hst & Hok & Ht').
  cbn [run_op]. pose proof (rep_bytes _ _ Hrep) as Hn. unfold lpBytes in Hn.
  assert (run_append junk usable m x =
          lpInsert junk usable m (item_ele x) (LP_HDR_SIZE + zlen (body es)) LP_BEFORE) as ->.
  { destruct x; cbn [run_append]; unfold lpAppend, lpAppendInteger; rewrite Hn; cbn [mbind option_bind];
      by rewrite (rep_end m). }
  pose proof (lpInsert_list m es [] [] ts [t] [] (item_ele x) LP_BEFORE [e']) as H.
  rewrite !app_nil_r in H. apply H; [done|done|by destruct x|by constructor|done|by repeat constructor|done|].
  rewrite text_size_app, text_size_cons. unfold text_size in *. cbn. lia.
Qed.

Lemma run_prepend_ok m ts x t :
  lp_list m ts -> item_text x t -> text_size ts + (zlen t + 10) <= UINT32_MAX ->
  exists m', run_op junk usable m (OpPrepend x) = Some (Some m') /\ lp_list m' (t :: ts).
Proof using usable_ge.
  intros Hl Hx Hsz. pose proof Hl as (es & Hrep & HF).
  assert (lpFirst m = Some (head (positions LP_HDR_SIZE es))) as Hfirst.
  { apply (lpFirst_chain m (total es)); [by apply rep_chain|by apply rep_bytes]. }
  destruct es as [|e es].
  - apply Forall2_nil_inv_l in HF as ->. destruct (run_append_ok m [] x t Hl Hx Hsz) as (m' & Hm & Hl').
    exists m'. split; [|done]. rewrite <- Hm. cbn [run_op]. f_equal.
    destruct x; cbn [run_prepend run_append]; unfold lpPrepend, lpPrependInteger; by rewrite Hfirst.
  - destruct (item_stores x t Hx) as (e' & Hst & Hok & Ht'). cbn [run_op].
    assert (run_prepend junk usable m x =
            lpInsert junk usable m (item_ele x) (LP_HDR_SIZE + zlen (body [])) LP_BEFORE) as ->.
    { destruct x; cbn [run_prepend]; unfold lpPrepend, lpPrependInteger; by rewrite Hfirst. }
    apply (lpInsert_list m [] [] (e :: es) [] [t] ts (item_ele x) LP_BEFORE [e']);
      [done|done|by destruct x|by constructor|done|by repeat constructor|done|].
    cbn [app]. by rewrite text_size_cons.
Qed.

Lemma run_deleteRange_ok m ts index num t :
  lp_list m ts -> in_u 64 num ->
  exists m', run_op junk usable m (OpDeleteRange index num) = Some (Some m') /\
    lp_list m' (spec_op ts (OpDeleteRange index num) t).
Proof using usable_ge.
  intros (es & Hrep & HF) Hnum. cbn [run_op spec_op].
  destruct (lpDeleteRange_ok junk usable usable_ge m es index num Hrep Hnum) as (m' & -> & Hrep').
  cbn [mbind option_bind]. exists m'. split; [done|]. eexists. split; [done|].
  assert (zlen es = zlen ts) as -> by (unfold zlen; f_equal; by eapply Forall2_length).
  clear Hrep'. case_decide; [|done].
  apply Forall2_app; [by apply Forall2_take|by apply Forall2_drop].
Qed.

Lemma spec_op_size ts op t : text_size (spec_op ts op t) <= text_size ts + op_size (op, t).
Proof.
  destruct op as [x|x|index w x|index|index num]; cbn [spec_op op_size fst snd].
  - rewrite text_size_app, text_size_cons. unfold text_size. cbn. lia.
  - rewrite text_size_cons. lia.
  - case_decide; [|zlen_nonneg_all; lia]. set (i := Z.to_nat _).
    destruct w; rewrite text_size_mid; rewrite ?take_drop; [lia|lia|].
    pose proof (text_size_take_drop ts i 1) as Htd. rewrite Nat.add_1_r in Htd. lia.
  - case_decide; [|lia]. set (i := Z.to_nat _).
    pose proof (text_size_take_drop ts i 1) as Htd. rewrite Nat.add_1_r in Htd. lia.
  - case_decide; [|lia]. pose proof (text_size_take_drop ts (Z.to_nat (norm_index (zlen ts) index)) (Z.to_nat num)). lia.
Qed.

Lemma op_size_nonneg o : 0 <= op_size o.
Proof. unfold op_size. destruct o as [[] t]; cbn [fst snd]; zlen_nonneg_all; lia. Qed.

Lemma run_op_ok m ts op t :
  lp_list m ts -> op_ok op t -> text_size ts + op_size (op, t) <= UINT32_MAX ->
  exists m', run_op junk usable m op = Some (Some m') /\ lp_list m' (spec_op ts op t).
Proof using usable_ge.
  intros Hl Hok Hsz. destruct op; cbn [op_ok op_size fst snd] in *.
  - by apply run_append_ok.
  - by apply run_prepend_ok.
  - by apply run_insert_ok.
  - apply run_delete_ok; [done|lia].
  - by apply run_deleteRange_ok.
Qed.

(** The bytes that suffice for a sequence of operations. *)
Definition ops_size (ts : list bytes) (ops : list (lp_op * bytes)) : Z :=
  foldr (fun o n => op_size o + n) (text_size ts) ops.

Lemma ops_size_mono ts ts' ops :
  ops_size ts' ops - text_size ts' = ops_size ts ops - text_size ts.
Proof. induction ops as [|o ops IH]; unfold ops_size in *; cbn [foldr]; lia. Qed.

Lemma ops_size_ge ts ops : text_size ts <= ops_size ts ops.
Proof.
  induction ops as [|o ops IH]; unfold ops_size in *; cbn [foldr]; [lia|].
  pose proof (op_size_nonneg o). lia.
Qed.

Lemma run_ops_ok ops : forall m ts,
  lp_list m ts -> Forall (fun o => op_ok o.1 o.2) ops -> ops_size ts ops <= UINT32_MAX ->
  exists m', run_ops junk usable m (ops.*1) = Some (Some m') /\ lp_list m' (spec_ops ts ops).
Proof using usable_ge.
  induction ops as [|[op t] ops IH]; intros m ts Hl Hok Hsz.
  { by exists m. }
  apply Forall_cons in Hok as [Hop Hok]. cbn [fst snd] in Hop.
  pose proof (ops_size_ge ts ops). unfold ops_size in Hsz. cbn [foldr] in Hsz.
  fold (ops_size ts ops) in Hsz.
  destruct (run_op_ok m ts op t Hl Hop) as (m1 & Hm1 & Hl1); [lia|].
  cbn [fmap list_fmap fst run_ops]. rewrite Hm1. cbn [mbind option_bind].
  destruct (IH m1 (spec_op ts op t) Hl1 Hok) as (m' & Hm' & Hl').
  { pose proof (ops_size_mono ts (spec_op ts op t) ops). pose proof (spec_op_size ts op t). lia. }
  exists m'. split; [done|]. done.
Qed.
End refine.

(** ** The claims *)

(** C8: a listpack implements a list of strings: from a new listpack, any
    sequence of appends, prepends, insertions before, after and in place of
    an entry, deletions and range deletions, of strings or integers, at any
    index, runs inside its block and leaves the strings that the same
    operations leave in a list, as long as the strings can fit in 2^32-1
    bytes. *)
Theorem lp_refines_list junk usable capacity ops :
  (forall n, n <= usable n) -> Forall (fun o => op_ok o.1 o.2) ops -> ops_size [] ops <= UINT32_MAX ->
  exists m m', lpNew junk usable capacity = Some m /\
    run_ops junk usable m (ops.*1) = Some (Some m') /\ lp_list m' (spec_ops [] ops).
Proof.
  intros Hu Hok Hsz. destruct (lpNew_ok junk usable Hu capacity) as (m & Hm & Hrep).
  destruct (run_ops_ok junk usable Hu ops m []) as (m' & Hm' & Hl); [by exists []|done|done|]. eauto.
Qed.

Lemma lp_refines_list_witness :
  exists m m', lpNew (fun _ => 0) (fun n => n) 0 = Some m /\
    run_ops (fun _ => 0) (fun n => n) m
      [OpAppend (ItemStr [104; 105]); OpPrepend (ItemInt 300); OpInsert (-1) LP_REPLACE (ItemStr [49; 50]);
       OpInsert 0 LP_AFTER (ItemStr [97]); OpDelete 0] = Some (Some m') /\
    lp_list m' [[97]; [49; 50]].
Proof.
  apply (lp_refines_list (fun _ => 0) (fun n => n) 0
    [(OpAppend (ItemStr [104; 105]), [104; 105]); (OpPrepend (ItemInt 300), [51; 48; 48]);
     (OpInsert (-1) LP_REPLACE (ItemStr [49; 50]), [49; 50]); (OpInsert 0 LP_AFTER (ItemStr [97]), [97]);
     (OpDelete 0, [])]).
  - intros n. lia.
  - repeat (apply Forall_cons; split); [done| |done|done|done|by apply Forall_nil].
    split; [|done]. left. split; [done|]. split_and!; [done| |done|done].
    repeat (apply Forall_cons; split); [done|done|done|by apply Forall_nil].
  - vm_compute. discriminate.
Defined.

(** The strings met on a walk from [p] with [step]. *)
Fixpoint walk (step : bytes -> Z -> option (option Z)) (fuel : nat) (m : bytes) (p : option Z)
    (intbuf : bytes) : option (list bytes) :=
  match p with
  | None => Some []
  | Some p =>
    match fuel with
    | O => None
    | S fuel =>
      t ← lpGetString m p intbuf;
      p ← step m p;
      ts ← walk step fuel m p intbuf;
      Some (t :: ts)
    end
  end.

Section walk.
Variables (m : bytes) (es : list lp_ent) (ts : list bytes) (intbuf : bytes).
Hypothesis Hrep : lp_rep m es.
Hypothesis HF : Forall2 ent_text es ts.
Hypothesis Hbuf : LP_INTBUF_SIZE <= zlen intbuf.

Lemma entry_string es1 e es2 t :
  es = es1 ++ e :: es2 -> ent_text e t ->
  lpGetString m (LP_HDR_SIZE + zlen (body es1)) intbuf = Some t.
Proof using Hrep Hbuf.
  intros E Ht. destruct (rep_entry m es Hrep es1 e es2 E) as [He Hat].
  apply bytes_at_app in Hat as [Hat _]. by apply (lpGetString_ok _ _ e).
Qed.

Lemma walk_forward es2 : forall fuel es1 ts2,
  es = es1 ++ es2 -> Forall2 ent_text es2 ts2 -> (length es2 <= fuel)%nat ->
  walk lpNext fuel m (head (positions (LP_HDR_SIZE + zlen (body es1)) es2)) intbuf = Some ts2.
Proof using Hrep Hbuf.
  induction es2 as [|e es2 IH]; intros fuel es1 ts2 E H2 Hf.
  { apply Forall2_nil_inv_l in H2 as ->. by destruct fuel. }
  apply Forall2_cons_inv_l in H2 as (t & ts2' & Ht & H2 & ->).
  destruct fuel as [|fuel]; [cbn in Hf; lia|]. cbn [positions head walk].
  rewrite (entry_string es1 e es2 t E Ht). cbn [mbind option_bind].
  pose proof (rep_chain _ _ Hrep) as Hc. rewrite E, positions_app in Hc. cbn [positions] in Hc.
  rewrite E in Hrep. rewrite (lpNext_chain m _ _ Hc (rep_bytes _ _ Hrep) _ _ _ eq_refl).
  cbn [mbind option_bind]. rewrite E in IH.
  replace (LP_HDR_SIZE + zlen (body es1) + ent_size e) with (LP_HDR_SIZE + zlen (body (es1 ++ [e]))).
  2: { rewrite body_app, zlen_app, body_single, zlen_entry_bytes. lia. }
  rewrite (IH fuel (es1 ++ [e]) ts2'); [done|by rewrite <- app_assoc|done|cbn in Hf; lia].
Qed.

Lemma walk_backward es1 : forall fuel es2 ts1,
  es = es1 ++ es2 -> Forall2 ent_text es1 ts1 -> (length es1 <= fuel)%nat ->
  walk lpPrev fuel m (last (positions LP_HDR_SIZE es1)) intbuf = Some (reverse ts1).
Proof using Hrep Hbuf.
  induction es1 as [|e es1 IH] using rev_ind; intros fuel es2 ts1 E H1 Hf.
  { apply Forall2_nil_inv_l in H1 as ->. by destruct fuel. }
  apply Forall2_app_inv_l in H1 as (ts1' & u & H1 & Hu & ->).
  apply Forall2_cons_inv_l in Hu as (t & nil & Ht & Hnil & ->). apply Forall2_nil_inv_l in Hnil as ->.
  rewrite length_app in Hf. cbn in Hf. destruct fuel as [|fuel]; [lia|].
  rewrite positions_app. cbn [positions]. rewrite last_snoc. cbn [walk]. rewrite <- app_assoc in E. cbn [app] in E.
  rewrite (entry_string es1 e es2 t E Ht). cbn [mbind option_bind].
  pose proof (rep_chain _ _ Hrep) as Hc. rewrite E, positions_app in Hc. cbn [positions] in Hc.
  rewrite E in Hrep. pose proof (lpPrev_chain_last m _ _ Hc (rep_bytes _ _ Hrep) _ _ eq_refl) as Hp.
  change (lpPrev m (LP_HDR_SIZE + zlen (body es1)) = Some (last (positions LP_HDR_SIZE es1))) in Hp.
  rewrite Hp. cbn [mbind option_bind]. rewrite (IH fuel (e :: es2) ts1'); [|done|done|lia].
  cbn [mbind option_bind]. by rewrite reverse_snoc.
Qed.
End walk.

(** C33: walking a listpack from [lpFirst] with [lpNext] and reading every
    entry into a buffer gives its strings in order, and walking it from
    [lpLast] with [lpPrev] gives them in reverse: in particular strings stored
    as integers come back as the same bytes. *)
Theorem lp_walks m ts intbuf :
  lp_list m ts -> LP_INTBUF_SIZE <= zlen intbuf ->
  exists first last, lpFirst m = Some first /\ lpLast m = Some last /\
    walk lpNext (length m) m first intbuf = Some ts /\
    walk lpPrev (length m) m last intbuf = Some (reverse ts).
Proof.
  intros (es & Hrep & HF) Hbuf. pose proof (rep_chain _ _ Hrep) as Hc. pose proof (rep_bytes _ _ Hrep) as Hn.
  assert (length es <= length m)%nat as Hfuel.
  { pose proof (rep_block _ _ Hrep). pose proof (zlen_body_le es). unfold total, zlen in *. lia. }
  eexists _, _. split; [by apply (lpFirst_chain m _ _ Hc Hn)|].
  split; [by apply (lpLast_chain m _ _ Hc Hn)|]. split.
  - by apply (walk_forward m es intbuf Hrep Hbuf es (length m) [] ts).
  - apply (walk_backward m es intbuf Hrep Hbuf es (length m) [] ts); [by rewrite app_nil_r|done|done].
Qed.

(** A listpack with the entries 5 and "hi". *)
Definition lp_sample : bytes := [13; 0; 0; 0; 2; 0; 5; 1; 130; 104; 105; 3; 255].

Lemma lp_sample_ok : lp_rep lp_sample [U7 5; S6 [104; 105]].
Proof.
  split.
  - done.
  - repeat (apply Forall_cons; split); [cbn; lia|done|by apply Forall_nil].
  - split_and!; [done|done|reflexivity].
  - exists 2. split; [split_and!; [done|done|reflexivity]|by left].
  - split_and!; [done|done|reflexivity].
Qed.

Lemma lp_sample_texts : Forall2 ent_text [U7 5; S6 [104; 105]] [[53]; [104; 105]].
Proof.
  apply Forall2_cons. split; [|apply Forall2_cons; split; [done|by apply Forall2_nil]].
  left. split; [done|]. split_and!; [done| |done|intros t [=]].
  apply Forall_cons. split; [done|by apply Forall_nil].
Qed.

Lemma lp_walks_witness :
  exists first last, lpFirst lp_sample = Some first /\ lpLast lp_sample = Some last /\
    walk lpNext 13 lp_sample first (replicate 21 0) = Some [[53]; [104; 105]] /\
    walk lpPrev 13 lp_sample last (replicate 21 0) = Some [[104; 105]; [53]].
Proof.
  apply (lp_walks lp_sample [[53]; [104; 105]] (replicate 21 0)).
  - exists [U7 5; S6 [104; 105]]. split; [exact lp_sample_ok|exact lp_sample_texts].
  - vm_compute. discriminate.
Defined.

(** C34: [lpInsert] of a string or of an integer before the entry at [p] or the
    terminator, after the entry at [p], or in its place, keeps the other entries
    and stores between them one entry: the one of the shortest encoding for the
    integer, for the integer whose decimal text the string is, or for the bytes
    of the string.  The header count and the size are right, and the position of
    the new entry is returned; [NULL] is returned exactly when the result would
    not fit in 2^32-1 bytes.  A deletion, whatever the place, removes the entry
    at [p] and returns the position of the one that follows, or [NULL] at the
    end. *)
Theorem lpInsert_correct junk usable m es1 es2 :
  (forall n, n <= usable n) -> lp_rep m (es1 ++ es2) ->
  let p := LP_HDR_SIZE + zlen (body es1) in
  (forall x t w pre post, item_text x t -> insert_at w es1 es2 = Some (pre, post) ->
    exists e, item_ent x e /\ ent_text e t /\
    if decide (total (pre ++ e :: post) <= UINT32_MAX) then
      exists m', lpInsert junk usable m (item_ele x) p w = Some (Some (m', Some (LP_HDR_SIZE + zlen (body pre)))) /\
        lp_rep m' (pre ++ e :: post)
    else lpInsert junk usable m (item_ele x) p w = Some None) /\
  (forall e post w, es2 = e :: post ->
    exists m', lpInsert junk usable m EleDelete p w = Some (Some (m', head (positions p post))) /\ lp_rep m' (es1 ++ post)).
Proof.
  intros Hu Hrep p. split.
  - intros x t w pre post Hx Hat. destruct (item_encoded x t Hx) as (e & Hst & _ & Ht & He). exists e. split_and!; [done|done|]. by eapply lpInsert_item.
  - intros e post w ->. by eapply lpInsert_delete.
Qed.

(** After the first of two entries the string 12 is stored as an integer; the
    deletion of the first leaves the second. *)
Lemma lpInsert_correct_witness :
  (exists m', lpInsert (fun _ => 0) (fun n => n) lp_sample (EleStr [49; 50]) 6 LP_AFTER = Some (Some (m', Some 8)) /\
    lp_rep m' [U7 5; U7 12; S6 [104; 105]]) /\
  exists m', lpInsert (fun _ => 0) (fun n => n) lp_sample EleDelete 6 LP_REPLACE = Some (Some (m', Some 6)) /\
    lp_rep m' [S6 [104; 105]].
Proof.
  destruct (lpInsert_correct (fun _ => 0) (fun n => n) lp_sample [] [U7 5; S6 [104; 105]]) as [Hins Hdel]; [intros n; lia|exact lp_sample_ok|]. split.
  - destruct (Hins (ItemStr [49; 50]) [49; 50] LP_AFTER [U7 5] [S6 [104; 105]]) as (e & He & Ht & H); [done|done|].
    destruct (lpStringToInt64_ok [49; 50]) as (r & Hr & H12). assert (r = Some 12) as -> by (revert Hr; vm_compute; congruence).
    assert (e = U7 12) as ->.
    { destruct He as [(v & Hv & Hi & ->)|[Hno _]]; [|by destruct (Hno 12); apply H12]. destruct (H12 v) as [_ E]. by injection E as <-. }
    exact H.
  - exact (Hdel (U7 5) [S6 [104; 105]] LP_REPLACE eq_refl).
Defined.

(** C35: [lpFind] returns the first entry whose text is the searched string
    among every [skip + 1]-th entry from [p] on, or [NULL], and [lpCompare]
    decides whether the text of one entry is a given string: comparing an
    integer entry with the parsed string is the same as comparing its decimal
    text. *)
Theorem lpFind_correct m es1 e es2 s skip :
  lp_rep m (es1 ++ e :: es2) -> 0 <= skip < 2 ^ 31 ->
  let p := LP_HDR_SIZE + zlen (body es1) in
  lpFind m p s (zlen s) skip = Some (find_spec (Z.to_nat skip) 0 s p (e :: es2)) /\
  exists b, lpCompare m p s (zlen s) = Some b /\ (b = true <-> ent_text e s).
Proof.
  intros H Hs p. split; [by apply lpFind_ok|]. destruct (rep_entry m _ H _ _ _ eq_refl) as [He Hat].
  apply bytes_at_app in Hat as [Hat _]. exists (text_is e s). split; [by apply lpCompare_ok|].
  by apply text_is_ok.
Qed.

Lemma lpFind_correct_witness :
  lpFind lp_sample 6 [104; 105] 2 0 = Some (Some 8) /\
  exists b, lpCompare lp_sample 6 [104; 105] 2 = Some b /\ (b = true <-> ent_text (U7 5) [104; 105]).
Proof.
  apply (lpFind_correct lp_sample [] (U7 5) [S6 [104; 105]] [104; 105] 0).
  - exact lp_sample_ok.
  - lia.
Defined.

(** merging two listpacks leaves, in the block of the larger one, the
    entries of the first followed by those of the second, and the other block
    is released. *)
Theorem lpMerge_correct junk usable m1 m2 es1 es2 :
  (forall n, n <= usable n) ->
  lp_rep m1 es1 -> lp_rep m2 es2 -> total (es1 ++ es2) < UINT32_MAX ->
  exists m', lpMerge junk usable (Some m1) (Some m2) false =
      Some (Some (m', if bool_decide (total es1 >= total es2) then Some m' else None,
                  if bool_decide (total es1 >= total es2) then None else Some m')) /\
    lp_rep m' (es1 ++ es2).
Proof. intros Hu. by apply lpMerge_ok. Qed.

Lemma lpMerge_correct_witness :
  exists m', lpMerge (fun _ => 0) (fun n => n) (Some lp_sample) (Some lp_sample) false =
    Some (Some (m', Some m', None)) /\ lp_rep m' [U7 5; S6 [104; 105]; U7 5; S6 [104; 105]].
Proof.
  apply (lpMerge_correct (fun _ => 0) (fun n => n) lp_sample lp_sample
    [U7 5; S6 [104; 105]] [U7 5; S6 [104; 105]]).
  - intros n. lia.
  - exact lp_sample_ok.
  - exact lp_sample_ok.
  - reflexivity.
Defined.

(** deleting a batch of entries, given by their positions in order, keeps
    exactly the other entries. *)
Theorem lpBatchDelete_correct junk usable m pre gs :
  (forall n, n <= usable n) -> lp_rep m (pre ++ group_ents gs) ->
  exists m', lpBatchDelete junk usable m (group_pos (LP_HDR_SIZE + zlen (body pre)) gs) = Some m' /\
    lp_rep m' (pre ++ group_kept gs).
Proof. intros Hu. by apply lpBatchDelete_ok. Qed.

Lemma lpBatchDelete_correct_witness :
  exists m', lpBatchDelete (fun _ => 0) (fun n => n) lp_sample [6] = Some m' /\
    lp_rep m' [S6 [104; 105]].
Proof.
  apply (lpBatchDelete_correct (fun _ => 0) (fun n => n) lp_sample [] [(U7 5, [S6 [104; 105]])]).
  - intros n. lia.
  - exact lp_sample_ok.
Defined.

(** ** Checking untrusted bytes *)

Lemma decode_total fuel : forall m p v shift,
  Z.of_nat fuel * 7 + shift = 35 -> Z.of_nat fuel <= p + 1 -> p < zlen m -> (0 < fuel)%nat ->
  exists l, lpDecodeBacklen_loop fuel m p v shift = Some l.
Proof.
  induction fuel as [|fuel IH]; intros m p v shift Hs Hp Hm Hf; [lia|].
  cbn [lpDecodeBacklen_loop]. destruct (peek_Some m p) as [b ->]; [lia|]. cbn [mbind option_bind].
  case_decide; [by eexists|]. case_decide; [by eexists|]. apply IH; lia.
Qed.

Lemma get_le_total n : forall (m : bytes) p i,
  0 <= p + i -> p + i + Z.of_nat n <= zlen m -> exists x, get_le n m p i = Some x.
Proof.
  induction n as [|n IH]; intros m p i Hi Hn; [by eexists|]. cbn [get_le].
  destruct (peek_Some m (p + i)) as [b ->]; [lia|]. cbn [mbind option_bind].
  destruct (IH m p (i + 1)) as [x ->]; [lia|lia|]. by eexists.
Qed.

(** The size of an entry can be read when its length bytes can. *)
Lemma encoded_size_total m p k :
  lpCurrentEncodedSizeBytes m p = Some k -> 0 <= p -> p + k <= zlen m ->
  exists size, lpCurrentEncodedSizeUnsafe m p = Some size.
Proof.
  unfold lpCurrentEncodedSizeBytes, lpCurrentEncodedSizeUnsafe, LP_ENCODING_6BIT_STR_LEN,
    LP_ENCODING_12BIT_STR_LEN, LP_ENCODING_32BIT_STR_LEN.
  intros H Hp Hk. unbind H. rewrite E. cbn [mbind option_bind].
  repeat case_decide; try (by eexists); injection H as <-.
  - destruct (peek_Some m (p + 1)) as [b1 ->]; [lia|]. by eexists.
  - destruct (get_le_total 4 m (p + 1) 0) as [x ->]; [lia|lia|]. by eexists.
Qed.

(** [lpValidateNext] reads inside the block whatever the bytes are. *)
Lemma validate_next_total m p n :
  bytes_ok m -> n <= zlen m -> exists r, lpValidateNext m (Some p) n = Some r.
Proof.
  intros Hm Hn. unfold lpValidateNext, OUT_OF_RANGE, LP_HDR_SIZE. case_decide; [by eexists|].
  destruct (peek_Some m p) as [b Hb]; [lia|]. rewrite Hb. cbn [mbind option_bind].
  case_decide; [by eexists|].
  assert (exists k, lpCurrentEncodedSizeBytes m p = Some k /\ 0 <= k <= 5) as (k & Hk & Hk5).
  { unfold lpCurrentEncodedSizeBytes. rewrite Hb. cbn [mbind option_bind].
    repeat case_decide; eexists; (split; [done|lia]). }
  rewrite Hk. cbn [mbind option_bind]. case_decide; [by eexists|]. case_decide; [by eexists|].
  destruct (encoded_size_total m p k Hk) as [size Hs]; [lia|lia|]. rewrite Hs. cbn [mbind option_bind].
  case_decide; [by eexists|]. pose proof (encoded_size_nonneg m p size Hm Hs).
  pose proof (backlen_size_range size).
  destruct (decode_total 5 m (p + (size + lpBacklenSize size) - 1) 0 0) as [l Hl]; [lia|lia|lia|lia|].
  unfold lpDecodeBacklen. rewrite Hl. cbn [mbind option_bind]. case_decide; by eexists.
Qed.

Lemma lpValidate_loop_ok m n num cb fuel : forall p count,
  bytes_ok m -> n <= zlen m -> LP_HDR_SIZE <= p <= n - 1 -> n - 1 - p <= Z.of_nat fuel ->
  0 <= count -> count + (n - 1 - p) < 2 ^ 32 -> peek m (n - 1) = Some LP_EOF ->
  exists r, lpValidate_loop fuel m n num cb p count = Some r /\
    forall k, r = inl (n - 1, k) -> exists ps, lp_chain m n p ps /\ k = count + zlen ps.
Proof.
  induction fuel as [|fuel IH]; intros p count Hm Hn Hp Hf Hc0 Hc Heof; cbn [lpValidate_loop].
  { replace p with (n - 1) by lia. rewrite Heof. cbn [mbind option_bind]. rewrite decide_True by done.
    eexists. split; [done|]. intros k [= <-]. exists []. split; [by constructor|rewrite zlen_nil; lia]. }
  destruct (peek_Some m p) as [b Hb]; [unfold LP_HDR_SIZE in *; lia|]. rewrite Hb. cbn [mbind option_bind].
  case_decide as He.
  { eexists. split; [done|]. intros k [= -> <-]. subst b. exists [].
    split; [by constructor|rewrite zlen_nil; lia]. }
  destruct (validate_next_total m p n Hm Hn) as [r Hr]. rewrite Hr. cbn [mbind option_bind].
  destruct r as [| |p']; [eexists; split; done|eexists; split; done|].
  match goal with |- context [if ?c then _ else _] => destruct c end; [eexists; split; done|].
  assert (forall size, lpCurrentEncodedSizeUnsafe m p = Some size -> 0 <= size) as Hpos.
  { intros size. by apply encoded_size_nonneg. }
  destruct (valid_next_inv m p n p' Hpos Hr) as (size & b' & _ & _ & _ & _ & Hp' & Hle & Hsz & _).
  pose proof (backlen_size_range size). unfold u32. rewrite uwrap_small by (unfold in_u; lia).
  destruct (IH p' (count + 1)) as (r & Hl & Hk); [done|done|lia|lia|lia|lia|done|].
  exists r. split; [done|]. intros k Hrk. destruct (Hk k Hrk) as (ps & Hch & ->).
  exists (p :: ps). split; [by econstructor|]. rewrite zlen_cons. lia.
Qed.

Lemma get_le_bound n : forall (m : bytes) p i x,
  get_le (S n) m p i = Some x -> 0 <= p + i /\ p + i + Z.of_nat (S n) <= zlen m.
Proof.
  induction n as [|n IH]; intros m p i x H; cbn [get_le] in H; unbind H; unbind H;
    apply peek_inv in E as [E _].
  - lia.
  - apply IH in E0. lia.
Qed.

Lemma get_le_bytes n m p x :
  bytes_ok m -> get_le (S n) m p 0 = Some x ->
  bytes_at m p (le_bytes (S n) x) /\ 0 <= x < 2 ^ (8 * Z.of_nat (S n)).
Proof.
  intros Hm H. destruct (get_le_bound n m p 0 x H) as [H0 H1]. rewrite !Z.add_0_r in *.
  pose proof (bytes_at_inv m p (Z.of_nat (S n)) H0 ltac:(lia) H1) as Hat.
  set (bs := slice m p (Z.of_nat (S n))) in *.
  assert (length bs = S n) as Hlen.
  { pose proof (zlen_slice m p (Z.of_nat (S n)) H0 ltac:(lia) H1). unfold zlen in *. fold bs in H2. lia. }
  assert (bytes_ok bs) as Hok by (by apply bytes_ok_slice).
  pose proof (get_le_ok m p bs 0 ltac:(lia) Hok) as Hg. rewrite Z.add_0_r, Hlen, H in Hg.
  specialize (Hg Hat). rewrite Z.mul_0_r, Z.shiftl_0_r in Hg. injection Hg as ->.
  pose proof (le_bytes_le_val bs Hok) as Hb. rewrite Hlen in Hb. rewrite Hb. split; [done|].
  pose proof (le_val_bound bs Hok) as Hv. unfold zlen in Hv. by rewrite Hlen in Hv.
Qed.

(** The 32-bit length of a checked string entry does not wrap around. *)
Lemma valid_32bit_len m p n p' len :
  bytes_ok m -> lpValidateNext m (Some p) n = Some (ValidNext p') ->
  peek m p = Some 240 -> get_le 4 m (p + 1) 0 = Some len ->
  lpCurrentEncodedSizeUnsafe m p = Some (u32 (5 + len)) -> 0 <= len /\ 5 + len < 2 ^ 32.
Proof.
  intros Hm Hv Hp Hg Hs. destruct (get_le_bytes 3 m (p + 1) len Hm Hg) as [Hat Hlen].
  change (8 * Z.of_nat 4) with 32 in Hlen. split; [lia|].
  destruct (decide (5 + len < 2 ^ 32)); [done|]. exfalso.
  assert (exists k, len = 2 ^ 32 - 5 + k /\ 0 <= k <= 4) as (k & -> & Hk) by (exists (len - (2 ^ 32 - 5)); lia).
  assert (u32 (5 + (2 ^ 32 - 5 + k)) = k) as Hu.
  { unfold u32, uwrap. replace (5 + (2 ^ 32 - 5 + k)) with (k + 1 * 2 ^ 32) by lia.
    rewrite Z_mod_plus_full. apply Z.mod_small. lia. }
  rewrite Hu in Hs. apply valid_next_inv in Hv as (size & b & _ & _ & Hs' & _ & Hp' & _ & _ & Hd).
  2: { intros size. by apply encoded_size_nonneg. }
  rewrite Hs in Hs'. injection Hs' as <-.
  assert (lpBacklenSize k = 1) as Hbl.
  { unfold lpBacklenSize, lpEncodeBacklen. by rewrite decide_True by lia. }
  replace (p' - 1) with (p + k) in Hd by lia.
  apply decode_low in Hd as [Hmax|(_ & c & Hc & Hmod)]; [unfold ULLONG_MAX in Hmax; lia|].
  assert (k = 0 \/ k = 1 \/ k = 2 \/ k = 3 \/ k = 4) as Hcase by lia. clear Hg Hs Hu Hlen.
  destruct Hcase as [-> |[-> |[-> |[-> | ->]]]].
  { rewrite Z.add_0_r, Hp in Hc. injection Hc as <-. discriminate Hmod. }
  1: change (le_bytes _ _) with [252; 255; 255; 255] in Hat.
  2: change (le_bytes _ _) with [253; 255; 255; 255] in Hat.
  3: change (le_bytes _ _) with [254; 255; 255; 255] in Hat.
  4: change (le_bytes _ _) with [255; 255; 255; 255] in Hat.
  all: rewrite !bytes_at_cons in Hat; destruct Hat as (H1 & H2 & H3 & H4 & _);
    match goal with
    | H : peek ?m ?q = Some ?x, Hc : peek ?m ?q' = Some ?c |- _ =>
      replace q' with q in Hc by lia; rewrite H in Hc; injection Hc as <-; discriminate Hmod
    end.
Qed.

(** What [lpGet] returns at a checked entry lies inside the entry. *)
Lemma valid_get m p n p' :
  bytes_ok m -> lpValidateNext m (Some p) n = Some (ValidNext p') -> n <= zlen m ->
  exists g, lpGet m p = Some g /\
    match g with GotStr off len => p < off /\ 0 <= len /\ off + len < p' | GotInt _ => True end.
Proof.
  intros Hm Hv Hn.
  assert (forall size, lpCurrentEncodedSizeUnsafe m p = Some size -> 0 <= size) as Hpos.
  { intros size. by apply encoded_size_nonneg. }
  pose proof (valid_next_inv m p n p' Hpos Hv) as (size & b & Hb & _ & Hs & Hp & Hp' & Hle & Hsz & _).
  pose proof (backlen_size_range size). unfold LP_HDR_SIZE in Hp.
  pose proof Hs as Hs0. unfold lpGet, lpGetWithSize. unfold lpCurrentEncodedSizeUnsafe in Hs.
  rewrite Hb in *. cbn [mbind option_bind] in *.
  assert (forall k, 0 < k <= 8 -> k < size -> exists x, get_le (Z.to_nat k) m (p + 1) 0 = Some x) as Hget.
  { intros k Hk Hks. apply get_le_total; lia. }
  destruct (decide (LP_ENCODING_IS_7BIT_UINT b)) in Hs |- *; [by eexists|].
  destruct (decide (LP_ENCODING_IS_6BIT_STR b)) in Hs |- *.
  { unfold LP_ENCODING_6BIT_STR_LEN in *. rewrite Hb in *. cbn [mbind option_bind] in *.
    injection Hs as <-. pose proof (Z.land_nonneg b 63). eexists. split; [done|]. cbn beta iota. lia. }
  destruct (decide (LP_ENCODING_IS_13BIT_INT b)) in Hs |- *.
  { injection Hs as <-. destruct (peek_Some m (p + 1)) as [b1 ->]; [lia|]. by eexists. }
  destruct (decide (LP_ENCODING_IS_16BIT_INT b)) in Hs |- *.
  { injection Hs as <-. destruct (Hget 2 ltac:(lia) ltac:(lia)) as [x Hx].
    change (Z.to_nat 2) with 2%nat in Hx. rewrite Hx. by eexists. }
  destruct (decide (LP_ENCODING_IS_24BIT_INT b)) in Hs |- *.
  { injection Hs as <-. destruct (Hget 3 ltac:(lia) ltac:(lia)) as [x Hx].
    change (Z.to_nat 3) with 3%nat in Hx. rewrite Hx. by eexists. }
  destruct (decide (LP_ENCODING_IS_32BIT_INT b)) in Hs |- *.
  { injection Hs as <-. destruct (Hget 4 ltac:(lia) ltac:(lia)) as [x Hx].
    change (Z.to_nat 4) with 4%nat in Hx. rewrite Hx. by eexists. }
  destruct (decide (LP_ENCODING_IS_64BIT_INT b)) in Hs |- *.
  { injection Hs as <-. destruct (Hget 8 ltac:(lia) ltac:(lia)) as [x Hx].
    change (Z.to_nat 8) with 8%nat in Hx. rewrite Hx. by eexists. }
  destruct (decide (LP_ENCODING_IS_12BIT_STR b)) in Hs |- *.
  { unbind Hs. rewrite E. cbn [mbind option_bind]. injection Hs as <-. eexists. split; [done|].
    cbn beta iota. unfold LP_ENCODING_12BIT_STR_LEN in E. rewrite Hb in E. cbn [mbind option_bind] in E.
    unbind E. injection E as <-. apply peek_inv in E0 as [_ E0].
    pose proof (Forall_lookup_1 _ _ _ _ Hm E0) as Hr. unfold byte_ok in Hr.
    assert (0 <= Z.lor (Z.shiftl (Z.land b 15) 8) r0); [|lia].
    apply Z.lor_nonneg. split; [apply Z.shiftl_nonneg, Z.land_nonneg|]; lia. }
  destruct (decide (LP_ENCODING_IS_32BIT_STR b)) as [H32|H32] in Hs |- *; [|by eexists].
  unbind Hs. unfold LP_ENCODING_32BIT_STR_LEN in *. rewrite E. cbn [mbind option_bind].
  injection Hs as Hs. eexists. split; [done|]. cbn beta iota.
  assert (b = 240) as ->.
  { unfold LP_ENCODING_IS_32BIT_STR in H32. apply peek_inv in Hb as [_ Hb].
    pose proof (Forall_lookup_1 _ _ _ _ Hm Hb) as Hbk. rewrite land_255, Z.mod_small in H32; [done|apply Hbk]. }
  rewrite <- Hs in Hs0. destruct (valid_32bit_len m p n p' r Hm Hv Hb E Hs0) as [? Hr].
  unfold u32 in Hs. rewrite uwrap_small in Hs by (unfold in_u; lia). lia.
Qed.

(** An accepted block is a chain of checked entries with a right count. *)
Lemma validate_sound m :
  bytes_ok m -> zlen m < 2 ^ 32 ->
  exists b, lpValidateIntegrity m (zlen m) true None = Some b /\
    (b = true -> exists ps num, lp_chain m (zlen m) LP_HDR_SIZE ps /\ lpBytes m = Some (zlen m) /\
       lpGetNumElements m = Some num /\ count_ok num (zlen ps)).
Proof.
  intros Hm Hz. unfold lpValidateIntegrity, LP_HDR_SIZE at 1. case_decide; [by eexists|].
  destruct (get_le_total 4 m 0 0) as [n Hn]; [lia|lia|]. unfold lpGetTotalBytes. rewrite Hn.
  cbn [mbind option_bind]. case_decide as Hne; [by eexists|]. assert (n = zlen m) as -> by lia.
  destruct (peek_Some m (zlen m - 1)) as [b Hb]; [lia|]. rewrite Hb. cbn [mbind option_bind].
  case_decide as He; [by eexists|]. assert (b = LP_EOF) as -> by lia. cbn [negb].
  destruct (get_le_total 2 m 4 0) as [num Hnum]; [lia|lia|]. unfold lpGetNumElements. rewrite Hnum.
  cbn [mbind option_bind].
  destruct (lpValidate_loop_ok m (zlen m) num None (length m) LP_HDR_SIZE 0) as (r & -> & Hr);
    [done|lia|unfold LP_HDR_SIZE; lia|unfold LP_HDR_SIZE, zlen; lia|lia|unfold LP_HDR_SIZE; lia|done|].
  cbn [mbind option_bind]. destruct r as [[p k]|u]; [|by eexists].
  case_decide as Hp; [by eexists|]. assert (p = zlen m - 1) as -> by lia.
  case_decide as Hk; [by eexists|]. eexists. split; [done|]. intros _.
  destruct (Hr k eq_refl) as (ps & Hc & ->). exists ps, num. split_and!; [done|done|done|].
  destruct (get_le_bytes 1 m 4 num Hm Hnum) as [_ Hrange]. change (8 * Z.of_nat 2) with 16 in Hrange.
  unfold count_ok, LP_HDR_NUMELE_UNKNOWN in *. lia.
Qed.

Lemma validate_loop_chain m n num fuel : forall p ps count,
  lp_chain m n p ps -> (length ps <= fuel)%nat -> 0 <= count -> count + zlen ps < 2 ^ 32 ->
  lpValidate_loop fuel m n num None p count = Some (inl (n - 1, count + zlen ps)).
Proof.
  induction fuel as [|fuel IH]; intros p ps count Hc Hf H0 Hlt; cbn [lpValidate_loop].
  - destruct ps; [|cbn in Hf; lia]. inversion Hc as [? Hp Hb|]; subst. rewrite Hb. cbn [mbind option_bind].
    rewrite decide_True by done. do 3 f_equal. rewrite zlen_nil. lia.
  - destruct (chain_peek _ _ _ _ Hc) as (b & Hb & Hiff). rewrite Hb. cbn [mbind option_bind].
    inversion Hc as [? Hp Hb'|? p' ps' Hv _ Hc']; subst.
    + rewrite decide_True by (by apply Hiff). do 3 f_equal. rewrite zlen_nil. lia.
    + rewrite decide_False by (rewrite Hiff; done). rewrite Hv. cbn [mbind option_bind].
      rewrite zlen_cons in *. pose proof (zlen_nonneg ps'). unfold u32. rewrite uwrap_small by (unfold in_u; lia).
      rewrite (IH p' ps'); [do 3 f_equal; lia|done|cbn in Hf; lia|lia|lia].
Qed.

(** The block of a listpack is accepted. *)
Lemma validate_complete m es :
  lp_rep m es -> total es = zlen m -> lpValidateIntegrity m (zlen m) true None = Some true.
Proof.
  intros H Htot. pose proof (rep_bytes _ _ H) as Hn. unfold lpBytes in Hn. pose proof (rep_fits _ _ H).
  pose proof (zlen_body_le es). pose proof (zlen_nonneg es). unfold lpValidateIntegrity, LP_HDR_SIZE at 1.
  rewrite decide_False by (unfold total, LP_HDR_SIZE in *; lia). rewrite Hn, Htot. cbn [mbind option_bind].
  rewrite decide_False by lia. pose proof (rep_body _ _ H) as Hb. apply bytes_at_app in Hb as [_ Hb].
  apply bytes_at_single in Hb. replace (zlen m - 1) with (LP_HDR_SIZE + zlen (body es)).
  2: { rewrite <- Htot. unfold total, LP_HDR_SIZE. lia. }
  rewrite Hb. cbn [mbind option_bind]. rewrite decide_False by (intros Hd; by apply Hd). cbn [negb].
  destruct (rep_count _ _ H) as (num & -> & Hok). cbn [mbind option_bind].
  pose proof (rep_chain _ _ H) as Hc. rewrite Htot in Hc.
  rewrite (validate_loop_chain m (zlen m) num _ _ _ 0 Hc); rewrite ?zlen_positions.
  - cbn [mbind option_bind]. rewrite decide_False; [|rewrite <- Htot; unfold total, LP_HDR_SIZE; lia].
    rewrite decide_False; [done|]. unfold count_ok in Hok. lia.
  - pose proof (zlen_positions LP_HDR_SIZE es). unfold total, zlen in *. lia.
  - lia.
  - unfold total in *. lia.
Qed.

(** C11: the deep integrity check of an untrusted block of bytes never reads
    outside the block and always returns.  Every block it accepts can be
    walked: there are positions [ps] that [lpFirst]/[lpNext] visit in order
    and [lpLast]/[lpPrev] in reverse, what [lpGet] returns at each of them
    lies inside its entry, and [lpLength] and [lpSeek] agree with them.  Every
    block that holds a listpack is accepted. *)
Theorem lpValidateIntegrity_correct m :
  bytes_ok m -> zlen m < 2 ^ 32 ->
  exists b, lpValidateIntegrity m (zlen m) true None = Some b /\
    (b = true -> exists ps,
       lpFirst m = Some (head ps) /\ lpLast m = Some (last ps) /\
       (forall ps1 p ps2, ps = ps1 ++ p :: ps2 ->
          lpNext m p = Some (head ps2) /\ lpPrev m p = Some (last ps1) /\
          exists g, lpGet m p = Some g /\
            match g with
            | GotStr off len => p < off /\ 0 <= len /\ off + len < default (zlen m - 1) (head ps2)
            | GotInt _ => True
            end) /\
       forall index, lpSeek m index = Some (seek_spec ps index)) /\
    forall es, lp_rep m es -> total es = zlen m -> b = true.
Proof.
  intros Hm Hz. destruct (validate_sound m Hm Hz) as (b & Hb & Hsound). exists b. split; [done|]. split.
  - intros ->. destruct (Hsound eq_refl) as (ps & num & Hc & Hn & Hnum & Hok). exists ps.
    split; [by apply (lpFirst_chain m (zlen m))|]. split; [by apply (lpLast_chain m (zlen m))|]. split.
    + intros ps1 p ps2 E. split; [by apply (lpNext_chain m (zlen m) ps Hc Hn ps1)|]. split.
      * by apply (lpPrev_chain_last m (zlen m) ps Hc Hn ps1 (p :: ps2)).
      * rewrite E in Hc. destruct (chain_valid _ _ _ _ _ _ Hc) as [Hv _].
        apply (valid_get m p (zlen m)); [done|done|lia].
    + intros index. by apply (lpSeek_chain m (zlen m) ps num).
  - intros es Hrep Htot. pose proof (validate_complete m es Hrep Htot) as Hc. congruence.
Qed.

Lemma lpValidateIntegrity_correct_witness :
  exists b, lpValidateIntegrity lp_sample 13 true None = Some b /\ b = true.
Proof.
  destruct (lpValidateIntegrity_correct lp_sample) as (b & Hb & _ & Hc).
  - by repeat (apply Forall_cons; split; [split; [discriminate|reflexivity]|]).
  - reflexivity.
  - exists b. split; [exact Hb|]. apply (Hc [U7 5; S6 [104; 105]]); [exact lp_sample_ok|reflexivity].
Defined.

(** C36: encoding and decoding are inverse: every 64-bit integer, written with
    the shortest encoding, is read back as the same integer with the size of
    its entry, and every length up to 2^35, written with the variable-length
    code, is read back from its last byte. *)
Theorem lp_encoding_roundtrip v l pre rest :
  in_i 64 v -> 0 <= l < 2 ^ 35 ->
  let enc := lpEncodeIntegerGetType v in
  lpGetWithSize (pre ++ enc ++ rest) (zlen pre) =
    Some (GotInt v, Some (zlen enc + lpBacklenSize (zlen enc))) /\
  lpDecodeBacklen (pre ++ lpEncodeBacklen l ++ rest) (zlen pre + lpBacklenSize l - 1) = Some l.
Proof.
  intros Hv Hl enc. assert (forall bs : bytes, bytes_at (pre ++ bs ++ rest) (zlen pre) bs) as Hat.
  { intros bs. unfold bytes_at. rewrite !zlen_app. zlen_nonneg_all. split_and!; [lia|lia|].
    rewrite slice_app_r, Z.sub_diag by lia. rewrite slice_app_l by lia. by apply slice_full. }
  destruct (lpEncodeIntegerGetType_ok v Hv) as (Henc & Hok & Hval). fold enc in Henc. split.
  - rewrite (ent_read _ _ (int_ent v)); [|done|rewrite <- Henc; apply Hat].
    unfold got, ent_size. by rewrite Hval, <- Henc.
  - apply backlen_decode; [done|apply Hat].
Qed.

Lemma lp_encoding_roundtrip_witness :
  lpGetWithSize [7; 242; 192; 29; 254; 9] 1 = Some (GotInt (-123456), Some 5) /\
  lpDecodeBacklen [7; 2; 172; 9] 2 = Some 300.
Proof.
  apply (lp_encoding_roundtrip (-123456) 300 [7] [9]); [split; [discriminate|reflexivity]|lia].
Defined.
