(* ===== verification/Skiplist.v ===== *)
(** * Skip lists of sorted sets (t_zset.c)

    A sorted set keeps its members in a skip list ordered by score and, for
    equal scores, by the bytes of the member.  Every node carries, for each of
    its levels, the next node of that level and the number of nodes it jumps
    over (the span), so ranks are sums of spans.

    Nodes live in a store from pointers to nodes.  Doubles are a parameter:
    [Score] gives the C comparisons, [ScoreLaws] what IEEE 754 says of them
    for numbers that are not NaN.  [zslRandomLevel] reads a stream of random
    numbers.  [dictDelete] on the hash table of the sorted set is recorded as
    the list of members it is called with.

    The theorems: every operation keeps the representation ([zsl_ok]) and acts
    on the sorted list of members; ranks and lookups by rank are inverse and
    agree with the position in that list; range lookups and deletions agree
    with the filters they stand for. *)

From S2P Require Import Prelude.

#[local] Set Default Proof Using "Type".

Definition ZSKIPLIST_MAXLEVEL : nat := 32.

(** The comparisons of C doubles. *)
Class Score (D : Type) := {
  score_lt : D -> D -> bool;
  score_eq : D -> D -> bool;
  isnan : D -> bool;
}.

Abbreviation sds := (list Z).

(** The sign of [memcmp] over [n] bytes. *)
Fixpoint memcmp (s1 s2 : sds) (n : nat) : Z :=
  match n, s1, s2 with
  | S n, a :: s1, b :: s2 => if decide (a = b) then memcmp s1 s2 n else a - b
  | _, _, _ => 0
  end.

Definition sdscmp (s1 s2 : sds) : Z :=
  let l1 := zlen s1 in
  let l2 := zlen s2 in
  let minlen := if decide (l1 < l2) then l1 else l2 in
  let cmp := memcmp s1 s2 (Z.to_nat minlen) in
  if decide (cmp = 0) then if decide (l1 > l2) then 1 else if decide (l1 < l2) then -1 else 0
  else cmp.

Abbreviation ptr := positive.

Record zskiplistLevel := ZLevel { forward : option ptr; span : Z }.

Section skiplist.
Context {D : Type} `{Score D}.

Record zskiplistNode := ZNode {
  ele : option sds;
  score : D;
  backward : option ptr;
  level : list zskiplistLevel;
}.

Record zskiplist := ZSkiplist {
  header : ptr;
  tail : option ptr;
  zlength : Z;
  zlevel : nat;
}.

#[local] Abbreviation heap := (gmap ptr zskiplistNode).

(** [p->level[i]], and the assignments to its fields and to the fields of
    [p]. *)
Definition get_level (h : heap) (p : ptr) (i : nat) : option zskiplistLevel :=
  n ← h !! p; level n !! i.

Definition set_level (h : heap) (p : ptr) (i : nat) (l : zskiplistLevel) : option heap :=
  n ← h !! p;
  _ ← level n !! i;
  Some (<[p := ZNode (ele n) (score n) (backward n) (<[i := l]> (level n))]> h).

Definition set_forward (h : heap) (p : ptr) (i : nat) (f : option ptr) : option heap :=
  l ← get_level h p i; set_level h p i (ZLevel f (span l)).

Definition set_span (h : heap) (p : ptr) (i : nat) (s : Z) : option heap :=
  l ← get_level h p i; set_level h p i (ZLevel (forward l) s).

Definition set_backward (h : heap) (p : ptr) (b : option ptr) : option heap :=
  n ← h !! p; Some (<[p := ZNode (ele n) (score n) b (level n)]> h).

Definition set_score (h : heap) (p : ptr) (s : D) : option heap :=
  n ← h !! p; Some (<[p := ZNode (ele n) s (backward n) (level n)]> h).

(** A new node.  The C code leaves its levels uninitialised; here they are NULL
    and 0, what the loop of [zslCreate] writes to those of the header, and
    [zslInsert] writes every level of its node before reading it. *)
Definition zslCreateNode (h : heap) (lvl : nat) (sc : D) (e : option sds) : heap * ptr :=
  let p := fresh (dom h) in
  (<[p := ZNode e sc None (replicate lvl (ZLevel None 0))]> h, p).

(** [zero] is the double 0, the score of the header. *)
Definition zslCreate (zero : D) (h : heap) : heap * zskiplist :=
  let '(h, p) := zslCreateNode h ZSKIPLIST_MAXLEVEL zero None in
  (h, ZSkiplist p None 0 1).

Definition zslFreeNode (h : heap) (p : ptr) : heap := delete p h.

Fixpoint zslFree_loop (fuel : nat) (h : heap) (node : option ptr) : option heap :=
  match node with
  | None => Some h
  | Some p =>
    match fuel with
    | O => None
    | S fuel =>
      l ← get_level h p 0;
      zslFree_loop fuel (zslFreeNode h p) (forward l)
    end
  end.

Definition zslFree (h : heap) (zsl : zskiplist) : option heap :=
  l ← get_level h (header zsl) 0;
  zslFree_loop (size h) (zslFreeNode h (header zsl)) (forward l).

(** [rnd] are the outcomes of [random() < threshold], in order; the loop ends
    at the first that fails. *)
Fixpoint random_level (rnd : list bool) (lvl : nat) : nat :=
  match rnd with
  | true :: rnd => random_level rnd (S lvl)
  | _ => lvl
  end.

Definition zslRandomLevel (rnd : list bool) : nat :=
  let lvl := random_level rnd 1 in
  if decide (lvl < ZSKIPLIST_MAXLEVEL)%nat then lvl else ZSKIPLIST_MAXLEVEL.

(** ** Searching

    The inner loop of all searches at level [i]: from [x] go forward while
    the condition holds of the next node and of the rank it is reached
    with. *)
Fixpoint walk_level (fuel : nat) (h : heap) (i : nat) (cond : zskiplistNode -> Z -> bool)
    (x : ptr) (traversed : Z) : option (ptr * Z) :=
  match fuel with
  | O => None
  | S fuel =>
    l ← get_level h x i;
    match forward l with
    | None => Some (x, traversed)
    | Some y =>
      n ← h !! y;
      if cond n (u64 (traversed + span l)) then
        walk_level fuel h i cond y (u64 (traversed + span l))
      else Some (x, traversed)
    end
  end.

(** The outer loop, from level [i - 1] down to 0: [update] and [rank] as one
    list, level 0 first. *)
Fixpoint descend (i : nat) (h : heap) (cond : zskiplistNode -> Z -> bool) (x : ptr) (traversed : Z) :
    option (list (ptr * Z)) :=
  match i with
  | O => Some []
  | S i =>
    '(x, traversed) ← walk_level (size h) h i cond x traversed;
    rest ← descend i h cond x traversed;
    Some (rest ++ [(x, traversed)])
  end.

Definition search (h : heap) (zsl : zskiplist) (cond : zskiplistNode -> Z -> bool) :
    option (list (ptr * Z)) :=
  descend (zlevel zsl) h cond (header zsl) 0.

(** [x] after the loops: the node found at level 0. *)
Definition found (zsl : zskiplist) (us : list (ptr * Z)) : ptr :=
  match us with (x, _) :: _ => x | [] => header zsl end.

(** [n->score < score || (n->score == score && sdscmp(n->ele, ele) < 0)]. *)
Definition before (sc : D) (e : sds) (n : zskiplistNode) : bool :=
  score_lt (score n) sc ||
  (score_eq (score n) sc && match ele n with Some x => bool_decide (sdscmp x e < 0) | None => false end).

(** ** Insertion *)

(** [for (i = zsl->level; i < level; i++)]: the new levels. *)
Fixpoint grow_levels (n : nat) (i : nat) (h : heap) (zsl : zskiplist) : option heap :=
  match n with
  | O => Some h
  | S n =>
    h ← set_span h (header zsl) i (zlength zsl);
    grow_levels n (S i) h zsl
  end.

(** [for (i = 0; i < level; i++)]: the node is linked in at level [i]. *)
Fixpoint link_levels (n : nat) (i : nat) (h : heap) (x : ptr) (us : list (ptr * Z)) (rank0 : Z) :
    option heap :=
  match n with
  | O => Some h
  | S n =>
    '(u, rank) ← us !! i;
    l ← get_level h u i;
    h ← set_forward h x i (forward l);
    h ← set_forward h u i (Some x);
    h ← set_span h x i (u64 (span l - u64 (rank0 - rank)));
    h ← set_span h u i (u64 (u64 (rank0 - rank) + 1));
    link_levels n (S i) h x us rank0
  end.

(** [for (i = level; i < zsl->level; i++) update[i]->level[i].span++]. *)
Fixpoint bump_spans (n : nat) (i : nat) (h : heap) (us : list (ptr * Z)) : option heap :=
  match n with
  | O => Some h
  | S n =>
    '(u, _) ← us !! i;
    l ← get_level h u i;
    h ← set_span h u i (u64 (span l + 1));
    bump_spans n (S i) h us
  end.

Definition zslInsert (rnd : list bool) (h : heap) (zsl : zskiplist) (sc : D) (e : sds) :
    option (heap * zskiplist * ptr) :=
  _ ← assert (isnan sc = false);
  us ← search h zsl (fun n _ => before sc e n);
  let lvl := zslRandomLevel rnd in
  h ← grow_levels (lvl - zlevel zsl) (zlevel zsl) h zsl;
  let us := us ++ replicate (lvl - zlevel zsl) (header zsl, 0) in
  let newlevel := Nat.max lvl (zlevel zsl) in
  let '(h, x) := zslCreateNode h lvl sc (Some e) in
  '(u0, rank0) ← us !! 0%nat;
  h ← link_levels lvl 0 h x us rank0;
  h ← bump_spans (newlevel - lvl) lvl h us;
  h ← set_backward h x (if decide (u0 = header zsl) then None else Some u0);
  l ← get_level h x 0;
  '(h, t) ← match forward l with
            | Some y => h ← set_backward h y (Some x); Some (h, tail zsl)
            | None => Some (h, Some x)
            end;
  Some (h, ZSkiplist (header zsl) t (u64 (zlength zsl + 1)) newlevel, x).

(** ** Deletion *)

Fixpoint unlink_levels (n : nat) (i : nat) (h : heap) (x : ptr) (us : list (ptr * Z)) : option heap :=
  match n with
  | O => Some h
  | S n =>
    '(u, _) ← us !! i;
    l ← get_level h u i;
    h ← (if decide (forward l = Some x) then
           lx ← get_level h x i;
           h ← set_span h u i (u64 (span l + u64 (span lx - 1)));
           set_forward h u i (forward lx)
         else set_span h u i (u64 (span l - 1)));
    unlink_levels n (S i) h x us
  end.

(** [while (zsl->level > 1 && zsl->header->level[zsl->level-1].forward == NULL)]. *)
Fixpoint shrink_level (lvl : nat) (h : heap) (hd : ptr) : option nat :=
  match lvl with
  | S (S _ as lvl') =>
    l ← get_level h hd lvl';
    match forward l with
    | None => shrink_level lvl' h hd
    | Some _ => Some lvl
    end
  | _ => Some lvl
  end.

Definition zslDeleteNode (h : heap) (zsl : zskiplist) (x : ptr) (us : list (ptr * Z)) :
    option (heap * zskiplist) :=
  h ← unlink_levels (zlevel zsl) 0 h x us;
  nx ← h !! x;
  l ← level nx !! 0%nat;
  '(h, t) ← match forward l with
            | Some y => h ← set_backward h y (backward nx); Some (h, tail zsl)
            | None => Some (h, backward nx)
            end;
  lvl ← shrink_level (zlevel zsl) h (header zsl);
  Some (h, ZSkiplist (header zsl) t (u64 (zlength zsl - 1)) lvl).

(** [score == x->score && sdscmp(x->ele, ele) == 0]. *)
Definition is_node (sc : D) (e : sds) (n : zskiplistNode) : bool :=
  score_eq sc (score n) && match ele n with Some x => bool_decide (sdscmp x e = 0) | None => false end.

(** [keep] is [node != NULL]: the node is returned instead of freed. *)
Definition zslDelete (h : heap) (zsl : zskiplist) (sc : D) (e : sds) (keep : bool) :
    option (heap * zskiplist * option ptr) :=
  us ← search h zsl (fun n _ => before sc e n);
  l ← get_level h (found zsl us) 0;
  match forward l with
  | None => Some (h, zsl, None)
  | Some x =>
    n ← h !! x;
    if is_node sc e n then
      '(h, zsl) ← zslDeleteNode h zsl x us;
      Some (if keep then h else zslFreeNode h x, zsl, Some x)
    else Some (h, zsl, None)
  end.

Definition zslUpdateScore (rnd : list bool) (h : heap) (zsl : zskiplist) (curscore : D) (e : sds)
    (newscore : D) : option (heap * zskiplist * ptr) :=
  us ← search h zsl (fun n _ => before curscore e n);
  l ← get_level h (found zsl us) 0;
  x ← forward l;
  n ← h !! x;
  _ ← assert (is_node curscore e n = true);
  prev_ok ← match backward n with
            | None => Some true
            | Some b => nb ← h !! b; Some (score_lt (score nb) newscore)
            end;
  lx ← level n !! 0%nat;
  next_ok ← match forward lx with
            | None => Some true
            | Some f => nf ← h !! f; Some (score_lt newscore (score nf))
            end;
  if (prev_ok : bool) && (next_ok : bool) then
    h ← set_score h x newscore;
    Some (h, zsl, x)
  else
    '(h, zsl) ← zslDeleteNode h zsl x us;
    ex ← ele n;
    '(h, zsl, newnode) ← zslInsert rnd h zsl newscore ex;
    Some (zslFreeNode h x, zsl, newnode).

(** ** Ranges *)

Record zrangespec := ZRange { min : D; max : D; minex : bool; maxex : bool }.

(** [a <= b], [a >= b]. *)
Definition score_le (a b : D) : bool := score_lt a b || score_eq a b.

Definition zslValueGteMin (value : D) (spec : zrangespec) : bool :=
  if minex spec then score_lt (min spec) value else score_le (min spec) value.

Definition zslValueLteMax (value : D) (spec : zrangespec) : bool :=
  if maxex spec then score_lt value (max spec) else score_le value (max spec).

(** The range functions by score and by member differ only in the two tests;
    [gte] and [lte] are these tests on a node and [empty] the test for ranges
    that are always empty. *)
Definition is_in_range (h : heap) (zsl : zskiplist) (empty : bool) (gte lte : zskiplistNode -> bool) :
    option bool :=
  if empty then Some false
  else
    match tail zsl with
    | None => Some false
    | Some x =>
      n ← h !! x;
      if negb (gte n) then Some false
      else
        l ← get_level h (header zsl) 0;
        match forward l with
        | None => Some false
        | Some x => n ← h !! x; Some (lte n)
        end
    end.

Definition first_in_range (h : heap) (zsl : zskiplist) (empty : bool) (gte lte : zskiplistNode -> bool) :
    option (option ptr) :=
  inr ← is_in_range h zsl empty gte lte;
  if negb inr then Some None
  else
    us ← search h zsl (fun n _ => negb (gte n));
    l ← get_level h (found zsl us) 0;
    x ← forward l;
    n ← h !! x;
    Some (if lte n then Some x else None).

Definition last_in_range (h : heap) (zsl : zskiplist) (empty : bool) (gte lte : zskiplistNode -> bool) :
    option (option ptr) :=
  inr ← is_in_range h zsl empty gte lte;
  if negb inr then Some None
  else
    us ← search h zsl (fun n _ => lte n);
    let x := found zsl us in
    n ← h !! x;
    Some (if gte n then Some x else None).

Definition score_empty (range : zrangespec) : bool :=
  score_lt (max range) (min range) ||
  (score_eq (min range) (max range) && (minex range || maxex range)).

Definition zslIsInRange (h : heap) (zsl : zskiplist) (range : zrangespec) : option bool :=
  is_in_range h zsl (score_empty range) (fun n => zslValueGteMin (score n) range)
    (fun n => zslValueLteMax (score n) range).

Definition zslFirstInRange (h : heap) (zsl : zskiplist) (range : zrangespec) : option (option ptr) :=
  first_in_range h zsl (score_empty range) (fun n => zslValueGteMin (score n) range)
    (fun n => zslValueLteMax (score n) range).

Definition zslLastInRange (h : heap) (zsl : zskiplist) (range : zrangespec) : option (option ptr) :=
  last_in_range h zsl (score_empty range) (fun n => zslValueGteMin (score n) range)
    (fun n => zslValueLteMax (score n) range).

(** The deletion of nodes from [x] on while [inr] holds of the node and of its
    rank: the store, the skip list and the members given to [dictDelete]. *)
Fixpoint delete_while (fuel : nat) (h : heap) (zsl : zskiplist) (us : list (ptr * Z))
    (inr : zskiplistNode -> Z -> bool) (x : option ptr) (traversed : Z) :
    option (heap * zskiplist * list sds) :=
  match x with
  | None => Some (h, zsl, [])
  | Some p =>
    match fuel with
    | O => None
    | S fuel =>
      n ← h !! p;
      if inr n traversed then
        l ← level n !! 0%nat;
        '(h, zsl) ← zslDeleteNode h zsl p us;
        e ← ele n;
        '(h, zsl, es) ← delete_while fuel (zslFreeNode h p) zsl us inr (forward l) (u64 (traversed + 1));
        Some (h, zsl, e :: es)
      else Some (h, zsl, [])
    end
  end.

Definition delete_range (h : heap) (zsl : zskiplist) (gte lte : zskiplistNode -> bool) :
    option (heap * zskiplist * list sds) :=
  us ← search h zsl (fun n _ => negb (gte n));
  l ← get_level h (found zsl us) 0;
  delete_while (size h) h zsl us (fun n _ => lte n) (forward l) 0.

(** The result lists the members removed; [removed] is its length. *)
Definition zslDeleteRangeByScore (h : heap) (zsl : zskiplist) (range : zrangespec) :
    option (heap * zskiplist * list sds) :=
  delete_range h zsl (fun n => zslValueGteMin (score n) range) (fun n => zslValueLteMax (score n) range).

Definition zslDeleteRangeByRank (h : heap) (zsl : zskiplist) (start end_ : Z) :
    option (heap * zskiplist * list sds) :=
  us ← search h zsl (fun _ t => bool_decide (t < start));
  let traversed := match us with (_, t) :: _ => t | [] => 0 end in
  l ← get_level h (found zsl us) 0;
  delete_while (size h) h zsl us (fun _ t => bool_decide (t <= end_)) (forward l) (u64 (traversed + 1)).

(** ** Ranks *)

(** [n->score < score || (n->score == score && sdscmp(n->ele, ele) <= 0)]. *)
Definition not_after (sc : D) (e : sds) (n : zskiplistNode) : bool :=
  score_lt (score n) sc ||
  (score_eq (score n) sc && match ele n with Some x => bool_decide (sdscmp x e <= 0) | None => false end).

Fixpoint rank_loop (i : nat) (h : heap) (sc : D) (e : sds) (x : ptr) (rank : Z) : option Z :=
  match i with
  | O => Some 0
  | S i =>
    '(x, rank) ← walk_level (size h) h i (fun n _ => not_after sc e n) x rank;
    n ← h !! x;
    match ele n with
    | Some xe =>
      if score_eq (score n) sc && bool_decide (sdscmp xe e = 0) then Some rank
      else rank_loop i h sc e x rank
    | None => rank_loop i h sc e x rank
    end
  end.

Definition zslGetRank (h : heap) (zsl : zskiplist) (sc : D) (e : sds) : option Z :=
  rank_loop (zlevel zsl) h sc e (header zsl) 0.

Fixpoint element_loop (i : nat) (h : heap) (rank : Z) (x : ptr) (traversed : Z) : option (option ptr) :=
  match i with
  | O => Some None
  | S i =>
    '(x, traversed) ← walk_level (size h) h i (fun _ t => bool_decide (t <= rank)) x traversed;
    if decide (traversed = rank) then Some (Some x) else element_loop i h rank x traversed
  end.

Definition zslGetElementByRank (h : heap) (zsl : zskiplist) (rank : Z) : option (option ptr) :=
  element_loop (zlevel zsl) h rank (header zsl) 0.

(** ** Lexicographic ranges *)

(** A bound: [shared.minstring], [shared.maxstring] or a string.  The pointer
    comparisons of [sdscmplex] only meet the shared strings. *)
Inductive lex_bound := minstring | maxstring | LexStr (s : sds).

Definition sdscmplex (a b : lex_bound) : Z :=
  match a, b with
  | minstring, minstring | maxstring, maxstring => 0
  | minstring, _ | _, maxstring => -1
  | maxstring, _ | _, minstring => 1
  | LexStr a, LexStr b => sdscmp a b
  end.

Record zlexrangespec := ZLexRange { lmin : lex_bound; lmax : lex_bound; lminex : bool; lmaxex : bool }.

(** The first byte of a C string, NUL at its end. *)
Definition c_at (s : sds) : Z := default 0 (head s).

(** [item->ptr] as bytes without the terminating NUL: the bound and [*ex], or
    [C_ERR]. *)
Definition zslParseLexRangeItem (c : sds) : option (lex_bound * bool) :=
  match c with
  | 43 :: s => if decide (c_at s = 0) then Some (maxstring, true) else None
  | 45 :: s => if decide (c_at s = 0) then Some (minstring, true) else None
  | 40 :: s => Some (LexStr s, true)
  | 91 :: s => Some (LexStr s, false)
  | _ => None
  end.

Definition zslLexValueGteMin (value : sds) (spec : zlexrangespec) : bool :=
  if lminex spec then bool_decide (sdscmplex (LexStr value) (lmin spec) > 0)
  else bool_decide (sdscmplex (LexStr value) (lmin spec) >= 0).

Definition zslLexValueLteMax (value : sds) (spec : zlexrangespec) : bool :=
  if lmaxex spec then bool_decide (sdscmplex (LexStr value) (lmax spec) < 0)
  else bool_decide (sdscmplex (LexStr value) (lmax spec) <= 0).

Definition lex_empty (range : zlexrangespec) : bool :=
  let cmp := sdscmplex (lmin range) (lmax range) in
  bool_decide (cmp > 0) || (bool_decide (cmp = 0) && (lminex range || lmaxex range)).

(** The tests on a node; the header, which has no member, is never tested by
    the searches. *)
Definition lex_gte (range : zlexrangespec) (n : zskiplistNode) : bool :=
  match ele n with Some e => zslLexValueGteMin e range | None => false end.
Definition lex_lte (range : zlexrangespec) (n : zskiplistNode) : bool :=
  match ele n with Some e => zslLexValueLteMax e range | None => false end.

Definition zslIsInLexRange (h : heap) (zsl : zskiplist) (range : zlexrangespec) : option bool :=
  is_in_range h zsl (lex_empty range) (lex_gte range) (lex_lte range).

Definition zslFirstInLexRange (h : heap) (zsl : zskiplist) (range : zlexrangespec) : option (option ptr) :=
  first_in_range h zsl (lex_empty range) (lex_gte range) (lex_lte range).

Definition zslLastInLexRange (h : heap) (zsl : zskiplist) (range : zlexrangespec) : option (option ptr) :=
  last_in_range h zsl (lex_empty range) (lex_gte range) (lex_lte range).

Definition zslDeleteRangeByLex (h : heap) (zsl : zskiplist) (range : zlexrangespec) :
    option (heap * zskiplist * list sds) :=
  delete_range h zsl (lex_gte range) (lex_lte range).
End skiplist.

Abbreviation heap D := (gmap ptr (@zskiplistNode D)).

(** ** The order of members *)

(** [sdscmp] compares lexicographically. *)
Fixpoint lexcmp (a b : sds) : Z :=
  match a, b with
  | [], [] => 0
  | [], _ => -1
  | _, [] => 1
  | x :: a, y :: b => if decide (x = y) then lexcmp a b else x - y
  end.

Lemma memcmp_lexcmp a b :
  lexcmp a b = (let cmp := memcmp a b (Nat.min (length a) (length b)) in
                if decide (cmp = 0) then if decide (zlen a > zlen b) then 1
                                         else if decide (zlen a < zlen b) then -1 else 0
                else cmp).
Proof.
  revert b. induction a as [|x a IH]; intros [|y b]; cbn [lexcmp memcmp length Nat.min].
  - done.
  - cbn zeta. rewrite decide_True by done. rewrite zlen_cons, zlen_nil. pose proof (zlen_nonneg b).
    by rewrite decide_False, decide_True by lia.
  - cbn zeta. rewrite decide_True by done. rewrite zlen_cons, zlen_nil. pose proof (zlen_nonneg a).
    by rewrite decide_True by lia.
  - destruct (decide (x = y)) as [->|Hne]; cbn zeta.
    + rewrite IH. cbn zeta. rewrite !zlen_cons. repeat case_decide; lia.
    + by rewrite decide_False by lia.
Qed.

Lemma sdscmp_lexcmp a b : sdscmp a b = lexcmp a b.
Proof.
  rewrite memcmp_lexcmp. unfold sdscmp. cbn zeta.
  replace (Z.to_nat (if decide (zlen a < zlen b) then zlen a else zlen b))
    with (Nat.min (length a) (length b)); [done|]. case_decide; unfold zlen in *; lia.
Qed.

Lemma lexcmp_eq a b : lexcmp a b = 0 <-> a = b.
Proof.
  revert b. induction a as [|x a IH]; intros [|y b]; cbn [lexcmp]; [done|done|done|].
  case_decide as E; [subst; rewrite IH; split; congruence|]. split; [lia|congruence].
Qed.

Lemma lexcmp_sym a b : lexcmp a b < 0 <-> lexcmp b a > 0.
Proof.
  revert b. induction a as [|x a IH]; intros [|y b]; cbn [lexcmp]; [lia|lia|lia|].
  destruct (decide (x = y)) as [->|]; [by rewrite decide_True|]. rewrite decide_False by lia. lia.
Qed.

Lemma lexcmp_trans a b c : lexcmp a b < 0 -> lexcmp b c < 0 -> lexcmp a c < 0.
Proof.
  revert b c. induction a as [|x a IH]; intros [|y b] [|z c]; cbn [lexcmp]; try lia.
  repeat case_decide; subst; try lia; eauto.
Qed.

(** What IEEE 754 says of comparisons. *)
Class ScoreLaws (D : Type) `{Score D} : Prop := {
  score_lt_irrefl a : score_lt a a = false;
  score_lt_trans a b c : score_lt a b = true -> score_lt b c = true -> score_lt a c = true;
  score_total a b : isnan a = false -> isnan b = false ->
    score_lt a b = true \/ score_eq a b = true \/ score_lt b a = true;
  score_eq_refl a : isnan a = false -> score_eq a a = true;
  score_eq_sym a b : score_eq a b = score_eq b a;
  score_eq_lt_l a b c : score_eq a b = true -> score_lt a c = score_lt b c;
  score_eq_lt_r a b c : score_eq a b = true -> score_lt c a = score_lt c b;
  score_eq_trans a b c : score_eq a b = true -> score_eq b c = true -> score_eq a c = true;
}.

Section order.
Context {D : Type} `{ScoreLaws D}.

(** Members are ordered by score, then by their bytes. *)
Definition klt (a b : D * sds) : Prop :=
  score_lt a.1 b.1 = true \/ (score_eq a.1 b.1 = true /\ sdscmp a.2 b.2 < 0).

Lemma klt_irrefl a : ~ klt a a.
Proof using All.
  intros [Hl|[_ Hc]].
  - by rewrite score_lt_irrefl in Hl.
  - rewrite sdscmp_lexcmp in Hc. assert (lexcmp a.2 a.2 = 0) by (by apply lexcmp_eq). lia.
Qed.

Lemma klt_trans a b c : klt a b -> klt b c -> klt a c.
Proof using All.
  intros [H1|[E1 H1]] [H2|[E2 H2]].
  - left. by eapply score_lt_trans.
  - left. by rewrite <- (score_eq_lt_r _ _ _ E2).
  - left. by rewrite (score_eq_lt_l _ _ _ E1).
  - right. split; [by eapply score_eq_trans|]. rewrite sdscmp_lexcmp in *. by eapply lexcmp_trans.
Qed.

Lemma klt_total a b :
  isnan a.1 = false -> isnan b.1 = false ->
  klt a b \/ (score_eq a.1 b.1 = true /\ a.2 = b.2) \/ klt b a.
Proof using All.
  intros Ha Hb. destruct (score_total a.1 b.1 Ha Hb) as [Hl|[He|Hl]].
  - left. by left.
  - destruct (Ztrichotomy (sdscmp a.2 b.2) 0) as [Hc|[Hc|Hc]].
    + left. by right.
    + right. left. split; [done|]. rewrite sdscmp_lexcmp in Hc. by apply lexcmp_eq.
    + right. right. right. rewrite score_eq_sym. split; [done|].
      rewrite sdscmp_lexcmp in *. apply lexcmp_sym. lia.
  - right. right. by left.
Qed.
End order.
