(* ===== verification/SkiplistOps.v ===== *)
(** * Skip lists: invariant and operations

    The representation of a sorted list of members in the nodes of a skip
    list, and the effect of every operation of Skiplist.v on it.

    A skip list is seen as the list of its nodes with their heights, the header
    first, so that the index of a node is its rank.  At level [i] the node of
    rank [r] points to the first node of larger rank that is higher than [i],
    and its span is the difference of the ranks; at the end of a level the
    span is the number of nodes that follow. *)

From S2P Require Import Prelude Skiplist.

#[local] Set Default Proof Using "Type".

(** ** Heights and ranks *)

Abbreviation hts := (list (ptr * nat)).

(** [o] is the rank of the first node after rank [r] that is higher than
    [i]. *)
Definition is_next (L : hts) (i r : nat) (o : option nat) : Prop :=
  match o with
  | Some q => (r < q)%nat /\ (exists x, L !! q = Some x /\ (i < x.2)%nat) /\
      forall j x, (r < j < q)%nat -> L !! j = Some x -> (x.2 <= i)%nat
  | None => forall j x, (r < j)%nat -> L !! j = Some x -> (x.2 <= i)%nat
  end.

(** [q] is the rank of the last node up to rank [k] that is higher than [i]. *)
Definition is_prev (L : hts) (i k q : nat) : Prop :=
  (q <= k)%nat /\ (exists x, L !! q = Some x /\ (i < x.2)%nat) /\
  forall j x, (q < j <= k)%nat -> L !! j = Some x -> (x.2 <= i)%nat.

Definition nxt (L : hts) (i r : nat) : option nat :=
  (fun x => (S r + x.1)%nat) <$> list_find (fun x : ptr * nat => (i < x.2)%nat) (drop (S r) L).

Lemma nxt_spec L i r : is_next L i r (nxt L i r).
Proof.
  unfold nxt. destruct (list_find _ _) as [[j x]|] eqn:E; cbn [fmap option_fmap option_map fst is_next].
  - apply list_find_Some in E as (Hj & Hx & Hmin). rewrite lookup_drop in Hj. split_and!; [lia|by eexists|].
    intros j' y Hj' Hy. destruct (decide (i < y.2)%nat) as [Hlt|]; [|lia]. exfalso.
    apply (Hmin (j' - S r)%nat y); [|lia|done]. rewrite lookup_drop.
    by replace (S r + (j' - S r))%nat with j' by lia.
  - apply list_find_None in E. rewrite Forall_lookup in E. intros j y Hj Hy.
    specialize (E (j - S r)%nat y). rewrite lookup_drop in E.
    replace (S r + (j - S r))%nat with j in E by lia. specialize (E Hy). lia.
Qed.

Lemma is_next_unique L i r o o' : is_next L i r o -> is_next L i r o' -> o = o'.
Proof.
  destruct o as [q|], o' as [q'|]; cbn [is_next].
  - intros (? & (x & Hx & Hi) & Hm) (? & (x' & Hx' & Hi') & Hm'). f_equal.
    destruct (Nat.lt_trichotomy q q') as [Hl|[->|Hl]]; [|done|].
    + specialize (Hm' q x ltac:(lia) Hx). lia.
    + specialize (Hm q' x' ltac:(lia) Hx'). lia.
  - intros (? & (x & Hx & Hi) & _) Hm. specialize (Hm q x ltac:(lia) Hx). lia.
  - intros Hm (? & (x & Hx & Hi) & _). specialize (Hm q' x ltac:(lia) Hx). lia.
  - done.
Qed.

Lemma nxt_eq L i r o : is_next L i r o -> nxt L i r = o.
Proof. intros H. eapply is_next_unique; [apply nxt_spec|done]. Qed.

Lemma nxt_is L i r o : nxt L i r = o -> is_next L i r o.
Proof. intros <-. apply nxt_spec. Qed.

Lemma is_prev_unique L i k q q' : is_prev L i k q -> is_prev L i k q' -> q = q'.
Proof.
  intros (? & (x & Hx & Hi) & Hm) (? & (x' & Hx' & Hi') & Hm').
  destruct (Nat.lt_trichotomy q q') as [Hl|[->|Hl]]; [|done|].
  - specialize (Hm q' x' ltac:(lia) Hx'). lia.
  - specialize (Hm' q x ltac:(lia) Hx). lia.
Qed.

(** The level of the node of rank [r]. *)
Definition lev (L : hts) (i r : nat) : zskiplistLevel :=
  ZLevel (q ← nxt L i r; fst <$> L !! q)
         (Z.of_nat (default (length L - 1)%nat (nxt L i r)) - Z.of_nat r).

(** The header does not count for what is next. *)
Lemma nxt_head x x' L i r : nxt (x :: L) i r = nxt (x' :: L) i r.
Proof. done. Qed.

(** ** Putting a node into the list

    [L2] is [L1] with [x] at rank [S k]. *)
Section insert_rank.
Variables (L1 : hts) (k : nat) (x : ptr * nat).
Hypothesis Hk : (k < length L1)%nat.
Let L2 := take (S k) L1 ++ x :: drop (S k) L1.

Lemma ins_low j : (j <= k)%nat -> L2 !! j = L1 !! j.
Proof using Hk.
  intros Hj. unfold L2. rewrite lookup_app_l by (rewrite length_take; lia).
  by rewrite lookup_take_lt by lia.
Qed.

Lemma ins_mid : L2 !! S k = Some x.
Proof using Hk.
  unfold L2. rewrite lookup_app_r by (rewrite length_take; lia).
  rewrite length_take. by replace (S k - Nat.min (S k) (length L1))%nat with 0%nat by lia.
Qed.

Lemma ins_high j : (k < j)%nat -> L2 !! S j = L1 !! j.
Proof using Hk.
  intros Hj. unfold L2. rewrite lookup_app_r by (rewrite length_take; lia).
  rewrite length_take. replace (S j - Nat.min (S k) (length L1))%nat with (S (j - S k)) by lia.
  change ((x :: drop (S k) L1) !! S (j - S k)) with (drop (S k) L1 !! (j - S k)%nat).
  rewrite lookup_drop. f_equal. lia.
Qed.

Lemma ins_inv j y : L2 !! j = Some y ->
  (j <= k /\ L1 !! j = Some y)%nat \/ (j = S k /\ y = x) \/ (exists j', j = S j' /\ k < j' /\ L1 !! j' = Some y)%nat.
Proof using Hk.
  intros Hy. destruct (decide (j <= k)%nat); [left; by rewrite ins_low in Hy|right].
  destruct (decide (j = S k)) as [->|]; [left; rewrite ins_mid in Hy; naive_solver|right].
  destruct j as [|j]; [lia|]. exists j. rewrite ins_high in Hy by lia. split_and!; [done|lia|done].
Qed.

(** Below the last high node before the place nothing changes. *)
Lemma nxt_ins_below i r q : is_prev L1 i k q -> (r < q)%nat -> nxt L2 i r = nxt L1 i r.
Proof using Hk.
  intros (Hq & (y & Hy & Hi) & _) Hr. apply nxt_eq. pose proof (nxt_spec L1 i r) as Hn.
  destruct (nxt L1 i r) as [j|]; cbn [is_next] in *.
  - destruct Hn as (Hrj & (z & Hz & Hiz) & Hm). assert (j <= q)%nat as Hjq.
    { destruct (decide (j <= q)%nat); [done|]. specialize (Hm q y ltac:(lia) Hy). lia. }
    split_and!; [done|exists z; rewrite ins_low by lia; done|].
    intros j' w Hj' Hw. rewrite ins_low in Hw by lia. by apply (Hm j').
  - specialize (Hn q y Hr Hy). lia.
Qed.

(** The last high node points to [x] where [x] is high. *)
Lemma nxt_ins_to i q : is_prev L1 i k q -> (i < x.2)%nat -> nxt L2 i q = Some (S k).
Proof using Hk.
  intros (Hq & _ & Hm) Hi. apply nxt_eq. split_and!; [lia|exists x; by rewrite ins_mid|].
  intros j w Hj Hw. rewrite ins_low in Hw by lia. apply (Hm j); [lia|done].
Qed.

(** What is next after the place, seen from the last high node. *)
Lemma next_past i q : is_prev L1 i k q -> forall j, nxt L1 i q = Some j -> (k < j)%nat.
Proof using Hk.
  intros (Hq & _ & Hm) j Hj. apply nxt_is in Hj as (Hqj & (y & Hy & Hi) & _).
  destruct (decide (k < j)%nat); [done|]. specialize (Hm j y ltac:(lia) Hy). lia.
Qed.

Lemma is_next_shift i q r :
  is_prev L1 i k q -> (S k <= r)%nat \/ (r = q /\ x.2 <= i)%nat -> (r <= S k)%nat ->
  is_next L2 i r (S <$> nxt L1 i q).
Proof using Hk.
  intros Hprev Hr Hr'. pose proof (nxt_spec L1 i q) as Hn. pose proof (next_past i q Hprev) as Hpast.
  pose proof Hprev as (Hq & _ & Hm).
  destruct (nxt L1 i q) as [j|]; cbn [fmap option_fmap option_map is_next] in *.
  - destruct Hn as (Hqj & (y & Hy & Hiy) & Hmn). specialize (Hpast j eq_refl).
    split_and!; [lia|exists y; rewrite ins_high by lia; done|]. intros j' w Hj' Hw.
    apply ins_inv in Hw as [[Hle Hw]|[[-> ->]|(j'' & -> & Hlt & Hw)]].
    + apply (Hm j'); [lia|done].
    + lia.
    + apply (Hmn j''); [lia|done].
  - intros j' w Hj' Hw. apply ins_inv in Hw as [[Hle Hw]|[[-> ->]|(j'' & -> & Hlt & Hw)]].
    + apply (Hm j'); [lia|done].
    + lia.
    + apply (Hn j''); [lia|done].
Qed.

(** The last high node jumps over [x] where [x] is low. *)
Lemma nxt_ins_over i q : is_prev L1 i k q -> (x.2 <= i)%nat -> nxt L2 i q = S <$> nxt L1 i q.
Proof using Hk. intros Hp Hi. apply nxt_eq. apply is_next_shift; [done|by right|destruct Hp; lia]. Qed.

(** [x] points to what the last high node pointed to. *)
Lemma nxt_ins_from i q : is_prev L1 i k q -> nxt L2 i (S k) = S <$> nxt L1 i q.
Proof using Hk. intros Hp. apply nxt_eq. apply is_next_shift; [done|left; lia|lia]. Qed.

Lemma nxt_ins_above i r : (k < r)%nat -> nxt L2 i (S r) = S <$> nxt L1 i r.
Proof using Hk.
  intros Hr. apply nxt_eq. pose proof (nxt_spec L1 i r) as Hn.
  destruct (nxt L1 i r) as [j|]; cbn [fmap option_fmap option_map is_next] in *.
  - destruct Hn as (Hrj & (y & Hy & Hiy) & Hmn).
    split_and!; [lia|exists y; rewrite ins_high by lia; done|]. intros j' w Hj' Hw.
    destruct j' as [|j']; [lia|]. rewrite ins_high in Hw by lia. apply (Hmn j'); [lia|done].
  - intros j' w Hj' Hw. destruct j' as [|j']; [lia|]. rewrite ins_high in Hw by lia.
      apply (Hn j'); [lia|done].
Qed.

(** The levels of the list with [x] in terms of those without. *)
Lemma ins_length : length L2 = S (length L1).
Proof using Hk. unfold L2. rewrite length_app, length_take. cbn [length]. rewrite length_drop. lia. Qed.

Lemma lev_ins_below i r q : is_prev L1 i k q -> (r < q)%nat -> lev L2 i r = lev L1 i r.
Proof using Hk.
  intros Hp Hr. unfold lev. rewrite (nxt_ins_below i r q Hp Hr), ins_length.
  pose proof Hp as (Hq & (y & Hy & Hi) & _). pose proof (nxt_spec L1 i r) as Hn.
  destruct (nxt L1 i r) as [j|]; cbn [is_next mbind option_bind] in *.
  - destruct Hn as (_ & _ & Hm). rewrite ins_low; [done|].
    destruct (decide (j <= k)%nat); [done|]. specialize (Hm q y ltac:(lia) Hy). lia.
  - specialize (Hn q y Hr Hy). lia.
Qed.

Lemma lev_ins_to i q : is_prev L1 i k q -> (i < x.2)%nat ->
  lev L2 i q = ZLevel (Some x.1) (Z.of_nat k - Z.of_nat q + 1).
Proof using Hk.
  intros Hp Hi. unfold lev. rewrite (nxt_ins_to i q Hp Hi). cbn [mbind option_bind default from_option id].
  rewrite ins_mid. cbn [fmap option_fmap option_map]. f_equal. lia.
Qed.

Lemma lev_shift i r r' :
  (forall j, nxt L1 i r = Some j -> (k < j)%nat) -> nxt L2 i r' = S <$> nxt L1 i r ->
  lev L2 i r' = ZLevel (forward (lev L1 i r)) (span (lev L1 i r) + Z.of_nat r + 1 - Z.of_nat r').
Proof using Hk.
  intros Hgt Hr'. unfold lev. rewrite Hr', ins_length. cbn [forward span].
  destruct (nxt L1 i r) as [j|]; cbn [fmap option_fmap option_map mbind option_bind default from_option id].
  - rewrite ins_high by (by apply Hgt). f_equal. unfold id. lia.
  - f_equal. unfold id. lia.
Qed.

Lemma lev_ins_over i q : is_prev L1 i k q -> (x.2 <= i)%nat ->
  lev L2 i q = ZLevel (forward (lev L1 i q)) (span (lev L1 i q) + 1).
Proof using Hk.
  intros Hp Hi. rewrite (lev_shift i q q); [f_equal; lia|by apply next_past|by apply nxt_ins_over].
Qed.

Lemma lev_ins_from i q : is_prev L1 i k q ->
  lev L2 i (S k) = ZLevel (forward (lev L1 i q)) (span (lev L1 i q) - (Z.of_nat k - Z.of_nat q)).
Proof using Hk.
  intros Hp. rewrite (lev_shift i q (S k)); [f_equal; lia|by apply next_past|by apply nxt_ins_from].
Qed.

Lemma lev_ins_above i r : (k < r)%nat -> lev L2 i (S r) = lev L1 i r.
Proof using Hk.
  intros Hr. rewrite (lev_shift i r (S r)); [|intros j Hj|by apply nxt_ins_above].
  - unfold lev. cbn [forward span]. f_equal. lia.
  - apply nxt_is in Hj as [Hj _]. lia.
Qed.
End insert_rank.

(** ** The representation *)

Section rep.
Context {D : Type} `{ScoreLaws D}.

Record cell := Cell { cid : ptr; cht : nat; csc : D; cel : sds }.

Definition key (c : cell) : D * sds := (csc c, cel c).

Definition ranks (hd : ptr) (lvl : nat) (cs : list cell) : hts :=
  (hd, lvl) :: ((fun c => (cid c, cht c)) <$> cs).

Definition levels_ok (h : heap D) (L : hts) : Prop :=
  forall r p ht i, L !! r = Some (p, ht) -> (i < ht)%nat -> get_level h p i = Some (lev L i r).

(** The fields of a node besides its levels. *)
Definition info (h : heap D) (p : ptr) : option (option sds * D * option ptr * nat) :=
  (fun n => (ele n, score n, backward n, length (level n))) <$> h !! p.

Definition prev (cs : list cell) (j : nat) : option ptr :=
  match j with O => None | S j => cid <$> cs !! j end.

Record nodes_ok (h : heap D) (hd : ptr) (lvl : nat) (cs : list cell) : Prop := {
  no_nodup : NoDup (hd :: (cid <$> cs));
  no_header : exists sc b, info h hd = Some (None, sc, b, ZSKIPLIST_MAXLEVEL);
  no_above : forall i, (lvl <= i < ZSKIPLIST_MAXLEVEL)%nat -> exists s, get_level h hd i = Some (ZLevel None s);
  no_cells : forall j c, cs !! j = Some c ->
    info h (cid c) = Some (Some (cel c), csc c, prev cs j, cht c);
  no_heights : forall j c, cs !! j = Some c -> (1 <= cht c <= lvl)%nat;
  no_level : (1 <= lvl <= ZSKIPLIST_MAXLEVEL)%nat;
  no_levels : levels_ok h (ranks hd lvl cs);
}.

Record zsl_ok (h : heap D) (zsl : zskiplist) (cs : list cell) : Prop := {
  zo_nodes : nodes_ok h (header zsl) (zlevel zsl) cs;
  zo_tail : tail zsl = cid <$> last cs;
  zo_length : zlength zsl = zlen cs;
  zo_bound : zlen cs < 2 ^ 63;
  zo_sorted : StronglySorted klt (key <$> cs);
  zo_nan : Forall (fun c => isnan (csc c) = false) cs;
}.

(** ** Assignments *)

Definition same_info (h h' : heap D) : Prop := forall p, info h' p = info h p.

Definition same_levels (h h' : heap D) : Prop := forall p i, get_level h' p i = get_level h p i.

Definition levels_upd (h h' : heap D) (p : ptr) (i : nat) (l : zskiplistLevel) : Prop :=
  forall q j, get_level h' q j = if decide (q = p /\ j = i) then Some l else get_level h q j.

Lemma set_level_ok h p i l0 l :
  get_level h p i = Some l0 ->
  exists h', set_level h p i l = Some h' /\ levels_upd h h' p i l /\ same_info h h'.
Proof.
  unfold get_level, set_level. intros Hl. destruct (h !! p) as [n|] eqn:En; [|done]. cbn [mbind option_bind] in Hl |- *.
  rewrite Hl. cbn [mbind option_bind]. eexists. split; [done|]. split.
  - intros q j. destruct (decide (q = p)) as [->|Hq].
    + unfold get_level. rewrite lookup_insert_eq. cbn [mbind option_bind level]. destruct (decide (j = i)) as [->|Hj].
      * rewrite decide_True by done. rewrite list_lookup_insert_eq; [done|]. by eapply lookup_lt_Some.
      * rewrite decide_False by naive_solver. rewrite list_lookup_insert_ne by done. by rewrite En.
    + rewrite decide_False by naive_solver. unfold get_level. by rewrite lookup_insert_ne.
  - intros q. unfold info. destruct (decide (q = p)) as [->|Hq].
    + rewrite lookup_insert_eq, En. cbn. by rewrite length_insert.
    + by rewrite lookup_insert_ne.
Qed.

Lemma set_forward_ok h p i l0 f :
  get_level h p i = Some l0 ->
  exists h', set_forward h p i f = Some h' /\ levels_upd h h' p i (ZLevel f (span l0)) /\ same_info h h'.
Proof. intros Hl. unfold set_forward. rewrite Hl. cbn [mbind option_bind]. by eapply set_level_ok. Qed.

Lemma set_span_ok h p i l0 s :
  get_level h p i = Some l0 ->
  exists h', set_span h p i s = Some h' /\ levels_upd h h' p i (ZLevel (forward l0) s) /\ same_info h h'.
Proof. intros Hl. unfold set_span. rewrite Hl. cbn [mbind option_bind]. by eapply set_level_ok. Qed.

Lemma set_backward_ok h p b x :
  info h p = Some x ->
  exists h', set_backward h p b = Some h' /\ same_levels h h' /\
    forall q, info h' q = if decide (q = p) then Some (x.1.1, b, x.2) else info h q.
Proof.
  unfold info, set_backward. intros Hx. destruct (h !! p) as [n|] eqn:En; [|done].
  cbn [mbind option_bind fmap option_fmap option_map] in Hx |- *.
  injection Hx as <-. eexists. split; [done|]. split.
  - intros q j. unfold get_level. destruct (decide (q = p)) as [->|Hq].
    + by rewrite lookup_insert_eq, En.
    + by rewrite lookup_insert_ne.
  - intros q. destruct (decide (q = p)) as [->|Hq].
    + by rewrite lookup_insert_eq.
    + by rewrite lookup_insert_ne.
Qed.

Lemma levels_upd_eq h h' p i l : levels_upd h h' p i l -> get_level h' p i = Some l.
Proof. intros Hu. rewrite Hu. by rewrite decide_True. Qed.

Lemma levels_upd_ne h h' p i l q j :
  levels_upd h h' p i l -> ~ (q = p /\ j = i) -> get_level h' q j = get_level h q j.
Proof. intros Hu Hn. rewrite Hu. by rewrite decide_False. Qed.

Lemma same_info_trans h1 h2 h3 : same_info h1 h2 -> same_info h2 h3 -> same_info h1 h3.
Proof. intros H1 H2 p. by rewrite H2, H1. Qed.

(** ** Lookups in the list of ranks *)

Lemma ranks_length hd lvl cs : length (ranks hd lvl cs) = S (length cs).
Proof. unfold ranks. cbn. by rewrite length_fmap. Qed.

Lemma ranks_lookup_S hd lvl cs j : ranks hd lvl cs !! S j = (fun c => (cid c, cht c)) <$> cs !! j.
Proof.
  change (ranks hd lvl cs !! S j) with (((fun c => (cid c, cht c)) <$> cs) !! j).
  apply list_lookup_fmap.
Qed.

Lemma ranks_S hd lvl cs j c : cs !! j = Some c -> ranks hd lvl cs !! S j = Some (cid c, cht c).
Proof. intros Hc. by rewrite ranks_lookup_S, Hc. Qed.

Lemma ranks_S_inv hd lvl cs j x :
  ranks hd lvl cs !! S j = Some x -> exists c, cs !! j = Some c /\ x = (cid c, cht c).
Proof.
  rewrite ranks_lookup_S. destruct (cs !! j) as [c|]; [|done].
  cbn. intros [= <-]. by exists c.
Qed.

Lemma ranks_fst hd lvl cs : (ranks hd lvl cs).*1 = hd :: (cid <$> cs).
Proof.
  unfold ranks. cbn. f_equal. rewrite <- list_fmap_compose. by apply list_fmap_ext.
Qed.

Lemma ranks_inj hd lvl cs r r' p x x' :
  NoDup (hd :: (cid <$> cs)) ->
  ranks hd lvl cs !! r = Some (p, x) -> ranks hd lvl cs !! r' = Some (p, x') -> r = r'.
Proof.
  intros Hnd H1 H2. rewrite <- (ranks_fst hd lvl) in Hnd.
  eapply (NoDup_lookup _ r r' p Hnd); rewrite list_lookup_fmap.
  - by rewrite H1.
  - by rewrite H2.
Qed.

(** ** Searching *)

(** The condition holds of the nodes up to rank [k] and of no other. *)
Definition cond_upto (h : heap D) (L : hts) (cond : zskiplistNode -> Z -> bool) (k : nat) : Prop :=
  forall j p ht, L !! S j = Some (p, ht) ->
  exists n, h !! p = Some n /\ cond n (Z.of_nat (S j)) = bool_decide (S j <= k)%nat.

Lemma lev_span_sum L i r :
  Z.of_nat r + span (lev L i r) = Z.of_nat (default (length L - 1)%nat (nxt L i r)).
Proof. unfold lev. cbn [span]. lia. Qed.

Lemma nxt_lookup L i r q : nxt L i r = Some q ->
  exists p ht, L !! q = Some (p, ht) /\ (r < q)%nat /\ (i < ht)%nat /\ forward (lev L i r) = Some p.
Proof.
  intros Hq. pose proof Hq as (Hrq & ([p ht] & Hp & Hi) & _)%nxt_is. exists p, ht.
  split_and!; [done|done|done|]. unfold lev. cbn [forward]. rewrite Hq. cbn [mbind option_bind].
  by rewrite Hp.
Qed.

Lemma walk_ok h L cond k i : forall fuel r p ht,
  levels_ok h L -> cond_upto h L cond k -> zlen L <= 2 ^ 63 ->
  L !! r = Some (p, ht) -> (i < ht)%nat -> (r <= k)%nat -> (length L <= fuel + r)%nat ->
  exists q pq, walk_level fuel h i cond p (Z.of_nat r) = Some (pq, Z.of_nat q) /\
    L.*1 !! q = Some pq /\ is_prev L i k q /\ (r <= q)%nat.
Proof.
  induction fuel as [|fuel IH]; intros r p ht HL Hc Hlen Hr Hi Hrk Hfuel.
  { apply lookup_lt_Some in Hr. lia. }
  cbn [walk_level]. rewrite (HL r p ht i Hr Hi). cbn [mbind option_bind].
  assert (forall o, nxt L i r = o -> (forall q, o = Some q -> (k < q)%nat) ->
    is_prev L i k r) as Hstop.
  { intros o Ho Hgt. split_and!; [done|by exists (p, ht)|]. intros j x Hj Hx.
    apply nxt_is in Ho. destruct o as [q|]; cbn [is_next] in Ho.
    - destruct Ho as (_ & _ & Hm). specialize (Hgt q eq_refl). apply (Hm j); [lia|done].
    - apply (Ho j); [lia|done]. }
  destruct (nxt L i r) as [q|] eqn:Eq.
  - destruct (nxt_lookup _ _ _ _ Eq) as (p' & ht' & Hp' & Hrq & Hi' & ->).
    rewrite lev_span_sum, Eq. cbn [default from_option id].
    assert (Z.of_nat q < zlen L) as Hqlen.
    { apply lookup_lt_Some in Hp'. unfold zlen. lia. }
    rewrite u64_small by lia. destruct q as [|q]; [lia|].
    destruct (Hc q p' ht' Hp') as (n & -> & Hcn). cbn [mbind option_bind]. rewrite Hcn.
    destruct (decide (S q <= k)%nat) as [Hk|Hk].
    + rewrite bool_decide_true by done. destruct (IH (S q) p' ht') as (q' & pq & ? & ? & ? & ?); [done..|lia|].
      exists q', pq. split_and!; [done..|lia].
    + rewrite bool_decide_false by done. exists r, p. split_and!; [done| |apply (Hstop _ eq_refl); intros ? [= <-]; lia|done].
      by rewrite list_lookup_fmap, Hr.
  - unfold lev at 1. cbn [forward]. rewrite Eq. cbn [mbind option_bind]. exists r, p.
    split_and!; [done| |by apply (Hstop _ eq_refl)|done]. by rewrite list_lookup_fmap, Hr.
Qed.

(** What a search returns: for every level the last node up to rank [k]. *)
Definition path_on (L : hts) (k : nat) (us : list (ptr * Z)) (n : nat) : Prop :=
  forall i, (i < n)%nat -> exists q pq, us !! i = Some (pq, Z.of_nat q) /\ L.*1 !! q = Some pq /\ is_prev L i k q.

Definition path_ok (L : hts) (k : nat) (us : list (ptr * Z)) (n : nat) : Prop :=
  length us = n /\ path_on L k us n.

Lemma descend_ok h L cond k : forall n r p ht,
  levels_ok h L -> cond_upto h L cond k -> zlen L <= 2 ^ 63 -> (length L <= size h)%nat ->
  L !! r = Some (p, ht) -> (n <= ht)%nat -> (r <= k)%nat ->
  exists us, descend n h cond p (Z.of_nat r) = Some us /\ path_ok L k us n.
Proof.
  induction n as [|n IH]; intros r p ht HL Hc Hlen Hsize Hr Hn Hrk.
  { exists []. split; [done|]. split; [done|]. intros i Hi. lia. }
  cbn [descend].
  destruct (walk_ok h L cond k n (size h) r p ht) as (q & pq & -> & Hq & Hprev & Hrq); [done..|lia|].
  cbn [mbind option_bind]. pose proof Hprev as (Hqk & ([p' ht'] & Hp' & Hn') & _).
  rewrite list_lookup_fmap, Hp' in Hq. injection Hq as <-.
  destruct (IH q p' ht') as (us & -> & Hlus & Hus); [done..|cbn in Hn'; lia|done|]. cbn [mbind option_bind].
  exists (us ++ [(p', Z.of_nat q)]). split; [done|]. split; [rewrite length_app; cbn; lia|].
  intros i Hi. destruct (decide (i = n)) as [->|Hne].
  - exists q, p'. split_and!; [|by rewrite list_lookup_fmap, Hp'|done].
    rewrite lookup_app_r by lia. by rewrite Hlus, Nat.sub_diag.
  - destruct (Hus i) as (q' & pq & ? & ? & ?); [lia|]. exists q', pq. split_and!; [|done..].
    by rewrite lookup_app_l by lia.
Qed.

(** ** Consequences of the representation *)

Lemma info_Some h p x : info h p = Some x ->
  exists n, h !! p = Some n /\ x = (ele n, score n, backward n, length (level n)).
Proof. unfold info. destruct (h !! p) as [n|]; [|done]. intros [= <-]. by exists n. Qed.

Lemma nodes_size h hd lvl cs : nodes_ok h hd lvl cs -> (length (ranks hd lvl cs) <= size h)%nat.
Proof.
  intros Hn. rewrite <- size_dom, <- (length_fmap fst), ranks_fst.
  rewrite <- (size_list_to_set (C := gset ptr)) by apply (no_nodup _ _ _ _ Hn).
  apply subseteq_size. intros p Hp. apply elem_of_list_to_set in Hp. apply elem_of_dom.
  apply list_elem_of_lookup in Hp as [[|j] Hj].
  - injection Hj as <-. destruct (no_header _ _ _ _ Hn) as (sc & b & Hi).
    apply info_Some in Hi as (n & -> & _). by eexists.
  - change ((cid <$> cs) !! j = Some p) in Hj. rewrite list_lookup_fmap in Hj.
    destruct (cs !! j) as [c|] eqn:Ec; [|done]. injection Hj as <-.
    apply (no_cells _ _ _ _ Hn), info_Some in Ec as (n & -> & _). by eexists.
Qed.

(** The node of a cell. *)
Lemma cell_node h hd lvl cs j c : nodes_ok h hd lvl cs -> cs !! j = Some c ->
  exists n, h !! cid c = Some n /\ ele n = Some (cel c) /\ score n = csc c /\ backward n = prev cs j /\
    length (level n) = cht c.
Proof.
  intros Hn Hj. apply (no_cells _ _ _ _ Hn), info_Some in Hj as (n & Hn' & [= -> -> -> ->]). by exists n.
Qed.

Lemma search_ok h zsl cs cond k :
  nodes_ok h (header zsl) (zlevel zsl) cs -> zlen cs < 2 ^ 63 ->
  (forall j c n, cs !! j = Some c -> h !! cid c = Some n -> ele n = Some (cel c) -> score n = csc c ->
     cond n (Z.of_nat (S j)) = bool_decide (S j <= k)%nat) ->
  exists us, search h zsl cond = Some us /\
    path_ok (ranks (header zsl) (zlevel zsl) cs) k us (zlevel zsl).
Proof.
  intros Hn Hb Hc. unfold search.
  apply (descend_ok h (ranks (header zsl) (zlevel zsl) cs) cond k (zlevel zsl) 0 (header zsl) (zlevel zsl)).
  - apply (no_levels _ _ _ _ Hn).
  - intros j p ht Hj. apply ranks_S_inv in Hj as (c & Hj & [= -> ->]).
    destruct (cell_node _ _ _ _ _ _ Hn Hj) as (n & Hnode & He & Hs & _). exists n. split; [done|].
    by apply (Hc j c).
  - unfold zlen in *. rewrite ranks_length. lia.
  - by apply nodes_size.
  - done.
  - done.
  - lia.
Qed.

(** ** The loops over the levels

    Each of them changes, at every level of its range, only entries of that
    level. *)

Definition rows_same (h h' : heap D) (i n : nat) : Prop :=
  forall q j, ~ (i <= j < i + n)%nat -> get_level h' q j = get_level h q j.

Lemma grow_ok zsl : forall n i h,
  (forall j, (i <= j < i + n)%nat -> exists s, get_level h (header zsl) j = Some (ZLevel None s)) ->
  exists h', grow_levels n i h zsl = Some h' /\ same_info h h' /\ rows_same h h' i n /\
    forall q j, (i <= j < i + n)%nat ->
      get_level h' q j = if decide (q = header zsl) then Some (ZLevel None (zlength zsl)) else get_level h q j.
Proof.
  induction n as [|n IH]; intros i h Hpre.
  { exists h. split_and!; [done|done|done|]. intros q j Hj. lia. }
  cbn [grow_levels]. destruct (Hpre i ltac:(lia)) as [s Hs].
  destruct (set_span_ok h (header zsl) i _ (zlength zsl) Hs) as (h1 & -> & Hu & Hi1). cbn [mbind option_bind].
  destruct (IH (S i) h1) as (h' & -> & Hi2 & Hsame & Hrow).
  { intros j Hj. rewrite (levels_upd_ne _ _ _ _ _ _ _ Hu) by lia. apply Hpre. lia. }
  exists h'. split_and!; [done|by eapply same_info_trans| |].
  - intros q j Hj. rewrite Hsame by lia. apply (levels_upd_ne _ _ _ _ _ _ _ Hu). lia.
  - intros q j Hj. destruct (decide (j = i)) as [->|Hne].
    + rewrite Hsame by lia. rewrite Hu. repeat case_decide; naive_solver.
    + rewrite Hrow by lia. by rewrite (levels_upd_ne _ _ _ _ _ _ _ Hu) by lia.
Qed.

(** What linking and bumping do to the entries of level [j]. *)
Definition linked (h h' : heap D) (x u : ptr) (j : nat) (l : zskiplistLevel) (d : Z) : Prop :=
  forall q, get_level h' q j =
    if decide (q = x) then Some (ZLevel (forward l) (u64 (span l - d)))
    else if decide (q = u) then Some (ZLevel (Some x) (u64 (d + 1))) else get_level h q j.

Lemma link_ok x us rank0 : forall n i h,
  (forall j, (i <= j < i + n)%nat -> exists u rank l lx, us !! j = Some (u, rank) /\
     get_level h u j = Some l /\ get_level h x j = Some lx /\ u <> x) ->
  exists h', link_levels n i h x us rank0 = Some h' /\ same_info h h' /\ rows_same h h' i n /\
    forall j u rank l, (i <= j < i + n)%nat -> us !! j = Some (u, rank) -> get_level h u j = Some l ->
      linked h h' x u j l (u64 (rank0 - rank)).
Proof.
  induction n as [|n IH]; intros i h Hpre.
  { exists h. split_and!; [done|done|done|]. intros j u rank l Hj. lia. }
  cbn [link_levels]. destruct (Hpre i ltac:(lia)) as (u & rank & l & lx & Hu & Hl & Hlx & Hne).
  rewrite Hu. cbn [mbind option_bind]. rewrite Hl. cbn [mbind option_bind].
  destruct (set_forward_ok h x i _ (forward l) Hlx) as (h1 & -> & U1 & I1). cbn [mbind option_bind].
  destruct (set_forward_ok h1 u i l (Some x)) as (h2 & -> & U2 & I2).
  { by rewrite (levels_upd_ne _ _ _ _ _ _ _ U1) by naive_solver. }
  cbn [mbind option_bind].
  destruct (set_span_ok h2 x i (ZLevel (forward l) (span lx)) (u64 (span l - u64 (rank0 - rank)))) as (h3 & -> & U3 & I3).
  { rewrite (levels_upd_ne _ _ _ _ _ _ _ U2) by naive_solver. by eapply levels_upd_eq. }
  cbn [mbind option_bind].
  destruct (set_span_ok h3 u i (ZLevel (Some x) (span l)) (u64 (u64 (rank0 - rank) + 1))) as (h4 & -> & U4 & I4).
  { rewrite (levels_upd_ne _ _ _ _ _ _ _ U3) by naive_solver. by eapply levels_upd_eq. }
  cbn [mbind option_bind forward] in *.
  assert (forall q j, j <> i -> get_level h4 q j = get_level h q j) as Hoth.
  { intros q j Hj. rewrite U4, U3, U2, U1. by rewrite !decide_False by naive_solver. }
  destruct (IH (S i) h4) as (h' & -> & Hi' & Hsame & Hrow).
  { intros j Hj. destruct (Hpre j ltac:(lia)) as (u' & rank' & l' & lx' & ?). exists u', rank', l', lx'.
    rewrite !Hoth by lia. done. }
  exists h'. split_and!; [done| | |].
  - do 4 (eapply same_info_trans; [done|]). done.
  - intros q j Hj. rewrite Hsame by lia. apply Hoth. lia.
  - intros j u' rank' l' Hj Hu' Hl'. destruct (decide (j = i)) as [->|Hji].
    + rewrite Hu in Hu'. injection Hu' as <- <-. rewrite Hl in Hl'. injection Hl' as <-.
      intros q. rewrite Hsame by lia. rewrite U4, U3, U2, U1. repeat case_decide; naive_solver.
    + intros q. rewrite <- (Hoth u' j Hji) in Hl'. rewrite (Hrow j u' rank' l' ltac:(lia) Hu' Hl' q).
      by rewrite Hoth.
Qed.

Definition row_set (h h' : heap D) (u : ptr) (j : nat) (l : zskiplistLevel) : Prop :=
  forall q, get_level h' q j = if decide (q = u) then Some l else get_level h q j.

Lemma levels_upd_row h h' u i l : levels_upd h h' u i l -> row_set h h' u i l.
Proof. intros Hu q. rewrite Hu. repeat case_decide; naive_solver. Qed.

Lemma bump_ok us : forall n i h,
  (forall j, (i <= j < i + n)%nat -> exists u rank l, us !! j = Some (u, rank) /\ get_level h u j = Some l) ->
  exists h', bump_spans n i h us = Some h' /\ same_info h h' /\ rows_same h h' i n /\
    forall j u rank l, (i <= j < i + n)%nat -> us !! j = Some (u, rank) -> get_level h u j = Some l ->
      row_set h h' u j (ZLevel (forward l) (u64 (span l + 1))).
Proof.
  induction n as [|n IH]; intros i h Hpre.
  { exists h. split_and!; [done|done|done|]. intros j u rank l Hj. lia. }
  cbn [bump_spans]. destruct (Hpre i ltac:(lia)) as (u & rank & l & Hu & Hl).
  rewrite Hu. cbn [mbind option_bind]. rewrite Hl. cbn [mbind option_bind].
  destruct (set_span_ok h u i l (u64 (span l + 1)) Hl) as (h1 & -> & U1 & I1). cbn [mbind option_bind].
  assert (forall q j, j <> i -> get_level h1 q j = get_level h q j) as Hoth.
  { intros q j Hj. apply (levels_upd_ne _ _ _ _ _ _ _ U1). naive_solver. }
  destruct (IH (S i) h1) as (h' & -> & Hi' & Hsame & Hrow).
  { intros j Hj. destruct (Hpre j ltac:(lia)) as (u' & rank' & l' & ?). exists u', rank', l'.
    by rewrite !Hoth by lia. }
  exists h'. split_and!; [done|by eapply same_info_trans| |].
  - intros q j Hj. rewrite Hsame by lia. apply Hoth. lia.
  - intros j u' rank' l' Hj Hu' Hl'. destruct (decide (j = i)) as [->|Hji].
    + rewrite Hu in Hu'. injection Hu' as <- <-. rewrite Hl in Hl'. injection Hl' as <-.
      intros q. rewrite Hsame by lia. by apply levels_upd_row.
    + intros q. rewrite <- (Hoth u' j Hji) in Hl'. rewrite (Hrow j u' rank' l' ltac:(lia) Hu' Hl' q).
      by rewrite Hoth.
Qed.

(** The level of a predecessor of [x] after [x] is unlinked. *)
Definition unlinked (x : ptr) (l lx : zskiplistLevel) : zskiplistLevel :=
  if decide (forward l = Some x) then ZLevel (forward lx) (u64 (span l + u64 (span lx - 1)))
  else ZLevel (forward l) (u64 (span l - 1)).

(** The level of [x], where it has one. *)
Definition level_of (h : heap D) (x : ptr) (i : nat) : zskiplistLevel := default (ZLevel None 0) (get_level h x i).

Lemma unlink_levels_ok x us : forall n i h,
  (forall j, (i <= j < i + n)%nat -> exists u rank l, us !! j = Some (u, rank) /\ get_level h u j = Some l /\
     (forward l = Some x -> is_Some (get_level h x j))) ->
  exists h', unlink_levels n i h x us = Some h' /\ same_info h h' /\ rows_same h h' i n /\
    forall j u rank l, (i <= j < i + n)%nat -> us !! j = Some (u, rank) -> get_level h u j = Some l ->
      row_set h h' u j (unlinked x l (level_of h x j)).
Proof.
  induction n as [|n IH]; intros i h Hpre.
  { exists h. split_and!; [done|done|done|]. intros j u rank l Hj. lia. }
  cbn [unlink_levels]. destruct (Hpre i ltac:(lia)) as (u & rank & l & Hu & Hl & Hlx).
  rewrite Hu. cbn [mbind option_bind]. rewrite Hl. cbn [mbind option_bind].
  assert (exists h1, (if decide (forward l = Some x) then
           lx ← get_level h x i;
           h ← set_span h u i (u64 (span l + u64 (span lx - 1)));
           set_forward h u i (forward lx)
         else set_span h u i (u64 (span l - 1))) = Some h1 /\
    levels_upd h h1 u i (unlinked x l (level_of h x i)) /\ same_info h h1) as (h1 & -> & U1 & I1).
  { unfold unlinked, level_of. destruct (decide (forward l = Some x)) as [Hf|Hf]; [|by apply set_span_ok].
    destruct (Hlx Hf) as [lx Hx]. rewrite Hx. cbn [mbind option_bind default from_option id]. unfold id.
    destruct (set_span_ok h u i l (u64 (span l + u64 (span lx - 1))) Hl) as (h1 & -> & U1 & I1).
    cbn [mbind option_bind].
    destruct (set_forward_ok h1 u i _ (forward lx) (levels_upd_eq _ _ _ _ _ U1)) as (h2 & -> & U2 & I2).
    exists h2. split_and!; [done| |by eapply same_info_trans].
    intros q j. rewrite U2, U1. repeat case_decide; naive_solver. }
  cbn [mbind option_bind].
  assert (forall q j, j <> i -> get_level h1 q j = get_level h q j) as Hoth.
  { intros q j Hj. apply (levels_upd_ne _ _ _ _ _ _ _ U1). naive_solver. }
  destruct (IH (S i) h1) as (h' & -> & Hi' & Hsame & Hrow).
  { intros j Hj. destruct (Hpre j ltac:(lia)) as (u' & rank' & l' & ?). exists u', rank', l'.
    by rewrite !Hoth by lia. }
  exists h'. split_and!; [done|by eapply same_info_trans| |].
  - intros q j Hj. rewrite Hsame by lia. apply Hoth. lia.
  - intros j u' rank' l' Hj Hu' Hl'. destruct (decide (j = i)) as [->|Hji].
    + rewrite Hu in Hu'. injection Hu' as <- <-. rewrite Hl in Hl'. injection Hl' as <-.
      intros q. rewrite Hsame by lia. by apply levels_upd_row.
    + intros q. rewrite <- (Hoth u' j Hji) in Hl'. rewrite (Hrow j u' rank' l' ltac:(lia) Hu' Hl' q).
      unfold level_of. by rewrite !Hoth.
Qed.

(** ** Insertion *)

Lemma lev_span_bounds L i k q : is_prev L i k q -> (k < length L)%nat ->
  Z.of_nat k - Z.of_nat q <= span (lev L i q) < zlen L.
Proof.
  intros Hp Hk. pose proof Hp as (Hq & _). unfold lev. cbn [span].
  destruct (nxt L i q) as [j|] eqn:Ej; cbn [default from_option id]; unfold id, zlen.
  - pose proof (next_past _ _ Hk _ _ Hp _ Ej). apply nxt_lookup in Ej as (? & ? & Hj%lookup_lt_Some & _). lia.
  - lia.
Qed.

Lemma fst_inj (L : hts) r r' p : NoDup L.*1 -> L.*1 !! r = Some p -> L.*1 !! r' = Some p -> r = r'.
Proof. intros Hnd H1 H2. by eapply NoDup_lookup. Qed.

Lemma lookup_fst (L : hts) r p ht : L !! r = Some (p, ht) -> L.*1 !! r = Some p.
Proof. intros Hr. by rewrite list_lookup_fmap, Hr. Qed.

Lemma is_prev_max L i k q r p ht : is_prev L i k q -> L !! r = Some (p, ht) -> (i < ht)%nat -> (r <= k)%nat ->
  (r <= q)%nat.
Proof.
  intros (_ & _ & Hm) Hr Hi Hk. destruct (decide (r <= q)%nat); [done|].
  specialize (Hm r (p, ht) ltac:(lia) Hr). cbn in Hm. lia.
Qed.

Section insert_levels.
Variables (h h' : heap D) (L1 : hts) (k : nat) (x : ptr) (hx : nat).
Hypothesis (Hk : (k < length L1)%nat) (Hnd : NoDup L1.*1) (Hx : x ∉ L1.*1) (Hlen : zlen L1 <= 2 ^ 63).
Hypothesis HL : levels_ok h L1.
Hypothesis Hstep : forall i, (exists r y, L1 !! r = Some y /\ (i < y.2)%nat) \/ (i < hx)%nat ->
  exists q u, is_prev L1 i k q /\ L1.*1 !! q = Some u /\
    if decide (i < hx)%nat then linked h h' x u i (lev L1 i q) (u64 (Z.of_nat k - Z.of_nat q))
    else row_set h h' u i (ZLevel (forward (lev L1 i q)) (u64 (span (lev L1 i q) + 1))).

(** Entries of other nodes are not touched. *)
Lemma insert_levels_other i q u p :
  (if decide (i < hx)%nat then linked h h' x u i (lev L1 i q) (u64 (Z.of_nat k - Z.of_nat q))
   else row_set h h' u i (ZLevel (forward (lev L1 i q)) (u64 (span (lev L1 i q) + 1)))) ->
  p <> u -> p <> x -> get_level h' p i = get_level h p i.
Proof using Type. intros Hi Hu Hpx. case_decide; rewrite Hi; by rewrite !decide_False. Qed.

Lemma insert_levels_ok : levels_ok h' (take (S k) L1 ++ (x, hx) :: drop (S k) L1).
Proof using Hk Hnd Hx Hlen HL Hstep.
  intros r p ht i Hr Hi. apply (ins_inv _ _ _ Hk) in Hr as [[Hle Hr]|[[-> [= -> ->]]|(r' & -> & Hlt & Hr)]].
  - destruct (Hstep i) as (q & u & Hp & Hu & Hrow); [left; eauto|].
    pose proof (lev_span_bounds _ _ _ _ Hp Hk) as Hb. pose proof Hp as (Hqk & _).
    pose proof (is_prev_max _ _ _ _ _ _ _ Hp Hr Hi Hle) as Hrq. pose proof (lookup_fst _ _ _ _ Hr) as Hpr.
    assert (p <> x) as Hpx by (intros ->; apply Hx; by eapply list_elem_of_lookup_2).
    destruct (decide (r = q)) as [->|Hne].
    + rewrite Hu in Hpr. injection Hpr as ->. case_decide; rewrite Hrow.
      * rewrite decide_False, decide_True by done. rewrite (lev_ins_to _ _ (x, hx) Hk i q Hp) by done.
        rewrite (u64_small (Z.of_nat k - Z.of_nat q)) by lia.
        rewrite u64_small by lia. done.
      * rewrite decide_True by done. rewrite (lev_ins_over _ _ (x, hx) Hk i q Hp) by (cbn; lia).
        rewrite u64_small by lia. done.
    + rewrite (insert_levels_other i q u p Hrow) by (done || (intros ->; apply Hne; by eapply fst_inj)).
      rewrite (lev_ins_below _ _ (x, hx) Hk i r q Hp) by lia. by eapply HL.
  - destruct (Hstep i) as (q & u & Hp & Hu & Hrow); [by right|]. rewrite decide_True in Hrow by done.
    pose proof (lev_span_bounds _ _ _ _ Hp Hk) as Hb. pose proof Hp as (Hqk & _).
    rewrite Hrow, decide_True by done. rewrite (lev_ins_from _ _ (x, hx) Hk i q Hp).
    rewrite (u64_small (Z.of_nat k - Z.of_nat q)) by lia.
    rewrite u64_small by lia. done.
  - destruct (Hstep i) as (q & u & Hp & Hu & Hrow); [left; eauto|]. pose proof Hp as (Hqk & _).
    pose proof (lookup_fst _ _ _ _ Hr) as Hpr.
    assert (p <> x) as Hpx by (intros ->; apply Hx; by eapply list_elem_of_lookup_2).
    assert (p <> u) as Hpu.
    { intros ->. pose proof (fst_inj _ _ _ _ Hnd Hu Hpr). lia. }
    rewrite (insert_levels_other i q u p Hrow Hpu Hpx), (lev_ins_above _ _ (x, hx) Hk i r' Hlt). by eapply HL.
Qed.
End insert_levels.

Lemma lev_ranks hd lvl lvl' cs i r : lev (ranks hd lvl cs) i r = lev (ranks hd lvl' cs) i r.
Proof.
  unfold lev. rewrite !ranks_length. change (nxt (ranks hd lvl' cs) i r) with (nxt (ranks hd lvl cs) i r).
  destruct (nxt _ i r) as [q|] eqn:E; [|done]. apply nxt_is in E as [Hq _]. destruct q as [|q]; [lia|].
  cbn [mbind option_bind]. by rewrite !ranks_lookup_S.
Qed.

(** The new levels of the header. *)
Lemma grow_nodes h zsl cs n :
  nodes_ok h (header zsl) (zlevel zsl) cs -> zlength zsl = zlen cs -> (zlevel zsl + n <= ZSKIPLIST_MAXLEVEL)%nat ->
  exists h1, grow_levels n (zlevel zsl) h zsl = Some h1 /\ nodes_ok h1 (header zsl) (zlevel zsl + n) cs /\
    same_info h h1.
Proof.
  intros Hn Hl Hle.
  destruct (grow_ok zsl n (zlevel zsl) h) as (h1 & -> & Hinfo & Hsame & Hrow).
  { intros j Hj. apply (no_above _ _ _ _ Hn). lia. }
  exists h1. split_and!; [done| |done]. pose proof (no_level _ _ _ _ Hn) as Hlv. constructor.
  - apply (no_nodup _ _ _ _ Hn).
  - rewrite Hinfo. apply (no_header _ _ _ _ Hn).
  - intros i Hi. rewrite Hsame by lia. apply (no_above _ _ _ _ Hn). lia.
  - intros j c Hj. rewrite Hinfo. by apply (no_cells _ _ _ _ Hn).
  - intros j c Hj. pose proof (no_heights _ _ _ _ Hn j c Hj). lia.
  - lia.
  - intros r p ht i Hr Hi. destruct r as [|r].
    + injection Hr as <- <-. destruct (decide (i < zlevel zsl)%nat) as [Hlt|Hge].
      * rewrite Hsame, (lev_ranks _ _ (zlevel zsl)) by lia. by apply (no_levels _ _ _ _ Hn 0%nat _ (zlevel zsl)).
      * rewrite Hrow, decide_True by (done || lia). unfold lev.
        rewrite (nxt_eq _ i 0 None); cbn [mbind option_bind default from_option id].
        { rewrite ranks_length, Hl. unfold id, zlen. do 2 f_equal. lia. }
        intros [|j] y Hj Hy; [lia|]. apply ranks_S_inv in Hy as (c & Hc & ->).
        pose proof (no_heights _ _ _ _ Hn j c Hc). cbn. lia.
    + apply ranks_S_inv in Hr as Hr'. destruct Hr' as (c & Hc & [= -> ->]).
      pose proof (no_heights _ _ _ _ Hn r c Hc). rewrite Hsame, (lev_ranks _ _ (zlevel zsl)) by lia.
      by apply (no_levels _ _ _ _ Hn (S r) _ (cht c)).
Qed.

Lemma grow_path hd lvl n cs k us : path_ok (ranks hd lvl cs) k us lvl ->
  (forall j c, cs !! j = Some c -> (cht c <= lvl)%nat) ->
  path_ok (ranks hd (lvl + n) cs) k (us ++ replicate n (hd, 0)) (lvl + n).
Proof.
  intros [Hlen Hus] Hht. split; [rewrite length_app, length_replicate; lia|]. intros i Hi.
  rewrite ranks_fst. unfold path_on in Hus. rewrite ranks_fst in Hus. destruct (decide (i < lvl)%nat) as [Hlt|Hge].
  - destruct (Hus i Hlt) as (q & pq & Hi' & Hq & (Hqk & Hy & Hm)). exists q, pq. split_and!.
    + by rewrite lookup_app_l by lia.
    + done.
    + split_and!; [done| |].
      * destruct Hy as (y & Hy & Hyi). destruct q as [|q]; [by exists (hd, lvl + n)%nat|by exists y].
      * intros [|j] y Hj Hy'; [lia|]. by apply (Hm (S j) y).
  - exists 0%nat, hd. split_and!.
    + rewrite lookup_app_r by lia. apply lookup_replicate. split; [done|lia].
    + done.
    + split_and!; [lia|by exists (hd, lvl + n)%nat|].
      intros [|j] y Hj Hy; [lia|]. apply ranks_S_inv in Hy as (c & Hc & ->).
      pose proof (Hht j c Hc). cbn. lia.
Qed.

Lemma create_node_ok h lvl sc e h2 x : zslCreateNode h lvl sc e = (h2, x) ->
  x ∉ dom h /\ dom h2 = {[x]} ∪ dom h /\
  (forall q, info h2 q = if decide (q = x) then Some (e, sc, None, lvl) else info h q) /\
  (forall q i, q <> x -> get_level h2 q i = get_level h q i) /\
  (forall i, (i < lvl)%nat -> get_level h2 x i = Some (ZLevel None 0)).
Proof.
  unfold zslCreateNode. intros [= <- <-]. split_and!.
  - apply is_fresh.
  - by rewrite dom_insert_L.
  - intros q. unfold info. case_decide as E; [subst; rewrite lookup_insert_eq|by rewrite lookup_insert_ne].
    cbn. by rewrite length_replicate.
  - intros q i Hq. unfold get_level. by rewrite lookup_insert_ne.
  - intros i Hi. unfold get_level. rewrite lookup_insert_eq. cbn [mbind option_bind level].
    by apply lookup_replicate.
Qed.

Lemma info_dom h p x : info h p = Some x -> p ∈ dom h.
Proof. intros (n & Hn & _)%info_Some. apply elem_of_dom. by eexists. Qed.

Lemma ids_dom h hd lvl cs p : nodes_ok h hd lvl cs -> p ∈ hd :: (cid <$> cs) -> p ∈ dom h.
Proof.
  intros Hn [->|(c & -> & Hc)%list_elem_of_fmap]%elem_of_cons.
  - destruct (no_header _ _ _ _ Hn) as (sc & b & Hi). by eapply info_dom.
  - apply list_elem_of_lookup in Hc as [j Hj]. eapply info_dom, (no_cells _ _ _ _ Hn), Hj.
Qed.

(** At level 0 every node is high enough. *)
Lemma prev_zero hd lvl cs k q : (1 <= lvl)%nat -> (forall j c, cs !! j = Some c -> (1 <= cht c)%nat) ->
  (k <= length cs)%nat -> is_prev (ranks hd lvl cs) 0 k q -> q = k.
Proof.
  intros Hlv Hht Hk Hp. eapply is_prev_unique; [done|]. split_and!; [done| |intros; lia].
  destruct k as [|k].
  - by exists (hd, lvl).
  - destruct (lookup_lt_is_Some_2 cs k) as [c Hc]; [lia|]. exists (cid c, cht c).
    split; [by apply ranks_S|]. cbn. pose proof (Hht k c Hc). lia.
Qed.

Lemma link_bump_ok h hd lvl cs k us hx sc e h2 x :
  nodes_ok h hd lvl cs -> (k <= length cs)%nat -> path_ok (ranks hd lvl cs) k us lvl ->
  (1 <= hx <= lvl)%nat -> zlen cs < 2 ^ 63 ->
  zslCreateNode h hx sc (Some e) = (h2, x) ->
  exists u0 h3 h4, us !! 0%nat = Some (u0, Z.of_nat k) /\ (ranks hd lvl cs).*1 !! k = Some u0 /\
    link_levels hx 0 h2 x us (Z.of_nat k) = Some h3 /\ bump_spans (lvl - hx) hx h3 us = Some h4 /\
    levels_ok h4 (take (S k) (ranks hd lvl cs) ++ (x, hx) :: drop (S k) (ranks hd lvl cs)) /\ same_info h2 h4 /\
    rows_same h2 h4 0 lvl.
Proof.
  intros Hn Hk [Hlus Hus] Hhx Hb Hc. pose proof (no_level _ _ _ _ Hn) as Hlv.
  destruct (create_node_ok _ _ _ _ _ _ Hc) as (Hfresh & _ & Hinfo & Hoth & Hnew).
  set (L1 := ranks hd lvl cs) in *.
  assert (x ∉ L1.*1) as Hx.
  { intros Hin. apply Hfresh. eapply ids_dom; [done|]. by rewrite <- (ranks_fst hd lvl). }
  assert (forall i, (i < lvl)%nat -> exists q u, us !! i = Some (u, Z.of_nat q) /\ L1.*1 !! q = Some u /\
    is_prev L1 i k q /\ u <> x /\ get_level h2 u i = Some (lev L1 i q)) as Hpath.
  { intros i Hi. destruct (Hus i Hi) as (q & u & Hu & Hq & Hp). exists q, u.
    assert (u <> x) as Hne by (intros ->; apply Hx; by eapply list_elem_of_lookup_2).
    split_and!; [done..|]. rewrite Hoth by done. destruct Hp as (_ & ([u' hq] & Hy & Hi') & _).
    rewrite (lookup_fst _ _ _ _ Hy) in Hq. injection Hq as ->. by eapply (no_levels _ _ _ _ Hn). }
  destruct (Hpath 0%nat ltac:(lia)) as (q0 & u0 & Hu0 & Hq0 & Hp0 & _ & _).
  assert (q0 = k) as ->.
  { eapply prev_zero; [|intros j c Hj; apply (no_heights _ _ _ _ Hn j c Hj)|done|done]. lia. }
  destruct (link_ok x us (Z.of_nat k) hx 0 h2) as (h3 & Hlink & I3 & S3 & R3).
  { intros j Hj. destruct (Hpath j ltac:(lia)) as (q & u & Hu & Hq & Hp & Hne & Hl).
    exists u, (Z.of_nat q), (lev L1 j q), (ZLevel None 0). split_and!; [done|done|apply Hnew; lia|done]. }
  destruct (bump_ok us (lvl - hx) hx h3) as (h4 & Hbump & I4 & S4 & R4).
  { intros j Hj. destruct (Hpath j ltac:(lia)) as (q & u & Hu & Hq & Hp & Hne & Hl).
    exists u, (Z.of_nat q), (lev L1 j q). split; [done|]. by rewrite S3 by lia. }
  exists u0, h3, h4. split_and!; [done..| |by eapply same_info_trans|].
  2: { intros q i Hi. by rewrite S4, S3 by lia. }
  apply (insert_levels_ok h2 h4).
  - unfold L1. rewrite ranks_length. lia.
  - unfold L1. rewrite ranks_fst. apply (no_nodup _ _ _ _ Hn).
  - done.
  - unfold L1, zlen. rewrite ranks_length. unfold zlen in Hb. lia.
  - intros r p ht i Hr Hi. rewrite Hoth; [by eapply (no_levels _ _ _ _ Hn)|].
    intros ->. apply Hx. eapply list_elem_of_lookup_2, lookup_fst, Hr.
  - intros i Hi. assert (i < lvl)%nat as Hilt.
    { destruct Hi as [(r & y & Hr & Hi)|Hi]; [|lia]. destruct r as [|r]; [injection Hr as <-; done|].
      apply ranks_S_inv in Hr as (c & Hcj & ->). pose proof (no_heights _ _ _ _ Hn r c Hcj). cbn in Hi. lia. }
    destruct (Hpath i Hilt) as (q & u & Hu & Hq & Hp & Hne & Hl). exists q, u. split_and!; [done..|].
    case_decide as Hihx.
    + intros p. rewrite S4 by lia. by apply (R3 i u (Z.of_nat q)); [lia|..].
    + intros p. rewrite <- (S3 u i ltac:(lia)) in Hl. rewrite (R4 i u (Z.of_nat q) (lev L1 i q) ltac:(lia) Hu Hl p).
      by rewrite S3 by lia.
Qed.

(** Cells are put in at position [k]. *)
Definition ins {A} (k : nat) (x : A) (l : list A) : list A := take k l ++ x :: drop k l.

Lemma ins_lookup_inv {A} k (x : A) l j y : (k <= length l)%nat -> ins k x l !! j = Some y ->
  (j < k /\ l !! j = Some y)%nat \/ (j = k /\ y = x) \/ (exists j', j = S j' /\ k <= j' /\ l !! j' = Some y)%nat.
Proof.
  intros Hk. unfold ins. destruct (decide (j < k)%nat) as [Hlt|Hge].
  - rewrite lookup_app_l by (rewrite length_take; lia). rewrite lookup_take_lt by lia. by left.
  - rewrite lookup_app_r by (rewrite length_take; lia). rewrite length_take, Nat.min_l by lia.
    destruct (decide (j = k)) as [->|Hne].
    + rewrite Nat.sub_diag. intros [= ->]. right. by left.
    + destruct j as [|j]; [lia|]. replace (S j - k)%nat with (S (j - k)) by lia.
      change ((x :: drop k l) !! S (j - k)) with (drop k l !! (j - k)%nat). rewrite lookup_drop.
      replace (k + (j - k))%nat with j by lia. intros Hy. right. right. exists j. split_and!; [done|lia|done].
Qed.

Lemma ins_lookup_lt {A} k (x : A) l j : (k <= length l)%nat -> (j < k)%nat -> ins k x l !! j = l !! j.
Proof.
  intros Hk Hj. unfold ins. rewrite lookup_app_l by (rewrite length_take; lia). by rewrite lookup_take_lt by lia.
Qed.

Lemma ins_lookup_eq {A} k (x : A) l : (k <= length l)%nat -> ins k x l !! k = Some x.
Proof.
  intros Hk. unfold ins. rewrite lookup_app_r by (rewrite length_take; lia).
  by rewrite length_take, Nat.min_l, Nat.sub_diag by lia.
Qed.

Lemma ins_lookup_gt {A} k (x : A) l j : (k <= length l)%nat -> (k <= j)%nat -> ins k x l !! S j = l !! j.
Proof.
  intros Hk Hj. unfold ins. rewrite lookup_app_r by (rewrite length_take; lia).
  rewrite length_take, Nat.min_l by lia. replace (S j - k)%nat with (S (j - k)) by lia.
  change ((x :: drop k l) !! S (j - k)) with (drop k l !! (j - k)%nat). rewrite lookup_drop. f_equal. lia.
Qed.

Lemma ins_perm {A} k (x : A) l : ins k x l ≡ₚ x :: l.
Proof. unfold ins. rewrite <- Permutation_middle. by rewrite take_drop. Qed.

Lemma zlen_ins {A} k (x : A) l : zlen (ins k x l) = zlen l + 1.
Proof. unfold zlen. rewrite (Permutation_length (ins_perm k x l)). cbn [length]. lia. Qed.

Lemma ranks_ins hd lvl cs k c :
  ranks hd lvl (ins k c cs) = take (S k) (ranks hd lvl cs) ++ (cid c, cht c) :: drop (S k) (ranks hd lvl cs).
Proof.
  unfold ranks, ins. rewrite fmap_app, fmap_cons, fmap_take, fmap_drop. done.
Qed.

(** At level 0 the next node is the next cell. *)
Lemma nxt_zero hd lvl cs r : (forall j c, cs !! j = Some c -> (1 <= cht c)%nat) ->
  forward (lev (ranks hd lvl cs) 0 r) = cid <$> cs !! r.
Proof.
  intros Hht. destruct (cs !! r) as [c|] eqn:Ec.
  - unfold lev. rewrite (nxt_eq _ 0 r (Some (S r))); cbn [forward mbind option_bind].
    + by rewrite (ranks_S _ _ _ _ _ Ec).
    + split_and!; [lia| |intros; lia]. exists (cid c, cht c). split; [by apply ranks_S|].
      cbn. pose proof (Hht r c Ec). lia.
  - unfold lev. rewrite (nxt_eq _ 0 r None); [done|]. intros [|j] y Hj Hy; [lia|].
    apply ranks_S_inv in Hy as (c & Hc & _). apply lookup_ge_None in Ec. apply lookup_lt_Some in Hc. lia.
Qed.

Lemma same_info_dom h h' : same_info h h' -> dom h' = dom h.
Proof.
  intros Hi. apply set_eq. intros p. rewrite !elem_of_dom. specialize (Hi p). unfold info in Hi.
  destruct (h !! p), (h' !! p); split; intros [? ?]; first [done | eexists; done].
Qed.

Lemma upd_info_dom h h' p x y : info h p = Some x ->
  (forall q, info h' q = if decide (q = p) then Some y else info h q) -> dom h' = dom h.
Proof.
  intros Hp Hi. apply set_eq. intros q. rewrite !elem_of_dom. specialize (Hi q). unfold info in Hi, Hp.
  destruct (decide (q = p)) as [->|Hq].
  - destruct (h !! p), (h' !! p); try done; split; intros _; by eexists.
  - destruct (h !! q), (h' !! q); try done; split; intros [? ?]; first [done | eexists; done].
Qed.

Lemma prev_ins_gt cs k c j : (k <= length cs)%nat -> (k < j)%nat -> prev (ins k c cs) (S j) = prev cs j.
Proof. intros Hk Hj. destruct j as [|j]; [lia|]. cbn [prev]. by rewrite ins_lookup_gt by lia. Qed.

Lemma prev_ins_le cs k c j : (k <= length cs)%nat -> (j <= k)%nat -> prev (ins k c cs) j = prev cs j.
Proof. intros Hk Hj. destruct j as [|j]; [done|]. cbn [prev]. by rewrite ins_lookup_lt by lia. Qed.

Lemma levels_ok_same h h' L : same_levels h h' -> levels_ok h L -> levels_ok h' L.
Proof. intros Hs HL r p ht i Hr Hi. rewrite Hs. by apply (HL r p ht). Qed.

(** The id of the node before position [k], as [zslInsert] computes it. *)
Lemma prev_rank hd lvl cs k u0 : NoDup (hd :: (cid <$> cs)) -> (ranks hd lvl cs).*1 !! k = Some u0 ->
  (if decide (u0 = hd) then None else Some u0) = prev cs k.
Proof.
  rewrite ranks_fst. intros Hnd Hu. destruct k as [|k].
  - injection Hu as <-. by rewrite decide_True.
  - change ((cid <$> cs) !! k = Some u0) in Hu. apply NoDup_cons in Hnd as [Hnin _].
    rewrite decide_False by (intros ->; apply Hnin; by eapply list_elem_of_lookup_2).
    rewrite list_lookup_fmap in Hu. by rewrite <- Hu.
Qed.

(** The fields and levels after the backward pointers are set. *)
Lemma insert_info_ok h h6 hd lvl cs k x hx sc e :
  nodes_ok h hd lvl cs -> (k <= length cs)%nat -> x ∉ dom h -> (1 <= hx <= lvl)%nat ->
  levels_ok h6 (ranks hd lvl (ins k (Cell x hx sc e) cs)) ->
  (forall i, (lvl <= i)%nat -> get_level h6 hd i = get_level h hd i) ->
  (forall q, info h6 q =
     if decide (q = x) then Some (Some e, sc, prev cs k, hx)
     else if decide (Some q = cid <$> cs !! k) then (fun y => (y.1.1, Some x, y.2)) <$> info h q
     else info h q) ->
  nodes_ok h6 hd lvl (ins k (Cell x hx sc e) cs).
Proof.
  intros Hn Hk Hx Hhx HL Habove Hinfo.
  assert (x ∉ hd :: (cid <$> cs)) as Hxin by (intros Hin; by apply Hx, (ids_dom _ _ _ _ _ Hn)).
  pose proof (no_nodup _ _ _ _ Hn) as Hnd. pose proof Hnd as [Hhd Hndc]%NoDup_cons. constructor.
  - assert (hd :: (cid <$> ins k (Cell x hx sc e) cs) ≡ₚ x :: hd :: (cid <$> cs)) as ->.
    { rewrite (fmap_Permutation cid _ _ (ins_perm k (Cell x hx sc e) cs)). cbn. apply perm_swap. }
    by apply NoDup_cons.
  - destruct (no_header _ _ _ _ Hn) as (sc0 & b0 & Hi). exists sc0, b0. rewrite Hinfo.
    rewrite !decide_False; [done| |intros ->; apply Hxin; by left].
    intros Heq. symmetry in Heq. apply fmap_Some in Heq as (c & Hc & ->). apply Hhd.
    apply list_elem_of_fmap. exists c. split; [done|]. by eapply list_elem_of_lookup_2.
  - intros i Hi. rewrite Habove by lia. by apply (no_above _ _ _ _ Hn).
  - intros j c Hj. apply ins_lookup_inv in Hj as [[Hlt Hj]|[[-> ->]|(j' & -> & Hge & Hj)]]; [..|done].
    + rewrite prev_ins_le by lia. assert (cid c ∈ cid <$> cs) as Hin.
      { apply list_elem_of_fmap. exists c. split; [done|]. by eapply list_elem_of_lookup_2. }
      rewrite Hinfo, !decide_False; [by apply (no_cells _ _ _ _ Hn)| |intros <-; apply Hxin; by right].
      intros Heq. symmetry in Heq. apply fmap_Some in Heq as (c' & Hc & Heq).
      assert (j = k); [|lia]. apply (NoDup_lookup _ j k (cid c) Hndc); rewrite list_lookup_fmap.
      * by rewrite Hj.
      * rewrite Hc. cbn. by rewrite Heq.
    + rewrite prev_ins_le by lia. rewrite Hinfo. by rewrite decide_True.
    + assert (cid c ∈ cid <$> cs) as Hin.
      { apply list_elem_of_fmap. exists c. split; [done|]. by eapply list_elem_of_lookup_2. }
      rewrite Hinfo, decide_False by (intros <-; apply Hxin; by right).
      rewrite (no_cells _ _ _ _ Hn j' c Hj). destruct (decide (j' = k)) as [->|Hne].
      * rewrite decide_True by (by rewrite Hj). cbn [prev]. by rewrite ins_lookup_eq.
      * rewrite decide_False; [by rewrite prev_ins_gt by lia|]. intros Heq. symmetry in Heq.
        apply fmap_Some in Heq as (c' & Hc & Heq). apply Hne.
        apply (NoDup_lookup _ j' k (cid c) Hndc); rewrite list_lookup_fmap; [by rewrite Hj|].
        rewrite Hc. cbn. by rewrite Heq.
  - intros j c Hj. apply ins_lookup_inv in Hj as [[Hlt Hj]|[[-> ->]|(j' & -> & Hge & Hj)]]; [..|done].
    + by eapply (no_heights _ _ _ _ Hn).
    + done.
    + by eapply (no_heights _ _ _ _ Hn).
  - apply (no_level _ _ _ _ Hn).
  - done.
Qed.

Lemma insert_nodes_ok h hd lvl cs k us hx sc e h2 x :
  nodes_ok h hd lvl cs -> (k <= length cs)%nat -> path_ok (ranks hd lvl cs) k us lvl ->
  (1 <= hx <= lvl)%nat -> zlen cs < 2 ^ 63 ->
  zslCreateNode h hx sc (Some e) = (h2, x) ->
  exists u0 h3 h4 h5 h6 l, us !! 0%nat = Some (u0, Z.of_nat k) /\
    link_levels hx 0 h2 x us (Z.of_nat k) = Some h3 /\ bump_spans (lvl - hx) hx h3 us = Some h4 /\
    set_backward h4 x (if decide (u0 = hd) then None else Some u0) = Some h5 /\
    get_level h5 x 0 = Some l /\ forward l = cid <$> cs !! k /\
    match cid <$> cs !! k with Some y => set_backward h5 y (Some x) | None => Some h5 end = Some h6 /\
    nodes_ok h6 hd lvl (ins k (Cell x hx sc e) cs) /\ x ∉ dom h /\ dom h6 = {[x]} ∪ dom h.
Proof.
  intros Hn Hk Hus Hhx Hb Hc.
  destruct (link_bump_ok _ _ _ _ _ _ _ _ _ _ _ Hn Hk Hus Hhx Hb Hc)
    as (u0 & h3 & h4 & Hu0 & Hr0 & Hlink & Hbump & HL4 & I4 & S4).
  destruct (create_node_ok _ _ _ _ _ _ Hc) as (Hfresh & Hdom2 & I2 & L2 & _).
  pose proof (prev_rank _ _ _ _ _ (no_nodup _ _ _ _ Hn) Hr0) as Hprev.
  assert (info h4 x = Some (Some e, sc, None, hx)) as Hix by (by rewrite I4, I2, decide_True).
  destruct (set_backward_ok h4 x (prev cs k) _ Hix) as (h5 & Hh5 & SL5 & I5).
  assert (dom h5 = {[x]} ∪ dom h) as Hdom5.
  { rewrite (upd_info_dom _ _ _ _ _ Hix I5), (same_info_dom _ _ I4). done. }
  change (x, hx) with (cid (Cell x hx sc e), cht (Cell x hx sc e)) in HL4. rewrite <- ranks_ins in HL4.
  set (cs' := ins k (Cell x hx sc e) cs) in *.
  assert (get_level h5 x 0 = Some (lev (ranks hd lvl cs') 0 (S k))) as Hl.
  { rewrite SL5. apply (HL4 (S k) x hx 0%nat); [|lia]. unfold cs'.
    apply (ranks_S _ _ _ k (Cell x hx sc e)). by apply ins_lookup_eq. }
  assert (forward (lev (ranks hd lvl cs') 0 (S k)) = cid <$> cs !! k) as Hf.
  { rewrite nxt_zero; [unfold cs'; by rewrite ins_lookup_gt by lia|].
    intros j c Hj. apply ins_lookup_inv in Hj as [[_ Hj]|[[_ ->]|(j' & _ & _ & Hj)]]; [..|done];
      [| cbn; lia |]; apply (no_heights _ _ _ _ Hn _ _ Hj). }
  assert (exists h6, match cid <$> cs !! k with Some y => set_backward h5 y (Some x) | None => Some h5 end = Some h6 /\
    same_levels h5 h6 /\ dom h6 = dom h5 /\ forall q, info h6 q =
     if decide (q = x) then Some (Some e, sc, prev cs k, hx)
     else if decide (Some q = cid <$> cs !! k) then (fun y => (y.1.1, Some x, y.2)) <$> info h q
     else info h q) as (h6 & Hh6 & SL6 & Hdom6 & I6).
  { assert (forall q, info h5 q = if decide (q = x) then Some (Some e, sc, prev cs k, hx) else info h q) as I5'.
    { intros q. rewrite I5, I4, I2. cbn. by repeat case_decide. }
    destruct (cs !! k) as [c|] eqn:Ec; cbn [fmap option_fmap option_map].
    - assert (cid c <> x) as Hne.
      { intros Heq. apply Hfresh. rewrite <- Heq. eapply info_dom, (no_cells _ _ _ _ Hn), Ec. }
      pose proof (no_cells _ _ _ _ Hn _ _ Ec) as Hic.
      destruct (set_backward_ok h5 (cid c) (Some x) (Some (cel c), csc c, prev cs k, cht c)) as (h6 & Hh6 & SL6 & I6).
      { by rewrite I5', decide_False. }
      exists h6. split_and!; [done|done| |].
      + eapply upd_info_dom; [|exact I6]. by rewrite I5', decide_False.
      + intros q. rewrite I6, I5'. destruct (decide (q = cid c)) as [->|Hq].
        * rewrite decide_False, decide_True by done. by rewrite Hic.
        * by rewrite (decide_False (P := Some q = Some (cid c))) by congruence.
    - exists h5. split_and!; [done..|]. intros q. rewrite I5'. by rewrite (decide_False (P := Some q = None)). }
  exists u0, h3, h4, h5, h6, (lev (ranks hd lvl cs') 0 (S k)). rewrite Hprev.
  split_and!; [done..| |done|by rewrite Hdom6].
  apply (insert_info_ok h); [done..| | |done].
  - eapply levels_ok_same; [exact SL6|]. by eapply levels_ok_same.
  - intros i Hi. rewrite SL6, SL5, S4 by lia. apply L2. intros ->. apply Hfresh, (ids_dom _ _ _ _ _ Hn). by left.
Qed.

(** ** Positions in a sorted list *)

Lemma sorted_lookup {A} (R : A -> A -> Prop) l : StronglySorted R l <->
  forall i j x y, (i < j)%nat -> l !! i = Some x -> l !! j = Some y -> R x y.
Proof.
  induction l as [|a l IH]; split.
  - done.
  - intros _. constructor.
  - intros [Hs Hf]%StronglySorted_inv i j x y Hij Hi Hj. destruct j as [|j]; [lia|].
    change (l !! j = Some y) in Hj. destruct i as [|i].
    + injection Hi as <-. rewrite Forall_lookup in Hf. by eapply Hf.
    + change (l !! i = Some x) in Hi. eapply IH; [done| |done|done]. lia.
  - intros Hl. constructor.
    + apply IH. intros i j x y Hij Hi Hj. apply (Hl (S i) (S j)); [lia|done|done].
    + apply Forall_lookup. intros i x Hi. apply (Hl 0%nat (S i)); [lia|done|done].
Qed.

Lemma sorted_ins {A} (R : A -> A -> Prop) l k y : (k <= length l)%nat -> StronglySorted R l ->
  (forall j x, (j < k)%nat -> l !! j = Some x -> R x y) ->
  (forall j x, (k <= j)%nat -> l !! j = Some x -> R y x) ->
  StronglySorted R (ins k y l).
Proof.
  rewrite !sorted_lookup. intros Hk Hs Hlow Hhigh i j a b Hij Ha Hb.
  apply ins_lookup_inv in Ha as [[? Ha]|[[-> ->]|(i' & -> & ? & Ha)]]; [..|done];
    apply ins_lookup_inv in Hb as [[? Hb]|[[-> ->]|(j' & -> & ? & Hb)]]; try done; try lia.
  - by apply (Hs i j).
  - by eapply Hlow.
  - apply (Hs i j'); [lia|done|done].
  - eapply Hhigh; [|done]. lia.
  - apply (Hs i' j'); [lia|done|done].
Qed.

(** A test that only fails after it has failed once holds of a prefix. *)
Lemma prefix_pos {A} (f : A -> bool) l :
  (forall i j x y, (i < j)%nat -> l !! i = Some x -> l !! j = Some y -> f y = true -> f x = true) ->
  exists k, (k <= length l)%nat /\ forall j x, l !! j = Some x -> f x = bool_decide (j < k)%nat.
Proof.
  induction l as [|a l IH]; intros Hmon.
  { by exists 0%nat. }
  destruct (f a) eqn:Ea.
  - destruct IH as (k & Hk & Hf).
    { intros i j x y Hij Hi Hj. apply (Hmon (S i) (S j)); [lia|done|done]. }
    exists (S k). split; [cbn; lia|]. intros [|j] x Hj.
    + injection Hj as <-. rewrite Ea. symmetry. apply bool_decide_true. lia.
    + rewrite (Hf j x Hj). apply bool_decide_ext. lia.
  - exists 0%nat. split; [lia|]. intros j x Hj. rewrite bool_decide_false by lia. destruct j as [|j].
    + by injection Hj as <-.
    + destruct (f x) eqn:Ex; [|done]. rewrite <- Ea. symmetry. apply (Hmon 0%nat (S j) a x); [lia|done..].
Qed.

Definition kltb (a b : D * sds) : bool :=
  score_lt a.1 b.1 || (score_eq a.1 b.1 && bool_decide (sdscmp a.2 b.2 < 0)).

Lemma kltb_true a b : kltb a b = true <-> klt a b.
Proof. unfold kltb, klt. rewrite orb_true_iff, andb_true_iff, bool_decide_eq_true. done. Qed.

Lemma before_kltb n c sc e : ele n = Some (cel c) -> score n = csc c -> before sc e n = kltb (key c) (sc, e).
Proof. unfold before, kltb. by intros -> ->. Qed.

(** The number of cells before a key. *)
Lemma key_pos cs y : StronglySorted klt (key <$> cs) ->
  exists k, (k <= length cs)%nat /\ forall j c, cs !! j = Some c -> kltb (key c) y = bool_decide (j < k)%nat.
Proof using Type*.
  intros Hs. apply (prefix_pos (fun c => kltb (key c) y)). intros i j c c' Hij Hi Hj Hc'.
  apply kltb_true. apply kltb_true in Hc'. rewrite sorted_lookup in Hs.
  eapply klt_trans; [|done]. apply (Hs i j); [done|by rewrite list_lookup_fmap, Hi|by rewrite list_lookup_fmap, Hj].
Qed.

Lemma search_key_ok h zsl cs sc e : zsl_ok h zsl cs ->
  exists us k, search h zsl (fun n _ => before sc e n) = Some us /\ (k <= length cs)%nat /\
    path_ok (ranks (header zsl) (zlevel zsl) cs) k us (zlevel zsl) /\
    forall j c, cs !! j = Some c -> kltb (key c) (sc, e) = bool_decide (j < k)%nat.
Proof using Type*.
  intros Hz. destruct (key_pos cs (sc, e) (zo_sorted _ _ _ Hz)) as (k & Hk & Hpos).
  destruct (search_ok h zsl cs (fun n _ => before sc e n) k) as (us & Hus & Hp).
  - apply (zo_nodes _ _ _ Hz).
  - apply (zo_bound _ _ _ Hz).
  - intros j c n Hj _ He Hs. rewrite (before_kltb n c) by done. rewrite (Hpos j c Hj).
    apply bool_decide_ext. lia.
  - by exists us, k.
Qed.

Lemma random_level_ge rnd lvl : (lvl <= random_level rnd lvl)%nat.
Proof.
  revert lvl. induction rnd as [|[] rnd IH]; intros lvl; cbn [random_level]; [lia| |lia].
  specialize (IH (S lvl)). lia.
Qed.

Lemma zslRandomLevel_range rnd : (1 <= zslRandomLevel rnd <= ZSKIPLIST_MAXLEVEL)%nat.
Proof.
  unfold zslRandomLevel. pose proof (random_level_ge rnd 1). unfold ZSKIPLIST_MAXLEVEL in *. case_decide; lia.
Qed.

Lemma last_ins {A} k (x : A) l : (k <= length l)%nat ->
  last (ins k x l) = if decide (k = length l) then Some x else last l.
Proof.
  intros Hk. rewrite !last_lookup. rewrite (Permutation_length (ins_perm k x l)). cbn [length Nat.pred].
  case_decide as E.
  - rewrite <- E. by apply ins_lookup_eq.
  - destruct (length l) as [|n] eqn:El; [lia|]. cbn [Nat.pred]. apply ins_lookup_gt; lia.
Qed.

(** A key that is not below a cell and does not equal it is above it. *)
Lemma key_above c y : isnan (csc c) = false -> isnan y.1 = false -> kltb (key c) y = false ->
  ~ (score_eq (csc c) y.1 = true /\ cel c = y.2) -> klt y (key c).
Proof using Type*.
  intros Hc Hy Hb Hne. destruct (klt_total (key c) y Hc Hy) as [Hl|[He|Hl]]; [|done|done].
  apply kltb_true in Hl. congruence.
Qed.

Lemma zslInsert_ok rnd h zsl cs sc e :
  zsl_ok h zsl cs -> isnan sc = false -> zlen cs + 1 < 2 ^ 63 ->
  Forall (fun c => ~ (score_eq (csc c) sc = true /\ cel c = e)) cs ->
  exists h' zsl' x k, zslInsert rnd h zsl sc e = Some (h', zsl', x) /\
    zsl_ok h' zsl' (ins k (Cell x (zslRandomLevel rnd) sc e) cs) /\ (k <= length cs)%nat /\
    header zsl' = header zsl /\ x ∉ dom h /\ dom h' = {[x]} ∪ dom h.
Proof using Type*.
  intros Hz Hnan Hb Hnew. unfold zslInsert. rewrite assert_True by done. cbn [mbind option_bind].
  destruct (search_key_ok h zsl cs sc e Hz) as (us & k & -> & Hk & Hpath & Hpos). cbn [mbind option_bind].
  pose proof (zslRandomLevel_range rnd) as Hr. set (lvl := zslRandomLevel rnd) in *. cbn zeta.
  pose proof (zo_nodes _ _ _ Hz) as Hn. pose proof (no_level _ _ _ _ Hn) as Hlv.
  destruct (grow_nodes h zsl cs (lvl - zlevel zsl) Hn (zo_length _ _ _ Hz)) as (h1 & -> & Hn1 & I1); [lia|].
  cbn [mbind option_bind]. apply (grow_path _ _ (lvl - zlevel zsl)) in Hpath.
  2: { intros j c Hj. apply (no_heights _ _ _ _ Hn j c Hj). }
  replace (Nat.max lvl (zlevel zsl)) with (zlevel zsl + (lvl - zlevel zsl))%nat by lia.
  destruct (zslCreateNode h1 lvl sc (Some e)) as [h2 x] eqn:Ec.
  assert (1 <= lvl <= zlevel zsl + (lvl - zlevel zsl))%nat as Hhx by lia.
  destruct (insert_nodes_ok _ _ _ _ _ _ _ _ _ _ _ Hn1 Hk Hpath Hhx (zo_bound _ _ _ Hz) Ec)
    as (u0 & h3 & h4 & h5 & h6 & l & -> & Hlink & Hbump & Hback & Hl & Hf & Hh6 & Hn6 & Hx & Hdom).
  cbn [mbind option_bind]. rewrite Hlink. cbn [mbind option_bind]. rewrite Hbump. cbn [mbind option_bind].
  rewrite Hback. cbn [mbind option_bind]. rewrite Hl. cbn [mbind option_bind]. rewrite Hf.
  rewrite (same_info_dom _ _ I1) in Hx, Hdom.
  exists h6, (ZSkiplist (header zsl) (cid <$> last (ins k (Cell x lvl sc e) cs)) (zlen cs + 1)
    (zlevel zsl + (lvl - zlevel zsl))), x, k. split_and!; [| |done|done|done|done].
  - rewrite last_ins, (zo_length _ _ _ Hz) by done. pose proof (zlen_nonneg cs).
    rewrite u64_small by lia.
    destruct (cs !! k) as [c|] eqn:Ek; cbn [fmap option_fmap option_map] in Hh6 |- *.
    + rewrite Hh6. cbn [mbind option_bind]. apply lookup_lt_Some in Ek. rewrite decide_False by lia.
      by rewrite <- (zo_tail _ _ _ Hz).
    + injection Hh6 as ->. cbn [mbind option_bind]. apply lookup_ge_None in Ek. by rewrite decide_True by lia.
  - constructor; cbn [header tail zlength zlevel].
    + done.
    + done.
    + by rewrite zlen_ins.
    + by rewrite zlen_ins.
    + unfold ins. rewrite fmap_app, fmap_cons, fmap_take, fmap_drop. apply sorted_ins.
      * by rewrite length_fmap.
      * apply (zo_sorted _ _ _ Hz).
      * intros j y Hj (c & -> & Hc)%list_lookup_fmap_Some. apply kltb_true. change (key (Cell x lvl sc e)) with (sc, e).
        rewrite (Hpos j c Hc). by apply bool_decide_true.
      * intros j y Hj (c & -> & Hc)%list_lookup_fmap_Some. apply key_above.
        -- pose proof (zo_nan _ _ _ Hz) as Hnn. rewrite Forall_lookup in Hnn. by eapply Hnn.
        -- done.
        -- change (key (Cell x lvl sc e)) with (sc, e). rewrite (Hpos j c Hc). apply bool_decide_false. lia.
        -- rewrite Forall_lookup in Hnew. by apply (Hnew j).
    + rewrite ins_perm. apply Forall_cons. split; [done|apply (zo_nan _ _ _ Hz)].
Qed.

(** ** Deletion *)

Lemma is_prev_ins L1 k x i q : (k < length L1)%nat ->
  is_prev (take (S k) L1 ++ x :: drop (S k) L1) i k q <-> is_prev L1 i k q.
Proof.
  intros Hk. unfold is_prev. split; intros (Hq & (y & Hy & Hi) & Hm); (split_and!; [done| |]).
  - exists y. by rewrite ins_low in Hy.
  - intros j z Hj Hz. apply (Hm j); [done|]. by rewrite ins_low by (done || lia).
  - exists y. by rewrite ins_low.
  - intros j z Hj Hz. apply (Hm j); [done|]. by rewrite ins_low in Hz by (done || lia).
Qed.

Lemma u64_add a b : u64 (a + u64 b) = u64 (a + b).
Proof. unfold u64, uwrap. by rewrite Zplus_mod_idemp_r. Qed.

Section delete_levels.
Variables (h h' : heap D) (L1 : hts) (k : nat) (x : ptr) (hx : nat).
Let L2 := take (S k) L1 ++ (x, hx) :: drop (S k) L1.
Hypothesis (Hk : (k < length L1)%nat) (Hnd : NoDup L1.*1) (Hx : x ∉ L1.*1) (Hlen : zlen L1 <= 2 ^ 63).
Hypothesis HL : levels_ok h L2.
Hypothesis Hstep : forall i r y, L1 !! r = Some y -> (i < y.2)%nat ->
  exists q u, is_prev L2 i k q /\ L2.*1 !! q = Some u /\
    row_set h h' u i (unlinked x (lev L2 i q) (level_of h x i)).

Lemma delete_levels_row i q : is_prev L1 i k q -> unlinked x (lev L2 i q) (level_of h x i) = lev L1 i q.
Proof using Hk Hx Hlen HL.
  intros Hp. pose proof (lev_span_bounds _ _ _ _ Hp Hk) as Hb. pose proof Hp as (Hqk & _).
  destruct (lev L1 i q) as [f s] eqn:El. cbn [span] in Hb.
  destruct (decide (i < hx)%nat) as [Hi|Hi]; unfold unlinked.
  - assert (level_of h x i = ZLevel f (s - (Z.of_nat k - Z.of_nat q))) as ->.
    { unfold level_of. rewrite (HL (S k) x hx i) by (done || apply ins_mid; done). cbn [default from_option id].
      unfold id, L2. rewrite (lev_ins_from _ _ _ Hk i q Hp). by rewrite El. }
    unfold L2. rewrite (lev_ins_to _ _ (x, hx) Hk i q Hp) by done. cbn [forward span fst].
    rewrite decide_True by done. f_equal. rewrite u64_add, u64_small by lia. lia.
  - unfold L2. rewrite (lev_ins_over _ _ (x, hx) Hk i q Hp) by (cbn; lia). rewrite El. cbn [forward span].
    rewrite decide_False; [f_equal; rewrite u64_small by lia; lia|]. intros ->. apply Hx.
    unfold lev in El. injection El as Hf _. destruct (nxt L1 i q) as [j|]; [|done]. cbn in Hf.
    destruct (L1 !! j) as [[p ht]|] eqn:Ej; [|done]. injection Hf as ->.
    eapply list_elem_of_lookup_2, lookup_fst, Ej.
Qed.

Lemma delete_levels_ok : levels_ok h' L1.
Proof using Hk Hnd Hx Hlen HL Hstep.
  intros r p ht i Hr Hi. destruct (Hstep i r _ Hr Hi) as (q & u & Hp & Hu & Hrow).
  unfold L2 in Hp. apply (is_prev_ins _ _ _ _ _ Hk) in Hp. pose proof Hp as (Hqk & _).
  assert (L1.*1 !! q = Some u) as Hu1.
  { revert Hu. unfold L2. rewrite !list_lookup_fmap, ins_low by lia. done. }
  rewrite Hrow. pose proof (lookup_fst _ _ _ _ Hr) as Hpr. destruct (decide (r = q)) as [->|Hne].
  - rewrite Hu1 in Hpr. injection Hpr as ->. rewrite decide_True by done. by rewrite (delete_levels_row i q Hp).
  - rewrite decide_False by (intros ->; apply Hne; by eapply fst_inj).
    destruct (decide (r <= k)%nat) as [Hle|Hgt].
    + pose proof (is_prev_max _ _ _ _ _ _ _ Hp Hr Hi Hle).
      rewrite (HL r p ht i) by (done || (unfold L2; by rewrite ins_low)).
      unfold L2. by rewrite (lev_ins_below _ _ (x, hx) Hk i r q Hp) by lia.
    + rewrite (HL (S r) p ht i) by (done || (unfold L2; rewrite ins_high by lia; done)).
      unfold L2. by rewrite (lev_ins_above _ _ (x, hx) Hk i r) by lia.
Qed.
End delete_levels.

Lemma shrink_step h hd n cs l : nodes_ok h hd (S (S n)) cs -> get_level h hd (S n) = Some l -> forward l = None ->
  nodes_ok h hd (S n) cs.
Proof.
  intros Hn Hl Hf. rewrite (no_levels _ _ _ _ Hn 0%nat hd (S (S n)) (S n)) in Hl by (done || lia).
  injection Hl as <-.
  assert (forall j c, cs !! j = Some c -> (cht c <= S n)%nat) as Hht.
  { intros j c Hj. destruct (nxt (ranks hd (S (S n)) cs) (S n) 0) as [q|] eqn:Eq.
    - apply nxt_lookup in Eq as (p & ht & _ & _ & _ & Hq). congruence.
    - apply nxt_is in Eq. specialize (Eq (S j) (cid c, cht c) ltac:(lia) (ranks_S _ _ _ _ _ Hj)). done. }
  pose proof (no_level _ _ _ _ Hn). constructor.
  - apply (no_nodup _ _ _ _ Hn).
  - apply (no_header _ _ _ _ Hn).
  - intros i Hi. destruct (decide (i = S n)) as [->|Hne]; [|apply (no_above _ _ _ _ Hn); lia].
    rewrite (no_levels _ _ _ _ Hn 0%nat hd (S (S n)) (S n)) by (done || lia).
    destruct (lev _ _ _) as [f s]. cbn in Hf. subst. by exists s.
  - apply (no_cells _ _ _ _ Hn).
  - intros j c Hj. pose proof (no_heights _ _ _ _ Hn j c Hj). specialize (Hht j c Hj). lia.
  - lia.
  - intros [|r] p ht i Hr Hi.
    + injection Hr as <- <-. rewrite (lev_ranks _ _ (S (S n))). by apply (no_levels _ _ _ _ Hn 0%nat _ (S (S n))); [|lia].
    + rewrite (lev_ranks _ _ (S (S n))). by apply (no_levels _ _ _ _ Hn (S r) _ ht).
Qed.

Lemma shrink_ok h hd cs lvl : nodes_ok h hd lvl cs ->
  exists lvl', shrink_level lvl h hd = Some lvl' /\ nodes_ok h hd lvl' cs /\ (lvl' <= lvl)%nat.
Proof.
  induction lvl as [|[|n] IH]; intros Hn.
  - by exists 0%nat.
  - by exists 1%nat.
  - change (shrink_level (S (S n)) h hd) with
      (l ← get_level h hd (S n); match forward l with None => shrink_level (S n) h hd | Some _ => Some (S (S n)) end).
    pose proof (no_levels _ _ _ _ Hn 0%nat hd (S (S n)) (S n) eq_refl ltac:(lia)) as Hl. rewrite Hl.
    cbn [mbind option_bind]. destruct (forward (lev _ _ _)) as [p|] eqn:Ef.
    + by exists (S (S n)).
    + destruct (IH (shrink_step _ _ _ _ _ Hn Hl Ef)) as (lvl' & -> & Hn' & Hle). exists lvl'. split_and!; [done..|lia].
Qed.

Lemma path_shrink hd lvl lvl' cs k us : (lvl' <= lvl)%nat -> path_on (ranks hd lvl cs) k us lvl ->
  path_on (ranks hd lvl' cs) k us lvl'.
Proof.
  intros Hle Hus i Hi. destruct (Hus i ltac:(lia)) as (q & u & Hu & Hq & Hqk & Hy & Hm). exists q, u.
  rewrite ranks_fst in Hq |- *. split_and!; [done|done|]. split_and!; [done| |].
  - destruct Hy as (y & Hy & Hyi). destruct q as [|q]; [by exists (hd, lvl')|by exists y].
  - intros [|j] y Hj Hy'; [lia|]. by apply (Hm (S j) y).
Qed.

(** The fields after the backward pointer of the next node is set. *)
Lemma delete_info_ok h h' hd lvl cs k c :
  nodes_ok h hd lvl (ins k c cs) -> (k <= length cs)%nat ->
  levels_ok h' (ranks hd lvl cs) ->
  (forall i, (lvl <= i)%nat -> get_level h' hd i = get_level h hd i) ->
  (forall q, info h' q =
     if decide (Some q = cid <$> cs !! k) then (fun y => (y.1.1, prev cs k, y.2)) <$> info h q else info h q) ->
  nodes_ok h' hd lvl cs.
Proof.
  intros Hn Hk HL Habove Hinfo.
  pose proof (no_nodup _ _ _ _ Hn) as Hnd. rewrite (fmap_Permutation cid _ _ (ins_perm k c cs)) in Hnd.
  cbn [fmap list_fmap] in Hnd. apply NoDup_cons in Hnd as [Hhd [Hc Hndc]%NoDup_cons].
  assert (forall j d, cs !! j = Some d -> (Some (cid d) = cid <$> cs !! k <-> j = k)) as Hpos.
  { intros j d Hj. split; [|intros ->; by rewrite Hj]. intros Heq.
    apply (NoDup_lookup _ j k (cid d) Hndc); rewrite list_lookup_fmap; [by rewrite Hj|done]. }
  constructor.
  - apply NoDup_cons. split; [|done]. intros Hin. apply Hhd. by right.
  - destruct (no_header _ _ _ _ Hn) as (sc0 & b0 & Hi). exists sc0, b0. rewrite Hinfo, decide_False; [done|].
    intros Heq. symmetry in Heq. apply fmap_Some in Heq as (d & Hd & ->). apply Hhd. right.
    apply list_elem_of_fmap. exists d. split; [done|]. by eapply list_elem_of_lookup_2.
  - intros i Hi. rewrite Habove by lia. by apply (no_above _ _ _ _ Hn).
  - intros j d Hj. rewrite Hinfo. destruct (decide (j < k)%nat) as [Hlt|Hge].
    + rewrite decide_False by (rewrite Hpos by done; lia).
      rewrite (no_cells _ _ _ _ Hn j d) by (by rewrite ins_lookup_lt). by rewrite prev_ins_le by lia.
    + rewrite (no_cells _ _ _ _ Hn (S j) d) by (by rewrite ins_lookup_gt by lia).
      destruct (decide (j = k)) as [->|Hne].
      * by rewrite decide_True by (by rewrite Hj).
      * rewrite decide_False by (by rewrite Hpos). by rewrite prev_ins_gt by lia.
  - intros j d Hj. destruct (decide (j < k)%nat) as [Hlt|Hge].
    + apply (no_heights _ _ _ _ Hn j d). by rewrite ins_lookup_lt.
    + apply (no_heights _ _ _ _ Hn (S j) d). by rewrite ins_lookup_gt by lia.
  - apply (no_level _ _ _ _ Hn).
  - done.
Qed.

(** The path to position [k] is the same with and without the cell there. *)
Lemma path_ins hd lvl cs k c us n : (k <= length cs)%nat ->
  path_on (ranks hd lvl (ins k c cs)) k us n -> path_on (ranks hd lvl cs) k us n.
Proof.
  intros Hk Hus i Hi. destruct (Hus i Hi) as (q & u & Hu & Hq & Hp). exists q, u.
  rewrite ranks_ins in Hp, Hq. assert (k < length (ranks hd lvl cs))%nat as Hk' by (rewrite ranks_length; lia).
  apply (is_prev_ins _ _ _ _ _ Hk') in Hp. pose proof Hp as (Hqk & _).
  rewrite !list_lookup_fmap, ins_low in Hq by done. by rewrite list_lookup_fmap.
Qed.

Lemma unlink_nodes_ok h hd lvl cs k c us :
  nodes_ok h hd lvl (ins k c cs) -> (k <= length cs)%nat -> zlen cs < 2 ^ 63 ->
  path_on (ranks hd lvl (ins k c cs)) k us lvl ->
  exists h1, unlink_levels lvl 0 h (cid c) us = Some h1 /\ same_info h h1 /\ rows_same h h1 0 lvl /\
    levels_ok h1 (ranks hd lvl cs) /\ (forall i, get_level h1 (cid c) i = get_level h (cid c) i).
Proof.
  intros Hn Hk Hb Hus. pose proof (no_nodup _ _ _ _ Hn) as Hnd.
  rewrite (fmap_Permutation cid _ _ (ins_perm k c cs)) in Hnd. cbn [fmap list_fmap] in Hnd.
  rewrite perm_swap in Hnd. apply NoDup_cons in Hnd as [Hc Hnd].
  assert (k < length (ranks hd lvl cs))%nat as Hk' by (rewrite ranks_length; lia).
  assert (forall i, (i < lvl)%nat -> exists q u, us !! i = Some (u, Z.of_nat q) /\
    (ranks hd lvl (ins k c cs)).*1 !! q = Some u /\ is_prev (ranks hd lvl (ins k c cs)) i k q /\ u <> cid c /\
    get_level h u i = Some (lev (ranks hd lvl (ins k c cs)) i q)) as Hpath.
  { intros i Hi. destruct (Hus i Hi) as (q & u & Hu & Hq & Hp). exists q, u.
    destruct (path_ins _ _ _ _ _ _ _ Hk Hus i Hi) as (q' & u' & Hu' & Hq' & _).
    rewrite Hu in Hu'. injection Hu' as <- Hqq. split_and!; [done..| |].
    - intros ->. apply Hc. rewrite ranks_fst in Hq'. by eapply list_elem_of_lookup_2.
    - destruct Hp as (_ & ([u'' hq] & Hy & Hi') & _). rewrite (lookup_fst _ _ _ _ Hy) in Hq.
      injection Hq as ->. by eapply (no_levels _ _ _ _ Hn). }
  assert (forall i, (i < cht c)%nat -> is_Some (get_level h (cid c) i)) as Hxl.
  { intros i Hi. eexists. eapply (no_levels _ _ _ _ Hn (S k)); [|done]. by apply ranks_S, ins_lookup_eq. }
  destruct (unlink_levels_ok (cid c) us lvl 0 h) as (h1 & Hun & I1 & S1 & R1).
  { intros j Hj. destruct (Hpath j ltac:(lia)) as (q & u & Hu & Hq & Hp & Hne & Hl).
    exists u, (Z.of_nat q), (lev (ranks hd lvl (ins k c cs)) j q). split_and!; [done..|]. intros Hf. apply Hxl.
    rewrite ranks_ins in Hf, Hp. apply (is_prev_ins _ _ _ _ _ Hk') in Hp.
    destruct (decide (j < cht c)%nat) as [|Hge]; [done|]. exfalso.
    rewrite (lev_ins_over _ _ (cid c, cht c) Hk' j q Hp) in Hf by (cbn; lia). cbn [forward] in Hf.
    unfold lev in Hf. cbn [forward] in Hf. destruct (nxt _ j q) as [r|]; [|done]. cbn in Hf.
    apply fmap_Some in Hf as ([p ht] & Hr & Heq). apply Hc. rewrite Heq, <- (ranks_fst hd lvl).
    eapply list_elem_of_lookup_2, lookup_fst, Hr. }
  exists h1. split_and!; [done..| |].
  - apply (delete_levels_ok h h1 (ranks hd lvl cs) k (cid c) (cht c)); rewrite <- ?ranks_ins.
    + done.
    + by rewrite ranks_fst.
    + by rewrite ranks_fst.
    + unfold zlen. rewrite ranks_length. unfold zlen in Hb. lia.
    + apply (no_levels _ _ _ _ Hn).
    + intros i r y Hr Hi. assert (i < lvl)%nat as Hil.
      { destruct r as [|r]; [by injection Hr as <-|]. apply ranks_S_inv in Hr as (d & Hd & ->). cbn in Hi.
        destruct (decide (r < k)%nat) as [Hlt|Hge].
        - pose proof (no_heights _ _ _ _ Hn r d). rewrite ins_lookup_lt in * by done. naive_solver lia.
        - pose proof (no_heights _ _ _ _ Hn (S r) d). rewrite ins_lookup_gt in * by lia. naive_solver lia. }
      destruct (Hpath i Hil) as (q & u & Hu & Hq & Hp & Hne & Hl). exists q, u. split_and!; [done..|].
      by apply (R1 i u (Z.of_nat q)); [lia|..].
  - intros i. destruct (decide (i < lvl)%nat) as [Hi|Hi]; [|by rewrite S1 by lia].
    destruct (Hpath i Hi) as (q & u & Hu & Hq & Hp & Hne & Hl).
    rewrite (R1 i u (Z.of_nat q) _ ltac:(lia) Hu Hl (cid c)). by rewrite decide_False.
Qed.

(** The part of the invariant that does not speak of keys. *)
Record list_ok (h : heap D) (zsl : zskiplist) (cs : list cell) : Prop := {
  lo_nodes : nodes_ok h (header zsl) (zlevel zsl) cs;
  lo_tail : tail zsl = cid <$> last cs;
  lo_length : zlength zsl = zlen cs;
  lo_bound : zlen cs < 2 ^ 63;
}.

Lemma zsl_list_ok h zsl cs : zsl_ok h zsl cs -> list_ok h zsl cs.
Proof. intros []. by constructor. Qed.

Lemma zslDeleteNode_ok h zsl cs k c us :
  list_ok h zsl (ins k c cs) -> (k <= length cs)%nat ->
  path_on (ranks (header zsl) (zlevel zsl) (ins k c cs)) k us (zlevel zsl) ->
  exists h' zsl', zslDeleteNode h zsl (cid c) us = Some (h', zsl') /\ list_ok h' zsl' cs /\
    header zsl' = header zsl /\ dom h' = dom h /\
    path_on (ranks (header zsl') (zlevel zsl') cs) k us (zlevel zsl').
Proof.
  intros [Hn Ht Hl Hb] Hk Hus. rewrite zlen_ins in Hl, Hb. unfold zslDeleteNode.
  destruct (unlink_nodes_ok _ _ _ _ _ _ _ Hn Hk ltac:(lia) Hus) as (h1 & -> & I1 & S1 & HL1 & X1).
  cbn [mbind option_bind]. pose proof (no_cells _ _ _ _ Hn k c (ins_lookup_eq _ _ _ Hk)) as Hic.
  rewrite <- I1 in Hic. apply info_Some in Hic as (nx & Hnx & [= _ _ Hback Hht]). rewrite Hnx. cbn [mbind option_bind].
  assert (level nx !! 0%nat = Some (lev (ranks (header zsl) (zlevel zsl) (ins k c cs)) 0 (S k))) as ->.
  { change (level nx !! 0%nat) with (Some nx ≫= fun n => level n !! 0%nat). rewrite <- Hnx.
    change (get_level h1 (cid c) 0 = Some (lev (ranks (header zsl) (zlevel zsl) (ins k c cs)) 0 (S k))). rewrite X1.
    eapply (no_levels _ _ _ _ Hn (S k)); [by apply ranks_S, ins_lookup_eq|].
    apply (no_heights _ _ _ _ Hn k c), ins_lookup_eq, Hk. }
  cbn [mbind option_bind].
  rewrite nxt_zero by (intros j d Hj; apply (no_heights _ _ _ _ Hn j d Hj)).
  rewrite ins_lookup_gt, <- Hback, prev_ins_le by lia.
  assert (exists h2, match cid <$> cs !! k with Some y => set_backward h1 y (prev cs k) | None => Some h1 end = Some h2 /\
    same_levels h1 h2 /\ dom h2 = dom h1 /\ forall q, info h2 q =
     if decide (Some q = cid <$> cs !! k) then (fun y => (y.1.1, prev cs k, y.2)) <$> info h q
     else info h q) as (h2 & Hh2 & SL2 & Hdom2 & I2).
  { destruct (cs !! k) as [d|] eqn:Ed; cbn [fmap option_fmap option_map].
    - pose proof (no_cells _ _ _ _ Hn (S k) d) as Hid. rewrite ins_lookup_gt in Hid by lia. specialize (Hid Ed).
      pose proof Hid as Hid1. rewrite <- I1 in Hid1.
      destruct (set_backward_ok h1 (cid d) (prev cs k) _ Hid1) as (h2 & Hh2 & SL2 & I2).
      exists h2. split_and!; [done|done|by eapply upd_info_dom|]. intros q. rewrite I2.
      destruct (decide (q = cid d)) as [->|Hq].
      + rewrite decide_True by done. by rewrite Hid.
      + rewrite (decide_False (P := Some q = Some (cid d))) by congruence. apply I1.
    - exists h1. split_and!; [done..|]. intros q. rewrite (decide_False (P := Some q = None)) by done. apply I1. }
  assert (nodes_ok h2 (header zsl) (zlevel zsl) cs) as Hn2.
  { eapply delete_info_ok; [exact Hn|done|by eapply levels_ok_same| |done].
    intros i Hi. rewrite SL2. apply S1. lia. }
  destruct (shrink_ok _ _ _ _ Hn2) as (lvl' & Hshrink & Hn' & Hle).
  exists h2, (ZSkiplist (header zsl) (cid <$> last cs) (zlen cs) lvl'). pose proof (zlen_nonneg cs).
  split_and!.
  - rewrite Hl, u64_small by lia. replace (zlen cs + 1 - 1) with (zlen cs) by lia.
    rewrite last_ins in Ht by done.
    destruct (cs !! k) as [d|] eqn:Ed; cbn [fmap option_fmap option_map] in Hh2 |- *.
    + rewrite Hh2. cbn [mbind option_bind]. rewrite Hshrink. cbn [mbind option_bind].
      apply lookup_lt_Some in Ed. rewrite decide_False in Ht by lia. by rewrite Ht.
    + injection Hh2 as ->. cbn [mbind option_bind]. rewrite Hshrink. cbn [mbind option_bind].
      apply lookup_ge_None in Ed. replace k with (length cs) by lia. rewrite last_lookup.
      by destruct cs as [|? ?]; [|cbn [prev length Nat.pred]].
  - constructor; [done|done|done|cbn; lia].
  - done.
  - by rewrite Hdom2, (same_info_dom _ _ I1).
  - cbn [header zlevel]. eapply path_shrink; [done|]. by eapply path_ins.
Qed.

(** A node that is not in the list can be freed. *)
Lemma free_nodes_ok h hd lvl cs p : nodes_ok h hd lvl cs -> p ∉ hd :: (cid <$> cs) ->
  nodes_ok (zslFreeNode h p) hd lvl cs.
Proof.
  intros Hn Hp. unfold zslFreeNode.
  assert (forall q, q ∈ hd :: (cid <$> cs) -> delete p h !! q = h !! q) as Hsame.
  { intros q Hq. apply lookup_delete_ne. by intros ->. }
  assert (forall j c, cs !! j = Some c -> cid c ∈ hd :: (cid <$> cs)) as Hin.
  { intros j c Hj. right. apply list_elem_of_fmap. exists c. split; [done|]. by eapply list_elem_of_lookup_2. }
  constructor.
  - apply (no_nodup _ _ _ _ Hn).
  - unfold info. rewrite Hsame by (by left). apply (no_header _ _ _ _ Hn).
  - unfold get_level. rewrite Hsame by (by left). apply (no_above _ _ _ _ Hn).
  - intros j c Hj. unfold info. rewrite Hsame by (by eapply Hin). by apply (no_cells _ _ _ _ Hn).
  - apply (no_heights _ _ _ _ Hn).
  - apply (no_level _ _ _ _ Hn).
  - intros r q ht i Hr Hi. unfold get_level. rewrite Hsame; [by apply (no_levels _ _ _ _ Hn r q ht)|].
    rewrite <- (ranks_fst hd lvl). eapply list_elem_of_lookup_2, lookup_fst, Hr.
Qed.

Lemma free_list_ok h zsl cs p : list_ok h zsl cs -> p ∉ header zsl :: (cid <$> cs) -> list_ok (zslFreeNode h p) zsl cs.
Proof. intros [] Hp. constructor; [by apply free_nodes_ok|done..]. Qed.

Lemma ins_not_in h zsl k c cs : list_ok h zsl (ins k c cs) -> cid c ∉ header zsl :: (cid <$> cs).
Proof.
  intros [Hn _ _ _]. pose proof (no_nodup _ _ _ _ Hn) as Hnd.
  rewrite (fmap_Permutation cid _ _ (ins_perm k c cs)) in Hnd. cbn [fmap list_fmap] in Hnd.
  rewrite perm_swap in Hnd. by apply NoDup_cons in Hnd as [Hc _].
Qed.

(** A cell splits the list. *)
Lemma ins_split {A} (l : list A) k x : l !! k = Some x -> l = ins k x (take k l ++ drop (S k) l) /\ (k <= length (take k l ++ drop (S k) l))%nat.
Proof.
  intros Hx. pose proof (lookup_lt_Some _ _ _ Hx) as Hlt. split.
  - unfold ins. rewrite take_app_length', drop_app_length' by (rewrite length_take; lia).
    by rewrite take_drop_middle.
  - rewrite length_app, length_take. lia.
Qed.
End rep.
