(* ===== verification/SkiplistSpec.v ===== *)
(** * Skip lists: sorted sets

    The operations of t_zset.c on skip lists against their meaning on the
    sorted list of (score, member) pairs: insertion, deletion and update of a
    score, ranks, lookups and deletions by range of scores, of members and of
    ranks. *)

From S2P Require Import Prelude Skiplist SkiplistOps.

#[local] Set Default Proof Using "Type".

(** ** Filters and segments *)

Section filters.
Context {A : Type} (P : A -> Prop) `{!forall x, Decision (P x)}.

Lemma filter_all (l : list A) : (forall x, x ∈ l -> P x) -> filter P l = l.
Proof.
  induction l as [|a l IH]; intros Hl; [done|]. rewrite filter_cons_True by (apply Hl; by left).
  rewrite IH; [done|]. intros x Hx. apply Hl. by right.
Qed.

Lemma filter_none (l : list A) : (forall x, x ∈ l -> ~ P x) -> filter P l = [].
Proof.
  induction l as [|a l IH]; intros Hl; [done|]. rewrite filter_cons_False by (apply Hl; by left).
  apply IH. intros x Hx. apply Hl. by right.
Qed.

(** A predicate that holds from position [a] up to [b]. *)
Lemma filter_segment (l : list A) a b : (a <= b)%nat ->
  (forall j x, l !! j = Some x -> P x <-> (a <= j < b)%nat) -> filter P l = take (b - a) (drop a l).
Proof using Type*.
  intros Hab Hp. rewrite <- (take_drop a l) at 1. rewrite <- (take_drop (b - a) (drop a l)) at 1.
  rewrite !filter_app, drop_drop. rewrite (filter_none (take a l)), (filter_all (take _ _)), (filter_none (drop _ l)).
  - by rewrite app_nil_r.
  - intros x (j & Hj)%list_elem_of_lookup. rewrite lookup_drop in Hj. rewrite (Hp _ _ Hj). lia.
  - intros x (j & Hj)%list_elem_of_lookup. apply lookup_take_Some in Hj as [Hj Hlt]. rewrite lookup_drop in Hj.
    rewrite (Hp _ _ Hj). lia.
  - intros x (j & Hj)%list_elem_of_lookup. apply lookup_take_Some in Hj as [Hj Hlt]. rewrite (Hp _ _ Hj). lia.
Qed.

Lemma filter_outside (l : list A) a b : (a <= b)%nat ->
  (forall j x, l !! j = Some x -> P x <-> ~ (a <= j < b)%nat) -> filter P l = take a l ++ drop b l.
Proof using Type*.
  intros Hab Hp. rewrite <- (take_drop a l) at 1. rewrite <- (take_drop (b - a) (drop a l)) at 1.
  rewrite !filter_app, drop_drop. rewrite (filter_all (take a l)), (filter_none (take _ _)), (filter_all (drop _ l)).
  - cbn [app]. do 2 f_equal. lia.
  - intros x (j & Hj)%list_elem_of_lookup. rewrite lookup_drop in Hj. rewrite (Hp _ _ Hj). lia.
  - intros x (j & Hj)%list_elem_of_lookup. apply lookup_take_Some in Hj as [Hj Hlt]. rewrite lookup_drop in Hj.
    rewrite (Hp _ _ Hj). lia.
  - intros x (j & Hj)%list_elem_of_lookup. apply lookup_take_Some in Hj as [Hj Hlt]. rewrite (Hp _ _ Hj). lia.
Qed.
End filters.

Section sorted_set.
Context {D : Type} `{ScoreLaws D}.

Implicit Types (h : heap D) (c : @cell D) (cs : list (@cell D)).

(** ** The sorted list *)

Abbreviation zkey := (D * sds)%type.

Definition keys (cs : list cell) : list zkey := key <$> cs.

(** The member with its score. *)
Definition same_key (y a : zkey) : bool := score_eq a.1 y.1 && bool_decide (a.2 = y.2).

Fixpoint zadd (y : zkey) (l : list zkey) : list zkey :=
  match l with
  | [] => [y]
  | a :: l => if kltb a y then a :: zadd y l else y :: a :: l
  end.

Definition zrem (y : zkey) (l : list zkey) : list zkey := filter (fun a => same_key y a = false) l.

Definition zmem (y : zkey) (l : list zkey) : Prop := Exists (fun a => same_key y a = true) l.

Lemma zadd_ins y l k : (k <= length l)%nat ->
  (forall j a, l !! j = Some a -> kltb a y = bool_decide (j < k)%nat) -> zadd y l = ins k y l.
Proof.
  revert k. induction l as [|a l IH]; intros k Hk Hpos.
  { by destruct k; [|cbn in Hk; lia]. }
  cbn [zadd]. rewrite (Hpos 0%nat a eq_refl). destruct k as [|k].
  - by rewrite bool_decide_false by lia.
  - rewrite bool_decide_true by lia. change (ins (S k) y (a :: l)) with (a :: ins k y l). f_equal. apply IH.
    + cbn in Hk. lia.
    + intros j b Hj. rewrite (Hpos (S j) b Hj). apply bool_decide_ext. lia.
Qed.

Lemma keys_ins k c cs : keys (ins k c cs) = ins k (key c) (keys cs).
Proof. unfold keys, ins. by rewrite fmap_app, fmap_cons, fmap_take, fmap_drop. Qed.

Lemma same_key_true y a : same_key y a = true <-> score_eq a.1 y.1 = true /\ a.2 = y.2.
Proof. unfold same_key. by rewrite andb_true_iff, bool_decide_eq_true. Qed.

(** Equal keys are not ordered. *)
Lemma same_key_not_lt y a : same_key y a = true -> kltb a y = false.
Proof using Type*.
  intros [Hs He]%same_key_true. unfold kltb. rewrite (score_eq_lt_l _ _ _ Hs), score_lt_irrefl, He.
  assert (sdscmp y.2 y.2 = 0) as -> by (rewrite sdscmp_lexcmp; by apply lexcmp_eq). by rewrite andb_false_r.
Qed.

Lemma klt_same_key a b y : klt a b -> same_key y b = true -> klt a y.
Proof using Type*.
  intros [Hl|[Hs Hl]] [Hb He]%same_key_true.
  - left. by rewrite <- (score_eq_lt_r _ _ _ Hb).
  - right. split; [by eapply score_eq_trans|by rewrite <- He].
Qed.

(** In a sorted list the cells below a key and the cell of the key. *)
Lemma same_key_pos cs y k : StronglySorted klt (keys cs) ->
  (forall j c, cs !! j = Some c -> kltb (key c) y = bool_decide (j < k)%nat) ->
  forall j c, cs !! j = Some c -> same_key y (key c) = true -> j = k.
Proof using Type*.
  intros Hs Hpos j c Hj Hc. pose proof (Hpos j c Hj) as Hb. rewrite (same_key_not_lt _ _ Hc) in Hb.
  symmetry in Hb. apply bool_decide_eq_false in Hb. destruct (decide (j = k)) as [|Hne]; [done|].
  destruct (lookup_lt_is_Some_2 cs k) as [d Hd]; [apply lookup_lt_Some in Hj; lia|].
  rewrite sorted_lookup in Hs. assert (klt (key d) (key c)) as Hlt.
  { apply (Hs k j); [lia| |]; unfold keys; rewrite list_lookup_fmap; [by rewrite Hd|by rewrite Hj]. }
  pose proof (klt_same_key _ _ _ Hlt Hc) as Hk%kltb_true. rewrite (Hpos k d Hd) in Hk.
  apply bool_decide_eq_true in Hk. lia.
Qed.

Lemma zrem_absent y l : ~ zmem y l -> zrem y l = l.
Proof.
  intros Hm. unfold zrem. apply filter_all. intros a Ha. destruct (same_key y a) eqn:E; [|done].
  exfalso. apply Hm, Exists_exists. by exists a.
Qed.

Lemma zrem_ins y a l k : same_key y a = true -> ~ zmem y l -> zrem y (ins k a l) = l.
Proof.
  intros Ha Hm. unfold zrem, ins. rewrite filter_app, filter_cons, decide_False by (by rewrite Ha).
  rewrite <- filter_app, take_drop. by apply zrem_absent.
Qed.

Lemma sublist_elem {A} (l l' : list A) x : sublist l' l -> x ∈ l' -> x ∈ l.
Proof.
  induction 1 as [|y l1 l2 Hsub IH|y l1 l2 Hsub IH]; intros Hx; [done| |right; by apply IH].
  apply elem_of_cons in Hx as [->|Hx]; [by left|right; by apply IH].
Qed.

Lemma sublist_map {A B} (f : A -> B) l l' : sublist l' l -> sublist (f <$> l') (f <$> l).
Proof. induction 1; cbn; by constructor. Qed.

Lemma sorted_sublist {A} (R : A -> A -> Prop) l l' : sublist l' l -> StronglySorted R l -> StronglySorted R l'.
Proof.
  induction 1 as [|x l1 l2 Hsub IH|x l1 l2 Hsub IH]; intros Hs; [done| |].
  - apply StronglySorted_inv in Hs as [Hs Hf]. constructor; [by apply IH|].
    rewrite Forall_forall in Hf |- *. intros y Hy. apply Hf. by eapply sublist_elem.
  - apply StronglySorted_inv in Hs as [Hs _]. by apply IH.
Qed.

Lemma sublist_take_drop {A} (l : list A) a b : (a <= b)%nat -> sublist (take a l ++ drop b l) l.
Proof.
  intros Hab. rewrite <- (take_drop a l) at 3. apply sublist_app; [done|].
  replace b with (a + (b - a))%nat by lia. rewrite <- drop_drop. apply sublist_drop.
Qed.

(** Removing cells keeps the order. *)
Lemma zsl_ok_sublist h zsl cs h' zsl' cs' : zsl_ok h zsl cs -> list_ok h' zsl' cs' -> sublist cs' cs -> zsl_ok h' zsl' cs'.
Proof.
  intros Hz [] Hsub. constructor; [done..| |].
  - eapply sorted_sublist; [by apply sublist_map|apply (zo_sorted _ _ _ Hz)].
  - pose proof (zo_nan _ _ _ Hz) as Hn. rewrite Forall_forall in Hn |- *. intros c Hc. apply Hn.
    by eapply sublist_elem.
Qed.

(** ** The end of a search *)

Lemma found_ok h zsl cs k us : nodes_ok h (header zsl) (zlevel zsl) cs -> (k <= length cs)%nat ->
  path_ok (ranks (header zsl) (zlevel zsl) cs) k us (zlevel zsl) ->
  (ranks (header zsl) (zlevel zsl) cs).*1 !! k = Some (found zsl us) /\
  (exists us', us = (found zsl us, Z.of_nat k) :: us') /\
  exists l, get_level h (found zsl us) 0 = Some l /\ forward l = cid <$> cs !! k.
Proof.
  intros Hn Hk [_ Hus]. pose proof (no_level _ _ _ _ Hn) as Hlv.
  destruct (Hus 0%nat) as (q & u & Hu & Hq & Hp); [lia|].
  assert (forall j c, cs !! j = Some c -> (1 <= cht c)%nat) as Hht.
  { intros j c Hj. apply (no_heights _ _ _ _ Hn j c Hj). }
  assert (q = k) as -> by (eapply prev_zero; [|exact Hht|exact Hk|exact Hp]; lia).
  destruct us as [|[u' t] us]; [done|]. injection Hu as -> ->. cbn [found]. split_and!; [done|by eexists|].
  exists (lev (ranks (header zsl) (zlevel zsl) cs) 0 k). split; [|by apply nxt_zero].
  destruct Hp as (_ & ([u' hq] & Hy & Hi) & _). rewrite (lookup_fst _ _ _ _ Hy) in Hq. injection Hq as ->.
  by eapply (no_levels _ _ _ _ Hn).
Qed.

(** [is_node] on the node of a cell. *)
Lemma is_node_same_key sc e n c : ele n = Some (cel c) -> score n = csc c ->
  is_node sc e n = same_key (sc, e) (key c).
Proof using Type*.
  intros He Hs. unfold is_node, same_key. rewrite He, Hs. cbn [key fst snd]. rewrite score_eq_sym. f_equal.
  apply bool_decide_ext. rewrite sdscmp_lexcmp. apply lexcmp_eq.
Qed.

Lemma zmem_lookup y cs : zmem y (keys cs) <-> exists j c, cs !! j = Some c /\ same_key y (key c) = true.
Proof.
  unfold zmem, keys. rewrite Exists_exists. split.
  - intros (a & (c & -> & (j & Hj)%list_elem_of_lookup)%list_elem_of_fmap & Ha). by exists j, c.
  - intros (j & c & Hj & Hc). exists (key c). split; [|done]. apply list_elem_of_fmap. exists c. split; [done|].
    by eapply list_elem_of_lookup_2.
Qed.

(** ** Deletion and update of a member *)

Lemma delete_ins {A} (l : list A) k x : l !! k = Some x -> l = ins k x (delete k l) /\ (k <= length (delete k l))%nat.
Proof. intros Hx. rewrite delete_take_drop. by apply ins_split. Qed.

Lemma keys_delete cs k c y : StronglySorted klt (keys cs) ->
  (forall j d, cs !! j = Some d -> kltb (key d) y = bool_decide (j < k)%nat) ->
  cs !! k = Some c -> same_key y (key c) = true -> keys (delete k cs) = zrem y (keys cs).
Proof using Type*.
  intros Hs Hpos Hk Hc. unfold keys, zrem. rewrite list_fmap_delete, delete_take_drop.
  symmetry. apply filter_outside; [lia|]. intros j a Hj. apply list_lookup_fmap_Some in Hj as (d & -> & Hj).
  split.
  - intros Hd ?. assert (j = k) as -> by lia. congruence.
  - intros Hjk. destruct (same_key y (key d)) eqn:E; [|done]. exfalso. apply Hjk.
    pose proof (same_key_pos cs y k Hs Hpos j d Hj E). lia.
Qed.

Lemma zslDelete_ok h zsl cs sc e keep : zsl_ok h zsl cs ->
  exists h' zsl' r, zslDelete h zsl sc e keep = Some (h', zsl', r) /\ header zsl' = header zsl /\
    match r with
    | Some x => exists k c, cs !! k = Some c /\ cid c = x /\ same_key (sc, e) (key c) = true /\
        zsl_ok h' zsl' (delete k cs) /\ keys (delete k cs) = zrem (sc, e) (keys cs) /\
        dom h' = if keep then dom h else dom h ∖ {[x]}
    | None => ~ zmem (sc, e) (keys cs) /\ h' = h /\ zsl' = zsl
    end.
Proof using Type*.
  intros Hz. unfold zslDelete. destruct (search_key_ok h zsl cs sc e Hz) as (us & k & -> & Hk & Hpath & Hpos).
  cbn [mbind option_bind]. pose proof (zo_nodes _ _ _ Hz) as Hn.
  destruct (found_ok _ _ _ _ _ Hn Hk Hpath) as (_ & _ & l & -> & Hf). cbn [mbind option_bind]. rewrite Hf.
  pose proof (same_key_pos cs (sc, e) k (zo_sorted _ _ _ Hz) Hpos) as Hsame.
  destruct (cs !! k) as [c|] eqn:Ec; cbn [fmap option_fmap option_map].
  2: { exists h, zsl, None. split_and!; [done..| |done|done]. intros (j & c & Hj & Hc)%zmem_lookup.
       rewrite (Hsame j c Hj Hc) in Hj. congruence. }
  destruct (cell_node _ _ _ _ _ _ Hn Ec) as (n & Hnode & He & Hs & _). rewrite Hnode. cbn [mbind option_bind].
  rewrite (is_node_same_key sc e n c He Hs). destruct (same_key (sc, e) (key c)) eqn:Esame.
  2: { exists h, zsl, None. split_and!; [done..| |done|done]. intros (j & d & Hj & Hd)%zmem_lookup.
       rewrite (Hsame j d Hj Hd) in Hj. congruence. }
  destruct (delete_ins _ _ _ Ec) as [Hins Hk']. pose proof (zsl_list_ok _ _ _ Hz) as Hlo.
  rewrite Hins in Hlo, Hpath. destruct Hpath as [_ Hpath].
  pose proof (ins_not_in _ _ _ _ _ Hlo) as Hnin.
  destruct (zslDeleteNode_ok _ _ _ _ _ _ Hlo Hk' Hpath) as (h1 & zsl1 & -> & Hlo1 & Hhd & Hdom & _).
  cbn [mbind option_bind]. eexists _, zsl1, (Some (cid c)). split; [done|]. split; [done|].
  exists k, c. assert (keys (delete k cs) = zrem (sc, e) (keys cs)) as Hkeys.
  { eapply keys_delete; [apply (zo_sorted _ _ _ Hz)|exact Hpos|exact Ec|exact Esame]. }
  rewrite <- Hhd in Hnin. assert (sublist (delete k cs) cs) as Hsub by apply sublist_delete.
  split_and!; [done..| |done|].
  - destruct keep; eapply zsl_ok_sublist; [exact Hz|done|done|exact Hz|by apply free_list_ok|done].
  - destruct keep; [done|]. unfold zslFreeNode. by rewrite dom_delete_L, Hdom.
Qed.

Lemma set_score_ok h zsl cs k c s : list_ok h zsl cs -> cs !! k = Some c ->
  exists h', set_score h (cid c) s = Some h' /\ list_ok h' zsl (<[k := Cell (cid c) (cht c) s (cel c)]> cs) /\
    dom h' = dom h.
Proof using Type*.
  intros [Hn Ht Hl Hb] Hk. set (c' := Cell (cid c) (cht c) s (cel c)).
  destruct (cell_node _ _ _ _ _ _ Hn Hk) as (n & Hnode & He & Hs & Hbk & Hlv).
  unfold set_score. rewrite Hnode. cbn [mbind option_bind].
  set (h' := <[cid c := ZNode (ele n) s (backward n) (level n)]> h). exists h'.
  assert (cid <$> <[k := c']> cs = cid <$> cs) as Hids.
  { rewrite list_fmap_insert. apply list_insert_id. by rewrite list_lookup_fmap, Hk. }
  assert (forall hd lvl, ranks hd lvl (<[k := c']> cs) = ranks hd lvl cs) as Hranks.
  { intros hd lvl. unfold ranks. f_equal. rewrite list_fmap_insert. apply list_insert_id.
    by rewrite list_lookup_fmap, Hk. }
  assert (forall j, prev (<[k := c']> cs) j = prev cs j) as Hprev.
  { intros [|j]; [done|]. cbn [prev]. by rewrite <- !list_lookup_fmap, Hids. }
  assert (forall q i, get_level h' q i = get_level h q i) as Hlev.
  { intros q i. unfold get_level, h'. destruct (decide (q = cid c)) as [->|Hq].
    - by rewrite lookup_insert_eq, Hnode.
    - by rewrite lookup_insert_ne. }
  assert (forall q, q <> cid c -> info h' q = info h q) as Hinfo.
  { intros q Hq. unfold info, h'. by rewrite lookup_insert_ne. }
  pose proof (no_nodup _ _ _ _ Hn) as [Hhd Hnd]%NoDup_cons.
  split_and!; [done| |].
  2: { unfold h'. rewrite dom_insert_L. assert (cid c ∈ dom h) by (apply elem_of_dom; by eexists). set_solver. }
  constructor.
  - constructor.
    + rewrite Hids. apply (no_nodup _ _ _ _ Hn).
    + rewrite Hinfo; [apply (no_header _ _ _ _ Hn)|]. intros Heq. apply Hhd. rewrite Heq.
      apply list_elem_of_fmap. exists c. split; [done|]. by eapply list_elem_of_lookup_2.
    + intros i Hi. rewrite Hlev. by apply (no_above _ _ _ _ Hn).
    + intros j d Hj. rewrite Hprev. destruct (decide (j = k)) as [->|Hne].
      * rewrite list_lookup_insert_eq in Hj by (by eapply lookup_lt_Some). injection Hj as <-.
        unfold info, h'. cbn [cid c']. rewrite lookup_insert_eq. cbn. by rewrite He, Hbk, Hlv.
      * rewrite list_lookup_insert_ne in Hj by done. rewrite Hinfo; [by apply (no_cells _ _ _ _ Hn)|].
        intros Heq. apply Hne. apply (NoDup_lookup _ j k (cid c) Hnd); rewrite list_lookup_fmap; [|by rewrite Hk].
        rewrite Hj. cbn. by rewrite Heq.
    + intros j d Hj. destruct (decide (j = k)) as [->|Hne].
      * rewrite list_lookup_insert_eq in Hj by (by eapply lookup_lt_Some). injection Hj as <-.
        by apply (no_heights _ _ _ _ Hn k c).
      * rewrite list_lookup_insert_ne in Hj by done. by apply (no_heights _ _ _ _ Hn j d).
    + apply (no_level _ _ _ _ Hn).
    + rewrite Hranks. intros r p ht i Hr Hi. rewrite Hlev. by apply (no_levels _ _ _ _ Hn r p ht).
  - rewrite Ht, !last_lookup, length_insert, <- !list_lookup_fmap. by rewrite Hids.
  - unfold zlen. rewrite length_insert. apply Hl.
  - unfold zlen. rewrite length_insert. apply Hb.
Qed.

(** The branch of [zslUpdateScore] that keeps the node in its place. *)
Lemma update_sorted cs k c s e :
  StronglySorted klt (keys cs) -> cs !! k = Some c -> cel c = e ->
  (forall b, (k <> 0)%nat -> cs !! (k - 1)%nat = Some b -> score_lt (csc b) s = true) ->
  (forall f, cs !! S k = Some f -> score_lt s (csc f) = true) ->
  keys (<[k := Cell (cid c) (cht c) s (cel c)]> cs) = zadd (s, e) (keys (delete k cs)) /\
  StronglySorted klt (keys (<[k := Cell (cid c) (cht c) s (cel c)]> cs)).
Proof using Type*.
  intros Hs Hk He Hbefore Hafter. rewrite sorted_lookup in Hs. pose proof (lookup_lt_Some _ _ _ Hk) as Hlt.
  assert (forall j d, keys cs !! j = Some d -> (j < k)%nat -> klt d (s, e)) as Hlow.
  { intros j d Hj Hjk. destruct (lookup_lt_is_Some_2 cs (k - 1)) as [b Hb]; [lia|].
    assert (klt (key b) (s, e)) as Hbk by (left; apply (Hbefore b); [lia|done]).
    destruct (decide (j = k - 1)%nat) as [->|Hne].
    - unfold keys in Hj. rewrite list_lookup_fmap, Hb in Hj. by injection Hj as <-.
    - eapply klt_trans; [|exact Hbk]. apply (Hs j (k - 1)%nat); [lia|done|]. unfold keys. by rewrite list_lookup_fmap, Hb. }
  assert (forall j d, keys cs !! j = Some d -> (k < j)%nat -> klt (s, e) d) as Hhigh.
  { intros j d Hj Hjk. destruct (lookup_lt_is_Some_2 cs (S k)) as [f Hf].
    { apply lookup_lt_Some in Hj. unfold keys in Hj. rewrite length_fmap in Hj. lia. }
    assert (klt (s, e) (key f)) as Hfk by (left; by apply (Hafter f)).
    destruct (decide (j = S k)%nat) as [->|Hne].
    - unfold keys in Hj. rewrite list_lookup_fmap, Hf in Hj. by injection Hj as <-.
    - eapply klt_trans; [exact Hfk|]. apply (Hs (S k) j); [lia| |done]. unfold keys. by rewrite list_lookup_fmap, Hf. }
  assert (keys (<[k := Cell (cid c) (cht c) s (cel c)]> cs) = ins k (s, e) (delete k (keys cs))) as ->.
  { unfold keys. rewrite list_fmap_insert, delete_take_drop, insert_take_drop by (by rewrite length_fmap).
    unfold ins, key. cbn [csc cel]. rewrite He.
    rewrite take_app_length', drop_app_length' by (rewrite length_take, length_fmap; lia). done. }
  assert (k <= length (delete k (keys cs)))%nat as Hk'.
  { rewrite delete_take_drop, length_app, length_take. unfold keys. rewrite length_fmap. lia. }
  assert (forall j a, delete k (keys cs) !! j = Some a -> if decide (j < k)%nat then klt a (s, e) else klt (s, e) a) as Hpos.
  { intros j a Hj. case_decide as E.
    - rewrite list_lookup_delete_lt in Hj by done. by eapply Hlow.
    - rewrite list_lookup_delete_ge in Hj by lia. eapply Hhigh; [done|lia]. }
  split.
  - unfold keys at 2. rewrite list_fmap_delete. symmetry. apply zadd_ins; [done|]. intros j a Hj.
    specialize (Hpos j a Hj). destruct (decide (j < k)%nat) as [E|E].
    + rewrite bool_decide_true by done. by apply kltb_true.
    + rewrite bool_decide_false by done. destruct (kltb a (s, e)) eqn:Ek; [|done]. apply kltb_true in Ek.
      exfalso. eapply klt_irrefl, klt_trans; [exact Ek|done].
  - apply sorted_ins; [done| | |].
    + rewrite delete_take_drop. eapply sorted_sublist; [apply sublist_take_drop; lia|]. by apply sorted_lookup.
    + intros j a Hj Ha. specialize (Hpos j a Ha). by rewrite decide_True in Hpos.
    + intros j a Hj Ha. specialize (Hpos j a Ha). by rewrite decide_False in Hpos by lia.
Qed.

Lemma sorted_ins_zadd y l k : (k <= length l)%nat -> StronglySorted klt (ins k y l) -> zadd y l = ins k y l.
Proof using Type*.
  rewrite sorted_lookup. intros Hk Hs. apply zadd_ins; [done|]. intros j a Hj.
  destruct (decide (j < k)%nat) as [E|E].
  - rewrite bool_decide_true by done. apply kltb_true, (Hs j k); [done|by rewrite ins_lookup_lt|by apply ins_lookup_eq].
  - rewrite bool_decide_false by done. destruct (kltb a y) eqn:Ek; [|done]. apply kltb_true in Ek. exfalso.
    eapply klt_irrefl, klt_trans; [exact Ek|]. apply (Hs k (S j)); [lia|by apply ins_lookup_eq|].
    by rewrite ins_lookup_gt by lia.
Qed.

Lemma ins_keys h zsl k c cs : zsl_ok h zsl (ins k c cs) -> (k <= length cs)%nat ->
  keys (ins k c cs) = zadd (key c) (keys cs).
Proof using Type*.
  intros Hz Hk. pose proof (zo_sorted _ _ _ Hz) as Hs. change (key <$> ins k c cs) with (keys (ins k c cs)) in Hs.
  rewrite keys_ins in *. symmetry. apply sorted_ins_zadd; [|done]. unfold keys. by rewrite length_fmap.
Qed.

(** The tests [zslUpdateScore] makes on the neighbours of the node. *)
Lemma prev_test h hd lvl cs k (n : @zskiplistNode D) s : nodes_ok h hd lvl cs -> (k <= length cs)%nat -> backward n = prev cs k ->
  exists b, match backward n with None => Some true | Some b => nb ← h !! b; Some (score_lt (score nb) s) end = Some b /\
    (b = true -> forall d, (k <> 0)%nat -> cs !! (k - 1)%nat = Some d -> score_lt (csc d) s = true).
Proof.
  intros Hn Hk ->. destruct k as [|k]; [by exists true|]. cbn [prev].
  destruct (lookup_lt_is_Some_2 cs k) as [d Hd]; [lia|]. rewrite Hd. cbn [fmap option_fmap option_map].
  destruct (cell_node _ _ _ _ _ _ Hn Hd) as (nd & -> & _ & Hs & _). cbn [mbind option_bind]. eexists. split; [done|].
  intros Hb d' _. rewrite Nat.sub_1_r. cbn [Nat.pred]. rewrite Hd. intros [= <-]. by rewrite <- Hs.
Qed.

Lemma next_test h hd lvl cs k s : nodes_ok h hd lvl cs ->
  exists b, match cid <$> cs !! S k with None => Some true | Some f => nf ← h !! f; Some (score_lt s (score nf)) end = Some b /\
    (b = true -> forall d, cs !! S k = Some d -> score_lt s (csc d) = true).
Proof.
  intros Hn. destruct (cs !! S k) as [d|] eqn:Hd; cbn [fmap option_fmap option_map]; [|by exists true].
  destruct (cell_node _ _ _ _ _ _ Hn Hd) as (nd & -> & _ & Hs & _). cbn [mbind option_bind]. eexists. split; [done|].
  intros Hb d' [= <-]. by rewrite <- Hs.
Qed.

(** The branch that removes the node and inserts a new one. *)
Lemma reinsert_ok rnd h zsl cs k c us s :
  zsl_ok h zsl cs -> cs !! k = Some c -> NoDup (cel <$> cs) -> isnan s = false ->
  path_ok (ranks (header zsl) (zlevel zsl) cs) k us (zlevel zsl) ->
  exists h1 zsl1 h2 zsl2 x cs', zslDeleteNode h zsl (cid c) us = Some (h1, zsl1) /\
    zslInsert rnd h1 zsl1 s (cel c) = Some (h2, zsl2, x) /\
    zsl_ok (zslFreeNode h2 (cid c)) zsl2 cs' /\ keys cs' = zadd (s, cel c) (keys (delete k cs)) /\
    header zsl2 = header zsl /\ x ∉ dom h /\ dom (zslFreeNode h2 (cid c)) = {[x]} ∪ dom h ∖ {[cid c]} /\
    cel <$> cs' ≡ₚ cel <$> cs.
Proof using Type*.
  intros Hz Hk Hnd Hnan [_ Hpath]. destruct (delete_ins _ _ _ Hk) as [Hins Hk'].
  pose proof (zsl_list_ok _ _ _ Hz) as Hlo. rewrite Hins in Hlo, Hpath. pose proof (ins_not_in _ _ _ _ _ Hlo) as Hnin.
  assert (cid c ∈ dom h) as Hin.
  { eapply ids_dom; [apply (lo_nodes _ _ _ Hlo)|]. right. apply list_elem_of_fmap. exists c. split; [done|].
    rewrite ins_perm. by left. }
  destruct (zslDeleteNode_ok _ _ _ _ _ _ Hlo Hk' Hpath) as (h1 & zsl1 & Hd & Hlo1 & Hhd & Hdom & _).
  assert (sublist (delete k cs) cs) as Hsub by apply sublist_delete.
  pose proof (zsl_ok_sublist _ _ _ _ _ _ Hz Hlo1 Hsub) as Hz1.
  assert (zlen (delete k cs) + 1 = zlen cs) as Hlen.
  { rewrite Hins at 2. by rewrite zlen_ins. }
  rewrite Hins in Hnd. rewrite (fmap_Permutation cel _ _ (ins_perm _ _ _)) in Hnd.
  apply NoDup_cons in Hnd as [Hc _].
  destruct (zslInsert_ok rnd h1 zsl1 (delete k cs) s (cel c) Hz1 Hnan) as (h2 & zsl2 & x & k2 & Hi & Hz2 & Hk2 & Hhd2 & Hx & Hdom2).
  { rewrite Hlen. apply (zo_bound _ _ _ Hz). }
  { apply Forall_forall. intros d Hd' [_ He]. apply Hc. rewrite <- He. apply list_elem_of_fmap. by exists d. }
  exists h1, zsl1, h2, zsl2, x. eexists. rewrite Hdom in Hx, Hdom2.
  assert (cid c <> x) as Hne by (intros <-; done). split_and!; [done|done| | | | | |].
  - assert (list_ok (zslFreeNode h2 (cid c)) zsl2 (ins k2 (Cell x (zslRandomLevel rnd) s (cel c)) (delete k cs))) as Hlo2.
    { apply free_list_ok; [by apply zsl_list_ok|].
      rewrite (fmap_Permutation cid _ _ (ins_perm _ _ _)), Hhd2, Hhd.
      cbn [fmap list_fmap]. rewrite perm_swap. apply not_elem_of_cons. split; [|done]. cbn. done. }
    eapply zsl_ok_sublist; [exact Hz2|exact Hlo2|done].
  - by eapply ins_keys.
  - by rewrite Hhd2.
  - done.
  - unfold zslFreeNode. rewrite dom_delete_L, Hdom2. set_solver.
  - rewrite Hins at 2. by rewrite !(fmap_Permutation cel _ _ (ins_perm _ _ _)).
Qed.

Lemma zslUpdateScore_ok rnd h zsl cs sc e s :
  zsl_ok h zsl cs -> zmem (sc, e) (keys cs) -> NoDup (cel <$> cs) -> isnan s = false ->
  exists h' zsl' x cs', zslUpdateScore rnd h zsl sc e s = Some (h', zsl', x) /\ zsl_ok h' zsl' cs' /\
    keys cs' = zadd (s, e) (zrem (sc, e) (keys cs)) /\ header zsl' = header zsl /\ size h' = size h /\
    cel <$> cs' ≡ₚ cel <$> cs.
Proof using Type*.
  intros Hz Hmem Hnd Hnan. unfold zslUpdateScore. pose proof (zo_nodes _ _ _ Hz) as Hn.
  destruct (search_key_ok h zsl cs sc e Hz) as (us & k & -> & Hk & Hpath & Hpos). cbn [mbind option_bind].
  destruct (found_ok _ _ _ _ _ Hn Hk Hpath) as (_ & _ & l & -> & Hf). cbn [mbind option_bind]. rewrite Hf.
  apply zmem_lookup in Hmem as (j & c & Hc & Hsame).
  pose proof (same_key_pos cs _ k (zo_sorted _ _ _ Hz) Hpos j c Hc Hsame) as ->. rewrite Hc.
  cbn [fmap option_fmap option_map mbind option_bind].
  destruct (cell_node _ _ _ _ _ _ Hn Hc) as (n & Hnode & He & Hs & Hback & Hlv). rewrite Hnode. cbn [mbind option_bind].
  rewrite assert_True by (by rewrite (is_node_same_key sc e n c)). cbn [mbind option_bind].
  destruct (prev_test _ _ _ _ _ n s Hn Hk Hback) as (b1 & -> & Hb1). cbn [mbind option_bind].
  assert (level n !! 0%nat = Some (lev (ranks (header zsl) (zlevel zsl) cs) 0 (S k))) as ->.
  { change (level n !! 0%nat) with (Some n ≫= fun n => level n !! 0%nat). rewrite <- Hnode.
    apply (no_levels _ _ _ _ Hn (S k) (cid c) (cht c) 0%nat); [by apply ranks_S|]. apply (no_heights _ _ _ _ Hn k c Hc). }
  cbn [mbind option_bind]. rewrite nxt_zero by (intros j d Hj; apply (no_heights _ _ _ _ Hn j d Hj)).
  destruct (next_test _ _ _ _ k s Hn) as (b2 & -> & Hb2). cbn [mbind option_bind].
  assert (cel c = e) as Hce by (by apply same_key_true in Hsame as [_ ?]).
  rewrite <- (keys_delete cs k c (sc, e) (zo_sorted _ _ _ Hz) Hpos Hc Hsame).
  destruct (b1 && b2) eqn:Eb.
  - apply andb_true_iff in Eb as [E1 E2].
    destruct (set_score_ok h zsl cs k c s (zsl_list_ok _ _ _ Hz) Hc) as (h' & -> & Hlo & Hdom). cbn [mbind option_bind].
    destruct (update_sorted cs k c s e (zo_sorted _ _ _ Hz) Hc Hce (Hb1 E1) (Hb2 E2)) as [Hkeys Hsorted].
    eexists h', zsl, _, _. split; [done|]. split_and!; [|exact Hkeys|done|by rewrite <- !size_dom, Hdom|].
    + destruct Hlo. constructor; [done..|]. apply Forall_insert; [apply (zo_nan _ _ _ Hz)|done].
    + rewrite list_fmap_insert. cbn [cel]. by rewrite list_insert_id by (by rewrite list_lookup_fmap, Hc).
  - destruct (reinsert_ok rnd h zsl cs k c us s Hz Hc Hnd Hnan Hpath)
      as (h1 & zsl1 & h2 & zsl2 & x & cs' & -> & Hins & Hz2 & Hkeys & Hhd & Hx & Hdom & Hperm).
    cbn [mbind option_bind]. rewrite He. cbn [mbind option_bind]. rewrite Hins. cbn [mbind option_bind].
    exists (zslFreeNode h2 (cid c)), zsl2, x, cs'. rewrite Hce in Hkeys. split_and!; [done..| |done].
    assert (cid c ∈ dom h) as Hin by (eapply info_dom, (no_cells _ _ _ _ Hn k c Hc)).
    rewrite <- !size_dom, Hdom, size_union by set_solver. rewrite size_difference, !size_singleton by set_solver.
    assert (size (dom h) <> 0)%nat; [|lia]. intros H0'. apply size_empty_inv in H0'. set_solver.
Qed.

(** ** Ranks *)

Lemma ranks_bound h zsl cs : list_ok h zsl cs -> zlen (ranks (header zsl) (zlevel zsl) cs) <= 2 ^ 63.
Proof. intros [_ _ _ Hb]. unfold zlen in *. rewrite ranks_length. lia. Qed.

Lemma not_after_spec n c sc e : ele n = Some (cel c) -> score n = csc c ->
  not_after sc e n = kltb (key c) (sc, e) || same_key (sc, e) (key c).
Proof using Type*.
  intros He Hs. unfold not_after, kltb, same_key. rewrite He, Hs. cbn [key fst snd].
  destruct (score_lt (csc c) sc), (score_eq (csc c) sc); cbn [orb andb]; try done.
  pose proof (lexcmp_eq (cel c) e) as Heq. rewrite sdscmp_lexcmp.
  destruct (decide (lexcmp (cel c) e < 0)) as [Hlt|Hge].
  - rewrite !bool_decide_true by lia. done.
  - rewrite (bool_decide_false (lexcmp (cel c) e < 0)) by done. cbn [orb]. apply bool_decide_ext.
    rewrite <- Heq. lia.
Qed.

(** The position of a key, counted from 1, or 0. *)
Definition rank_of (y : zkey) (l : list zkey) : Z :=
  match list_find (fun a => same_key y a = true) l with
  | Some (j, _) => Z.of_nat j + 1
  | None => 0
  end.

Lemma rank_of_present y cs j c : StronglySorted klt (keys cs) -> cs !! j = Some c -> same_key y (key c) = true ->
  (forall i d, cs !! i = Some d -> same_key y (key d) = true -> i = j) -> rank_of y (keys cs) = Z.of_nat j + 1.
Proof.
  intros Hs Hj Hc Huniq. unfold rank_of.
  assert (list_find (fun a => same_key y a = true) (keys cs) = Some (j, key c)) as ->; [|done].
  apply list_find_Some. split_and!; [unfold keys; by rewrite list_lookup_fmap, Hj|done|].
  intros i a Ha Hi Hsame. unfold keys in Ha. apply list_lookup_fmap_Some in Ha as (d & -> & Hd).
  specialize (Huniq i d Hd Hsame). lia.
Qed.

Lemma rank_of_absent y l : ~ zmem y l -> rank_of y l = 0.
Proof.
  intros Hm. unfold rank_of. destruct (list_find _ l) as [[j a]|] eqn:E; [|done].
  apply list_find_Some in E as (Hj & Ha & _). exfalso. apply Hm, Exists_exists. exists a. split; [|done].
  by eapply list_elem_of_lookup_2.
Qed.

Section get_rank.
Variables (h : heap D) (zsl : @zskiplist) (cs : list (@cell D)) (sc : D) (e : sds) (k : nat).
Hypothesis Hz : zsl_ok h zsl cs.
Hypothesis Hk : (k <= length cs)%nat.
Let L := ranks (header zsl) (zlevel zsl) cs.

(** [k] cells are not after the key; the last of them may have it. *)
Hypothesis Hpos : forall j c, cs !! j = Some c ->
  kltb (key c) (sc, e) || same_key (sc, e) (key c) = bool_decide (j < k)%nat.
Hypothesis Hlast : forall j c, cs !! j = Some c -> same_key (sc, e) (key c) = true -> S j = k.

Let at_key (q : nat) : bool :=
  match q with
  | O => false
  | S j => match cs !! j with Some c => same_key (sc, e) (key c) | None => false end
  end.

Lemma rank_step n r p ht : L !! r = Some (p, ht) -> (n < ht)%nat -> (r <= k)%nat ->
  exists q pq hq, L !! q = Some (pq, hq) /\ (n < hq)%nat /\ is_prev L n k q /\
    rank_loop (S n) h sc e p (Z.of_nat r) =
      if at_key q then Some (Z.of_nat q) else rank_loop n h sc e pq (Z.of_nat q).
Proof using Hz Hk Hpos H0.
  intros Hr Hht Hrk. pose proof (zo_nodes _ _ _ Hz) as Hn.
  assert (cond_upto h L (fun n _ => not_after sc e n) k) as Hcond.
  { intros j p' ht' Hj. apply ranks_S_inv in Hj as (c & Hj & [= -> ->]).
    destruct (cell_node _ _ _ _ _ _ Hn Hj) as (nd & Hnode & He & Hs & _). exists nd. split; [done|].
    rewrite (not_after_spec nd c) by done. rewrite (Hpos j c Hj). apply bool_decide_ext. lia. }
  cbn [rank_loop].
  destruct (walk_ok h L _ k n (size h) r p ht (no_levels _ _ _ _ Hn) Hcond
    (ranks_bound _ _ _ (zsl_list_ok _ _ _ Hz)) Hr Hht Hrk) as (q & pq & -> & Hq & Hp & Hrq).
  { pose proof (nodes_size _ _ _ _ Hn). unfold L. lia. }
  cbn [mbind option_bind]. pose proof Hp as (Hqk & ([pq' hq] & Hpq & Hnq) & _).
  rewrite (lookup_fst _ _ _ _ Hpq) in Hq. injection Hq as ->. exists q, pq, hq. split_and!; [done..|].
  destruct q as [|q]; unfold at_key.
  - injection Hpq as <- <-. destruct (no_header _ _ _ _ Hn) as (sc0 & b0 & Hh).
    apply info_Some in Hh as (nd & -> & [= Hele _ _ _]). cbn [mbind option_bind]. by rewrite <- Hele.
  - pose proof (ranks_S_inv _ _ _ _ _ Hpq) as (c & Hc & [= -> ->]). rewrite Hc.
    destruct (cell_node _ _ _ _ _ _ Hn Hc) as (nd & -> & He & Hs & _). cbn [mbind option_bind]. rewrite He, Hs.
    assert (bool_decide (sdscmp (cel c) e = 0) = bool_decide ((key c).2 = (sc, e).2)) as ->; [|done].
    apply bool_decide_ext. cbn. by rewrite sdscmp_lexcmp, lexcmp_eq.
Qed.

Lemma rank_loop_ok : forall n r p ht, L !! r = Some (p, ht) -> (n < ht)%nat -> (r <= k)%nat ->
  rank_loop (S n) h sc e p (Z.of_nat r) = Some (rank_of (sc, e) (keys cs)).
Proof using Hz Hpos Hlast Hk H0.
  pose proof (zo_nodes _ _ _ Hz) as Hn.
  induction n as [|n IH]; intros r p ht Hr Hht Hrk;
    destruct (rank_step _ r p ht Hr Hht Hrk) as (q & pq & hq & Hq & Hnq & Hp & ->);
    destruct (at_key q) eqn:Eq.
  1,3: destruct q as [|q]; [done|]; cbn in Eq; destruct (cs !! q) as [c|] eqn:Ec; [|done];
    rewrite (rank_of_present _ cs q c (zo_sorted _ _ _ Hz) Ec Eq); [f_equal; lia|];
    intros i d Hd Hsd; pose proof (Hlast i d Hd Hsd); pose proof (Hlast q c Ec Eq); lia.
  - cbn [rank_loop]. f_equal. symmetry. apply rank_of_absent. intros (j & d & Hj & Hd)%zmem_lookup.
    assert (q = k) as ->.
    { eapply prev_zero; [|intros ? ? Hx; apply (no_heights _ _ _ _ Hn _ _ Hx)|exact Hk|exact Hp].
      pose proof (no_level _ _ _ _ Hn). lia. }
    pose proof (Hlast j d Hj Hd) as <-. cbn in Eq. rewrite Hj in Eq. congruence.
  - destruct Hp as (Hqk & _). apply (IH q pq hq); [done|lia|done].
Qed.
End get_rank.

Lemma zslGetRank_ok h zsl cs sc e : zsl_ok h zsl cs ->
  zslGetRank h zsl sc e = Some (rank_of (sc, e) (keys cs)).
Proof using Type*.
  intros Hz. pose proof (zo_nodes _ _ _ Hz) as Hn. pose proof (no_level _ _ _ _ Hn) as Hlv.
  destruct (key_pos cs (sc, e) (zo_sorted _ _ _ Hz)) as (k & Hk & Hpos).
  pose proof (same_key_pos cs _ k (zo_sorted _ _ _ Hz) Hpos) as Huniq.
  assert (exists k', (k' <= length cs)%nat /\ (forall j c, cs !! j = Some c ->
    kltb (key c) (sc, e) || same_key (sc, e) (key c) = bool_decide (j < k')%nat) /\
    forall j c, cs !! j = Some c -> same_key (sc, e) (key c) = true -> S j = k') as (k' & Hk' & Hpos' & Hlast).
  { destruct (cs !! k) as [c|] eqn:Ec; [destruct (same_key (sc, e) (key c)) eqn:Es|].
    1: exists (S k); split; [apply lookup_lt_Some in Ec; lia|].
    2,3: exists k; split; [done|].
    all: split; intros j d Hj; [rewrite (Hpos j d Hj)|intros Hd; pose proof (Huniq j d Hj Hd) as ->; congruence].
    all: destruct (same_key (sc, e) (key d)) eqn:Ed; [pose proof (Huniq j d Hj Ed) as ->|].
    - rewrite orb_true_r. symmetry. apply bool_decide_true. lia.
    - rewrite orb_false_r. assert (j <> k) by (intros ->; congruence). apply bool_decide_ext. lia.
    - congruence.
    - by rewrite orb_false_r.
    - congruence.
    - by rewrite orb_false_r. }
  unfold zslGetRank. destruct (zlevel zsl) as [|n] eqn:El; [lia|].
  apply (rank_loop_ok h zsl cs sc e k' Hz Hk' Hpos' Hlast n 0 (header zsl) (S n)); [by rewrite El|lia|lia].
Qed.

(** ** Elements by rank *)

Lemma element_loop_ok h zsl cs rank : list_ok h zsl cs -> 1 <= rank ->
  forall n r p ht, ranks (header zsl) (zlevel zsl) cs !! r = Some (p, ht) -> (n < ht)%nat -> Z.of_nat r <= rank ->
  element_loop (S n) h rank p (Z.of_nat r) = Some (cid <$> cs !! Z.to_nat (rank - 1)).
Proof.
  intros Hz Hrank. pose proof (lo_nodes _ _ _ Hz) as Hn. pose proof (no_level _ _ _ _ Hn) as Hlv.
  set (L := ranks (header zsl) (zlevel zsl) cs). set (k := Nat.min (Z.to_nat rank) (length cs)).
  assert (cond_upto h L (fun _ t => bool_decide (t <= rank)) k) as Hcond.
  { intros j p ht Hj. apply ranks_S_inv in Hj as (c & Hj & [= -> ->]).
    destruct (cell_node _ _ _ _ _ _ Hn Hj) as (nd & Hnode & _). exists nd. split; [done|].
    apply lookup_lt_Some in Hj. apply bool_decide_ext. unfold k. lia. }
  assert (forall q pq hq, L !! q = Some (pq, hq) -> Z.of_nat q = rank -> cid <$> cs !! Z.to_nat (rank - 1) = Some pq) as Hret.
  { intros [|q] pq hq Hq <-; [lia|]. apply ranks_S_inv in Hq as (c & Hc & [= -> ->]).
    replace (Z.to_nat (Z.of_nat (S q) - 1)) with q by lia. by rewrite Hc. }
  assert (forall r p ht, L !! r = Some (p, ht) -> Z.of_nat r <= rank -> (r <= k)%nat) as Hrk.
  { intros r p ht Hr Hle. apply lookup_lt_Some in Hr. unfold L in Hr. rewrite ranks_length in Hr. unfold k. lia. }
  induction n as [|n IH]; intros r p ht Hr Hht Hle;
    destruct (walk_ok h L _ k _ (size h) r p ht (no_levels _ _ _ _ Hn) Hcond
      (ranks_bound _ _ _ Hz) Hr Hht (Hrk _ _ _ Hr Hle)) as (q & pq & Hwalk & Hq & Hp & _);
    try (pose proof (nodes_size _ _ _ _ Hn); unfold L; lia);
    cbn [element_loop]; rewrite Hwalk; cbn [mbind option_bind];
    pose proof Hp as (Hqk & ([pq' hq] & Hpq & Hnq) & _); rewrite (lookup_fst _ _ _ _ Hpq) in Hq; injection Hq as ->;
    (destruct (decide (Z.of_nat q = rank)) as [Heq|Hne]; [by rewrite (Hret _ _ _ Hpq Heq)|]).
  - assert (q = k) as ->.
    { eapply prev_zero; [|intros ? ? Hx; apply (no_heights _ _ _ _ Hn _ _ Hx)|unfold k; lia|exact Hp]. lia. }
    cbn [element_loop]. assert (cs !! Z.to_nat (rank - 1) = None) as ->; [|done].
    apply lookup_ge_None. unfold k in Hne. lia.
  - apply (IH q pq hq); [done|cbn in Hnq; lia|unfold k in Hqk; lia].
Qed.

Lemma zslGetElementByRank_ok h zsl cs rank : list_ok h zsl cs -> 1 <= rank ->
  zslGetElementByRank h zsl rank = Some (cid <$> cs !! Z.to_nat (rank - 1)).
Proof.
  intros Hz Hr. pose proof (no_level _ _ _ _ (lo_nodes _ _ _ Hz)) as Hlv. unfold zslGetElementByRank.
  destruct (zlevel zsl) as [|n] eqn:El; [lia|].
  apply (element_loop_ok h zsl cs rank Hz Hr n 0 (header zsl) (S n)); [by rewrite El|lia|lia].
Qed.

(** ** Deletion of a segment *)

Lemma take_drop_ins {A} (l : list A) k x m :
  (k <= length l)%nat -> take k (ins k x l) = take k l /\ drop (k + S m) (ins k x l) = drop (k + m) l /\
  take (S m) (drop k (ins k x l)) = x :: take m (drop k l).
Proof.
  intros Hk. unfold ins. split_and!.
  - rewrite take_app_le by (rewrite length_take; lia). rewrite take_take. f_equal. lia.
  - rewrite drop_app_ge by (rewrite length_take; lia). rewrite length_take, Nat.min_l by lia.
    replace (k + S m - k)%nat with (S m) by lia. cbn [drop]. by rewrite drop_drop.
  - rewrite drop_app_length' by (rewrite length_take; lia). done.
Qed.

Lemma delete_while_ok k us inr : forall fuel h zsl cs t m,
  list_ok h zsl cs -> (k + m <= length cs)%nat -> path_on (ranks (header zsl) (zlevel zsl) cs) k us (zlevel zsl) ->
  (length cs <= fuel)%nat -> 0 <= t -> t + zlen cs < 2 ^ 64 ->
  (forall i c n, cs !! (k + i)%nat = Some c -> ele n = Some (cel c) -> score n = csc c ->
     inr n (t + Z.of_nat i) = bool_decide (i < m)%nat) ->
  exists h' zsl', delete_while fuel h zsl us inr (cid <$> cs !! k) t = Some (h', zsl', cel <$> take m (drop k cs)) /\
    list_ok h' zsl' (take k cs ++ drop (k + m) cs) /\ header zsl' = header zsl /\
    dom h' = dom h ∖ list_to_set (cid <$> take m (drop k cs)).
Proof using Type*.
  induction fuel as [|fuel IH]; intros h zsl cs t m Hz Hm Hus Hfuel Ht0 Ht Hinr.
  { destruct cs as [|? ?]; [|cbn in Hfuel; lia]. cbn in Hm. assert (k = 0)%nat as -> by lia.
    assert (m = 0)%nat as -> by lia. exists h, zsl. cbn. split_and!; [done..|set_solver]. }
  pose proof (lo_nodes _ _ _ Hz) as Hn. destruct (cs !! k) as [c|] eqn:Ec; cbn [fmap option_fmap option_map delete_while].
  2: { apply lookup_ge_None in Ec. assert (m = 0)%nat as -> by lia. exists h, zsl.
       cbn [take fmap list_fmap list_to_set]. rewrite Nat.add_0_r, take_drop. split_and!; [done..|set_solver]. }
  destruct (cell_node _ _ _ _ _ _ Hn Ec) as (n & Hnode & He & Hs & _ & Hlev). rewrite Hnode. cbn [mbind option_bind].
  pose proof (Hinr 0%nat c n) as H0'. rewrite Nat.add_0_r, Z.add_0_r in H0'. rewrite (H0' Ec He Hs).
  destruct m as [|m].
  { rewrite bool_decide_false by lia. exists h, zsl. cbn [take fmap list_fmap list_to_set].
    rewrite Nat.add_0_r, take_drop. split_and!; [done..|set_solver]. }
  rewrite bool_decide_true by lia.
  assert (level n !! 0%nat = Some (lev (ranks (header zsl) (zlevel zsl) cs) 0 (S k))) as ->.
  { change (level n !! 0%nat) with (Some n ≫= fun n => level n !! 0%nat). rewrite <- Hnode.
    apply (no_levels _ _ _ _ Hn (S k) (cid c) (cht c) 0%nat); [by apply ranks_S|]. apply (no_heights _ _ _ _ Hn k c Ec). }
  cbn [mbind option_bind]. rewrite nxt_zero by (intros j d Hj; apply (no_heights _ _ _ _ Hn j d Hj)).
  destruct (delete_ins _ _ _ Ec) as [Hins Hk']. set (cs0 := delete k cs) in *. rewrite Hins in Hz, Hus.
  pose proof (ins_not_in _ _ _ _ _ Hz) as Hnin.
  destruct (zslDeleteNode_ok _ _ _ _ _ _ Hz Hk' Hus) as (h1 & zsl1 & -> & Hz1 & Hhd & Hdom & Hus1).
  cbn [mbind option_bind]. rewrite He. cbn [mbind option_bind]. rewrite <- Hhd in Hnin.
  assert (zlen cs = zlen cs0 + 1) as Hlen by (rewrite Hins; apply zlen_ins).
  assert (length cs = S (length cs0)) as Hlen' by (unfold zlen in Hlen; lia).
  rewrite Hins, ins_lookup_gt by lia. rewrite u64_small by (unfold zlen in *; lia).
  destruct (IH (zslFreeNode h1 (cid c)) zsl1 cs0 (t + 1) m) as (h' & zsl' & -> & Hz' & Hhd' & Hdom').
  { by apply free_list_ok. }
  { lia. }
  { done. }
  { lia. }
  { lia. }
  { lia. }
  { intros i d nd Hd Hed Hsd. replace (t + 1 + Z.of_nat i) with (t + Z.of_nat (S i)) by lia.
    rewrite (Hinr (S i) d nd); [apply bool_decide_ext; lia| |done|done].
    rewrite Hins. replace (k + S i)%nat with (S (k + i)) by lia. by rewrite ins_lookup_gt by lia. }
  cbn [mbind option_bind]. destruct (take_drop_ins cs0 k c m Hk') as (-> & -> & ->).
  exists h', zsl'. cbn [fmap list_fmap list_to_set]. split_and!; [done..| |].
  - by rewrite Hhd'.
  - rewrite Hdom'. unfold zslFreeNode. rewrite dom_delete_L, Hdom. set_solver.
Qed.

(** The nodes of a segment are distinct. *)
Lemma segment_size h zsl cs h' k m : list_ok h zsl cs -> dom h' = dom h ∖ list_to_set (cid <$> take m (drop k cs)) ->
  (size h' + length (take m (drop k (keys cs))) = size h)%nat.
Proof using Type*.
  intros Hz Hdom. pose proof (no_nodup _ _ _ _ (lo_nodes _ _ _ Hz)) as [_ Hnd]%NoDup_cons.
  assert (sublist (cid <$> take m (drop k cs)) (cid <$> cs)) as Hsub.
  { apply sublist_map. etrans; [apply sublist_take|apply sublist_drop]. }
  assert (list_to_set (cid <$> take m (drop k cs)) ⊆ dom h) as Hin.
  { intros p Hp%elem_of_list_to_set. eapply ids_dom; [apply (lo_nodes _ _ _ Hz)|]. right. by eapply sublist_elem. }
  rewrite <- !size_dom, Hdom, size_difference by done. pose proof (subseteq_size _ _ Hin).
  rewrite size_list_to_set by (by eapply sublist_NoDup). rewrite size_list_to_set in * by (by eapply sublist_NoDup).
  unfold keys. rewrite length_fmap, !length_take, !length_drop, length_fmap in *. lia.
Qed.

(** ** Ranges *)

Section range.
Variables (h : heap D) (zsl : zskiplist) (cs : list (@cell D)).
Hypothesis Hz : zsl_ok h zsl cs.
Variables (gte lte : zskiplistNode (D := D) -> bool) (g l : zkey -> bool) (empty : bool).

(** The tests depend on score and member, and agree with the order. *)
Hypothesis Hgte : forall n c, ele n = Some (cel c) -> score n = csc c -> gte n = g (key c).
Hypothesis Hlte : forall n c, ele n = Some (cel c) -> score n = csc c -> lte n = l (key c).
Hypothesis Hgmon : forall i j a b, (i < j)%nat -> keys cs !! i = Some a -> keys cs !! j = Some b -> g a = true -> g b = true.
Hypothesis Hlmon : forall i j a b, (i < j)%nat -> keys cs !! i = Some a -> keys cs !! j = Some b -> l b = true -> l a = true.
Hypothesis Hempty : empty = true -> forall a, a ∈ keys cs -> g a = true -> l a = true -> False.

Definition in_range (a : zkey) : Prop := g a = true /\ l a = true.

#[local] Instance in_range_dec a : Decision (in_range a).
Proof. unfold in_range. apply _. Defined.

(** The range is a segment of the list. *)
Lemma range_segment : exists a b, (a <= length cs)%nat /\ (b <= length cs)%nat /\
  (forall j c, cs !! j = Some c -> g (key c) = negb (bool_decide (j < a)%nat)) /\
  (forall j c, cs !! j = Some c -> l (key c) = bool_decide (j < b)%nat).
Proof using Hgmon Hlmon.
  assert (forall j c, cs !! j = Some c -> keys cs !! j = Some (key c)) as Hkeys.
  { intros j c Hj. unfold keys. by rewrite list_lookup_fmap, Hj. }
  destruct (prefix_pos (fun c => negb (g (key c))) cs) as (a & Ha & Hga).
  { intros i j x y Hij Hi Hj Hy. apply negb_true_iff. apply negb_true_iff in Hy.
    destruct (g (key x)) eqn:Ex; [|done]. rewrite <- Hy. symmetry. eapply (Hgmon i j); eauto. }
  destruct (prefix_pos (fun c => l (key c)) cs) as (b & Hb & Hlb).
  { intros i j x y Hij Hi Hj Hy. eapply (Hlmon i j); eauto. }
  exists a, b. split_and!; [done..| |done]. intros j c Hj. by rewrite <- (Hga j c Hj), negb_involutive.
Qed.

Lemma in_range_pos a b :
  (forall j c, cs !! j = Some c -> g (key c) = negb (bool_decide (j < a)%nat)) ->
  (forall j c, cs !! j = Some c -> l (key c) = bool_decide (j < b)%nat) ->
  forall j x, keys cs !! j = Some x -> in_range x <-> (a <= j < b)%nat.
Proof using Type.
  intros Hg Hl j x (d & -> & Hj)%list_lookup_fmap_Some.
  unfold in_range. rewrite (Hg _ _ Hj), (Hl _ _ Hj), negb_true_iff, bool_decide_eq_false, bool_decide_eq_true. lia.
Qed.

Lemma empty_range a b :
  (forall j c, cs !! j = Some c -> g (key c) = negb (bool_decide (j < a)%nat)) ->
  (forall j c, cs !! j = Some c -> l (key c) = bool_decide (j < b)%nat) ->
  (b <= a)%nat -> filter in_range (keys cs) = [].
Proof using Type.
  intros Hg Hl Hba. apply filter_none. intros x (j & Hj)%list_elem_of_lookup.
  rewrite (in_range_pos a b Hg Hl j x Hj). lia.
Qed.

Lemma is_in_range_ok : exists b, is_in_range h zsl empty gte lte = Some b /\
  (b = false -> filter in_range (keys cs) = []) /\
  (b = true -> exists ct ch, last cs = Some ct /\ head cs = Some ch /\ g (key ct) = true /\ l (key ch) = true).
Proof using Hz Hgte Hlte Hgmon Hlmon Hempty.
  pose proof (zo_nodes _ _ _ Hz) as Hn. unfold is_in_range.
  destruct empty eqn:Ee.
  { exists false. split_and!; [done| |done]. intros _. apply filter_none. intros a Ha [Hga Hla].
    by apply (Hempty eq_refl a). }
  rewrite (zo_tail _ _ _ Hz), last_lookup. destruct (cs !! Nat.pred (length cs)) as [ct|] eqn:Et.
  2: { exists false. split_and!; [done| |done]. intros _. apply lookup_ge_None in Et.
       destruct cs as [|? ?]; [done|cbn in Et; lia]. }
  cbn [fmap option_fmap option_map]. destruct (cell_node _ _ _ _ _ _ Hn Et) as (nt & -> & Het & Hst & _).
  cbn [mbind option_bind]. rewrite (Hgte nt ct Het Hst). destruct range_segment as (a & b & Ha & Hb & Hg & Hl).
  pose proof (lookup_lt_Some _ _ _ Et) as Hlt.
  destruct (g (key ct)) eqn:Eg; cbn [negb].
  2: { exists false. split_and!; [done| |done]. intros _. apply filter_none.
       intros x (c & -> & (j & Hj)%list_elem_of_lookup)%list_elem_of_fmap [Hgx _].
       rewrite (Hg _ _ Et) in Eg. apply negb_false_iff, bool_decide_eq_true in Eg.
       rewrite (Hg _ _ Hj) in Hgx. apply negb_true_iff, bool_decide_eq_false in Hgx. apply lookup_lt_Some in Hj. lia. }
  destruct (lookup_lt_is_Some_2 cs 0) as [ch Hch]; [lia|].
  rewrite (no_levels _ _ _ _ Hn 0%nat (header zsl) (zlevel zsl) 0%nat eq_refl) by apply (no_level _ _ _ _ Hn).
  cbn [mbind option_bind]. rewrite nxt_zero by (intros j d Hj; apply (no_heights _ _ _ _ Hn j d Hj)).
  rewrite Hch. cbn [fmap option_fmap option_map].
  destruct (cell_node _ _ _ _ _ _ Hn Hch) as (nh & -> & Heh & Hsh & _). cbn [mbind option_bind].
  rewrite (Hlte nh ch Heh Hsh). exists (l (key ch)). split_and!; [done| |].
  - intros Efalse. apply filter_none. intros x (c & -> & (j & Hj)%list_elem_of_lookup)%list_elem_of_fmap [_ Hlx].
    rewrite (Hl _ _ Hch) in Efalse. apply bool_decide_eq_false in Efalse.
    rewrite (Hl _ _ Hj) in Hlx. apply bool_decide_eq_true in Hlx. lia.
  - intros Etrue. exists ct, ch. rewrite head_lookup. done.
Qed.

(** The cells in range, first and last. *)
Lemma first_in_range_ok : exists r, first_in_range h zsl empty gte lte = Some r /\
  match r with
  | None => filter in_range (keys cs) = []
  | Some p => exists j c, cs !! j = Some c /\ cid c = p /\ head (filter in_range (keys cs)) = Some (key c)
  end.
Proof using Hz Hgte Hlte Hgmon Hlmon Hempty.
  pose proof (zo_nodes _ _ _ Hz) as Hn. unfold first_in_range.
  destruct is_in_range_ok as ([] & -> & Hnone & Hsome); cbn [mbind option_bind negb]; [|exists None; auto].
  destruct range_segment as (a & b & Ha & Hb & Hg & Hl).
  destruct (search_ok h zsl cs (fun n _ => negb (gte n)) a Hn (zo_bound _ _ _ Hz)) as (us & -> & Hpath).
  { intros j c n Hj _ He Hs. rewrite (Hgte n c He Hs), (Hg j c Hj), negb_involutive. apply bool_decide_ext. lia. }
  cbn [mbind option_bind]. destruct (found_ok _ _ _ _ _ Hn Ha Hpath) as (_ & _ & lv & -> & Hf). cbn [mbind option_bind].
  rewrite Hf. destruct (Hsome eq_refl) as (ct & ch & Ht & _ & Hgt & _). rewrite last_lookup in Ht.
  rewrite (Hg _ _ Ht) in Hgt. apply negb_true_iff, bool_decide_eq_false in Hgt. pose proof (lookup_lt_Some _ _ _ Ht).
  destruct (lookup_lt_is_Some_2 cs a) as [c Hc]; [lia|]. rewrite Hc. cbn [fmap option_fmap option_map mbind option_bind].
  destruct (cell_node _ _ _ _ _ _ Hn Hc) as (n & -> & He & Hs & _). cbn [mbind option_bind].
  rewrite (Hlte n c He Hs). exists (if l (key c) then Some (cid c) else None). split; [done|].
  destruct (l (key c)) eqn:El.
  - exists a, c. split_and!; [done..|]. rewrite (Hl _ _ Hc) in El. apply bool_decide_eq_true in El.
    rewrite (filter_segment in_range (keys cs) a b) by (lia || by apply in_range_pos).
    rewrite head_lookup, lookup_take_lt, lookup_drop by lia. rewrite Nat.add_0_r.
    unfold keys. by rewrite list_lookup_fmap, Hc.
  - rewrite (Hl _ _ Hc) in El. apply bool_decide_eq_false in El. apply (empty_range a b Hg Hl). lia.
Qed.

Lemma last_in_range_ok : exists r, last_in_range h zsl empty gte lte = Some r /\
  match r with
  | None => filter in_range (keys cs) = []
  | Some p => exists j c, cs !! j = Some c /\ cid c = p /\ last (filter in_range (keys cs)) = Some (key c)
  end.
Proof using Hz Hgte Hlte Hgmon Hlmon Hempty.
  pose proof (zo_nodes _ _ _ Hz) as Hn. unfold last_in_range.
  destruct is_in_range_ok as ([] & -> & Hnone & Hsome); cbn [mbind option_bind negb]; [|exists None; auto].
  destruct range_segment as (a & b & Ha & Hb & Hg & Hl).
  destruct (search_ok h zsl cs (fun n _ => lte n) b Hn (zo_bound _ _ _ Hz)) as (us & -> & Hpath).
  { intros j c n Hj _ He Hs. rewrite (Hlte n c He Hs), (Hl j c Hj). apply bool_decide_ext. lia. }
  cbn [mbind option_bind]. destruct (found_ok _ _ _ _ _ Hn Hb Hpath) as (Hfound & _ & _).
  destruct (Hsome eq_refl) as (ct & ch & _ & Hh & _ & Hlh). rewrite head_lookup in Hh.
  rewrite (Hl _ _ Hh) in Hlh. apply bool_decide_eq_true in Hlh. destruct b as [|b]; [lia|].
  rewrite list_lookup_fmap in Hfound. destruct (ranks _ _ cs !! S b) as [x|] eqn:Ex; [|done].
  apply ranks_S_inv in Ex as (c & Hc & ->). injection Hfound as <-.
  destruct (cell_node _ _ _ _ _ _ Hn Hc) as (n & -> & He & Hs & _). cbn [mbind option_bind fst].
  rewrite (Hgte n c He Hs). exists (if g (key c) then Some (cid c) else None). split; [done|].
  destruct (g (key c)) eqn:Eg; rewrite (Hg _ _ Hc) in Eg.
  - apply negb_true_iff, bool_decide_eq_false in Eg. exists b, c. split_and!; [done..|].
    rewrite (filter_segment in_range (keys cs) a (S b)) by (lia || by apply in_range_pos).
    rewrite last_lookup, length_take, length_drop. unfold keys. rewrite length_fmap.
    rewrite lookup_take_lt, lookup_drop by lia.
    replace (a + Nat.pred (Nat.min (S b - a) (length cs - a)))%nat with b by lia. by rewrite list_lookup_fmap, Hc.
  - apply negb_false_iff, bool_decide_eq_true in Eg. apply (empty_range a (S b) Hg Hl). lia.
Qed.

(** The deletion removes the range and reports its members in order. *)
Lemma delete_range_ok : exists h' zsl' cs',
  delete_range h zsl gte lte = Some (h', zsl', (filter in_range (keys cs)).*2) /\
  zsl_ok h' zsl' cs' /\ keys cs' = filter (fun a => ~ in_range a) (keys cs) /\ header zsl' = header zsl /\
  (size h' + length (filter in_range (keys cs)) = size h)%nat.
Proof using Type*.
  pose proof (zo_nodes _ _ _ Hz) as Hn. pose proof (zo_bound _ _ _ Hz) as Hbound.
  destruct range_segment as (a & b & Ha & Hb & Hg & Hl). unfold delete_range.
  destruct (search_ok h zsl cs (fun n _ => negb (gte n)) a Hn (zo_bound _ _ _ Hz)) as (us & -> & Hpath).
  { intros j c n Hj _ He Hs. rewrite (Hgte n c He Hs), (Hg j c Hj), negb_involutive. apply bool_decide_ext. lia. }
  cbn [mbind option_bind]. destruct (found_ok _ _ _ _ _ Hn Ha Hpath) as (_ & _ & lv & -> & Hf). cbn [mbind option_bind].
  rewrite Hf. set (e := Nat.max a b).
  assert (forall j x, keys cs !! j = Some x -> in_range x <-> (a <= j < e)%nat) as Hseg.
  { intros j x Hj. rewrite (in_range_pos a b Hg Hl j x Hj). unfold e. lia. }
  destruct (delete_while_ok a us (fun n _ => lte n) (size h) h zsl cs 0 (e - a)) as (h' & zsl' & Hdel & Hz' & Hhd & Hdom).
  { by apply zsl_list_ok. }
  { unfold e. lia. }
  { by destruct Hpath. }
  { pose proof (nodes_size _ _ _ _ Hn) as Hsz. rewrite ranks_length in Hsz. lia. }
  { lia. }
  { unfold zlen in *. lia. }
  { intros i c n Hj He Hs. rewrite (Hlte n c He Hs), (Hl _ c Hj). apply bool_decide_ext. unfold e. lia. }
  replace (a + (e - a))%nat with e in Hz' by (unfold e; lia).
  exists h', zsl', (take a cs ++ drop e cs). rewrite (filter_segment in_range (keys cs) a e) by (unfold e; lia || done).
  split_and!; [| | |done|].
  - rewrite Hdel. do 2 f_equal. unfold keys. rewrite <- fmap_drop, <- fmap_take, <- list_fmap_compose. done.
  - eapply zsl_ok_sublist; [exact Hz|exact Hz'|]. apply sublist_take_drop. unfold e. lia.
  - unfold keys at 1. rewrite fmap_app, fmap_take, fmap_drop. symmetry. apply filter_outside; [unfold e; lia|].
    intros j x Hj. by rewrite (Hseg j x Hj).
  - eapply segment_size; [by apply zsl_list_ok|done].
Qed.
End range.

(** ** Ranges of scores *)

Lemma klt_score a b : klt a b -> score_le a.1 b.1 = true.
Proof. unfold score_le. intros [-> | [-> _]]; [done|apply orb_true_r]. Qed.

Lemma score_le_trans a b d : score_le a b = true -> score_le b d = true -> score_le a d = true.
Proof using Type*.
  unfold score_le. rewrite !orb_true_iff. intros [Hab|Hab] [Hbc|Hbc].
  - left. by eapply score_lt_trans.
  - left. by rewrite <- (score_eq_lt_r _ _ _ Hbc).
  - left. by rewrite (score_eq_lt_l _ _ _ Hab).
  - right. by eapply score_eq_trans.
Qed.

Lemma score_lt_le_trans a b d : score_lt a b = true -> score_le b d = true -> score_lt a d = true.
Proof using Type*.
  unfold score_le. rewrite orb_true_iff. intros Hab [Hbc|Hbc].
  - by eapply score_lt_trans.
  - by rewrite <- (score_eq_lt_r _ _ _ Hbc).
Qed.

Lemma score_le_lt_trans a b d : score_le a b = true -> score_lt b d = true -> score_lt a d = true.
Proof using Type*.
  unfold score_le. rewrite orb_true_iff. intros [Hab|Hab] Hbc.
  - by eapply score_lt_trans.
  - by rewrite (score_eq_lt_l _ _ _ Hab).
Qed.

Lemma score_lt_le a b : score_lt a b = true -> score_le a b = true.
Proof. unfold score_le. by intros ->. Qed.

Definition score_g (range : zrangespec) (a : zkey) : bool := zslValueGteMin a.1 range.
Definition score_l (range : zrangespec) (a : zkey) : bool := zslValueLteMax a.1 range.

Lemma score_g_mon range a b : klt a b -> score_g range a = true -> score_g range b = true.
Proof using Type*.
  intros Hab%klt_score. unfold score_g, zslValueGteMin. destruct (minex range); intros Ha.
  - by eapply score_lt_le_trans.
  - by eapply score_le_trans.
Qed.

Lemma score_l_mon range a b : klt a b -> score_l range b = true -> score_l range a = true.
Proof using Type*.
  intros Hab%klt_score. unfold score_l, zslValueLteMax. destruct (maxex range); intros Ha.
  - by eapply score_le_lt_trans.
  - by eapply score_le_trans.
Qed.

(** The ranges the code treats as empty are. *)
Lemma score_empty_ok range : score_empty range = true ->
  forall a, score_g range a = true -> score_l range a = true -> False.
Proof using Type*.
  intros He a Hg Hl. unfold score_g, zslValueGteMin in Hg. unfold score_l, zslValueLteMax in Hl.
  assert (score_le (Skiplist.min range) a.1 = true) as Hg' by (destruct (minex range); [by apply score_lt_le|done]).
  assert (score_le a.1 (Skiplist.max range) = true) as Hl' by (destruct (maxex range); [by apply score_lt_le|done]).
  unfold score_empty in He. apply orb_true_iff in He as [He|[Heq Hex]%andb_true_iff].
  - pose proof (score_le_lt_trans _ _ _ (score_le_trans _ _ _ Hg' Hl') He) as Hlt. by rewrite score_lt_irrefl in Hlt.
  - assert (score_lt (Skiplist.min range) (Skiplist.max range) = true) as Hlt.
    { apply orb_true_iff in Hex as [Hex|Hex]; rewrite Hex in *.
      - by eapply score_lt_le_trans.
      - by eapply score_le_lt_trans. }
    rewrite (score_eq_lt_l _ _ _ Heq), score_lt_irrefl in Hlt. done.
Qed.

(** ** Ranges of members *)

Definition lex_g (range : zlexrangespec) (a : zkey) : bool := zslLexValueGteMin a.2 range.
Definition lex_l (range : zlexrangespec) (a : zkey) : bool := zslLexValueLteMax a.2 range.

(** The bounds are ordered with the shared strings at the ends. *)
Lemma sdscmplex_lt a b d : sdscmplex a b < 0 -> sdscmplex b d < 0 -> sdscmplex a d < 0.
Proof.
  destruct a as [| |a], b as [| |b], d as [| |d]; cbn [sdscmplex]; try lia.
  rewrite !sdscmp_lexcmp. apply lexcmp_trans.
Qed.

Lemma sdscmplex_sym a b : sdscmplex a b < 0 <-> sdscmplex b a > 0.
Proof.
  destruct a as [| |a], b as [| |b]; cbn [sdscmplex]; try lia. rewrite !sdscmp_lexcmp. apply lexcmp_sym.
Qed.

Lemma sdscmplex_eq a b : sdscmplex a b = 0 <-> a = b.
Proof.
  destruct a as [| |a], b as [| |b]; cbn [sdscmplex]; try (split; [lia|done]); try done.
  rewrite sdscmp_lexcmp, lexcmp_eq. split; congruence.
Qed.

(** With equal scores the list is ordered by member. *)
Definition same_scores (cs : list (@cell D)) : Prop :=
  forall i j a b, cs !! i = Some a -> cs !! j = Some b -> score_eq (csc a) (csc b) = true.

Lemma same_scores_lt cs i j a b : same_scores cs -> StronglySorted klt (keys cs) -> (i < j)%nat ->
  keys cs !! i = Some a -> keys cs !! j = Some b -> sdscmplex (LexStr a.2) (LexStr b.2) < 0.
Proof using Type*.
  intros Hsame Hs Hij Ha Hb. rewrite sorted_lookup in Hs. pose proof (Hs i j a b Hij Ha Hb) as Hlt.
  apply list_lookup_fmap_Some in Ha as (ca & -> & Hca). apply list_lookup_fmap_Some in Hb as (cb & -> & Hcb).
  destruct Hlt as [Hlt|[_ Hlt]]; [|done]. cbn in Hlt.
  rewrite (score_eq_lt_l _ _ _ (Hsame _ _ _ _ Hca Hcb)), score_lt_irrefl in Hlt. done.
Qed.

Lemma lex_g_mon range a b : sdscmplex (LexStr a.2) (LexStr b.2) < 0 -> lex_g range a = true -> lex_g range b = true.
Proof.
  intros Hab. unfold lex_g, zslLexValueGteMin.
  assert (sdscmplex (LexStr a.2) (lmin range) >= 0 -> sdscmplex (LexStr b.2) (lmin range) > 0) as Hstep.
  { intros Hge. apply sdscmplex_sym. destruct (decide (sdscmplex (LexStr a.2) (lmin range) = 0)) as [E|E].
    - apply sdscmplex_eq in E. by rewrite <- E.
    - eapply sdscmplex_lt; [|exact Hab]. apply sdscmplex_sym. lia. }
  destruct (lminex range); rewrite !bool_decide_eq_true; lia.
Qed.

Lemma lex_l_mon range a b : sdscmplex (LexStr a.2) (LexStr b.2) < 0 -> lex_l range b = true -> lex_l range a = true.
Proof.
  intros Hab. unfold lex_l, zslLexValueLteMax.
  assert (sdscmplex (LexStr b.2) (lmax range) <= 0 -> sdscmplex (LexStr a.2) (lmax range) < 0) as Hstep.
  { intros Hle. destruct (decide (sdscmplex (LexStr b.2) (lmax range) = 0)) as [E|E].
    - apply sdscmplex_eq in E. by rewrite <- E.
    - eapply sdscmplex_lt; [exact Hab|]. lia. }
  destruct (lmaxex range); rewrite !bool_decide_eq_true; lia.
Qed.

Lemma lex_empty_ok range : lex_empty range = true -> forall a, lex_g range a = true -> lex_l range a = true -> False.
Proof.
  unfold lex_empty, lex_g, lex_l, zslLexValueGteMin, zslLexValueLteMax. intros He a Hg Hl.
  rewrite orb_true_iff, andb_true_iff, orb_true_iff, !bool_decide_eq_true in He.
  set (v := LexStr a.2) in *.
  assert (sdscmplex (lmin range) v <= 0 /\ (lminex range = true -> sdscmplex (lmin range) v < 0)) as [Hg1 Hg2].
  { pose proof (sdscmplex_sym (lmin range) v). pose proof (sdscmplex_sym v (lmin range)).
    destruct (lminex range); apply bool_decide_eq_true in Hg; split; intros; try lia; try done. }
  assert (sdscmplex v (lmax range) <= 0 /\ (lmaxex range = true -> sdscmplex v (lmax range) < 0)) as [Hl1 Hl2].
  { destruct (lmaxex range); apply bool_decide_eq_true in Hl; split; intros; try lia; try done. }
  pose proof (sdscmplex_lt (lmin range) v (lmax range)) as Htr.
  pose proof (sdscmplex_eq (lmin range) v) as E1. pose proof (sdscmplex_eq v (lmax range)) as E2.
  pose proof (sdscmplex_eq (lmin range) (lmax range)) as E3.
  pose proof (sdscmplex_sym (lmax range) (lmin range)) as S1.
  pose proof (proj2 (sdscmplex_eq v v) eq_refl) as Hrefl.
  destruct (decide (sdscmplex (lmin range) v = 0)) as [Z1|Z1]; [apply E1 in Z1; rewrite Z1 in *|].
  - destruct He as [He|[He [Hx|Hx]]]; [lia| |]; [specialize (Hg2 Hx)|specialize (Hl2 Hx)]; lia.
  - destruct (decide (sdscmplex v (lmax range) = 0)) as [Z2|Z2]; [apply E2 in Z2; rewrite <- Z2 in *; lia|]. lia.
Qed.

(** ** Deletion by rank, creation and release *)

Lemma zslDeleteRangeByRank_ok h zsl cs start end_ : zsl_ok h zsl cs -> 1 <= start -> 0 <= end_ ->
  let a := Z.to_nat (start - 1) in
  let b := Nat.max a (Z.to_nat end_) in
  exists h' zsl', zslDeleteRangeByRank h zsl start end_ = Some (h', zsl', (take (b - a) (drop a (keys cs))).*2) /\
    zsl_ok h' zsl' (take a cs ++ drop b cs) /\ header zsl' = header zsl /\
    (size h' + length (take (b - a) (drop a (keys cs))) = size h)%nat.
Proof using Type*.
  intros Hz Hstart Hend a b. pose proof (zo_nodes _ _ _ Hz) as Hn. pose proof (zo_bound _ _ _ Hz) as Hbound.
  set (k := Nat.min a (length cs)). set (e := Nat.min b (length cs)). unfold zslDeleteRangeByRank.
  destruct (search_ok h zsl cs (fun _ t => bool_decide (t < start)) k Hn Hbound) as (us & -> & Hpath).
  { intros j c n Hj _ _ _. apply lookup_lt_Some in Hj. apply bool_decide_ext. unfold k, a. lia. }
  cbn [mbind option_bind].
  assert (k <= length cs)%nat as Hk by (unfold k; lia).
  destruct (found_ok _ _ _ _ _ Hn Hk Hpath) as (_ & (us' & Hus) & lv & Hlv & Hf).
  rewrite Hlv. cbn [mbind option_bind]. rewrite Hf.
  assert (match us with [] => 0 | (_, t) :: _ => t end = Z.of_nat k) as -> by (by rewrite Hus).
  rewrite u64_small by (unfold k, zlen in *; lia).
  destruct (delete_while_ok k us (fun _ t => bool_decide (t <= end_)) (size h) h zsl cs (Z.of_nat k + 1) (e - k))
    as (h' & zsl' & Hdel & Hz' & Hhd & Hdom).
  { by apply zsl_list_ok. }
  { unfold e, k. lia. }
  { by destruct Hpath. }
  { pose proof (nodes_size _ _ _ _ Hn) as Hsz. rewrite ranks_length in Hsz. lia. }
  { lia. }
  { unfold k, zlen in *. lia. }
  { intros i c n Hj _ _. apply lookup_lt_Some in Hj. apply bool_decide_ext. unfold e, k, b in *. lia. }
  assert (forall {A} (l : list A), length l = length cs -> take (e - k) (drop k l) = take (b - a) (drop a l)) as Hseg.
  { intros A l Hl. unfold k. destruct (decide (a <= length cs)%nat).
    - rewrite Nat.min_l by done. unfold e. destruct (decide (b <= length cs)%nat); [by rewrite Nat.min_l by lia|].
      rewrite Nat.min_r by lia. rewrite !take_ge by (rewrite length_drop; lia). done.
    - rewrite !(drop_ge l) by lia. by rewrite !take_nil. }
  assert (take k cs ++ drop (k + (e - k)) cs = take a cs ++ drop b cs) as Hrest.
  { f_equal; unfold k, e.
    - destruct (decide (a <= length cs)%nat); [by rewrite Nat.min_l|]. by rewrite !take_ge by lia.
    - destruct (decide (b <= length cs)%nat); [f_equal; lia|]. by rewrite !drop_ge by lia. }
  exists h', zsl'. rewrite Hrest in Hz'. split_and!; [| |done|].
  - rewrite Hdel. do 2 f_equal. unfold keys. rewrite <- fmap_drop, <- fmap_take, <- list_fmap_compose.
    by rewrite Hseg.
  - eapply zsl_ok_sublist; [exact Hz|exact Hz'|]. apply sublist_take_drop. lia.
  - rewrite Hseg in Hdom by done. eapply segment_size; [by apply zsl_list_ok|done].
Qed.

Lemma zslCreate_ok (zero : D) h : exists h' zsl, zslCreate zero h = (h', zsl) /\ zsl_ok h' zsl [] /\
  header zsl ∉ dom h /\ dom h' = {[header zsl]} ∪ dom h.
Proof.
  unfold zslCreate. destruct (zslCreateNode h ZSKIPLIST_MAXLEVEL zero None) as [h' p] eqn:Ec.
  destruct (create_node_ok _ _ _ _ _ _ Ec) as (Hfresh & Hdom & Hinfo & _ & Hnew).
  exists h', (ZSkiplist p None 0 1). split_and!; [done| |done|done].
  constructor; cbn [header tail zlength zlevel]; [|done..|by constructor|by constructor]. constructor.
  - apply NoDup_singleton.
  - eexists _, _. by rewrite Hinfo, decide_True.
  - intros i Hi. exists 0. apply Hnew. lia.
  - done.
  - done.
  - unfold ZSKIPLIST_MAXLEVEL. lia.
  - intros [|r] q ht i Hr Hi; [|by apply ranks_S_inv in Hr as (c & ? & _)]. injection Hr as <- <-.
    rewrite Hnew by (unfold ZSKIPLIST_MAXLEVEL; lia). done.
Qed.

Lemma zslFree_loop_ok : forall fuel h0 hd lvl cs j h, nodes_ok h0 hd lvl cs -> (length cs <= fuel + j)%nat ->
  (forall i c, (j <= i)%nat -> cs !! i = Some c -> h !! cid c = h0 !! cid c) ->
  exists h', zslFree_loop fuel h (cid <$> cs !! j) = Some h' /\ dom h' = dom h ∖ list_to_set (cid <$> drop j cs).
Proof using Type*.
  induction fuel as [|fuel IH]; intros h0 hd lvl cs j h Hn Hfuel Hsame.
  { rewrite (lookup_ge_None_2 cs j) by lia. exists h. split; [done|]. rewrite drop_ge by lia. cbn. set_solver. }
  destruct (cs !! j) as [c|] eqn:Ec; cbn [fmap option_fmap option_map zslFree_loop].
  2: { exists h. split; [done|]. rewrite drop_ge by (by apply lookup_ge_None). cbn. set_solver. }
  assert (get_level h (cid c) 0 = Some (lev (ranks hd lvl cs) 0 (S j))) as ->.
  { unfold get_level. rewrite (Hsame j c) by (done || lia).
    apply (no_levels _ _ _ _ Hn (S j) _ (cht c)); [by apply ranks_S|]. apply (no_heights _ _ _ _ Hn j c Ec). }
  cbn [mbind option_bind]. rewrite nxt_zero by (intros i d Hd; apply (no_heights _ _ _ _ Hn i d Hd)).
  destruct (IH h0 hd lvl cs (S j) (zslFreeNode h (cid c)) Hn) as (h' & -> & Hdom).
  - lia.
  - intros i d Hi Hd. unfold zslFreeNode. rewrite lookup_delete_ne; [apply (Hsame i); [lia|done]|].
    pose proof (no_nodup _ _ _ _ Hn) as [_ Hnd]%NoDup_cons. intros Heq.
    assert (i = j); [|lia]. apply (NoDup_lookup _ i j (cid d) Hnd); rewrite list_lookup_fmap; [by rewrite Hd|].
    rewrite Ec. cbn. by rewrite Heq.
  - exists h'. split; [done|]. rewrite Hdom. unfold zslFreeNode. rewrite dom_delete_L.
    rewrite (drop_S _ _ _ Ec). cbn [fmap list_fmap list_to_set]. set_solver.
Qed.

Lemma zslFree_ok h zsl cs : zsl_ok h zsl cs -> exists h', zslFree h zsl = Some h' /\
  dom h' = dom h ∖ ({[header zsl]} ∪ list_to_set (cid <$> cs)).
Proof using Type*.
  intros Hz. pose proof (zo_nodes _ _ _ Hz) as Hn. unfold zslFree.
  rewrite (no_levels _ _ _ _ Hn 0%nat (header zsl) (zlevel zsl) 0%nat eq_refl) by apply (no_level _ _ _ _ Hn).
  cbn [mbind option_bind]. rewrite nxt_zero by (intros j d Hj; apply (no_heights _ _ _ _ Hn j d Hj)).
  destruct (zslFree_loop_ok (size h) h (header zsl) (zlevel zsl) cs 0 (zslFreeNode h (header zsl)) Hn) as (h' & Hf & Hdom).
  - pose proof (nodes_size _ _ _ _ Hn) as Hsz. rewrite ranks_length in Hsz. lia.
  - intros i c _ Hc. unfold zslFreeNode. apply lookup_delete_ne. intros Heq.
    pose proof (no_nodup _ _ _ _ Hn) as [Hhd _]%NoDup_cons. apply Hhd. rewrite Heq. apply list_elem_of_fmap.
    exists c. split; [done|]. by eapply list_elem_of_lookup_2.
  - exists h'. split; [done|]. rewrite Hdom. unfold zslFreeNode. rewrite dom_delete_L. cbn [drop]. set_solver.
Qed.
End sorted_set.

(** The items [zslParseLexRangeItem] accepts: a sign followed by NUL or by the
    end of the string, or a bracket followed by any member. *)
Lemma zslParseLexRangeItem_ok c b ex : zslParseLexRangeItem c = Some (b, ex) <->
  match b with
  | maxstring => exists s, c = 43 :: s /\ c_at s = 0 /\ ex = true
  | minstring => exists s, c = 45 :: s /\ c_at s = 0 /\ ex = true
  | LexStr s => c = (if ex then 40 else 91) :: s
  end.
Proof.
  split.
  - intros Hp. unfold zslParseLexRangeItem in Hp.
    repeat (case_match; try discriminate Hp; try (case_decide; [|done])); simplify_eq; eauto.
  - destruct b as [| |s].
    + intros (s & -> & Hs & ->). cbn. by rewrite decide_True.
    + intros (s & -> & Hs & ->). cbn. by rewrite decide_True.
    + intros ->. by destruct ex.
Qed.
