(* ===== verification/SortedSet.v ===== *)
(** * Skip lists as sorted sets

    The theorems about the skip lists of t_zset.c.  A sequence of insertions,
    deletions and score updates on the nodes does what it does on the sorted
    list of (score, member) pairs; ranks and ranges read from the nodes are
    those of the list; no node is lost and none is freed twice. *)

From S2P Require Import Prelude Skiplist SkiplistOps SkiplistSpec.

#[local] Set Default Proof Using "Type".

Section claims.
Context {D : Type} `{ScoreLaws D}.

Implicit Types (h : heap D) (c : @cell D) (cs : list (@cell D)).

(** ** Sequences of operations *)

Inductive zop :=
| OpInsert (rnd : list bool) (sc : D) (e : sds)
| OpDelete (sc : D) (e : sds)
| OpUpdate (rnd : list bool) (sc : D) (e : sds) (newscore : D).

Definition exec_op (st : heap D * zskiplist) (op : zop) : option (heap D * zskiplist) :=
  let '(h, zsl) := st in
  match op with
  | OpInsert rnd sc e => '(h, zsl, _) ← zslInsert rnd h zsl sc e; Some (h, zsl)
  | OpDelete sc e => '(h, zsl, _) ← zslDelete h zsl sc e false; Some (h, zsl)
  | OpUpdate rnd sc e s => '(h, zsl, _) ← zslUpdateScore rnd h zsl sc e s; Some (h, zsl)
  end.

Fixpoint exec_ops (st : heap D * zskiplist) (ops : list zop) : option (heap D * zskiplist) :=
  match ops with
  | [] => Some st
  | op :: ops => st ← exec_op st op; exec_ops st ops
  end.

(** The same on the sorted list.  Callers insert members that are not in the
    set and update members that are, with scores that are numbers. *)
Definition spec_op (l : list (D * sds)) (op : zop) : option (list (D * sds)) :=
  match op with
  | OpInsert _ sc e =>
    if isnan sc then None else if decide (e ∈ l.*2) then None else Some (zadd (sc, e) l)
  | OpDelete sc e => Some (zrem (sc, e) l)
  | OpUpdate _ sc e s =>
    if isnan s then None
    else if existsb (same_key (sc, e)) l then Some (zadd (s, e) (zrem (sc, e) l)) else None
  end.

Fixpoint spec_ops (l : list (D * sds)) (ops : list zop) : option (list (D * sds)) :=
  match ops with
  | [] => Some l
  | op :: ops => l ← spec_op l op; spec_ops l ops
  end.

(** The nodes hold the list, each member once, and besides them the store has
    [other] nodes. *)
Definition holds (st : heap D * zskiplist) (l : list (D * sds)) (other : nat) : Prop :=
  exists cs, zsl_ok st.1 st.2 cs /\ keys cs = l /\ NoDup (cel <$> cs) /\
    (size st.1 = other + length l)%nat.

Lemma keys_members cs : (keys cs).*2 = cel <$> cs.
Proof. unfold keys. by rewrite <- list_fmap_compose. Qed.

Lemma keys_zlen cs : length (keys cs) = length cs.
Proof. unfold keys. apply length_fmap. Qed.

Lemma zop_ok st l other op l' :
  holds st l other -> zlen l + 1 < 2 ^ 63 -> spec_op l op = Some l' ->
  exists st', exec_op st op = Some st' /\ holds st' l' other.
Proof using Type*.
  destruct st as [h zsl]. intros (cs & Hz & <- & Hnd & Hsize) Hb Hspec. cbn [fst snd] in *.
  unfold zlen in Hb. rewrite keys_zlen in Hb. destruct op as [rnd sc e|sc e|rnd sc e s]; cbn [spec_op exec_op] in *.
  - destruct (isnan sc) eqn:Enan; [done|]. destruct (decide _) as [|Hnin] in Hspec; [done|]. injection Hspec as <-.
    rewrite keys_members in Hnin.
    destruct (zslInsert_ok rnd h zsl cs sc e Hz Enan) as (h' & zsl' & x & k & -> & Hz' & Hk & _ & Hx & Hdom).
    { unfold zlen. lia. }
    { apply Forall_forall. intros c Hc [_ He]. apply Hnin. rewrite <- He. apply list_elem_of_fmap. by exists c. }
    cbn [mbind option_bind]. eexists. split; [done|]. eexists. split; [exact Hz'|]. split; [by eapply ins_keys|].
    rewrite (fmap_Permutation cel _ _ (ins_perm _ _ _)). split; [by apply NoDup_cons|].
    cbn [fst]. change (sc, e) with (key (Cell x (zslRandomLevel rnd) sc e)).
    rewrite <- (ins_keys _ _ _ _ _ Hz' Hk), keys_zlen, (Permutation_length (ins_perm _ _ _)).
    rewrite <- size_dom, Hdom, size_union, size_singleton, size_dom by set_solver.
    rewrite keys_zlen in Hsize. cbn [length]. lia.
  - injection Hspec as <-. destruct (zslDelete_ok h zsl cs sc e false Hz) as (h' & zsl' & r & -> & _ & Hr).
    cbn [mbind option_bind]. eexists. split; [done|]. destruct r as [x|].
    + destruct Hr as (k & c & Hc & <- & Hsame & Hz' & Hkeys & Hdom). exists (delete k cs). split; [exact Hz'|].
      split; [done|]. destruct (delete_ins _ _ _ Hc) as [Hins _]. cbn [fst].
      rewrite <- Hkeys, keys_zlen. rewrite Hins in Hnd. rewrite (fmap_Permutation cel _ _ (ins_perm _ _ _)) in Hnd.
      apply NoDup_cons in Hnd as [_ Hnd]. split; [done|].
      rewrite <- size_dom, Hdom, size_difference, size_singleton, size_dom.
      * rewrite keys_zlen, Hins, (Permutation_length (ins_perm _ _ _)) in Hsize. cbn [length] in Hsize. lia.
      * assert (cid c ∈ dom h); [|set_solver]. eapply info_dom, (no_cells _ _ _ _ (zo_nodes _ _ _ Hz) k c Hc).
    + destruct Hr as (Hm & -> & ->). exists cs. rewrite zrem_absent by done. done.
  - destruct (isnan s) eqn:Enan; [done|]. destruct (existsb _ _) eqn:Em; [|done]. injection Hspec as <-.
    assert (zmem (sc, e) (keys cs)) as Hmem.
    { apply existsb_exists in Em as (a & Ha & Hsame). apply Exists_exists. exists a. by rewrite list_elem_of_In. }
    destruct (zslUpdateScore_ok rnd h zsl cs sc e s Hz Hmem Hnd Enan) as (h' & zsl' & x & cs' & -> & Hz' & Hkeys & _ & Hsz & Hperm).
    cbn [mbind option_bind]. eexists. split; [done|]. exists cs'. cbn [fst]. split_and!; [done|done|by rewrite Hperm|].
    rewrite <- Hkeys, keys_zlen, Hsz, Hsize, keys_zlen. f_equal.
    by rewrite <- (length_fmap cel cs), <- (length_fmap cel cs'), Hperm.
Qed.

(** An operation adds at most one member. *)
Lemma spec_op_length l op l' : spec_op l op = Some l' -> (length l' <= S (length l))%nat.
Proof.
  assert (forall y (l : list (D * sds)), length (zadd y l) = S (length l)) as Hadd.
  { intros y. induction l0 as [|a l0 IH]; [done|]. cbn [zadd]. destruct (kltb a y); cbn [length]; [by rewrite IH|done]. }
  assert (forall y (l : list (D * sds)), length (zrem y l) <= length l)%nat as Hrem by (intros; apply length_filter).
  destruct op as [rnd sc e|sc e|rnd sc e s]; cbn [spec_op].
  - destruct (isnan sc); [done|]. case_decide; [done|]. intros [= <-]. by rewrite Hadd.
  - intros [= <-]. pose proof (Hrem (sc, e) l). lia.
  - destruct (isnan s); [done|]. destruct (existsb _ _); [|done]. intros [= <-]. rewrite Hadd.
    pose proof (Hrem (sc, e) l). lia.
Qed.

Lemma exec_ops_ok : forall ops st l other l',
  holds st l other -> zlen l + zlen ops < 2 ^ 63 -> spec_ops l ops = Some l' ->
  exists st', exec_ops st ops = Some st' /\ holds st' l' other.
Proof using Type*.
  induction ops as [|op ops IH]; intros st l other l' Hh Hb Hs; cbn [spec_ops exec_ops] in *.
  { injection Hs as <-. by exists st. }
  destruct (spec_op l op) as [l1|] eqn:E1; [|done]. cbn [mbind option_bind] in Hs.
  rewrite zlen_cons in Hb. pose proof (zlen_nonneg ops).
  destruct (zop_ok st l other op l1 Hh) as (st1 & -> & Hh1); [lia|done|]. cbn [mbind option_bind].
  apply (IH st1 l1 other l' Hh1); [|done]. apply spec_op_length in E1. unfold zlen in *. lia.
Qed.
Lemma create_holds (zero : D) h0 : holds (zslCreate zero h0) [] (size h0 + 1)%nat.
Proof using Type*.
  destruct (zslCreate_ok zero h0) as (h' & zsl & -> & Hz & Hfresh & Hdom). exists []. split_and!; [done|done|constructor|].
  cbn [fst length]. rewrite <- size_dom, Hdom, size_union, size_singleton, size_dom by set_solver. lia.
Qed.

(** C9: a sequence of insertions, deletions and score updates on a new skip
    list gives the sorted list the sequence stands for, whatever the random
    levels are: no operation fails, the nodes hold exactly the members in order
    with consistent levels, spans and backward pointers, and no node leaks. *)
Theorem zsl_refines_sorted_list (zero : D) h0 ops l :
  spec_ops [] ops = Some l -> zlen ops < 2 ^ 63 ->
  exists st, exec_ops (zslCreate zero h0) ops = Some st /\ holds st l (size h0 + 1)%nat.
Proof using Type*.
  intros Hs Hb. apply (exec_ops_ok ops _ []); [apply create_holds| |done]. change (zlen []) with 0. lia.
Qed.

(** [zslDelete] removes the node with the score and the member and keeps
    the invariant; when there is no such node nothing changes. *)
Theorem zslDelete_correct h zsl cs sc e keep : zsl_ok h zsl cs ->
  exists h' zsl' r, zslDelete h zsl sc e keep = Some (h', zsl', r) /\ header zsl' = header zsl /\
    match r with
    | Some x => exists k c, cs !! k = Some c /\ cid c = x /\ same_key (sc, e) (key c) = true /\
        zsl_ok h' zsl' (delete k cs) /\ keys (delete k cs) = zrem (sc, e) (keys cs) /\
        dom h' = if keep then dom h else dom h ∖ {[x]}
    | None => ~ zmem (sc, e) (keys cs) /\ h' = h /\ zsl' = zsl
    end.
Proof using Type*. apply zslDelete_ok. Qed.

(** C21: the rank computed from the spans is the position of the member,
    counted from 1 (0 when the member is not there), and the element looked up
    by a rank is the node at that position, whose rank is the rank again. *)
Theorem zsl_rank_correct h zsl cs : zsl_ok h zsl cs ->
  (forall sc e, zslGetRank h zsl sc e = Some (rank_of (sc, e) (keys cs))) /\
  (forall rank, 1 <= rank -> zslGetElementByRank h zsl rank = Some (cid <$> cs !! Z.to_nat (rank - 1))) /\
  (forall rank p, 1 <= rank -> zslGetElementByRank h zsl rank = Some (Some p) ->
     exists n e, h !! p = Some n /\ ele n = Some e /\ zslGetRank h zsl (score n) e = Some rank).
Proof using Type*.
  intros Hz. pose proof (zsl_list_ok _ _ _ Hz) as Hl. split_and!.
  - intros sc e. by apply zslGetRank_ok.
  - intros rank Hr. by apply zslGetElementByRank_ok.
  - intros rank p Hr. rewrite (zslGetElementByRank_ok _ _ _ _ Hl Hr). intros [= (c & Hc & ->)%fmap_Some].
    destruct (cell_node _ _ _ _ _ _ (zo_nodes _ _ _ Hz) Hc) as (n & Hn & He & Hs & _). exists n, (cel c).
    split_and!; [done..|]. rewrite (zslGetRank_ok _ _ _ _ _ Hz), Hs. f_equal.
    assert (same_key (csc c, cel c) (key c) = true) as Hsame.
    { apply same_key_true. split; [|done]. apply score_eq_refl. pose proof (zo_nan _ _ _ Hz) as Hnan.
      rewrite Forall_lookup in Hnan. by eapply Hnan. }
    destruct (key_pos cs (csc c, cel c) (zo_sorted _ _ _ Hz)) as (k & _ & Hpos).
    pose proof (same_key_pos cs _ k (zo_sorted _ _ _ Hz) Hpos) as Huniq.
    rewrite (rank_of_present _ cs _ c (zo_sorted _ _ _ Hz) Hc Hsame); [lia|].
    intros i d Hd Hsd. by rewrite (Huniq i d Hd Hsd), (Huniq _ c Hc Hsame).
Qed.

(** What a range operation finds: the first and the last member in range, and
    the rest after the range is deleted. *)
Definition range_results (h : heap D) (zsl : zskiplist) (cs : list (@cell D)) (P : D * sds -> Prop)
    `{!forall a, Decision (P a)} (fst_ lst : option (option ptr)) (del : option (heap D * zskiplist * list sds)) : Prop :=
  (exists r, fst_ = Some r /\
     match r with
     | None => filter P (keys cs) = []
     | Some p => exists j c, cs !! j = Some c /\ cid c = p /\ head (filter P (keys cs)) = Some (key c)
     end) /\
  (exists r, lst = Some r /\
     match r with
     | None => filter P (keys cs) = []
     | Some p => exists j c, cs !! j = Some c /\ cid c = p /\ last (filter P (keys cs)) = Some (key c)
     end) /\
  exists h' zsl' cs', del = Some (h', zsl', (filter P (keys cs)).*2) /\ zsl_ok h' zsl' cs' /\
    keys cs' = filter (fun a => ~ P a) (keys cs) /\ header zsl' = header zsl /\
    (size h' + length (filter P (keys cs)) = size h)%nat.

#[local] Existing Instance in_range_dec.

(** C22: lookups and deletions by a range of scores agree with the filter on
    the sorted list: [zslFirstInRange] and [zslLastInRange] return its first and
    last member or NULL when it is empty, and [zslDeleteRangeByScore] removes
    exactly its members, frees their nodes and reports them in order. *)
Theorem zslRange_correct h zsl cs range : zsl_ok h zsl cs ->
  range_results h zsl cs (in_range (score_g range) (score_l range))
    (zslFirstInRange h zsl range) (zslLastInRange h zsl range) (zslDeleteRangeByScore h zsl range).
Proof using Type*.
  intros Hz. pose proof (zo_sorted _ _ _ Hz) as Hs. rewrite sorted_lookup in Hs.
  assert (forall i j a b, (i < j)%nat -> keys cs !! i = Some a -> keys cs !! j = Some b ->
    score_g range a = true -> score_g range b = true) as Hg.
  { intros i j a b Hij Ha Hb. by apply score_g_mon, (Hs i j). }
  assert (forall i j a b, (i < j)%nat -> keys cs !! i = Some a -> keys cs !! j = Some b ->
    score_l range b = true -> score_l range a = true) as Hl.
  { intros i j a b Hij Ha Hb. by apply score_l_mon, (Hs i j). }
  split_and!.
  - apply first_in_range_ok; [done| | |done|done|intros He a _; by apply score_empty_ok];
      intros n c _ Hn; by rewrite Hn.
  - apply last_in_range_ok; [done| | |done|done|intros He a _; by apply score_empty_ok];
      intros n c _ Hn; by rewrite Hn.
  - apply (delete_range_ok h zsl cs Hz _ _ _ _ (score_empty range)); [| |done|done|intros He a _; by apply score_empty_ok];
      intros n c _ Hn; by rewrite Hn.
Qed.

(** C40: the same for ranges of members, when all scores are equal. *)
Theorem zslLexRange_correct h zsl cs range : zsl_ok h zsl cs -> same_scores cs ->
  range_results h zsl cs (in_range (lex_g range) (lex_l range))
    (zslFirstInLexRange h zsl range) (zslLastInLexRange h zsl range) (zslDeleteRangeByLex h zsl range).
Proof using Type*.
  intros Hz Hsame. pose proof (zo_sorted _ _ _ Hz) as Hs.
  assert (forall i j a b, (i < j)%nat -> keys cs !! i = Some a -> keys cs !! j = Some b ->
    lex_g range a = true -> lex_g range b = true) as Hg.
  { intros i j a b Hij Ha Hb. eapply lex_g_mon, same_scores_lt; [exact Hsame|exact Hs|exact Hij|done|done]. }
  assert (forall i j a b, (i < j)%nat -> keys cs !! i = Some a -> keys cs !! j = Some b ->
    lex_l range b = true -> lex_l range a = true) as Hl.
  { intros i j a b Hij Ha Hb. eapply lex_l_mon, same_scores_lt; [exact Hsame|exact Hs|exact Hij|done|done]. }
  split_and!.
  - apply first_in_range_ok; [done| | |done|done|intros He a _; by apply lex_empty_ok];
      intros n c Hn _; unfold Skiplist.lex_gte, Skiplist.lex_lte; by rewrite Hn.
  - apply last_in_range_ok; [done| | |done|done|intros He a _; by apply lex_empty_ok];
      intros n c Hn _; unfold Skiplist.lex_gte, Skiplist.lex_lte; by rewrite Hn.
  - apply (delete_range_ok h zsl cs Hz _ _ _ _ (lex_empty range)); [| |done|done|intros He a _; by apply lex_empty_ok];
      intros n c Hn _; unfold Skiplist.lex_gte, Skiplist.lex_lte; by rewrite Hn.
Qed.

(** [zslDeleteRangeByRank] removes exactly the members from rank [start]
    to rank [end], counted from 1, and frees their nodes. *)
Theorem zslDeleteRangeByRank_correct h zsl cs start end_ : zsl_ok h zsl cs -> 1 <= start -> 0 <= end_ ->
  let a := Z.to_nat (start - 1) in
  let b := Nat.max a (Z.to_nat end_) in
  exists h' zsl', zslDeleteRangeByRank h zsl start end_ = Some (h', zsl', (take (b - a) (drop a (keys cs))).*2) /\
    zsl_ok h' zsl' (take a cs ++ drop b cs) /\ header zsl' = header zsl /\
    (size h' + length (take (b - a) (drop a (keys cs))) = size h)%nat.
Proof using Type*. apply zslDeleteRangeByRank_ok. Qed.

(** [zslFree] terminates and frees the header and every node of the list,
    each once, and nothing else. *)
Theorem zslFree_correct h zsl cs : zsl_ok h zsl cs -> exists h', zslFree h zsl = Some h' /\
  dom h' = dom h ∖ ({[header zsl]} ∪ list_to_set (cid <$> cs)).
Proof using Type*. apply zslFree_ok. Qed.
End claims.

(** ** A concrete set

    Integers with a NaN. *)

#[local] Instance int_score : Score (option Z) := {|
  score_lt a b := match a, b with Some a, Some b => Z.ltb a b | _, _ => false end;
  score_eq a b := match a, b with Some a, Some b => Z.eqb a b | _, _ => false end;
  isnan a := match a with None => true | Some _ => false end;
|}.

#[local] Instance int_score_laws : ScoreLaws (option Z).
Proof.
  split; repeat intros [?|]; cbn; rewrite ?Z.ltb_lt, ?Z.eqb_eq, ?Z.eqb_refl, ?Z.ltb_irrefl; try done; try lia.
Qed.

Definition sample_ops : list (zop (D := option Z)) :=
  [OpInsert [true] (Some 3) [99]; OpInsert [] (Some 1) [97]; OpInsert [true; true] (Some 2) [98];
   OpInsert [] (Some 2) [100]; OpDelete (Some 2) [98]; OpUpdate [true; true; true] (Some 1) [97] (Some 5)].

Definition sample_list : list (option Z * sds) := [(Some 2, [100]); (Some 3, [99]); (Some 5, [97])].

Lemma sample_spec : spec_ops [] sample_ops = Some sample_list.
Proof. vm_compute. reflexivity. Qed.

Lemma sample_ok : exists h zsl cs, exec_ops (zslCreate (Some 0) ∅) sample_ops = Some (h, zsl) /\
  zsl_ok h zsl cs /\ keys cs = sample_list.
Proof.
  destruct (exec_ops_ok sample_ops (zslCreate (Some 0) ∅) [] (size (∅ : heap (option Z)) + 1) sample_list) as ([h zsl] & He & cs & Hz & Hk & _).
  - apply create_holds.
  - vm_compute. reflexivity.
  - apply sample_spec.
  - exists h, zsl, cs. exact (conj He (conj Hz Hk)).
Qed.

Lemma zsl_refines_sorted_list_witness :
  exists st, exec_ops (zslCreate (Some 0) ∅) sample_ops = Some st /\ holds st sample_list (size (∅ : heap (option Z)) + 1)%nat.
Proof.
  apply (zsl_refines_sorted_list (Some 0) ∅ sample_ops sample_list).
  - exact sample_spec.
  - vm_compute. reflexivity.
Defined.

Lemma zslDelete_correct_witness : exists h zsl h' zsl' r,
  exec_ops (zslCreate (Some 0) ∅) sample_ops = Some (h, zsl) /\ zslDelete h zsl (Some 3) [99] false = Some (h', zsl', r).
Proof.
  destruct sample_ok as (h & zsl & cs & He & Hz & Hk).
  destruct (zslDelete_correct h zsl cs (Some 3) [99] false Hz) as (h' & zsl' & r & Hd & _).
  exists h, zsl, h', zsl', r. exact (conj He Hd).
Defined.

Lemma zsl_rank_correct_witness : exists h zsl,
  exec_ops (zslCreate (Some 0) ∅) sample_ops = Some (h, zsl) /\ zslGetRank h zsl (Some 3) [99] = Some 2.
Proof.
  destruct sample_ok as (h & zsl & cs & He & Hz & Hk). exists h, zsl. split; [exact He|].
  destruct (zsl_rank_correct h zsl cs Hz) as (Hr & _). rewrite Hr, Hk. vm_compute. reflexivity.
Defined.

Lemma zslRange_correct_witness : exists h zsl h' zsl',
  exec_ops (zslCreate (Some 0) ∅) sample_ops = Some (h, zsl) /\
  zslDeleteRangeByScore h zsl (ZRange (Some 2) (Some 5) false true) = Some (h', zsl', [[100]; [99]]).
Proof.
  destruct sample_ok as (h & zsl & cs & He & Hz & Hk).
  destruct (zslRange_correct h zsl cs (ZRange (Some 2) (Some 5) false true) Hz) as (_ & _ & h' & zsl' & cs' & Hd & _).
  exists h, zsl, h', zsl'. split; [exact He|]. rewrite Hd, Hk. vm_compute. reflexivity.
Defined.

Definition sample_lex_ops : list (zop (D := option Z)) :=
  [OpInsert [] (Some 0) [97]; OpInsert [true] (Some 0) [99]; OpInsert [] (Some 0) [98]].

Lemma sample_lex_ok : exists h zsl cs, exec_ops (zslCreate (Some 0) ∅) sample_lex_ops = Some (h, zsl) /\
  zsl_ok h zsl cs /\ keys cs = [(Some 0, [97]); (Some 0, [98]); (Some 0, [99])].
Proof.
  destruct (exec_ops_ok sample_lex_ops (zslCreate (Some 0) ∅) [] 1 [(Some 0, [97]); (Some 0, [98]); (Some 0, [99])])
    as ([h zsl] & He & cs & Hz & Hk & _).
  - apply create_holds.
  - vm_compute. reflexivity.
  - vm_compute. reflexivity.
  - exists h, zsl, cs. exact (conj He (conj Hz Hk)).
Qed.

Lemma zslLexRange_correct_witness : exists h zsl h' zsl',
  exec_ops (zslCreate (Some 0) ∅) sample_lex_ops = Some (h, zsl) /\
  zslDeleteRangeByLex h zsl (ZLexRange (LexStr [97]) maxstring true true) = Some (h', zsl', [[98]; [99]]).
Proof.
  destruct sample_lex_ok as (h & zsl & cs & He & Hz & Hk).
  destruct (zslLexRange_correct h zsl cs (ZLexRange (LexStr [97]) maxstring true true) Hz) as (_ & _ & h' & zsl' & cs' & Hd & _).
  - intros i j a b Ha Hb. assert (forall i a, cs !! i = Some a -> csc a = Some 0) as Hall.
    { intros i' a' Ha'. assert (keys cs !! i' = Some (key a')) as Hk' by (unfold keys; by rewrite list_lookup_fmap, Ha').
      rewrite Hk in Hk'. destruct i' as [|[|[|i']]]; [injection Hk' as E _; exact (eq_sym E)..|destruct i'; discriminate Hk']. }
    by rewrite (Hall i a Ha), (Hall j b Hb).
  - exists h, zsl, h', zsl'. split; [exact He|]. rewrite Hd, Hk. vm_compute. reflexivity.
Defined.

Lemma zslDeleteRangeByRank_correct_witness : exists h zsl h' zsl',
  exec_ops (zslCreate (Some 0) ∅) sample_ops = Some (h, zsl) /\
  zslDeleteRangeByRank h zsl 2 3 = Some (h', zsl', [[99]; [97]]).
Proof.
  destruct sample_ok as (h & zsl & cs & He & Hz & Hk).
  destruct (zslDeleteRangeByRank_correct h zsl cs 2 3 Hz) as (h' & zsl' & Hd & _); [lia|lia|].
  exists h, zsl, h', zsl'. split; [exact He|]. rewrite Hd, Hk. vm_compute. reflexivity.
Defined.

Lemma zslFree_correct_witness : exists h zsl h',
  exec_ops (zslCreate (Some 0) ∅) sample_ops = Some (h, zsl) /\ zslFree h zsl = Some h'.
Proof.
  destruct sample_ok as (h & zsl & cs & He & Hz & Hk).
  destruct (zslFree_correct h zsl cs Hz) as (h' & Hf & _). exists h, zsl, h'. exact (conj He Hf).
Defined.
