(* ===== verification/Bitops.v ===== *)
(** * Bit operations (bitops.c)

    Counting bits ([redisPopcount], which adds up seven 32-bit words at a time),
    finding the first bit ([redisBitpos], word by word), reading and writing
    integers of up to 64 bits at any bit offset, the overflow checks of
    BITFIELD and its SET, INCRBY and GET operations on the bytes of the string.

    Bits are numbered from the most significant bit of the first byte.  A
    buffer comes with the address of its first byte where the code looks at
    alignment.  Words are loaded in little-endian order.

    The theorems: both optimised loops agree with their definitions on bits;
    what is written is read back and no other bit changes; the overflow checks
    saturate, wrap and report as integers of the given width do, outside the
    inputs of [signed_overflow_misses_underflow]. *)

From S2P Require Import Prelude Util.

#[local] Set Default Proof Using "Type".

(** ** Counting bits *)

Definition bitsinbyte : list Z :=
  [0; 1; 1; 2; 1; 2; 2; 3; 1; 2; 2; 3; 2; 3; 3; 4; 1; 2; 2; 3; 2; 3; 3; 4; 2; 3; 3; 4; 3; 4; 4; 5;
   1; 2; 2; 3; 2; 3; 3; 4; 2; 3; 3; 4; 3; 4; 4; 5; 2; 3; 3; 4; 3; 4; 4; 5; 3; 4; 4; 5; 4; 5; 5; 6;
   1; 2; 2; 3; 2; 3; 3; 4; 2; 3; 3; 4; 3; 4; 4; 5; 2; 3; 3; 4; 3; 4; 4; 5; 3; 4; 4; 5; 4; 5; 5; 6;
   2; 3; 3; 4; 3; 4; 4; 5; 3; 4; 4; 5; 4; 5; 5; 6; 3; 4; 4; 5; 4; 5; 5; 6; 4; 5; 5; 6; 5; 6; 6; 7;
   1; 2; 2; 3; 2; 3; 3; 4; 2; 3; 3; 4; 3; 4; 4; 5; 2; 3; 3; 4; 3; 4; 4; 5; 3; 4; 4; 5; 4; 5; 5; 6;
   2; 3; 3; 4; 3; 4; 4; 5; 3; 4; 4; 5; 4; 5; 5; 6; 3; 4; 4; 5; 4; 5; 5; 6; 4; 5; 5; 6; 5; 6; 6; 7;
   2; 3; 3; 4; 3; 4; 4; 5; 3; 4; 4; 5; 4; 5; 5; 6; 3; 4; 4; 5; 4; 5; 5; 6; 4; 5; 5; 6; 5; 6; 6; 7;
   3; 4; 4; 5; 4; 5; 5; 6; 4; 5; 5; 6; 5; 6; 6; 7; 4; 5; 5; 6; 5; 6; 6; 7; 5; 6; 6; 7; 6; 7; 7; 8].

(** [while((unsigned long)p & 3 && count)]. *)
Fixpoint pop_head (count : nat) (addr : Z) (s : bytes) (p bits : Z) : option (Z * nat * Z) :=
  match count with
  | O => Some (p, O, bits)
  | S count' =>
    if decide (Z.land (addr + p) 3 = 0) then Some (p, count, bits)
    else
      b ← peek s p;
      n ← peek bitsinbyte b;
      pop_head count' addr s (p + 1) (bits + n)
  end.

(** [*p4]. *)
Definition load32 (s : bytes) (p : Z) : option Z := le_val <$> mem_read s p 4.

(** The two assignments to each [aux]. *)
Definition aux_pairs (aux : Z) : Z :=
  let aux := u32 (aux - Z.land (Z.shiftr aux 1) 0x55555555) in
  u32 (Z.land aux 0x33333333 + Z.land (Z.shiftr aux 2) 0x33333333).

(** [(aux + (aux >> 4)) & 0x0F0F0F0F]. *)
Definition aux_bytes (aux : Z) : Z := Z.land (u32 (aux + Z.shiftr aux 4)) 0x0F0F0F0F.

(** [while(count>=28)]: seven words at a time. *)
Fixpoint pop_words (fuel : nat) (s : bytes) (p count bits : Z) : option (Z * Z * Z) :=
  if decide (count >= 28) then
    match fuel with
    | O => None
    | S fuel =>
      aux1 ← load32 s p;
      aux2 ← load32 s (p + 4);
      aux3 ← load32 s (p + 8);
      aux4 ← load32 s (p + 12);
      aux5 ← load32 s (p + 16);
      aux6 ← load32 s (p + 20);
      aux7 ← load32 s (p + 24);
      let aux1 := aux_pairs aux1 in
      let aux2 := aux_pairs aux2 in
      let aux3 := aux_pairs aux3 in
      let aux4 := aux_pairs aux4 in
      let aux5 := aux_pairs aux5 in
      let aux6 := aux_pairs aux6 in
      let aux7 := aux_pairs aux7 in
      let sum := u32 (aux_bytes aux1 + aux_bytes aux2 + aux_bytes aux3 + aux_bytes aux4 +
                      aux_bytes aux5 + aux_bytes aux6 + aux_bytes aux7) in
      pop_words fuel s (p + 28) (count - 28) (bits + Z.shiftr (u32 (sum * 0x01010101)) 24)
    end
  else Some (p, count, bits).

(** [while(count--) bits += bitsinbyte[*p++]]. *)
Fixpoint pop_tail (count : nat) (s : bytes) (p bits : Z) : option Z :=
  match count with
  | O => Some bits
  | S count =>
    b ← peek s p;
    n ← peek bitsinbyte b;
    pop_tail count s (p + 1) (bits + n)
  end.

(** [s] is at address [addr]. *)
Definition redisPopcount (addr : Z) (s : bytes) (count : nat) : option Z :=
  '(p, count, bits) ← pop_head count addr s 0 0;
  '(p4, count, bits) ← pop_words count s p (Z.of_nat count) bits;
  pop_tail (Z.to_nat count) s p4 bits.

(** ** The first bit *)

(** [while((unsigned long)c & (sizeof(unsigned long)-1) && count)]: position, bytes left,
    [pos] and [found]. *)
Fixpoint skip_head (count : nat) (addr : Z) (s : bytes) (skipval c pos : Z) : option (Z * nat * Z * bool) :=
  match count with
  | O => Some (c, O, pos, false)
  | S count' =>
    if decide (Z.land (addr + c) 7 = 0) then Some (c, count, pos, false)
    else
      b ← peek s c;
      if decide (b <> skipval) then Some (c, count, pos, true)
      else skip_head count' addr s skipval (c + 1) (pos + 8)
  end.

(** [while (count >= sizeof(unsigned long))]. *)
Fixpoint skip_words (fuel : nat) (s : bytes) (skipval l count pos : Z) : option (Z * Z * Z) :=
  if decide (count >= 8) then
    match fuel with
    | O => None
    | S fuel =>
      w ← le_val <$> mem_read s l 8;
      if decide (w <> skipval) then Some (l, count, pos)
      else skip_words fuel s skipval (l + 8) (count - 8) (pos + 64)
    end
  else Some (l, count, pos).

(** The last bytes, the first one the most significant. *)
Fixpoint load_word (j : nat) (s : bytes) (c count word : Z) : option Z :=
  match j with
  | O => Some word
  | S j =>
    let word := u64 (Z.shiftl word 8) in
    if decide (count <> 0) then
      b ← peek s c;
      load_word j s (c + 1) (count - 1) (Z.lor word b)
    else load_word j s c count word
  end.

(** [while(one)]; the loop ends at the end of the word, where the code
    panics. *)
Fixpoint scan_word (fuel : nat) (one word : Z) (bit : bool) (pos : Z) : option Z :=
  match fuel with
  | O => None
  | S fuel =>
    if decide (one = 0) then None
    else if bool_decide (bool_decide (Z.land one word <> 0) = bit) then Some pos
    else scan_word fuel (Z.shiftr one 1) word bit (pos + 1)
  end.

Definition redisBitpos (addr : Z) (s : bytes) (count : nat) (bit : bool) : option Z :=
  '(c, count, pos, found) ← skip_head count addr s (if bit then 0 else 255) 0 0;
  '(l, count, pos) ← (if (found : bool) then Some (c, Z.of_nat count, pos)
                      else skip_words count s (if bit then 0 else ULLONG_MAX) c (Z.of_nat count) pos);
  word ← load_word 8 s l count 0;
  if decide (bit = true /\ word = 0) then Some (-1)
  else
    let one := ULLONG_MAX in
    let one := Z.shiftr one 1 in
    let one := u64 (Z.lnot one) in
    scan_word 65 one word bit pos.

(** ** Integers of any width at any offset *)

(** [for (j = 0; j < bits; j++)], with [n] iterations left. *)
Fixpoint set_bits (n : nat) (p : bytes) (offset value : Z) : option bytes :=
  match n with
  | O => Some p
  | S n =>
    let bitval := if decide (Z.land value (Z.shiftl 1 (Z.of_nat n)) <> 0) then 1 else 0 in
    let byte := Z.shiftr offset 3 in
    let bit := 7 - Z.land offset 0x7 in
    byteval ← peek p byte;
    let byteval := Z.land byteval (Z.lnot (Z.shiftl 1 bit)) in
    let byteval := Z.lor byteval (Z.shiftl bitval bit) in
    p ← poke p byte (Z.land byteval 0xff);
    set_bits n p (u64 (offset + 1)) value
  end.

Definition setUnsignedBitfield (p : bytes) (offset bits value : Z) : option bytes :=
  set_bits (Z.to_nat bits) p offset value.

Definition setSignedBitfield (p : bytes) (offset bits value : Z) : option bytes :=
  let uv := u64 value in
  setUnsignedBitfield p offset bits uv.

Fixpoint get_bits (n : nat) (p : bytes) (offset value : Z) : option Z :=
  match n with
  | O => Some value
  | S n =>
    let byte := Z.shiftr offset 3 in
    let bit := 7 - Z.land offset 0x7 in
    byteval ← peek p byte;
    let bitval := Z.land (Z.shiftr byteval bit) 1 in
    get_bits n p (u64 (offset + 1)) (Z.lor (u64 (Z.shiftl value 1)) bitval)
  end.

Definition getUnsignedBitfield (p : bytes) (offset bits : Z) : option Z :=
  get_bits (Z.to_nat bits) p offset 0.

Definition getSignedBitfield (p : bytes) (offset bits : Z) : option Z :=
  u ← getUnsignedBitfield p offset bits;
  let value := i64 u in
  Some (if decide (bits < 64 /\ Z.land value (Z.shiftl 1 (bits - 1)) <> 0)
        then i64 (Z.lor value (u64 (Z.shiftl (-1) bits)))
        else value).

(** ** Overflow *)

Inductive owtype := BFOVERFLOW_WRAP | BFOVERFLOW_SAT | BFOVERFLOW_FAIL.

#[export] Instance owtype_eq_dec : EqDecision owtype.
Proof. solve_decision. Defined.

(** What is returned and what is stored in [*limit], if anything. *)
Definition checkUnsignedBitfieldOverflow (value incr bits : Z) (ow : owtype) : Z * option Z :=
  let max := if decide (bits = 64) then ULLONG_MAX else u64 (Z.shiftl 1 bits) - 1 in
  let maxincr := i64 (max - value) in
  let minincr := i64 (- value) in
  let handle_wrap :=
    let mask := u64 (Z.shiftl (-1) bits) in
    let res := u64 (value + incr) in
    (1, Some (Z.land res (u64 (Z.lnot mask)))) in
  if decide (value > max \/ (incr > 0 /\ incr > maxincr)) then
    match ow with
    | BFOVERFLOW_WRAP => handle_wrap
    | BFOVERFLOW_SAT => (1, Some max)
    | BFOVERFLOW_FAIL => (1, None)
    end
  else if decide (incr < 0 /\ incr < minincr) then
    match ow with
    | BFOVERFLOW_WRAP => handle_wrap
    | BFOVERFLOW_SAT => (-1, Some 0)
    | BFOVERFLOW_FAIL => (-1, None)
    end
  else (0, None).

(** Signed arithmetic that overflows wraps around here. *)
Definition checkSignedBitfieldOverflow (value incr bits : Z) (ow : owtype) : Z * option Z :=
  let max := if decide (bits = 64) then LLONG_MAX else Z.shiftl 1 (bits - 1) - 1 in
  let min := - max - 1 in
  let maxincr := i64 (u64 (max - value)) in
  let minincr := i64 (min - value) in
  let handle_wrap :=
    let msb := u64 (Z.shiftl 1 (bits - 1)) in
    let c := u64 (u64 value + u64 incr) in
    let c :=
      if decide (bits < 64) then
        let mask := u64 (Z.shiftl (-1) bits) in
        if decide (Z.land c msb <> 0) then Z.lor c mask else Z.land c (u64 (Z.lnot mask))
      else c in
    (1, Some (i64 c)) in
  if decide (value > max \/ (bits <> 64 /\ incr > maxincr) \/ (value >= 0 /\ incr > 0 /\ incr > maxincr)) then
    match ow with
    | BFOVERFLOW_WRAP => handle_wrap
    | BFOVERFLOW_SAT => (1, Some max)
    | BFOVERFLOW_FAIL => (1, None)
    end
  else if decide (value < min \/ (bits <> 64 /\ incr < minincr) \/ (value < 0 /\ incr < 0 /\ incr < minincr)) then
    match ow with
    | BFOVERFLOW_WRAP => handle_wrap
    | BFOVERFLOW_SAT => (-1, Some min)
    | BFOVERFLOW_FAIL => (-1, None)
    end
  else (0, None).

(** ** Arguments *)

(** The parsed offset; the inner [None] is [C_ERR].  [obey] is
    [mustObeyClient(c)], [hash] and [bits] as in the code. *)
Definition getBitOffsetFromArgument (p : chars) (hash : bool) (bits : Z) (obey : bool) (proto_max_bulk_len : Z) :
    option (option Z) :=
  let plen := zlen p in
  let usehash := match p with 35 :: _ => if decide (hash = true /\ bits > 0) then 1 else 0 | _ => 0 end in
  r ← string2ll (drop (Z.to_nat usehash) p) (plen - usehash);
  match r with
  | None => Some None
  | Some loffset =>
    let loffset := if decide (usehash = 1) then i64 (loffset * bits) else loffset in
    if decide (loffset < 0 \/ (obey = false /\ Z.shiftr loffset 3 >= proto_max_bulk_len)) then Some None
    else Some (Some loffset)
  end.

(** [strlen]. *)
Fixpoint strlen (p : chars) : Z :=
  match p with
  | 0 :: _ | [] => 0
  | _ :: p => 1 + strlen p
  end.

(** [*sign] and [*bits]. *)
Definition getBitfieldTypeFromArgument (p : chars) : option (option (bool * Z)) :=
  match p with
  | c :: p =>
    if decide (c = 105 \/ c = 117) then
      let sign := bool_decide (c = 105) in
      r ← string2ll p (strlen p);
      match r with
      | None => Some None
      | Some llbits =>
        if decide (llbits < 1 \/ (sign = true /\ llbits > 64) \/ (sign = false /\ llbits > 63)) then Some None
        else Some (Some (sign, llbits))
      end
    else Some None
  | [] => Some None
  end.

(** ** The operations of BITFIELD *)

Inductive bitfield_opcode := BITFIELDOP_SET | BITFIELDOP_INCRBY.

(** SET and INCRBY on the bytes of the string, which reach the offset: the
    bytes and the reply, NULL when the operation fails on overflow. *)
Definition bitfield_write (p : bytes) (opcode : bitfield_opcode) (sign : bool) (offset bits opvalue : Z)
    (ow : owtype) : option (bytes * option Z) :=
  if sign then
    oldval ← getSignedBitfield p offset bits;
    let '(overflow, newval, retval) :=
      match opcode with
      | BITFIELDOP_INCRBY =>
        let '(overflow, wrapped) := checkSignedBitfieldOverflow oldval opvalue bits ow in
        let newval := if decide (overflow <> 0) then default 0 wrapped else i64 (oldval + opvalue) in
        (overflow, newval, newval)
      | BITFIELDOP_SET =>
        let '(overflow, wrapped) := checkSignedBitfieldOverflow opvalue 0 bits ow in
        let newval := if decide (overflow <> 0) then default 0 wrapped else opvalue in
        (overflow, newval, oldval)
      end in
    if decide (~ (overflow <> 0 /\ ow = BFOVERFLOW_FAIL)) then
      p ← setSignedBitfield p offset bits newval;
      Some (p, Some retval)
    else Some (p, None)
  else
    oldval ← getUnsignedBitfield p offset bits;
    let '(overflow, newval, retval) :=
      match opcode with
      | BITFIELDOP_INCRBY =>
        let '(overflow, wrapped) := checkUnsignedBitfieldOverflow oldval opvalue bits ow in
        let newval := if decide (overflow <> 0) then default 0 wrapped else u64 (oldval + opvalue) in
        (overflow, newval, newval)
      | BITFIELDOP_SET =>
        let '(overflow, wrapped) := checkUnsignedBitfieldOverflow (u64 opvalue) 0 bits ow in
        let newval := if decide (overflow <> 0) then default 0 wrapped else u64 opvalue in
        (overflow, newval, oldval)
      end in
    if decide (~ (overflow <> 0 /\ ow = BFOVERFLOW_FAIL)) then
      p ← setUnsignedBitfield p offset bits newval;
      Some (p, Some (i64 retval))
    else Some (p, None).

(** GET: up to nine bytes are copied to a zeroed buffer first.  [src] is empty
    when the key does not exist. *)
Definition bitfield_get (src : bytes) (sign : bool) (offset bits : Z) : option Z :=
  let byte := Z.shiftr offset 3 in
  let copied := slice src byte (Z.min 9 (zlen src - byte)) in
  let buf := take 9 (copied ++ replicate 9 0) in
  if sign then getSignedBitfield buf (offset - u64 (byte * 8)) bits
  else i64 <$> getUnsignedBitfield buf (offset - u64 (byte * 8)) bits.

(** ** The bits of a buffer *)

Definition byte_bits (b : Z) : list bool := Z.testbit b <$> [7; 6; 5; 4; 3; 2; 1; 0].

Definition bits_of (s : bytes) : list bool := s ≫= byte_bits.

Definition ones (l : list bool) : Z := zlen (filter (fun b => b = true) l).

Lemma ones_app l k : ones (l ++ k) = ones l + ones k.
Proof. unfold ones. by rewrite filter_app, zlen_app. Qed.

Lemma bits_of_app s t : bits_of (s ++ t) = bits_of s ++ bits_of t.
Proof. apply bind_app. Qed.

Lemma bits_of_cons b s : bits_of (b :: s) = byte_bits b ++ bits_of s.
Proof. done. Qed.

Lemma bitsinbyte_ok b : byte_ok b -> peek bitsinbyte b = Some (ones (byte_bits b)).
Proof.
  revert b. apply (byte_cases (fun b => peek bitsinbyte b = Some (ones (byte_bits b)))). vm_compute. reflexivity.
Qed.

(** ** Sums inside words *)

Lemma land_split a r m k : byte_ok a -> byte_ok m ->
  Z.land (a + 256 * r) (m + 256 * k) = Z.land a m + 256 * Z.land r k.
Proof.
  unfold byte_ok. intros Ha Hm.
  assert (0 <= Z.land a m < 2 ^ 8) as Hb.
  { rewrite <- (Z.mod_small m 256), <- (land_255 m) by lia. rewrite Z.land_assoc, land_255. apply Z.mod_pos_bound. lia. }
  replace (a + 256 * r) with (Z.lor a (Z.shiftl r 8)) by (rewrite lor_shiftl_add by lia; lia).
  replace (m + 256 * k) with (Z.lor m (Z.shiftl k 8)) by (rewrite lor_shiftl_add by lia; lia).
  replace (Z.land a m + 256 * Z.land r k) with (Z.lor (Z.land a m) (Z.shiftl (Z.land r k) 8))
    by (rewrite lor_shiftl_add by lia; lia).
  apply Z.bits_inj'. intros n Hn. rewrite !Z.land_spec, !Z.lor_spec, !Z.shiftl_spec, !Z.land_spec by lia.
  destruct (decide (n < 8)).
  - rewrite !(Z.testbit_neg_r _ (n - 8)) by lia. by rewrite !orb_false_r.
  - assert (forall x, 0 <= x < 256 -> Z.testbit x n = false) as Hz.
    { intros x Hx. rewrite <- (Z.mod_small x (2 ^ 8)) by lia. apply Z.mod_pow2_bits_high. lia. }
    by rewrite !Hz by lia.
Qed.

(** Shifting a word moves the low bits of the next byte into a byte. *)
Lemma shift_split a r k : 0 <= k <= 8 ->
  Z.shiftr (a + 256 * r) k = (a / 2 ^ k + 2 ^ (8 - k) * (r mod 2 ^ k)) + 256 * Z.shiftr r k.
Proof.
  intros Hk. rewrite !shiftr_div by lia.
  assert (256 = 2 ^ (8 - k) * 2 ^ k) as H256 by (rewrite <- Z.pow_add_r by lia; replace (8 - k + k) with 8 by lia; done).
  assert (0 < 2 ^ k) as Hpos by (apply Z.pow_pos_nonneg; lia).
  set (h := 2 ^ (8 - k)) in *. set (l := 2 ^ k) in *. rewrite H256.
  replace (a + h * l * r) with (a + h * r * l) by ring. rewrite Z.div_add by lia.
  pose proof (Z.div_mod r l ltac:(lia)) as Hr. rewrite Hr at 1. ring.
Qed.

Definition pairs1 (b : Z) : Z := b - Z.land (b / 2) 0x55.
Definition pairs2 (b : Z) : Z := Z.land b 0x33 + Z.land (b / 4) 0x33.
Definition pairs4 (b : Z) : Z := Z.land (b + b / 16) 0x0f.

Lemma pairs1_ok bs : bytes_ok bs ->
  le_val bs - Z.land (Z.shiftr (le_val bs) 1) (le_val (replicate (length bs) 0x55)) = le_val (pairs1 <$> bs).
Proof.
  induction 1 as [|b bs Hb Hbs IH]; [done|]. cbn [le_val length replicate fmap list_fmap].
  rewrite shift_split by lia. change (2 ^ 1) with 2. change (2 ^ (8 - 1)) with 128.
  pose proof (Z.mod_pos_bound (le_val bs) 2 ltac:(lia)) as Hm. unfold byte_ok in Hb.
  rewrite land_split by (unfold byte_ok; divlia).
  assert (Z.land (b / 2 + 128 * (le_val bs mod 2)) 85 = Z.land (b / 2) 85) as ->.
  { assert (le_val bs mod 2 = 0 \/ le_val bs mod 2 = 1) as [-> | ->] by lia; [f_equal; lia|].
    revert b Hb. apply (byte_cases (fun b => Z.land (b / 2 + 128 * 1) 85 = Z.land (b / 2) 85)). vm_compute. reflexivity. }
  unfold pairs1 at 1. fold (pairs1 <$> bs). rewrite <- IH. lia.
Qed.

(** Pairs of counts stay in nibbles of at most 4. *)
Lemma pairs2_ok bs : bytes_ok bs ->
  Z.land (le_val bs) (le_val (replicate (length bs) 0x33)) +
  Z.land (Z.shiftr (le_val bs) 2) (le_val (replicate (length bs) 0x33)) = le_val (pairs2 <$> bs).
Proof.
  induction 1 as [|b bs Hb Hbs IH]; [done|]. cbn [le_val length replicate fmap list_fmap].
  rewrite shift_split by lia. change (2 ^ 2) with 4. change (2 ^ (8 - 2)) with 64.
  pose proof (Z.mod_pos_bound (le_val bs) 4 ltac:(lia)) as Hm. unfold byte_ok in Hb.
  rewrite !land_split by (unfold byte_ok; divlia).
  assert (Z.land (b / 4 + 64 * (le_val bs mod 4)) 0x33 = Z.land (b / 4) 0x33) as ->.
  { assert (le_val bs mod 4 ∈ [0; 1; 2; 3]) as Hin.
    { rewrite !elem_of_cons. lia. }
    revert Hin. generalize (le_val bs mod 4). apply Forall_forall. revert b Hb.
    apply (byte_cases (fun b => Forall (fun t => Z.land (b / 4 + 64 * t) 0x33 = Z.land (b / 4) 0x33) [0; 1; 2; 3])).
    vm_compute. reflexivity. }
  unfold pairs2 at 1. fold (pairs2 <$> bs). rewrite <- IH. lia.
Qed.

Definition nibbles_ok (b : Z) : Prop := 0 <= b <= 68 /\ b mod 16 <= 4.

Lemma pairs4_ok bs : Forall nibbles_ok bs ->
  Z.land (le_val bs + Z.shiftr (le_val bs) 4) (le_val (replicate (length bs) 0x0f)) = le_val (pairs4 <$> bs).
Proof.
  induction 1 as [|b bs [Hb Hn] Hbs IH]; [done|]. cbn [le_val length replicate fmap list_fmap].
  rewrite shift_split by lia. change (2 ^ 4) with 16. change (2 ^ (8 - 4)) with 16.
  assert (0 <= le_val bs mod 16 <= 4) as Hm.
  { destruct Hbs as [|c bs [Hc Hcn] Hbs]; cbn [le_val]; [rewrite Z.mod_0_l by lia; lia|].
    replace (c + 256 * le_val bs) with (c + 16 * le_val bs * 16) by lia. rewrite Z.mod_add by lia.
    pose proof (Z.mod_pos_bound c 16 ltac:(lia)). lia. }
  replace (b + 256 * le_val bs + (b / 16 + 16 * (le_val bs mod 16) + 256 * Z.shiftr (le_val bs) 4))
    with ((b + b / 16 + 16 * (le_val bs mod 16)) + 256 * (le_val bs + Z.shiftr (le_val bs) 4)) by lia.
  rewrite land_split by (unfold byte_ok; divlia). unfold pairs4 at 1. fold (pairs4 <$> bs). rewrite <- IH. f_equal.
  rewrite !land_15. replace (16 * (le_val bs mod 16)) with ((le_val bs mod 16) * 16) by lia. by apply Z.mod_add.
Qed.

(** The three steps count the bits of every byte. *)
Lemma pairs_byte b : byte_ok b ->
  byte_ok (pairs1 b) /\ nibbles_ok (pairs2 (pairs1 b)) /\ pairs4 (pairs2 (pairs1 b)) = ones (byte_bits b).
Proof.
  revert b. apply (byte_cases (fun b => byte_ok (pairs1 b) /\ nibbles_ok (pairs2 (pairs1 b)) /\
    pairs4 (pairs2 (pairs1 b)) = ones (byte_bits b))). vm_compute. reflexivity.
Qed.

Lemma aux_ok bs : bytes_ok bs -> length bs = 4%nat ->
  aux_bytes (aux_pairs (le_val bs)) = le_val ((fun b => ones (byte_bits b)) <$> bs).
Proof.
  intros Hbs Hlen.
  assert (bytes_ok (pairs1 <$> bs)) as H1.
  { apply Forall_fmap. eapply Forall_impl; [exact Hbs|]. intros b Hb. by apply pairs_byte. }
  assert (Forall nibbles_ok (pairs2 <$> (pairs1 <$> bs))) as H2.
  { rewrite <- list_fmap_compose. apply Forall_fmap. eapply Forall_impl; [exact Hbs|]. intros b Hb. by apply pairs_byte. }
  assert (forall f : Z -> Z, zlen (f <$> bs) = 4) as Hl by (intros f; rewrite zlen_fmap; unfold zlen; lia).
  assert (aux_pairs (le_val bs) = le_val (pairs2 <$> (pairs1 <$> bs))) as ->.
  { unfold aux_pairs. pose proof (pairs1_ok bs Hbs) as P1. rewrite Hlen in P1.
    change (le_val (replicate 4 0x55)) with 0x55555555 in P1. rewrite P1.
    pose proof (le_val_bound _ H1) as B1. rewrite Hl in B1. change (8 * 4) with 32 in B1.
    unfold u32. rewrite (uwrap_small 32 (le_val (pairs1 <$> bs))) by done.
    pose proof (pairs2_ok _ H1) as P2. rewrite length_fmap, Hlen in P2.
    change (le_val (replicate 4 0x33)) with 0x33333333 in P2. rewrite P2. apply uwrap_small.
    assert (bytes_ok (pairs2 <$> (pairs1 <$> bs))) as B2.
    { eapply Forall_impl; [exact H2|]. intros b [Hb _]. unfold byte_ok. lia. }
    apply le_val_bound in B2. rewrite <- list_fmap_compose, Hl in B2. by rewrite <- list_fmap_compose. }
  unfold aux_bytes. pose proof (pairs4_ok _ H2) as P4. rewrite !length_fmap, Hlen in P4.
  change (le_val (replicate 4 0x0f)) with 0x0F0F0F0F in P4.
  assert (u32 (le_val (pairs2 <$> (pairs1 <$> bs)) + Z.shiftr (le_val (pairs2 <$> (pairs1 <$> bs))) 4) =
    le_val (pairs2 <$> (pairs1 <$> bs)) + Z.shiftr (le_val (pairs2 <$> (pairs1 <$> bs))) 4) as ->.
  { apply uwrap_small. rewrite shiftr_div by lia.
    assert (0 <= le_val (pairs2 <$> (pairs1 <$> bs)) <= 68 * 0x01010101) as Hb; [|unfold in_u; change (2 ^ 4) with 16; divlia].
    destruct bs as [|b0 [|b1 [|b2 [|b3 [|? ?]]]]]; try done. cbn [fmap list_fmap le_val] in *.
    rewrite !Forall_cons in H2. destruct H2 as ([? _] & [? _] & [? _] & [? _] & _). lia. }
  rewrite P4. f_equal. rewrite <- !list_fmap_compose. apply list_fmap_ext. intros i b Hb. cbn.
  rewrite Forall_lookup in Hbs. by apply pairs_byte, (Hbs i).
Qed.

Lemma ones_byte b : 0 <= ones (byte_bits b) <= 8.
Proof.
  unfold ones, zlen. pose proof (length_filter (fun b => b = true) (byte_bits b)) as Hl.
  change (length (byte_bits b)) with 8%nat in Hl. lia.
Qed.

(** Four byte counts of at most 56 are added up by the multiplication. *)
Lemma word_sum c0 c1 c2 c3 : 0 <= c0 <= 56 -> 0 <= c1 <= 56 -> 0 <= c2 <= 56 -> 0 <= c3 <= 56 ->
  Z.shiftr (u32 (u32 (c0 + 256 * (c1 + 256 * (c2 + 256 * c3))) * 0x01010101)) 24 = c0 + c1 + c2 + c3.
Proof.
  intros H0 H1 H2 H3. unfold u32. rewrite (uwrap_small 32 (c0 + _)) by (unfold in_u; lia).
  rewrite shiftr_div by lia. unfold uwrap.
  set (low := c0 + 256 * (c0 + c1) + 65536 * (c0 + c1 + c2)). set (sum := c0 + c1 + c2 + c3).
  set (high := (c1 + c2 + c3) + 256 * (c2 + c3) + 65536 * c3).
  replace ((c0 + 256 * (c1 + 256 * (c2 + 256 * c3))) * 16843009) with (low + 2 ^ 24 * sum + high * 2 ^ 32)
    by (unfold low, sum, high; lia).
  rewrite Z.mod_add by lia. rewrite Z.mod_small by (unfold low, sum; lia).
  replace (low + 2 ^ 24 * sum) with (low + sum * 2 ^ 24) by lia. rewrite Z.div_add by lia.
  rewrite Z.div_small by (unfold low; lia). lia.
Qed.

(** The counts of a word and its bits. *)
Lemma word_counts s p : bytes_ok s -> 0 <= p -> p + 4 <= zlen s ->
  exists w c0 c1 c2 c3, load32 s p = Some w /\ aux_bytes (aux_pairs w) = c0 + 256 * (c1 + 256 * (c2 + 256 * c3)) /\
    0 <= c0 <= 8 /\ 0 <= c1 <= 8 /\ 0 <= c2 <= 8 /\ 0 <= c3 <= 8 /\
    ones (bits_of (slice s p 4)) = c0 + c1 + c2 + c3.
Proof.
  intros Hs Hp Hlen. unfold load32. rewrite mem_read_Some by lia. cbn [fmap option_fmap option_map].
  pose proof (zlen_slice s p 4 ltac:(lia) ltac:(lia) ltac:(lia)) as Hl. pose proof (bytes_ok_slice s p 4 Hs) as Hb.
  destruct (slice s p 4) as [|b0 [|b1 [|b2 [|b3 [|? ?]]]]]; try (unfold zlen in Hl; cbn in Hl; lia).
  eexists _, (ones (byte_bits b0)), (ones (byte_bits b1)), (ones (byte_bits b2)), (ones (byte_bits b3)).
  split; [done|]. rewrite aux_ok by done. pose proof (ones_byte b0). pose proof (ones_byte b1).
  pose proof (ones_byte b2). pose proof (ones_byte b3). split_and!; try lia.
  - cbn [fmap list_fmap le_val]. lia.
  - rewrite !bits_of_cons, !ones_app. change (ones (bits_of [])) with 0. lia.
Qed.

(** One round of the loop over words. *)
Lemma pop_words_step fuel s p count bits : bytes_ok s -> 0 <= p -> p + 28 <= zlen s -> 28 <= count ->
  pop_words (S fuel) s p count bits =
  pop_words fuel s (p + 28) (count - 28) (bits + ones (bits_of (slice s p 28))).
Proof.
  intros Hs Hp Hlen Hc. cbn [pop_words]. rewrite decide_True by lia.
  destruct (word_counts s p Hs) as (w1 & a1 & b1 & c1 & d1 & -> & E1 & ? & ? & ? & ? & O1); [lia..|].
  destruct (word_counts s (p + 4) Hs) as (w2 & a2 & b2 & c2 & d2 & -> & E2 & ? & ? & ? & ? & O2); [lia..|].
  destruct (word_counts s (p + 8) Hs) as (w3 & a3 & b3 & c3 & d3 & -> & E3 & ? & ? & ? & ? & O3); [lia..|].
  destruct (word_counts s (p + 12) Hs) as (w4 & a4 & b4 & c4 & d4 & -> & E4 & ? & ? & ? & ? & O4); [lia..|].
  destruct (word_counts s (p + 16) Hs) as (w5 & a5 & b5 & c5 & d5 & -> & E5 & ? & ? & ? & ? & O5); [lia..|].
  destruct (word_counts s (p + 20) Hs) as (w6 & a6 & b6 & c6 & d6 & -> & E6 & ? & ? & ? & ? & O6); [lia..|].
  destruct (word_counts s (p + 24) Hs) as (w7 & a7 & b7 & c7 & d7 & -> & E7 & ? & ? & ? & ? & O7); [lia..|].
  cbn [mbind option_bind]. rewrite E1, E2, E3, E4, E5, E6, E7. f_equal. f_equal.
  match goal with |- context [u32 ?x] => lazymatch x with u32 _ * _ => fail | _ =>
    replace x with ((a1 + a2 + a3 + a4 + a5 + a6 + a7) + 256 * ((b1 + b2 + b3 + b4 + b5 + b6 + b7) +
      256 * ((c1 + c2 + c3 + c4 + c5 + c6 + c7) + 256 * (d1 + d2 + d3 + d4 + d5 + d6 + d7)))) by ring end end.
  rewrite word_sum by lia.
  change 28 with (4 + (4 + (4 + (4 + (4 + (4 + 4)))))). rewrite !slice_split by lia. rewrite <- !Z.add_assoc.
  rewrite !bits_of_app, !ones_app.
  change (4 + 4) with 8. change (4 + 8) with 12. change (4 + 12) with 16. change (4 + 16) with 20. change (4 + 20) with 24.
  rewrite O1, O2, O3, O4, O5, O6, O7. lia.
Qed.

Lemma pop_words_ok s : bytes_ok s -> forall fuel p count bits, 0 <= p -> 0 <= count -> p + count <= zlen s ->
  count <= Z.of_nat fuel ->
  exists n, 0 <= n <= count /\ pop_words fuel s p count bits = Some (p + n, count - n, bits + ones (bits_of (slice s p n))).
Proof.
  intros Hs. induction fuel as [|fuel IH]; intros p count bits Hp Hc Hlen Hfuel.
  { exists 0. split; [lia|]. cbn [pop_words]. rewrite decide_False by lia.
    change (slice s p 0) with (@nil Z). change (ones (bits_of [])) with 0. by rewrite !Z.add_0_r, Z.sub_0_r. }
  destruct (decide (count >= 28)) as [Hge|Hlt].
  - rewrite pop_words_step by (done || lia).
    destruct (IH (p + 28) (count - 28) (bits + ones (bits_of (slice s p 28)))) as (n & Hn & ->); [lia..|].
    exists (28 + n). split; [lia|]. rewrite slice_split, bits_of_app, ones_app by lia.
    do 2 f_equal; [f_equal; lia|lia].
  - exists 0. split; [lia|]. cbn [pop_words]. rewrite decide_False by lia.
    change (slice s p 0) with (@nil Z). change (ones (bits_of [])) with 0. by rewrite !Z.add_0_r, Z.sub_0_r.
Qed.

Lemma slice_head (s : bytes) p b n : peek s p = Some b -> 0 <= n -> slice s p (1 + n) = b :: slice s (p + 1) n.
Proof.
  intros Hb Hn. apply peek_inv in Hb as [Hp Hb]. rewrite slice_split by lia.
  change (b :: slice s (p + 1) n) with ([b] ++ slice s (p + 1) n). f_equal. unfold slice.
  rewrite (drop_S _ _ _ Hb). done.
Qed.

Lemma pop_byte s p : bytes_ok s -> 0 <= p < zlen s ->
  exists b, peek s p = Some b /\ byte_ok b /\ peek bitsinbyte b = Some (ones (byte_bits b)).
Proof.
  intros Hs Hp. destruct (peek_Some s p Hp) as [b Hb]. exists b. pose proof (peek_inv _ _ _ Hb) as [_ Hl].
  pose proof (proj1 (Forall_lookup _ _) Hs _ _ Hl) as Hbyte. split_and!; [done..|]. by apply bitsinbyte_ok.
Qed.

Lemma pop_tail_ok s : bytes_ok s -> forall count p bits, 0 <= p -> p + Z.of_nat count <= zlen s ->
  pop_tail count s p bits = Some (bits + ones (bits_of (slice s p (Z.of_nat count)))).
Proof.
  intros Hs. induction count as [|count IH]; intros p bits Hp Hlen; cbn [pop_tail].
  { change (slice s p (Z.of_nat 0)) with (@nil Z). change (ones (bits_of [])) with 0. f_equal. lia. }
  destruct (pop_byte s p Hs) as (b & Hb & _ & Hn); [lia|]. rewrite Hb. cbn [mbind option_bind].
  rewrite Hn. cbn [mbind option_bind]. rewrite IH by lia.
  replace (Z.of_nat (S count)) with (1 + Z.of_nat count) by lia. rewrite (slice_head _ _ _ _ Hb) by lia.
  rewrite bits_of_cons, ones_app. f_equal. lia.
Qed.

Lemma pop_head_ok s addr : bytes_ok s -> forall count p bits, 0 <= p -> p + Z.of_nat count <= zlen s ->
  exists n, (n <= count)%nat /\
    pop_head count addr s p bits = Some (p + Z.of_nat n, (count - n)%nat, bits + ones (bits_of (slice s p (Z.of_nat n)))).
Proof.
  intros Hs. induction count as [|count IH]; intros p bits Hp Hlen; cbn [pop_head].
  { exists 0%nat. split; [done|]. change (slice s p (Z.of_nat 0)) with (@nil Z). change (ones (bits_of [])) with 0.
    change (Z.of_nat 0) with 0. by rewrite !Z.add_0_r, ?Nat.sub_0_r. }
  case_decide.
  { exists 0%nat. split; [lia|]. change (slice s p (Z.of_nat 0)) with (@nil Z). change (ones (bits_of [])) with 0.
    change (Z.of_nat 0) with 0. by rewrite !Z.add_0_r, ?Nat.sub_0_r. }
  destruct (pop_byte s p Hs) as (b & Hb & _ & Hn); [lia|]. rewrite Hb. cbn [mbind option_bind].
  rewrite Hn. cbn [mbind option_bind].
  destruct (IH (p + 1) (bits + ones (byte_bits b))) as (n & Hle & ->); [lia..|]. exists (S n). split; [lia|].
  replace (Z.of_nat (S n)) with (1 + Z.of_nat n) by lia. rewrite (slice_head _ _ _ _ Hb) by lia.
  rewrite bits_of_cons, ones_app. do 2 f_equal; [f_equal; lia|lia].
Qed.

Lemma redisPopcount_ok addr s count : bytes_ok s -> (count <= length s)%nat ->
  redisPopcount addr s count = Some (ones (bits_of (take count s))).
Proof.
  intros Hs Hc. unfold redisPopcount.
  destruct (pop_head_ok s addr Hs count 0 0) as (n & Hn & ->); [lia|unfold zlen; lia|]. cbn [mbind option_bind].
  destruct (pop_words_ok s Hs (count - n) (0 + Z.of_nat n) (Z.of_nat (count - n))
    (0 + ones (bits_of (slice s 0 (Z.of_nat n))))) as (k & Hk & ->); [lia|lia|unfold zlen; lia|lia|].
  cbn [mbind option_bind]. rewrite pop_tail_ok by (done || (unfold zlen; lia)). f_equal. rewrite Z2Nat.id by lia.
  assert (take count s = slice s 0 (Z.of_nat n + (k + (Z.of_nat (count - n) - k)))) as ->.
  { unfold slice. cbn [Z.to_nat drop]. f_equal. lia. }
  rewrite !slice_split, !bits_of_app, !ones_app by lia. lia.
Qed.

(** ** The first bit *)

(** [r] is the index of the first [b] in [l], or the length of [l]. *)
Definition is_first (b : bool) (l : list bool) (r : nat) : Prop :=
  (r <= length l)%nat /\ (forall i, (i < r)%nat -> l !! i = Some (negb b)) /\
  (l !! r = Some b \/ r = length l).

Lemma is_first_app b l1 l2 r : (forall i, (i < length l1)%nat -> l1 !! i = Some (negb b)) ->
  is_first b l2 r -> is_first b (l1 ++ l2) (length l1 + r).
Proof.
  intros H1 (Hr & H2 & Hend). split_and!.
  - rewrite length_app. lia.
  - intros i Hi. destruct (decide (i < length l1)%nat).
    + rewrite lookup_app_l by done. by apply H1.
    + rewrite lookup_app_r by lia. apply H2. lia.
  - rewrite length_app. destruct Hend as [Hend| ->]; [left|by right].
    rewrite lookup_app_r by lia. by replace (length l1 + r - length l1)%nat with r by lia.
Qed.

Lemma length_bits_of s : length (bits_of s) = (8 * length s)%nat.
Proof. induction s as [|b s IH]; [done|]. rewrite bits_of_cons, length_app, IH. cbn [length byte_bits fmap list_fmap]. lia. Qed.

(** A byte without [b]. *)
Definition skip_byte (b : bool) : Z := if b then 0 else 255.

Lemma skip_byte_bits b n : forall i, (i < 8 * n)%nat -> bits_of (replicate n (skip_byte b)) !! i = Some (negb b).
Proof.
  induction n as [|n IH]; intros i Hi; [lia|]. cbn [replicate]. rewrite bits_of_cons. destruct (decide (i < 8)%nat).
  - rewrite lookup_app_l by done. destruct b; do 8 (destruct i as [|i]; [done|]); lia.
  - rewrite lookup_app_r by (change (length (byte_bits (skip_byte b))) with 8%nat; lia).
    change (length (byte_bits (skip_byte b))) with 8%nat. apply IH. lia.
Qed.

(** A byte with only other bits is the skipped one. *)
Lemma other_byte c b : byte_ok c -> (forall i, (i < 8)%nat -> byte_bits c !! i = Some (negb b)) -> c = skip_byte b.
Proof.
  intros Hc Hall. assert (byte_bits c = replicate 8 (negb b)) as Hbits.
  { apply list_eq_same_length with (n := 8%nat); [done|done|]. intros i x y Hi Hx Hy.
    rewrite Hall in Hx by done. apply lookup_replicate in Hy as [-> _]. congruence. }
  revert c Hc Hbits Hall. destruct b; intros c Hc Hbits _; revert c Hc Hbits.
  - apply (byte_cases (fun c => byte_bits c = replicate 8 false -> c = 0)). vm_compute. reflexivity.
  - apply (byte_cases (fun c => byte_bits c = replicate 8 true -> c = 255)). vm_compute. reflexivity.
Qed.

Lemma skip_head_ok s addr b : bytes_ok s -> forall count c pos, 0 <= c -> c + Z.of_nat count <= zlen s ->
  exists n found, (n <= count)%nat /\
    skip_head count addr s (skip_byte b) c pos = Some (c + Z.of_nat n, (count - n)%nat, pos + 8 * Z.of_nat n, found) /\
    slice s c (Z.of_nat n) = replicate n (skip_byte b) /\
    (found = true -> (n < count)%nat /\ exists x, peek s (c + Z.of_nat n) = Some x /\ x <> skip_byte b).
Proof.
  intros Hs. induction count as [|count IH]; intros c pos Hc Hlen; cbn [skip_head].
  { exists 0%nat, false. split_and!; [done| |done|done]. change (Z.of_nat 0) with 0. by rewrite Z.mul_0_r, !Z.add_0_r. }
  case_decide.
  { exists 0%nat, false. split_and!; [lia| |done|done]. change (Z.of_nat 0) with 0. by rewrite Z.mul_0_r, !Z.add_0_r. }
  destruct (peek_Some s c) as [x Hx]; [lia|]. rewrite Hx. cbn [mbind option_bind]. case_decide as Hne.
  - exists 0%nat, true. change (Z.of_nat 0) with 0. rewrite Z.mul_0_r, !Z.add_0_r. split_and!; [lia|done|done|].
    intros _. split; [lia|]. by exists x.
  - assert (x = skip_byte b) as -> by (destruct (decide (x = skip_byte b)); [done|contradiction]).
    destruct (IH (c + 1) (pos + 8)) as (n & found & Hn & -> & Hsl & Hf); [lia..|]. exists (S n), found.
    replace (Z.of_nat (S n)) with (1 + Z.of_nat n) by lia. split_and!.
    + lia.
    + do 2 f_equal. f_equal; [f_equal; lia|lia].
    + rewrite (slice_head _ _ _ _ Hx) by lia. by rewrite Hsl.
    + intros Hft. destruct (Hf Hft) as [Hlt (y & Hy & Hyne)]. split; [lia|]. exists y. split; [|done].
      by replace (c + (1 + Z.of_nat n)) with (c + 1 + Z.of_nat n) by lia.
Qed.

(** A word of skipped bytes has the skipped value. *)
Lemma skip_word bs (b : bool) : bytes_ok bs -> length bs = 8%nat ->
  le_val bs = (if b then 0 else ULLONG_MAX) <-> bs = replicate 8 (skip_byte b).
Proof.
  intros Hb Hl. split; [|intros ->; by destruct b]. intros Hv. rewrite <- (le_bytes_le_val bs Hb), Hl, Hv. by destruct b.
Qed.

Lemma skip_words_ok s (b : bool) : bytes_ok s -> forall fuel l count pos, 0 <= l -> 0 <= count -> l + count <= zlen s ->
  count <= Z.of_nat fuel ->
  exists n, 8 * Z.of_nat n <= count /\
    skip_words fuel s (if b then 0 else ULLONG_MAX) l count pos = Some (l + 8 * Z.of_nat n, count - 8 * Z.of_nat n, pos + 64 * Z.of_nat n) /\
    slice s l (8 * Z.of_nat n) = replicate (8 * n) (skip_byte b) /\
    (count - 8 * Z.of_nat n >= 8 -> slice s (l + 8 * Z.of_nat n) 8 <> replicate 8 (skip_byte b)).
Proof.
  intros Hs. induction fuel as [|fuel IH]; intros l count pos Hl Hc Hlen Hfuel; cbn [skip_words].
  { rewrite decide_False by lia. exists 0%nat. change (Z.of_nat 0) with 0.
    rewrite !Z.mul_0_r, !Z.add_0_r, Z.sub_0_r. split_and!; [lia|done|done|lia]. }
  case_decide as Hge.
  2: { exists 0%nat. change (Z.of_nat 0) with 0. rewrite !Z.mul_0_r, !Z.add_0_r, Z.sub_0_r. split_and!; [lia|done|done|lia]. }
  rewrite mem_read_Some by lia. cbn [fmap option_fmap option_map mbind option_bind].
  pose proof (zlen_slice s l 8 ltac:(lia) ltac:(lia) ltac:(lia)) as Hzl. pose proof (bytes_ok_slice s l 8 Hs) as Hb8.
  pose proof (skip_word (slice s l 8) b Hb8 ltac:(unfold zlen in Hzl; lia)) as Hw. case_decide as Hne.
  - exists 0%nat. change (Z.of_nat 0) with 0. rewrite !Z.mul_0_r, !Z.add_0_r, Z.sub_0_r. split_and!; [lia|done|done|].
    intros _ Heq. apply Hne. by apply Hw.
  - assert (slice s l 8 = replicate 8 (skip_byte b)) as Heq.
    { apply Hw. destruct (decide (le_val (slice s l 8) = (if b then 0 else ULLONG_MAX))); [done|contradiction]. }
    destruct (IH (l + 8) (count - 8) (pos + 64)) as (n & Hn & -> & Hsl & Hend); [lia..|]. exists (S n). split_and!.
    + lia.
    + f_equal. f_equal; [f_equal; lia|lia].
    + replace (8 * Z.of_nat (S n)) with (8 + 8 * Z.of_nat n) by lia. rewrite slice_split by lia. rewrite Heq, Hsl.
      rewrite <- replicate_add. f_equal. lia.
    + intros Hc'. replace (l + 8 * Z.of_nat (S n)) with (l + 8 + 8 * Z.of_nat n) by lia. apply Hend. lia.
Qed.

(** The value of bytes with the first one the most significant. *)
Definition be_val (acc : Z) (bs : bytes) : Z := fold_left (fun a b => a * 256 + b) bs acc.

Lemma be_val_bound bs acc n : bytes_ok bs -> 0 <= acc < 2 ^ n -> 0 <= n -> 0 <= be_val acc bs < 2 ^ (n + 8 * zlen bs).
Proof.
  intros Hb. revert acc n. induction Hb as [|b bs Hb Hbs IH]; intros acc n Ha Hn; cbn [be_val fold_left].
  { change (zlen (@nil Z)) with 0. by rewrite Z.mul_0_r, Z.add_0_r. }
  replace (n + 8 * zlen (b :: bs)) with ((n + 8) + 8 * zlen bs) by (rewrite zlen_cons; lia). apply IH; [|lia].
  rewrite Z.pow_add_r by lia. change (2 ^ 8) with 256. unfold byte_ok in Hb. nia.
Qed.

Lemma testbit_cons a b n : byte_ok b -> 0 <= n ->
  Z.testbit (a * 256 + b) n = if decide (n < 8) then Z.testbit b n else Z.testbit a (n - 8).
Proof.
  intros Hb Hn. replace (a * 256 + b) with (Z.lor b (Z.shiftl a 8)) by (rewrite lor_shiftl_add by (unfold byte_ok in *; lia); lia).
  rewrite Z.lor_spec, Z.shiftl_spec by lia. case_decide.
  - rewrite (Z.testbit_neg_r a) by lia. apply orb_false_r.
  - assert (Z.testbit b n = false) as ->; [|done]. rewrite <- (Z.mod_small b (2 ^ 8)) by (unfold byte_ok in *; lia).
    apply Z.mod_pow2_bits_high. lia.
Qed.

Lemma byte_bits_lookup c i : (i < 8)%nat -> byte_bits c !! i = Some (Z.testbit c (7 - Z.of_nat i)).
Proof. intros Hi. do 8 (destruct i as [|i]; [done|]). lia. Qed.

(** Bit [i] from the left is bit [8 * length - 1 - i] of the value. *)
Lemma be_val_bits bs acc i : bytes_ok bs -> (i < 8 * length bs)%nat ->
  bits_of bs !! i = Some (Z.testbit (be_val acc bs) (8 * zlen bs - 1 - Z.of_nat i)).
Proof.
  intros Hb. revert i acc. induction bs as [|b bs IH] using rev_ind; intros i acc Hi; [cbn in Hi; lia|].
  apply Forall_app in Hb as [Hbs [Hb _]%Forall_cons]. rewrite length_app in Hi. change (length [b]) with 1%nat in Hi.
  rewrite bits_of_app, zlen_app. change (zlen [b]) with 1.
  assert (be_val acc (bs ++ [b]) = be_val acc bs * 256 + b) as -> by (unfold be_val; by rewrite fold_left_app).
  rewrite testbit_cons by (done || (unfold zlen; lia)). destruct (decide (i < 8 * length bs)%nat).
  - rewrite lookup_app_l by (rewrite length_bits_of; lia). rewrite decide_False by (unfold zlen; lia).
    rewrite (IH Hbs i acc) by lia. do 2 f_equal. lia.
  - rewrite lookup_app_r by (rewrite length_bits_of; lia). rewrite length_bits_of, decide_True by (unfold zlen; lia).
    change (bits_of [b]) with (byte_bits b ++ []). rewrite app_nil_r, byte_bits_lookup by lia. do 2 f_equal.
    unfold zlen. lia.
Qed.

(** The bytes of the last word, padded with zeroes. *)
Definition last_word (j : nat) (s : bytes) (c count : Z) : bytes :=
  slice s c (Z.min (Z.of_nat j) count) ++ replicate (j - Z.to_nat count) 0.

Lemma load_word_ok s : bytes_ok s -> forall j c count word, 0 <= c -> 0 <= count -> c + count <= zlen s ->
  0 <= word < 2 ^ (8 * (8 - Z.of_nat j)) -> (j <= 8)%nat ->
  load_word j s c count word = Some (be_val word (last_word j s c count)).
Proof.
  intros Hs. induction j as [|j IH]; intros c count word Hc Hcount Hlen Hw Hj; cbn [load_word].
  { unfold last_word. rewrite Z.min_l by lia. done. }
  assert (2 ^ (8 * (8 - Z.of_nat j)) = 256 * 2 ^ (8 * (8 - Z.of_nat (S j)))) as Hpow.
  { replace (8 * (8 - Z.of_nat j)) with (8 + 8 * (8 - Z.of_nat (S j))) by lia. rewrite Z.pow_add_r by lia. done. }
  assert (2 ^ (8 * (8 - Z.of_nat j)) <= 2 ^ 64) as Hle by (apply Z.pow_le_mono_r; lia).
  assert (u64 (Z.shiftl word 8) = word * 256) as ->.
  { rewrite Z.shiftl_mul_pow2 by lia. change (2 ^ 8) with 256. apply uwrap_small. unfold in_u. lia. }
  case_decide as Hz.
  - destruct (peek_Some s c) as [b Hb]; [lia|]. rewrite Hb. cbn [mbind option_bind].
    pose proof (peek_inv _ _ _ Hb) as [_ Hl]. pose proof (proj1 (Forall_lookup _ _) Hs _ _ Hl) as Hbyte. unfold byte_ok in Hbyte.
    replace (Z.lor (word * 256) b) with (word * 256 + b).
    2: { rewrite Z.lor_comm. replace (word * 256) with (Z.shiftl word 8) by (rewrite Z.shiftl_mul_pow2; lia).
         rewrite lor_shiftl_add, Z.shiftl_mul_pow2 by lia. lia. }
    rewrite IH by lia. unfold last_word.
    replace (Z.min (Z.of_nat (S j)) count) with (1 + Z.min (Z.of_nat j) (count - 1)) by lia.
    rewrite (slice_head _ _ _ _ Hb) by lia. cbn [app be_val fold_left].
    by replace (S j - Z.to_nat count)%nat with (j - Z.to_nat (count - 1))%nat by lia.
  - assert (count = 0) as -> by lia. rewrite IH by lia. unfold last_word. rewrite !Z.min_r by lia.
    change (slice s c 0) with (@nil Z). cbn [app]. rewrite !Nat.sub_0_r. cbn [replicate be_val fold_left].
    by rewrite Z.add_0_r.
Qed.

Lemma scan_word_ok word bit : forall n fuel pos, (S n < fuel)%nat ->
  (exists j, (j <= n)%nat /\ Z.testbit word (Z.of_nat j) = bit) ->
  exists k, (k <= n)%nat /\ scan_word fuel (2 ^ Z.of_nat n) word bit pos = Some (pos + Z.of_nat k) /\
    Z.testbit word (Z.of_nat (n - k)) = bit /\
    forall i, (i < k)%nat -> Z.testbit word (Z.of_nat (n - i)) = negb bit.
Proof.
  assert (forall n, bool_decide (Z.land (2 ^ Z.of_nat n) word <> 0) = Z.testbit word (Z.of_nat n)) as Htest.
  { intros n. destruct (Z.testbit word (Z.of_nat n)) eqn:E.
    - apply bool_decide_true. intros H0. assert (Z.testbit (Z.land (2 ^ Z.of_nat n) word) (Z.of_nat n) = true) as H1.
      { rewrite Z.land_spec, E, Z.pow2_bits_true by lia. done. }
      rewrite H0, Z.bits_0 in H1. done.
    - apply bool_decide_false. intros H0. apply H0. apply Z.bits_inj'. intros i Hi. rewrite Z.land_spec, Z.bits_0.
      destruct (decide (i = Z.of_nat n)) as [->|Hne]; [by rewrite E, andb_false_r|]. by rewrite Z.pow2_bits_false. }
  induction n as [|n IH]; intros fuel pos Hf (j & Hj & Hjb); (destruct fuel as [|fuel]; [lia|]); cbn [scan_word].
  - assert (j = 0)%nat as -> by lia. rewrite decide_False by done. rewrite Htest, Hjb, bool_decide_true by done.
    exists 0%nat. rewrite Z.add_0_r. split_and!; [done..|]. intros; lia.
  - rewrite decide_False by (pose proof (Z.pow_pos_nonneg 2 (Z.of_nat (S n))); lia). rewrite Htest. case_bool_decide as E.
    + exists 0%nat. rewrite Z.add_0_r, Nat.sub_0_r. split_and!; [lia|done|done|]. intros; lia.
    + replace (Z.shiftr (2 ^ Z.of_nat (S n)) 1) with (2 ^ Z.of_nat n).
      2: { rewrite shiftr_div by lia. replace (Z.of_nat (S n)) with (Z.of_nat n + 1) by lia.
           rewrite Z.pow_add_r by lia. by rewrite Z.div_mul. }
      destruct (IH fuel (pos + 1)) as (k & Hk & -> & Hb & Hall); [lia| |].
      { exists j. split; [|done]. destruct (decide (j = S n)) as [->|]; [done|lia]. }
      exists (S k). split_and!; [lia|f_equal; lia|done|]. intros [|i] Hi.
      * rewrite Nat.sub_0_r. destruct (Z.testbit word (Z.of_nat (S n))), bit; done || (exfalso; by apply E).
      * cbn [Nat.sub]. apply Hall. lia.
Qed.

Lemma exists_bit b bs : bytes_ok bs -> bs <> replicate (length bs) (skip_byte b) ->
  exists i, (i < 8 * length bs)%nat /\ bits_of bs !! i = Some b.
Proof.
  induction 1 as [|c bs Hc Hbs IH]; intros Hne; [done|]. cbn [length replicate] in Hne.
  destruct (decide (c = skip_byte b)) as [->|Hcne].
  - destruct IH as (i & Hi & Hb); [congruence|]. exists (8 + i)%nat. split; [cbn [length]; lia|].
    rewrite bits_of_cons, lookup_app_r by (change (length (byte_bits (skip_byte b))) with 8%nat; lia).
    change (length (byte_bits (skip_byte b))) with 8%nat. by replace (8 + i - 8)%nat with i by lia.
  - destruct (decide (Exists (fun x => x = b) (byte_bits c))) as [He|He].
    + apply Exists_exists in He as (x & (i & Hi)%list_elem_of_lookup & ->).
      pose proof (lookup_lt_Some _ _ _ Hi) as Hlt. change (length (byte_bits c)) with 8%nat in Hlt. exists i.
      split; [cbn [length]; lia|]. by rewrite bits_of_cons, lookup_app_l.
    + exfalso. apply Hcne, other_byte; [done|]. intros i Hi. rewrite byte_bits_lookup by done. f_equal.
      destruct (Z.testbit c (7 - Z.of_nat i)) eqn:E, b; try done; exfalso; apply He, Exists_exists.
      * exists true. split; [|done]. eapply (list_elem_of_lookup_2 _ i). by rewrite byte_bits_lookup, E.
      * exists false. split; [|done]. eapply (list_elem_of_lookup_2 _ i). by rewrite byte_bits_lookup, E.
Qed.

(** The scan of the last word finds its first [b]. *)
Lemma scan_last_word bs b pos : bytes_ok bs -> length bs = 8%nat ->
  (exists i, (i < 64)%nat /\ bits_of bs !! i = Some b) ->
  exists k, (k < 64)%nat /\ bits_of bs !! k = Some b /\ (forall i, (i < k)%nat -> bits_of bs !! i = Some (negb b)) /\
    scan_word 65 (u64 (Z.lnot (Z.shiftr ULLONG_MAX 1))) (be_val 0 bs) b pos = Some (pos + Z.of_nat k).
Proof.
  intros Hb Hl (i & Hi & Hbi). assert (zlen bs = 8) as Hz by (unfold zlen; lia).
  assert (forall i, (i < 64)%nat -> bits_of bs !! i = Some (Z.testbit (be_val 0 bs) (Z.of_nat (63 - i)))) as Hbits.
  { intros j Hj. rewrite (be_val_bits bs 0 j Hb) by lia. do 2 f_equal. lia. }
  change (u64 (Z.lnot (Z.shiftr ULLONG_MAX 1))) with (2 ^ Z.of_nat 63).
  destruct (scan_word_ok (be_val 0 bs) b 63 65 pos) as (k & Hk & -> & Hkb & Hall); [lia| |].
  { exists (63 - i)%nat. split; [lia|]. rewrite Hbits in Hbi by done. congruence. }
  exists k. split_and!; [lia| | |done].
  - rewrite Hbits by lia. by rewrite Hkb.
  - intros j Hj. rewrite Hbits by lia. by rewrite Hall.
Qed.

(** A last word that is not to be skipped has a bit of the wanted value, unless
    it has no bit set. *)
Lemma last_word_bit s q r b : bytes_ok s -> 0 <= q -> 0 <= r -> q + r <= zlen s -> (r >= 8 -> slice s q 8 <> replicate 8 (skip_byte b)) ->
  ~ (last_word 8 s q r = replicate 8 0 /\ b = true) -> exists i, (i < 64)%nat /\ bits_of (last_word 8 s q r) !! i = Some b.
Proof.
  intros Hs Hq Hr Hlen Hne Hnz. set (lw := last_word 8 s q r) in *. set (m := Z.min 8 r).
  assert (lw = slice s q m ++ replicate (8 - Z.to_nat r) 0) as Elw by done.
  destruct (decide (lw = replicate 8 (skip_byte b))) as [E|E].
  - destruct b; [exfalso; by apply Hnz|]. exfalso. destruct (decide (r < 8)).
    + assert (0 ∈ replicate 8 (skip_byte false)) as Hin.
      { rewrite <- E, Elw. apply elem_of_app. right. apply elem_of_replicate. split; [done|lia]. }
      apply elem_of_replicate in Hin as [Hin _]. done.
    + apply Hne; [lia|]. rewrite <- E, Elw. replace (8 - Z.to_nat r)%nat with 0%nat by lia.
      unfold m. rewrite Z.min_l by lia. by rewrite app_nil_r.
  - assert (bytes_ok lw) as Hlw. { apply Forall_app. split; [by apply bytes_ok_slice|]. apply Forall_replicate. unfold byte_ok. lia. }
    assert (length lw = 8%nat) as Hll.
    { rewrite Elw, length_app, length_replicate. assert (zlen (slice s q m) = m) as Hm by (apply zlen_slice; lia). unfold zlen in Hm. lia. }
    destruct (exists_bit b lw Hlw) as (i & Hi & Hb); [by rewrite Hll|]. exists i. split; [lia|done].
Qed.

Lemma bitpos_tail s q r b pos : bytes_ok s -> 0 <= q -> 0 <= r -> q + r <= zlen s ->
  (r >= 8 -> slice s q 8 <> replicate 8 (skip_byte b)) ->
  exists k, is_first b (bits_of (slice s q r)) k /\
    (word ← load_word 8 s q r 0;
     if decide (b = true /\ word = 0) then Some (-1)
     else scan_word 65 (u64 (Z.lnot (Z.shiftr ULLONG_MAX 1))) word b pos) =
    Some (if decide (b = true /\ Z.of_nat k = 8 * r) then -1 else pos + Z.of_nat k).
Proof.
  intros Hs Hq Hr Hlen Hne. rewrite load_word_ok by (done || lia). cbn [mbind option_bind].
  set (lw := last_word 8 s q r). set (m := Z.min 8 r).
  assert (bytes_ok lw) as Hlw.
  { apply Forall_app. split; [by apply bytes_ok_slice|]. apply Forall_replicate. unfold byte_ok. lia. }
  assert (zlen (slice s q m) = m) as Hm by (apply zlen_slice; lia).
  assert (lw = slice s q m ++ replicate (8 - Z.to_nat r) 0) as Elw by done.
  assert (length lw = 8%nat) as Hll.
  { rewrite Elw, length_app, length_replicate. unfold zlen in Hm. lia. }
  assert (bits_of (slice s q r) = bits_of (slice s q m) ++ bits_of (slice s (q + m) (r - m))) as Esplit.
  { rewrite <- bits_of_app, <- slice_split by lia. do 2 f_equal. lia. }
  assert (length (bits_of (slice s q m)) = Z.to_nat (8 * m)) as Hlm.
  { rewrite length_bits_of. unfold zlen in Hm. lia. }
  assert (length (bits_of (slice s q r)) = Z.to_nat (8 * r)) as Hlr.
  { rewrite length_bits_of. pose proof (zlen_slice s q r Hq Hr Hlen) as Hz. unfold zlen in Hz. lia. }
  assert (forall i, (i < Z.to_nat (8 * m))%nat -> bits_of lw !! i = bits_of (slice s q r) !! i) as Hpre.
  { intros i Hi. rewrite Elw, bits_of_app, Esplit. rewrite !lookup_app_l by lia. done. }
  assert (forall i x, (Z.to_nat (8 * m) <= i)%nat -> bits_of lw !! i = Some x -> x = false) as Hpad.
  { intros i x Hi Hx. rewrite Elw, bits_of_app in Hx. rewrite lookup_app_r in Hx by lia.
    pose proof (lookup_lt_Some _ _ _ Hx) as Hlt. rewrite Hlm, length_bits_of, length_replicate in Hlt. rewrite Hlm in Hx.
    change 0 with (skip_byte true) in Hx. rewrite skip_byte_bits in Hx by lia. by injection Hx as <-. }
  destruct (decide (lw = replicate 8 0 /\ b = true)) as [[E0 ->]|Hnz].
  - assert (be_val 0 lw = 0) as -> by (by rewrite E0). rewrite decide_True by done.
    assert (r < 8) as Hr8.
    { destruct (decide (r < 8)); [done|]. exfalso. apply Hne; [lia|]. change (skip_byte true) with 0. rewrite <- E0, Elw.
      replace (8 - Z.to_nat r)%nat with 0%nat by lia. unfold m. rewrite Z.min_l by lia. by rewrite app_nil_r. }
    exists (Z.to_nat (8 * r)). split.
    + split_and!; [lia| |right; by rewrite Hlr]. intros i Hi. rewrite <- Hpre by lia. rewrite E0.
      change 0 with (skip_byte true). apply skip_byte_bits. lia.
    + rewrite decide_True by (split; [done|lia]). done.
  - assert (exists i, (i < 64)%nat /\ bits_of lw !! i = Some b) as Hex.
    { by apply last_word_bit. }
    destruct (scan_last_word lw b pos Hlw Hll Hex) as (k & Hk & Hkb & Hall & Hscan).
    assert (~ (b = true /\ be_val 0 lw = 0)) as Hdec.
    { intros [-> E0]. rewrite (be_val_bits lw 0 k Hlw), E0, Z.bits_0 in Hkb by lia. done. }
    rewrite decide_False by done. rewrite Hscan. destruct (decide (k < Z.to_nat (8 * m))%nat) as [Hkm|Hkm].
    + exists k. split.
      * split_and!; [lia| |left; by rewrite <- Hpre]. intros i Hi. rewrite <- Hpre by lia. by apply Hall.
      * rewrite decide_False by lia. done.
    + assert (b = false) as -> by (by eapply Hpad; [|exact Hkb]; lia).
      assert (m = r) as Hmr by lia.
      assert (k = Z.to_nat (8 * r)) as ->.
      { destruct (decide (k = Z.to_nat (8 * r))) as [|Hkne]; [done|]. exfalso.
        pose proof (Hall (Z.to_nat (8 * r)) ltac:(lia)) as Hx. apply Hpad in Hx; [done|lia]. }
      exists (Z.to_nat (8 * r)). split; [|by rewrite decide_False by (intros [? _]; discriminate)].
      split_and!; [lia| |right; by rewrite Hlr]. intros i Hi. rewrite <- Hpre by lia. by apply Hall.
Qed.

Lemma redisBitpos_ok addr s count b : bytes_ok s -> (count <= length s)%nat ->
  exists r, is_first b (bits_of (take count s)) r /\
    redisBitpos addr s count b =
    Some (if decide (b = true /\ r = (8 * count)%nat) then -1 else Z.of_nat r).
Proof.
  intros Hs Hc. unfold redisBitpos. assert ((if b then 0 else 255) = skip_byte b) as -> by done.
  destruct (skip_head_ok s addr b Hs count 0 0) as (n1 & found & Hn1 & -> & Hsl1 & Hfound); [lia|unfold zlen; lia|].
  cbn [mbind option_bind]. rewrite !Z.add_0_l.
  assert (exists n2, 8 * Z.of_nat n2 <= Z.of_nat (count - n1) /\
    (if found then Some (Z.of_nat n1, Z.of_nat (count - n1), 8 * Z.of_nat n1)
     else skip_words (count - n1) s (if b then 0 else ULLONG_MAX) (Z.of_nat n1) (Z.of_nat (count - n1)) (8 * Z.of_nat n1)) =
    Some (Z.of_nat n1 + 8 * Z.of_nat n2, Z.of_nat (count - n1) - 8 * Z.of_nat n2, 8 * Z.of_nat n1 + 64 * Z.of_nat n2) /\
    slice s (Z.of_nat n1) (8 * Z.of_nat n2) = replicate (8 * n2) (skip_byte b) /\
    (Z.of_nat (count - n1) - 8 * Z.of_nat n2 >= 8 ->
     slice s (Z.of_nat n1 + 8 * Z.of_nat n2) 8 <> replicate 8 (skip_byte b))) as (n2 & Hn2 & -> & Hsl2 & Hstop).
  { destruct found.
    - exists 0%nat. change (Z.of_nat 0) with 0. rewrite !Z.mul_0_r, !Z.add_0_r, Z.sub_0_r.
      split_and!; [lia|done|done|]. intros _ Heq. destruct (Hfound eq_refl) as [_ (x & Hx & Hxne)].
      rewrite Z.add_0_l in Hx. pose proof (slice_head _ _ _ 7 Hx ltac:(lia)) as Hcons.
      change (1 + 7) with 8 in Hcons. rewrite Hcons in Heq. cbn [replicate] in Heq. congruence.
    - apply skip_words_ok; [done|lia|lia|unfold zlen; lia|lia]. }
  cbn [mbind option_bind]. set (q := Z.of_nat n1 + 8 * Z.of_nat n2).
  set (r := Z.of_nat (count - n1) - 8 * Z.of_nat n2).
  destruct (bitpos_tail s q r b (8 * Z.of_nat n1 + 64 * Z.of_nat n2) Hs) as (k & Hk & ->);
    [lia|lia|unfold q, r, zlen; lia|done|].
  exists (8 * (n1 + 8 * n2) + k)%nat. split.
  - assert (take count s = replicate (n1 + 8 * n2) (skip_byte b) ++ slice s q r) as ->.
    { rewrite replicate_add, <- Hsl1, <- Hsl2. rewrite <- (slice_split s 0 (Z.of_nat n1)) by lia. unfold q.
      pose proof (slice_split s 0 (Z.of_nat n1 + 8 * Z.of_nat n2) r ltac:(lia) ltac:(lia) ltac:(unfold r; lia)) as Hall.
      rewrite Z.add_0_l in Hall. rewrite <- Hall.
      unfold slice. cbn [Z.to_nat drop]. f_equal. unfold r. lia. }
    rewrite bits_of_app.
    pose proof (is_first_app b (bits_of (replicate (n1 + 8 * n2) (skip_byte b))) (bits_of (slice s q r)) k) as Hfirst.
    rewrite length_bits_of, length_replicate in Hfirst. apply Hfirst; [|done]. intros i Hi. by apply skip_byte_bits.
  - f_equal. destruct (decide (b = true /\ Z.of_nat k = 8 * r)) as [[Hb Hkr]|Hn].
    + rewrite decide_True; [done|]. split; [done|]. unfold r in Hkr. lia.
    + rewrite decide_False; [lia|]. intros [Hb Hkr]. apply Hn. split; [done|]. unfold r. lia.
Qed.

(** ** Bit fields *)

Lemma bits_of_lookup p (i : nat) : bits_of p !! i = (fun c => Z.testbit c (7 - Z.of_nat (i mod 8))) <$> p !! (i / 8)%nat.
Proof.
  revert i. induction p as [|c p IH]; intros i; [done|]. rewrite bits_of_cons. destruct (decide (i < 8)%nat) as [Hi|Hi].
  - rewrite lookup_app_l by done. rewrite Nat.div_small, Nat.mod_small by done. by rewrite byte_bits_lookup.
  - rewrite lookup_app_r by (change (length (byte_bits c)) with 8%nat; lia). change (length (byte_bits c)) with 8%nat.
    rewrite IH. remember (i - 8)%nat as j eqn:Ej. assert (i = j + 1 * 8)%nat as -> by lia.
    rewrite Nat.Div0.mod_add, Nat.div_add by lia. by rewrite Nat.add_1_r.
Qed.

(** The byte and the bit of an offset. *)
Lemma offset_parts off : 0 <= off ->
  Z.to_nat (Z.shiftr off 3) = (Z.to_nat off / 8)%nat /\ 7 - Z.land off 7 = 7 - Z.of_nat (Z.to_nat off mod 8) /\
  0 <= 7 - Z.land off 7 < 8.
Proof.
  intros Hoff. rewrite shiftr_div, (land_ones_mod off 3 7) by lia. change (2 ^ 3) with 8.
  pose proof (Z.mod_pos_bound off 8 ltac:(lia)). rewrite Nat2Z.inj_mod, Z2Nat.id by lia. change (Z.of_nat 8) with 8.
  split_and!; [|done|lia|lia]. rewrite Z2Nat.inj_div by lia. done.
Qed.

(** Writing a bit into a byte. *)
Lemma set_bit_byte c k v j : byte_ok c -> 0 <= k < 8 -> 0 <= j < 8 ->
  let c' := Z.land (Z.lor (Z.land c (Z.lnot (Z.shiftl 1 k))) (Z.shiftl (if v : bool then 1 else 0) k)) 0xff in
  byte_ok c' /\ Z.testbit c' j = if decide (j = k) then v else Z.testbit c j.
Proof.
  intros Hc Hk Hj. cbn zeta. split.
  { rewrite land_255. apply Z.mod_pos_bound. lia. }
  change 0xff with (Z.ones 8). rewrite Z.land_spec, Z.lor_spec, Z.land_spec, Z.lnot_spec, Z.shiftl_spec by lia.
  rewrite Z.ones_spec_low by lia. rewrite andb_true_r, !Z.shiftl_spec by lia. case_decide as E.
  - subst j. rewrite Z.sub_diag. destruct v; cbn; by rewrite ?andb_false_r.
  - destruct (decide (j < k)).
    + rewrite !(Z.testbit_neg_r _ (j - k)) by lia. by rewrite orb_false_r, andb_true_r.
    + assert (forall x, x = 0 \/ x = 1 -> Z.testbit x (j - k) = false) as Hx.
      { intros x [-> | ->]; [apply Z.bits_0|]. rewrite <- (Z.mod_small 1 (2 ^ 1)) by lia. apply Z.mod_pow2_bits_high. lia. }
      rewrite (Hx 1) by lia. rewrite (Hx (if v then 1 else 0)) by (destruct v; lia). by rewrite orb_false_r, andb_true_r.
Qed.

Lemma land_bit value n : 0 <= n -> (if decide (Z.land value (Z.shiftl 1 n) <> 0) then 1 else 0) =
  (if Z.testbit value n then 1 else 0).
Proof.
  intros Hn. rewrite Z.shiftl_1_l. destruct (Z.testbit value n) eqn:E.
  - rewrite decide_True; [done|]. intros H0. assert (Z.testbit (Z.land value (2 ^ n)) n = true) as H1.
    { by rewrite Z.land_spec, E, Z.pow2_bits_true. }
    by rewrite H0, Z.bits_0 in H1.
  - rewrite decide_False; [done|]. intros H0. apply H0, Z.bits_inj'. intros i Hi. rewrite Z.land_spec, Z.bits_0.
    destruct (decide (i = n)) as [->|Hne]; [by rewrite E|]. rewrite Z.pow2_bits_false by done. apply andb_false_r.
Qed.

Lemma set_bits_ok : forall n p off value, bytes_ok p -> 0 <= off -> off + Z.of_nat n <= 8 * zlen p -> 8 * zlen p < 2 ^ 64 ->
  exists p', set_bits n p off value = Some p' /\ bytes_ok p' /\ zlen p' = zlen p /\
    forall i, bits_of p' !! i =
      if decide (Z.to_nat off <= i < Z.to_nat off + n)%nat
      then Some (Z.testbit value (Z.of_nat (Z.to_nat off + n - 1 - i)))
      else bits_of p !! i.
Proof.
  induction n as [|n IH]; intros p off value Hp Hoff Hlen Hb; cbn [set_bits].
  { exists p. split_and!; [done..|]. intros i. by rewrite decide_False by lia. }
  destruct (offset_parts off Hoff) as (Hbyte & Hbit & Hrange).
  assert (0 <= Z.shiftr off 3 < zlen p) as Hin by (rewrite shiftr_div by lia; change (2 ^ 3) with 8; divlia).
  destruct (peek_Some p (Z.shiftr off 3) Hin) as [c Hc]. rewrite Hc. cbn [mbind option_bind].
  pose proof (peek_inv _ _ _ Hc) as [_ Hl]. pose proof (proj1 (Forall_lookup _ _) Hp _ _ Hl) as Hcb.
  rewrite land_bit by lia.
  set (c' := Z.land (Z.lor (Z.land c (Z.lnot (Z.shiftl 1 (7 - Z.land off 7)))) (Z.shiftl (if Z.testbit value (Z.of_nat n) then 1 else 0) (7 - Z.land off 7))) 255).
  rewrite poke_Some by done. cbn [mbind option_bind]. set (p1 := <[Z.to_nat (Z.shiftr off 3):=c']> p).
  assert (byte_ok c') as Hc' by (by apply (set_bit_byte c _ _ 0); [|lia|lia]).
  assert (bytes_ok p1) as Hp1 by (by apply Forall_insert).
  assert (zlen p1 = zlen p) as Hl1 by apply zlen_insert.
  rewrite (uwrap_small 64) by (unfold in_u; lia).
  destruct (IH p1 (off + 1) value Hp1) as (p' & -> & Hp' & Hl' & Hbits); [lia..|].
  exists p'. split_and!; [done|done|lia|]. intros i. rewrite Hbits.
  assert (bits_of p1 !! i = if decide (i = Z.to_nat off) then Some (Z.testbit value (Z.of_nat n)) else bits_of p !! i) as H1.
  { rewrite !bits_of_lookup. unfold p1. rewrite Hbyte in Hl |- *. destruct (decide (i / 8 = Z.to_nat off / 8)%nat) as [Ed|Ed].
    - rewrite Ed, list_lookup_insert_eq by (by eapply lookup_lt_Some). rewrite Hl. cbn [fmap option_fmap option_map].
      pose proof (Nat.mod_upper_bound i 8 ltac:(lia)). pose proof (Nat.mod_upper_bound (Z.to_nat off) 8 ltac:(lia)).
      destruct (set_bit_byte c (7 - Z.land off 7) (Z.testbit value (Z.of_nat n)) (7 - Z.of_nat (i mod 8))) as [_ Ht]; [done|lia|lia|].
      fold c' in Ht. rewrite Ht, Hbit. pose proof (Nat.div_mod_eq i 8). pose proof (Nat.div_mod_eq (Z.to_nat off) 8).
      destruct (decide (i = Z.to_nat off)) as [->|Hne].
      + by rewrite decide_True.
      + by rewrite decide_False by lia.
    - rewrite list_lookup_insert_ne by done. rewrite decide_False by congruence. done. }
  rewrite H1. destruct (decide (i = Z.to_nat off)) as [->|Hne].
  - rewrite decide_False, decide_True by lia. do 2 f_equal. lia.
  - destruct (decide (Z.to_nat (off + 1) <= i < Z.to_nat (off + 1) + n)%nat).
    + rewrite decide_True by lia. do 2 f_equal. lia.
    + by rewrite decide_False by lia.
Qed.

Lemma get_bits_ok : forall n p off value, bytes_ok p -> 0 <= off -> off + Z.of_nat n <= 8 * zlen p -> 8 * zlen p < 2 ^ 64 ->
  0 <= value -> (value + 1) * 2 ^ Z.of_nat n <= 2 ^ 64 ->
  exists r, get_bits n p off value = Some r /\ value * 2 ^ Z.of_nat n <= r < (value + 1) * 2 ^ Z.of_nat n /\
    forall i, (i < n)%nat -> bits_of p !! (Z.to_nat off + i)%nat = Some (Z.testbit r (Z.of_nat (n - 1 - i))).
Proof.
  induction n as [|n IH]; intros p off value Hp Hoff Hlen Hb Hv Hmax; cbn [get_bits].
  { exists value. split_and!; [done|lia|lia|]. intros; lia. }
  destruct (offset_parts off Hoff) as (Hbyte & Hbit & Hrange).
  assert (0 <= Z.shiftr off 3 < zlen p) as Hin by (rewrite shiftr_div by lia; change (2 ^ 3) with 8; divlia).
  destruct (peek_Some p (Z.shiftr off 3) Hin) as [c Hc]. rewrite Hc. cbn [mbind option_bind].
  pose proof (peek_inv _ _ _ Hc) as [_ Hl].
  assert (2 ^ Z.of_nat (S n) = 2 * 2 ^ Z.of_nat n) as Hpow by (rewrite Nat2Z.inj_succ, Z.pow_succ_r by lia; lia).
  assert (0 < 2 ^ Z.of_nat n) as Hpos by (apply Z.pow_pos_nonneg; lia).
  assert (Z.land (Z.shiftr c (7 - Z.land off 7)) 1 = if Z.testbit c (7 - Z.land off 7) then 1 else 0) as ->.
  { rewrite (land_ones_mod _ 1 1) by lia. change (2 ^ 1) with 2. rewrite <- Z.bit0_mod, Z.shiftr_spec by lia. by destruct (Z.testbit _ _). }
  set (b := Z.testbit c (7 - Z.land off 7)).
  assert (Z.lor (u64 (Z.shiftl value 1)) (if b then 1 else 0) = 2 * value + if b then 1 else 0) as ->.
  { rewrite Z.shiftl_mul_pow2 by lia. change (2 ^ 1) with 2. rewrite (uwrap_small 64) by (unfold in_u; nia).
    rewrite Z.lor_comm. replace (value * 2) with (Z.shiftl value 1) by (rewrite Z.shiftl_mul_pow2; lia).
    rewrite lor_shiftl_add by (destruct b; lia). lia. }
  rewrite (uwrap_small 64) by (unfold in_u; lia).
  destruct (IH p (off + 1) (2 * value + if b then 1 else 0) Hp) as (r & -> & Hr & Hbits); [lia|lia|done|destruct b; lia|destruct b; nia|].
  exists r. split_and!; [done|destruct b; nia|destruct b; nia|]. intros [|i] Hi.
  - rewrite Nat.add_0_r, bits_of_lookup, <- Hbyte, Hl. cbn [fmap option_fmap option_map]. rewrite <- Hbit. f_equal.
    fold b. replace (S n - 1 - 0)%nat with n by lia.
    assert (Z.testbit r (Z.of_nat n) = Z.testbit (r / 2 ^ Z.of_nat n) 0) as ->.
    { rewrite <- Z.shiftr_div_pow2, Z.shiftr_spec by lia. f_equal. }
    assert (r / 2 ^ Z.of_nat n = 2 * value + if b then 1 else 0) as ->.
    { symmetry. apply (Z.div_unique _ _ _ (r - (2 * value + if b then 1 else 0) * 2 ^ Z.of_nat n)); lia. }
    destruct b; [by rewrite Z.testbit_odd_0|]. by rewrite Z.add_0_r, Z.testbit_even_0.
  - replace (Z.to_nat off + S i)%nat with (Z.to_nat (off + 1) + i)%nat by lia. rewrite (Hbits i) by lia. by replace (S n - 1 - S i)%nat with (n - 1 - i)%nat by lia.
Qed.

(** [u] is the number in the [bits] bits at [off]. *)
Definition field (l : list bool) (off bits u : Z) : Prop :=
  0 <= u < 2 ^ bits /\
  forall i, (i < Z.to_nat bits)%nat ->
    l !! (Z.to_nat off + i)%nat = Some (Z.testbit u (bits - 1 - Z.of_nat i)).

Definition inside (p : bytes) (off bits : Z) : Prop :=
  bytes_ok p /\ 0 <= off /\ 1 <= bits <= 64 /\ off + bits <= 8 * zlen p /\ 8 * zlen p < 2 ^ 64.

Lemma testbit_above u n j : 0 <= u < 2 ^ n -> 0 <= n <= j -> Z.testbit u j = false.
Proof. intros Hu Hj. rewrite <- (Z.mod_small u (2 ^ n)) by lia. apply Z.mod_pow2_bits_high. lia. Qed.

Lemma field_unique l off bits u v : 0 <= bits -> field l off bits u -> field l off bits v -> u = v.
Proof.
  intros Hb [Hu Hul] [Hv Hvl]. apply Z.bits_inj'. intros j Hj. destruct (decide (j < bits)) as [Hlt|Hge].
  - specialize (Hul (Z.to_nat (bits - 1 - j)) ltac:(lia)). specialize (Hvl (Z.to_nat (bits - 1 - j)) ltac:(lia)).
    rewrite Hul in Hvl. injection Hvl as Hvl. rewrite Z2Nat.id in Hvl by lia.
    by replace (bits - 1 - (bits - 1 - j)) with j in Hvl by lia.
  - by rewrite !(testbit_above _ bits) by lia.
Qed.

Lemma get_unsigned_ok p off bits : inside p off bits ->
  exists u, getUnsignedBitfield p off bits = Some u /\ field (bits_of p) off bits u.
Proof.
  intros (Hp & Hoff & Hb & Hlen & Hmax). unfold getUnsignedBitfield.
  assert (2 ^ bits <= 2 ^ 64) as Hpow by (apply Z.pow_le_mono_r; lia).
  destruct (get_bits_ok (Z.to_nat bits) p off 0) as (r & -> & Hr & Hbits); try (rewrite ?Z2Nat.id; lia || done).
  rewrite Z2Nat.id in Hr by lia. exists r. split; [done|]. split; [lia|]. intros i Hi. rewrite (Hbits i Hi).
  do 2 f_equal. lia.
Qed.

(** Two's complement of [bits] bits. *)
Lemma swrap_low u bits : 1 <= bits -> 0 <= u < 2 ^ bits ->
  swrap bits u = if Z.testbit u (bits - 1) then u - 2 ^ bits else u.
Proof.
  intros Hb Hu. pose proof (pow2_split bits ltac:(lia)) as Hp. set (h := 2 ^ (bits - 1)) in *.
  assert (Z.testbit u (bits - 1) = bool_decide (h <= u)) as ->.
  { destruct (decide (h <= u)) as [Hle|Hlt].
    - rewrite bool_decide_true by done. apply Z.testbit_true; [lia|]. fold h.
      assert (u / h = 1) as ->; [|done]. symmetry. apply (Z.div_unique _ _ _ (u - h)); lia.
    - rewrite bool_decide_false by done. apply (testbit_above u (bits - 1)); [fold h; lia|lia]. }
  unfold swrap. fold h. case_bool_decide.
  - replace (u + h) with ((u - h) + 1 * 2 ^ bits) by lia. rewrite Z.mod_add, Z.mod_small by lia. lia.
  - rewrite Z.mod_small by lia. lia.
Qed.

Lemma mask_high bits : 0 <= bits < 64 -> u64 (Z.shiftl (-1) bits) = 2 ^ 64 - 2 ^ bits.
Proof.
  intros Hb. rewrite Z.shiftl_mul_pow2 by lia. unfold u64, uwrap.
  assert (2 ^ bits < 2 ^ 64) by (apply Z.pow_lt_mono_r; lia). assert (0 < 2 ^ bits) by (apply Z.pow_pos_nonneg; lia).
  replace (-1 * 2 ^ bits) with ((2 ^ 64 - 2 ^ bits) + (-1) * 2 ^ 64) by lia. rewrite Z.mod_add by lia. apply Z.mod_small. lia.
Qed.

Lemma mask_shift bits : 0 <= bits <= 64 -> 2 ^ 64 - 2 ^ bits = Z.shiftl (2 ^ (64 - bits) - 1) bits.
Proof.
  intros Hb. rewrite Z.shiftl_mul_pow2 by lia. rewrite Z.mul_sub_distr_r, <- Z.pow_add_r by lia.
  replace (64 - bits + bits) with 64 by lia. lia.
Qed.

(** Setting the bits above the field, and clearing them. *)
Lemma lor_field c bits : 0 <= c < 2 ^ 64 -> 0 <= bits < 64 ->
  Z.lor c (u64 (Z.shiftl (-1) bits)) = c mod 2 ^ bits + (2 ^ 64 - 2 ^ bits).
Proof.
  intros Hc Hb. rewrite mask_high by lia. rewrite mask_shift by lia.
  assert (0 < 2 ^ bits) as Hpos by (apply Z.pow_pos_nonneg; lia).
  replace (c mod 2 ^ bits + Z.shiftl (2 ^ (64 - bits) - 1) bits) with (Z.lor (c mod 2 ^ bits) (Z.shiftl (2 ^ (64 - bits) - 1) bits)).
  2: { rewrite lor_shiftl_add, Z.shiftl_mul_pow2 by (lia || apply Z.mod_pos_bound; lia). done. }
  apply Z.bits_inj'. intros j Hj. rewrite !Z.lor_spec, Z.shiftl_spec by lia. destruct (decide (j < bits)).
  - by rewrite Z.mod_pow2_bits_low by lia.
  - rewrite Z.mod_pow2_bits_high by lia. cbn [orb]. destruct (decide (j < 64)).
    + replace (2 ^ (64 - bits) - 1) with (Z.ones (64 - bits)) by (rewrite Z.ones_equiv; lia).
      rewrite Z.ones_spec_low by lia. apply orb_true_r.
    + rewrite (testbit_above c 64) by lia. done.
Qed.


(** Sign extension of the field. *)
Lemma sign_extend u bits : 1 <= bits < 64 -> 0 <= u < 2 ^ 64 ->
  i64 (if Z.testbit u (bits - 1) then Z.lor u (u64 (Z.shiftl (-1) bits)) else u mod 2 ^ bits) = swrap bits u.
Proof.
  intros Hb Hu. rewrite <- (swrap_uwrap bits u) by lia. unfold uwrap.
  assert (0 < 2 ^ bits) as Hpos by (apply Z.pow_pos_nonneg; lia).
  assert (2 ^ bits <= 2 ^ 63) as Hle by (apply Z.pow_le_mono_r; lia).
  pose proof (Z.mod_pos_bound u (2 ^ bits) Hpos) as Hm. rewrite (swrap_low (u mod 2 ^ bits)) by lia.
  rewrite Z.mod_pow2_bits_low by lia. destruct (Z.testbit u (bits - 1)).
  - rewrite lor_field by lia. unfold i64, swrap. change (2 ^ (64 - 1)) with (2 ^ 63). pose proof (pow2_split bits ltac:(lia)).
    replace (u mod 2 ^ bits + (2 ^ 64 - 2 ^ bits) + 2 ^ 63) with ((u mod 2 ^ bits - 2 ^ bits + 2 ^ 63) + 1 * 2 ^ 64) by lia.
    rewrite Z.mod_add, Z.mod_small by lia. lia.
  - apply swrap_small; [lia|]. unfold in_i. change (64 - 1) with 63. lia.
Qed.

Lemma land_bit_iff value n : 0 <= n -> Z.land value (Z.shiftl 1 n) <> 0 <-> Z.testbit value n = true.
Proof.
  intros Hn. pose proof (land_bit value n Hn) as Hl. destruct (decide (Z.land value (Z.shiftl 1 n) <> 0)) as [E|E];
    destruct (Z.testbit value n); split; intros; congruence || contradiction.
Qed.

Lemma i64_range u : 0 <= u < 2 ^ 63 -> i64 u = u.
Proof. intros Hu. apply swrap_small; [lia|]. unfold in_i. change (64 - 1) with 63. lia. Qed.

Lemma get_signed_ok p off bits : inside p off bits ->
  exists u, getSignedBitfield p off bits = Some (swrap bits u) /\ field (bits_of p) off bits u.
Proof.
  intros Hin. destruct (get_unsigned_ok p off bits Hin) as (u & Hu & Hf). exists u. split; [|done].
  destruct Hin as (_ & _ & Hb & _). destruct Hf as [Hr _]. unfold getSignedBitfield. rewrite Hu. cbn [mbind option_bind]. f_equal.
  destruct (decide (bits < 64)) as [Hlt|Hge].
  - assert (2 ^ bits <= 2 ^ 63) as Hle by (apply Z.pow_le_mono_r; lia). rewrite (i64_range u) by lia.
    rewrite <- (sign_extend u bits) by lia. rewrite Z.mod_small by lia.
    destruct (Z.testbit u (bits - 1)) eqn:Et.
    + rewrite decide_True; [done|]. split; [done|]. apply land_bit_iff; [lia|done].
    + rewrite decide_False; [symmetry; apply i64_range; lia|]. intros [_ Hl]. apply land_bit_iff in Hl; [congruence|lia].
  - rewrite decide_False by lia. by assert (bits = 64) as -> by lia.
Qed.

(** What is written is read back and no other bit changes. *)
Lemma set_unsigned_ok p off bits v : inside p off bits ->
  exists p', setUnsignedBitfield p off bits v = Some p' /\ inside p' off bits /\ zlen p' = zlen p /\
    field (bits_of p') off bits (v mod 2 ^ bits) /\
    forall i, (i < Z.to_nat off \/ Z.to_nat (off + bits) <= i)%nat -> bits_of p' !! i = bits_of p !! i.
Proof.
  intros (Hp & Hoff & Hb & Hlen & Hmax). unfold setUnsignedBitfield.
  destruct (set_bits_ok (Z.to_nat bits) p off v Hp Hoff) as (p' & -> & Hp' & Hl & Hbits); [lia|lia|].
  exists p'. split_and!; [done| |done| |].
  - unfold inside. rewrite Hl. done.
  - split; [apply Z.mod_pos_bound, Z.pow_pos_nonneg; lia|]. intros i Hi. rewrite Hbits, decide_True by lia.
    rewrite Z.mod_pow2_bits_low by lia. do 2 f_equal. lia.
  - intros i Hi. rewrite Hbits, decide_False by lia. done.
Qed.

Lemma set_signed_ok p off bits v : inside p off bits ->
  exists p', setSignedBitfield p off bits v = Some p' /\ inside p' off bits /\ zlen p' = zlen p /\
    field (bits_of p') off bits (v mod 2 ^ bits) /\
    forall i, (i < Z.to_nat off \/ Z.to_nat (off + bits) <= i)%nat -> bits_of p' !! i = bits_of p !! i.
Proof.
  intros Hin. unfold setSignedBitfield. destruct (set_unsigned_ok p off bits (u64 v) Hin) as (p' & Hs & Hin' & Hl & Hf & Ho).
  exists p'. split_and!; [done..| |done]. destruct Hin as (_ & _ & Hb & _).
  assert (v mod 2 ^ bits = u64 v mod 2 ^ bits) as ->; [|done]. unfold u64, uwrap.
  replace (2 ^ 64) with (2 ^ bits * 2 ^ (64 - bits)) by (rewrite <- Z.pow_add_r by lia; f_equal; lia).
  rewrite Z.rem_mul_r by (apply Z.pow_nonzero || apply Z.pow_pos_nonneg; lia).
  rewrite Z.mul_comm, Z.mod_add by (apply Z.pow_nonzero; lia). by rewrite Z.mod_mod by (apply Z.pow_nonzero; lia).
Qed.

(** ** Overflow *)





(** ** BITFIELD *)

Definition field_value (sign : bool) (bits u : Z) : Z := if sign then swrap bits u else u.












(** The nine bytes GET works on. *)
Lemma get_buffer (src : bytes) byte k : 0 <= byte -> (k < 9)%nat ->
  take 9 (slice src byte (Z.min 9 (zlen src - byte)) ++ replicate 9 0) !! k =
  Some (default 0 (src !! (Z.to_nat byte + k)%nat)).
Proof.
  intros Hbyte Hk. rewrite lookup_take_lt by done. unfold slice.
  set (n := Z.to_nat (Z.min 9 (zlen src - byte))). destruct (decide (k < n)%nat) as [Hlt|Hge].
  - assert (n <= length (drop (Z.to_nat byte) src))%nat as Hn by (rewrite length_drop; unfold n, zlen; lia).
    rewrite lookup_app_l by (rewrite length_take; lia). rewrite lookup_take_lt by done. rewrite lookup_drop.
    destruct (lookup_lt_is_Some_2 src (Z.to_nat byte + k)) as [x Hx]; [unfold n, zlen in Hlt; lia|]. by rewrite Hx.
  - assert (length (take n (drop (Z.to_nat byte) src)) = n) as Hl.
    { rewrite length_take, length_drop. unfold n, zlen. lia. }
    rewrite lookup_app_r by lia. rewrite Hl. rewrite (lookup_ge_None_2 src) by (unfold n, zlen in Hge; lia).
    apply lookup_replicate. split; [done|lia].
Qed.

Lemma bitfield_get_ok src (sign : bool) off bits : bytes_ok src -> 0 <= off < 2 ^ 64 -> 1 <= bits <= (if sign then 64 else 63) ->
  exists u, bitfield_get src sign off bits = Some (field_value sign bits u) /\ 0 <= u < 2 ^ bits /\
    forall i, (i < Z.to_nat bits)%nat ->
      Z.testbit u (bits - 1 - Z.of_nat i) = default false (bits_of src !! (Z.to_nat off + i)%nat).
Proof.
  intros Hs Hoff Hb. unfold bitfield_get. cbn zeta. rewrite shiftr_div by lia. change (2 ^ 3) with 8.
  assert (off - u64 (off / 8 * 8) = off mod 8) as ->.
  { pose proof (Z.div_mod off 8 ltac:(lia)). pose proof (Z.mod_pos_bound off 8 ltac:(lia)). rewrite u64_small by divlia. lia. }
  set (buf := take 9 _). pose proof (Z.mod_pos_bound off 8 ltac:(lia)) as Hm.
  assert (length buf = 9%nat) as Hlen.
  { unfold buf. rewrite length_take, length_app, length_replicate. lia. }
  assert (forall k, (k < 9)%nat -> buf !! k = Some (default 0 (src !! (Z.to_nat (off / 8) + k)%nat))) as Hbuf.
  { intros k Hk. apply get_buffer; [divlia|done]. }
  assert (bytes_ok buf) as Hbytes.
  { apply Forall_lookup. intros k x Hx. pose proof (lookup_lt_Some _ _ _ Hx) as Hk. rewrite Hlen in Hk.
    rewrite Hbuf in Hx by done. injection Hx as <-. destruct (src !! _) as [c|] eqn:Ec; [|done].
    by apply (proj1 (Forall_lookup _ _) Hs _ _ Ec). }
  assert (inside buf (off mod 8) bits) as Hin.
  { split_and!; [done|lia|lia|destruct sign; lia| |]; unfold zlen; rewrite Hlen; destruct sign; lia. }
  assert (forall u, field (bits_of buf) (off mod 8) bits u -> forall i, (i < Z.to_nat bits)%nat ->
    Z.testbit u (bits - 1 - Z.of_nat i) = default false (bits_of src !! (Z.to_nat off + i)%nat)) as Hview.
  { intros u [_ Hf] i Hi. specialize (Hf i Hi). rewrite !bits_of_lookup in Hf |- *.
    assert (Z.to_nat off = Z.to_nat (off mod 8) + Z.to_nat (off / 8) * 8)%nat as Eoff by divlia.
    set (m := Z.to_nat (off mod 8)) in *. set (d := Z.to_nat (off / 8)) in *.
    assert ((Z.to_nat off + i) / 8 = (m + i) / 8 + d)%nat as Ediv.
    { rewrite Eoff. replace (m + d * 8 + i)%nat with (m + i + d * 8)%nat by lia. rewrite Nat.div_add by lia. done. }
    assert ((Z.to_nat off + i) mod 8 = (m + i) mod 8)%nat as Emod.
    { rewrite Eoff. replace (m + d * 8 + i)%nat with (m + i + d * 8)%nat by lia. by rewrite Nat.Div0.mod_add. }
    rewrite Ediv, Emod, (Nat.add_comm ((m + i) / 8) d). rewrite Hbuf in Hf by (apply Nat.Div0.div_lt_upper_bound; destruct sign; lia).
    cbn [fmap option_fmap option_map] in Hf. injection Hf as Hf. rewrite <- Hf.
    destruct (src !! _) as [c|]; [reflexivity|]. apply Z.bits_0. }
  destruct sign.
  - destruct (get_signed_ok _ _ _ Hin) as (u & -> & Hf). exists u. split_and!; [done|apply Hf|apply Hf|by apply Hview].
  - destruct (get_unsigned_ok _ _ _ Hin) as (u & -> & Hf). pose proof Hf as [Hu _]. exists u.
    assert (2 ^ bits <= 2 ^ 63) by (apply Z.pow_le_mono_r; lia).
    split_and!; [|apply Hu|apply Hu|by apply Hview]. cbn [fmap option_fmap option_map field_value]. f_equal. apply i64_range. lia.
Qed.

(** ** Theorems *)

(** C24: the bit count, which adds up seven words at a time after aligning its
    pointer, is the number of bits set in the first [count] bytes, wherever the
    buffer lies. *)
Theorem redisPopcount_correct addr s count : bytes_ok s -> (count <= length s)%nat ->
  redisPopcount addr s count = Some (ones (bits_of (take count s))).
Proof. apply redisPopcount_ok. Qed.

Lemma redisPopcount_correct_witness : redisPopcount 3 (replicate 40 0x81) 40 = Some 80.
Proof.
  rewrite (redisPopcount_correct 3 (replicate 40 0x81) 40); [vm_compute; reflexivity| |vm_compute; lia].
  apply Forall_replicate. unfold byte_ok. lia.
Defined.

(** C30: [redisBitpos] returns the index of the first bit equal to [bit], with
    whole words skipped; when there is none it returns -1 for 1 and the number
    of bits for 0, and it always returns. *)
Theorem redisBitpos_correct addr s count b : bytes_ok s -> (count <= length s)%nat ->
  exists r, is_first b (bits_of (take count s)) r /\
    redisBitpos addr s count b =
    Some (if decide (b = true /\ r = (8 * count)%nat) then -1 else Z.of_nat r).
Proof. apply redisBitpos_ok. Qed.

Lemma redisBitpos_correct_witness : exists r,
  is_first false (bits_of (take 11 (replicate 10 255 ++ [0xf7]))) r /\
  redisBitpos 5 (replicate 10 255 ++ [0xf7]) 11 false = Some (Z.of_nat r).
Proof.
  destruct (redisBitpos_correct 5 (replicate 10 255 ++ [0xf7]) 11 false) as (r & Hr & Hp).
  - apply Forall_app. split; [apply Forall_replicate; unfold byte_ok; lia|]. repeat constructor; lia.
  - vm_compute. lia.
  - exists r. split; [exact Hr|]. rewrite Hp. rewrite decide_False by (intros [? _]; discriminate). reflexivity.
Defined.

(** an integer written at any bit offset and width up to 64 is read back,
    reduced to the width, signed or unsigned, and no bit outside the field
    changes. *)
Theorem bitfield_roundtrip p off bits v : inside p off bits ->
  exists p1 p2, setUnsignedBitfield p off bits v = Some p1 /\ setSignedBitfield p off bits v = Some p2 /\
    getUnsignedBitfield p1 off bits = Some (uwrap bits v) /\ getSignedBitfield p2 off bits = Some (swrap bits v) /\
    zlen p1 = zlen p /\ zlen p2 = zlen p /\
    forall i, (i < Z.to_nat off \/ Z.to_nat (off + bits) <= i)%nat ->
      bits_of p1 !! i = bits_of p !! i /\ bits_of p2 !! i = bits_of p !! i.
Proof.
  intros Hin. pose proof Hin as (_ & _ & Hb & _).
  destruct (set_unsigned_ok p off bits v Hin) as (p1 & -> & Hin1 & Hl1 & Hf1 & Ho1).
  destruct (set_signed_ok p off bits v Hin) as (p2 & -> & Hin2 & Hl2 & Hf2 & Ho2). exists p1, p2.
  destruct (get_unsigned_ok p1 off bits Hin1) as (u1 & Hg1 & Hu1).
  destruct (get_signed_ok p2 off bits Hin2) as (u2 & Hg2 & Hu2).
  rewrite (field_unique (bits_of p1) off bits u1 (v mod 2 ^ bits)) in Hg1 by (done || lia).
  rewrite (field_unique (bits_of p2) off bits u2 (v mod 2 ^ bits)) in Hg2 by (done || lia).
  split_and!; [done|done|done| |done|done|].
  - rewrite Hg2. f_equal. by apply (swrap_uwrap bits v); lia.
  - intros i Hi. split; [by apply Ho1|by apply Ho2].
Qed.

Lemma bitfield_roundtrip_witness : exists p1, setUnsignedBitfield [0; 0; 0] 7 5 23 = Some p1 /\
  getUnsignedBitfield p1 7 5 = Some 23.
Proof.
  destruct (bitfield_roundtrip [0; 0; 0] 7 5 23) as (p1 & p2 & H1 & _ & H3 & _).
  - split; [repeat constructor; lia|]. vm_compute. intuition discriminate.
  - exists p1. split; [exact H1|exact H3].
Defined.



(** GET of BITFIELD reads the field of the string extended with zero
    bits, also across and beyond its end. *)
Theorem bitfield_get_correct src (sign : bool) off bits : bytes_ok src -> 0 <= off < 2 ^ 64 ->
  1 <= bits <= (if sign then 64 else 63) ->
  exists u, bitfield_get src sign off bits = Some (field_value sign bits u) /\ 0 <= u < 2 ^ bits /\
    forall i, (i < Z.to_nat bits)%nat ->
      Z.testbit u (bits - 1 - Z.of_nat i) = default false (bits_of src !! (Z.to_nat off + i)%nat).
Proof. apply bitfield_get_ok. Qed.

Lemma bitfield_get_correct_witness : exists u, bitfield_get [1; 2] true 12 8 = Some (swrap 8 u).
Proof.
  destruct (bitfield_get_correct [1; 2] true 12 8) as (u & Hu & _); [repeat constructor; lia|lia|lia|].
  exists u. exact Hu.
Defined.

(** ** Where the checks fail *)

(** [maxincr] overflows for values near the smallest 64-bit integer, which are
    then taken for an overflow: a saturated SET of an [i8] stores 127 where -128
    is nearest. *)
Lemma signed_overflow_misses_underflow :
  checkSignedBitfieldOverflow LLONG_MIN 0 8 BFOVERFLOW_SAT = (1, Some 127) /\
  bitfield_write [0] BITFIELDOP_SET true 0 8 LLONG_MIN BFOVERFLOW_SAT = Some ([127], Some 0).
Proof. split; vm_compute; reflexivity. Qed.

(** With wrap around an underflow is reported as 1. *)
Lemma unsigned_wrap_reports_overflow :
  checkUnsignedBitfieldOverflow 0 (-1) 8 BFOVERFLOW_WRAP = (1, Some 255).
Proof. vm_compute. reflexivity. Qed.

(** A [#] offset that overflows when it is multiplied by the width comes out
    as a small offset. *)
Lemma hash_offset_overflows :
  getBitOffsetFromArgument ([35] ++ [50; 56; 56; 50; 51; 48; 51; 55; 54; 49; 53; 49; 55; 49; 49; 55; 52; 52]) true 64 false 536870912
  = Some (Some 0).
Proof. vm_compute. reflexivity. Qed.
