(* ===== verification/Sds.v ===== *)
(** * Dynamic strings (sds.c, sds.h): the blocks

    An [sds] is a pointer into a block of memory: a header with the length, the
    allocated size and the type of the header, then the characters and a
    terminating NUL, then free space.  The model keeps the block byte by byte
    ([blk]) and the offset of the pointer in it ([off]); the type is the low
    three bits of the byte before the pointer and decides the widths of the
    fields.

    [usable n] is the usable size of an allocation of [n] bytes, [try_ok n] says
    whether a fallible allocation of [n] bytes succeeds, [junk] is what fresh
    memory holds.

    [sds_rep s cs]: the block is well formed and holds the characters [cs].  The
    theorems: every operation keeps blocks well formed and does to the
    characters what it promises, for all header types and all transitions
    between them, and never touches memory outside the block. *)

From S2P Require Import Prelude Util.

#[local] Set Default Proof Using "Type".

Record sds := Sds { blk : bytes; off : Z }.

Definition SDS_TYPE_5 : Z := 0.
Definition SDS_TYPE_8 : Z := 1.
Definition SDS_TYPE_16 : Z := 2.
Definition SDS_TYPE_32 : Z := 3.
Definition SDS_TYPE_64 : Z := 4.
Definition SDS_TYPE_MASK : Z := 7.
Definition SDS_TYPE_BITS : Z := 3.
Definition SDS_MAX_PREALLOC : Z := 1024 * 1024.

(** ** Header access (sds.h) *)

Definition sdsHdrSize (type : Z) : Z :=
  let t := Z.land type SDS_TYPE_MASK in
  if decide (t = SDS_TYPE_5) then 1
  else if decide (t = SDS_TYPE_8) then 3
  else if decide (t = SDS_TYPE_16) then 5
  else if decide (t = SDS_TYPE_32) then 9
  else if decide (t = SDS_TYPE_64) then 17
  else 0.

(** The width in bytes of [len] and [alloc] in [sdshdr8] to [sdshdr64]. *)
Definition field_width (t : Z) : option nat :=
  if decide (t = SDS_TYPE_8) then Some 1%nat
  else if decide (t = SDS_TYPE_16) then Some 2%nat
  else if decide (t = SDS_TYPE_32) then Some 4%nat
  else if decide (t = SDS_TYPE_64) then Some 8%nat
  else None.

(** [s[-1]] and [s[i]]. *)
Definition flags (s : sds) : option Z := peek (blk s) (off s - 1).
Definition char_at (s : sds) (i : Z) : option Z := peek (blk s) (off s + i).

Definition set_char (s : sds) (i c : Z) : option sds :=
  b ← poke (blk s) (off s + i) c; Some (Sds b (off s)).

Definition set_flags (s : sds) (f : Z) : option sds := set_char s (-1) f.

(** [sh->len] is the first field of the packed header, [sh->alloc] the second. *)
Definition get_field (s : sds) (w : nat) (k : Z) : option Z :=
  le_val <$> mem_read (blk s) (off s - 1 - k * Z.of_nat w) (Z.of_nat w).

Definition set_field (s : sds) (w : nat) (k v : Z) : option sds :=
  b ← mem_write (blk s) (off s - 1 - k * Z.of_nat w) (le_bytes w v); Some (Sds b (off s)).

Definition sdslen (s : sds) : option Z :=
  f ← flags s;
  let t := Z.land f SDS_TYPE_MASK in
  if decide (t = SDS_TYPE_5) then Some (Z.shiftr f SDS_TYPE_BITS)
  else match field_width t with Some w => get_field s w 2 | None => Some 0 end.

Definition sdsavail (s : sds) : option Z :=
  f ← flags s;
  let t := Z.land f SDS_TYPE_MASK in
  if decide (t = SDS_TYPE_5) then Some 0
  else match field_width t with
       | Some w => alloc ← get_field s w 1; len ← get_field s w 2; Some (u64 (alloc - len))
       | None => Some 0
       end.

Definition sdssetlen (s : sds) (newlen : Z) : option sds :=
  f ← flags s;
  let t := Z.land f SDS_TYPE_MASK in
  if decide (t = SDS_TYPE_5) then set_flags s (u8 (Z.lor SDS_TYPE_5 (Z.shiftl newlen SDS_TYPE_BITS)))
  else match field_width t with Some w => set_field s w 2 newlen | None => Some s end.

Definition sdsinclen (s : sds) (inc : Z) : option sds :=
  f ← flags s;
  let t := Z.land f SDS_TYPE_MASK in
  if decide (t = SDS_TYPE_5) then
    let newlen := u8 (Z.shiftr f SDS_TYPE_BITS + inc) in
    set_flags s (u8 (Z.lor SDS_TYPE_5 (Z.shiftl newlen SDS_TYPE_BITS)))
  else match field_width t with
       | Some w => len ← get_field s w 2; set_field s w 2 (len + inc)
       | None => Some s
       end.

Definition sdsalloc (s : sds) : option Z :=
  f ← flags s;
  let t := Z.land f SDS_TYPE_MASK in
  if decide (t = SDS_TYPE_5) then Some (Z.shiftr f SDS_TYPE_BITS)
  else match field_width t with Some w => get_field s w 1 | None => Some 0 end.

Definition sdssetalloc (s : sds) (newlen : Z) : option sds :=
  f ← flags s;
  let t := Z.land f SDS_TYPE_MASK in
  if decide (t = SDS_TYPE_5) then Some s
  else match field_width t with Some w => set_field s w 1 newlen | None => Some s end.

Definition sdsReqType (string_size : Z) : Z :=
  if decide (string_size < 2 ^ 5) then SDS_TYPE_5
  else if decide (string_size < 2 ^ 8) then SDS_TYPE_8
  else if decide (string_size < 2 ^ 16) then SDS_TYPE_16
  else if decide (string_size < 2 ^ 32) then SDS_TYPE_32
  else SDS_TYPE_64.

Definition sdsTypeMaxSize (type : Z) : Z :=
  if decide (type = SDS_TYPE_5) then 2 ^ 5 - 1
  else if decide (type = SDS_TYPE_8) then 2 ^ 8 - 1
  else if decide (type = SDS_TYPE_16) then 2 ^ 16 - 1
  else if decide (type = SDS_TYPE_32) then 2 ^ 32 - 1
  else u64 (-1).

(** [memcpy(s + i, bs, len)] and [memcpy(dst, s + i, len)]. *)
Definition write_at (s : sds) (i : Z) (bs : bytes) : option sds :=
  b ← mem_write (blk s) (off s + i) bs; Some (Sds b (off s)).

Definition read_at (s : sds) (i len : Z) : option bytes := mem_read (blk s) (off s + i) len.

(** The argument [init] of [_sdsnewlen]. *)
Inductive sds_init := InitNull | InitNoinit | InitBytes (init : bytes).

#[export] Instance sds_init_eq_dec : EqDecision sds_init.
Proof. solve_decision. Defined.

Section sds.
Variables (junk : nat -> Z) (usable : Z -> Z) (try_ok : Z -> bool).

(** A fresh block for [n] bytes. *)
Definition s_malloc_usable (n : Z) : bytes := mem_realloc junk [] (usable n).
Definition s_realloc_usable (b : bytes) (n : Z) : bytes := mem_realloc junk b (usable n).

(** ** Creation *)

(** The switch at the end of [_sdsnewlen]. *)
Definition init_header (s : sds) (type initlen alloc : Z) : option sds :=
  if decide (type = SDS_TYPE_5) then set_flags s (u8 (Z.lor type (Z.shiftl initlen SDS_TYPE_BITS)))
  else match field_width type with
       | Some w =>
         s ← set_field s w 2 initlen;
         s ← set_field s w 1 alloc;
         set_flags s type
       | None => Some s
       end.

(** [Some None] is the [NULL] of a failed allocation. *)
Definition _sdsnewlen (init : sds_init) (initlen : Z) (trymalloc : bool) : option (option sds) :=
  let type := sdsReqType initlen in
  let type := if decide (type = SDS_TYPE_5 /\ initlen = 0) then SDS_TYPE_8 else type in
  let hdrlen := sdsHdrSize type in
  _ ← assert (u64 (initlen + hdrlen + 1) > initlen);
  if trymalloc && negb (try_ok (hdrlen + initlen + 1)) then Some None
  else
    let sh := s_malloc_usable (hdrlen + initlen + 1) in
    sh ← (match init with
          | InitNull => mem_write sh 0 (replicate (Z.to_nat (hdrlen + initlen + 1)) 0)
          | _ => Some sh
          end);
    let s := Sds sh hdrlen in
    let alloc := u64 (zlen sh - hdrlen - 1) in
    let alloc := if decide (alloc > sdsTypeMaxSize type) then sdsTypeMaxSize type else alloc in
    s ← init_header s type initlen alloc;
    s ← (match init with
         | InitBytes bs =>
           if decide (initlen <> 0) then src ← mem_read bs 0 initlen; write_at s 0 src else Some s
         | _ => Some s
         end);
    s ← set_char s initlen 0;
    Some (Some s).

Definition sdsnewlen (init : sds_init) (initlen : Z) : option sds :=
  r ← _sdsnewlen init initlen false; r.

Definition sdstrynewlen (init : sds_init) (initlen : Z) : option (option sds) := _sdsnewlen init initlen true.

Definition sdsempty : option sds := sdsnewlen (InitBytes []) 0.

(** [init] is the C string without its NUL, so that [strlen] is its length; NULL
    gives the string of [sdsempty]. *)
Definition sdsnew (init : bytes) : option sds := sdsnewlen (InitBytes init) (zlen init).

Definition sdsdup (s : sds) : option sds :=
  len ← sdslen s;
  cs ← read_at s 0 len;
  sdsnewlen (InitBytes cs) len.

Definition sdsclear (s : sds) : option sds := s ← sdssetlen s 0; set_char s 0 0.

(** [strlen(s)]. *)
Fixpoint strlen_loop (fuel : nat) (s : sds) (i : Z) : option Z :=
  match fuel with
  | O => None
  | S fuel => c ← char_at s i; if decide (c = 0) then Some i else strlen_loop fuel s (i + 1)
  end.

Definition sdsupdatelen (s : sds) : option sds :=
  reallen ← strlen_loop (length (blk s)) s 0; sdssetlen s reallen.

(** ** Growing and shrinking the block *)

Definition _sdsMakeRoomFor (s : sds) (addlen : Z) (greedy : bool) : option sds :=
  avail ← sdsavail s;
  if decide (avail >= addlen) then Some s
  else
    f ← flags s;
    let oldtype := Z.land f SDS_TYPE_MASK in
    len ← sdslen s;
    let reqlen := u64 (len + addlen) in
    _ ← assert (reqlen > len);
    let newlen :=
      if greedy then
        if decide (reqlen < SDS_MAX_PREALLOC) then u64 (reqlen * 2) else u64 (reqlen + SDS_MAX_PREALLOC)
      else reqlen in
    let type := sdsReqType newlen in
    let type := if decide (type = SDS_TYPE_5) then SDS_TYPE_8 else type in
    let hdrlen := sdsHdrSize type in
    _ ← assert (u64 (hdrlen + newlen + 1) > reqlen);
    '(s, usable) ←
      (if decide (oldtype = type) then
         let newsh := s_realloc_usable (blk s) (hdrlen + newlen + 1) in
         Some (Sds newsh hdrlen, zlen newsh)
       else
         let newsh := s_malloc_usable (hdrlen + newlen + 1) in
         cs ← read_at s 0 (len + 1);
         newsh ← mem_write newsh hdrlen cs;
         let s := Sds newsh hdrlen in
         s ← set_flags s type;
         s ← sdssetlen s len;
         Some (s, zlen newsh));
    let usable := u64 (usable - hdrlen - 1) in
    let usable := if decide (usable > sdsTypeMaxSize type) then sdsTypeMaxSize type else usable in
    sdssetalloc s usable.

Definition sdsMakeRoomFor (s : sds) (addlen : Z) : option sds := _sdsMakeRoomFor s addlen true.
Definition sdsMakeRoomForNonGreedy (s : sds) (addlen : Z) : option sds := _sdsMakeRoomFor s addlen false.

(** With jemalloc, which is asked for the size it would use. *)
Definition sdsResize (s : sds) (size : Z) (would_regrow : bool) : option sds :=
  f ← flags s;
  let oldtype := Z.land f SDS_TYPE_MASK in
  let oldhdrlen := sdsHdrSize oldtype in
  len ← sdslen s;
  alloc ← sdsalloc s;
  if decide (alloc = size) then Some s
  else
    let len := if decide (size < len) then size else len in
    let type := sdsReqType size in
    let type := if would_regrow then if decide (type = SDS_TYPE_5) then SDS_TYPE_8 else type else type in
    let hdrlen := sdsHdrSize type in
    let use_realloc := bool_decide (oldtype = type \/ (type < oldtype /\ type > SDS_TYPE_8)) in
    let newlen := if use_realloc then oldhdrlen + size + 1 else hdrlen + size + 1 in
    s ← (if use_realloc then
           if decide (usable newlen = zlen (blk s)) then Some s
           else Some (Sds (s_realloc_usable (blk s) newlen) oldhdrlen)
         else
           let newsh := s_malloc_usable newlen in
           cs ← read_at s 0 len;
           newsh ← mem_write newsh hdrlen cs;
           set_flags (Sds newsh hdrlen) type);
    s ← set_char s len 0;
    s ← sdssetlen s len;
    sdssetalloc s size.

Definition sdsRemoveFreeSpace (s : sds) (would_regrow : bool) : option sds :=
  len ← sdslen s; sdsResize s len would_regrow.

Definition sdsAllocSize (s : sds) : option Z :=
  alloc ← sdsalloc s; f ← flags s; Some (sdsHdrSize f + alloc + 1).

Definition sdsIncrLen (s : sds) (incr : Z) : option sds :=
  f ← flags s;
  let t := Z.land f SDS_TYPE_MASK in
  '(s, len) ←
    (if decide (t = SDS_TYPE_5) then
       let oldlen := Z.shiftr f SDS_TYPE_BITS in
       _ ← assert ((incr > 0 /\ oldlen + incr < 32) \/ (incr < 0 /\ oldlen >= u32 (- incr)));
       s ← set_flags s (u8 (Z.lor SDS_TYPE_5 (Z.shiftl (oldlen + incr) SDS_TYPE_BITS)));
       Some (s, oldlen + incr)
     else match field_width t with
          | Some w =>
            alloc ← get_field s w 1;
            len ← get_field s w 2;
            let neg := if decide (t = SDS_TYPE_64) then u64 (- incr) else u32 (- incr) in
            let pos := if decide (t = SDS_TYPE_32) then u32 incr else if decide (t = SDS_TYPE_64) then u64 incr else incr in
            let free := if decide (t = SDS_TYPE_32) then u32 (alloc - len)
                        else if decide (t = SDS_TYPE_64) then u64 (alloc - len) else alloc - len in
            _ ← assert ((incr >= 0 /\ free >= pos) \/ (incr < 0 /\ len >= neg));
            let len := uwrap (8 * Z.of_nat w) (len + incr) in
            s ← set_field s w 2 len;
            Some (s, len)
          | None => Some (s, 0)
          end);
  set_char s len 0.

(** ** Changing the characters *)

Definition sdsgrowzero (s : sds) (len : Z) : option sds :=
  curlen ← sdslen s;
  if decide (len <= curlen) then Some s
  else
    s ← sdsMakeRoomFor s (len - curlen);
    s ← write_at s curlen (replicate (Z.to_nat (len - curlen + 1)) 0);
    sdssetlen s len.

Definition sdscatlen (s : sds) (t : bytes) : option sds :=
  let len := zlen t in
  curlen ← sdslen s;
  s ← sdsMakeRoomFor s len;
  s ← write_at s curlen t;
  s ← sdssetlen s (u64 (curlen + len));
  set_char s (u64 (curlen + len)) 0.

Definition sdscatsds (s t : sds) : option sds :=
  len ← sdslen t; cs ← read_at t 0 len; sdscatlen s cs.

Definition sdscpylen (s : sds) (t : bytes) : option sds :=
  let len := zlen t in
  alloc ← sdsalloc s;
  s ← (if decide (alloc < len) then curlen ← sdslen s; sdsMakeRoomFor s (u64 (len - curlen)) else Some s);
  s ← write_at s 0 t;
  s ← set_char s len 0;
  sdssetlen s len.

(** [buf] is a local array of [LONG_STR_SIZE] characters. *)
Definition sdsfromlonglong (buf : bytes) (value : Z) : option sds :=
  '(buf, len) ← ll2string buf LONG_STR_SIZE value;
  sdsnewlen (InitBytes (slice buf 0 len)) len.

(** [strchr(cset, c)], which also finds the terminating NUL. *)
Definition in_cset (cset : bytes) (c : Z) : bool := bool_decide (c ∈ cset) || bool_decide (c = 0).

(** [while(sp <= end && strchr(cset, *sp)) sp++]. *)
Fixpoint trim_left (fuel : nat) (s : sds) (cset : bytes) (sp end_ : Z) : option Z :=
  match fuel with
  | O => None
  | S fuel =>
    if decide (sp <= end_) then
      c ← char_at s sp;
      if in_cset cset c then trim_left fuel s cset (sp + 1) end_ else Some sp
    else Some sp
  end.

(** [while(ep > sp && strchr(cset, *ep)) ep--]. *)
Fixpoint trim_right (fuel : nat) (s : sds) (cset : bytes) (sp ep : Z) : option Z :=
  match fuel with
  | O => None
  | S fuel =>
    if decide (ep > sp) then
      c ← char_at s ep;
      if in_cset cset c then trim_right fuel s cset sp (ep - 1) else Some ep
    else Some ep
  end.

Definition sdstrim (s : sds) (cset : bytes) : option sds :=
  slen ← sdslen s;
  let end_ := slen - 1 in
  sp ← trim_left (S (length (blk s))) s cset 0 end_;
  ep ← trim_right (S (length (blk s))) s cset sp end_;
  let len := ep - sp + 1 in
  s ← (if decide (sp <> 0) then b ← mem_move (blk s) (off s) (off s + sp) len; Some (Sds b (off s)) else Some s);
  s ← set_char s len 0;
  sdssetlen s len.

Definition sdssubstr (s : sds) (start len : Z) : option sds :=
  oldlen ← sdslen s;
  let '(start, len) := if decide (start >= oldlen) then (0, 0) else (start, len) in
  let len := if decide (len > oldlen - start) then oldlen - start else len in
  s ← (if decide (len <> 0) then b ← mem_move (blk s) (off s) (off s + start) len; Some (Sds b (off s)) else Some s);
  s ← set_char s len 0;
  sdssetlen s len.

(** [start] and [end_] are [ssize_t]; the first two sums are computed as
    [size_t], the last one is signed and must not overflow. *)
Definition sdsrange (s : sds) (start end_ : Z) : option sds :=
  len ← sdslen s;
  if decide (len = 0) then Some s
  else
    let start := if decide (start < 0) then i64 (len + start) else start in
    let end_ := if decide (end_ < 0) then i64 (len + end_) else end_ in
    newlen ← (if decide (start > end_) then Some 0
              else if decide (end_ - start + 1 <= LLONG_MAX) then Some (end_ - start + 1) else None);
    sdssubstr s (u64 start) newlen.
End sds.

(** ** Well-formed blocks *)

(** The bytes of a header; a header of type 5 has no field for the allocated
    size. *)
Definition header (t len alloc : Z) : bytes :=
  match field_width t with
  | Some w => le_bytes w len ++ le_bytes w alloc ++ [t]
  | None => [len * 8]
  end.

Definition header_ok (t len alloc : Z) : Prop :=
  (t = SDS_TYPE_5 /\ 0 <= len < 32 /\ alloc = len) \/
  (SDS_TYPE_8 <= t <= SDS_TYPE_64 /\ 0 <= len <= alloc /\ alloc <= sdsTypeMaxSize t).

(** A block with a header and [body] from the pointer on, which has room for
    [alloc] characters and the NUL. *)
Record block (s : sds) (t len alloc : Z) (body : bytes) : Prop := {
  block_blk : blk s = header t len alloc ++ body;
  block_off : off s = sdsHdrSize t;
  block_hdr : header_ok t len alloc;
  block_room : alloc + 1 <= zlen body;
  block_size : zlen (blk s) < 2 ^ 63;
}.

(** The string [cs]. *)
Definition sds_rep (s : sds) (cs : bytes) : Prop :=
  exists t alloc body, block s t (zlen cs) alloc body /\ bytes_at body 0 (cs ++ [0]).

Lemma type_cases t : 0 <= t <= 4 ->
  (t = SDS_TYPE_5 /\ field_width t = None) \/
  exists w, field_width t = Some w /\ t <> SDS_TYPE_5 /\ Z.land t SDS_TYPE_MASK = t /\ (1 <= w <= 8)%nat /\
    sdsHdrSize t = 2 * Z.of_nat w + 1 /\ sdsTypeMaxSize t = 2 ^ (8 * Z.of_nat w) - 1 /\ SDS_TYPE_8 <= t <= SDS_TYPE_64.
Proof.
  intros Ht. assert (t = 0 \/ t = 1 \/ t = 2 \/ t = 3 \/ t = 4) as [->|[->|[->|[->| ->]]]] by lia.
  - by left.
  - right. exists 1%nat. split_and!; try done; lia.
  - right. exists 2%nat. split_and!; try done; lia.
  - right. exists 4%nat. split_and!; try done; lia.
  - right. exists 8%nat. split_and!; try done; lia.
Qed.

Lemma header_ok_type t len alloc : header_ok t len alloc -> 0 <= t <= 4.
Proof. unfold header_ok, SDS_TYPE_5, SDS_TYPE_8, SDS_TYPE_64. lia. Qed.

Lemma zlen_header t len alloc : 0 <= t <= 4 -> zlen (header t len alloc) = sdsHdrSize t.
Proof.
  intros Ht. unfold header. destruct (type_cases t Ht) as [[-> ->]|(w & -> & _ & _ & _ & -> & _)]; [done|]. zlia.
Qed.

Lemma block_len s t len alloc body : block s t len alloc body -> 0 <= len <= alloc.
Proof. intros []. unfold header_ok in *. lia. Qed.

Section blocks.
Variables (s : sds) (t len alloc : Z) (body : bytes).
Hypothesis Hb : block s t len alloc body.

Lemma block_type : 0 <= t <= 4.
Proof using Hb. eapply header_ok_type, (block_hdr _ _ _ _ _ Hb). Qed.

Lemma block_off_len : off s = zlen (header t len alloc).
Proof using Hb. rewrite (block_off _ _ _ _ _ Hb), zlen_header; [done|apply block_type]. Qed.

Lemma block_flags : flags s = Some (if decide (t = SDS_TYPE_5) then len * 8 else t).
Proof using Hb.
  unfold flags. rewrite (block_blk _ _ _ _ _ Hb), (block_off _ _ _ _ _ Hb). unfold header.
  destruct (type_cases t block_type) as [[-> ->]|(w & -> & Ht & _ & Hw & -> & _)]; [done|].
  rewrite decide_False by done. apply bytes_at_single. rewrite <- !app_assoc.
  unfold bytes_at. split_and!; [lia|zlia|].
  rewrite !slice_app_r by zlia. rewrite slice_app_l by zlia. apply slice_all; zlia.
Qed.

Lemma block_land : 
  Z.land (if decide (t = SDS_TYPE_5) then len * 8 else t) SDS_TYPE_MASK = t.
Proof using Hb.
  destruct (type_cases t block_type) as [[-> _]|(w & _ & Ht & Hl & _)].
  - rewrite decide_True by done. change SDS_TYPE_MASK with (Z.ones 3). rewrite Z.land_ones by lia.
    change (2 ^ 3) with 8. apply Z.mod_mul. lia.
  - by rewrite decide_False by done.
Qed.

Lemma field_ok w k : field_width t = Some w -> k = 1 \/ k = 2 ->
  get_field s w k = Some (if decide (k = 2) then len else alloc).
Proof using Hb.
  intros Hw Hk. destruct (type_cases t block_type) as [[-> Hw']|(w' & Hw' & Ht & _ & Hwr & Hsz & Hmax & _)]; [congruence|].
  rewrite Hw in Hw'. injection Hw' as <-. unfold get_field.
  rewrite (block_off _ _ _ _ _ Hb), (block_blk _ _ _ _ _ Hb), Hsz. unfold header. rewrite Hw.
  assert (0 <= len < 2 ^ (8 * Z.of_nat w) /\ 0 <= alloc < 2 ^ (8 * Z.of_nat w)) as [Hl Ha].
  { pose proof (block_hdr _ _ _ _ _ Hb) as [(? & _)|(_ & ? & ?)]; [done|]. lia. }
  rewrite <- !app_assoc. destruct Hk as [->| ->].
  - rewrite decide_False by done. rewrite mem_read_Some by zlia. cbn [fmap option_fmap option_map]. f_equal.
    rewrite slice_app_r by zlia. rewrite slice_app_l by zlia. rewrite slice_all by zlia.
    rewrite le_val_le_bytes. by apply Z.mod_small.
  - rewrite decide_True by done. rewrite mem_read_Some by zlia. cbn [fmap option_fmap option_map]. f_equal.
    rewrite slice_app_l by zlia. replace (2 * Z.of_nat w + 1 - 1 - 2 * Z.of_nat w) with 0 by lia.
    rewrite slice_full by zlia. rewrite le_val_le_bytes. by apply Z.mod_small.
Qed.

Lemma sdslen_ok : sdslen s = Some len.
Proof using Hb.
  unfold sdslen. rewrite block_flags. cbn [mbind option_bind]. rewrite block_land.
  destruct (type_cases t block_type) as [[-> Hw]|(w & Hw & Ht & _)].
  - rewrite !decide_True by done. f_equal. rewrite Z.shiftr_div_pow2 by done. by apply Z.div_mul.
  - rewrite decide_False by done. rewrite Hw, (field_ok w 2) by auto. done.
Qed.

Lemma sdsalloc_ok : sdsalloc s = Some alloc.
Proof using Hb.
  unfold sdsalloc. rewrite block_flags. cbn [mbind option_bind]. rewrite block_land.
  destruct (type_cases t block_type) as [[-> Hw]|(w & Hw & Ht & _)].
  - rewrite !decide_True by done. f_equal. rewrite Z.shiftr_div_pow2 by done.
    change (2 ^ SDS_TYPE_BITS) with 8. rewrite Z.div_mul by done.
    destruct (block_hdr _ _ _ _ _ Hb) as [(_ & _ & ->)|([] & _)]; [done|]. unfold SDS_TYPE_5, SDS_TYPE_8 in *. lia.
  - rewrite decide_False by done. rewrite Hw, (field_ok w 1) by auto. done.
Qed.

Lemma sdsavail_ok : sdsavail s = Some (alloc - len).
Proof using Hb.
  unfold sdsavail. rewrite block_flags. cbn [mbind option_bind]. rewrite block_land.
  pose proof (block_len _ _ _ _ _ Hb) as Hl. pose proof (block_room _ _ _ _ _ Hb) as Hroom.
  pose proof (block_size _ _ _ _ _ Hb) as Hsize. rewrite (block_blk _ _ _ _ _ Hb), zlen_app in Hsize.
  pose proof (zlen_nonneg (header t len alloc)).
  destruct (type_cases t block_type) as [[Ht Hw]|(w & Hw & Ht & _)].
  - rewrite decide_True by done. f_equal.
    destruct (block_hdr _ _ _ _ _ Hb) as [(_ & _ & ->)|([] & _)]; [lia|]. rewrite Ht in *. unfold SDS_TYPE_5, SDS_TYPE_8 in *. lia.
  - rewrite decide_False by done. rewrite Hw, (field_ok w 1), (field_ok w 2) by auto. cbn [mbind option_bind].
    rewrite !decide_False, decide_True by done. f_equal. apply u64_small. lia.
Qed.

Lemma block_type_w w : field_width t = Some w ->
  t <> SDS_TYPE_5 /\ (1 <= w <= 8)%nat /\ sdsHdrSize t = 2 * Z.of_nat w + 1 /\ sdsTypeMaxSize t = 2 ^ (8 * Z.of_nat w) - 1 /\
  SDS_TYPE_8 <= t <= SDS_TYPE_64.
Proof using Hb.
  intros Hw. destruct (type_cases t block_type) as [[-> Hw']|(w' & Hw' & ? & _ & ? & ? & ? & ?)]; [congruence|].
  by replace w with w' by congruence.
Qed.

Lemma set_field_ok w v k : field_width t = Some w -> k = 1 \/ k = 2 ->
  let len' := if decide (k = 2) then v else len in
  let alloc' := if decide (k = 2) then alloc else v in
  0 <= len' <= alloc' -> alloc' <= sdsTypeMaxSize t -> alloc' + 1 <= zlen body ->
  exists s', set_field s w k v = Some s' /\ block s' t len' alloc' body.
Proof using Hb.
  intros Hw Hk len' alloc' Hle Hmax Hroom. destruct (block_type_w w Hw) as (Ht & Hwr & Hsz & Htm & Htr).
  unfold set_field. rewrite (block_off _ _ _ _ _ Hb), Hsz.
  pose proof (block_size _ _ _ _ _ Hb) as Hsize. rewrite (block_blk _ _ _ _ _ Hb) in Hsize |- *.
  assert (mem_write (header t len alloc ++ body) (2 * Z.of_nat w + 1 - 1 - k * Z.of_nat w) (le_bytes w v) =
          Some (header t len' alloc' ++ body)) as ->.
  { unfold header, len', alloc'. rewrite Hw. rewrite <- !app_assoc. destruct Hk as [->| ->].
    - rewrite decide_False by done. rewrite mem_write_Some by zlia. f_equal.
      rewrite splice_app_r, splice_app_l by zlia. rewrite zlen_le_bytes.
      replace (2 * Z.of_nat w + 1 - 1 - 1 * Z.of_nat w - Z.of_nat w) with 0 by lia. by rewrite splice_full by zlia.
    - rewrite decide_True by done. rewrite mem_write_Some by zlia. f_equal. rewrite splice_app_l by zlia.
      replace (2 * Z.of_nat w + 1 - 1 - 2 * Z.of_nat w) with 0 by lia. by rewrite splice_full by zlia. }
  cbn [mbind option_bind]. eexists. split; [done|]. split; cbn [blk off]; [done|lia|right; done|done|].
  rewrite !zlen_app, !zlen_header in * by apply block_type. done.
Qed.

Lemma set_flags_5 n : t = SDS_TYPE_5 -> 0 <= n < 32 -> n + 1 <= zlen body ->
  exists s', set_flags s (u8 (Z.lor SDS_TYPE_5 (Z.shiftl n SDS_TYPE_BITS))) = Some s' /\ block s' t n n body.
Proof using Hb.
  intros Ht Hn Hroom. unfold set_flags, set_char. rewrite (block_off _ _ _ _ _ Hb).
  pose proof (block_size _ _ _ _ _ Hb) as Hsize. rewrite (block_blk _ _ _ _ _ Hb) in Hsize |- *. rewrite Ht in *.
  unfold SDS_TYPE_5, SDS_TYPE_BITS. rewrite Z.lor_0_l, Z.shiftl_mul_pow2 by lia. change (2 ^ 3) with 8.
  unfold u8. rewrite uwrap_small by (unfold in_u; lia). change (header SDS_TYPE_5 len alloc ++ body) with (len * 8 :: body) in *.
  rewrite poke_Some by (change (sdsHdrSize 0) with 1; zlia). cbn [mbind option_bind]. eexists. split; [done|].
  split; cbn [blk off]; [done|done|left; done|lia|]. exact Hsize.
Qed.

Lemma sdssetlen_ok n : 0 <= n -> n <= (if decide (t = SDS_TYPE_5) then Z.min 31 (zlen body - 1) else alloc) ->
  exists s', sdssetlen s n = Some s' /\ block s' t n (if decide (t = SDS_TYPE_5) then n else alloc) body.
Proof using Hb.
  intros H0 Hn. unfold sdssetlen. rewrite block_flags. cbn [mbind option_bind]. rewrite block_land.
  destruct (type_cases t block_type) as [[Ht Hw]|(w & Hw & Ht & _)].
  - rewrite !(decide_True (P := t = SDS_TYPE_5)) in * by done. apply set_flags_5; [done|lia|lia].
  - rewrite !(decide_False (P := t = SDS_TYPE_5)) in * by done. rewrite Hw.
    pose proof (block_hdr _ _ _ _ _ Hb) as [(? & _)|(_ & _ & Hmax)]; [done|].
    destruct (set_field_ok w n 2 Hw ltac:(auto)) as (s' & -> & Hs'); [|done|apply (block_room _ _ _ _ _ Hb)|by exists s'].
    by rewrite !decide_True by done.
Qed.

Lemma sdssetalloc_ok n : len <= n <= sdsTypeMaxSize t -> n + 1 <= zlen body ->
  exists s', sdssetalloc s n = Some s' /\ block s' t len (if decide (t = SDS_TYPE_5) then alloc else n) body.
Proof using Hb.
  intros Hn Hroom. unfold sdssetalloc. rewrite block_flags. cbn [mbind option_bind]. rewrite block_land.
  pose proof (block_len _ _ _ _ _ Hb).
  destruct (type_cases t block_type) as [[Ht Hw]|(w & Hw & Ht & _)].
  - rewrite !(decide_True (P := t = SDS_TYPE_5)) in * by done. by exists s.
  - rewrite !(decide_False (P := t = SDS_TYPE_5)) in * by done. rewrite Hw.
    destruct (set_field_ok w n 1 Hw ltac:(auto)) as (s' & -> & Hs'); rewrite ?decide_False by done; [lia|lia|done|].
    rewrite !decide_False in Hs' by done. by exists s'.
Qed.

(** Stores to the characters. *)
Lemma write_at_ok i bs : 0 <= i -> i + zlen bs <= zlen body ->
  exists s', write_at s i bs = Some s' /\ block s' t len alloc (splice body i bs).
Proof using Hb.
  intros Hi Hl. unfold write_at. rewrite block_off_len. pose proof (block_size _ _ _ _ _ Hb) as Hsize.
  rewrite (block_blk _ _ _ _ _ Hb) in Hsize |- *. pose proof (zlen_nonneg (header t len alloc)).
  rewrite mem_write_Some by zlia. cbn [mbind option_bind]. eexists. split; [done|].
  rewrite splice_app_r by lia. replace (zlen (header t len alloc) + i - zlen (header t len alloc)) with i by lia.
  destruct Hb as [_ Hoff Hhdr Hroom _]. split; cbn [blk off]; [done|by rewrite zlen_header by apply block_type|done| |].
  - rewrite zlen_splice by lia. done.
  - rewrite zlen_app, zlen_splice, <- zlen_app by lia. done.
Qed.

Lemma set_char_ok i c : 0 <= i < zlen body ->
  exists s', set_char s i c = Some s' /\ block s' t len alloc (splice body i [c]).
Proof using Hb.
  intros Hi. destruct (write_at_ok i [c]) as (s' & Hw & Hs'); [lia|zlia|]. exists s'. split; [|done].
  unfold write_at in Hw. destruct (mem_write (blk s) (off s + i) [c]) as [b|] eqn:Em; [|done].
  apply mem_write_inv in Em as (Hle & Hlt & ->). rewrite zlen_cons, zlen_nil in Hlt.
  unfold set_char. rewrite poke_splice by lia. exact Hw.
Qed.

Lemma read_at_ok i n : 0 <= i -> 0 <= n -> i + n <= zlen body -> read_at s i n = Some (slice body i n).
Proof using Hb.
  intros Hi Hn Hl. unfold read_at. rewrite block_off_len, (block_blk _ _ _ _ _ Hb). pose proof (zlen_nonneg (header t len alloc)).
  rewrite mem_read_Some by zlia. f_equal. rewrite slice_app_r by lia. f_equal. lia.
Qed.

Lemma char_at_ok i : 0 <= i -> char_at s i = peek body i.
Proof using Hb.
  intros Hi. unfold char_at, peek. rewrite block_off_len, (block_blk _ _ _ _ _ Hb). pose proof (zlen_nonneg (header t len alloc)).
  rewrite !decide_True by lia. rewrite lookup_app_r by (unfold zlen in *; lia). f_equal. unfold zlen. lia.
Qed.

Lemma move_ok i n : 0 <= i -> 0 <= n -> i + n <= zlen body ->
  exists s', (b ← mem_move (blk s) (off s) (off s + i) n; Some (Sds b (off s))) = Some s' /\
    block s' t len alloc (splice body 0 (slice body i n)).
Proof using Hb.
  intros Hi Hn Hl. unfold mem_move. pose proof (read_at_ok i n Hi Hn Hl) as Hr. unfold read_at in Hr. rewrite Hr.
  cbn [mbind option_bind]. destruct (write_at_ok 0 (slice body i n)) as (s' & Hw & Hs'); [lia|rewrite zlen_slice; lia|].
  unfold write_at in Hw. rewrite Z.add_0_r in Hw. by exists s'.
Qed.
End blocks.

(** ** Creation and growth *)

Lemma splice_prefix (m bs : bytes) : zlen bs <= zlen m -> exists rest, splice m 0 bs = bs ++ rest /\ zlen rest = zlen m - zlen bs.
Proof.
  intros. unfold splice. change (Z.to_nat 0) with 0%nat. rewrite take_0. cbn [app Nat.add]. eexists. split; [done|]. zlia.
Qed.

Lemma last_cases {A} (l : list A) : l = [] \/ exists l' x, l = l' ++ [x].
Proof. destruct l using rev_ind; [by left|right; eauto]. Qed.

Lemma split_at (m : bytes) n : 0 <= n <= zlen m -> exists a b, m = a ++ b /\ zlen a = n /\ zlen b = zlen m - n.
Proof. intros. exists (take (Z.to_nat n) m), (drop (Z.to_nat n) m). rewrite take_drop. split_and!; [done|zlia|zlia]. Qed.

Lemma header_small t len alloc : header_ok t len alloc -> 0 <= len /\ 0 <= alloc <= sdsTypeMaxSize t.
Proof.
  intros [(-> & ? & ->)|(? & ? & ?)]; [|lia]. change (sdsTypeMaxSize SDS_TYPE_5) with 31. lia.
Qed.

Lemma init_header_ok s h0 body t len alloc :
  blk s = h0 ++ body -> zlen h0 = sdsHdrSize t -> off s = sdsHdrSize t -> 0 <= t <= 4 ->
  header_ok t len (if decide (t = SDS_TYPE_5) then len else alloc) -> len + 1 <= zlen body -> alloc + 1 <= zlen body -> zlen (blk s) < 2 ^ 63 ->
  exists s', init_header s t len alloc = Some s' /\ block s' t len (if decide (t = SDS_TYPE_5) then len else alloc) body.
Proof.
  intros Hblk Hh0 Hoff Ht Hok Hlen Halloc Hsize. unfold init_header.
  destruct (type_cases t Ht) as [[E Hw]|(w & Hw & Hn5 & _ & Hwr & Hsz & _)].
  - rewrite !(decide_True (P := t = SDS_TYPE_5)) in * by done. subst t. destruct h0 as [|x [|y h0]].
    + change (sdsHdrSize SDS_TYPE_5) with 1 in Hh0. rewrite zlen_nil in Hh0. lia.
    + assert (block (Sds (len * 8 :: body) 1) SDS_TYPE_5 len len body) as Hb.
      { split; cbn [blk off]; [done|done|done|lia|]. rewrite Hblk in Hsize. exact Hsize. }
      unfold header_ok, SDS_TYPE_8, SDS_TYPE_5 in Hok. destruct (set_flags_5 _ _ _ _ _ Hb len) as (s' & Hs' & Hb'); [done|lia|lia|].
      exists s'. split; [|done]. rewrite <- Hs'. unfold set_flags, set_char. rewrite Hoff, Hblk. done.
    + change (sdsHdrSize SDS_TYPE_5) with 1 in Hh0. rewrite !zlen_cons in Hh0. pose proof (zlen_nonneg h0). lia.
  - rewrite !(decide_False (P := t = SDS_TYPE_5)) in * by done. rewrite Hw. unfold set_field, set_flags, set_char.
    rewrite Hoff, Hblk, Hsz in *. rewrite zlen_app in Hsize.
    replace (2 * Z.of_nat w + 1 - 1 - 2 * Z.of_nat w) with 0 by lia.
    pose proof (zlen_le_bytes w len) as Hz1. pose proof (zlen_le_bytes w alloc) as Hz2. pose proof (zlen_nonneg body).
    rewrite mem_write_Some by (rewrite ?zlen_app; lia). cbn [mbind option_bind blk off].
    rewrite mem_write_Some by (rewrite ?zlen_splice; rewrite ?zlen_app; lia). cbn [mbind option_bind blk off].
    replace (2 * Z.of_nat w + 1 - 1 - 1 * Z.of_nat w) with (0 + zlen (le_bytes w len)) by zlia.
    replace (2 * Z.of_nat w + 1 + -1) with (0 + zlen (le_bytes w len ++ le_bytes w alloc)) by zlia.
    rewrite splice_splice_right by (rewrite ?zlen_app; lia).
    rewrite poke_splice by (rewrite ?zlen_splice; rewrite ?zlen_app; lia). cbn [mbind option_bind]. eexists. split; [done|].
    rewrite splice_splice_right by (change (zlen [t]) with 1; rewrite ?zlen_app; lia). rewrite splice_app_l by (rewrite ?zlen_app; change (zlen [t]) with 1; lia).
    rewrite splice_full by (rewrite ?zlen_app; change (zlen [t]) with 1; lia).
    split; cbn [blk off].
    + unfold header. rewrite Hw. by rewrite <- !app_assoc.
    + by rewrite Hsz.
    + done.
    + done.
    + rewrite zlen_app. zlia.
Qed.

(** Growing a block keeps its front. *)
Lemma realloc_front (junk : nat -> Z) (h body : bytes) n : zlen h <= n ->
  exists body', mem_realloc junk (h ++ body) n = h ++ body' /\ zlen body' = n - zlen h /\
    forall cs, bytes_at body 0 cs -> zlen cs <= n - zlen h -> bytes_at body' 0 cs.
Proof.
  intros Hn. pose proof (zlen_nonneg h). pose proof (zlen_mem_realloc junk (h ++ body) n ltac:(lia)) as Hz. unfold mem_realloc in *.
  rewrite take_app_ge in * by zlia. rewrite <- app_assoc in *. eexists. split; [done|]. split.
  - rewrite zlen_app in Hz. lia.
  - intros cs (_ & Hl & Hs) Hle. pose proof (zlen_nonneg cs).
    assert (slice (take (Z.to_nat n - length h) body) 0 (zlen cs) = cs) as Ht.
    { unfold slice in *. change (Z.to_nat 0) with 0%nat in *. rewrite drop_0 in *. rewrite take_take.
      rewrite <- Hs at 2. f_equal. unfold zlen in *. lia. }
    split_and!; [lia|rewrite zlen_app in Hz; lia|]. rewrite slice_app_l by zlia. done.
Qed.

(** Ends of operations: the length is set and the NUL is written, in either order. *)
Lemma terminate s t alloc body cs : block s t (zlen cs) alloc body -> bytes_at body 0 cs ->
  exists s', set_char s (zlen cs) 0 = Some s' /\ sds_rep s' cs.
Proof.
  intros Hb Hcs. pose proof (block_room _ _ _ _ _ Hb). pose proof (block_len _ _ _ _ _ Hb). pose proof (zlen_nonneg cs).
  destruct (set_char_ok _ _ _ _ _ Hb (zlen cs) 0) as (s' & -> & Hs'); [lia|]. exists s'. split; [done|].
  exists t, alloc, (splice body (zlen cs) [0]). split; [done|]. apply bytes_at_app. split.
  - apply bytes_at_splice_other; [lia|change (zlen [0]) with 1; lia|done|left; lia].
  - apply bytes_at_splice; [lia|]. change (zlen [0]) with 1. lia.
Qed.

Lemma set_len s t len alloc body n : block s t len alloc body -> 0 <= n <= alloc ->
  exists s' alloc', sdssetlen s n = Some s' /\ block s' t n alloc' body.
Proof.
  intros Hb Hn. destruct (sdssetlen_ok _ _ _ _ _ Hb n) as (s' & -> & Hs'); [lia| |by eauto].
  pose proof (block_room _ _ _ _ _ Hb). case_decide as Ht; [|lia].
  pose proof (block_hdr _ _ _ _ _ Hb) as [(_ & ? & ->)|(? & _)]; [lia|]. unfold SDS_TYPE_5, SDS_TYPE_8 in *. lia.
Qed.

Lemma setlen_terminate s t len alloc body cs : block s t len alloc body -> bytes_at body 0 cs -> zlen cs <= alloc ->
  exists s', (s ← sdssetlen s (zlen cs); set_char s (zlen cs) 0) = Some s' /\ sds_rep s' cs.
Proof.
  intros Hb Hcs Hn. pose proof (zlen_nonneg cs). destruct (set_len _ _ _ _ _ (zlen cs) Hb) as (s1 & alloc1 & -> & Hb1); [lia|].
  cbn [mbind option_bind]. by eapply terminate.
Qed.

Lemma terminate_setlen s t len alloc body cs : block s t len alloc body -> bytes_at body 0 cs -> zlen cs <= alloc ->
  exists s' alloc' body', (s ← set_char s (zlen cs) 0; sdssetlen s (zlen cs)) = Some s' /\ block s' t (zlen cs) alloc' body' /\
    zlen body' = zlen body /\ bytes_at body' 0 (cs ++ [0]).
Proof.
  intros Hb Hcs Hn. pose proof (block_room _ _ _ _ _ Hb). pose proof (zlen_nonneg cs).
  destruct (set_char_ok _ _ _ _ _ Hb (zlen cs) 0) as (s1 & -> & Hb1); [lia|]. cbn [mbind option_bind].
  destruct (set_len _ _ _ _ _ (zlen cs) Hb1) as (s2 & alloc2 & -> & Hb2); [lia|].
  exists s2, alloc2, (splice body (zlen cs) [0]). split; [done|]. split; [done|]. change (zlen [0]) with 1.
  split; [apply zlen_splice; change (zlen [0]) with 1; lia|]. apply bytes_at_app. split.
  - apply bytes_at_splice_other; [lia|change (zlen [0]) with 1; lia|done|left; lia].
  - apply bytes_at_splice; [lia|]. change (zlen [0]) with 1. lia.
Qed.

Lemma terminate_setlen_rep s t len alloc body cs : block s t len alloc body -> bytes_at body 0 cs -> zlen cs <= alloc ->
  exists s', (s ← set_char s (zlen cs) 0; sdssetlen s (zlen cs)) = Some s' /\ sds_rep s' cs.
Proof.
  intros Hb Hcs Hn. destruct (terminate_setlen _ _ _ _ _ _ Hb Hcs Hn) as (s' & alloc' & body' & -> & Hb' & _ & Hc).
  exists s'. split; [done|]. by exists t, alloc', body'.
Qed.

Lemma type_max :
  sdsTypeMaxSize SDS_TYPE_5 = 2 ^ 5 - 1 /\ sdsTypeMaxSize SDS_TYPE_8 = 2 ^ 8 - 1 /\ sdsTypeMaxSize SDS_TYPE_16 = 2 ^ 16 - 1 /\
  sdsTypeMaxSize SDS_TYPE_32 = 2 ^ 32 - 1 /\ sdsTypeMaxSize SDS_TYPE_64 = 2 ^ 64 - 1.
Proof. by vm_compute. Qed.

Lemma req_type n : 0 <= n < 2 ^ 63 ->
  0 <= sdsReqType n <= 4 /\ n <= sdsTypeMaxSize (sdsReqType n) /\ (sdsReqType n = SDS_TYPE_5 -> n < 32).
Proof.
  intros Hn. unfold sdsReqType. pose proof type_max as (H5 & H8 & H16 & H32 & H64).
  repeat case_decide; rewrite ?H5, ?H8, ?H16, ?H32, ?H64; split_and!; try done; lia.
Qed.

Lemma hdr_size t : 0 <= t <= 4 -> 1 <= sdsHdrSize t <= 17.
Proof. intros Ht. assert (t = 0 \/ t = 1 \/ t = 2 \/ t = 3 \/ t = 4) as [->|[->|[->|[->| ->]]]] by lia; done. Qed.

Lemma min_capped u m : (if decide (u > m) then m else u) = Z.min u m.
Proof. case_decide; lia. Qed.

(** A block whose header has its type byte but not its fields yet: what a
    reallocation leaves. *)
Record raw (s : sds) (t : Z) (h body : bytes) : Prop := {
  raw_blk : blk s = h ++ body;
  raw_off : off s = sdsHdrSize t;
  raw_hdr : zlen h = sdsHdrSize t;
  raw_type : 0 <= t <= 4;
  raw_flag : exists h' f, h = h' ++ [f] /\ Z.land f SDS_TYPE_MASK = t /\ (t <> SDS_TYPE_5 -> f = t);
}.

(** The length field is set. *)
Definition with_len (t n : Z) (h : bytes) : Prop :=
  match field_width t with Some w => exists f2, h = le_bytes w n ++ f2 | None => h = [n * 8] end.

Lemma block_raw s t len alloc body : block s t len alloc body -> raw s t (header t len alloc) body.
Proof.
  intros Hb. pose proof (block_type _ _ _ _ _ Hb) as Ht. pose proof (block_land _ _ _ _ _ Hb) as Hl. destruct Hb as [Hblk Hoff Hhdr Hroom _].
  split; [done|done|by apply zlen_header|done|]. unfold header.
  destruct (type_cases t Ht) as [[-> ->]|(w & -> & Hn5 & Hland & _)].
  - by exists [], (len * 8).
  - exists (le_bytes w len ++ le_bytes w alloc), t. by rewrite <- app_assoc.
Qed.

Lemma raw_flags s t h body : raw s t h body -> exists f, flags s = Some f /\ Z.land f SDS_TYPE_MASK = t.
Proof.
  intros [Hblk Hoff Hhdr Ht (h' & f & -> & Hf & _)]. exists f. split; [|done]. unfold flags. rewrite Hblk, Hoff.
  rewrite zlen_app in Hhdr. change (zlen [f]) with 1 in Hhdr. apply bytes_at_single. pose proof (zlen_nonneg h'). pose proof (zlen_nonneg body).
  unfold bytes_at. change (zlen [f]) with 1. rewrite !zlen_app. change (zlen [f]) with 1. split_and!; [lia|lia|].
  rewrite <- app_assoc. rewrite slice_app_r by lia. rewrite slice_app_l by (change (zlen [f]) with 1; lia). apply slice_all; [lia|done].
Qed.

Lemma raw_set_char s t h body i c : raw s t h body -> 0 <= i < zlen body ->
  exists s', set_char s i c = Some s' /\ raw s' t h (splice body i [c]).
Proof.
  intros [Hblk Hoff Hhdr Ht Hf] Hi. unfold set_char. rewrite Hblk, Hoff. rewrite poke_splice by (rewrite zlen_app; pose proof (zlen_nonneg h); lia).
  cbn [mbind option_bind]. eexists. split; [done|]. rewrite splice_app_r by lia. rewrite Hhdr.
  replace (sdsHdrSize t + i - sdsHdrSize t) with i by lia. by split.
Qed.

Lemma raw_setlen s t h body n : raw s t h body -> 0 <= n -> (t = SDS_TYPE_5 -> n < 32) ->
  exists s' h', sdssetlen s n = Some s' /\ raw s' t h' body /\ with_len t n h'.
Proof.
  intros Hr H0 H5. destruct (raw_flags _ _ _ _ Hr) as (f & Hfl & Hf). unfold sdssetlen. rewrite Hfl. cbn [mbind option_bind]. rewrite Hf.
  destruct Hr as [Hblk Hoff Hhdr Ht (h' & f' & -> & Hf' & Hn5)]. unfold with_len.
  destruct (type_cases t Ht) as [[-> Hw]|(w & Hw & Hne & Hland & Hwr & Hsz & _)].
  - rewrite decide_True by done. specialize (H5 eq_refl). change (sdsHdrSize SDS_TYPE_5) with 1 in *.
    rewrite zlen_app in Hhdr. change (zlen [f']) with 1 in Hhdr. assert (h' = []) as -> by (apply zlen_0; lia).
    assert (u8 (Z.lor SDS_TYPE_5 (Z.shiftl n SDS_TYPE_BITS)) = n * 8) as ->.
    { unfold SDS_TYPE_5, SDS_TYPE_BITS. rewrite Z.lor_0_l, Z.shiftl_mul_pow2 by lia. change (2 ^ 3) with 8. apply uwrap_small. unfold in_u. lia. }
    unfold set_flags, set_char. rewrite Hoff, Hblk. rewrite poke_Some by (change (([] ++ [f']) ++ body) with (f' :: body); zlia).
    cbn [mbind option_bind]. eexists _, [n * 8]. split; [done|]. split; [|done]. split; cbn [blk off]; [done|done|done|done|].
    exists [], (n * 8). split_and!; [done| |done]. change SDS_TYPE_MASK with (Z.ones 3). rewrite Z.land_ones by lia. apply Z.mod_mul. lia.
  - rewrite decide_False by done. rewrite Hw. unfold set_field. rewrite Hoff, Hblk, Hsz.
    replace (2 * Z.of_nat w + 1 - 1 - 2 * Z.of_nat w) with 0 by lia. rewrite Hsz, zlen_app in Hhdr. change (zlen [f']) with 1 in Hhdr.
    pose proof (zlen_nonneg body). rewrite mem_write_Some by (rewrite ?zlen_app, ?zlen_le_bytes; change (zlen [f']) with 1; lia).
    cbn [mbind option_bind]. rewrite <- app_assoc. rewrite splice_app_l by (rewrite ?zlen_le_bytes; lia).
    destruct (splice_prefix h' (le_bytes w n)) as (rest & -> & Hrest); [rewrite zlen_le_bytes; lia|]. rewrite zlen_le_bytes in Hrest.
    eexists _, ((le_bytes w n ++ rest) ++ [f']). split; [done|]. split.
    + split; cbn [blk off]; [by rewrite <- !app_assoc|by rewrite Hsz| |done|by eexists _, _].
      rewrite !zlen_app, zlen_le_bytes, Hsz. change (zlen [f']) with 1. lia.
    + eexists. by rewrite <- app_assoc.
Qed.

Lemma raw_setalloc s t h body n a : raw s t h body -> with_len t n h -> header_ok t n (if decide (t = SDS_TYPE_5) then n else a) ->
  n + 1 <= zlen body -> a + 1 <= zlen body -> zlen (blk s) < 2 ^ 63 ->
  exists s', sdssetalloc s a = Some s' /\ block s' t n (if decide (t = SDS_TYPE_5) then n else a) body.
Proof.
  intros Hr Hl Hok Hn Ha Hsize. destruct (raw_flags _ _ _ _ Hr) as (f & Hfl & Hf). unfold sdssetalloc. rewrite Hfl. cbn [mbind option_bind]. rewrite Hf.
  destruct Hr as [Hblk Hoff Hhdr Ht (h' & f' & -> & Hf' & Hn5)]. unfold with_len in Hl.
  destruct (type_cases t Ht) as [[-> Hw]|(w & Hw & Hne & Hland & Hwr & Hsz & _)].
  - rewrite !(decide_True (P := SDS_TYPE_5 = SDS_TYPE_5)) in * by done. exists s. split; [done|]. rewrite Hw in Hl. rewrite Hl in Hblk. by split.
  - rewrite !(decide_False (P := t = SDS_TYPE_5)) in * by done. rewrite Hw in *. destruct Hl as [f2 Hl]. specialize (Hn5 Hne). subst f'.
    assert (exists f3, f2 = f3 ++ [t]) as (f3 & ->).
    { destruct (last_cases f2) as [->|(f3 & x & ->)].
      - rewrite Hl, app_nil_r, zlen_le_bytes in Hhdr. lia.
      - exists f3. rewrite app_assoc in Hl. apply app_inj_tail in Hl as [_ <-]. done. }
    rewrite app_assoc in Hl. apply app_inj_tail in Hl as [-> _]. rewrite !zlen_app, zlen_le_bytes, Hsz in Hhdr. change (zlen [t]) with 1 in Hhdr.
    unfold set_field. rewrite Hoff, Hblk, Hsz. rewrite <- !app_assoc. pose proof (zlen_nonneg body).
    rewrite mem_write_Some by (rewrite ?zlen_app, ?zlen_le_bytes; change (zlen [t]) with 1; lia). cbn [mbind option_bind].
    eexists. split; [done|]. replace (2 * Z.of_nat w + 1 - 1 - 1 * Z.of_nat w) with (Z.of_nat w) by lia.
    rewrite splice_app_r by (rewrite zlen_le_bytes; lia). rewrite zlen_le_bytes, Z.sub_diag. rewrite splice_app_l by (rewrite ?zlen_le_bytes; lia).
    rewrite splice_full by (rewrite zlen_le_bytes; lia). rewrite Hblk in Hsize. rewrite !zlen_app in Hsize.
    split; cbn [blk off]; [unfold header; rewrite Hw; by rewrite <- !app_assoc|by rewrite Hsz|done|done|].
    rewrite !zlen_app, !zlen_le_bytes in *. lia.
Qed.

Lemma raw_set_flags m t h0 body : 0 <= t <= 4 -> m = h0 ++ body -> zlen h0 = sdsHdrSize t ->
  exists s h, set_flags (Sds m (sdsHdrSize t)) t = Some s /\ raw s t h body.
Proof.
  intros Ht -> Hh. pose proof (hdr_size t Ht). destruct (last_cases h0) as [->|(h & x & ->)].
  { rewrite zlen_nil in Hh. lia. }
  rewrite zlen_app in Hh. change (zlen [x]) with 1 in Hh. pose proof (zlen_nonneg h). pose proof (zlen_nonneg body).
  unfold set_flags, set_char. cbn [blk off]. rewrite poke_splice by (rewrite !zlen_app; change (zlen [x]) with 1; lia).
  cbn [mbind option_bind]. rewrite <- app_assoc. rewrite splice_app_r by lia. replace (sdsHdrSize t + -1 - zlen h) with 0 by lia.
  eexists _, (h ++ [t]). split; [done|]. rewrite splice_app_l by done. rewrite splice_full by done.
  split; cbn [blk off]; [by rewrite <- app_assoc|done|rewrite zlen_app; exact Hh|done|].
  exists h, t. split_and!; [done| |done]. destruct (type_cases t Ht) as [[-> _]|(w & _ & _ & ? & _)]; done.
Qed.

Lemma sdssetlen_size s n s' : sdssetlen s n = Some s' -> zlen (blk s') = zlen (blk s).
Proof.
  unfold sdssetlen, set_flags, set_char, set_field. intros H. unbind H. case_decide; [|destruct (field_width _)].
  - unbind H. apply poke_inv in E0 as (? & ->). simplify_eq. cbn [blk]. apply zlen_splice; [lia|]. rewrite zlen_cons, zlen_nil. lia.
  - unbind H. apply mem_write_inv in E0 as (? & ? & ->). simplify_eq. by apply zlen_splice.
  - by simplify_eq.
Qed.

Section ops.
Variables (junk : nat -> Z) (usable : Z -> Z) (try_ok : Z -> bool).
Hypothesis usable_ok : forall n, 0 <= n < 2 ^ 62 -> n <= usable n < 2 ^ 63.

Lemma zlen_malloc n : 0 <= n < 2 ^ 62 -> zlen (s_malloc_usable junk usable n) = usable n.
Proof using usable_ok. intros Hn. unfold s_malloc_usable. pose proof (usable_ok n Hn). rewrite zlen_mem_realloc; lia. Qed.

(** The characters of a new string. *)
Definition init_chars (init : sds_init) (initlen : Z) (cs : bytes) : Prop :=
  zlen cs = initlen /\
  match init with
  | InitNull => cs = replicate (Z.to_nat initlen) 0
  | InitNoinit => True
  | InitBytes bs => cs = slice bs 0 initlen
  end.

Lemma new_block init n hdrlen : 0 <= hdrlen -> 0 <= n -> hdrlen + n + 1 < 2 ^ 62 ->
  exists h0 body,
    (match init with
     | InitNull => mem_write (s_malloc_usable junk usable (hdrlen + n + 1)) 0 (replicate (Z.to_nat (hdrlen + n + 1)) 0)
     | _ => Some (s_malloc_usable junk usable (hdrlen + n + 1))
     end) = Some (h0 ++ body) /\ zlen h0 = hdrlen /\ zlen body = usable (hdrlen + n + 1) - hdrlen /\
    (init = InitNull -> bytes_at body 0 (replicate (Z.to_nat n) 0)).
Proof using usable_ok.
  intros Hh Hn Hlt. pose proof (usable_ok (hdrlen + n + 1) ltac:(lia)). pose proof (zlen_malloc (hdrlen + n + 1) ltac:(lia)) as Hz.
  set (m := s_malloc_usable _ _ _) in *. destruct (decide (init = InitNull)) as [->|Hi].
  - rewrite mem_write_Some by (rewrite ?zlen_replicate; lia).
    destruct (splice_prefix m (replicate (Z.to_nat (hdrlen + n + 1)) 0)) as (rest & -> & Hrest); [rewrite zlen_replicate; lia|].
    exists (replicate (Z.to_nat hdrlen) 0), (replicate (Z.to_nat n) 0 ++ [0] ++ rest).
    rewrite zlen_replicate in Hrest. rewrite !zlen_app, !zlen_replicate. change (zlen [0]) with 1. split_and!; [|lia|lia|].
    + f_equal. rewrite !app_assoc. f_equal. change [0] with (replicate 1 0). rewrite <- !replicate_add. f_equal. lia.
    + intros _. unfold bytes_at. rewrite !zlen_app, !zlen_replicate. change (zlen [0]) with 1. split_and!; [lia|zlia|].
      rewrite slice_app_l by (rewrite ?zlen_replicate; lia). apply slice_full. by rewrite zlen_replicate.
  - destruct (split_at m hdrlen ltac:(lia)) as (h0 & body & Em & Hh0 & Hbody). exists h0, body. rewrite <- Em.
    split_and!; [by destruct init|done|lia|done].
Qed.

(** Copying the characters into a new block. *)
Lemma fill_ok init n s t alloc body :
  block s t n alloc body -> (init = InitNull -> bytes_at body 0 (replicate (Z.to_nat n) 0)) ->
  (forall bs, init = InitBytes bs -> n <= zlen bs) ->
  exists s' body' cs,
    (match init with
     | InitBytes bs => if decide (n <> 0) then src ← mem_read bs 0 n; write_at s 0 src else Some s
     | _ => Some s
     end) = Some s' /\ block s' t n alloc body' /\ bytes_at body' 0 cs /\ init_chars init n cs.
Proof using Type.
  intros Hb Hnull Hbytes. pose proof (block_len _ _ _ _ _ Hb). pose proof (block_room _ _ _ _ _ Hb). unfold init_chars.
  destruct init as [| |bs].
  - exists s, body, (replicate (Z.to_nat n) 0). rewrite zlen_replicate. split_and!; [done|done|by apply Hnull|lia|done].
  - exists s, body, (slice body 0 n). rewrite zlen_slice by lia. split_and!; [done|done|apply bytes_at_inv; lia|done|done].
  - specialize (Hbytes bs eq_refl). case_decide as Hn0.
    + rewrite mem_read_Some by lia. cbn [mbind option_bind].
      destruct (write_at_ok _ _ _ _ _ Hb 0 (slice bs 0 n)) as (s' & -> & Hb'); [lia|rewrite zlen_slice; lia|].
      exists s', (splice body 0 (slice bs 0 n)), (slice bs 0 n). rewrite zlen_slice by lia.
      split_and!; [done|done|apply bytes_at_splice; rewrite ?zlen_slice; lia|done|done].
    + assert (n = 0) as -> by lia. exists s, body, []. split_and!; [done|done|apply bytes_at_nil; lia|done|done].
Qed.

Lemma _sdsnewlen_ok init n (trymalloc : bool) : 0 <= n < 2 ^ 61 -> (forall bs, init = InitBytes bs -> n <= zlen bs) ->
  (trymalloc = false \/ forall m, try_ok m = true) ->
  exists s cs, _sdsnewlen junk usable try_ok init n trymalloc = Some (Some s) /\ sds_rep s cs /\ init_chars init n cs.
Proof using usable_ok.
  intros Hn Hbytes Htry. unfold _sdsnewlen.
  set (t := if decide (sdsReqType n = SDS_TYPE_5 /\ n = 0) then SDS_TYPE_8 else sdsReqType n).
  assert (0 <= t <= 4 /\ n <= sdsTypeMaxSize t /\ (t = SDS_TYPE_5 -> n < 32)) as (Ht & Hmax & H5).
  { pose proof (req_type n ltac:(lia)). unfold t. case_decide as E; [|done]. destruct E as [_ ->]. done. }
  pose proof (hdr_size t Ht) as Hhdr. rewrite assert_True by (rewrite u64_small; lia). cbn [mbind option_bind].
  replace (trymalloc && negb _) with false by (destruct Htry as [->| ->]; [done|by rewrite andb_comm]).
  destruct (new_block init n (sdsHdrSize t)) as (h0 & body & -> & Hh0 & Hbody & Hnull); [lia|lia|lia|]. cbn [mbind option_bind].
  pose proof (usable_ok (sdsHdrSize t + n + 1) ltac:(lia)) as Hu. rewrite zlen_app, Hh0, Hbody.
  rewrite u64_small by lia. rewrite min_capped. set (alloc := Z.min _ _). assert (n <= alloc <= sdsTypeMaxSize t /\ alloc + 1 <= zlen body) by lia.
  destruct (init_header_ok (Sds (h0 ++ body) (sdsHdrSize t)) h0 body t n alloc) as (s1 & -> & Hb1); cbn [blk off]; try done; try lia.
  { case_decide as E; [left; split_and!; [done|lia|by apply H5|done]|right; split_and!; lia || (unfold SDS_TYPE_5, SDS_TYPE_8, SDS_TYPE_64 in *; lia)]. }
  { rewrite zlen_app. lia. }
  cbn [mbind option_bind]. destruct (fill_ok init n s1 _ _ _ Hb1 Hnull Hbytes) as (s2 & body2 & cs & -> & Hb2 & Hcs & Hi).
  cbn [mbind option_bind]. pose proof Hi as [<- _]. destruct (terminate _ _ _ _ _ Hb2 Hcs) as (s3 & -> & Hs3).
  exists s3, cs. done.
Qed.


(** Both ways of growing end in a block of the new type; the characters stay. *)
Lemma grow_same s t len alloc body n : block s t len alloc body -> t <> SDS_TYPE_5 ->
  alloc <= n -> n <= sdsTypeMaxSize t -> sdsHdrSize t + n + 1 < 2 ^ 62 ->
  exists s' alloc' body',
    sdssetalloc (Sds (s_realloc_usable junk usable (blk s) (sdsHdrSize t + n + 1)) (sdsHdrSize t))
      (Z.min (usable (sdsHdrSize t + n + 1) - sdsHdrSize t - 1) (sdsTypeMaxSize t)) = Some s' /\
    block s' t len alloc' body' /\ n <= alloc' /\
    forall cs, bytes_at body 0 cs -> zlen cs <= n + 1 -> bytes_at body' 0 cs.
Proof using usable_ok.
  intros Hb Ht Hn Hmax Hlt. pose proof (block_type _ _ _ _ _ Hb) as Htr. pose proof (hdr_size t Htr). pose proof (block_len _ _ _ _ _ Hb).
  pose proof (usable_ok (sdsHdrSize t + n + 1) ltac:(lia)) as Hu. pose proof (zlen_header t len alloc Htr) as Hzh.
  destruct (realloc_front junk (header t len alloc) body (usable (sdsHdrSize t + n + 1))) as (body' & Hre & Hz & Hkeep); [lia|].
  unfold s_realloc_usable. rewrite (block_blk _ _ _ _ _ Hb), Hre.
  assert (block (Sds (header t len alloc ++ body') (sdsHdrSize t)) t len alloc body') as Hb'.
  { split; cbn [blk off]; [done|done|apply (block_hdr _ _ _ _ _ Hb)|lia|rewrite zlen_app; lia]. }
  destruct (sdssetalloc_ok _ _ _ _ _ Hb' (Z.min (usable (sdsHdrSize t + n + 1) - sdsHdrSize t - 1) (sdsTypeMaxSize t)))
    as (s' & -> & Hs'); [lia|lia|].
  rewrite decide_False in Hs' by done. eexists s', _, body'. split; [done|]. split; [exact Hs'|]. split; [lia|].
  intros cs Hcs Hle. apply Hkeep; [done|lia].
Qed.

Lemma grow_new t cs x n : 1 <= t <= 4 -> zlen cs <= n -> n <= sdsTypeMaxSize t -> sdsHdrSize t + n + 1 < 2 ^ 62 ->
  exists m s1 s2 s' alloc' body',
    mem_write (s_malloc_usable junk usable (sdsHdrSize t + n + 1)) (sdsHdrSize t) (cs ++ [x]) = Some m /\
    zlen m = usable (sdsHdrSize t + n + 1) /\ set_flags (Sds m (sdsHdrSize t)) t = Some s1 /\ sdssetlen s1 (zlen cs) = Some s2 /\
    sdssetalloc s2 (Z.min (usable (sdsHdrSize t + n + 1) - sdsHdrSize t - 1) (sdsTypeMaxSize t)) = Some s' /\
    block s' t (zlen cs) alloc' body' /\ n <= alloc' /\ bytes_at body' 0 (cs ++ [x]).
Proof using usable_ok.
  intros Ht Hn Hmax Hlt. pose proof (hdr_size t ltac:(lia)). pose proof (zlen_nonneg cs).
  pose proof (usable_ok (sdsHdrSize t + n + 1) ltac:(lia)) as Hu. pose proof (zlen_malloc (sdsHdrSize t + n + 1) ltac:(lia)) as Hz.
  set (m := s_malloc_usable _ _ _) in *. assert (zlen (cs ++ [x]) = zlen cs + 1) as Hz0 by (rewrite zlen_app; done).
  destruct (split_at m (sdsHdrSize t) ltac:(lia)) as (h0 & body & -> & Hh0 & Hbody).
  rewrite mem_write_Some by lia. rewrite splice_app_r by lia. rewrite Hh0, Z.sub_diag. rewrite Hz in Hbody.
  assert (zlen (splice body 0 (cs ++ [x])) = zlen body) as Hzs by (apply zlen_splice; lia).
  destruct (raw_set_flags _ t h0 (splice body 0 (cs ++ [x])) ltac:(lia) eq_refl Hh0) as (s1 & h1 & Hs1 & Hr1).
  destruct (raw_setlen _ _ _ _ (zlen cs) Hr1) as (s2 & h2 & Hs2 & Hr2 & Hl2); [lia|unfold SDS_TYPE_5; lia|].
  assert (t <> SDS_TYPE_5) as Hn5 by (unfold SDS_TYPE_5; lia).
  destruct (raw_setalloc _ _ _ _ _ (Z.min (usable (sdsHdrSize t + n + 1) - sdsHdrSize t - 1) (sdsTypeMaxSize t)) Hr2 Hl2) as (s3 & Hs3 & Hb3).
  - rewrite decide_False by done. right. unfold SDS_TYPE_8, SDS_TYPE_64. lia.
  - lia.
  - lia.
  - rewrite (sdssetlen_size _ _ _ Hs2), (raw_blk _ _ _ _ Hr1), zlen_app, (raw_hdr _ _ _ _ Hr1). lia.
  - rewrite decide_False in Hb3 by done. eexists _, s1, s2, s3, _, _. split_and!; [done| |exact Hs1|exact Hs2|exact Hs3|exact Hb3|lia|].
    + rewrite zlen_app, Hzs. lia.
    + apply bytes_at_splice; lia.
Qed.

(** Whatever byte [x] follows the characters. *)
Lemma make_room_gen s t alloc body cs x addlen greedy :
  block s t (zlen cs) alloc body -> bytes_at body 0 (cs ++ [x]) -> 0 <= addlen -> zlen cs + addlen < 2 ^ 61 ->
  exists s' t' alloc' body', _sdsMakeRoomFor junk usable s addlen greedy = Some s' /\
    block s' t' (zlen cs) alloc' body' /\ bytes_at body' 0 (cs ++ [x]) /\ zlen cs + addlen <= alloc'.
Proof using usable_ok.
  intros Hb Hcs Ha Hlt. pose proof (block_len _ _ _ _ _ Hb) as Hl. unfold _sdsMakeRoomFor. rewrite (sdsavail_ok _ _ _ _ _ Hb).
  cbn [mbind option_bind]. case_decide as Hav.
  { exists s, t, alloc, body. split_and!; try done; lia. }
  rewrite (block_flags _ _ _ _ _ Hb), (sdslen_ok _ _ _ _ _ Hb). cbn [mbind option_bind]. rewrite (block_land _ _ _ _ _ Hb).
  rewrite (u64_small (zlen cs + addlen)) by lia. rewrite (assert_True (zlen cs + addlen > zlen cs)) by lia. cbn [mbind option_bind].
  set (n := if greedy then _ else _). assert (zlen cs + addlen <= n < 2 ^ 61 + 2 ^ 20 + 1) as Hn.
  { unfold n, SDS_MAX_PREALLOC. destruct greedy; [case_decide; rewrite u64_small by lia; lia|lia]. }
  destruct (req_type n ltac:(lia)) as (Hty & Hmax & H5).
  set (t' := if decide (sdsReqType n = SDS_TYPE_5) then SDS_TYPE_8 else sdsReqType n).
  assert (1 <= t' <= 4 /\ n <= sdsTypeMaxSize t') as [Ht' Hmax'].
  { unfold t'. case_decide as E; [|unfold SDS_TYPE_5 in *; lia]. destruct type_max as (_ & -> & _). specialize (H5 E). unfold SDS_TYPE_8. lia. }
  pose proof (hdr_size t' ltac:(lia)) as Hh. rewrite (u64_small (sdsHdrSize t' + n + 1)) by lia. rewrite assert_True by lia. cbn [mbind option_bind].
  pose proof (usable_ok (sdsHdrSize t' + n + 1) ltac:(lia)) as Hu.
  case_decide as Htt.
  - cbn [mbind option_bind]. rewrite min_capped. unfold s_realloc_usable at 2. rewrite zlen_mem_realloc by lia. rewrite u64_small by lia.
    destruct (grow_same _ _ _ _ _ n Hb) as (s' & alloc' & body' & Hs' & Hb' & Halloc & Hkeep);
      [unfold SDS_TYPE_5; lia|lia|by rewrite Htt|rewrite Htt; lia|].
    rewrite Htt in Hs'. exists s', t, alloc', body'. split_and!; [exact Hs'|done| |lia].
    apply Hkeep; [done|]. rewrite zlen_app. change (zlen [x]) with 1. lia.
  - rewrite (read_at_ok _ _ _ _ _ Hb) by (pose proof (block_room _ _ _ _ _ Hb); lia). cbn [mbind option_bind].
    assert (slice body 0 (zlen cs + 1) = cs ++ [x]) as ->.
    { destruct Hcs as (_ & _ & E). by rewrite zlen_app in E. }
    destruct (grow_new t' cs x n) as (m & s1 & s2 & s' & alloc' & body' & -> & Hm & Hs1 & Hs2 & Hs3 & Hb' & Halloc & Hkeep); [done|lia|done|lia|].
    cbn [mbind option_bind]. rewrite Hs1. cbn [mbind option_bind]. rewrite Hs2. cbn [mbind option_bind].
    rewrite Hm, min_capped, u64_small by lia. exists s', t', alloc', body'. split_and!; [exact Hs3|done|done|lia].
Qed.

Lemma make_room_ok s t alloc body cs addlen greedy :
  block s t (zlen cs) alloc body -> bytes_at body 0 (cs ++ [0]) -> 0 <= addlen -> zlen cs + addlen < 2 ^ 61 ->
  exists s' t' alloc' body', _sdsMakeRoomFor junk usable s addlen greedy = Some s' /\
    block s' t' (zlen cs) alloc' body' /\ bytes_at body' 0 (cs ++ [0]) /\ zlen cs + addlen <= alloc'.
Proof using usable_ok. apply make_room_gen. Qed.

Lemma resize_finish s t h body cs size : raw s t h body -> bytes_at body 0 cs -> zlen cs <= size -> size + 1 <= zlen body ->
  size <= sdsTypeMaxSize t -> (t = SDS_TYPE_5 -> size < 32) -> zlen (blk s) < 2 ^ 63 ->
  exists s' body', (s ← set_char s (zlen cs) 0; s ← sdssetlen s (zlen cs); sdssetalloc s size) = Some s' /\
    block s' t (zlen cs) (if decide (t = SDS_TYPE_5) then zlen cs else size) body' /\ bytes_at body' 0 (cs ++ [0]).
Proof using Type.
  intros Hr Hcs Hn Hroom Hmax H5 Hsize. pose proof (zlen_nonneg cs). pose proof (raw_type _ _ _ _ Hr) as Ht.
  destruct (raw_set_char _ _ _ _ (zlen cs) 0 Hr) as (s1 & Hs1 & Hr1); [lia|]. rewrite Hs1. cbn [mbind option_bind].
  destruct (raw_setlen _ _ _ _ (zlen cs) Hr1) as (s2 & h2 & Hs2 & Hr2 & Hl2); [lia|intros E; specialize (H5 E); lia|].
  rewrite Hs2. cbn [mbind option_bind]. assert (zlen (splice body (zlen cs) [0]) = zlen body) as Hz.
  { apply zlen_splice; [lia|]. change (zlen [0]) with 1. lia. }
  destruct (raw_setalloc _ _ _ _ _ size Hr2 Hl2) as (s3 & Hs3 & Hb3); [|lia|lia| |].
  - case_decide as E; [left; specialize (H5 E); split_and!; [done|lia|lia|done]|right; unfold SDS_TYPE_5, SDS_TYPE_8, SDS_TYPE_64 in *; lia].
  - rewrite (sdssetlen_size _ _ _ Hs2), (raw_blk _ _ _ _ Hr1), zlen_app, Hz, <- zlen_app, <- (raw_blk _ _ _ _ Hr). done.
  - exists s3, (splice body (zlen cs) [0]). split_and!; [exact Hs3|exact Hb3|]. apply bytes_at_app. split.
    + apply bytes_at_splice_other; [lia|change (zlen [0]) with 1; lia|done|left; lia].
    + apply bytes_at_splice; [lia|]. change (zlen [0]) with 1. lia.
Qed.

Lemma type_max_mono t t' : 0 <= t -> t <= t' -> t' <= 4 -> sdsTypeMaxSize t <= sdsTypeMaxSize t'.
Proof using Type.
  intros. pose proof type_max as (H5 & H8 & H16 & H32 & H64). unfold SDS_TYPE_5, SDS_TYPE_8, SDS_TYPE_16, SDS_TYPE_32, SDS_TYPE_64 in *.
  assert (t = 0 \/ t = 1 \/ t = 2 \/ t = 3 \/ t = 4) as [->|[->|[->|[->| ->]]]] by lia;
  (assert (t' = 0 \/ t' = 1 \/ t' = 2 \/ t' = 3 \/ t' = 4) as [->|[->|[->|[->| ->]]]] by lia); lia.
Qed.

(** The block [sdsResize] writes its new header to. *)
Lemma resize_block s t len alloc body cs size type : block s t len alloc body -> bytes_at body 0 cs -> zlen cs <= size ->
  0 <= type <= 4 -> 0 <= size < 2 ^ 61 ->
  let use_realloc := bool_decide (t = type \/ (type < t /\ type > SDS_TYPE_8)) in
  let newlen := if use_realloc then sdsHdrSize t + size + 1 else sdsHdrSize type + size + 1 in
  exists s' h body',
    (if use_realloc then
       if decide (usable newlen = zlen (blk s)) then Some s else Some (Sds (s_realloc_usable junk usable (blk s) newlen) (sdsHdrSize t))
     else
       let newsh := s_malloc_usable junk usable newlen in
       cs ← read_at s 0 (zlen cs);
       newsh ← mem_write newsh (sdsHdrSize type) cs;
       set_flags (Sds newsh (sdsHdrSize type)) type) = Some s' /\
    raw s' (if use_realloc then t else type) h body' /\ bytes_at body' 0 cs /\ size + 1 <= zlen body' /\ zlen (blk s') < 2 ^ 63.
Proof using usable_ok.
  intros Hb Hcs Hn Hty Hsz use_realloc newlen. pose proof (block_type _ _ _ _ _ Hb) as Ht. pose proof (hdr_size t Ht). pose proof (hdr_size type Hty).
  pose proof (zlen_header t len alloc Ht) as Hzh. pose proof (zlen_nonneg cs).
  assert (newlen <= usable newlen < 2 ^ 63) as Hu by (apply usable_ok; unfold newlen; destruct use_realloc; lia).
  destruct use_realloc; [case_decide as Hsame|].
  - exists s, (header t len alloc), body. split_and!; [done|by apply block_raw|done| |apply (block_size _ _ _ _ _ Hb)].
    rewrite (block_blk _ _ _ _ _ Hb), zlen_app in Hsame. unfold newlen in *. lia.
  - destruct (realloc_front junk (header t len alloc) body (usable newlen)) as (body' & Hre & Hz & Hkeep); [unfold newlen in *; lia|].
    unfold s_realloc_usable. rewrite (block_blk _ _ _ _ _ Hb), Hre. eexists _, (header t len alloc), body'. split; [done|]. split_and!.
    + destruct (block_raw _ _ _ _ _ Hb) as [_ _ Hh Ht' Hf]. by split.
    + apply Hkeep; [done|]. unfold newlen in *. lia.
    + unfold newlen in *. lia.
    + cbn [blk]. rewrite zlen_app. lia.
  - cbn zeta. rewrite (read_at_ok _ _ _ _ _ Hb) by (destruct Hcs; lia). cbn [mbind option_bind].
    destruct Hcs as (_ & Hl & ->). pose proof (zlen_malloc newlen ltac:(unfold newlen; lia)) as Hz. set (m := s_malloc_usable _ _ _) in *.
    destruct (split_at m (sdsHdrSize type)) as (h0 & body0 & -> & Hh0 & Hbody0); [unfold newlen in *; lia|]. unfold newlen in *.
    rewrite mem_write_Some by lia. cbn [mbind option_bind]. rewrite splice_app_r by lia. rewrite Hh0, Z.sub_diag.
    assert (zlen (splice body0 0 cs) = zlen body0) as Hzs by (apply zlen_splice; lia).
    destruct (raw_set_flags _ type h0 (splice body0 0 cs) Hty eq_refl Hh0) as (s1 & h1 & -> & Hr1).
    exists s1, h1, (splice body0 0 cs). split_and!; [done|done|apply bytes_at_splice; lia|lia|].
    rewrite (raw_blk _ _ _ _ Hr1), zlen_app, (raw_hdr _ _ _ _ Hr1). lia.
Qed.

(** [sdsResize] keeps the characters that fit; outside type 5 the allocated size
    becomes [size]. *)
Lemma sdsResize_block s t alloc body cs size regrow :
  block s t (zlen cs) alloc body -> bytes_at body 0 (cs ++ [0]) -> 0 <= size < 2 ^ 61 ->
  exists s' t' alloc' body' cs', sdsResize junk usable s size regrow = Some s' /\ cs' = slice cs 0 (Z.min size (zlen cs)) /\
    block s' t' (zlen cs') alloc' body' /\ bytes_at body' 0 (cs' ++ [0]) /\ (t' <> SDS_TYPE_5 -> alloc' = size).
Proof using usable_ok.
  intros Hb Hcs Hsz. unfold sdsResize. pose proof (block_len _ _ _ _ _ Hb) as Hlen. pose proof (block_type _ _ _ _ _ Hb) as Ht.
  rewrite (block_flags _ _ _ _ _ Hb), (sdslen_ok _ _ _ _ _ Hb), (sdsalloc_ok _ _ _ _ _ Hb). cbn [mbind option_bind].
  rewrite (block_land _ _ _ _ _ Hb). case_decide as Ha.
  { exists s, t, alloc, body, cs. rewrite slice_full by lia. done. }
  set (cs' := slice cs 0 (Z.min size (zlen cs))). assert (zlen cs' = Z.min size (zlen cs)) as Hz by (apply zlen_slice; lia).
  replace (if decide (size < zlen cs) then size else zlen cs) with (zlen cs') by (rewrite Hz; case_decide; lia).
  set (type := if regrow then _ else _). assert (0 <= type <= 4 /\ size <= sdsTypeMaxSize type /\ (type = SDS_TYPE_5 -> size < 32)) as (Hty & Hmax & H5).
  { destruct (req_type size ltac:(lia)) as (Hr & Hm & H5). unfold type. destruct regrow; [case_decide as E|]; try done.
    specialize (H5 E). split_and!; [done|done| |done]. destruct type_max as (_ & -> & _). lia. }
  assert (bytes_at body 0 cs') as Hcs'.
  { apply bytes_at_app in Hcs as [(? & ? & E) _]. split_and!; [lia|lia|]. rewrite Hz. unfold cs'. rewrite <- E at 2.
    by rewrite slice_slice by lia. }
  destruct (resize_block _ _ _ _ _ cs' size type Hb Hcs' ltac:(lia) Hty Hsz) as (s1 & h1 & body1 & Hs1 & Hr1 & Hc1 & Hroom & Hsize).
  cbn zeta in Hs1. rewrite Hs1. cbn [mbind option_bind].
  destruct (resize_finish _ _ _ _ cs' size Hr1 Hc1 ltac:(lia) Hroom) as (s2 & body2 & Hs2 & Hb2 & Hc2); [| |done|].
  - case_bool_decide as Hu; [|done]. etransitivity; [exact Hmax|]. apply type_max_mono; lia.
  - case_bool_decide as Hu; [|done]. intros ->. apply H5. unfold SDS_TYPE_5, SDS_TYPE_8 in *. lia.
  - eexists s2, _, _, body2, cs'. split_and!; [exact Hs2|done|exact Hb2|done|]. intros. by rewrite decide_False.
Qed.


(** ** The operations on the characters *)

Lemma sdscatlen_ok s cs bs : sds_rep s cs -> zlen cs + zlen bs < 2 ^ 61 ->
  exists s', sdscatlen junk usable s bs = Some s' /\ sds_rep s' (cs ++ bs).
Proof using usable_ok.
  intros (t & alloc & body & Hb & Hcs) Hlt. pose proof (zlen_nonneg cs). pose proof (zlen_nonneg bs).
  unfold sdscatlen. rewrite (sdslen_ok _ _ _ _ _ Hb). cbn [mbind option_bind].
  destruct (make_room_ok _ _ _ _ _ (zlen bs) true Hb Hcs) as (s1 & t1 & alloc1 & body1 & Hs1 & Hb1 & Hc1 & Hroom); [lia|lia|].
  unfold sdsMakeRoomFor. rewrite Hs1. cbn [mbind option_bind]. pose proof (block_room _ _ _ _ _ Hb1).
  destruct (write_at_ok _ _ _ _ _ Hb1 (zlen cs) bs) as (s2 & -> & Hb2); [lia|lia|]. cbn [mbind option_bind].
  rewrite u64_small by lia. rewrite <- zlen_app. apply bytes_at_app in Hc1 as [Hc1 _].
  eapply setlen_terminate; [exact Hb2| |rewrite zlen_app; lia].
  apply bytes_at_app. split; [apply bytes_at_splice_other; [lia|lia|done|left; lia]|apply bytes_at_splice; lia].
Qed.

Lemma sds_read s cs : sds_rep s cs -> sdslen s = Some (zlen cs) /\ read_at s 0 (zlen cs) = Some cs.
Proof using Type.
  intros (t & alloc & body & Hb & Hcs). pose proof (block_room _ _ _ _ _ Hb). pose proof (block_len _ _ _ _ _ Hb).
  split; [apply (sdslen_ok _ _ _ _ _ Hb)|]. rewrite (read_at_ok _ _ _ _ _ Hb) by lia. apply bytes_at_app in Hcs as [(_ & _ & ->) _]. done.
Qed.

Lemma sdscatsds_ok s t cs ts : sds_rep s cs -> sds_rep t ts -> zlen cs + zlen ts < 2 ^ 61 ->
  exists s', sdscatsds junk usable s t = Some s' /\ sds_rep s' (cs ++ ts).
Proof using usable_ok.
  intros Hs Ht Hlt. unfold sdscatsds. destruct (sds_read t ts Ht) as [-> Hr]. cbn [mbind option_bind]. rewrite Hr. by apply sdscatlen_ok.
Qed.

Lemma sdscpylen_ok s cs bs : sds_rep s cs -> zlen bs < 2 ^ 61 ->
  exists s', sdscpylen junk usable s bs = Some s' /\ sds_rep s' bs.
Proof using usable_ok.
  intros (t & alloc & body & Hb & Hcs) Hlt. pose proof (zlen_nonneg cs). pose proof (zlen_nonneg bs). pose proof (block_len _ _ _ _ _ Hb).
  unfold sdscpylen. rewrite (sdsalloc_ok _ _ _ _ _ Hb). cbn [mbind option_bind].
  assert (exists s1 t1 alloc1 body1,
    (if decide (alloc < zlen bs) then curlen ← sdslen s; sdsMakeRoomFor junk usable s (u64 (zlen bs - curlen)) else Some s) = Some s1 /\
    block s1 t1 (zlen cs) alloc1 body1 /\ zlen bs <= alloc1) as (s1 & t1 & alloc1 & body1 & -> & Hb1 & Hroom).
  { case_decide; [|exists s, t, alloc, body; split_and!; [done|done|lia]]. rewrite (sdslen_ok _ _ _ _ _ Hb). cbn [mbind option_bind].
    rewrite u64_small by lia. destruct (make_room_ok _ _ _ _ _ (zlen bs - zlen cs) true Hb Hcs) as (s1 & t1 & alloc1 & body1 & Hs1 & Hb1 & _ & ?); [lia|lia|].
    exists s1, t1, alloc1, body1. split_and!; [exact Hs1|done|lia]. }
  cbn [mbind option_bind]. pose proof (block_room _ _ _ _ _ Hb1).
  destruct (write_at_ok _ _ _ _ _ Hb1 0 bs) as (s2 & -> & Hb2); [lia|lia|]. cbn [mbind option_bind].
  eapply terminate_setlen_rep; [exact Hb2|apply bytes_at_splice; lia|done].
Qed.

Lemma sdsgrowzero_ok s cs n : sds_rep s cs -> 0 <= n < 2 ^ 61 ->
  exists s', sdsgrowzero junk usable s n = Some s' /\ sds_rep s' (cs ++ replicate (Z.to_nat (n - zlen cs)) 0).
Proof using usable_ok.
  intros Hs Hn. pose proof Hs as (t & alloc & body & Hb & Hcs). pose proof (zlen_nonneg cs).
  unfold sdsgrowzero. rewrite (sdslen_ok _ _ _ _ _ Hb). cbn [mbind option_bind]. case_decide as Hle.
  { exists s. split; [done|]. replace (Z.to_nat (n - zlen cs)) with 0%nat by lia. by rewrite app_nil_r. }
  destruct (make_room_ok _ _ _ _ _ (n - zlen cs) true Hb Hcs) as (s1 & t1 & alloc1 & body1 & Hs1 & Hb1 & Hc1 & Hroom); [lia|lia|].
  unfold sdsMakeRoomFor. rewrite Hs1. cbn [mbind option_bind]. pose proof (block_room _ _ _ _ _ Hb1).
  set (z := replicate (Z.to_nat (n - zlen cs)) 0). assert (zlen z = n - zlen cs) as Hz by (unfold z; rewrite zlen_replicate; lia).
  assert (replicate (Z.to_nat (n - zlen cs + 1)) 0 = z ++ [0]) as ->.
  { unfold z. change [0] with (replicate 1 0). rewrite <- replicate_add. f_equal. lia. }
  assert (zlen (z ++ [0]) = n - zlen cs + 1) as Hz1 by (rewrite zlen_app, Hz; done).
  destruct (write_at_ok _ _ _ _ _ Hb1 (zlen cs) (z ++ [0])) as (s2 & -> & Hb2); [lia|lia|]. cbn [mbind option_bind].
  destruct (set_len _ _ _ _ _ n Hb2) as (s3 & alloc3 & -> & Hb3); [lia|]. exists s3. split; [done|].
  eexists t1, alloc3, _. rewrite zlen_app, Hz. replace (zlen cs + (n - zlen cs)) with n by lia. split; [exact Hb3|].
  rewrite <- app_assoc. apply bytes_at_app in Hc1 as [Hc1 _]. apply bytes_at_app.
  split; [apply bytes_at_splice_other; [lia|lia|done|left; lia]|apply bytes_at_splice; lia].
Qed.

Lemma sdsnewlen_ok init n : 0 <= n < 2 ^ 61 -> (forall bs, init = InitBytes bs -> n <= zlen bs) ->
  exists s cs, sdsnewlen junk usable try_ok init n = Some s /\ sds_rep s cs /\ init_chars init n cs.
Proof using usable_ok.
  intros Hn Hbs. destruct (_sdsnewlen_ok init n false Hn Hbs) as (s & cs & Hs & Hrep & Hi); [by left|].
  exists s, cs. split; [|done]. unfold sdsnewlen. rewrite Hs. done.
Qed.

Lemma sdsnew_ok bs : zlen bs < 2 ^ 61 -> exists s, sdsnew junk usable try_ok bs = Some s /\ sds_rep s bs.
Proof using usable_ok.
  intros Hlt. pose proof (zlen_nonneg bs). unfold sdsnew. destruct (sdsnewlen_ok (InitBytes bs) (zlen bs)) as (s & cs & -> & Hrep & _ & ->).
  - lia.
  - intros ? [= <-]. lia.
  - exists s. rewrite slice_full in Hrep by done. done.
Qed.

Lemma sdsdup_ok s cs : sds_rep s cs -> zlen cs < 2 ^ 61 -> exists s', sdsdup junk usable try_ok s = Some s' /\ sds_rep s' cs.
Proof using usable_ok.
  intros Hs Hlt. unfold sdsdup. destruct (sds_read s cs Hs) as [-> Hr]. cbn [mbind option_bind]. rewrite Hr. by apply sdsnew_ok.
Qed.

Lemma make_room_rep s cs addlen greedy : sds_rep s cs -> 0 <= addlen -> zlen cs + addlen < 2 ^ 61 ->
  exists s' avail, _sdsMakeRoomFor junk usable s addlen greedy = Some s' /\ sds_rep s' cs /\ sdsavail s' = Some avail /\ addlen <= avail.
Proof using usable_ok.
  intros (t & alloc & body & Hb & Hcs) Ha Hlt.
  destruct (make_room_ok _ _ _ _ _ addlen greedy Hb Hcs Ha Hlt) as (s' & t' & alloc' & body' & -> & Hb' & Hc' & Hroom).
  exists s', (alloc' - zlen cs). split_and!; [done|by exists t', alloc', body'|apply (sdsavail_ok _ _ _ _ _ Hb')|lia].
Qed.

Lemma sdsResize_ok s cs size regrow : sds_rep s cs -> 0 <= size < 2 ^ 61 ->
  exists s', sdsResize junk usable s size regrow = Some s' /\ sds_rep s' (slice cs 0 (Z.min size (zlen cs))).
Proof using usable_ok.
  intros (t & alloc & body & Hb & Hcs) Hsz. destruct (sdsResize_block _ _ _ _ _ size regrow Hb Hcs Hsz) as (s' & t' & alloc' & body' & cs' & -> & -> & Hb' & Hc' & _).
  exists s'. split; [done|]. by exists t', alloc', body'.
Qed.

Lemma sdsRemoveFreeSpace_ok s cs regrow : sds_rep s cs -> zlen cs < 2 ^ 61 ->
  exists s', sdsRemoveFreeSpace junk usable s regrow = Some s' /\ sds_rep s' cs.
Proof using usable_ok.
  intros Hs Hlt. unfold sdsRemoveFreeSpace. destruct (sds_read s cs Hs) as [-> _]. cbn [mbind option_bind]. pose proof (zlen_nonneg cs).
  destruct (sdsResize_ok s cs (zlen cs) regrow Hs) as (s' & Hs' & Hrep); [lia|]. exists s'. split; [done|].
  rewrite slice_full in Hrep by lia. done.
Qed.
End ops.

(** ** The operations that stay in the block *)

Fixpoint drop_while {A} (p : A -> bool) (l : list A) : list A :=
  match l with [] => [] | x :: l' => if p x then drop_while p l' else l end.

Lemma drop_while_suffix {A} (p : A -> bool) l : exists pre, l = pre ++ drop_while p l /\ Forall (fun x => p x = true) pre.
Proof.
  induction l as [|x l (pre & E & Hp)]; [by exists []|]. cbn [drop_while]. destruct (p x) eqn:Hx; [|by exists []].
  exists (x :: pre). cbn [app]. split; [congruence|]. by constructor.
Qed.

Lemma drop_while_head {A} (p : A -> bool) l x l' : drop_while p l = x :: l' -> p x = false.
Proof. induction l as [|y l IH]; cbn [drop_while]; [done|]. destruct (p y) eqn:Hy; [done|]. by intros [= <- <-]. Qed.

(** The string without the characters of [cset] at its ends. *)
Definition rtrim (cset cs : bytes) : bytes := reverse (drop_while (in_cset cset) (reverse cs)).
Definition trim (cset cs : bytes) : bytes := rtrim cset (drop_while (in_cset cset) cs).

Lemma rtrim_snoc cset cs c : rtrim cset (cs ++ [c]) = if in_cset cset c then rtrim cset cs else cs ++ [c].
Proof.
  unfold rtrim. rewrite reverse_snoc. cbn [drop_while].
  destruct (in_cset cset c); [done|]. by rewrite reverse_cons, reverse_involutive.
Qed.

Lemma rtrim_prefix cset cs : exists post, cs = rtrim cset cs ++ post.
Proof.
  destruct (drop_while_suffix (in_cset cset) (reverse cs)) as (pre & E & _). exists (reverse pre). unfold rtrim.
  rewrite <- reverse_app, <- E. by rewrite reverse_involutive.
Qed.

(** The substring from [start] to [end_], both included, negative indexes counted
    from the end; a start before the first character gives the empty string. *)
Definition range (cs : bytes) (start end_ : Z) : bytes :=
  let n := zlen cs in
  let a := if decide (start < 0) then n + start else start in
  let b := if decide (end_ < 0) then n + end_ else end_ in
  if decide (0 <= a <= b) then slice cs a (b - a + 1) else [].

(** The C string at the start. *)
Fixpoint cstr (cs : bytes) : bytes :=
  match cs with [] => [] | c :: cs' => if decide (c = 0) then [] else c :: cstr cs' end.

Lemma bytes_at_peek (body pre post : bytes) c : bytes_at body 0 (pre ++ c :: post) -> peek body (zlen pre) = Some c.
Proof. intros [_ H]%bytes_at_app. apply bytes_at_cons in H as [H _]. by rewrite Z.add_0_l in H. Qed.

Lemma sdsclear_ok s cs : sds_rep s cs -> exists s', sdsclear s = Some s' /\ sds_rep s' [].
Proof.
  intros (t & alloc & body & Hb & Hcs). pose proof (block_len _ _ _ _ _ Hb). pose proof (block_room _ _ _ _ _ Hb).
  apply (setlen_terminate _ _ _ _ _ [] Hb); [apply bytes_at_nil|rewrite zlen_nil]; lia.
Qed.

Lemma strlen_loop_ok s t len alloc body pre cs fuel :
  block s t len alloc body -> bytes_at body 0 (pre ++ cs ++ [0]) -> (length cs < fuel)%nat ->
  strlen_loop fuel s (zlen pre) = Some (zlen pre + zlen (cstr cs)).
Proof.
  intros Hb. revert pre fuel. induction cs as [|c cs IH]; intros pre fuel Hc Hf; (destruct fuel as [|fuel]; [lia|]); cbn [strlen_loop].
  - rewrite (char_at_ok _ _ _ _ _ Hb) by apply zlen_nonneg. rewrite (bytes_at_peek _ _ _ _ Hc). cbn [mbind option_bind cstr]. rewrite decide_True by done. rewrite zlen_nil. f_equal. lia.
  - rewrite (char_at_ok _ _ _ _ _ Hb) by apply zlen_nonneg. rewrite (bytes_at_peek _ _ _ _ Hc). cbn [mbind option_bind cstr].
    case_decide; [rewrite zlen_nil; f_equal; lia|]. rewrite zlen_cons.
    replace (zlen pre + 1) with (zlen (pre ++ [c])) by (rewrite zlen_app; done). rewrite IH.
    + rewrite zlen_app. change (zlen [c]) with 1. f_equal. lia.
    + by rewrite <- app_assoc.
    + cbn [length] in Hf. lia.
Qed.

Lemma cstr_prefix cs : exists post, cs = cstr cs ++ post.
Proof.
  induction cs as [|c cs (post & E)]; [by exists []|]. cbn [cstr]. case_decide; [by eexists|]. exists post. cbn [app]. congruence.
Qed.

Lemma cstr_snoc cs : exists post, cs ++ [0] = (cstr cs ++ [0]) ++ post.
Proof.
  induction cs as [|c cs (post & E)]; [by exists []|]. cbn [cstr]. case_decide as Hc; [|exists post; cbn [app]; congruence].
  subst c. by eexists.
Qed.

Lemma sdsupdatelen_ok s cs : sds_rep s cs -> exists s', sdsupdatelen s = Some s' /\ sds_rep s' (cstr cs).
Proof.
  intros (t & alloc & body & Hb & Hcs). pose proof (block_len _ _ _ _ _ Hb). unfold sdsupdatelen.
  rewrite (strlen_loop_ok _ _ _ _ _ [] cs _ Hb Hcs).
  - cbn [mbind option_bind]. rewrite zlen_nil, Z.add_0_l. destruct (cstr_prefix cs) as (post & E).
    pose proof (f_equal zlen E) as Hz. rewrite zlen_app in Hz. pose proof (zlen_nonneg post). pose proof (zlen_nonneg (cstr cs)).
    destruct (set_len _ _ _ _ _ (zlen (cstr cs)) Hb) as (s' & alloc' & -> & Hb'); [lia|]. exists s'. split; [done|]. exists t, alloc', body.
    split; [done|]. destruct (cstr_snoc cs) as (post' & E'). rewrite E' in Hcs. by apply bytes_at_app in Hcs as [? _].
  - rewrite (block_blk _ _ _ _ _ Hb). rewrite length_app. pose proof (block_room _ _ _ _ _ Hb).
    pose proof (zlen_header t (zlen cs) alloc (block_type _ _ _ _ _ Hb)). pose proof (hdr_size t (block_type _ _ _ _ _ Hb)). unfold zlen in *. lia.
Qed.

(** Moving characters to the front and cutting the string after them. *)
Lemma move_cut s t len alloc body i bs : block s t len alloc body -> bytes_at body i bs -> zlen bs <= alloc ->
  exists s', (s ← (b ← mem_move (blk s) (off s) (off s + i) (zlen bs); Some (Sds b (off s)));
              s ← set_char s (zlen bs) 0; sdssetlen s (zlen bs)) = Some s' /\ sds_rep s' bs.
Proof.
  intros Hb (Hi & Hl & E) Ha. pose proof (zlen_nonneg bs). destruct (move_ok _ _ _ _ _ Hb i (zlen bs)) as (s1 & -> & Hb1); [lia|lia|lia|].
  cbn [mbind option_bind]. rewrite E in Hb1. eapply terminate_setlen_rep; [exact Hb1|apply bytes_at_splice; lia|done].
Qed.

Lemma sdssubstr_ok s cs start len : sds_rep s cs -> 0 <= start -> 0 <= len ->
  exists s', sdssubstr s start len = Some s' /\ sds_rep s' (slice cs start len).
Proof.
  intros (t & alloc & body & Hb & Hcs) H0 Hn. pose proof (block_len _ _ _ _ _ Hb) as Hl. pose proof (block_room _ _ _ _ _ Hb).
  unfold sdssubstr. rewrite (sdslen_ok _ _ _ _ _ Hb). cbn [mbind option_bind]. apply bytes_at_app in Hcs as [(_ & _ & E) _].
  assert (forall a n, 0 <= a -> 0 <= n -> a + n <= zlen cs -> bytes_at body a (slice cs a n)) as Hat.
  { intros a n Ha Hn' Hle. split_and!; [lia|rewrite zlen_slice; lia|]. rewrite zlen_slice by lia. rewrite <- E. by rewrite slice_slice by lia. }
  case_decide as Hs; cbn [fst snd].
  - rewrite decide_False by lia. rewrite decide_False by lia. cbn [mbind option_bind].
    assert (slice cs start len = []) as ->. { unfold slice. rewrite drop_ge by (unfold zlen in *; lia). apply take_nil. }
    apply (terminate_setlen_rep _ _ _ _ _ [] Hb); [apply bytes_at_nil; lia|rewrite zlen_nil; lia].
  - rewrite min_capped. set (n := Z.min len (zlen cs - start)).
    assert (slice cs start len = slice cs start n) as ->.
    { unfold slice, n. destruct (Z.min_spec len (zlen cs - start)) as [[_ ->]|[? ->]]; [done|].
      rewrite !take_ge; [done| |]; rewrite length_drop; unfold zlen in *; lia. }
    pose proof (zlen_slice cs start n ltac:(lia) ltac:(lia) ltac:(lia)) as Hz. case_decide as Hn0.
    + destruct (move_cut _ _ _ _ _ start (slice cs start n) Hb) as (s' & Hs' & Hrep); [apply Hat; lia|lia|].
      rewrite Hz in Hs'. by exists s'.
    + destruct (terminate_setlen_rep _ _ _ _ _ (slice cs start n) Hb) as (s' & Hs' & Hrep); [|lia|rewrite Hz in Hs'; by exists s'].
      replace n with 0 by lia. apply bytes_at_nil. lia.
Qed.

Lemma sdsrange_ok s cs start end_ : sds_rep s cs -> - 2 ^ 62 < start < 2 ^ 62 -> - 2 ^ 62 < end_ < 2 ^ 62 -> zlen cs < 2 ^ 62 ->
  exists s', sdsrange s start end_ = Some s' /\ sds_rep s' (range cs start end_).
Proof.
  intros Hs Ha Hb Hlt. unfold sdsrange, range. pose proof (sds_read s cs Hs) as [-> _]. cbn [mbind option_bind]. pose proof (zlen_nonneg cs).
  case_decide as H0.
  { apply zlen_0 in H0 as ->. exists s. split; [done|]. case_decide; [|done]. unfold slice. by rewrite drop_nil, take_nil. }
  assert (forall x, - 2 ^ 62 < x < 2 ^ 62 -> (if decide (x < 0) then i64 (zlen cs + x) else x) = if decide (x < 0) then zlen cs + x else x) as Hi.
  { intros x Hx. case_decide; [|done]. apply swrap_small; [lia|]. unfold in_i. lia. }
  rewrite !Hi by done. set (a := if decide (start < 0) then _ else _). set (b := if decide (end_ < 0) then _ else _).
  assert (- 2 ^ 62 < a < 2 ^ 62 /\ - 2 ^ 62 < b < 2 ^ 62) as [? ?] by (unfold a, b; repeat case_decide; lia).
  unfold LLONG_MAX. case_decide as Hab.
  - cbn [mbind option_bind]. rewrite decide_False by lia. destruct (sdssubstr_ok s cs (u64 a) 0 Hs) as (s' & Hs' & Hrep);
      [apply uwrap_range; lia|lia|]. exists s'. split; [done|]. exact Hrep.
  - rewrite decide_True by lia. cbn [mbind option_bind].
    destruct (sdssubstr_ok s cs (u64 a) (b - a + 1) Hs) as (s' & -> & Hrep); [apply uwrap_range; lia|lia|]. exists s'. split; [done|].
    case_decide as H0a; [rewrite u64_small in Hrep by lia; exact Hrep|].
    assert (u64 a = a + 2 ^ 64) as Hu by (unfold u64, uwrap; divlia).
    unfold slice in Hrep. rewrite drop_ge, take_nil in Hrep by (unfold zlen in *; lia). exact Hrep.
Qed.

Lemma trim_left_ok s t len alloc body cset pre cs fuel :
  block s t len alloc body -> bytes_at body 0 (pre ++ cs) -> (length cs < fuel)%nat ->
  trim_left fuel s cset (zlen pre) (zlen pre + zlen cs - 1) = Some (zlen pre + zlen cs - zlen (drop_while (in_cset cset) cs)).
Proof.
  intros Hb. revert pre fuel. induction cs as [|c cs IH]; intros pre fuel Hc Hf; (destruct fuel as [|fuel]; [lia|]); cbn [trim_left].
  - rewrite zlen_nil. rewrite decide_False by lia. change (zlen (drop_while (in_cset cset) [])) with 0. f_equal. lia.
  - rewrite zlen_cons. pose proof (zlen_nonneg cs). rewrite decide_True by lia.
    rewrite (char_at_ok _ _ _ _ _ Hb) by apply zlen_nonneg. rewrite (bytes_at_peek _ _ _ _ Hc). cbn [mbind option_bind drop_while].
    destruct (in_cset cset c); [|rewrite zlen_cons; f_equal; lia].
    specialize (IH (pre ++ [c]) fuel). rewrite <- app_assoc, zlen_app in IH. change (zlen [c]) with 1 in IH.
    replace (zlen pre + (1 + zlen cs)) with (zlen pre + 1 + zlen cs) by lia. apply IH; [done|]. cbn [length] in Hf. lia.
Qed.

Lemma trim_right_ok s t len alloc body cset pre cs fuel :
  block s t len alloc body -> bytes_at body 0 (pre ++ cs) -> (length cs < fuel)%nat ->
  (forall c cs', cs = c :: cs' -> in_cset cset c = false) ->
  trim_right fuel s cset (zlen pre) (zlen pre + zlen cs - 1) = Some (zlen pre + zlen (rtrim cset cs) - 1).
Proof.
  intros Hb. revert fuel. induction cs as [|c cs IH] using rev_ind; intros fuel Hc Hf Hh; (destruct fuel as [|fuel]; [lia|]); cbn [trim_right].
  - rewrite zlen_nil. rewrite decide_False by lia. done.
  - rewrite zlen_app, rtrim_snoc. change (zlen [c]) with 1. rewrite app_assoc in Hc. pose proof (zlen_nonneg pre). case_decide as Hgt.
    + rewrite (char_at_ok _ _ _ _ _ Hb) by lia. replace (zlen pre + (zlen cs + 1) - 1) with (zlen (pre ++ cs)) by (rewrite zlen_app; lia).
      rewrite (bytes_at_peek _ _ _ _ Hc). cbn [mbind option_bind]. destruct (in_cset cset c).
      * rewrite zlen_app. apply IH; [by apply bytes_at_app in Hc as [? _]|rewrite length_app in Hf; cbn [length] in Hf; lia|].
        intros x cs' ->. by apply (Hh x (cs' ++ [c])).
      * rewrite !zlen_app. change (zlen [c]) with 1. f_equal. lia.
    + assert (cs = []) as ->. { apply zlen_0. pose proof (zlen_nonneg cs). lia. }
      rewrite (Hh c []) by done. rewrite zlen_app, zlen_nil. change (zlen [c]) with 1. f_equal; lia.
Qed.

Lemma sdstrim_ok s cs cset : sds_rep s cs -> exists s', sdstrim s cset = Some s' /\ sds_rep s' (trim cset cs).
Proof.
  intros (t & alloc & body & Hb & Hcs). pose proof (block_len _ _ _ _ _ Hb) as Hl. pose proof (block_room _ _ _ _ _ Hb).
  apply bytes_at_app in Hcs as [Hcs _]. assert (length cs < S (length (blk s)))%nat as Hf.
  { rewrite (block_blk _ _ _ _ _ Hb), length_app. unfold zlen in *. lia. }
  unfold sdstrim. rewrite (sdslen_ok _ _ _ _ _ Hb). cbn [mbind option_bind].
  pose proof (trim_left_ok _ _ _ _ _ cset [] cs _ Hb Hcs Hf) as Ht. rewrite zlen_nil, !Z.add_0_l in Ht. rewrite Ht. cbn [mbind option_bind].
  destruct (drop_while_suffix (in_cset cset) cs) as (pre & E & _). unfold trim. set (mid := drop_while _ cs) in *.
  assert (zlen cs = zlen pre + zlen mid) as Hz by (rewrite <- zlen_app, <- E; done). rewrite E in Hcs.
  replace (zlen cs - zlen mid) with (zlen pre) by lia. replace (zlen cs - 1) with (zlen pre + zlen mid - 1) by lia.
  rewrite (trim_right_ok _ _ _ _ _ _ _ _ _ Hb Hcs).
  2:{ pose proof (f_equal length E) as Hle. rewrite length_app in Hle. lia. }
  2:{ intros c cs' Hm. eapply drop_while_head. exact Hm. }
  cbn [mbind option_bind]. destruct (rtrim_prefix cset mid) as (post & Em). set (r := rtrim cset mid) in *.
  assert (bytes_at body (zlen pre) r) as Hr.
  { rewrite Em in Hcs. apply bytes_at_app in Hcs as [_ Hcs]. apply bytes_at_app in Hcs as [Hcs _]. by rewrite Z.add_0_l in Hcs. }
  replace (zlen pre + zlen r - 1 - zlen pre + 1) with (zlen r) by lia.
  assert (zlen r <= alloc) as Hra. { pose proof (f_equal zlen Em) as Hzm. rewrite zlen_app in Hzm. pose proof (zlen_nonneg post). pose proof (zlen_nonneg pre). lia. }
  case_decide as Hp; [by eapply move_cut|]. cbn [mbind option_bind]. replace (zlen pre) with 0 in Hr by lia. by eapply terminate_setlen_rep.
Qed.

(** [sdsIncrLen] after the caller has written characters to the free space, and
    to cut the string on the right. *)
Lemma incr_core s t len alloc body incr : block s t len alloc body -> 0 <= len + incr <= alloc ->
  (t = SDS_TYPE_5 -> incr < 0) ->
  exists s' alloc', sdsIncrLen s incr = (s ← Some s'; set_char s (len + incr) 0) /\ block s' t (len + incr) alloc' body.
Proof.
  intros Hb Hn H5. pose proof (block_len _ _ _ _ _ Hb) as Hl. pose proof (block_room _ _ _ _ _ Hb) as Hroom.
  pose proof (block_type _ _ _ _ _ Hb) as Ht. unfold sdsIncrLen. rewrite (block_flags _ _ _ _ _ Hb). cbn [mbind option_bind].
  rewrite (block_land _ _ _ _ _ Hb). destruct (type_cases t Ht) as [[E5 Hw]|(w & Hw & Hne & _ & Hwr & _ & Hmax & Htr)].
  - rewrite !(decide_True (P := t = SDS_TYPE_5)) by done. pose proof (block_hdr _ _ _ _ _ Hb) as [(_ & H32 & _)|(? & _)]; [|unfold SDS_TYPE_5, SDS_TYPE_8 in *; lia].
    specialize (H5 E5). rewrite Z.shiftr_div_pow2 by done. change (2 ^ SDS_TYPE_BITS) with 8. rewrite Z.div_mul by done.
    rewrite assert_True by (right; unfold u32; rewrite uwrap_small by (unfold in_u; lia); lia). cbn [mbind option_bind].
    destruct (set_flags_5 _ _ _ _ _ Hb (len + incr) E5) as (s' & -> & Hb'); [lia|lia|]. cbn [mbind option_bind]. by exists s', (len + incr).
  - rewrite !(decide_False (P := t = SDS_TYPE_5)) by done. rewrite Hw, (field_ok _ _ _ _ _ Hb w 1), (field_ok _ _ _ _ _ Hb w 2) by auto.
    cbn [mbind option_bind]. rewrite (decide_False (P := 1 = 2)) by done. rewrite (decide_True (P := 2 = 2)) by done.
    pose proof (block_hdr _ _ _ _ _ Hb) as [(? & _)|(_ & _ & Hle)]; [done|].
    pose proof (block_size _ _ _ _ _ Hb) as Hsize. rewrite (block_blk _ _ _ _ _ Hb), zlen_app in Hsize. pose proof (zlen_nonneg (header t len alloc)).
    pose proof type_max as (_ & M8 & M16 & M32 & M64).
    rewrite assert_True.
    2:{ unfold SDS_TYPE_5, SDS_TYPE_8, SDS_TYPE_16, SDS_TYPE_32, SDS_TYPE_64 in *. assert (t = 1 \/ t = 2 \/ t = 3 \/ t = 4) as [->|[->|[->| ->]]] by lia;
           unfold u32, u64; rewrite ?M8, ?M16, ?M32, ?M64 in Hle;
          (destruct (decide (0 <= incr)); [left|right]); repeat case_decide; try lia; rewrite ?uwrap_small by (unfold in_u; lia); lia. }
    cbn [mbind option_bind]. rewrite uwrap_small by (unfold in_u; lia).
    destruct (set_field_ok _ _ _ _ _ Hb w (len + incr) 2 Hw) as (s' & -> & Hb'); rewrite ?(decide_True (P := 2 = 2)) by done; [auto|lia|done|done|].
    cbn [mbind option_bind]. rewrite !(decide_True (P := 2 = 2)) in Hb' by done. by exists s', alloc.
Qed.

Lemma sdsinclen_ok s t len alloc body inc : block s t len alloc body -> t <> SDS_TYPE_5 -> 0 <= inc -> len + inc <= alloc ->
  exists s', sdsinclen s inc = Some s' /\ block s' t (len + inc) alloc body.
Proof.
  intros Hb Hne Hinc Hle. unfold sdsinclen. rewrite (block_flags _ _ _ _ _ Hb). cbn [mbind option_bind]. rewrite (block_land _ _ _ _ _ Hb).
  rewrite decide_False by done. pose proof (block_len _ _ _ _ _ Hb). pose proof (block_room _ _ _ _ _ Hb).
  pose proof (block_hdr _ _ _ _ _ Hb) as [(? & _)|(_ & _ & Hmax)]; [done|].
  destruct (type_cases t (block_type _ _ _ _ _ Hb)) as [[? _]|(w & Hw & _)]; [done|]. rewrite Hw, (field_ok _ _ _ _ _ Hb w 2 Hw) by auto.
  rewrite (decide_True (P := 2 = 2)) by done. cbn [mbind option_bind].
  destruct (set_field_ok _ _ _ _ _ Hb w (len + inc) 2 Hw) as (s' & -> & Hb'); rewrite ?(decide_True (P := 2 = 2)) by done; [auto|lia|done|done|].
  rewrite !(decide_True (P := 2 = 2)) in Hb' by done. by exists s'.
Qed.

Lemma sdsIncrLen_ok s t alloc body cs bs : block s t (zlen cs) alloc body -> bytes_at body 0 (cs ++ bs) ->
  zlen cs + zlen bs <= alloc -> bs <> [] -> exists s', sdsIncrLen s (zlen bs) = Some s' /\ sds_rep s' (cs ++ bs).
Proof.
  intros Hb Hcs Hle Hne. pose proof (zlen_nonneg cs). assert (0 < zlen bs) by (destruct bs; [done|zlia]).
  destruct (incr_core _ _ _ _ _ (zlen bs) Hb) as (s1 & alloc1 & -> & Hb1); [lia| |].
  - intros E. pose proof (block_hdr _ _ _ _ _ Hb) as [(_ & _ & ?)|(? & _)]; unfold SDS_TYPE_5, SDS_TYPE_8 in *; lia.
  - cbn [mbind option_bind]. rewrite <- zlen_app in *. by eapply terminate.
Qed.

Lemma sdsIncrLen_neg s cs k : sds_rep s cs -> 0 < k <= zlen cs ->
  exists s', sdsIncrLen s (- k) = Some s' /\ sds_rep s' (slice cs 0 (zlen cs - k)).
Proof.
  intros (t & alloc & body & Hb & Hcs) Hk. pose proof (block_len _ _ _ _ _ Hb).
  destruct (incr_core _ _ _ _ _ (- k) Hb) as (s1 & alloc1 & -> & Hb1); [lia|lia|]. cbn [mbind option_bind].
  replace (zlen cs + - k) with (zlen (slice cs 0 (zlen cs - k))) in * by (rewrite zlen_slice; lia).
  eapply terminate; [exact Hb1|]. apply bytes_at_app in Hcs as [(? & ? & E) _]. unfold bytes_at. rewrite zlen_slice by lia.
  split_and!; [lia|lia|]. rewrite <- E at 2. by rewrite slice_slice by lia.
Qed.

(** ** Sequences of operations *)

Inductive sds_op :=
  | OpCat (bs : bytes) | OpCpy (bs : bytes) | OpAppend (bs : bytes) | OpCut (k : Z)
  | OpTrim (cset : bytes) | OpRange (start end_ : Z) | OpSubstr (start len : Z)
  | OpGrowzero (n : Z) | OpClear | OpUpdatelen | OpDup
  | OpMakeRoom (n : Z) (greedy : bool) | OpResize (n : Z) (regrow : bool) | OpRemoveFreeSpace (regrow : bool).

(** What the operations mean for the characters. *)
Definition chars_step (cs : bytes) (op : sds_op) : bytes :=
  match op with
  | OpCat bs | OpAppend bs => cs ++ bs
  | OpCpy bs => bs
  | OpCut k => slice cs 0 (zlen cs - k)
  | OpTrim cset => trim cset cs
  | OpRange start end_ => range cs start end_
  | OpSubstr start len => slice cs start len
  | OpGrowzero n => cs ++ replicate (Z.to_nat (n - zlen cs)) 0
  | OpClear => []
  | OpUpdatelen => cstr cs
  | OpDup | OpMakeRoom _ _ | OpRemoveFreeSpace _ => cs
  | OpResize n _ => slice cs 0 (Z.min n (zlen cs))
  end.

(** The caller's side: sizes stay below 2^61, [sdsIncrLen] is not called with 0. *)
Definition op_ok (cs : bytes) (op : sds_op) : Prop :=
  match op with
  | OpCat bs => zlen cs + zlen bs < 2 ^ 61
  | OpAppend bs => bs <> [] /\ zlen cs + zlen bs < 2 ^ 61
  | OpCpy bs => zlen bs < 2 ^ 61
  | OpCut k => 0 < k <= zlen cs
  | OpRange start end_ => - 2 ^ 62 < start < 2 ^ 62 /\ - 2 ^ 62 < end_ < 2 ^ 62
  | OpSubstr start len => 0 <= start /\ 0 <= len
  | OpGrowzero n => 0 <= n < 2 ^ 61
  | OpMakeRoom n _ => 0 <= n /\ zlen cs + n < 2 ^ 61
  | OpResize n _ => 0 <= n < 2 ^ 61
  | OpTrim _ | OpClear | OpUpdatelen | OpDup | OpRemoveFreeSpace _ => True
  end.

#[export] Instance op_ok_dec cs op : Decision (op_ok cs op).
Proof. destruct op; cbn [op_ok]; apply _. Defined.

Fixpoint ops_ok (cs : bytes) (ops : list sds_op) : Prop :=
  match ops with [] => True | op :: ops => op_ok cs op /\ ops_ok (chars_step cs op) ops end.

#[export] Instance ops_ok_dec cs ops : Decision (ops_ok cs ops).
Proof. revert cs. induction ops as [|op ops IH]; intros cs; cbn [ops_ok]; apply _. Defined.

Section runs.
Variables (junk : nat -> Z) (usable : Z -> Z) (try_ok : Z -> bool).

Definition sds_step (s : sds) (op : sds_op) : option sds :=
  match op with
  | OpCat bs => sdscatlen junk usable s bs
  | OpCpy bs => sdscpylen junk usable s bs
  | OpAppend bs =>
    len ← sdslen s;
    s ← sdsMakeRoomFor junk usable s (zlen bs);
    s ← write_at s len bs;
    sdsIncrLen s (zlen bs)
  | OpCut k => sdsIncrLen s (- k)
  | OpTrim cset => sdstrim s cset
  | OpRange start end_ => sdsrange s start end_
  | OpSubstr start len => sdssubstr s start len
  | OpGrowzero n => sdsgrowzero junk usable s n
  | OpClear => sdsclear s
  | OpUpdatelen => sdsupdatelen s
  | OpDup => sdsdup junk usable try_ok s
  | OpMakeRoom n greedy => _sdsMakeRoomFor junk usable s n greedy
  | OpResize n regrow => sdsResize junk usable s n regrow
  | OpRemoveFreeSpace regrow => sdsRemoveFreeSpace junk usable s regrow
  end.

Fixpoint sds_run (s : sds) (ops : list sds_op) : option sds :=
  match ops with [] => Some s | op :: ops => s ← sds_step s op; sds_run s ops end.

Hypothesis usable_ok : forall n, 0 <= n < 2 ^ 62 -> n <= usable n < 2 ^ 63.

Lemma append_ok s cs bs : sds_rep s cs -> bs <> [] -> zlen cs + zlen bs < 2 ^ 61 ->
  exists s', sds_step s (OpAppend bs) = Some s' /\ sds_rep s' (cs ++ bs).
Proof using usable_ok.
  intros (t & alloc & body & Hb & Hcs) Hne Hlt. pose proof (zlen_nonneg cs). pose proof (zlen_nonneg bs). cbn [sds_step].
  rewrite (sdslen_ok _ _ _ _ _ Hb). cbn [mbind option_bind].
  destruct (make_room_ok junk usable usable_ok _ _ _ _ _ (zlen bs) true Hb Hcs) as (s1 & t1 & alloc1 & body1 & Hs1 & Hb1 & Hc1 & Hroom); [lia|lia|].
  unfold sdsMakeRoomFor. rewrite Hs1. cbn [mbind option_bind]. pose proof (block_room _ _ _ _ _ Hb1).
  destruct (write_at_ok _ _ _ _ _ Hb1 (zlen cs) bs) as (s2 & -> & Hb2); [lia|lia|]. cbn [mbind option_bind].
  apply bytes_at_app in Hc1 as [Hc1 _]. eapply sdsIncrLen_ok; [exact Hb2| |done|done].
  apply bytes_at_app. split; [apply bytes_at_splice_other; [lia|lia|done|left; lia]|apply bytes_at_splice; lia].
Qed.

Lemma zlen_chars_step cs op : zlen cs < 2 ^ 61 -> op_ok cs op -> zlen (chars_step cs op) < 2 ^ 61.
Proof using Type.
  intros Hlt Hok. assert (forall a n, zlen (slice cs a n) <= zlen cs) as Hsl by (intros; unfold slice; zlia).
  pose proof (zlen_nonneg cs). destruct op; cbn [chars_step op_ok] in *; rewrite ?zlen_app, ?zlen_replicate; try lia.
  - pose proof (Hsl 0 (zlen cs - k)). lia.
  - unfold trim. destruct (rtrim_prefix cset (drop_while (in_cset cset) cs)) as (post & E).
    destruct (drop_while_suffix (in_cset cset) cs) as (pre & E' & _). pose proof (f_equal zlen E) as Hz. pose proof (f_equal zlen E') as Hz'.
    rewrite zlen_app in Hz, Hz'. pose proof (zlen_nonneg pre). pose proof (zlen_nonneg post). lia.
  - unfold range. case_decide; [|rewrite zlen_nil; lia]. apply Z.le_lt_trans with (zlen cs); [apply Hsl|exact Hlt].
  - pose proof (Hsl start len). lia.
  - rewrite zlen_nil. lia.
  - destruct (cstr_prefix cs) as (post & E). pose proof (f_equal zlen E) as Hz. rewrite zlen_app in Hz. pose proof (zlen_nonneg post). lia.
  - pose proof (Hsl 0 (Z.min n (zlen cs))). lia.
Qed.

Lemma sds_step_ok s cs op : sds_rep s cs -> zlen cs < 2 ^ 61 -> op_ok cs op ->
  exists s', sds_step s op = Some s' /\ sds_rep s' (chars_step cs op).
Proof using usable_ok.
  intros Hs Hlt Hok. destruct op; cbn [op_ok chars_step] in *.
  - by apply sdscatlen_ok.
  - by eapply sdscpylen_ok.
  - destruct Hok. by apply append_ok.
  - by apply sdsIncrLen_neg.
  - by apply sdstrim_ok.
  - destruct Hok. apply sdsrange_ok; try done. lia.
  - destruct Hok. by apply sdssubstr_ok.
  - by apply sdsgrowzero_ok.
  - by eapply sdsclear_ok.
  - by apply sdsupdatelen_ok.
  - by apply sdsdup_ok.
  - destruct Hok as [H0 H1]. destruct (make_room_rep junk usable usable_ok s cs n greedy Hs H0 H1) as (s' & _ & Hs' & Hrep & _). by exists s'.
  - by apply sdsResize_ok.
  - by apply sdsRemoveFreeSpace_ok.
Qed.

Lemma sds_run_ok ops s cs : sds_rep s cs -> zlen cs < 2 ^ 61 -> ops_ok cs ops ->
  exists s', sds_run s ops = Some s' /\ sds_rep s' (fold_left chars_step ops cs).
Proof using usable_ok.
  revert s cs. induction ops as [|op ops IH]; intros s cs Hs Hlt Hok; [by exists s|]. destruct Hok as [Hop Hok].
  destruct (sds_step_ok s cs op Hs Hlt Hop) as (s1 & Hs1 & Hrep1). cbn [sds_run fold_left]. rewrite Hs1. cbn [mbind option_bind].
  apply IH; [done|by apply zlen_chars_step|done].
Qed.
End runs.

(** C3: a string created with [sdsnew] and put through any sequence of
    concatenations, copies, appends by [sdsMakeRoomFor] and [sdsIncrLen], trims,
    ranges, resizes and the other operations holds the characters the list
    operations give, for every header type and every change of it: no operation
    fails an assertion or leaves the block, the length field is the number of
    characters, and the bytes at the pointer are the characters and a NUL. *)
Theorem sds_refines_chars junk usable try_ok init ops :
  (forall n, 0 <= n < 2 ^ 62 -> n <= usable n < 2 ^ 63) -> zlen init < 2 ^ 61 -> ops_ok init ops ->
  let cs := fold_left chars_step ops init in
  exists s, (s ← sdsnew junk usable try_ok init; sds_run junk usable try_ok s ops) = Some s /\
    sdslen s = Some (zlen cs) /\ read_at s 0 (zlen cs + 1) = Some (cs ++ [0]).
Proof.
  intros Hu Hlt Hok cs. destruct (sdsnew_ok junk usable try_ok Hu init Hlt) as (s0 & -> & Hs0). cbn [mbind option_bind].
  destruct (sds_run_ok junk usable try_ok Hu ops s0 init Hs0 Hlt Hok) as (s & -> & Hs). exists s. split; [done|].
  fold cs in Hs. clearbody cs. destruct Hs as (t & alloc & body & Hb & Hc). split; [apply (sdslen_ok _ _ _ _ _ Hb)|]. pose proof (block_room _ _ _ _ _ Hb).
  pose proof (block_len _ _ _ _ _ Hb). rewrite (read_at_ok _ _ _ _ _ Hb) by lia. destruct Hc as (_ & _ & E). rewrite zlen_app in E. exact (f_equal Some E).
Qed.

Lemma sds_refines_chars_witness :
  let junk := fun _ => 170 in let usable := fun n => 8 * ((n + 7) / 8) in
  let ops := [OpCat (replicate 40 97); OpAppend [98; 0; 99]; OpTrim [97]; OpRange (-3) (-1); OpGrowzero 300; OpResize 4 false; OpDup] in
  ops_ok [97; 97] ops /\
  exists s, (s ← sdsnew junk usable (fun _ => true) [97; 97]; sds_run junk usable (fun _ => true) s ops) = Some s /\
    sdslen s = Some 4 /\ read_at s 0 5 = Some [98; 0; 99; 0; 0].
Proof.
  intros junk usable ops. assert (ops_ok [97; 97] ops) as Hok by (apply (bool_decide_unpack _); vm_compute; exact I). split; [done|].
  apply (sds_refines_chars junk usable (fun _ => true) [97; 97] ops); [|done|done].
  intros n Hn. unfold usable. divlia.
Defined.

(** What the accessors of a block guarantee each other. *)
Definition sds_inv (s : sds) : Prop :=
  exists f len alloc, flags s = Some f /\ sdslen s = Some len /\ sdsalloc s = Some alloc /\
    0 <= Z.land f SDS_TYPE_MASK <= SDS_TYPE_64 /\ off s = sdsHdrSize f /\ 0 <= len <= alloc /\
    alloc <= sdsTypeMaxSize (Z.land f SDS_TYPE_MASK) /\ sdsAllocSize s = Some (off s + alloc + 1) /\
    off s + alloc + 1 <= zlen (blk s) /\ char_at s len = Some 0.

Lemma hdr_size_land f : sdsHdrSize (Z.land f SDS_TYPE_MASK) = sdsHdrSize f.
Proof. unfold sdsHdrSize. by rewrite <- Z.land_assoc. Qed.

Lemma sds_rep_inv s cs : sds_rep s cs -> sds_inv s.
Proof.
  intros (t & alloc & body & Hb & Hc). pose proof (block_type _ _ _ _ _ Hb) as Ht. pose proof (block_room _ _ _ _ _ Hb). pose proof (block_len _ _ _ _ _ Hb).
  pose proof (header_small _ _ _ (block_hdr _ _ _ _ _ Hb)) as (_ & Hmax). set (f := if decide (t = SDS_TYPE_5) then zlen cs * 8 else t).
  assert (Z.land f SDS_TYPE_MASK = t) as Hf by apply (block_land _ _ _ _ _ Hb). exists f, (zlen cs), alloc.
  assert (off s = sdsHdrSize f) as Hoff by (rewrite <- hdr_size_land, Hf; apply (block_off _ _ _ _ _ Hb)).
  pose proof (block_flags _ _ _ _ _ Hb) as Hfl. rewrite Hf. split_and!; try done; try lia.
  - apply (sdslen_ok _ _ _ _ _ Hb).
  - apply (sdsalloc_ok _ _ _ _ _ Hb).
  - unfold SDS_TYPE_64. lia.
  - unfold sdsAllocSize. rewrite (sdsalloc_ok _ _ _ _ _ Hb), Hfl. cbn [mbind option_bind]. fold f. by rewrite Hoff.
  - rewrite (block_blk _ _ _ _ _ Hb), zlen_app, <- (block_off_len _ _ _ _ _ Hb). lia.
  - rewrite (char_at_ok _ _ _ _ _ Hb) by apply zlen_nonneg. by eapply bytes_at_peek.
Qed.

(** C27: every string that operations can produce has a consistent header: its
    type is one of the five, the pointer is at the header size of the type, the
    length is at most the allocated size, which the type can store, the block
    holds the header, the allocated characters and the NUL that
    [sdsAllocSize] counts, and the character after the last one is NUL. *)
Theorem sds_inv_reachable junk usable try_ok init ops s :
  (forall n, 0 <= n < 2 ^ 62 -> n <= usable n < 2 ^ 63) -> zlen init < 2 ^ 61 -> ops_ok init ops ->
  (s ← sdsnew junk usable try_ok init; sds_run junk usable try_ok s ops) = Some s -> sds_inv s.
Proof.
  intros Hu Hlt Hok. destruct (sdsnew_ok junk usable try_ok Hu init Hlt) as (s0 & -> & Hs0). cbn [mbind option_bind].
  destruct (sds_run_ok junk usable try_ok Hu ops s0 init Hs0 Hlt Hok) as (s' & -> & Hs). intros [= <-]. by eapply sds_rep_inv.
Qed.

Lemma sds_inv_reachable_witness :
  let junk := fun _ => 170 in let usable := fun n => n + 16 in
  let ops := [OpMakeRoom 500 true; OpCat [1; 0; 2]; OpResize 70000 true; OpRemoveFreeSpace false; OpCut 2; OpUpdatelen; OpClear] in
  match s ← sdsnew junk usable (fun _ => true) [97; 98]; sds_run junk usable (fun _ => true) s ops with
  | Some s => sds_inv s
  | None => False
  end.
Proof.
  intros junk usable ops. destruct (_ ≫= _) as [s|] eqn:E.
  - eapply (sds_inv_reachable junk usable (fun _ => true) [97; 98] ops s); [|done| |exact E].
    + intros n Hn. unfold usable. lia.
    + apply (bool_decide_unpack _). vm_compute. exact I.
  - vm_compute in E. discriminate.
Defined.
