(* ===== verification/SdsText.v ===== *)
(** * Dynamic strings: text (sds.c)

    The functions of sds.c that read or build text on top of the blocks of
    Sds.v: splitting and joining, the quoted representation and its parser, the
    two formatters, the character maps.

    What they use of the blocks is the interface [StringOps]; its laws are
    [StringLaws], over a relation [rep] between a string and its characters.
    The blocks are an instance ([block_ops], [block_laws]); lists of characters
    are another ([char_ops], [char_laws]), for the clients that do not look
    inside a string.

    Theorems: parsing the quoted representations of any byte strings, separated
    by spaces, gives these strings back; the parser returns on every line and
    never reads past its NUL; joining the parts of a split gives the string
    back, and no part contains the separator; [sdscatfmt] appends the formatted
    text. *)

From Stdlib Require Import String.
From S2P Require Import Prelude Util Sds.

#[local] Set Default Proof Using "Type".

(** ** The interface *)

Class StringOps (str : Type) := {
  str_empty : option str;
  str_newlen : bytes -> option str;
  str_catlen : str -> bytes -> option str;
  str_makeroom : str -> Z -> option str;
  str_chars : str -> option bytes;
}.

Class StringLaws (str : Type) `{StringOps str} := {
  rep : str -> bytes -> Prop;
  empty_law : exists s, str_empty = Some s /\ rep s [];
  newlen_law bs : zlen bs < 2 ^ 61 -> exists s, str_newlen bs = Some s /\ rep s bs;
  catlen_law s cs bs : rep s cs -> zlen cs + zlen bs < 2 ^ 61 -> exists s', str_catlen s bs = Some s' /\ rep s' (cs ++ bs);
  makeroom_law s cs n : rep s cs -> 0 <= n -> zlen cs + n < 2 ^ 61 -> exists s', str_makeroom s n = Some s' /\ rep s' cs;
  chars_law s cs : rep s cs -> str_chars s = Some cs;
}.

(** ** Splitting and joining *)

Section split.
Context {str : Type} `{StringOps str}.

(** [memcmp(s + j, sep, seplen) == 0]. *)
Definition sep_at (s : bytes) (j : Z) (sep : bytes) : option bool :=
  bs ← mem_read s j (zlen sep); Some (bool_decide (bs = sep)).

(** [tokens[elements] = sdsnewlen(s + start, n)] in an array of [slots] cells. *)
Definition add_token (s : bytes) (start n slots : Z) (tokens : list str) : option (list str) :=
  bs ← mem_read s start n;
  t ← str_newlen bs;
  _ ← assert (zlen tokens < slots);
  Some (tokens ++ [t]).

(** The [for] loop; a token counter past [INT_MAX] is an overflow. *)
Fixpoint split_loop (fuel : nat) (s sep : bytes) (j start slots : Z) (tokens : list str) : option (Z * Z * list str) :=
  match fuel with
  | O => None
  | S fuel =>
    if decide (j < zlen s - (zlen sep - 1)) then
      let slots := if decide (slots < zlen tokens + 2) then slots * 2 else slots in
      _ ← assert (slots <= INT32_MAX);
      here ← sep_at s j sep;
      if (here : bool) then
        tokens ← add_token s start (j - start) slots tokens;
        split_loop fuel s sep (j + zlen sep) (j + zlen sep) slots tokens
      else split_loop fuel s sep (j + 1) start slots tokens
    else Some (start, slots, tokens)
  end.

(** [Some None] is [NULL]. *)
Definition sdssplitlen (s sep : bytes) : option (option (list str)) :=
  if decide (zlen sep < 1 \/ zlen s <= 0) then Some None
  else
    '(start, slots, tokens) ← split_loop (S (length s)) s sep 0 0 5 [];
    tokens ← add_token s start (zlen s - start) slots tokens;
    Some (Some tokens).

Fixpoint join_loop (argv : list str) (sep : bytes) (join : str) : option str :=
  match argv with
  | [] => Some join
  | s :: argv' =>
    cs ← str_chars s;
    join ← str_catlen join cs;
    join ← (match argv' with [] => Some join | _ => str_catlen join sep end);
    join_loop argv' sep join
  end.

Definition sdsjoinsds (argv : list str) (sep : bytes) : option str :=
  join ← str_empty; join_loop argv sep join.

(** The array holds C strings. *)
Fixpoint join_c_loop (argv : list bytes) (sep : bytes) (join : str) : option str :=
  match argv with
  | [] => Some join
  | t :: argv' =>
    join ← str_catlen join t;
    join ← (match argv' with [] => Some join | _ => str_catlen join sep end);
    join_c_loop argv' sep join
  end.

Definition sdsjoin (argv : list bytes) (sep : bytes) : option str :=
  join ← str_empty; join_c_loop argv sep join.
End split.

(** ** Quoted representation *)

(** [isprint] and [isspace] of the C locale, which Redis uses for characters. *)
Definition isprint (c : Z) : bool := bool_decide (32 <= c <= 126).
Definition isspace (c : Z) : bool := bool_decide (9 <= c <= 13 \/ c = 32).

(** [%02x]. *)
Definition hex_digit (n : Z) : Z := if decide (n < 10) then 48 + n else 87 + n.
Definition hex_byte (c : Z) : bytes := [hex_digit (c / 16); hex_digit (c mod 16)].

(** What [sdscatrepr] appends for a character. *)
Definition repr_char (c : Z) : bytes :=
  if decide (c = 92 \/ c = 34) then [92; c]
  else if decide (c = 10) then [92; 110]
  else if decide (c = 13) then [92; 114]
  else if decide (c = 9) then [92; 116]
  else if decide (c = 7) then [92; 97]
  else if decide (c = 8) then [92; 98]
  else if isprint c then [c]
  else 92 :: 120 :: hex_byte c.

Section repr.
Context {str : Type} `{StringOps str}.

Fixpoint catrepr_loop (s : str) (p : bytes) : option str :=
  match p with
  | [] => Some s
  | c :: p => s ← str_catlen s (repr_char c); catrepr_loop s p
  end.

Definition sdscatrepr (s : str) (p : bytes) : option str :=
  s ← str_makeroom s (zlen p + 2);
  s ← str_catlen s [34];
  s ← catrepr_loop s p;
  str_catlen s [34].
End repr.

Definition needs_repr (c : Z) : bool :=
  bool_decide (c = 92 \/ c = 34 \/ c = 10 \/ c = 13 \/ c = 9 \/ c = 7 \/ c = 8) || negb (isprint c) || isspace c.

Fixpoint sdsneedsrepr (cs : bytes) : bool :=
  match cs with [] => false | c :: cs => if needs_repr c then true else sdsneedsrepr cs end.

Definition is_hex_digit (c : Z) : bool := bool_decide (48 <= c <= 57 \/ 97 <= c <= 102 \/ 65 <= c <= 70).

Definition hex_digit_to_int (c : Z) : Z :=
  if decide (48 <= c <= 57) then c - 48
  else if decide (97 <= c <= 102) then c - 87
  else if decide (65 <= c <= 70) then c - 55
  else 0.

(** [*(line + p)], where a NUL follows the characters of [line]. *)
Definition line_at (line : bytes) (p : Z) : option Z :=
  if decide (p = zlen line) then Some 0 else peek line p.

(** The escape after a backslash in double quotes. *)
Definition unescape (c : Z) : Z :=
  if decide (c = 110) then 10
  else if decide (c = 114) then 13
  else if decide (c = 116) then 9
  else if decide (c = 98) then 8
  else if decide (c = 97) then 7
  else c.

Section splitargs.
Context {str : Type} `{StringOps str}.

(** The variables of the loop over one token. *)
Record token := Token { pos : Z; current : str; inq : bool; insq : bool; done : bool }.

(** A backslash, an x and two hexadecimal digits at [p]. *)
Definition hex_escape (line : bytes) (p c : Z) : option bool :=
  if decide (c = 92) then
    c1 ← line_at line (p + 1);
    if decide (c1 = 120) then
      c2 ← line_at line (p + 2);
      if is_hex_digit c2 then c3 ← line_at line (p + 3); Some (is_hex_digit c3) else Some false
    else Some false
  else Some false.

(** A closing quote must be followed by a space or nothing; [None] is [goto err]. *)
Definition close_quote (line : bytes) (t : token) : option (option token) :=
  c1 ← line_at line (pos t + 1);
  if bool_decide (c1 <> 0) && negb (isspace c1) then Some None
  else Some (Some (Token (pos t) (current t) (inq t) (insq t) true)).

Definition append (t : token) (p c : Z) : option (option token) :=
  s ← str_catlen (current t) [c]; Some (Some (Token p s (inq t) (insq t) (done t))).

Definition step_inq (line : bytes) (t : token) (c : Z) : option (option token) :=
  let p := pos t in
  hex ← hex_escape line p c;
  if (hex : bool) then
    c2 ← line_at line (p + 2);
    c3 ← line_at line (p + 3);
    append t (p + 3) (u8 (hex_digit_to_int c2 * 16 + hex_digit_to_int c3))
  else
    esc ← (if decide (c = 92) then c1 ← line_at line (p + 1); Some (bool_decide (c1 <> 0)) else Some false);
    if (esc : bool) then c1 ← line_at line (p + 1); append t (p + 1) (unescape c1)
    else if decide (c = 34) then close_quote line t
    else if decide (c = 0) then Some None
    else append t p c.

Definition step_insq (line : bytes) (t : token) (c : Z) : option (option token) :=
  let p := pos t in
  esc ← (if decide (c = 92) then c1 ← line_at line (p + 1); Some (bool_decide (c1 = 39)) else Some false);
  if (esc : bool) then append t (p + 1) 39
  else if decide (c = 39) then close_quote line t
  else if decide (c = 0) then Some None
  else append t p c.

Definition step_plain (t : token) (c : Z) : option (option token) :=
  if decide (c = 32 \/ c = 10 \/ c = 13 \/ c = 9 \/ c = 0) then Some (Some (Token (pos t) (current t) (inq t) (insq t) true))
  else if decide (c = 34) then Some (Some (Token (pos t) (current t) true (insq t) (done t)))
  else if decide (c = 39) then Some (Some (Token (pos t) (current t) (inq t) true (done t)))
  else append t (pos t) c.

(** [while(!done)]. *)
Fixpoint token_loop (fuel : nat) (line : bytes) (t : token) : option (option token) :=
  if done t then Some (Some t)
  else
    match fuel with
    | O => None
    | S fuel =>
      c ← line_at line (pos t);
      r ← (if inq t then step_inq line t c else if insq t then step_insq line t c else step_plain t c);
      match r with
      | None => Some None
      | Some t =>
        c ← line_at line (pos t);
        token_loop fuel line (if decide (c <> 0) then Token (pos t + 1) (current t) (inq t) (insq t) (done t) else t)
      end
    end.

(** Skips blanks. *)
Fixpoint skip_blanks (fuel : nat) (line : bytes) (p : Z) : option Z :=
  match fuel with
  | O => None
  | S fuel => c ← line_at line p; if bool_decide (c <> 0) && isspace c then skip_blanks fuel line (p + 1) else Some p
  end.

Fixpoint args_loop (fuel : nat) (line : bytes) (p : Z) (vector : list str) : option (option (list str)) :=
  match fuel with
  | O => None
  | S fuel =>
    p ← skip_blanks (S (length line)) line p;
    c ← line_at line p;
    if decide (c <> 0) then
      s ← str_empty;
      r ← token_loop (S (length line)) line (Token p s false false false);
      match r with
      | None => Some None
      | Some t => args_loop fuel line (pos t) (vector ++ [current t])
      end
    else Some (Some vector)
  end.

(** [Some None] is the [NULL] of a line with unbalanced quotes. *)
Definition sdssplitargs (line : bytes) : option (option (list str)) :=
  args_loop (S (length line)) line 0 [].
End splitargs.

Arguments token : clear implicits.

(** ** Formatting *)

(** The variable arguments of [sdscatfmt]. *)
Inductive fmt_arg :=
  | ArgStr (str : bytes) | ArgSds (s : sds) | ArgInt (num : Z) | ArgLL (num : Z) | ArgUint (unum : Z) | ArgULL (unum : Z).

Section format.
Variables (junk : nat -> Z) (usable : Z -> Z).

(** The local array of a conversion. *)
Definition local_buf : bytes := junk <$> seq 0 21.

(** The bytes that a conversion copies; an argument of another type than the one
    the conversion reads is undefined. *)
Definition conv_bytes (next : Z) (arg : fmt_arg) : option bytes :=
  match arg with
  | ArgStr bs => if decide (next = 115) then Some bs else None
  | ArgSds t => if decide (next = 83) then len ← sdslen t; read_at t 0 len else None
  | ArgInt num => if decide (next = 105) then '(buf, l) ← ll2string local_buf LONG_STR_SIZE num; mem_read buf 0 l else None
  | ArgLL num => if decide (next = 73) then '(buf, l) ← ll2string local_buf LONG_STR_SIZE num; mem_read buf 0 l else None
  | ArgUint unum => if decide (next = 117) then '(buf, l) ← ull2string local_buf 0 LONG_STR_SIZE unum; mem_read buf 0 l else None
  | ArgULL unum => if decide (next = 85) then '(buf, l) ← ull2string local_buf 0 LONG_STR_SIZE unum; mem_read buf 0 l else None
  end.

(** [if (sdsavail(s) < l) ...; memcpy(s+i,str,l); sdsinclen(s,l); i += l]. *)
Definition put_bytes (s : sds) (i : Z) (bs : bytes) : option (sds * Z) :=
  let l := zlen bs in
  avail ← sdsavail s;
  s ← (if decide (avail < l) then sdsMakeRoomFor junk usable s l else Some s);
  s ← write_at s i bs;
  s ← sdsinclen s l;
  Some (s, i + l).

(** [s[i++] = c; sdsinclen(s,1)]. *)
Definition put_char (s : sds) (i c : Z) : option (sds * Z) :=
  s ← set_char s i c; s ← sdsinclen s 1; Some (s, i + 1).

Definition is_conv (next : Z) : bool :=
  bool_decide (next = 115 \/ next = 83 \/ next = 105 \/ next = 73 \/ next = 117 \/ next = 85).

Definition room_for_one (s : sds) : option sds :=
  avail ← sdsavail s; if decide (avail = 0) then sdsMakeRoomFor junk usable s 1 else Some s.

(** [f] is the rest of the format. *)
Fixpoint fmt_loop (f : bytes) (s : sds) (i : Z) (ap : list fmt_arg) : option (sds * Z) :=
  match f with
  | [] => Some (s, i)
  | c :: f1 =>
    s ← room_for_one s;
    if decide (c = 37) then
      match f1 with
      | [] => Some (s, i)
      | next :: f2 =>
        if is_conv next then
          match ap with
          | [] => None
          | arg :: ap => bs ← conv_bytes next arg; '(s, i) ← put_bytes s i bs; fmt_loop f2 s i ap
          end
        else '(s, i) ← put_char s i next; fmt_loop f2 s i ap
      end
    else '(s, i) ← put_char s i c; fmt_loop f1 s i ap
  end.

Definition sdscatfmt (s : sds) (fmt : bytes) (ap : list fmt_arg) : option sds :=
  initlen ← sdslen s;
  s ← sdsMakeRoomFor junk usable s (zlen fmt * 2);
  '(s, i) ← fmt_loop fmt s initlen ap;
  set_char s i 0.

(** [vsnprintf(buf, buflen, fmt, cpy)], where [out] is the formatted text: the
    characters that fit and a NUL are stored, the length of [out] is returned. *)
Definition vsnprintf (buf : bytes) (out : bytes) : option (bytes * Z) :=
  buf ← mem_write buf 0 (take (length buf - 1) out ++ [0]); Some (buf, zlen out).

(** [while(1)]: a buffer that is too small is replaced by one of the right size. *)
Fixpoint vprintf_loop (fuel : nat) (buf out : bytes) : option bytes :=
  match fuel with
  | O => None
  | S fuel =>
    '(buf, bufstrlen) ← vsnprintf buf out;
    if decide (bufstrlen >= zlen buf) then vprintf_loop fuel (junk <$> seq 0 (Z.to_nat (bufstrlen + 1))) out
    else mem_read buf 0 bufstrlen
  end.

Definition sdscatvprintf (s : sds) (fmt out : bytes) : option sds :=
  let buflen := zlen fmt * 2 in
  let buflen := if decide (buflen > 1024) then buflen else 1024 in
  bs ← vprintf_loop 2 (junk <$> seq 0 (Z.to_nat buflen)) out;
  sdscatlen junk usable s bs.
End format.

(** ** Character maps *)

(** [for (j = 0; j < len; j++) s[j] = f(s[j])]. *)
Fixpoint map_loop (f : Z -> Z) (n : nat) (j : Z) (s : sds) : option sds :=
  match n with
  | O => Some s
  | S n => c ← char_at s j; s ← set_char s j (f c); map_loop f n (j + 1) s
  end.

Definition toupper (c : Z) : Z := if decide (97 <= c <= 122) then c - 32 else c.

Definition sdstolower (s : sds) : option sds := len ← sdslen s; map_loop tolower (Z.to_nat len) 0 s.
Definition sdstoupper (s : sds) : option sds := len ← sdslen s; map_loop toupper (Z.to_nat len) 0 s.

(** [from] and [to] have [setlen] characters; [mapchar] is the inner loop. *)
Definition sdsmapchars (s : sds) (from to : bytes) : option sds :=
  l ← sdslen s; map_loop (fun c => mapchar c from to) (Z.to_nat l) 0 s.

(** ** Templates *)

Section template.
Context {str : Type} `{StringOps str}.

(** The callback gives the value of a variable, or fails. *)
Variable cb_func : bytes -> option bytes.

(** The characters before the first [c], and those after it. *)
Fixpoint strchr (c : Z) (p : bytes) : option (bytes * bytes) :=
  match p with
  | [] => None
  | d :: p => if decide (d = c) then Some ([], p) else '(a, b) ← strchr c p; Some (d :: a, b)
  end.

(** [Some None] is [goto error]. *)
Fixpoint template_loop (fuel : nat) (p : bytes) (res : str) : option (option str) :=
  match fuel with
  | O => None
  | S fuel =>
    match p with
    | [] => Some (Some res)
    | _ =>
      match strchr 123 p with
      | None => res ← str_catlen res p; Some (Some res)
      | Some (before, sv) =>
        res ← (match before with [] => Some res | _ => str_catlen res before end);
        match sv with
        | [] => Some None
        | c :: sv' =>
          if decide (c = 123) then res ← str_catlen res [123]; template_loop fuel sv' res
          else
            match strchr 125 sv with
            | None => Some None
            | Some (varname, p) =>
              match cb_func varname with
              | None => Some None
              | Some value => res ← str_catlen res (cstr value); template_loop fuel p res
              end
            end
        end
      end
    end
  end.

Definition sdstemplate (template : bytes) : option (option str) :=
  res ← str_empty; template_loop (S (length template)) template res.
End template.

(** ** The two instances *)

#[export] Instance char_ops : StringOps bytes := {
  str_empty := Some [];
  str_newlen bs := Some bs;
  str_catlen s bs := Some (s ++ bs);
  str_makeroom s _ := Some s;
  str_chars s := Some s;
}.

#[export, refine] Instance char_laws : StringLaws bytes := { rep s cs := s = cs }.
Proof.
  - by exists [].
  - intros bs _. by exists bs.
  - intros s cs bs -> _. by eexists.
  - intros s cs n -> _ _. by eexists.
  - intros s cs ->. done.
Defined.

Section blocks.
Variables (junk : nat -> Z) (usable : Z -> Z) (try_ok : Z -> bool).

Definition block_ops : StringOps sds := {|
  str_empty := sdsempty junk usable try_ok;
  str_newlen bs := sdsnewlen junk usable try_ok (InitBytes bs) (zlen bs);
  str_catlen := sdscatlen junk usable;
  str_makeroom := sdsMakeRoomFor junk usable;
  str_chars s := len ← sdslen s; read_at s 0 len;
|}.

Hypothesis usable_ok : forall n, 0 <= n < 2 ^ 62 -> n <= usable n < 2 ^ 63.

#[refine] Definition block_laws : @StringLaws sds block_ops := {| rep := sds_rep : sds -> bytes -> Prop |}.
Proof using usable_ok.
  - apply (sdsnew_ok junk usable try_ok usable_ok []). done.
  - apply (sdsnew_ok junk usable try_ok usable_ok).
  - apply (sdscatlen_ok junk usable usable_ok).
  - intros s cs n Hs H0 Hn. destruct (make_room_rep junk usable usable_ok s cs n true Hs H0 Hn) as (s' & _ & Hs' & Hrep & _). by exists s'.
  - intros s cs Hs. cbn. destruct (sds_read s cs Hs) as [-> Hr]. exact Hr.
Defined.
End blocks.

(** ** Positions in a line *)

Definition at_pos (line : bytes) (p : Z) (rest : bytes) : Prop := exists pre, line = pre ++ rest /\ p = zlen pre.

Lemma pos_cons line p c rest : at_pos line p (c :: rest) -> line_at line p = Some c.
Proof.
  intros (pre & -> & ->). unfold line_at. pose proof (zlen_nonneg pre). pose proof (zlen_nonneg rest).
  rewrite decide_False by (rewrite zlen_app, zlen_cons; lia). unfold peek. rewrite decide_True by lia.
  unfold zlen. rewrite Nat2Z.id. by rewrite list_lookup_middle.
Qed.

Lemma pos_nil line p : at_pos line p [] -> line_at line p = Some 0.
Proof. intros (pre & -> & ->). unfold line_at. rewrite app_nil_r. by rewrite decide_True. Qed.

Lemma at_skip line p l rest q : at_pos line p (l ++ rest) -> q = p + zlen l -> at_pos line q rest.
Proof. intros (pre & -> & ->) ->. exists (pre ++ l). by rewrite <- app_assoc, zlen_app. Qed.

Lemma at_next line p c rest : at_pos line p (c :: rest) -> at_pos line (p + 1) rest.
Proof. intros Hp. by apply (at_skip line p [c]). Qed.

Lemma at_start line : at_pos line 0 line.
Proof. by exists []. Qed.

(** The character at a position, which is NUL only at the end. *)
Lemma at_char line p rest : at_pos line p rest -> Forall (fun c => c <> 0) line ->
  exists c, line_at line p = Some c /\ ((c = 0 /\ rest = []) \/ (c <> 0 /\ exists rest', rest = c :: rest')).
Proof.
  intros Hp Hl. destruct rest as [|c rest].
  - exists 0. split; [by apply pos_nil|]. by left.
  - exists c. split; [by eapply pos_cons|]. right. split; [|by eexists]. destruct Hp as (pre & -> & _).
    by apply Forall_app in Hl as [_ [? _]%Forall_cons].
Qed.

(** ** The parser returns *)

Section total.
Context {str : Type} `{Hlaws : StringLaws str}.

(** Where a step may leave the loop: on a character, unless the line is over. *)
Definition step_post (line rest cs : bytes) (r : option (token str)) : Prop :=
  match r with
  | None => True
  | Some t' => exists rest' cs', at_pos line (pos t') rest' /\ (length rest' <= length rest)%nat /\
      (rest = [] -> done t' = true) /\ (rest <> [] -> rest' <> []) /\ rep (current t') cs' /\ zlen cs' + zlen rest' <= zlen cs + zlen rest + 1
  end.

Lemma append_total line t cs rest rest' p c : rep (current t) cs -> zlen cs + 1 < 2 ^ 61 -> at_pos line p rest' ->
  (length rest' <= length rest)%nat -> rest <> [] -> rest' <> [] ->
  exists r, append t p c = Some r /\ step_post line rest cs r.
Proof.
  intros Hr Hz Hp Hl Hne Hne'. unfold append. destruct (catlen_law (current t) cs [c] Hr) as (s' & -> & Hr'); [done|].
  cbn [mbind option_bind]. eexists. split; [done|]. exists rest', (cs ++ [c]). cbn [pos current done].
  split_and!; try done. rewrite zlen_app. change (zlen [c]) with 1. unfold zlen. lia.
Qed.

Lemma stay_total line (t : token str) cs rest t' : at_pos line (pos t) rest -> rep (current t) cs ->
  pos t' = pos t -> current t' = current t -> (rest = [] -> done t' = true) -> step_post line rest cs (Some t').
Proof. intros Hp Hr E1 E2 Hd. exists rest, cs. rewrite E1, E2. split_and!; try done. lia. Qed.

Lemma close_total line (t : token str) cs c rest : Forall (fun c => c <> 0) line -> at_pos line (pos t) (c :: rest) -> rep (current t) cs ->
  exists r, close_quote line t = Some r /\ step_post line (c :: rest) cs r.
Proof.
  intros Hl Hp Hr. unfold close_quote. destruct (at_char _ _ _ (at_next _ _ _ _ Hp) Hl) as (c1 & -> & _). cbn [mbind option_bind].
  destruct (_ && _); eexists; (split; [done|]); [done|]. by eapply stay_total.
Qed.

Lemma step_inq_total line (t : token str) cs c rest : Forall (fun c => c <> 0) line -> at_pos line (pos t) rest -> rep (current t) cs ->
  zlen cs + 1 < 2 ^ 61 -> line_at line (pos t) = Some c -> (c = 0 /\ rest = []) \/ (c <> 0 /\ exists rest', rest = c :: rest') ->
  exists r, step_inq line t c = Some r /\ step_post line rest cs r.
Proof.
  intros Hl Hp Hr Hz Hc Hrest. unfold step_inq, hex_escape. destruct (decide (c = 92)) as [->|E92].
  - destruct Hrest as [[? _]|(_ & rest1 & ->)]; [done|]. pose proof (at_next _ _ _ _ Hp) as Hp1.
    destruct (at_char _ _ _ Hp1 Hl) as (c1 & -> & H1). cbn [mbind option_bind].
    assert (forall X : option (option (token str)), (exists r, X = Some r /\ step_post line (92 :: rest1) cs r) ->
      exists r, (esc ← Some (bool_decide (c1 <> 0)); if (esc : bool) then append t (pos t + 1) (unescape c1) else X) = Some r /\ step_post line (92 :: rest1) cs r) as Hesc.
    { intros X HX. cbn [mbind option_bind]. case_bool_decide as Hc1; [|done]. destruct H1 as [[? _]|(_ & rest2 & ->)]; [done|].
      eapply append_total; try done; simpl; lia. }
    assert (exists r, (if decide (92 = 34) then close_quote line t else if decide (92 = 0) then Some None else append t (pos t) 92) = Some r /\
              step_post line (92 :: rest1) cs r) as Hplain.
    { rewrite !decide_False by done. eapply append_total; try done; simpl; lia. }
    destruct (decide (c1 = 120)) as [->|E120]; [|exact (Hesc _ Hplain)]. destruct H1 as [[? _]|(_ & rest2 & ->)]; [done|]. pose proof (at_next _ _ _ _ Hp1) as Hp2.
    replace (pos t + 1 + 1) with (pos t + 2) in Hp2 by lia. destruct (at_char _ _ _ Hp2 Hl) as (c2 & -> & H2). cbn [mbind option_bind].
    destruct (is_hex_digit c2) eqn:Hx2; [|exact (Hesc _ Hplain)]. destruct H2 as [[-> _]|(_ & rest3 & ->)]; [done|]. pose proof (at_next _ _ _ _ Hp2) as Hp3.
    replace (pos t + 2 + 1) with (pos t + 3) in Hp3 by lia. destruct (at_char _ _ _ Hp3 Hl) as (c3 & -> & H3). cbn [mbind option_bind].
    destruct (is_hex_digit c3) eqn:Hx3; [|exact (Hesc _ Hplain)]. destruct H3 as [[-> _]|(_ & rest4 & ->)]; [done|].
    eapply append_total; try done; simpl; lia.
  - cbn [mbind option_bind]. case_decide as E34; [|case_decide as E0].
    + destruct Hrest as [[-> _]|(_ & rest1 & ->)]; [done|]. by apply close_total.
    + by eexists.
    + destruct Hrest as [[? _]|(_ & rest1 & ->)]; [done|]. eapply append_total; try done; simpl; lia.
Qed.

Lemma step_insq_total line (t : token str) cs c rest : Forall (fun c => c <> 0) line -> at_pos line (pos t) rest -> rep (current t) cs ->
  zlen cs + 1 < 2 ^ 61 -> line_at line (pos t) = Some c -> (c = 0 /\ rest = []) \/ (c <> 0 /\ exists rest', rest = c :: rest') ->
  exists r, step_insq line t c = Some r /\ step_post line rest cs r.
Proof.
  intros Hl Hp Hr Hz Hc Hrest. unfold step_insq.
  assert (exists r, (if decide (c = 39) then close_quote line t else if decide (c = 0) then Some None else append t (pos t) c) = Some r /\
            step_post line rest cs r) as Hplain.
  { case_decide as E39; [|case_decide as E0].
    + destruct Hrest as [[-> _]|(_ & rest1 & ->)]; [done|]. by apply close_total.
    + by eexists.
    + destruct Hrest as [[? _]|(_ & rest1 & ->)]; [done|]. eapply append_total; try done; simpl; lia. }
  destruct (decide (c = 92)) as [->|E92]; [|exact Hplain]. destruct Hrest as [[? _]|(_ & rest1 & ->)]; [done|].
  pose proof (at_next _ _ _ _ Hp) as Hp1. destruct (at_char _ _ _ Hp1 Hl) as (c1 & -> & H1). cbn [mbind option_bind].
  case_bool_decide as E39; [|exact Hplain]. subst c1. destruct H1 as [[? _]|(_ & rest2 & ->)]; [done|]. eapply append_total; try done; simpl; lia.
Qed.

Lemma step_plain_total line (t : token str) cs c rest : at_pos line (pos t) rest -> rep (current t) cs ->
  zlen cs + 1 < 2 ^ 61 -> (c = 0 /\ rest = []) \/ (c <> 0 /\ exists rest', rest = c :: rest') ->
  exists r, step_plain t c = Some r /\ step_post line rest cs r.
Proof.
  intros Hp Hr Hz Hrest. unfold step_plain. case_decide as Hb; [|case_decide; [|case_decide]].
  - eexists. split; [done|]. by eapply stay_total.
  - destruct Hrest as [[-> _]|(_ & rest1 & ->)]; [done|]. eexists. split; [done|]. by eapply stay_total.
  - destruct Hrest as [[-> _]|(_ & rest1 & ->)]; [done|]. eexists. split; [done|]. by eapply stay_total.
  - destruct Hrest as [[-> _]|(_ & rest1 & ->)]; [tauto|]. eapply append_total; try done; simpl; lia.
Qed.

Lemma token_loop_total fuel line (t : token str) cs rest : Forall (fun c => c <> 0) line -> at_pos line (pos t) rest -> rep (current t) cs ->
  zlen cs + zlen rest + 1 < 2 ^ 61 -> (length rest < fuel)%nat -> done t = false ->
  exists r, token_loop fuel line t = Some r /\
    match r with
    | None => True
    | Some t' => exists rest', at_pos line (pos t') rest' /\ (length rest' <= length rest)%nat /\ (rest <> [] -> (length rest' < length rest)%nat)
    end.
Proof.
  intros Hl. revert t cs rest. induction fuel as [|fuel IH]; intros t cs rest Hp Hr Hz Hf Hd; [lia|]. cbn [token_loop]. rewrite Hd.
  destruct (at_char _ _ _ Hp Hl) as (c & Hc & Hrest). rewrite Hc. cbn [mbind option_bind]. pose proof (zlen_nonneg rest).
  assert (exists r, (if inq t then step_inq line t c else if insq t then step_insq line t c else step_plain t c) = Some r /\ step_post line rest cs r)
    as (r & -> & Hpost).
  { destruct (inq t); [|destruct (insq t)]; [eapply step_inq_total|eapply step_insq_total|eapply step_plain_total]; try done; lia. }
  cbn [mbind option_bind]. destruct r as [t'|]; [|by eexists]. destruct Hpost as (rest' & cs' & Hp' & Hle & Hnil & Hne & Hr' & Hz').
  destruct (at_char _ _ _ Hp' Hl) as (c' & -> & Hc'). cbn [mbind option_bind]. destruct Hc' as [[-> ->]|(Hc' & rest2 & ->)].
  - rewrite decide_False by auto. destruct (decide (rest = [])) as [E|E]; [|by specialize (Hne E)].
    assert (forall n, token_loop n line t' = Some (Some t')) as ->. { intros n. specialize (Hnil E). destruct n; cbn [token_loop]; by rewrite Hnil. }
    eexists. split; [done|]. exists []. split_and!; [done|simpl; lia|done].
  - rewrite decide_True by done. set (t'' := Token _ _ _ _ _). assert (at_pos line (pos t'') rest2) as Hp'' by (eapply at_next; exact Hp').
    assert (length (c' :: rest2) = S (length rest2)) as Hs by done. destruct (done t') eqn:Hd'.
    + assert (forall n, token_loop n line t'' = Some (Some t'')) as -> by (intros n; by destruct n).
      eexists. split; [done|]. exists rest2. split_and!; [done|lia|lia].
    + destruct (IH t'' cs' rest2) as (r & -> & Hpost); [done|done|rewrite zlen_cons in Hz'; lia|lia|done|]. eexists. split; [done|].
      destruct r as [t3|]; [|done]. destruct Hpost as (rest3 & Hp3 & Hl3 & _). exists rest3. split_and!; [done|lia|lia].
Qed.

Lemma skip_blanks_total fuel line p rest : Forall (fun c => c <> 0) line -> at_pos line p rest -> (length rest < fuel)%nat ->
  exists p' rest', skip_blanks fuel line p = Some p' /\ at_pos line p' rest' /\ (length rest' <= length rest)%nat.
Proof.
  intros Hl. revert p rest. induction fuel as [|fuel IH]; intros p rest Hp Hf; [lia|]. cbn [skip_blanks].
  destruct (at_char _ _ _ Hp Hl) as (c & -> & Hc). cbn [mbind option_bind]. destruct (_ && _) eqn:Hb.
  - apply andb_true_iff in Hb as [Hb _]. apply bool_decide_eq_true in Hb. destruct Hc as [[? _]|(_ & rest1 & ->)]; [done|].
    destruct (IH (p + 1) rest1) as (p' & rest' & -> & Hp' & Hle); [by eapply at_next|simpl in Hf; lia|]. exists p', rest'. split_and!; [done|done|simpl; lia].
  - by exists p, rest.
Qed.

Lemma args_loop_total fuel line p rest vector : Forall (fun c => c <> 0) line -> at_pos line p rest -> zlen line + 1 < 2 ^ 61 ->
  (length rest < fuel)%nat -> exists r, args_loop fuel line p vector = Some r.
Proof using Hlaws.
  intros Hl. revert p rest vector. induction fuel as [|fuel IH]; intros p rest vector Hp Hz Hf; [lia|]. cbn [args_loop].
  assert (forall p rest, at_pos line p rest -> zlen rest <= zlen line) as Hrl.
  { intros q r (pre & -> & _). rewrite zlen_app. pose proof (zlen_nonneg pre). lia. }
  destruct (skip_blanks_total (S (length line)) line p rest Hl Hp) as (p1 & rest1 & -> & Hp1 & Hl1); [specialize (Hrl _ _ Hp); unfold zlen in *; lia|].
  cbn [mbind option_bind]. destruct (at_char _ _ _ Hp1 Hl) as (c & -> & Hc). cbn [mbind option_bind]. case_decide as Hc0; [|by eexists].
  destruct Hc as [[? _]|(_ & rest2 & ->)]; [done|]. destruct empty_law as (s & -> & Hs). cbn [mbind option_bind]. pose proof (Hrl _ _ Hp1).
  destruct (token_loop_total (S (length line)) line (Token p1 s false false false) [] (c :: rest2)) as (r & -> & Hr); try done.
  - rewrite zlen_nil. lia.
  - unfold zlen in *. lia.
  - cbn [mbind option_bind]. destruct r as [t|]; [|by eexists]. destruct Hr as (rest3 & Hp3 & _ & Hlt). eapply IH; [done|done|].
    specialize (Hlt ltac:(done)). lia.
Qed.

(** Every line is either parsed or refused. *)
Lemma sdssplitargs_total line : Forall (fun c => c <> 0) line -> zlen line + 1 < 2 ^ 61 -> exists r, sdssplitargs line = Some r.
Proof using Hlaws. intros Hl Hz. apply args_loop_total with (rest := line); [done|apply at_start|done|lia]. Qed.
End total.

(** ** Quoting and parsing back *)

Definition repr (cs : bytes) : bytes := 34 :: concat (repr_char <$> cs) ++ [34].

(** What a quoted character looks like to the parser. *)
Definition quoted (c : Z) (q : bytes) : bool :=
  match q with
  | [d] => bool_decide (d = c /\ d <> 92 /\ d <> 34 /\ d <> 0)
  | [b; e] => bool_decide (b = 92 /\ e <> 120 /\ e <> 0 /\ unescape e = c)
  | [b; x; h; l] => bool_decide (b = 92 /\ x = 120 /\ is_hex_digit h = true /\ is_hex_digit l = true /\ l <> 0 /\
                                 u8 (hex_digit_to_int h * 16 + hex_digit_to_int l) = c)
  | _ => false
  end.

Lemma quoted_repr_char c : byte_ok c -> quoted c (repr_char c) = true.
Proof. apply (byte_forall (fun c => quoted c (repr_char c))). by vm_compute. Qed.

Lemma zlen_repr_char c : byte_ok c -> 1 <= zlen (repr_char c) <= 4.
Proof. apply (byte_cases (fun c => 1 <= zlen (repr_char c) <= 4)). by vm_compute. Qed.

Lemma zlen_repr cs : bytes_ok cs -> zlen cs + 2 <= zlen (repr cs) <= 4 * zlen cs + 2.
Proof.
  unfold repr. rewrite zlen_cons, zlen_app. change (zlen [34]) with 1. induction 1 as [|c cs Hc _ IH]; [by vm_compute|].
  cbn [fmap list_fmap concat]. rewrite zlen_app, zlen_cons. pose proof (zlen_repr_char c Hc). lia.
Qed.

Section roundtrip.
Context {str : Type} `{Hlaws : StringLaws str}.

Lemma catrepr_loop_ok s cs p : rep s cs -> bytes_ok p -> zlen cs + 4 * zlen p < 2 ^ 61 ->
  exists s', catrepr_loop s p = Some s' /\ rep s' (cs ++ concat (repr_char <$> p)).
Proof.
  revert s cs. induction p as [|c p IH]; intros s cs Hs Hp Hz.
  - exists s. cbn. by rewrite app_nil_r.
  - apply Forall_cons in Hp as [Hc Hp]. rewrite zlen_cons in Hz. pose proof (zlen_repr_char c Hc). pose proof (zlen_nonneg p). cbn [catrepr_loop].
    destruct (catlen_law s cs (repr_char c) Hs) as (s1 & -> & Hs1); [lia|]. cbn [mbind option_bind fmap list_fmap concat].
    destruct (IH s1 (cs ++ repr_char c) Hs1 Hp) as (s2 & -> & Hs2); [rewrite zlen_app; lia|]. exists s2. split; [done|]. by rewrite <- app_assoc in Hs2.
Qed.

Lemma sdscatrepr_ok s cs p : rep s cs -> bytes_ok p -> zlen cs + 4 * zlen p + 2 < 2 ^ 61 ->
  exists s', sdscatrepr s p = Some s' /\ rep s' (cs ++ repr p).
Proof.
  intros Hs Hp Hz. pose proof (zlen_nonneg p). unfold sdscatrepr. destruct (makeroom_law s cs (zlen p + 2) Hs) as (s1 & -> & Hs1); [lia|lia|].
  cbn [mbind option_bind]. destruct (catlen_law s1 cs [34] Hs1) as (s2 & -> & Hs2); [change (zlen [34]) with 1; lia|]. cbn [mbind option_bind].
  destruct (catrepr_loop_ok s2 _ p Hs2 Hp) as (s3 & -> & Hs3); [rewrite zlen_app; change (zlen [34]) with 1; lia|]. cbn [mbind option_bind].
  assert (zlen (concat (repr_char <$> p)) <= 4 * zlen p) as Hc.
  { pose proof (zlen_repr p Hp) as Hr. unfold repr in Hr. rewrite zlen_cons, zlen_app in Hr. change (zlen [34]) with 1 in Hr. lia. }
  destruct (catlen_law s3 _ [34] Hs3) as (s4 & -> & Hs4); [rewrite !zlen_app; change (zlen [34]) with 1; lia|]. exists s4. split; [done|].
  by rewrite <- !app_assoc in Hs4.
Qed.

(** One quoted character is one step of the loop. *)
Lemma quoted_step fuel line p cur cur' c q rest : quoted c q = true -> at_pos line p (q ++ rest) -> str_catlen cur [c] = Some cur' ->
  token_loop (S fuel) line (Token p cur true false false) = token_loop fuel line (Token (p + zlen q) cur' true false false).
Proof.
  intros Hq Hp Hcat. cbn [token_loop done inq pos]. destruct q as [|b [|x [|h [|l [|]]]]]; try discriminate Hq; apply bool_decide_eq_true in Hq.
  - destruct Hq as (-> & H1 & H2 & H3). rewrite (pos_cons _ _ _ _ Hp). cbn [mbind option_bind]. unfold step_inq, hex_escape. cbn [pos].
    rewrite !(decide_False (P := c = 92)) by done. cbn [mbind option_bind]. rewrite (decide_False (P := c = 34)), (decide_False (P := c = 0)) by done.
    unfold append. cbn [current]. rewrite Hcat. cbn [mbind option_bind pos current inq insq done]. rewrite (pos_cons _ _ _ _ Hp). cbn [mbind option_bind].
    by rewrite decide_True by done.
  - destruct Hq as (-> & H1 & H2 & H3). rewrite (pos_cons _ _ _ _ Hp). cbn [mbind option_bind]. unfold step_inq, hex_escape. cbn [pos].
    pose proof (at_next _ _ _ _ Hp) as Hp1. cbn [app] in Hp1. rewrite !(decide_True (P := 92 = 92)) by done. rewrite (pos_cons _ _ _ _ Hp1). cbn [mbind option_bind].
    rewrite (decide_False (P := x = 120)) by done. cbn [mbind option_bind]. rewrite bool_decide_true by done. rewrite H3.
    unfold append. cbn [current]. rewrite Hcat. cbn [mbind option_bind pos current inq insq done]. rewrite (pos_cons _ _ _ _ Hp1). cbn [mbind option_bind].
    rewrite decide_True by done. do 2 f_equal. rewrite !zlen_cons, zlen_nil. lia.
  - destruct Hq as (-> & -> & H1 & H2 & H3 & H4). rewrite (pos_cons _ _ _ _ Hp). cbn [mbind option_bind]. unfold step_inq, hex_escape. cbn [pos].
    pose proof (at_next _ _ _ _ Hp) as Hp1. cbn [app] in Hp1. pose proof (at_next _ _ _ _ Hp1) as Hp2. pose proof (at_next _ _ _ _ Hp2) as Hp3.
    replace (p + 1 + 1) with (p + 2) in * by lia. replace (p + 2 + 1) with (p + 3) in * by lia.
    rewrite !(decide_True (P := 92 = 92)) by done. rewrite (pos_cons _ _ _ _ Hp1). cbn [mbind option_bind]. rewrite (decide_True (P := 120 = 120)) by done.
    rewrite (pos_cons _ _ _ _ Hp2). cbn [mbind option_bind]. rewrite H1. rewrite (pos_cons _ _ _ _ Hp3). cbn [mbind option_bind]. rewrite H2, H4.
    unfold append. cbn [current]. rewrite Hcat. cbn [mbind option_bind pos current inq insq done]. rewrite (pos_cons _ _ _ _ Hp3). cbn [mbind option_bind].
    rewrite decide_True by done. do 2 f_equal. rewrite !zlen_cons, zlen_nil. lia.
Qed.

Lemma quoted_loop fuel line p cur cs bs rest : bytes_ok bs -> rep cur cs -> zlen cs + zlen bs < 2 ^ 61 ->
  at_pos line p (concat (repr_char <$> bs) ++ 34 :: rest) -> (rest = [] \/ exists r, rest = 32 :: r) -> (length bs < fuel)%nat ->
  exists cur', token_loop fuel line (Token p cur true false false) =
      Some (Some (Token (p + zlen (concat (repr_char <$> bs)) + 1) cur' true false true)) /\ rep cur' (cs ++ bs).
Proof.
  revert fuel p cur cs. induction bs as [|c bs IH]; intros fuel p cur cs Hb Hr Hz Hp Hrest Hf; (destruct fuel as [|fuel]; [simpl in Hf; lia|]).
  - cbn [fmap list_fmap concat app] in Hp |- *. exists cur. rewrite app_nil_r. split; [|done]. cbn [token_loop done inq pos].
    rewrite (pos_cons _ _ _ _ Hp). cbn [mbind option_bind]. unfold step_inq, hex_escape. cbn [pos].
    rewrite !(decide_False (P := 34 = 92)) by done. cbn [mbind option_bind]. rewrite (decide_True (P := 34 = 34)) by done.
    unfold close_quote. cbn [pos current inq insq]. pose proof (at_next _ _ _ _ Hp) as Hp1.
    assert (exists c1, line_at line (p + 1) = Some c1 /\ bool_decide (c1 <> 0) && negb (isspace c1) = false) as (c1 & -> & Hc1).
    { destruct Hrest as [->|(r & ->)]; [exists 0; split; [by apply pos_nil|done]|exists 32; split; [by eapply pos_cons|done]]. }
    cbn [mbind option_bind]. rewrite Hc1. cbn [mbind option_bind pos]. rewrite (pos_cons _ _ _ _ Hp). cbn [mbind option_bind pos current inq insq done].
    rewrite decide_True by done. rewrite zlen_nil, Z.add_0_r. by destruct fuel.
  - apply Forall_cons in Hb as [Hc Hb]. rewrite zlen_cons in Hz. pose proof (zlen_nonneg bs). cbn [fmap list_fmap concat] in Hp |- *.
    destruct (catlen_law cur cs [c] Hr) as (cur1 & Hcat & Hr1); [change (zlen [c]) with 1; lia|]. rewrite <- app_assoc in Hp.
    rewrite (quoted_step fuel line p cur cur1 c (repr_char c) _ (quoted_repr_char c Hc) Hp Hcat).
    destruct (IH fuel (p + zlen (repr_char c)) cur1 (cs ++ [c]) Hb Hr1) as (cur' & -> & Hr').
    + rewrite zlen_app. change (zlen [c]) with 1. lia.
    + by eapply at_skip.
    + done.
    + simpl in Hf. lia.
    + exists cur'. rewrite <- app_assoc in Hr'. split; [|done]. rewrite zlen_app. do 3 f_equal. lia.
Qed.

Lemma repr_token fuel line p cur bs rest : bytes_ok bs -> rep cur [] -> zlen bs < 2 ^ 61 ->
  at_pos line p (repr bs ++ rest) -> (rest = [] \/ exists r, rest = 32 :: r) -> (length bs + 1 < fuel)%nat ->
  exists t, token_loop fuel line (Token p cur false false false) = Some (Some t) /\ rep (current t) bs /\ pos t = p + zlen (repr bs).
Proof.
  intros Hb Hr Hz Hp Hrest Hf. destruct fuel as [|fuel]; [lia|]. unfold repr in *. cbn [app] in Hp. rewrite <- app_assoc in Hp. cbn [app] in Hp.
  cbn [token_loop done inq insq pos]. rewrite (pos_cons _ _ _ _ Hp). cbn [mbind option_bind]. unfold step_plain.
  rewrite (decide_False (P := 34 = 32 \/ _)) by lia. rewrite (decide_True (P := 34 = 34)) by done. cbn [mbind option_bind pos current inq insq done].
  rewrite (pos_cons _ _ _ _ Hp). cbn [mbind option_bind]. rewrite decide_True by done.
  destruct (quoted_loop fuel line (p + 1) cur [] bs rest Hb Hr) as (cur' & -> & Hr'); [rewrite zlen_nil; lia|by eapply at_next|done|lia|].
  eexists. split; [done|]. cbn [current pos]. split; [done|]. rewrite zlen_cons, zlen_app. change (zlen [34]) with 1. lia.
Qed.

Lemma skip_none fuel line p c rest : at_pos line p (c :: rest) -> isspace c = false -> skip_blanks (S fuel) line p = Some p.
Proof. intros Hp Hc. cbn [skip_blanks]. rewrite (pos_cons _ _ _ _ Hp). cbn [mbind option_bind]. by rewrite Hc, andb_false_r. Qed.

Lemma skip_end fuel line p : at_pos line p [] -> skip_blanks (S fuel) line p = Some p.
Proof. intros Hp. cbn [skip_blanks]. by rewrite (pos_nil _ _ Hp). Qed.

(** [w] is a word of a line that parses to the argument [a]; the loop may stop
    on the space after it or after this space. *)
Record parses (w a : bytes) : Prop := {
  parses_head : exists c w', w = c :: w' /\ isspace c = false /\ c <> 0;
  parses_loop line p cur rest fuel : rep cur [] -> at_pos line p (w ++ rest) -> (rest = [] \/ exists r, rest = 32 :: r) ->
    (length w < fuel)%nat -> zlen w < 2 ^ 61 ->
    exists t rest', token_loop fuel line (Token p cur false false false) = Some (Some t) /\ rep (current t) a /\
      at_pos line (pos t) rest' /\ (rest' = rest \/ rest = 32 :: rest');
}.

Lemma parses_repr a : bytes_ok a -> parses (repr a) a.
Proof.
  intros Ha. split; [by eexists _, _|]. intros line p cur rest fuel Hr Hp Hrest Hf Hz. pose proof (zlen_repr a Ha).
  destruct (repr_token fuel line p cur a rest Ha Hr) as (t & Ht & Hrt & Hpos); [lia|done|done|unfold zlen in *; lia|].
  exists t, rest. split_and!; [done|done|by eapply at_skip|by left].
Qed.

(** A word without blanks and quotes parses to itself. *)
Definition plain (c : Z) : Prop := c <> 0 /\ isspace c = false /\ c <> 34 /\ c <> 39.

Lemma plain_loop fuel line p cur cs w rest : Forall plain w -> rep cur cs -> zlen cs + zlen w < 2 ^ 61 -> at_pos line p (w ++ rest) ->
  (rest = [] \/ exists r, rest = 32 :: r) -> (length w < fuel)%nat ->
  exists t rest', token_loop fuel line (Token p cur false false false) = Some (Some t) /\ rep (current t) (cs ++ w) /\
    at_pos line (pos t) rest' /\ (rest' = rest \/ rest = 32 :: rest').
Proof.
  revert fuel p cur cs. induction w as [|c w IH]; intros fuel p cur cs Hw Hr Hz Hp Hrest Hf; (destruct fuel as [|fuel]; [simpl in Hf; lia|]);
    cbn [token_loop done inq insq pos].
  - cbn [app] in Hp. rewrite app_nil_r. destruct Hrest as [->|(r & ->)].
    + rewrite (pos_nil _ _ Hp). cbn [mbind option_bind]. unfold step_plain. rewrite decide_True by lia. cbn [mbind option_bind pos current].
      rewrite (pos_nil _ _ Hp). cbn [mbind option_bind]. rewrite decide_False by auto.
      exists (Token p cur false false true), []. split_and!; [by destruct fuel|done|done|by left].
    + rewrite (pos_cons _ _ _ _ Hp). cbn [mbind option_bind]. unfold step_plain. rewrite decide_True by lia. cbn [mbind option_bind pos current].
      rewrite (pos_cons _ _ _ _ Hp). cbn [mbind option_bind]. rewrite decide_True by done.
      exists (Token (p + 1) cur false false true), r. split_and!; [by destruct fuel|done|by eapply at_next|by right].
  - apply Forall_cons in Hw as [(H0 & Hs & H34 & H39) Hw]. rewrite zlen_cons in Hz. pose proof (zlen_nonneg w). rewrite (pos_cons _ _ _ _ Hp). cbn [mbind option_bind].
    assert (~ (9 <= c <= 13 \/ c = 32)) as Hsp by (unfold isspace in Hs; by apply bool_decide_eq_false in Hs).
    unfold step_plain. rewrite (decide_False (P := c = 32 \/ _)) by lia. rewrite (decide_False (P := c = 34)), (decide_False (P := c = 39)) by done.
    unfold append. cbn [current pos]. destruct (catlen_law cur cs [c] Hr) as (cur1 & -> & Hr1); [change (zlen [c]) with 1; lia|].
    cbn [mbind option_bind pos current inq insq done]. rewrite (pos_cons _ _ _ _ Hp). cbn [mbind option_bind]. rewrite decide_True by done.
    destruct (IH fuel (p + 1) cur1 (cs ++ [c]) Hw Hr1) as (t & rest' & Ht); [rewrite zlen_app; change (zlen [c]) with 1; lia|by eapply at_next|done|simpl in Hf; lia|].
    exists t, rest'. by rewrite <- app_assoc in Ht.
Qed.

Lemma parses_plain w : w <> [] -> Forall plain w -> parses w w.
Proof.
  intros Hne Hw. split.
  - destruct w as [|c w]; [done|]. apply Forall_cons in Hw as [(? & ? & _) _]. by eexists _, _.
  - intros line p cur rest fuel Hr Hp Hrest Hf Hz. apply (plain_loop fuel line p cur [] w rest Hw Hr); [rewrite zlen_nil; lia|done|done|done].
Qed.

(** Words with a space between two of them. *)
Fixpoint words_line (ws : list bytes) : bytes :=
  match ws with
  | [] => []
  | [w] => w
  | w :: ws => w ++ 32 :: words_line ws
  end.

Lemma args_loop_words fuel line p ws args vec vs : Forall2 parses ws args -> zlen line < 2 ^ 61 ->
  at_pos line p (words_line ws) \/ (ws <> [] /\ at_pos line p (32 :: words_line ws)) -> (length ws < fuel)%nat -> Forall2 rep vec vs ->
  exists vec', args_loop fuel line p vec = Some (Some vec') /\ Forall2 rep vec' (vs ++ args).
Proof.
  intros Hws Hz. revert fuel p vec vs. induction Hws as [|w a ws args Hw Hws IH]; intros fuel p vec vs Hp Hf Hv; (destruct fuel as [|fuel]; [simpl in Hf; lia|]).
  - destruct Hp as [Hp|[? _]]; [|done]. exists vec. rewrite app_nil_r. split; [|done]. cbn [args_loop words_line] in *. rewrite (skip_end _ _ _ Hp). cbn [mbind option_bind].
    by rewrite (pos_nil _ _ Hp).
  - assert (exists rest, words_line (w :: ws) = w ++ rest /\ (rest = [] /\ ws = [] \/ (ws <> [] /\ rest = 32 :: words_line ws))) as (rest & E & Hrest).
    { destruct ws; [exists []; split; [by cbn; rewrite app_nil_r|auto]|eexists; split; [done|right; done]]. }
    rewrite E in Hp. destruct (parses_head _ _ Hw) as (c & w' & Ew & Hsp & Hc0).
    assert (exists p', skip_blanks (S (length line)) line p = Some p' /\ at_pos line p' (w ++ rest)) as (p' & Hsk & Hp').
    { destruct Hp as [Hp|[_ Hp]].
      - exists p. split; [|done]. rewrite Ew in Hp. by eapply skip_none.
      - exists (p + 1). pose proof (at_next _ _ _ _ Hp) as Hp'. split; [|done]. cbn [skip_blanks]. rewrite (pos_cons _ _ _ _ Hp). cbn [mbind option_bind].
        change (bool_decide (32 <> 0) && isspace 32) with true. cbv iota. destruct (length line) as [|n] eqn:En.
        + destruct Hp as (pre & -> & _). rewrite length_app in En. simpl in En. lia.
        + rewrite Ew in Hp'. by eapply skip_none. }
    assert (zlen w <= zlen line) as Hzl. { destruct Hp' as (pre & -> & _). rewrite !zlen_app. pose proof (zlen_nonneg pre). pose proof (zlen_nonneg rest). lia. }
    cbn [args_loop]. rewrite Hsk. cbn [mbind option_bind]. assert (line_at line p' = Some c) as -> by (rewrite Ew in Hp'; by eapply pos_cons). cbn [mbind option_bind].
    rewrite decide_True by done. destruct empty_law as (s & -> & Hs). cbn [mbind option_bind].
    destruct (parses_loop _ _ Hw line p' s rest (S (length line)) Hs Hp') as (t & rest' & -> & Ht & Hpos & Hr'); [|unfold zlen in *; lia|lia|].
    { destruct Hrest as [[-> _]|[_ ->]]; [by left|right; by eexists]. }
    cbn [mbind option_bind]. assert (Forall2 rep (vec ++ [current t]) (vs ++ [a])) as Hv' by (apply Forall2_app; [done|by constructor]).
    destruct (IH fuel (pos t) (vec ++ [current t]) (vs ++ [a])) as (vec' & Hvec & Hrep); [|simpl in Hf; lia|done|].
    + destruct Hrest as [[-> ->]|[Hne ->]]; destruct Hr' as [->|Hr']; [by left|done|right; done|injection Hr' as <-; by left].
    + exists vec'. rewrite <- app_assoc in Hrep. done.
Qed.

Lemma length_words_line ws args : Forall2 parses ws args -> (length ws <= length (words_line ws))%nat.
Proof.
  induction 1 as [|w a ws args Hw _ IH]; [done|]. destruct (parses_head _ _ Hw) as (c & w' & -> & _). destruct ws as [|v ws]; [simpl; lia|].
  change (words_line ((c :: w') :: v :: ws)) with ((c :: w') ++ 32 :: words_line (v :: ws)). rewrite length_app. cbn [length] in *. lia.
Qed.

Lemma sdssplitargs_words ws args : Forall2 parses ws args -> zlen (words_line ws) < 2 ^ 61 ->
  exists vec, sdssplitargs (words_line ws) = Some (Some vec) /\ Forall2 rep vec args.
Proof.
  intros Hws Hz. apply (args_loop_words _ _ 0 ws args [] [] Hws Hz); [left; apply at_start| |done]. pose proof (length_words_line ws args Hws). lia.
Qed.
End roundtrip.

(** A string that [sdsneedsrepr] clears and that has no single quote, which
    [sdsneedsrepr] does not look for. *)
Lemma sdsneedsrepr_plain w : sdsneedsrepr w = false -> 39 ∉ w -> Forall plain w.
Proof.
  induction w as [|c w IH]; intros Hn Hq; [done|]. cbn [sdsneedsrepr] in Hn. destruct (needs_repr c) eqn:Hc; [done|].
  apply not_elem_of_cons in Hq as [H39 Hq]. constructor; [|by apply IH]. unfold needs_repr in Hc.
  apply orb_false_iff in Hc as [[Hb Hp]%orb_false_iff Hs]. apply bool_decide_eq_false in Hb. apply negb_false_iff in Hp.
  unfold isprint in Hp. apply bool_decide_eq_true in Hp. unfold plain. split_and!; [lia|done|lia|done].
Qed.

(** ** Splitting and joining *)

(** The parts with the separator between two of them. *)
Fixpoint join_chars (sep : bytes) (parts : list bytes) : bytes :=
  match parts with
  | [] => []
  | [p] => p
  | p :: parts => p ++ sep ++ join_chars sep parts
  end.

(** [sep] does not occur in [p]. *)
Definition sep_free (sep p : bytes) : Prop := forall a b, p <> a ++ sep ++ b.

Lemma join_chars_snoc sep parts p : join_chars sep (parts ++ [p]) = concat ((fun q => q ++ sep) <$> parts) ++ p.
Proof.
  induction parts as [|q parts IH]; [done|]. cbn [app fmap list_fmap concat]. rewrite <- !app_assoc, <- IH.
  destruct parts; [done|]. done.
Qed.

Lemma slice_sep_free (s sep : bytes) a n : 0 <= a -> 0 <= n -> a + n <= zlen s -> 0 < zlen sep ->
  (forall i, a <= i -> i + zlen sep <= a + n -> ~ bytes_at s i sep) -> sep_free sep (slice s a n).
Proof.
  intros Ha Hn Hle Hsep Hno u v E. pose proof (f_equal zlen E) as Hz. rewrite zlen_slice, !zlen_app in Hz by lia.
  pose proof (zlen_nonneg u). pose proof (zlen_nonneg v). apply (Hno (a + zlen u)); [lia|lia|]. split_and!; [lia|lia|].
  rewrite <- (slice_slice s a n (zlen u) (zlen sep)) by lia. rewrite E. rewrite slice_app_r by lia. rewrite Z.sub_diag.
  rewrite slice_app_l by lia. by apply slice_full.
Qed.

Section splitjoin.
Context {str : Type} `{Hlaws : StringLaws str}.

Lemma sep_at_ok s j sep : 0 <= j -> j + zlen sep <= zlen s -> sep_at s j sep = Some (bool_decide (bytes_at s j sep)) .
Proof using Type.
  intros H0 Hle. unfold sep_at. pose proof (zlen_nonneg sep). rewrite mem_read_Some by lia. cbn [mbind option_bind]. f_equal.
  apply bool_decide_ext. unfold bytes_at. split; [intros E; split_and!; [lia|lia|done]|tauto].
Qed.

Lemma add_token_ok s start n slots tokens parts : Forall2 rep tokens parts -> 0 <= start -> 0 <= n -> start + n <= zlen s -> zlen s < 2 ^ 61 ->
  zlen parts < slots -> exists tokens', add_token s start n slots tokens = Some tokens' /\ Forall2 rep tokens' (parts ++ [slice s start n]).
Proof.
  intros Ht H0 Hn Hle Hz Hs. unfold add_token. rewrite mem_read_Some by lia. cbn [mbind option_bind].
  destruct (newlen_law (slice s start n)) as (t & -> & Hr); [rewrite zlen_slice; lia|]. cbn [mbind option_bind].
  pose proof (Forall2_length _ _ _ Ht) as Hl. rewrite assert_True by (unfold zlen in *; lia). cbn [mbind option_bind].
  eexists. split; [done|]. apply Forall2_app; [done|by constructor].
Qed.

Lemma split_loop_ok fuel s sep j start slots tokens parts : Forall2 rep tokens parts -> 0 < zlen sep -> zlen s < 2 ^ 29 ->
  0 <= start <= j -> j <= zlen s -> concat ((fun q => q ++ sep) <$> parts) = slice s 0 start -> Forall (sep_free sep) parts ->
  (forall i, start <= i < j -> ~ bytes_at s i sep) -> zlen parts + 1 <= slots <= Z.max 5 (2 * zlen parts + 2) -> zlen parts <= start -> zlen s - j < Z.of_nat fuel ->
  exists start' slots' tokens' parts', split_loop fuel s sep j start slots tokens = Some (start', slots', tokens') /\
    Forall2 rep tokens' parts' /\ 0 <= start' <= zlen s /\ concat ((fun q => q ++ sep) <$> parts') = slice s 0 start' /\
    Forall (sep_free sep) parts' /\ sep_free sep (slice s start' (zlen s - start')) /\ zlen parts' < slots'.
Proof.
  intros Ht Hsep Hz. revert j start slots tokens parts Ht. induction fuel as [|fuel IH]; intros j start slots tokens parts Ht Hsj Hj Hpre Hfree Hno Hslots Hps Hf; [lia|].
  cbn [split_loop]. pose proof (Forall2_length _ _ _ Ht) as Hl. assert (zlen tokens = zlen parts) as -> by (unfold zlen; lia). case_decide as Hlt.
  2:{ exists start, slots, tokens, parts. split_and!; try done; try lia. apply slice_sep_free; [lia|lia|lia|done|]. intros i Hi Hi'. apply Hno. lia. }
  set (slots1 := if decide (slots < zlen parts + 2) then slots * 2 else slots).
  pose proof (zlen_nonneg parts). assert (zlen parts + 2 <= slots1 <= Z.max 5 (2 * zlen parts + 2)) as Hs1 by (unfold slots1; case_decide; lia).
  rewrite assert_True by (unfold INT32_MAX; lia). cbn [mbind option_bind]. rewrite sep_at_ok by lia. cbn [mbind option_bind]. case_bool_decide as Hat.
  - destruct (add_token_ok s start (j - start) slots1 tokens parts Ht) as (tokens' & -> & Ht'); [lia|lia|lia|lia|lia|]. cbn [mbind option_bind].
    assert (zlen (parts ++ [slice s start (j - start)]) = zlen parts + 1) as Hzp by (rewrite zlen_app; done).
    apply (IH _ _ _ _ _ Ht'); rewrite ?Hzp; try lia.
    + rewrite fmap_app, concat_app, Hpre. cbn [fmap list_fmap concat]. rewrite app_nil_r. destruct Hat as (_ & _ & E).
      replace (slice s 0 (j + zlen sep)) with (slice s 0 (start + (j - start) + zlen sep)) by (f_equal; lia).
      rewrite !slice_split by lia. rewrite <- app_assoc. f_equal. f_equal. replace (0 + (start + (j - start))) with j by lia. by rewrite E.
    + apply Forall_app. split; [done|]. constructor; [|done]. apply slice_sep_free; [lia|lia|lia|done|]. intros i Hi Hi'. apply Hno. lia.
  - apply (IH _ _ _ _ _ Ht); try done; try lia. intros i Hi. destruct (decide (i = j)) as [->|]; [done|]. apply Hno. lia.
Qed.

Lemma sdssplitlen_ok s sep : 0 < zlen sep -> 0 < zlen s < 2 ^ 29 ->
  exists tokens parts, sdssplitlen s sep = Some (Some tokens) /\ Forall2 rep tokens parts /\
    join_chars sep parts = s /\ Forall (sep_free sep) parts.
Proof.
  intros Hsep Hz. unfold sdssplitlen. rewrite decide_False by lia.
  destruct (split_loop_ok (S (length s)) s sep 0 0 5 [] []) as (start & slots & tokens & parts & -> & Ht & Hst & Hpre & Hfree & Hlast & Hsl); try done; try lia.
  { unfold zlen. lia. }
  cbn [mbind option_bind]. destruct (add_token_ok s start (zlen s - start) slots tokens parts Ht) as (tokens' & -> & Ht'); try lia. cbn [mbind option_bind].
  exists tokens', (parts ++ [slice s start (zlen s - start)]). split_and!; [done|done| |].
  - rewrite join_chars_snoc, Hpre. rewrite <- slice_split by lia. apply slice_all; lia.
  - apply Forall_app. split; [done|]. by constructor.
Qed.

Lemma join_loop_ok argv parts sep join cs : Forall2 rep argv parts -> rep join cs -> zlen cs + zlen (join_chars sep parts) < 2 ^ 61 ->
  exists join', join_loop argv sep join = Some join' /\ rep join' (cs ++ join_chars sep parts).
Proof.
  intros Hv. revert join cs. induction Hv as [|s p argv parts Hs Hv IH]; intros join cs Hj Hz; cbn [join_loop].
  - exists join. by rewrite app_nil_r.
  - rewrite (chars_law _ _ Hs). cbn [mbind option_bind]. destruct Hv as [|s' p' argv parts Hs' Hv].
    + destruct (catlen_law join cs p Hj Hz) as (j1 & -> & Hj1). cbn. by exists j1.
    + change (join_chars sep (p :: p' :: parts)) with (p ++ sep ++ join_chars sep (p' :: parts)) in *. rewrite !zlen_app in Hz.
      pose proof (zlen_nonneg p). pose proof (zlen_nonneg sep). pose proof (zlen_nonneg (join_chars sep (p' :: parts))).
      destruct (catlen_law join cs p Hj) as (j1 & -> & Hj1); [lia|]. cbn [mbind option_bind].
      destruct (catlen_law j1 _ sep Hj1) as (j2 & -> & Hj2); [rewrite zlen_app; lia|]. cbn [mbind option_bind].
      destruct (IH j2 _ Hj2) as (j3 & -> & Hj3); [rewrite !zlen_app; lia|]. exists j3. by rewrite <- !app_assoc in Hj3.
Qed.

Lemma sdsjoinsds_ok argv parts sep : Forall2 rep argv parts -> zlen (join_chars sep parts) < 2 ^ 61 ->
  exists join, sdsjoinsds argv sep = Some join /\ rep join (join_chars sep parts).
Proof.
  intros Hv Hz. unfold sdsjoinsds. destruct empty_law as (j & -> & Hj). cbn [mbind option_bind].
  destruct (join_loop_ok argv parts sep j [] Hv Hj) as (j' & -> & Hj'); [rewrite zlen_nil; lia|]. by exists j'.
Qed.

Lemma join_c_loop_ok parts sep join cs : rep join cs -> zlen cs + zlen (join_chars sep parts) < 2 ^ 61 ->
  exists join', join_c_loop parts sep join = Some join' /\ rep join' (cs ++ join_chars sep parts).
Proof.
  revert join cs. induction parts as [|p parts IH]; intros join cs Hj Hz; cbn [join_c_loop].
  - exists join. by rewrite app_nil_r.
  - destruct parts as [|p' parts].
    + destruct (catlen_law join cs p Hj Hz) as (j1 & -> & Hj1). cbn. by exists j1.
    + change (join_chars sep (p :: p' :: parts)) with (p ++ sep ++ join_chars sep (p' :: parts)) in *. rewrite !zlen_app in Hz.
      pose proof (zlen_nonneg p). pose proof (zlen_nonneg sep). pose proof (zlen_nonneg (join_chars sep (p' :: parts))).
      destruct (catlen_law join cs p Hj) as (j1 & -> & Hj1); [lia|]. cbn [mbind option_bind].
      destruct (catlen_law j1 _ sep Hj1) as (j2 & -> & Hj2); [rewrite zlen_app; lia|]. cbn [mbind option_bind].
      destruct (IH j2 _ Hj2) as (j3 & -> & Hj3); [rewrite !zlen_app; lia|]. exists j3. by rewrite <- !app_assoc in Hj3.
Qed.

Lemma sdsjoin_ok parts sep : zlen (join_chars sep parts) < 2 ^ 61 ->
  exists join, sdsjoin parts sep = Some join /\ rep join (join_chars sep parts).
Proof.
  intros Hz. unfold sdsjoin. destruct empty_law as (j & -> & Hj). cbn [mbind option_bind].
  destruct (join_c_loop_ok parts sep j [] Hj) as (j' & -> & Hj'); [rewrite zlen_nil; lia|]. by exists j'.
Qed.
End splitjoin.

(** ** Formatting *)

(** The text of an argument. *)
Definition arg_text (next : Z) (arg : fmt_arg) (bs : bytes) : Prop :=
  match arg with
  | ArgStr s => next = 115 /\ bs = s
  | ArgSds t => next = 83 /\ sds_rep t bs
  | ArgInt v => next = 105 /\ in_i 32 v /\ sdecimal bs v
  | ArgLL v => next = 73 /\ in_i 64 v /\ sdecimal bs v
  | ArgUint v => next = 117 /\ in_u 32 v /\ udecimal bs v
  | ArgULL v => next = 85 /\ in_u 64 v /\ udecimal bs v
  end.

(** The text a format gives for its arguments. *)
Inductive renders : bytes -> list fmt_arg -> bytes -> Prop :=
  | renders_nil ap : renders [] ap []
  | renders_char c f ap out : c <> 37 -> renders f ap out -> renders (c :: f) ap (c :: out)
  | renders_end ap : renders [37] ap []
  | renders_conv next arg f ap bs out : arg_text next arg bs -> renders f ap out -> renders (37 :: next :: f) (arg :: ap) (bs ++ out)
  | renders_verbatim next f ap out : is_conv next = false -> renders f ap out -> renders (37 :: next :: f) ap (next :: out).

Section formatting.
Variables (junk : nat -> Z) (usable : Z -> Z).
Hypothesis usable_ok : forall n, 0 <= n < 2 ^ 62 -> n <= usable n < 2 ^ 63.

Lemma zlen_local_buf : zlen (local_buf junk) = 21.
Proof using Type. done. Qed.

Lemma conv_bytes_ok next arg bs : arg_text next arg bs -> is_conv next = true /\ conv_bytes junk next arg = Some bs.
Proof using Type.
  assert (forall v, in_i 64 v -> sdecimal bs v -> ('(buf, l) ← ll2string (local_buf junk) LONG_STR_SIZE v; mem_read buf 0 l) = Some bs) as Hll.
  { intros v Hv Hd. destruct (ll2string_ok (local_buf junk) LONG_STR_SIZE v Hv) as (str & Hstr & Hok & _); [rewrite zlen_local_buf; done|].
    rewrite (sdecimal_inj _ _ _ Hstr Hd) in *. pose proof (sdecimal_short bs v Hd Hv) as Hl. rewrite Hok by lia. cbn [mbind option_bind].
    apply (bytes_at_read _ 0 bs); [|done]. pose proof (zlen_nonneg bs). unfold LONG_STR_SIZE in *.
    assert (bytes_at (splice (local_buf junk) 0 (bs ++ [ch_nul])) 0 (bs ++ [ch_nul])) as Hb.
    { apply bytes_at_splice; [lia|]. rewrite zlen_app, zlen_local_buf. change (zlen [ch_nul]) with 1. lia. }
    by apply bytes_at_app in Hb as [? _]. }
  assert (forall v, in_u 64 v -> udecimal bs v -> ('(buf, l) ← ull2string (local_buf junk) 0 LONG_STR_SIZE v; mem_read buf 0 l) = Some bs) as Hull.
  { intros v Hv Hd. destruct (digits10_spec v Hv) as (Hr & _). rewrite ull2string_ok by (unfold LONG_STR_SIZE; rewrite ?zlen_local_buf; done || lia).
    cbn [mbind option_bind]. rewrite (udecimal_inj _ _ _ (ndig_digits10 v Hv) Hd).
    assert (zlen bs = digits10 v) as Hz. { rewrite <- (udecimal_inj _ _ _ (ndig_digits10 v Hv) Hd), zlen_ndig. lia. }
    apply (bytes_at_read _ 0 bs); [|done].
    assert (bytes_at (splice (local_buf junk) 0 (bs ++ [ch_nul])) 0 (bs ++ [ch_nul])) as Hb.
    { apply bytes_at_splice; [lia|]. rewrite zlen_app, zlen_local_buf. change (zlen [ch_nul]) with 1. lia. }
    by apply bytes_at_app in Hb as [? _]. }
  destruct arg; cbn [arg_text conv_bytes].
  - intros [-> ->]. done.
  - intros [-> Hs]. split; [done|]. rewrite decide_True by done. destruct (sds_read s bs Hs) as [-> Hr]. exact Hr.
  - intros (-> & Hv & Hd). split; [done|]. rewrite decide_True by done. apply Hll; [|done]. by apply (in_i_mono 32).
  - intros (-> & Hv & Hd). split; [done|]. rewrite decide_True by done. by apply Hll.
  - intros (-> & Hv & Hd). split; [done|]. rewrite decide_True by done. apply Hull; [|done]. unfold in_u in *. lia.
  - intros (-> & Hv & Hd). split; [done|]. rewrite decide_True by done. by apply Hull.
Qed.

(** The loop keeps the characters but not the NUL; [n] more fit. *)
Definition open_rep (s : sds) (cs : bytes) (n : Z) : Prop :=
  exists t alloc body, block s t (zlen cs) alloc body /\ t <> SDS_TYPE_5 /\ bytes_at body 0 cs /\ zlen cs + n <= alloc.

Lemma open_room s cs n : open_rep s cs 0 -> 0 < n -> zlen cs + n < 2 ^ 61 ->
  exists s', sdsMakeRoomFor junk usable s n = Some s' /\ open_rep s' cs n.
Proof using usable_ok.
  intros (t & alloc & body & Hb & Ht & Hcs & _) Hn Hz. pose proof (zlen_nonneg cs). pose proof (block_room _ _ _ _ _ Hb). pose proof (block_len _ _ _ _ _ Hb).
  destruct (peek_Some body (zlen cs)) as (x & Hx); [lia|].
  destruct (make_room_gen junk usable usable_ok _ _ _ _ cs x n true Hb) as (s' & t' & alloc' & body' & Hs' & Hb' & Hc' & Hle); [|lia|lia|].
  - apply bytes_at_app. split; [done|]. by apply bytes_at_single.
  - exists s'. split; [done|]. exists t', alloc', body'. apply bytes_at_app in Hc' as [Hc' _]. split_and!; try done.
    intros ->. pose proof (block_hdr _ _ _ _ _ Hb') as [(_ & _ & ?)|(? & _)]; [lia|]. unfold SDS_TYPE_5, SDS_TYPE_8 in *. lia.
Qed.

Lemma room_for_one_ok s cs : open_rep s cs 0 -> zlen cs + 1 < 2 ^ 61 -> exists s', room_for_one junk usable s = Some s' /\ open_rep s' cs 1.
Proof using usable_ok.
  intros Ho Hz. pose proof Ho as (t & alloc & body & Hb & Ht & Hcs & Hle). unfold room_for_one. rewrite (sdsavail_ok _ _ _ _ _ Hb).
  cbn [mbind option_bind]. case_decide; [apply open_room; [done|lia|lia]|]. exists s. split; [done|]. exists t, alloc, body. split_and!; try done; lia.
Qed.

Lemma put_ok s cs bs : open_rep s cs (zlen bs) ->
  exists s1 s2, write_at s (zlen cs) bs = Some s1 /\ sdsinclen s1 (zlen bs) = Some s2 /\ open_rep s2 (cs ++ bs) 0.
Proof using Type.
  intros (t & alloc & body & Hb & Ht & Hcs & Hle). pose proof (block_room _ _ _ _ _ Hb). pose proof (zlen_nonneg cs). pose proof (zlen_nonneg bs).
  destruct (write_at_ok _ _ _ _ _ Hb (zlen cs) bs) as (s1 & Hs1 & Hb1); [lia|lia|].
  destruct (sdsinclen_ok _ _ _ _ _ (zlen bs) Hb1) as (s2 & Hs2 & Hb2); [done|lia|lia|]. exists s1, s2. split_and!; [done|done|].
  eexists t, alloc, _. rewrite zlen_app. split_and!; [exact Hb2|done| |lia].
  apply bytes_at_app. split; [apply bytes_at_splice_other; [lia|lia|done|left; lia]|apply bytes_at_splice; lia].
Qed.

Lemma put_bytes_ok s cs bs : open_rep s cs 0 -> zlen cs + zlen bs < 2 ^ 61 ->
  exists s', put_bytes junk usable s (zlen cs) bs = Some (s', zlen (cs ++ bs)) /\ open_rep s' (cs ++ bs) 0.
Proof using usable_ok.
  intros Ho Hz. unfold put_bytes. pose proof Ho as (t & alloc & body & Hb & Ht & Hcs & Hle). pose proof (block_len _ _ _ _ _ Hb).
  rewrite (sdsavail_ok _ _ _ _ _ Hb). cbn [mbind option_bind].
  assert (exists s1, (if decide (alloc - zlen cs < zlen bs) then sdsMakeRoomFor junk usable s (zlen bs) else Some s) = Some s1 /\ open_rep s1 cs (zlen bs))
    as (s1 & -> & Ho1).
  { case_decide; [apply open_room; [done|lia|lia]|]. exists s. split; [done|]. exists t, alloc, body. split_and!; try done; lia. }
  cbn [mbind option_bind]. destruct (put_ok s1 cs bs Ho1) as (s2 & s3 & -> & Hs3 & Ho3). cbn [mbind option_bind]. rewrite Hs3. cbn [mbind option_bind].
  exists s3. by rewrite zlen_app.
Qed.

Lemma put_char_ok s cs c : open_rep s cs 1 -> exists s', put_char s (zlen cs) c = Some (s', zlen (cs ++ [c])) /\ open_rep s' (cs ++ [c]) 0.
Proof using Type.
  intros Ho. unfold put_char. pose proof Ho as (t & alloc & body & Hb & Ht & Hcs & Hle). pose proof (block_room _ _ _ _ _ Hb). pose proof (zlen_nonneg cs).
  destruct (set_char_ok _ _ _ _ _ Hb (zlen cs) c) as (s1 & -> & Hb1); [lia|]. cbn [mbind option_bind].
  destruct (sdsinclen_ok _ _ _ _ _ 1 Hb1) as (s2 & -> & Hb2); [done|lia|lia|]. cbn [mbind option_bind]. exists s2. rewrite zlen_app. split; [done|].
  eexists t, alloc, _. rewrite zlen_app. change (zlen [c]) with 1. split_and!; [exact Hb2|done| |lia].
  apply bytes_at_app. split; [apply bytes_at_splice_other|apply bytes_at_splice]; try done; change (zlen [c]) with 1; lia.
Qed.

Lemma fmt_loop_ok f ap out s cs : renders f ap out -> open_rep s cs 0 -> zlen cs + zlen out + 1 < 2 ^ 61 ->
  exists s', fmt_loop junk usable f s (zlen cs) ap = Some (s', zlen (cs ++ out)) /\ open_rep s' (cs ++ out) 0.
Proof using usable_ok.
  intros Hf. revert s cs. induction Hf as [ap|c f ap out Hc Hf IH|ap|next arg f ap bs out Ha Hf IH|next f ap out Hn Hf IH]; intros s cs Ho Hz; cbn [fmt_loop].
  - exists s. by rewrite app_nil_r.
  - rewrite zlen_cons in Hz. pose proof (zlen_nonneg out). destruct (room_for_one_ok s cs Ho) as (s1 & -> & Ho1); [lia|]. cbn [mbind option_bind].
    rewrite decide_False by done. destruct (put_char_ok s1 cs c Ho1) as (s2 & -> & Ho2). cbn [mbind option_bind].
    destruct (IH s2 (cs ++ [c]) Ho2) as (s' & -> & Ho'); [rewrite zlen_app; change (zlen [c]) with 1; lia|]. exists s'. by rewrite <- app_assoc in Ho' |- *.
  - rewrite zlen_nil in Hz. destruct (room_for_one_ok s cs Ho) as (s1 & -> & Ho1); [lia|]. cbn [mbind option_bind]. rewrite decide_True by done.
    exists s1. rewrite app_nil_r. split; [done|]. destruct Ho1 as (t & alloc & body & ? & ? & ? & ?). exists t, alloc, body. split_and!; try done; lia.
  - rewrite zlen_app in Hz. pose proof (zlen_nonneg bs). pose proof (zlen_nonneg out). destruct (room_for_one_ok s cs Ho) as (s1 & -> & Ho1); [lia|]. cbn [mbind option_bind].
    rewrite decide_True by done. destruct (conv_bytes_ok _ _ _ Ha) as [-> ->]. cbn [mbind option_bind].
    destruct (put_bytes_ok s1 cs bs) as (s2 & -> & Ho2); [|lia|].
    { destruct Ho1 as (t & alloc & body & ? & ? & ? & ?). exists t, alloc, body. split_and!; try done; lia. }
    cbn [mbind option_bind]. destruct (IH s2 (cs ++ bs) Ho2) as (s' & -> & Ho'); [rewrite zlen_app; lia|]. exists s'. by rewrite <- app_assoc in Ho' |- *.
  - rewrite zlen_cons in Hz. pose proof (zlen_nonneg out). destruct (room_for_one_ok s cs Ho) as (s1 & -> & Ho1); [lia|]. cbn [mbind option_bind].
    rewrite decide_True by done. rewrite Hn. destruct (put_char_ok s1 cs next Ho1) as (s2 & -> & Ho2). cbn [mbind option_bind].
    destruct (IH s2 (cs ++ [next]) Ho2) as (s' & -> & Ho'); [rewrite zlen_app; change (zlen [next]) with 1; lia|]. exists s'. by rewrite <- app_assoc in Ho' |- *.
Qed.

Lemma open_close s cs : open_rep s cs 0 -> exists s', set_char s (zlen cs) 0 = Some s' /\ sds_rep s' cs.
Proof using Type. intros (t & alloc & body & Hb & _ & Hcs & _). by eapply terminate. Qed.

Lemma sdscatfmt_ok s cs fmt ap out : sds_rep s cs -> renders fmt ap out -> zlen cs + 2 * zlen fmt + zlen out + 1 < 2 ^ 61 ->
  exists s', sdscatfmt junk usable s fmt ap = Some s' /\ sds_rep s' (cs ++ out).
Proof using usable_ok.
  intros Hs Hf Hz. pose proof (zlen_nonneg cs). pose proof (zlen_nonneg fmt). pose proof (zlen_nonneg out). unfold sdscatfmt.
  destruct (sds_read s cs Hs) as [-> _]. cbn [mbind option_bind]. unfold sdsMakeRoomFor. destruct Hs as (t & alloc & body & Hb & Hcs).
  destruct (make_room_ok junk usable usable_ok _ _ _ _ _ (zlen fmt * 2) true Hb Hcs) as (s1 & t1 & alloc1 & body1 & -> & Hb1 & Hc1 & Hle); [lia|lia|].
  cbn [mbind option_bind]. destruct fmt as [|c fmt].
  - inversion Hf; subst. cbn [fmt_loop mbind option_bind]. apply bytes_at_app in Hc1 as [Hc1 _]. rewrite app_nil_r. by eapply terminate.
  - rewrite zlen_cons in *. pose proof (zlen_nonneg fmt). destruct (fmt_loop_ok (c :: fmt) ap out s1 cs Hf) as (s2 & -> & Ho2); [|lia|].
    + apply bytes_at_app in Hc1 as [Hc1 _]. exists t1, alloc1, body1. split_and!; try done; [|lia].
      intros ->. pose proof (block_hdr _ _ _ _ _ Hb1) as [(_ & _ & ?)|(? & _)]; [lia|]. unfold SDS_TYPE_5, SDS_TYPE_8 in *. lia.
    + cbn [mbind option_bind]. by apply open_close.
Qed.

(** ** Formatting through the C library *)

Lemma vsnprintf_ok buf out : 0 < zlen buf ->
  exists buf', vsnprintf buf out = Some (buf', zlen out) /\ zlen buf' = zlen buf /\ (zlen out < zlen buf -> bytes_at buf' 0 out).
Proof using Type.
  intros Hb. unfold vsnprintf. assert (zlen (take (length buf - 1) out ++ [0]) <= zlen buf) as Hle.
  { rewrite zlen_app, zlen_take. change (zlen [0]) with 1. unfold zlen in *. lia. }
  rewrite mem_write_Some by lia. cbn [mbind option_bind]. eexists. split; [done|]. split; [apply zlen_splice; lia|]. intros Hlt.
  rewrite take_ge by (unfold zlen in *; lia). rewrite take_ge in Hle by (unfold zlen in *; lia).
  pose proof (bytes_at_splice buf 0 (out ++ [0]) ltac:(lia) ltac:(lia)) as Hat. by apply bytes_at_app in Hat as [? _].
Qed.

Lemma sdscatvprintf_ok s cs fmt out : sds_rep s cs -> zlen cs + zlen out < 2 ^ 61 ->
  exists s', sdscatvprintf junk usable s fmt out = Some s' /\ sds_rep s' (cs ++ out).
Proof using usable_ok.
  intros Hs Hz. pose proof (zlen_nonneg out). unfold sdscatvprintf. set (n := if decide _ then _ else _).
  assert (1024 <= n) by (unfold n; case_decide; lia). assert (vprintf_loop junk 2 (junk <$> seq 0 (Z.to_nat n)) out = Some out) as ->.
  { assert (forall fuel buf, zlen out < zlen buf -> vprintf_loop junk (S fuel) buf out = Some out) as Hfit.
    { intros fuel buf Hlt. cbn [vprintf_loop]. destruct (vsnprintf_ok buf out) as (buf' & -> & Hzb & Hat); [lia|]. cbn [mbind option_bind].
      rewrite decide_False by lia. apply (bytes_at_read _ 0 out); [by apply Hat|done]. }
    assert (forall k, zlen (junk <$> seq 0 k) = Z.of_nat k) as Hzk by (intros k; unfold zlen; by rewrite length_fmap, length_seq).
    cbn [vprintf_loop]. destruct (vsnprintf_ok (junk <$> seq 0 (Z.to_nat n)) out) as (buf' & -> & Hzb & Hat); [rewrite Hzk; lia|]. cbn [mbind option_bind].
    case_decide; [apply (Hfit 0%nat); rewrite Hzk; lia|]. apply (bytes_at_read _ 0 out); [apply Hat; lia|done]. }
  cbn [mbind option_bind]. by apply sdscatlen_ok.
Qed.
End formatting.

(** ** Character maps *)

Lemma map_loop_ok f s t len alloc body pre cs post : block s t len alloc body -> bytes_at body 0 (pre ++ cs ++ post) ->
  exists s' body', map_loop f (length cs) (zlen pre) s = Some s' /\ block s' t len alloc body' /\ bytes_at body' 0 (pre ++ (f <$> cs) ++ post).
Proof.
  revert s body pre. induction cs as [|c cs IH]; intros s body pre Hb Hcs; [by exists s, body|]. cbn [map_loop length].
  pose proof (zlen_nonneg pre). rewrite (char_at_ok _ _ _ _ _ Hb) by done. cbn [app] in Hcs. rewrite (bytes_at_peek _ _ _ _ Hcs). cbn [mbind option_bind].
  pose proof (bytes_at_bound _ _ _ Hcs) as [_ Hbd]. rewrite zlen_app, zlen_cons in Hbd. pose proof (zlen_nonneg (cs ++ post)).
  destruct (set_char_ok _ _ _ _ _ Hb (zlen pre) (f c)) as (s1 & -> & Hb1); [lia|]. cbn [mbind option_bind].
  destruct (IH s1 _ (pre ++ [f c]) Hb1) as (s' & body' & Hs' & Hb' & Hc').
  - rewrite <- app_assoc. cbn [app]. apply bytes_at_app in Hcs as [H1 H2]. apply bytes_at_cons in H2 as [_ H2].
    apply bytes_at_app. split; [apply bytes_at_splice_other; try done; [change (zlen [f c]) with 1; lia|left; lia]|].
    change (f c :: cs ++ post) with ([f c] ++ cs ++ post). apply bytes_at_app. rewrite Z.add_0_l in *. change (zlen [f c]) with 1.
    split; [apply bytes_at_splice|apply bytes_at_splice_other]; try done; change (zlen [f c]) with 1; lia.
  - rewrite zlen_app in Hs'. change (zlen [f c]) with 1 in Hs'. exists s', body'. split_and!; [done|done|]. by rewrite <- app_assoc in Hc'.
Qed.

Lemma map_chars_ok f s cs : sds_rep s cs -> exists s', (len ← sdslen s; map_loop f (Z.to_nat len) 0 s) = Some s' /\ sds_rep s' (f <$> cs).
Proof.
  intros (t & alloc & body & Hb & Hcs). rewrite (sdslen_ok _ _ _ _ _ Hb). cbn [mbind option_bind]. unfold zlen at 1. rewrite Nat2Z.id.
  destruct (map_loop_ok f s _ _ _ _ [] cs [0] Hb Hcs) as (s' & body' & Hs' & Hb' & Hc'). exists s'. split; [exact Hs'|].
  exists t, alloc, body'. by rewrite zlen_fmap.
Qed.

(** ** Templates *)

(** A template is a list of texts, quoted braces and variables. *)
Inductive piece := PText (t : bytes) | PBrace | PVar (name : bytes).

Definition piece_ok (p : piece) : Prop :=
  match p with
  | PText t => t <> [] /\ 123 ∉ t
  | PBrace => True
  | PVar name => name <> [] /\ head name <> Some 123 /\ 125 ∉ name
  end.

Definition print_piece (p : piece) : bytes :=
  match p with PText t => t | PBrace => [123; 123] | PVar name => 123 :: name ++ [125] end.

(** No two texts in a row: a text extends to the next brace. *)
Fixpoint pieces_ok (ps : list piece) : Prop :=
  match ps with
  | [] => True
  | PText t :: (PText _ :: _) as ps' => False
  | p :: ps' => piece_ok p /\ pieces_ok ps'
  end.

Lemma length_pieces ps : pieces_ok ps -> (length ps <= length (concat (print_piece <$> ps)))%nat.
Proof.
  induction ps as [|p ps IH]; intros Hok; [done|]. cbn [fmap list_fmap concat]. rewrite length_app. cbn [length].
  assert (piece_ok p /\ pieces_ok ps) as [Hp Hps] by (destruct p, ps as [|[]]; cbn [pieces_ok] in *; tauto).
  specialize (IH Hps). destruct p as [[|]| |]; cbn [print_piece length]; [by destruct Hp|lia|lia|]. rewrite length_app. simpl. lia.
Qed.

Section templates.
Context {str : Type} `{Hlaws : StringLaws str}.
Variable cb_func : bytes -> option bytes.

Definition piece_value (p : piece) : option bytes :=
  match p with PText t => Some t | PBrace => Some [123] | PVar name => cstr <$> cb_func name end.

Fixpoint expand (ps : list piece) : option bytes :=
  match ps with [] => Some [] | p :: ps => v ← piece_value p; vs ← expand ps; Some (v ++ vs) end.

Lemma strchr_ok c a b : c ∉ a -> strchr c (a ++ c :: b) = Some (a, b).
Proof using Type.
  induction a as [|d a IH]; intros Hc; cbn [app strchr]; [by rewrite decide_True|]. apply not_elem_of_cons in Hc as [Hd Hc].
  rewrite decide_False by done. by rewrite (IH Hc).
Qed.

Lemma strchr_none c a : c ∉ a -> strchr c a = None.
Proof using Type.
  induction a as [|d a IH]; intros Hc; cbn [strchr]; [done|]. apply not_elem_of_cons in Hc as [Hd Hc].
  rewrite decide_False by done. by rewrite (IH Hc).
Qed.

(** One round of the loop: a text, which may be empty, and what follows it. *)
Definition cat_text (t : bytes) (res : str) : option str := match t with [] => Some res | _ => str_catlen res t end.

Lemma cat_text_ok t res cs : rep res cs -> zlen cs + zlen t < 2 ^ 61 -> exists res', cat_text t res = Some res' /\ rep res' (cs ++ t).
Proof using Type.
  intros Hr Hz. destruct t as [|c t]; [exists res; by rewrite app_nil_r|]. by apply catlen_law.
Qed.

Lemma round_brace fuel t rest res : 123 ∉ t ->
  template_loop cb_func (S fuel) (t ++ 123 :: 123 :: rest) res =
    (res ← cat_text t res; res ← str_catlen res [123]; template_loop cb_func fuel rest res).
Proof using Type.
  intros Ht. assert (exists c p, t ++ 123 :: 123 :: rest = c :: p) as (c & p & E) by (destruct t; by eexists _, _).
  cbn [template_loop]. rewrite E. cbv iota. rewrite <- E. by rewrite strchr_ok.
Qed.

Lemma round_var fuel t name rest res : 123 ∉ t -> piece_ok (PVar name) ->
  template_loop cb_func (S fuel) (t ++ 123 :: name ++ 125 :: rest) res =
    (res ← cat_text t res;
     match cb_func name with None => Some None | Some value => res ← str_catlen res (cstr value); template_loop cb_func fuel rest res end).
Proof using Type.
  intros Ht (Hne & Hh & H125). assert (exists c p, t ++ 123 :: name ++ 125 :: rest = c :: p) as (c & p & E) by (destruct t; by eexists _, _).
  cbn [template_loop]. rewrite E. cbv iota. rewrite <- E. rewrite strchr_ok by done. cbn [mbind option_bind].
  destruct name as [|d name]; [done|]. cbn [head] in Hh. cbn [app]. destruct (decide (d = 123)) as [->|_]; [done|].
  change (d :: name ++ 125 :: rest) with ((d :: name) ++ 125 :: rest). by rewrite strchr_ok.
Qed.

Definition template_post (cs : bytes) (out : option bytes) (r : option (option str)) : Prop :=
  match out with
  | Some out => exists res', r = Some (Some res') /\ rep res' (cs ++ out)
  | None => r = Some None
  end.

(** The size of the values, which bounds every intermediate result. *)
Fixpoint values_size (ps : list piece) : Z :=
  match ps with [] => 0 | p :: ps => from_option zlen 0 (piece_value p) + values_size ps end.

Lemma values_size_nonneg ps : 0 <= values_size ps.
Proof using Type. induction ps as [|p ps IH]; cbn [values_size]; [lia|]. destruct (piece_value p) as [v|]; cbn [from_option]; [pose proof (zlen_nonneg v)|]; lia. Qed.

Lemma post_cons cs v ps r : template_post (cs ++ v) (expand ps) r -> template_post cs (vs ← expand ps; Some (v ++ vs)) r.
Proof using Type. unfold template_post. destruct (expand ps) as [out|]; cbn; [|done]. by rewrite <- app_assoc. Qed.

(** A text, a brace or a variable after it, and the rest. *)
Lemma template_round t p ps fuel res cs : (forall t', p <> PText t') -> 123 ∉ t -> piece_ok p -> rep res cs ->
  zlen cs + zlen t + values_size (p :: ps) < 2 ^ 61 ->
  (forall res cs, rep res cs -> zlen cs + values_size ps < 2 ^ 61 ->
     template_post cs (expand ps) (template_loop cb_func fuel (concat (print_piece <$> ps)) res)) ->
  template_post (cs ++ t) (expand (p :: ps)) (template_loop cb_func (S fuel) (t ++ concat (print_piece <$> p :: ps)) res).
Proof using Type.
  intros Hp Ht Hok Hr Hz IH. cbn [fmap list_fmap concat expand values_size] in *. pose proof (values_size_nonneg ps).
  pose proof (zlen_nonneg t). destruct p as [t'| |name]; [by specialize (Hp t')| |].
  - cbn [print_piece piece_value from_option app mbind option_bind] in *. change (zlen [123]) with 1 in Hz. rewrite round_brace by done.
    destruct (cat_text_ok t res cs Hr) as (r1 & -> & Hr1); [lia|]. cbn [mbind option_bind].
    destruct (catlen_law r1 _ [123] Hr1) as (r2 & -> & Hr2); [rewrite zlen_app; change (zlen [123]) with 1; lia|]. cbn [mbind option_bind].
    apply (post_cons _ [123]), IH; [done|]. rewrite !zlen_app. change (zlen [123]) with 1. lia.
  - cbn [print_piece app]. rewrite <- app_assoc. cbn [app]. rewrite round_var by done. cbn [piece_value] in *.
    destruct (cb_func name) as [v|]; cbn [fmap option_fmap option_map from_option mbind option_bind] in *.
    + pose proof (zlen_nonneg (cstr v)). destruct (cat_text_ok t res cs Hr) as (r1 & -> & Hr1); [lia|]. cbn [mbind option_bind].
      destruct (catlen_law r1 _ (cstr v) Hr1) as (r2 & -> & Hr2); [rewrite zlen_app; lia|]. cbn [mbind option_bind].
      apply post_cons, IH; [done|]. rewrite !zlen_app. lia.
    + destruct (cat_text_ok t res cs Hr) as (r1 & -> & Hr1); [lia|]. done.
Qed.

Lemma template_loop_ok n ps fuel res cs : (length ps <= n)%nat -> pieces_ok ps -> (length ps < fuel)%nat -> rep res cs ->
  zlen cs + values_size ps < 2 ^ 61 -> template_post cs (expand ps) (template_loop cb_func fuel (concat (print_piece <$> ps)) res).
Proof using Type.
  revert ps fuel res cs. induction n as [|n IH]; intros ps fuel res cs Hn Hok Hf Hr Hz.
  { destruct ps; [|simpl in Hn; lia]. destruct fuel as [|fuel]; [lia|]. exists res. by rewrite app_nil_r. }
  destruct fuel as [|fuel]; [lia|]. destruct ps as [|p ps].
  { exists res. by rewrite app_nil_r. }
  assert (forall qs f, (length qs <= n)%nat -> pieces_ok qs -> (length qs < f)%nat -> forall res cs, rep res cs -> zlen cs + values_size qs < 2 ^ 61 ->
    template_post cs (expand qs) (template_loop cb_func f (concat (print_piece <$> qs)) res)) as Hrec by (intros; by apply IH).
  destruct p as [t| |name].
  - destruct ps as [|q ps].
    + destruct Hok as [[Hne H123] _]. cbn [fmap list_fmap concat print_piece]. rewrite app_nil_r. cbn [values_size piece_value from_option] in Hz.
      cbn [expand piece_value mbind option_bind]. rewrite app_nil_r. destruct t as [|c t]; [done|]. cbn [template_loop]. rewrite strchr_none by done.
      destruct (catlen_law res cs (c :: t) Hr) as (r1 & -> & Hr1); [lia|]. by exists r1.
    + assert (piece_ok (PText t) /\ (forall t', q <> PText t') /\ piece_ok q /\ pieces_ok ps) as ([Hne H123] & Hq & Hqok & Hps).
      { destruct q; cbn [pieces_ok] in Hok; [done| |]; destruct Hok as (? & ? & ?); done. }
      cbn [values_size piece_value from_option] in Hz.
      pose proof (template_round t q ps fuel res cs Hq H123 Hqok Hr) as Hround. cbn [values_size] in Hround.
      change (expand (PText t :: q :: ps)) with (vs ← expand (q :: ps); Some (t ++ vs)). apply post_cons. apply Hround; [lia|].
      apply Hrec; [simpl in Hn; lia|done|simpl in Hf; lia].
  - destruct Hok as [Hok Hps]. pose proof (template_round [] PBrace ps fuel res cs) as Hround. rewrite app_nil_r in Hround. apply Hround; try done.
    + by apply not_elem_of_nil.
    + rewrite zlen_nil. lia.
    + apply Hrec; [simpl in Hn; lia|done|simpl in Hf; lia].
  - destruct Hok as [Hok Hps]. pose proof (template_round [] (PVar name) ps fuel res cs) as Hround. rewrite app_nil_r in Hround. apply Hround; try done.
    + by apply not_elem_of_nil.
    + rewrite zlen_nil. lia.
    + apply Hrec; [simpl in Hn; lia|done|simpl in Hf; lia].
Qed.

Lemma sdstemplate_ok ps : pieces_ok ps -> values_size ps < 2 ^ 61 ->
  template_post [] (expand ps) (sdstemplate cb_func (concat (print_piece <$> ps))).
Proof using Type.
  intros Hok Hz. unfold sdstemplate. destruct empty_law as (r & -> & Hr). cbn [mbind option_bind].
  apply template_loop_ok with (n := length ps); try done. pose proof (length_pieces ps Hok). lia.
Qed.
End templates.

(** ** The guarantees *)

Lemma words_line_join ws : words_line ws = join_chars [32] ws.
Proof. induction ws as [|w [|v ws] IH]; [done|done|]. cbn [words_line join_chars app] in *. by rewrite IH. Qed.

Lemma zlen_words_line ws : zlen (words_line ws) <= foldr (fun w n => zlen w + 1 + n) 0 ws.
Proof.
  induction ws as [|w ws IH]; [done|]. cbn [foldr] in *. destruct ws as [|v ws].
  - cbn [words_line foldr]. lia.
  - change (words_line (w :: v :: ws)) with (w ++ 32 :: words_line (v :: ws)). rewrite zlen_app, zlen_cons. lia.
Qed.

(** The quoted form of an argument, as a new string. *)
Definition quote {str} `{StringOps str} (a : bytes) : option str := s ← str_empty; sdscatrepr s a.

Lemma quote_all {str} `{StringLaws str} args : Forall (fun a => bytes_ok a) args -> Forall (fun a => 4 * zlen a + 2 < 2 ^ 61) args ->
  exists quoted, mapM quote args = Some quoted /\ Forall2 rep quoted (repr <$> args).
Proof.
  intros Ha Hz. assert (Forall2 (fun a q => quote a = Some q /\ rep q (repr a)) args
    (omap (fun a => quote a) args)) as Hq.
  { induction Ha as [|a args Ha _ IH]; [constructor|]. apply Forall_cons in Hz as [Hz Hzs]. cbn [omap list_omap].
    destruct empty_law as (s & Hs & Hrs). destruct (sdscatrepr_ok s [] a Hrs Ha) as (q & Hq & Hrq); [rewrite zlen_nil; lia|].
    assert (quote a = Some q) as Hqa by (unfold quote; by rewrite Hs). rewrite Hqa. constructor; [|by apply IH]. done. }
  eexists. split; [apply mapM_Some; eapply Forall2_impl; [exact Hq|]; by intros ? ? [? _]|].
  apply Forall2_flip. apply Forall2_fmap_l. eapply Forall2_impl; [exact Hq|]. by intros ? ? [_ ?].
Qed.

Definition line_size (args : list bytes) : Z := foldr (fun a n => 4 * zlen a + 3 + n) 0 args.

Lemma line_size_bound args : Forall (fun a => bytes_ok a) args ->
  0 <= line_size args /\ Forall (fun a => 4 * zlen a + 2 <= line_size args) args /\ zlen (words_line (repr <$> args)) <= line_size args.
Proof.
  intros Ha. assert (0 <= line_size args /\ Forall (fun a => 4 * zlen a + 2 <= line_size args) args /\
    foldr (fun w n => zlen w + 1 + n) 0 (repr <$> args) <= line_size args) as (H0 & H1 & H2).
  { induction Ha as [|a args Ha _ (H0 & H1 & H2)]; [done|]. pose proof (zlen_repr a Ha). pose proof (zlen_nonneg a).
    unfold line_size in *. cbn [foldr fmap list_fmap] in *. set (n := foldr _ 0 args) in *. split_and!; [lia| |lia].
    constructor; [lia|]. eapply Forall_impl; [exact H1|]. intros b ?. cbn in *. lia. }
  split_and!; [done|done|]. pose proof (zlen_words_line (repr <$> args)). lia.
Qed.

(** C25: [sdssplitargs] reads back what [sdscatrepr] writes: the quoted forms of
    any list of byte strings (NUL, quotes, blanks and control characters
    included), joined by spaces, parse to exactly these strings. *)
Theorem splitargs_repr_roundtrip junk usable try_ok args :
  (forall n, 0 <= n < 2 ^ 62 -> n <= usable n < 2 ^ 63) -> Forall (fun a => bytes_ok a) args -> line_size args < 2 ^ 61 ->
  let ops := block_ops junk usable try_ok in
  exists quoted line text vec,
    mapM (@quote sds ops) args = Some quoted /\ @sdsjoinsds sds ops quoted [32] = Some line /\
    @str_chars sds ops line = Some text /\ @sdssplitargs sds ops text = Some (Some vec) /\ Forall2 sds_rep vec args.
Proof.
  intros Hu Ha Hz ops. pose (laws := block_laws junk usable try_ok Hu : @StringLaws sds ops).
  destruct (line_size_bound args Ha) as (H0 & Hall & Hw).
  destruct (@quote_all sds ops laws args Ha) as (quoted & Hq & Hrq); [eapply Forall_impl; [exact Hall|]; cbn; intros; lia|].
  destruct (@sdsjoinsds_ok sds ops laws quoted (repr <$> args) [32] Hrq) as (line & Hj & Hrl); [rewrite <- words_line_join; lia|].
  destruct (@sdssplitargs_words sds ops laws (repr <$> args) args) as (vec & Hs & Hv); [|lia|].
  { apply Forall2_fmap_l, Forall_Forall2_diag. eapply Forall_impl; [exact Ha|]. intros a. apply parses_repr. }
  exists quoted, line, (words_line (repr <$> args)), vec. split_and!; [done|done| |done|done].
  rewrite words_line_join. by apply (@chars_law sds ops laws).
Qed.

Lemma splitargs_repr_roundtrip_witness :
  let ops := block_ops (fun _ => 170) (fun n => n + 8) (fun _ => true) in
  exists quoted line text vec,
    mapM (@quote sds ops) [[0; 34; 39; 92; 255]; []; [32; 10; 120]] = Some quoted /\ @sdsjoinsds sds ops quoted [32] = Some line /\
    @str_chars sds ops line = Some text /\ @sdssplitargs sds ops text = Some (Some vec) /\
    Forall2 sds_rep vec [[0; 34; 39; 92; 255]; []; [32; 10; 120]].
Proof.
  apply (splitargs_repr_roundtrip (fun _ => 170) (fun n => n + 8) (fun _ => true) [[0; 34; 39; 92; 255]; []; [32; 10; 120]]).
  - intros n Hn. lia.
  - repeat constructor; unfold byte_ok; lia.
  - vm_compute. reflexivity.
Defined.

(** C29: on every line [sdssplitargs] returns, with the arguments or with the
    error of unbalanced quotes, and never reads past the NUL of the line, in
    the middle of an escape or after a quote included. *)
Theorem splitargs_returns junk usable try_ok line :
  (forall n, 0 <= n < 2 ^ 62 -> n <= usable n < 2 ^ 63) -> Forall (fun c => c <> 0) line -> zlen line + 1 < 2 ^ 61 ->
  exists r, @sdssplitargs sds (block_ops junk usable try_ok) line = Some r.
Proof. intros Hu Hl Hz. by apply (@sdssplitargs_total sds _ (block_laws junk usable try_ok Hu)). Qed.

Lemma splitargs_returns_witness :
  exists r, @sdssplitargs sds (block_ops (fun _ => 170) (fun n => n + 8) (fun _ => true)) [34; 97; 92; 120; 49] = Some r.
Proof.
  apply (splitargs_returns (fun _ => 170) (fun n => n + 8) (fun _ => true) [34; 97; 92; 120; 49]).
  - intros n Hn. lia.
  - repeat constructor; lia.
  - reflexivity.
Defined.

(** [sdsneedsrepr] does not report a single quote, which [sdssplitargs] treats
    as an opening quote, nor the empty string, which is no argument at all. *)
Example needsrepr_single_quote :
  sdsneedsrepr (lit "it's") = false /\ @sdssplitargs bytes _ (lit "it's") = Some None.
Proof. by vm_compute. Qed.

Example needsrepr_empty : sdsneedsrepr [] = false /\ @sdssplitargs bytes _ [] = Some (Some []).
Proof. by vm_compute. Qed.

(** splitting a string at a separator of any length and joining the parts
    with it gives the string back; the separator occurs in no part, and the
    array of parts is never written past its slots. *)
Theorem split_join_roundtrip junk usable try_ok s sep :
  (forall n, 0 <= n < 2 ^ 62 -> n <= usable n < 2 ^ 63) -> 0 < zlen sep -> 0 < zlen s < 2 ^ 29 ->
  let ops := block_ops junk usable try_ok in
  exists tokens parts joined, @sdssplitlen sds ops s sep = Some (Some tokens) /\ Forall2 sds_rep tokens parts /\
    Forall (sep_free sep) parts /\ @sdsjoinsds sds ops tokens sep = Some joined /\ sds_rep joined s.
Proof.
  intros Hu Hsep Hz ops. pose (laws := block_laws junk usable try_ok Hu : @StringLaws sds ops).
  destruct (@sdssplitlen_ok sds ops laws s sep Hsep Hz) as (tokens & parts & Hs & Hr & Hj & Hf).
  destruct (@sdsjoinsds_ok sds ops laws tokens parts sep Hr) as (joined & Hjo & Hrj); [rewrite Hj; lia|]. rewrite Hj in Hrj.
  by exists tokens, parts, joined.
Qed.

Lemma split_join_roundtrip_witness :
  let ops := block_ops (fun _ => 170) (fun n => n + 8) (fun _ => true) in
  exists tokens parts joined, @sdssplitlen sds ops (lit "foo_-_bar_-__-_") (lit "_-_") = Some (Some tokens) /\ Forall2 sds_rep tokens parts /\
    Forall (sep_free (lit "_-_")) parts /\ @sdsjoinsds sds ops tokens (lit "_-_") = Some joined /\ sds_rep joined (lit "foo_-_bar_-__-_").
Proof.
  apply (split_join_roundtrip (fun _ => 170) (fun n => n + 8) (fun _ => true) (lit "foo_-_bar_-__-_") (lit "_-_")).
  - intros n Hn. lia.
  - vm_compute. reflexivity.
  - vm_compute. split; reflexivity.
Defined.

(** [sdscatfmt] appends the formatted text: plain characters, the strings and
    decimal numbers of its arguments, and the character after a percent sign
    that starts no conversion; every reallocation on the way keeps the text. *)
Theorem catfmt_correct junk usable s cs fmt ap out :
  (forall n, 0 <= n < 2 ^ 62 -> n <= usable n < 2 ^ 63) ->
  sds_rep s cs -> renders fmt ap out -> zlen cs + 2 * zlen fmt + zlen out + 1 < 2 ^ 61 ->
  exists s', sdscatfmt junk usable s fmt ap = Some s' /\ sds_rep s' (cs ++ out).
Proof. intros Hu Hs Hf Hz. by apply (sdscatfmt_ok junk usable Hu s cs fmt ap out). Qed.

Lemma catfmt_correct_witness :
  let junk := fun _ => 170 in let usable := fun n => n + 8 in
  exists s s', sdsnew junk usable (fun _ => true) (lit "n=") = Some s /\
    sdscatfmt junk usable s (lit "%i%%%s!") [ArgInt (-42); ArgStr (lit "ok")] = Some s' /\ sds_rep s' (lit "n=-42%ok!").
Proof.
  intros junk usable. assert (forall n, 0 <= n < 2 ^ 62 -> n <= usable n < 2 ^ 63) as Hu by (intros n Hn; unfold usable; lia).
  destruct (sdsnew_ok junk usable (fun _ => true) Hu (lit "n=")) as (s & Hs & Hrep); [reflexivity|]. exists s.
  destruct (catfmt_correct junk usable s (lit "n=") (lit "%i%%%s!") [ArgInt (-42); ArgStr (lit "ok")] (lit "-42%ok!") Hu Hrep) as (s' & Hs' & Hrep').
  - apply (renders_conv 105 (ArgInt (-42)) (lit "%%%s!") [ArgStr (lit "ok")] (lit "-42") (lit "%ok!")).
    + split; [reflexivity|]. split; [unfold in_i; lia|]. right. split; [lia|]. exists (lit "42"). split; [reflexivity|].
      split; [discriminate|]. split; [repeat constructor; unfold digit; simpl; lia|]. split; [reflexivity|]. intros t [= ?].
    + apply (renders_verbatim 37); [reflexivity|]. apply (renders_conv 115 (ArgStr (lit "ok")) (lit "!") [] (lit "ok") (lit "!")); [split; reflexivity|].
      apply (renders_char 33); [discriminate|]. constructor.
  - vm_compute. reflexivity.
  - exists s'. split; [exact Hs|]. split; [exact Hs'|exact Hrep'].
Defined.
