(* ===== verification/Crc.v ===== *)
(** * Checksums (crc16.c, crc64.c, crcspeed.c)

    [crc16], the table driven CRC that maps keys to hash slots; [_crc64], the
    generated bit by bit CRC-64; [crcspeed64little] and [crcspeed64big], which
    process eight bytes at a time with the eight tables that
    [crcspeed64little_init] and [crcspeed64big_init] build from a bit by bit
    CRC; [crc64_init] and [crc64], which choose by the byte
    order of the machine (the argument [little]).  A buffer comes with the
    address of its first byte, which decides how many bytes come before the
    first aligned word.

    The theorems: both checksums are the remainder of the message, as a
    polynomial over the field of two elements, divided by the generator; the
    eight-byte routines agree with the bit by bit CRC for every length and
    alignment, in both byte orders, and can be continued over pieces of a
    message. *)

From S2P Require Import Prelude.

#[local] Set Default Proof Using "Type".

(** ** CRC-16 *)

Definition crc16tab : list Z :=
  [
   0x0000; 0x1021; 0x2042; 0x3063; 0x4084; 0x50a5; 0x60c6; 0x70e7; 0x8108; 0x9129; 0xa14a; 0xb16b; 0xc18c; 0xd1ad; 0xe1ce; 0xf1ef;
   0x1231; 0x0210; 0x3273; 0x2252; 0x52b5; 0x4294; 0x72f7; 0x62d6; 0x9339; 0x8318; 0xb37b; 0xa35a; 0xd3bd; 0xc39c; 0xf3ff; 0xe3de;
   0x2462; 0x3443; 0x0420; 0x1401; 0x64e6; 0x74c7; 0x44a4; 0x5485; 0xa56a; 0xb54b; 0x8528; 0x9509; 0xe5ee; 0xf5cf; 0xc5ac; 0xd58d;
   0x3653; 0x2672; 0x1611; 0x0630; 0x76d7; 0x66f6; 0x5695; 0x46b4; 0xb75b; 0xa77a; 0x9719; 0x8738; 0xf7df; 0xe7fe; 0xd79d; 0xc7bc;
   0x48c4; 0x58e5; 0x6886; 0x78a7; 0x0840; 0x1861; 0x2802; 0x3823; 0xc9cc; 0xd9ed; 0xe98e; 0xf9af; 0x8948; 0x9969; 0xa90a; 0xb92b;
   0x5af5; 0x4ad4; 0x7ab7; 0x6a96; 0x1a71; 0x0a50; 0x3a33; 0x2a12; 0xdbfd; 0xcbdc; 0xfbbf; 0xeb9e; 0x9b79; 0x8b58; 0xbb3b; 0xab1a;
   0x6ca6; 0x7c87; 0x4ce4; 0x5cc5; 0x2c22; 0x3c03; 0x0c60; 0x1c41; 0xedae; 0xfd8f; 0xcdec; 0xddcd; 0xad2a; 0xbd0b; 0x8d68; 0x9d49;
   0x7e97; 0x6eb6; 0x5ed5; 0x4ef4; 0x3e13; 0x2e32; 0x1e51; 0x0e70; 0xff9f; 0xefbe; 0xdfdd; 0xcffc; 0xbf1b; 0xaf3a; 0x9f59; 0x8f78;
   0x9188; 0x81a9; 0xb1ca; 0xa1eb; 0xd10c; 0xc12d; 0xf14e; 0xe16f; 0x1080; 0x00a1; 0x30c2; 0x20e3; 0x5004; 0x4025; 0x7046; 0x6067;
   0x83b9; 0x9398; 0xa3fb; 0xb3da; 0xc33d; 0xd31c; 0xe37f; 0xf35e; 0x02b1; 0x1290; 0x22f3; 0x32d2; 0x4235; 0x5214; 0x6277; 0x7256;
   0xb5ea; 0xa5cb; 0x95a8; 0x8589; 0xf56e; 0xe54f; 0xd52c; 0xc50d; 0x34e2; 0x24c3; 0x14a0; 0x0481; 0x7466; 0x6447; 0x5424; 0x4405;
   0xa7db; 0xb7fa; 0x8799; 0x97b8; 0xe75f; 0xf77e; 0xc71d; 0xd73c; 0x26d3; 0x36f2; 0x0691; 0x16b0; 0x6657; 0x7676; 0x4615; 0x5634;
   0xd94c; 0xc96d; 0xf90e; 0xe92f; 0x99c8; 0x89e9; 0xb98a; 0xa9ab; 0x5844; 0x4865; 0x7806; 0x6827; 0x18c0; 0x08e1; 0x3882; 0x28a3;
   0xcb7d; 0xdb5c; 0xeb3f; 0xfb1e; 0x8bf9; 0x9bd8; 0xabbb; 0xbb9a; 0x4a75; 0x5a54; 0x6a37; 0x7a16; 0x0af1; 0x1ad0; 0x2ab3; 0x3a92;
   0xfd2e; 0xed0f; 0xdd6c; 0xcd4d; 0xbdaa; 0xad8b; 0x9de8; 0x8dc9; 0x7c26; 0x6c07; 0x5c64; 0x4c45; 0x3ca2; 0x2c83; 0x1ce0; 0x0cc1;
   0xef1f; 0xff3e; 0xcf5d; 0xdf7c; 0xaf9b; 0xbfba; 0x8fd9; 0x9ff8; 0x6e17; 0x7e36; 0x4e55; 0x5e74; 0x2e93; 0x3eb2; 0x0ed1; 0x1ef0
  ].

(** [*buf] is a [char], which is signed. *)
Fixpoint crc16_loop (buf : bytes) (crc : Z) : option Z :=
  match buf with
  | [] => Some crc
  | b :: buf =>
    t ← peek crc16tab (Z.land (Z.lxor (Z.shiftr crc 8) (swrap 8 b)) 0x00FF);
    crc16_loop buf (u16 (Z.lxor (Z.shiftl crc 8) t))
  end.

Definition crc16 (buf : bytes) : option Z := crc16_loop buf 0.

(** ** CRC-64, bit by bit *)

Definition POLY : Z := 0xad93d23594c935a9.

(** [for (i = 1; i < data_len; i++)], [n] rounds. *)
Fixpoint crc_reflect_loop (n : nat) (data ret : Z) : Z :=
  match n with
  | O => ret
  | S n =>
    let data := Z.shiftr data 1 in
    crc_reflect_loop n data (Z.lor (u64 (Z.shiftl ret 1)) (Z.land data 0x01))
  end.

Definition crc_reflect (data : Z) (data_len : nat) : Z :=
  crc_reflect_loop (data_len - 1) data (Z.land data 0x01).

(** [for (i = 0x01; i & 0xff; i <<= 1)], where [i] is [2 ^ j] and [n] bits are
    left. *)
Fixpoint crc64_bits (n : nat) (j : Z) (c crc : Z) : Z :=
  match n with
  | O => crc
  | S n =>
    let bit := negb (Z.land crc 0x8000000000000000 =? 0) in
    let bit := if decide (Z.land c (Z.shiftl 1 j) <> 0) then negb bit else bit in
    let crc := u64 (Z.shiftl crc 1) in
    let crc := if bit then Z.lxor crc POLY else crc in
    crc64_bits n (j + 1) c crc
  end.

Fixpoint crc64_bytes (data : bytes) (crc : Z) : Z :=
  match data with
  | [] => crc
  | c :: data => crc64_bytes data (Z.land (crc64_bits 8 0 c crc) 0xffffffffffffffff)
  end.

Definition _crc64 (crc : Z) (in_data : bytes) : Z :=
  let crc := Z.land (crc64_bytes in_data crc) 0xffffffffffffffff in
  Z.lxor (crc_reflect crc 64) 0.

(** ** Tables *)

Abbreviation crctable := (list (list Z)).

(** [table[k][n]]. *)
Definition tab (table : crctable) (k : nat) (n : Z) : option Z := row ← table !! k; peek row n.

(** The numbers 0 to 255. *)
Definition byte_values : list Z := seqZ 0 256.

Definition crctable0 (crcfn : Z -> bytes -> Z) : list Z := (fun n => crcfn 0 [n]) <$> byte_values.

(** [for (k = 1; k < 8; k++)] for one [n]: the column [table[1..7][n]]. *)
Fixpoint nested64 (m : nat) (table0 : list Z) (crc : Z) : option (list Z) :=
  match m with
  | O => Some []
  | S m =>
    t ← peek table0 (Z.land crc 0xff);
    let crc := Z.lxor t (Z.shiftr crc 8) in
    rest ← nested64 m table0 crc;
    Some (crc :: rest)
  end.

(** Row [k] of the table whose columns are [cols]. *)
Definition table_row (cols : list (list Z)) (k : nat) : list Z := (fun col => default 0 (col !! k)) <$> cols.

Definition crcspeed64little_init (crcfn : Z -> bytes -> Z) : option crctable :=
  let table0 := crctable0 crcfn in
  cols ← mapM (nested64 7 table0) table0;
  Some (table0 :: (table_row cols <$> seq 0 7)).

(** [__builtin_bswap64]. *)
Definition rev8 (a : Z) : Z := le_val (reverse (le_bytes 8 a)).

Definition crcspeed64big_init (crcfn : Z -> bytes -> Z) : option crctable :=
  big_table ← crcspeed64little_init crcfn;
  Some (map (map rev8) big_table).

(** ** Eight bytes at a time *)

(** One round of the loops over single bytes. *)
Definition little64_byte (little_table : crctable) (crc b : Z) : option Z :=
  t ← tab little_table 0 (Z.land (Z.lxor crc b) 0xff);
  Some (Z.lxor t (Z.shiftr crc 8)).

Definition big64_byte (big_table : crctable) (crc b : Z) : option Z :=
  t ← tab big_table 0 (Z.lxor (Z.shiftr crc 56) b);
  Some (Z.lxor t (u64 (Z.shiftl crc 8))).

(** One round of the loops over words, [n] the word at [next]. *)
Definition little64_word (little_table : crctable) (crc n : Z) : option Z :=
  let crc := Z.lxor crc n in
  t7 ← tab little_table 7 (Z.land crc 0xff);
  t6 ← tab little_table 6 (Z.land (Z.shiftr crc 8) 0xff);
  t5 ← tab little_table 5 (Z.land (Z.shiftr crc 16) 0xff);
  t4 ← tab little_table 4 (Z.land (Z.shiftr crc 24) 0xff);
  t3 ← tab little_table 3 (Z.land (Z.shiftr crc 32) 0xff);
  t2 ← tab little_table 2 (Z.land (Z.shiftr crc 40) 0xff);
  t1 ← tab little_table 1 (Z.land (Z.shiftr crc 48) 0xff);
  t0 ← tab little_table 0 (Z.shiftr crc 56);
  Some (Z.lxor (Z.lxor (Z.lxor (Z.lxor (Z.lxor (Z.lxor (Z.lxor t7 t6) t5) t4) t3) t2) t1) t0).

Definition big64_word (big_table : crctable) (crc n : Z) : option Z :=
  let crc := Z.lxor crc n in
  t0 ← tab big_table 0 (Z.land crc 0xff);
  t1 ← tab big_table 1 (Z.land (Z.shiftr crc 8) 0xff);
  t2 ← tab big_table 2 (Z.land (Z.shiftr crc 16) 0xff);
  t3 ← tab big_table 3 (Z.land (Z.shiftr crc 24) 0xff);
  t4 ← tab big_table 4 (Z.land (Z.shiftr crc 32) 0xff);
  t5 ← tab big_table 5 (Z.land (Z.shiftr crc 40) 0xff);
  t6 ← tab big_table 6 (Z.land (Z.shiftr crc 48) 0xff);
  t7 ← tab big_table 7 (Z.shiftr crc 56);
  Some (Z.lxor (Z.lxor (Z.lxor (Z.lxor (Z.lxor (Z.lxor (Z.lxor t0 t1) t2) t3) t4) t5) t6) t7).

Section speed.
Variables (step : Z -> Z -> option Z) (word : Z -> Z -> option Z) (load : bytes -> Z).

(** [while (len && ((uintptr_t)next & 7) != 0)]: the bytes left and the
    checksum. *)
Fixpoint until_aligned (addr : Z) (buf : bytes) (crc : Z) : option (bytes * Z) :=
  match buf with
  | [] => Some ([], crc)
  | b :: buf' =>
    if decide (Z.land addr 7 <> 0) then crc ← step crc b; until_aligned (addr + 1) buf' crc
    else Some (buf, crc)
  end.

(** [while (len >= 8)]. *)
Fixpoint words (fuel : nat) (buf : bytes) (crc : Z) : option (bytes * Z) :=
  if decide (zlen buf >= 8) then
    match fuel with
    | O => None
    | S fuel => crc ← word crc (load (take 8 buf)); words fuel (drop 8 buf) crc
    end
  else Some (buf, crc).

(** [while (len)]. *)
Fixpoint remaining (buf : bytes) (crc : Z) : option Z :=
  match buf with
  | [] => Some crc
  | b :: buf => crc ← step crc b; remaining buf crc
  end.

Definition crcspeed (addr : Z) (buf : bytes) (crc : Z) : option Z :=
  '(buf, crc) ← until_aligned addr buf crc;
  '(buf, crc) ← words (length buf) buf crc;
  remaining buf crc.
End speed.

(** The loads of [uint64_t] in the two byte orders. *)
Definition load_little (bs : bytes) : Z := le_val bs.
Definition load_big (bs : bytes) : Z := le_val (reverse bs).

Definition crcspeed64little (little_table : crctable) (crc addr : Z) (buf : bytes) : option Z :=
  crcspeed (little64_byte little_table) (little64_word little_table) load_little addr buf crc.

Definition crcspeed64big (big_table : crctable) (crc addr : Z) (buf : bytes) : option Z :=
  crc ← crcspeed (big64_byte big_table) (big64_word big_table) load_big addr buf (rev8 crc);
  Some (rev8 crc).

Definition crcspeed64native (little : bool) (table : crctable) (crc addr : Z) (buf : bytes) : option Z :=
  if little then crcspeed64little table crc addr buf else crcspeed64big table crc addr buf.

Definition crcspeed64native_init (little : bool) (crcfn : Z -> bytes -> Z) : option crctable :=
  if little then crcspeed64little_init crcfn else crcspeed64big_init crcfn.

(** [crc64_table] after the initialisation, and the function that uses it. *)
Definition crc64_init (little : bool) : option crctable := crcspeed64native_init little _crc64.

Definition crc64 (little : bool) (crc64_table : crctable) (crc addr : Z) (s : bytes) : option Z :=
  crcspeed64native little crc64_table crc addr s.

(** ** Polynomials over the field of two elements

    Bit [i] of a number is the coefficient of [x ^ i]; addition is exclusive
    or. *)

(** The product, over the low [n] coefficients of [a]. *)
Fixpoint clmul_bits (n : nat) (a b : Z) : Z :=
  match n with
  | O => 0
  | S n => Z.lxor (clmul_bits n a b) (if Z.testbit a (Z.of_nat n) then Z.shiftl b (Z.of_nat n) else 0)
  end.

Definition clmul (a b : Z) : Z := clmul_bits (Z.to_nat (Z.log2 a + 1)) a b.

(** [r] is the remainder of [m] divided by [x ^ w + poly]. *)
Definition remainder (w poly m r : Z) : Prop :=
  0 <= r < 2 ^ w /\ exists q, 0 <= q /\ m = Z.lxor (clmul q (2 ^ w + poly)) r.

(** The polynomial of a message, the first byte with the highest powers. *)
Definition message (bs : bytes) : Z := le_val (reverse bs).

(** A shift of the feedback register, towards the high and towards the low
    bits, the reference definitions of the update by one bit. *)
Definition mstep (w poly c : Z) : Z :=
  Z.lxor (uwrap w (Z.shiftl c 1)) (if Z.testbit c (w - 1) then poly else 0).

Definition lstep (rpoly c : Z) : Z :=
  Z.lxor (Z.shiftr c 1) (if Z.testbit c 0 then rpoly else 0).

(** ** Bits *)

Lemma testbit_uwrap w z i : 0 <= w -> 0 <= i -> Z.testbit (uwrap w z) i = (i <? w) && Z.testbit z i.
Proof.
  intros. unfold uwrap. destruct (Z.ltb_spec i w).
  - by rewrite Z.mod_pow2_bits_low.
  - by rewrite Z.mod_pow2_bits_high by lia.
Qed.

Lemma testbit_above_range z w i : 0 <= z < 2 ^ w -> 0 <= w <= i -> Z.testbit z i = false.
Proof. intros. rewrite <- (Z.mod_small z (2 ^ w)) by done. apply Z.mod_pow2_bits_high. lia. Qed.

Lemma bits_range z w : 0 <= w -> 0 <= z -> (forall i, w <= i -> Z.testbit z i = false) -> z < 2 ^ w.
Proof.
  intros Hw Hz Hb. destruct (decide (z < 2 ^ w)) as [|Hn]; [done|]. exfalso.
  assert (0 < 2 ^ w) by (apply Z.pow_pos_nonneg; lia).
  assert (w <= Z.log2 z) as Hl by (apply Z.log2_le_pow2; lia).
  specialize (Hb _ Hl). rewrite Z.bit_log2 in Hb by lia. done.
Qed.

Lemma lxor_range w a b : 0 <= w -> 0 <= a < 2 ^ w -> 0 <= b < 2 ^ w -> 0 <= Z.lxor a b < 2 ^ w.
Proof.
  intros. assert (0 <= Z.lxor a b) by (apply Z.lxor_nonneg; lia). split; [done|].
  apply bits_range; [done..|]. intros i Hi. rewrite Z.lxor_spec.
  by rewrite (testbit_above_range a w), (testbit_above_range b w) by lia.
Qed.

Lemma testbit_if (b : bool) z i : Z.testbit (if b then z else 0) i = b && Z.testbit z i.
Proof. destruct b; [done|]. by rewrite Z.bits_0. Qed.

Lemma testbit_lstep r c i : 0 <= i ->
  Z.testbit (lstep r c) i = xorb (Z.testbit c (i + 1)) (Z.testbit c 0 && Z.testbit r i).
Proof. intros. unfold lstep. by rewrite Z.lxor_spec, Z.shiftr_spec, testbit_if by lia. Qed.

Lemma testbit_mstep w p c i : 0 <= w -> 0 <= i ->
  Z.testbit (mstep w p c) i = xorb ((i <? w) && Z.testbit c (i - 1)) (Z.testbit c (w - 1) && Z.testbit p i).
Proof. intros. unfold mstep. by rewrite Z.lxor_spec, testbit_uwrap, Z.shiftl_spec, testbit_if by lia. Qed.

(** Equations between the bits of exclusive ors. *)
Ltac bits_xor :=
  apply Z.bits_inj'; intros ? ?;
  rewrite ?Z.lxor_spec, ?testbit_lstep, ?testbit_mstep, ?Z.lxor_spec by lia;
  repeat match goal with |- context [Z.testbit ?a ?i] => destruct (Z.testbit a i) end;
  repeat match goal with |- context [?a <? ?b] => destruct (a <? b) end; try done.

Lemma lstep_lxor r a b : lstep r (Z.lxor a b) = Z.lxor (lstep r a) (lstep r b).
Proof. bits_xor. Qed.

Lemma mstep_lxor w p a b : 0 <= w -> mstep w p (Z.lxor a b) = Z.lxor (mstep w p a) (mstep w p b).
Proof. intros. bits_xor. Qed.

(** An additive step stays additive when it is repeated. *)
Lemma iter_lxor (f : Z -> Z) (Hf : forall a b, f (Z.lxor a b) = Z.lxor (f a) (f b)) n a b :
  Nat.iter n f (Z.lxor a b) = Z.lxor (Nat.iter n f a) (Nat.iter n f b).
Proof. induction n as [|n IH]; [done|]. by rewrite !Nat.iter_succ, IH, Hf. Qed.

Lemma iter_plus {A} (f : A -> A) n m x : Nat.iter (n + m) f x = Nat.iter n f (Nat.iter m f x).
Proof. induction n as [|n IH]; [done|]. cbn [Nat.add]. by rewrite !Nat.iter_succ, IH. Qed.

Lemma lstep_shiftl r y : lstep r (Z.shiftl y 1) = y.
Proof.
  unfold lstep. rewrite Z.shiftl_spec_low by lia. rewrite Z.lxor_0_r, Z.shiftr_shiftl_l by lia.
  by rewrite Z.shiftl_0_r.
Qed.

Lemma iter_lstep_shiftl r n y : Nat.iter n (lstep r) (Z.shiftl y (Z.of_nat n)) = y.
Proof.
  induction n as [|n IH] in y |- *; [apply Z.shiftl_0_r|].
  rewrite Nat.iter_succ_r. replace (Z.of_nat (S n)) with (Z.of_nat n + 1) by lia.
  rewrite <- Z.shiftl_shiftl by lia. by rewrite lstep_shiftl.
Qed.

Lemma mstep_range w p c : 0 <= w -> 0 <= p < 2 ^ w -> 0 <= mstep w p c < 2 ^ w.
Proof.
  intros. assert (0 < 2 ^ w) by (apply Z.pow_pos_nonneg; lia).
  apply lxor_range; [done|by apply uwrap_range|]. destruct (Z.testbit _ _); lia.
Qed.

Lemma lstep_range w r c : 0 < w -> 0 <= r < 2 ^ w -> 0 <= c < 2 ^ w -> 0 <= lstep r c < 2 ^ w.
Proof.
  intros. apply lxor_range; [lia| |destruct (Z.testbit _ _); lia].
  rewrite Z.shiftr_div_pow2 by lia. change (2 ^ 1) with 2. divlia.
Qed.

Lemma iter_range (f : Z -> Z) (P : Z -> Prop) (Hf : forall c, P c -> P (f c)) n c : P c -> P (Nat.iter n f c).
Proof. intros. induction n; [done|]. rewrite Nat.iter_succ. auto. Qed.

(** ** The bit by bit CRC-64 *)

Lemma testbit_land_1 z i : 0 <= i -> Z.testbit (Z.land z 1) i = (i =? 0) && Z.testbit z 0.
Proof.
  intros. rewrite Z.land_spec. destruct (Z.eqb_spec i 0) as [->|].
  - by rewrite andb_true_r.
  - rewrite (testbit_above_range 1 1) by lia. apply andb_false_r.
Qed.

Lemma crc_reflect_loop_ok n : forall data ret i, 0 <= i < 64 ->
  Z.testbit (crc_reflect_loop n data ret) i =
    if decide (i < Z.of_nat n) then Z.testbit data (Z.of_nat n - i) else Z.testbit ret (i - Z.of_nat n).
Proof.
  induction n as [|n IH]; intros data ret i Hi.
  - rewrite decide_False by lia. cbn. f_equal. lia.
  - cbn [crc_reflect_loop]. rewrite IH by done. destruct (decide (i < Z.of_nat n)).
    + rewrite decide_True by lia. rewrite Z.shiftr_spec by lia. f_equal. lia.
    + unfold u64. rewrite Z.lor_spec, testbit_uwrap, Z.shiftl_spec, testbit_land_1, Z.shiftr_spec by lia.
      rewrite (proj2 (Z.ltb_lt _ _)) by lia. cbn [andb]. destruct (Z.eqb_spec (i - Z.of_nat n) 0).
      * rewrite decide_True by lia. rewrite Z.testbit_neg_r by lia. cbn [orb andb]. f_equal. lia.
      * rewrite decide_False by lia. cbn [andb]. rewrite orb_false_r. f_equal. lia.
Qed.

Lemma crc_reflect_loop_range n : forall data ret, 0 <= ret < 2 ^ 64 -> 0 <= crc_reflect_loop n data ret < 2 ^ 64.
Proof.
  induction n as [|n IH]; intros data ret Hret; [done|]. cbn [crc_reflect_loop]. apply IH.
  assert (in_u 64 (u64 (Z.shiftl ret 1))) as [H1 H2] by (by apply uwrap_range).
  assert (0 <= Z.land (Z.shiftr data 1) 1) by (apply Z.land_nonneg; lia).
  assert (0 <= Z.lor (u64 (Z.shiftl ret 1)) (Z.land (Z.shiftr data 1) 1)) by (by apply Z.lor_nonneg).
  split; [done|]. apply bits_range; [lia|done|]. intros i Hi.
  rewrite Z.lor_spec, testbit_land_1 by lia. rewrite (proj2 (Z.eqb_neq _ _)) by lia.
  by rewrite (testbit_above_range _ 64) by lia.
Qed.

Abbreviation reflect64 c := (crc_reflect c 64).

Lemma reflect64_range c : 0 <= reflect64 c < 2 ^ 64.
Proof.
  apply crc_reflect_loop_range. change 1 with (Z.ones 1). rewrite Z.land_ones by lia.
  change (2 ^ 1) with 2. divlia.
Qed.

Lemma testbit_reflect64 c i : 0 <= i -> Z.testbit (reflect64 c) i = (i <? 64) && Z.testbit c (63 - i).
Proof.
  intros. destruct (Z.ltb_spec i 64) as [Hi|].
  - unfold crc_reflect. rewrite crc_reflect_loop_ok by lia. cbn [andb]. change (Z.of_nat (64 - 1)) with 63.
    case_decide; [done|]. rewrite testbit_land_1 by lia. assert (i = 63) as -> by lia. done.
  - pose proof (reflect64_range c). by rewrite (testbit_above_range _ 64) by lia.
Qed.

(** A byte in the top of the register, its bits in the order of transmission. *)
Lemma reflect64_byte b : byte_ok b -> reflect64 (Z.shiftl (crc_reflect b 8) 56) = b.
Proof.
  revert b. apply (byte_cases (fun b => reflect64 (Z.shiftl (crc_reflect b 8) 56) = b)). vm_compute. reflexivity.
Qed.

Lemma reflect8_byte b : byte_ok b -> byte_ok (crc_reflect b 8).
Proof.
  revert b. apply (byte_cases (fun b => 0 <= crc_reflect b 8 < 256)). vm_compute. reflexivity.
Qed.

#[local] Opaque crc_reflect.

Lemma reflect64_inv c : 0 <= c < 2 ^ 64 -> reflect64 (reflect64 c) = c.
Proof.
  intros. apply Z.bits_inj'. intros i Hi. rewrite testbit_reflect64 by done.
  destruct (Z.ltb_spec i 64).
  - rewrite testbit_reflect64 by lia. rewrite (proj2 (Z.ltb_lt _ _)) by lia. cbn [andb]. f_equal. lia.
  - by rewrite (testbit_above_range c 64) by lia.
Qed.

(** The reflected generator. *)
Definition RPOLY : Z := reflect64 POLY.

Abbreviation l64 := (lstep RPOLY).

Lemma reflect_mstep c : reflect64 (mstep 64 POLY c) = l64 (reflect64 c).
Proof.
  apply Z.bits_inj'. intros i Hi. rewrite testbit_reflect64, testbit_lstep by done.
  unfold RPOLY. rewrite !testbit_reflect64 by lia. change (0 <? 64) with true. cbn [andb].
  destruct (Z.ltb_spec i 64) as [Hi'|Hi'].
  - rewrite testbit_mstep by lia. rewrite (proj2 (Z.ltb_lt (63 - i) 64)) by lia. cbn [andb].
    replace (63 - (i + 1)) with (63 - i - 1) by lia. replace (63 - 0) with (64 - 1) by lia.
    destruct (Z.ltb_spec (i + 1) 64); [done|]. by rewrite Z.testbit_neg_r by lia.
  - rewrite (proj2 (Z.ltb_ge (i + 1) 64)) by lia. by rewrite !andb_false_l, andb_false_r.
Qed.

Lemma land_bit_decide c j : 0 <= j ->
  (if decide (Z.land c (Z.shiftl 1 j) <> 0) then true else false) = Z.testbit c j.
Proof.
  intros Hj. assert (forall i, 0 <= i -> Z.testbit (Z.land c (Z.shiftl 1 j)) i = (i =? j) && Z.testbit c j) as Hb.
  { intros i Hi. rewrite Z.land_spec, Z.shiftl_spec by done. destruct (Z.eqb_spec i j) as [->|].
    - rewrite Z.sub_diag. apply andb_true_r.
    - destruct (decide (i < j)); [rewrite (Z.testbit_neg_r 1) by lia; apply andb_false_r|].
      rewrite (testbit_above_range 1 1) by lia. apply andb_false_r. }
  case_decide as Hd.
  - symmetry. apply not_false_is_true. intros Hf. apply Hd. apply Z.bits_inj'. intros i Hi.
    by rewrite Hb, Hf, andb_false_r, Z.bits_0.
  - specialize (Hb j Hj). rewrite Hd, Z.bits_0, Z.eqb_refl in Hb. done.
Qed.

Lemma top_bit crc : negb (Z.land crc 0x8000000000000000 =? 0) = Z.testbit crc 63.
Proof.
  rewrite <- land_bit_decide by lia. change (Z.shiftl 1 63) with 0x8000000000000000.
  case_decide as Hd; destruct (Z.eqb_spec (Z.land crc 0x8000000000000000) 0); tauto.
Qed.

(** One round of the inner loop: the bit of the message is added to the top of
    the register. *)
Lemma crc64_bits_step n j c crc : 0 <= j ->
  crc64_bits (S n) j c crc = crc64_bits n (j + 1) c (mstep 64 POLY (Z.lxor crc (Z.shiftl (Z.b2z (Z.testbit c j)) 63))).
Proof.
  intros Hj. cbn [crc64_bits]. f_equal. rewrite top_bit.
  assert ((if decide (Z.land c (Z.shiftl 1 j) <> 0) then negb (Z.testbit crc 63) else Z.testbit crc 63) =
          xorb (Z.testbit crc 63) (Z.testbit c j)) as ->.
  { rewrite <- (land_bit_decide c j) by done. case_decide; [by rewrite xorb_true_r|by rewrite xorb_false_r]. }
  set (b := Z.testbit c j). unfold mstep. rewrite Z.lxor_spec, Z.shiftl_spec by lia.
  replace (Z.testbit (Z.b2z b) (64 - 1 - 63)) with b by (by destruct b).
  assert (uwrap 64 (Z.shiftl (Z.lxor crc (Z.shiftl (Z.b2z b) 63)) 1) = u64 (Z.shiftl crc 1)) as ->.
  { rewrite Z.shiftl_lxor. apply Z.bits_inj'. intros i Hi. unfold u64.
    rewrite !testbit_uwrap, Z.lxor_spec by lia. destruct (Z.ltb_spec i 64); [|done]. cbn [andb].
    rewrite Z.shiftl_shiftl, (Z.shiftl_spec (Z.b2z b)), (Z.testbit_neg_r (Z.b2z b)) by lia. apply xorb_false_r. }
  change (64 - 1) with 63. destruct (xorb _ b); [done|]. by rewrite Z.lxor_0_r.
Qed.

Lemma reflect64_lxor a b : reflect64 (Z.lxor a b) = Z.lxor (reflect64 a) (reflect64 b).
Proof.
  apply Z.bits_inj'. intros i Hi. rewrite Z.lxor_spec, !testbit_reflect64, Z.lxor_spec by done.
  by destruct (i <? 64).
Qed.

(** Adding the bits of a byte one by one is adding the byte. *)
Lemma crc64_bits_ok n : forall j c crc, 0 <= j -> 0 <= Z.shiftr c j < 2 ^ Z.of_nat n ->
  reflect64 (crc64_bits n j c crc) = Nat.iter n l64 (Z.lxor (reflect64 crc) (Z.shiftr c j)).
Proof.
  induction n as [|n IH]; intros j c crc Hj Hc.
  - cbn [crc64_bits]. assert (Z.shiftr c j = 0) as -> by lia. by rewrite Z.lxor_0_r.
  - assert (0 <= Z.shiftr c (j + 1) < 2 ^ Z.of_nat n) as Hc'.
    { rewrite <- (Z.shiftr_shiftr c j 1), (Z.shiftr_div_pow2 _ 1) by lia. rewrite Nat2Z.inj_succ, Z.pow_succ_r in Hc by lia.
      change (2 ^ 1) with 2. divlia. }
    rewrite crc64_bits_step, IH, Nat.iter_succ_r by lia.
    f_equal. rewrite reflect_mstep, reflect64_lxor.
    assert (reflect64 (Z.shiftl (Z.b2z (Z.testbit c j)) 63) = Z.b2z (Z.testbit c j)) as -> by (by destruct (Z.testbit c j)).
    rewrite <- (lstep_shiftl RPOLY (Z.shiftr c (j + 1))), <- lstep_lxor. f_equal. rewrite Z.lxor_assoc. f_equal.
    apply Z.bits_inj'. intros i Hi. rewrite Z.lxor_spec, Z.shiftl_spec, (Z.shiftr_spec c j) by lia.
    destruct (decide (i = 0)) as [->|].
    + rewrite Z.b2z_bit0, (Z.testbit_neg_r (Z.shiftr c (j + 1))) by lia. by rewrite xorb_false_r.
    + rewrite Z.shiftr_spec by lia. replace (i - 1 + (j + 1)) with (i + j) by lia.
      replace (Z.testbit (Z.b2z (Z.testbit c j)) i) with false; [done|].
      symmetry. apply (testbit_above_range _ 1); destruct (Z.testbit c j); cbn; lia.
Qed.

(** ** The update by one byte *)

(** The reference for the eight-byte routines. *)
Definition byte64 (crc b : Z) : Z := Nat.iter 8 l64 (Z.lxor crc b).

Lemma byte64_eq crc b : byte64 crc b = Nat.iter 8 l64 (Z.lxor crc b).
Proof. reflexivity. Qed.

#[local] Opaque byte64.

Lemma RPOLY_range : 0 <= RPOLY < 2 ^ 64.
Proof. apply reflect64_range. Qed.

Lemma iter_l64_range n c : 0 <= c < 2 ^ 64 -> 0 <= Nat.iter n l64 c < 2 ^ 64.
Proof.
  apply (iter_range l64 (fun c => 0 <= c < 2 ^ 64)). intros. apply lstep_range; [lia|apply RPOLY_range|done].
Qed.

Lemma byte_range64 b : byte_ok b -> 0 <= b < 2 ^ 64.
Proof. unfold byte_ok. lia. Qed.

Lemma byte64_range crc b : 0 <= crc < 2 ^ 64 -> byte_ok b -> 0 <= byte64 crc b < 2 ^ 64.
Proof. intros. rewrite byte64_eq. apply iter_l64_range, lxor_range; [lia|done|by apply byte_range64]. Qed.

Lemma fold_left_cons {A B} (f : A -> B -> A) b bs a : fold_left f (b :: bs) a = fold_left f bs (f a b).
Proof. reflexivity. Qed.

Lemma fold_byte64_range bs : forall crc, bytes_ok bs -> 0 <= crc < 2 ^ 64 -> 0 <= fold_left byte64 bs crc < 2 ^ 64.
Proof.
  induction bs as [|b bs IH]; intros crc Hbs Hcrc; [done|]. apply Forall_cons in Hbs as [Hb Hbs].
  rewrite fold_left_cons. apply (IH (byte64 crc b)); [exact Hbs|]. apply (byte64_range crc b Hcrc Hb).
Qed.

Lemma land_all64 z : 0 <= z < 2 ^ 64 -> Z.land z 0xffffffffffffffff = z.
Proof. intros. change 0xffffffffffffffff with (Z.ones 64). rewrite Z.land_ones by lia. by apply Z.mod_small. Qed.

Lemma crc64_bits_range n : forall j c crc, 0 <= j -> 0 <= crc < 2 ^ 64 -> 0 <= crc64_bits n j c crc < 2 ^ 64.
Proof.
  induction n as [|n IH]; intros j c crc Hj Hcrc; [done|]. rewrite crc64_bits_step by done. apply IH; [lia|].
  apply mstep_range; [lia|done].
Qed.

Lemma crc64_byte c crc : byte_ok c -> reflect64 (crc64_bits 8 0 c crc) = byte64 (reflect64 crc) c.
Proof.
  intros Hc. rewrite byte64_eq, (crc64_bits_ok 8 0 c crc) by (rewrite ?Z.shiftr_0_r; lia || exact Hc).
  by rewrite Z.shiftr_0_r.
Qed.

#[local] Opaque crc64_bits.

Lemma crc64_bytes_cons c data crc : 0 <= crc < 2 ^ 64 -> crc64_bytes (c :: data) crc = crc64_bytes data (crc64_bits 8 0 c crc).
Proof.
  intros. cbn [crc64_bytes]. rewrite land_all64; [reflexivity|]. by apply crc64_bits_range.
Qed.

Lemma crc64_bytes_ok data : forall crc, bytes_ok data -> 0 <= crc < 2 ^ 64 ->
  0 <= crc64_bytes data crc < 2 ^ 64 /\ reflect64 (crc64_bytes data crc) = fold_left byte64 data (reflect64 crc).
Proof.
  induction data as [|c data IH]; intros crc Hd Hcrc; [by cbn [crc64_bytes fold_left]|].
  apply Forall_cons in Hd as [Hc Hd].
  rewrite crc64_bytes_cons by done. destruct (IH (crc64_bits 8 0 c crc) Hd) as [Hr He].
  { by apply crc64_bits_range. }
  split; [exact Hr|]. by rewrite fold_left_cons, He, crc64_byte by done.
Qed.

Lemma crc64_ref crc data : bytes_ok data -> 0 <= crc < 2 ^ 64 ->
  _crc64 crc data = fold_left byte64 data (reflect64 crc).
Proof.
  intros Hd Hcrc. destruct (crc64_bytes_ok data crc Hd Hcrc) as [Hr He]. unfold _crc64.
  by rewrite land_all64, Z.lxor_0_r.
Qed.

(** The low byte and the rest. *)
Lemma split_byte x : x = Z.lxor (Z.land x 0xff) (Z.shiftl (Z.shiftr x 8) 8).
Proof.
  apply Z.bits_inj'. intros i Hi. change 0xff with (Z.ones 8).
  rewrite Z.lxor_spec, Z.land_spec, Z.testbit_ones_nonneg, Z.shiftl_spec by lia. destruct (Z.ltb_spec i 8).
  - rewrite (Z.testbit_neg_r (Z.shiftr x 8)) by lia. by rewrite andb_true_r, xorb_false_r.
  - rewrite Z.shiftr_spec, andb_false_r by lia. cbn [xorb]. f_equal. lia.
Qed.

Lemma land_ff_range x : byte_ok (Z.land x 0xff).
Proof.
  change 0xff with (Z.ones 8). rewrite Z.land_ones by lia. apply (Z.mod_pos_bound x (2 ^ 8)). lia.
Qed.

Lemma iter8_shiftl y : Nat.iter 8 l64 (Z.shiftl y 8) = y.
Proof. exact (iter_lstep_shiftl RPOLY 8 y). Qed.

(** Eight steps per byte: the low byte goes through the register, the rest is
    shifted down. *)
Lemma iter_l64_byte n x :
  Nat.iter (n + 8) l64 x = Z.lxor (Nat.iter (n + 8) l64 (Z.land x 0xff)) (Nat.iter n l64 (Z.shiftr x 8)).
Proof.
  rewrite (split_byte x) at 1. rewrite (iter_lxor l64 (lstep_lxor RPOLY)). f_equal.
  by rewrite iter_plus, iter8_shiftl.
Qed.

Lemma iter8_byte x : Z.lxor (Nat.iter 8 l64 (Z.land x 0xff)) (Z.shiftr x 8) = Nat.iter 8 l64 x.
Proof. symmetry. exact (iter_l64_byte 0 x). Qed.

Lemma le_val_cons_lxor b bs : byte_ok b -> bytes_ok bs -> le_val (b :: bs) = Z.lxor b (Z.shiftl (le_val bs) 8).
Proof.
  intros Hb Hbs. pose proof (le_val_bound bs Hbs) as Hv. cbn [le_val].
  rewrite (split_byte (b + 256 * le_val bs)). f_equal.
  - change 0xff with (Z.ones 8). rewrite Z.land_ones by lia. change (2 ^ 8) with 256. unfold byte_ok in Hb.
    divlia.
  - rewrite Z.shiftr_div_pow2 by lia. change (2 ^ 8) with 256. unfold byte_ok in Hb. f_equal.
    divlia.
Qed.

Lemma fold_byte64 bs : forall crc, bytes_ok bs ->
  fold_left byte64 bs crc = Nat.iter (8 * length bs) l64 (Z.lxor crc (le_val bs)).
Proof.
  induction bs as [|b bs IH]; intros crc Hbs; [by rewrite Z.lxor_0_r|].
  apply Forall_cons in Hbs as [Hb Hbs]. rewrite fold_left_cons, IH by done. cbn [length].
  replace (8 * S (length bs))%nat with (8 * length bs + 8)%nat by lia. rewrite iter_plus. f_equal.
  rewrite byte64_eq, le_val_cons_lxor by done. rewrite <- Z.lxor_assoc, (iter_lxor l64 (lstep_lxor RPOLY) 8 (Z.lxor crc b)). by rewrite iter8_shiftl.
Qed.

(** ** The tables *)

Lemma byte_values_lookup n : byte_ok n -> byte_values !! Z.to_nat n = Some n.
Proof. unfold byte_ok. intros. apply lookup_seqZ. lia. Qed.

Lemma zlen_byte_values : zlen byte_values = 256.
Proof. reflexivity. Qed.

Lemma peek_fmap_byte (f : Z -> Z) n : byte_ok n -> peek (f <$> byte_values) n = Some (f n).
Proof.
  intros Hn. unfold peek. rewrite decide_True by apply Hn.
  by rewrite list_lookup_fmap, byte_values_lookup.
Qed.

(** The entry [table[k][n]] of the tables for a step that is repeated eight
    times a byte. *)
Definition table_ok (f : Z -> Z) (enc : Z -> Z) (table : crctable) : Prop :=
  forall k n, (k < 8)%nat -> byte_ok n -> tab table k n = Some (enc (Nat.iter (8 * S k) f n)).

Lemma crctable0_64 : crctable0 _crc64 = Nat.iter 8 l64 <$> byte_values.
Proof.
  unfold crctable0. apply list_fmap_ext. intros i n Hn. apply lookup_seqZ in Hn as [-> Hi].
  rewrite crc64_ref by (first [lia|repeat constructor; unfold byte_ok; lia]).
  by rewrite fold_left_cons, byte64_eq.
Qed.

Lemma nested64_ok table0 m : table0 = Nat.iter 8 l64 <$> byte_values -> forall crc,
  nested64 m table0 crc = Some ((fun k => Nat.iter (8 * S k) l64 crc) <$> seq 0 m).
Proof.
  intros ->. induction m as [|m IH]; intros crc; [done|]. cbn [nested64].
  rewrite peek_fmap_byte by apply land_ff_range. cbn [mbind option_bind].
  rewrite iter8_byte, IH. cbn [mbind option_bind].
  f_equal. cbn [seq fmap list_fmap]. f_equal. rewrite <- (fmap_S_seq 0 m), <- list_fmap_compose.
  apply list_fmap_ext. intros i k _. cbn [compose]. rewrite <- iter_plus. f_equal. lia.
Qed.

Lemma mapM_total {A B} (f : A -> option B) (g : A -> B) l : (forall x, f x = Some (g x)) -> mapM f l = Some (g <$> l).
Proof. intros Hf. apply mapM_Some. induction l; constructor; auto. Qed.

Lemma table_row_ok (col : Z -> list Z) (g : Z -> Z) ns k :
  (forall n, col n !! k = Some (g n)) -> table_row (col <$> ns) k = g <$> ns.
Proof.
  intros Hg. unfold table_row. rewrite <- list_fmap_compose. apply list_fmap_ext. intros i n _.
  cbn [compose]. by rewrite Hg.
Qed.

Lemma little_init_ok : exists table, crcspeed64little_init _crc64 = Some table /\ length table = 8%nat /\ table_ok l64 id table.
Proof.
  unfold crcspeed64little_init. rewrite crctable0_64.
  rewrite (mapM_total _ _ _ (nested64_ok _ 7 eq_refl)). cbn [mbind option_bind].
  eexists. split; [reflexivity|]. split; [reflexivity|]. intros k n Hk Hn. unfold tab.
  assert (forall j x, (j < 7)%nat -> ((fun k => Nat.iter (8 * S k) l64 x) <$> seq 0 7) !! j = Some (Nat.iter (8 * S j) l64 x)) as Hcol.
  { intros j x Hj. by rewrite list_lookup_fmap, lookup_seq_lt. }
  destruct k as [|k].
  - cbn [lookup list_lookup mbind option_bind]. by rewrite peek_fmap_byte.
  - match goal with |- context [(?a :: ?l) !! S k] => change ((a :: l) !! S k) with (l !! k) end.
    rewrite list_lookup_fmap, lookup_seq_lt by lia. cbn [fmap option_fmap option_map mbind option_bind].
    rewrite (table_row_ok _ (fun x => Nat.iter (8 * S k) l64 x)) by (intros; apply Hcol; lia).
    rewrite <- list_fmap_compose, peek_fmap_byte by done. cbn [compose]. rewrite <- iter_plus. f_equal. unfold id. f_equal. lia.
Qed.

(** ** Reversed words *)

Lemma testbit_le_val bs : bytes_ok bs -> forall i, 0 <= i ->
  Z.testbit (le_val bs) i = match bs !! Z.to_nat (i / 8) with Some b => Z.testbit b (i mod 8) | None => false end.
Proof.
  induction bs as [|b bs IH]; intros Hbs i Hi; [by rewrite lookup_nil, Z.bits_0|].
  apply Forall_cons in Hbs as [Hb Hbs]. rewrite le_val_cons_lxor by done.
  rewrite Z.lxor_spec, Z.shiftl_spec by done. destruct (decide (i < 8)).
  - rewrite (Z.testbit_neg_r (le_val bs)), xorb_false_r by lia. rewrite Z.div_small, Z.mod_small by lia. done.
  - rewrite (testbit_above_range b 8) by (exact Hb || lia). cbn [xorb]. rewrite IH by (done || lia).
    replace (Z.to_nat (i / 8)) with (S (Z.to_nat ((i - 8) / 8))) by (divlia).
    replace ((i - 8) mod 8) with (i mod 8) by (divlia). done.
Qed.

Lemma le_bytes_lookup n : forall z k, (k < n)%nat -> le_bytes n z !! k = Some (Z.shiftr z (8 * Z.of_nat k) mod 256).
Proof.
  induction n as [|n IH]; intros z k Hk; [lia|]. cbn [le_bytes]. destruct k as [|k]; [by rewrite Z.shiftr_0_r|].
  change ((z mod 256 :: le_bytes n (z / 256)) !! S k) with (le_bytes n (z / 256) !! k). rewrite IH by lia.
  do 2 f_equal. change (z / 256) with (z / 2 ^ 8). rewrite <- Z.shiftr_div_pow2, Z.shiftr_shiftr by lia. f_equal. lia.
Qed.

Lemma testbit_rev8 a i : 0 <= i -> Z.testbit (rev8 a) i = (i <? 64) && Z.testbit a (8 * (7 - i / 8) + i mod 8).
Proof.
  intros Hi. unfold rev8. rewrite testbit_le_val by (try done; apply Forall_reverse, le_bytes_ok).
  destruct (Z.ltb_spec i 64) as [H64|H64]; cbn [andb].
  - assert (0 <= i / 8 < 8 /\ 0 <= i mod 8 < 8) as [] by (divlia).
    rewrite reverse_lookup by (rewrite length_le_bytes; lia). rewrite length_le_bytes, le_bytes_lookup by lia.
    change 256 with (2 ^ 8). rewrite Z.mod_pow2_bits_low, Z.shiftr_spec by lia. f_equal. lia.
  - rewrite lookup_ge_None_2; [done|]. rewrite length_reverse, length_le_bytes. divlia.
Qed.

Lemma rev8_range a : 0 <= rev8 a < 2 ^ 64.
Proof.
  unfold rev8. pose proof (le_val_bound (reverse (le_bytes 8 a))) as H. rewrite zlen_reverse, zlen_le_bytes in H.
  apply H, Forall_reverse, le_bytes_ok.
Qed.

Lemma rev8_inv a : 0 <= a < 2 ^ 64 -> rev8 (rev8 a) = a.
Proof.
  intros Ha. apply Z.bits_inj'. intros i Hi. rewrite testbit_rev8 by done. destruct (Z.ltb_spec i 64); cbn [andb].
  - assert (0 <= i / 8 < 8 /\ 0 <= i mod 8 < 8) as [] by (divlia).
    rewrite testbit_rev8 by lia. rewrite (proj2 (Z.ltb_lt _ _)) by lia. cbn [andb]. f_equal.
    divlia.
  - by rewrite (testbit_above_range a 64) by lia.
Qed.

Lemma rev8_lxor a b : rev8 (Z.lxor a b) = Z.lxor (rev8 a) (rev8 b).
Proof.
  apply Z.bits_inj'. intros i Hi. rewrite Z.lxor_spec, !testbit_rev8, Z.lxor_spec by done. by destruct (i <? 64).
Qed.

#[local] Opaque rev8.

(** The lanes of a reversed word. *)
Lemma rev8_lane a k i j : i = 8 * k -> j = 56 - i -> 0 <= k < 8 ->
  Z.land (Z.shiftr (rev8 a) i) 0xff = Z.land (Z.shiftr a j) 0xff.
Proof.
  intros -> -> Hk. apply Z.bits_inj'. intros i Hi. change 0xff with (Z.ones 8).
  rewrite !Z.land_spec, Z.testbit_ones_nonneg by lia. destruct (Z.ltb_spec i 8); [|by rewrite !andb_false_r].
  rewrite !andb_true_r, !Z.shiftr_spec, testbit_rev8 by lia. rewrite (proj2 (Z.ltb_lt _ _)) by lia. cbn [andb].
  f_equal. divlia.
Qed.

Lemma rev8_shift a : u64 (Z.shiftl (rev8 a) 8) = rev8 (Z.shiftr (uwrap 64 a) 8).
Proof.
  apply Z.bits_inj'. intros i Hi. unfold u64. rewrite testbit_uwrap, Z.shiftl_spec, (testbit_rev8 (Z.shiftr _ 8) i) by lia.
  destruct (Z.ltb_spec i 64); cbn [andb]; [|done].
  assert (0 <= i / 8 < 8 /\ 0 <= i mod 8 < 8) as [] by (divlia).
  rewrite Z.shiftr_spec, testbit_uwrap by lia. destruct (decide (i < 8)).
  - rewrite Z.testbit_neg_r by lia. rewrite (proj2 (Z.ltb_ge _ _)); [done|]. divlia.
  - rewrite testbit_rev8, (proj2 (Z.ltb_lt (i - 8) _)), (proj2 (Z.ltb_lt _ 64)) by (divlia).
    cbn [andb]. f_equal. divlia.
Qed.

(** ** Eight bytes at a time

    The loops agree with a reference update [f] when one byte and one word do;
    the register holds [rep crc]. *)
Section speed_ok.
Variables (step : Z -> Z -> option Z) (word : Z -> Z -> option Z) (load : bytes -> Z).
Variables (f : Z -> Z -> Z) (rep : Z -> Z) (ok : Z -> Prop).
Hypothesis f_ok : forall crc b, ok crc -> byte_ok b -> ok (f crc b).
Hypothesis step_ok : forall crc b, ok crc -> byte_ok b -> step (rep crc) b = Some (rep (f crc b)).
Hypothesis word_ok : forall crc bs, ok crc -> bytes_ok bs -> length bs = 8%nat ->
  word (rep crc) (load bs) = Some (rep (fold_left f bs crc)).

Lemma fold_ok bs : forall crc, ok crc -> bytes_ok bs -> ok (fold_left f bs crc).
Proof using f_ok.
  induction bs as [|b bs IH]; intros crc Hcrc Hbs; [done|]. apply Forall_cons in Hbs as [Hb Hbs].
  apply IH; [by apply f_ok|done].
Qed.

Lemma until_aligned_ok bs : forall addr crc, ok crc -> bytes_ok bs ->
  exists pre post, bs = pre ++ post /\ until_aligned step addr bs (rep crc) = Some (post, rep (fold_left f pre crc)).
Proof using f_ok step_ok.
  induction bs as [|b bs IH]; intros addr crc Hcrc Hbs; [by exists [], []|]. cbn [until_aligned].
  case_decide; [|by exists [], (b :: bs)]. apply Forall_cons in Hbs as [Hb Hbs]. rewrite step_ok by done.
  cbn [mbind option_bind]. destruct (IH (addr + 1) (f crc b)) as (pre & post & -> & ->); [by apply f_ok|done|].
  by exists (b :: pre), post.
Qed.

Lemma words_ok fuel : forall bs crc, ok crc -> bytes_ok bs -> (length bs <= fuel)%nat ->
  exists pre post, bs = pre ++ post /\ words word load fuel bs (rep crc) = Some (post, rep (fold_left f pre crc)).
Proof using f_ok word_ok.
  induction fuel as [|fuel IH]; intros bs crc Hcrc Hbs Hfuel; cbn [words].
  - rewrite decide_False by zlia. by exists [], bs.
  - case_decide as H8; [|by exists [], bs]. assert (length (take 8 bs) = 8%nat) as Ht by (rewrite length_take; zlia).
    rewrite word_ok by (try done; by apply Forall_take). cbn [mbind option_bind].
    destruct (IH (drop 8 bs) (fold_left f (take 8 bs) crc)) as (pre & post & Hd & ->).
    + apply fold_ok; [done|by apply Forall_take].
    + by apply Forall_drop.
    + rewrite length_drop. zlia.
    + exists (take 8 bs ++ pre), post. rewrite <- app_assoc, <- Hd, take_drop, fold_left_app. done.
Qed.

Lemma remaining_ok bs : forall crc, ok crc -> bytes_ok bs ->
  remaining step bs (rep crc) = Some (rep (fold_left f bs crc)).
Proof using f_ok step_ok.
  induction bs as [|b bs IH]; intros crc Hcrc Hbs; [done|]. apply Forall_cons in Hbs as [Hb Hbs].
  cbn [remaining]. rewrite step_ok by done. cbn [mbind option_bind]. apply IH; [by apply f_ok|done].
Qed.

Lemma crcspeed_ok addr bs crc : ok crc -> bytes_ok bs ->
  crcspeed step word load addr bs (rep crc) = Some (rep (fold_left f bs crc)).
Proof using All.
  intros Hcrc Hbs. unfold crcspeed.
  destruct (until_aligned_ok bs addr crc Hcrc Hbs) as (pre & post & -> & ->). apply Forall_app in Hbs as [Hpre Hpost].
  cbn [mbind option_bind]. destruct (words_ok (length post) post (fold_left f pre crc)) as (pre' & post' & -> & ->);
    [by apply fold_ok|done|done|]. apply Forall_app in Hpost as [Hpre' Hpost'].
  cbn [mbind option_bind]. rewrite <- fold_left_app, remaining_ok by first [done|apply fold_ok; [done|by apply Forall_app]].
  by rewrite <- fold_left_app, app_assoc.
Qed.
End speed_ok.

Abbreviation ok64 := (fun c => 0 <= c < 2 ^ 64).

Lemma shiftr_byte_range x : 0 <= x < 2 ^ 64 -> Z.shiftr x 56 = Z.land (Z.shiftr x 56) 0xff.
Proof.
  intros Hx. change 0xff with (Z.ones 8). rewrite Z.land_ones by lia. symmetry. apply Z.mod_small.
  rewrite Z.shiftr_div_pow2 by lia. split; [apply Z.div_pos; lia|]. apply Z.div_lt_upper_bound; lia.
Qed.

Lemma iter_lane n m k k' x : m = (n + 8)%nat -> k' = k + 8 -> 0 <= k ->
  Nat.iter m l64 (Z.shiftr x k) =
    Z.lxor (Nat.iter m l64 (Z.land (Z.shiftr x k) 0xff)) (Nat.iter n l64 (Z.shiftr x k')).
Proof. intros -> -> Hk. by rewrite (iter_l64_byte n (Z.shiftr x k)), Z.shiftr_shiftr. Qed.

(** The lanes of a word, each with its own number of steps. *)
Lemma iter_lanes x : 0 <= x < 2 ^ 64 ->
  Nat.iter 64 l64 x =
    Z.lxor (Z.lxor (Z.lxor (Z.lxor (Z.lxor (Z.lxor (Z.lxor (Nat.iter 64 l64 (Z.land x 0xff))
      (Nat.iter 56 l64 (Z.land (Z.shiftr x 8) 0xff))) (Nat.iter 48 l64 (Z.land (Z.shiftr x 16) 0xff)))
      (Nat.iter 40 l64 (Z.land (Z.shiftr x 24) 0xff))) (Nat.iter 32 l64 (Z.land (Z.shiftr x 32) 0xff)))
      (Nat.iter 24 l64 (Z.land (Z.shiftr x 40) 0xff))) (Nat.iter 16 l64 (Z.land (Z.shiftr x 48) 0xff)))
      (Nat.iter 8 l64 (Z.shiftr x 56)).
Proof.
  intros Hx. rewrite <- (Z.shiftr_0_r x) at 1 2.
  rewrite (iter_lane 56 64 0 8 x), (iter_lane 48 56 8 16 x), (iter_lane 40 48 16 24 x), (iter_lane 32 40 24 32 x),
    (iter_lane 24 32 32 40 x), (iter_lane 16 24 40 48 x), (iter_lane 8 16 48 56 x) by lia.
  by rewrite !Z.lxor_assoc.
Qed.

Lemma word_value bs : bytes_ok bs -> length bs = 8%nat -> 0 <= le_val bs < 2 ^ 64.
Proof. intros Hbs Hl. pose proof (le_val_bound bs Hbs) as H. unfold zlen in H. by rewrite Hl in H. Qed.

(** The numbers of steps as literals. *)
Ltac eval_steps :=
  repeat match goal with |- context [(8 * ?k)%nat] => let v := eval vm_compute in (8 * k)%nat in change (8 * k)%nat with v end.

Section little.
Variable table : crctable.
Hypothesis Htable : table_ok l64 id table.

Lemma little_byte_ok crc b : ok64 crc -> byte_ok b -> little64_byte table (id crc) b = Some (id (byte64 crc b)).
Proof using Htable.
  intros Hcrc Hb. unfold little64_byte, id. rewrite (Htable 0%nat) by first [lia|apply land_ff_range].
  cbn [mbind option_bind]. f_equal. rewrite byte64_eq, <- (iter8_byte (Z.lxor crc b)). unfold id. f_equal.
  rewrite Z.shiftr_lxor. rewrite (Z.shiftr_div_pow2 b), (Z.div_small b), Z.lxor_0_r by first [lia|exact Hb]. done.
Qed.

Lemma little_word_ok crc bs : ok64 crc -> bytes_ok bs -> length bs = 8%nat ->
  little64_word table (id crc) (load_little bs) = Some (id (fold_left byte64 bs crc)).
Proof using Htable.
  intros Hcrc Hbs Hl. pose proof (word_value bs Hbs Hl) as Hv. unfold load_little, id.
  rewrite fold_byte64, Hl by done. unfold little64_word. set (x := Z.lxor crc (le_val bs)).
  assert (0 <= x < 2 ^ 64) as Hx by (by apply lxor_range).
  rewrite (shiftr_byte_range x Hx). rewrite !Htable by first [lia|apply land_ff_range]. cbn [mbind option_bind]. unfold id.
  eval_steps. by rewrite (iter_lanes x Hx), <- (shiftr_byte_range x Hx).
Qed.

Lemma crcspeed64little_ok crc addr bs : ok64 crc -> bytes_ok bs ->
  crcspeed64little table crc addr bs = Some (fold_left byte64 bs crc).
Proof using Htable.
  apply (crcspeed_ok _ _ _ byte64 id ok64 byte64_range little_byte_ok little_word_ok).
Qed.
End little.

Lemma lxor_reversed a b c d e f g h :
  Z.lxor (Z.lxor (Z.lxor (Z.lxor (Z.lxor (Z.lxor (Z.lxor a b) c) d) e) f) g) h =
  Z.lxor (Z.lxor (Z.lxor (Z.lxor (Z.lxor (Z.lxor (Z.lxor h g) f) e) d) c) b) a.
Proof.
  rewrite (Z.lxor_comm _ h), (Z.lxor_comm _ g), (Z.lxor_comm _ f), (Z.lxor_comm _ e), (Z.lxor_comm _ d),
    (Z.lxor_comm _ c), (Z.lxor_comm a b). by rewrite !Z.lxor_assoc.
Qed.

Section big.
Variable table : crctable.
Hypothesis Htable : table_ok l64 rev8 table.

Lemma rev8_top a : 0 <= a < 2 ^ 64 -> Z.shiftr (rev8 a) 56 = Z.land a 0xff.
Proof.
  intros Ha. rewrite (shiftr_byte_range _ (rev8_range a)). rewrite (rev8_lane a 7 56 0) by lia.
  by rewrite Z.shiftr_0_r.
Qed.

Lemma big_byte_ok crc b : ok64 crc -> byte_ok b -> big64_byte table (rev8 crc) b = Some (rev8 (byte64 crc b)).
Proof using Htable.
  intros Hcrc Hb. unfold big64_byte. rewrite rev8_top by done.
  assert (Z.land b 0xff = b) as Hb'.
  { change 0xff with (Z.ones 8). rewrite Z.land_ones by lia. apply Z.mod_small. exact Hb. }
  assert (Z.lxor (Z.land crc 0xff) b = Z.land (Z.lxor crc b) 0xff) as ->.
  { rewrite <- Hb' at 1. apply Z.bits_inj'. intros i Hi. rewrite !Z.lxor_spec, !Z.land_spec, Z.lxor_spec.
    by destruct (Z.testbit crc i), (Z.testbit b i), (Z.testbit 255 i). }
  rewrite (Htable 0%nat) by first [lia|apply land_ff_range]. cbn [mbind option_bind]. f_equal.
  rewrite rev8_shift, <- rev8_lxor, uwrap_small by exact Hcrc. f_equal.
  rewrite byte64_eq, <- (iter8_byte (Z.lxor crc b)). f_equal.
  rewrite Z.shiftr_lxor, (Z.shiftr_div_pow2 b), (Z.div_small b), Z.lxor_0_r by first [lia|exact Hb]. done.
Qed.

Lemma load_big_rev8 bs : bytes_ok bs -> length bs = 8%nat -> load_big bs = rev8 (le_val bs).
Proof. intros Hbs Hl. Transparent rev8. unfold load_big, rev8. by rewrite <- Hl, le_bytes_le_val. Qed.
#[local] Opaque rev8.

Lemma big_word_ok crc bs : ok64 crc -> bytes_ok bs -> length bs = 8%nat ->
  big64_word table (rev8 crc) (load_big bs) = Some (rev8 (fold_left byte64 bs crc)).
Proof using Htable.
  intros Hcrc Hbs Hl. pose proof (word_value bs Hbs Hl) as Hv. rewrite load_big_rev8 by done.
  rewrite fold_byte64, Hl by done. unfold big64_word. rewrite <- rev8_lxor. set (x := Z.lxor crc (le_val bs)).
  assert (0 <= x < 2 ^ 64) as Hx by (by apply lxor_range).
  rewrite (rev8_top x Hx). rewrite <- (Z.shiftr_0_r (rev8 x)) at 1.
  rewrite (rev8_lane x 0 0 56), (rev8_lane x 1 8 48), (rev8_lane x 2 16 40), (rev8_lane x 3 24 32), (rev8_lane x 4 32 24),
    (rev8_lane x 5 40 16), (rev8_lane x 6 48 8) by lia.
  rewrite !Htable by first [lia|apply land_ff_range]. cbn [mbind option_bind].
  rewrite <- !rev8_lxor. do 2 f_equal. eval_steps. rewrite (iter_lanes x Hx), <- (shiftr_byte_range x Hx).
  apply lxor_reversed.
Qed.

Lemma crcspeed64big_ok crc addr bs : ok64 crc -> bytes_ok bs ->
  crcspeed64big table crc addr bs = Some (fold_left byte64 bs crc).
Proof using Htable.
  intros Hcrc Hbs. unfold crcspeed64big.
  rewrite (crcspeed_ok _ _ _ byte64 rev8 ok64 byte64_range big_byte_ok big_word_ok addr bs crc Hcrc Hbs).
  cbn [mbind option_bind]. by rewrite rev8_inv by (by apply fold_byte64_range).
Qed.
End big.

Lemma crc64_init_ok (little : bool) : exists table, crc64_init little = Some table /\
  table_ok l64 (if little then id else rev8) table.
Proof.
  destruct little_init_ok as (table & Hinit & Hlen & Hok). unfold crc64_init, crcspeed64native_init.
  destruct little; [exact (ex_intro _ table (conj Hinit Hok))|]. unfold crcspeed64big_init. rewrite Hinit. cbn [mbind option_bind].
  eexists. split; [reflexivity|]. intros k n Hk Hn. specialize (Hok k n Hk Hn). unfold tab in Hok |- *.
  change (map (map rev8) table) with (map rev8 <$> table). rewrite list_lookup_fmap.
  destruct (table !! k) as [row|]; [|done]. cbn [fmap option_fmap option_map mbind option_bind] in Hok |- *.
  unfold peek in Hok |- *. case_decide; [|done]. change (map rev8 row) with (rev8 <$> row).
  by rewrite list_lookup_fmap, Hok.
Qed.

Lemma crc64_ok (little : bool) table crc addr s : table_ok l64 (if little then id else rev8) table -> ok64 crc ->
  bytes_ok s -> crc64 little table crc addr s = Some (fold_left byte64 s crc).
Proof.
  intros. unfold crc64, crcspeed64native. destruct little; [by apply crcspeed64little_ok|by apply crcspeed64big_ok].
Qed.

(** ** Remainders *)

Lemma clmul_bits_lxor n a a' b : clmul_bits n (Z.lxor a a') b = Z.lxor (clmul_bits n a b) (clmul_bits n a' b).
Proof.
  induction n as [|n IH]; [done|]. cbn [clmul_bits]. rewrite IH, Z.lxor_spec. apply Z.bits_inj'. intros i Hi.
  rewrite !Z.lxor_spec, !testbit_if.
  by destruct (Z.testbit a (Z.of_nat n)), (Z.testbit a' (Z.of_nat n)), (Z.testbit (clmul_bits n a b) i),
    (Z.testbit (clmul_bits n a' b) i), (Z.testbit (Z.shiftl b (Z.of_nat n)) i).
Qed.

Lemma clmul_bits_more n k a b : 0 <= a < 2 ^ Z.of_nat n -> clmul_bits (k + n) a b = clmul_bits n a b.
Proof.
  intros Ha. induction k as [|k IH]; [done|]. cbn [clmul_bits Nat.add]. rewrite IH.
  rewrite (testbit_above_range a (Z.of_nat n)) by lia. apply Z.lxor_0_r.
Qed.

Lemma clmul_eq n a b : 0 <= a < 2 ^ Z.of_nat n -> clmul a b = clmul_bits n a b.
Proof.
  intros Ha. unfold clmul. set (k := Z.to_nat (Z.log2 a + 1)). pose proof (Z.log2_nonneg a).
  assert (0 <= a < 2 ^ Z.of_nat k) as Hk.
  { split; [lia|]. destruct (decide (a = 0)) as [->|]; [apply Z.pow_pos_nonneg; lia|].
    apply Z.log2_lt_pow2; [lia|]. unfold k. lia. }
  destruct (Nat.le_ge_cases k n).
  - replace n with ((n - k) + k)%nat by lia. by rewrite clmul_bits_more.
  - replace k with ((k - n) + n)%nat at 1 by lia. by rewrite clmul_bits_more.
Qed.

Lemma size_exists a : 0 <= a -> exists n, a < 2 ^ Z.of_nat n.
Proof. intros. exists (Z.to_nat a). rewrite Z2Nat.id by done. apply Z.pow_gt_lin_r; lia. Qed.

Lemma clmul_lxor a a' b : 0 <= a -> 0 <= a' -> clmul (Z.lxor a a') b = Z.lxor (clmul a b) (clmul a' b).
Proof.
  intros Ha Ha'. destruct (size_exists (Z.max a a')) as [n Hn]; [lia|].
  rewrite !(clmul_eq n) by first [lia|apply lxor_range; lia]. apply clmul_bits_lxor.
Qed.

Lemma clmul_bits_shiftl n a b : clmul_bits (S n) (Z.shiftl a 1) b = Z.shiftl (clmul_bits n a b) 1.
Proof.
  induction n as [|n IH].
  - cbn [clmul_bits]. rewrite Z.shiftl_spec, Z.testbit_neg_r by lia. done.
  - cbn [clmul_bits] in IH |- *. rewrite IH, Z.shiftl_lxor. f_equal. rewrite Z.shiftl_spec by lia.
    replace (Z.of_nat (S n) - 1) with (Z.of_nat n) by lia. destruct (Z.testbit a (Z.of_nat n)); [|done].
    rewrite Z.shiftl_shiftl by lia. f_equal. lia.
Qed.

Lemma clmul_shiftl a b : 0 <= a -> clmul (Z.shiftl a 1) b = Z.shiftl (clmul a b) 1.
Proof.
  intros Ha. destruct (size_exists a) as [n Hn]; [lia|]. rewrite (clmul_eq (S n)), (clmul_eq n), clmul_bits_shiftl; [done|lia|].
  rewrite Z.shiftl_mul_pow2, Nat2Z.inj_succ, Z.pow_succ_r by lia. lia.
Qed.

Lemma clmul_1 b : clmul 1 b = b.
Proof. rewrite (clmul_eq 1) by (cbn; lia). cbn [clmul_bits]. change (Z.of_nat 0) with 0. by rewrite Z.shiftl_0_r. Qed.

Lemma shiftl_succ a n : Z.shiftl a (Z.of_nat (S n)) = Z.shiftl (Z.shiftl a (Z.of_nat n)) 1.
Proof. rewrite Z.shiftl_shiftl by lia. f_equal. lia. Qed.

Lemma message_snoc bs b : bytes_ok bs -> byte_ok b -> message (bs ++ [b]) = Z.lxor (Z.shiftl (message bs) 8) b.
Proof.
  intros Hbs Hb. unfold message. rewrite reverse_snoc, le_val_cons_lxor by (try done; by apply Forall_reverse).
  apply Z.lxor_comm.
Qed.

Section congruence.
Variables (w poly : Z).
Hypothesis Hw : 8 <= w.
Hypothesis Hpoly : 0 <= poly < 2 ^ w.

Definition cong (a b : Z) : Prop := exists q, 0 <= q /\ Z.lxor a b = clmul q (2 ^ w + poly).

#[local] Instance cong_equiv : Equivalence cong.
Proof using Type.
  split.
  - intros a. exists 0. split; [lia|]. apply Z.lxor_nilpotent.
  - intros a b (q & Hq & He). exists q. by rewrite Z.lxor_comm.
  - intros a b c (q & Hq & He) (q' & Hq' & He'). exists (Z.lxor q q'). split; [apply Z.lxor_nonneg; lia|].
    rewrite clmul_lxor, <- He, <- He' by done. rewrite Z.lxor_assoc, <- (Z.lxor_assoc b b c), Z.lxor_nilpotent.
    by rewrite Z.lxor_0_l.
Qed.

#[local] Instance cong_lxor : Proper (cong ==> cong ==> cong) Z.lxor.
Proof using Type.
  intros a a' (q & Hq & He) b b' (q' & Hq' & He'). exists (Z.lxor q q'). split; [apply Z.lxor_nonneg; lia|].
  rewrite clmul_lxor, <- He, <- He' by done. rewrite !Z.lxor_assoc. f_equal. rewrite (Z.lxor_comm a' (Z.lxor b b')).
  rewrite Z.lxor_assoc. f_equal. apply Z.lxor_comm.
Qed.

Lemma cong_shiftl1 a b : cong a b -> cong (Z.shiftl a 1) (Z.shiftl b 1).
Proof using Type.
  intros (q & Hq & He). exists (Z.shiftl q 1). split; [by apply Z.shiftl_nonneg|].
  by rewrite clmul_shiftl, <- He, Z.shiftl_lxor by done.
Qed.

Lemma cong_shiftl n a b : cong a b -> cong (Z.shiftl a (Z.of_nat n)) (Z.shiftl b (Z.of_nat n)).
Proof using Type.
  intros H. induction n as [|n IH]; [by rewrite !Z.shiftl_0_r|]. rewrite !shiftl_succ. by apply cong_shiftl1.
Qed.

Lemma cong_mstep c : 0 <= c < 2 ^ w -> cong (Z.shiftl c 1) (mstep w poly c).
Proof using Hw Hpoly.
  intros Hc. exists (Z.b2z (Z.testbit c (w - 1))). split; [by destruct (Z.testbit _ _)|].
  assert (2 ^ w + poly = Z.lxor (Z.shiftl 1 w) poly) as ->.
  { rewrite Z.shiftl_1_l. apply Z.add_nocarry_lxor. apply Z.bits_inj'. intros i Hi.
    rewrite Z.land_spec, Z.pow2_bits_eqb, Z.bits_0 by lia. destruct (Z.eqb_spec w i) as [<-|]; [|done].
    by rewrite (testbit_above_range poly w) by lia. }
  assert (clmul (Z.b2z (Z.testbit c (w - 1))) (Z.lxor (Z.shiftl 1 w) poly) =
    if Z.testbit c (w - 1) then Z.lxor (Z.shiftl 1 w) poly else 0) as ->.
  { destruct (Z.testbit c (w - 1)); [apply clmul_1|done]. }
  apply Z.bits_inj'. intros i Hi. rewrite Z.lxor_spec, testbit_mstep, testbit_if, Z.lxor_spec, !Z.shiftl_spec by lia.
  destruct (Z.ltb_spec i w); cbn [andb].
  - rewrite (Z.testbit_neg_r 1) by lia. by destruct (Z.testbit c (i - 1)), (Z.testbit c (w - 1)), (Z.testbit poly i).
  - rewrite (testbit_above_range poly w) by lia. destruct (decide (i = w)) as [->|].
    + rewrite Z.sub_diag. by destruct (Z.testbit c (w - 1)).
    + rewrite (testbit_above_range c w), (testbit_above_range 1 1) by lia. by destruct (Z.testbit c (w - 1)).
Qed.

Lemma cong_iter n c : 0 <= c < 2 ^ w -> cong (Z.shiftl c (Z.of_nat n)) (Nat.iter n (mstep w poly) c).
Proof using Hw Hpoly.
  intros Hc. induction n as [|n IH]; [by rewrite Z.shiftl_0_r|]. rewrite shiftl_succ, Nat.iter_succ.
  etransitivity; [by apply cong_shiftl1|]. apply cong_mstep.
  apply (iter_range _ (fun c => 0 <= c < 2 ^ w)); [|done]. intros. apply mstep_range; [lia|done].
Qed.

(** The update of the register by a byte. *)
Definition mbyte (r b : Z) : Z := Nat.iter 8 (mstep w poly) (Z.lxor r (Z.shiftl b (w - 8))).

Lemma byte_top_range r b : 0 <= r < 2 ^ w -> byte_ok b -> 0 <= Z.lxor r (Z.shiftl b (w - 8)) < 2 ^ w.
Proof using Hw.
  intros Hr Hb. apply lxor_range; [lia|done|]. unfold byte_ok in Hb.
  rewrite Z.shiftl_mul_pow2 by lia. replace (2 ^ w) with (256 * 2 ^ (w - 8)).
  - assert (0 < 2 ^ (w - 8)) by (apply Z.pow_pos_nonneg; lia). nia.
  - change 256 with (2 ^ 8). rewrite <- Z.pow_add_r by lia. f_equal. lia.
Qed.

Lemma mbyte_range r b : 0 <= r < 2 ^ w -> byte_ok b -> 0 <= mbyte r b < 2 ^ w.
Proof using Hw Hpoly.
  intros Hr Hb. apply (iter_range _ (fun c => 0 <= c < 2 ^ w)); [|by apply byte_top_range].
  intros. apply mstep_range; [lia|done].
Qed.

Lemma cong_mbyte m r b : 0 <= r < 2 ^ w -> byte_ok b -> cong (Z.shiftl m w) r ->
  cong (Z.shiftl (Z.lxor (Z.shiftl m 8) b) w) (mbyte r b).
Proof using Hw Hpoly.
  intros Hr Hb Hc. etransitivity; [|apply cong_iter; by apply byte_top_range].
  change (Z.of_nat 8) with 8. rewrite !Z.shiftl_lxor, !Z.shiftl_shiftl by lia. rewrite (Z.add_comm 8 w), <- Z.shiftl_shiftl by lia.
  replace (w - 8 + 8) with w by lia. apply cong_lxor; [|reflexivity]. by apply (cong_shiftl 8).
Qed.

Lemma fold_mbyte_ok bs : bytes_ok bs ->
  0 <= fold_left mbyte bs 0 < 2 ^ w /\ cong (Z.shiftl (message bs) w) (fold_left mbyte bs 0).
Proof using Hw Hpoly.
  induction bs as [|b bs IH] using rev_ind; intros Hbs.
  - cbn [fold_left]. change (message []) with 0. rewrite Z.shiftl_0_l. split; [|reflexivity].
    split; [lia|]. apply Z.pow_pos_nonneg; lia.
  - apply Forall_app in Hbs as [Hbs [Hb _]%Forall_cons]. destruct (IH Hbs) as [Hr Hc]. rewrite fold_left_app.
    change (fold_left mbyte [b] ?x) with (mbyte x b). split; [by apply mbyte_range|].
    rewrite message_snoc by done. by apply cong_mbyte.
Qed.

Lemma fold_mbyte_remainder bs : bytes_ok bs -> remainder w poly (Z.shiftl (message bs) w) (fold_left mbyte bs 0).
Proof using Hw Hpoly.
  intros Hbs. destruct (fold_mbyte_ok bs Hbs) as [Hr (q & Hq & He)]. split; [done|]. exists q. split; [done|].
  by rewrite <- He, Z.lxor_assoc, Z.lxor_nilpotent, Z.lxor_0_r.
Qed.
End congruence.

(** A remainder is determined: a multiple of the generator that is not 0 has a
    coefficient at or above [x ^ w]. *)
Lemma clmul_bits_top w p n a : 0 <= w -> 0 <= p < 2 ^ w -> Z.testbit a (Z.of_nat n) = true ->
  Z.testbit (clmul_bits (S n) a (2 ^ w + p)) (w + Z.of_nat n) = true.
Proof.
  intros Hw Hp Ha. cbn [clmul_bits]. rewrite Ha, Z.lxor_spec, Z.shiftl_spec by lia.
  assert (forall k, 0 <= clmul_bits k a (2 ^ w + p) < 2 ^ (w + Z.of_nat k)) as Hr.
  { induction k as [|k IH]; cbn [clmul_bits].
    - split; [lia|]. apply Z.pow_pos_nonneg; lia.
    - assert (2 ^ (w + Z.of_nat (S k)) = 2 * 2 ^ (w + Z.of_nat k)) as E by (rewrite <- Z.pow_succ_r by lia; f_equal; lia).
      apply lxor_range; [lia|lia|]. destruct (Z.testbit a (Z.of_nat k)); [|lia]. rewrite Z.shiftl_mul_pow2 by lia.
      assert (0 < 2 ^ Z.of_nat k) by (apply Z.pow_pos_nonneg; lia). rewrite E, Z.pow_add_r by lia.
      split; [apply Z.mul_nonneg_nonneg; lia|]. rewrite Z.mul_assoc. apply Z.mul_lt_mono_pos_r; lia. }
  rewrite (testbit_above_range _ (w + Z.of_nat n)) by (apply Hr || lia).
  replace (w + Z.of_nat n - Z.of_nat n) with w by lia. rewrite xorb_false_l.
  rewrite <- (Z.add_0_l w) at 2. replace (2 ^ w + p) with (p + 1 * 2 ^ w) by lia.
  rewrite Z.add_0_l. apply Z.testbit_true; [done|]. rewrite Z.div_add, Z.div_small by lia. done.
Qed.

Lemma remainder_unique w poly m r r' : 0 <= w -> 0 <= poly < 2 ^ w ->
  remainder w poly m r -> remainder w poly m r' -> r = r'.
Proof.
  intros Hw Hp (Hr & q & Hq & ->) (Hr' & q' & Hq' & He).
  assert (clmul (Z.lxor q q') (2 ^ w + poly) = Z.lxor r r') as Hc.
  { rewrite clmul_lxor by done. set (x := clmul q _) in *. set (y := clmul q' _) in *.
    assert (x = Z.lxor (Z.lxor y r') r) as -> by (by rewrite <- He, Z.lxor_assoc, Z.lxor_nilpotent, Z.lxor_0_r).
    rewrite (Z.lxor_comm _ y), !Z.lxor_assoc, <- (Z.lxor_assoc y y), Z.lxor_nilpotent, Z.lxor_0_l. apply Z.lxor_comm. }
  assert (0 <= Z.lxor q q') as Hd by (apply Z.lxor_nonneg; lia).
  destruct (decide (Z.lxor q q' = 0)) as [E|E].
  { rewrite E in Hc. change (clmul 0 (2 ^ w + poly)) with 0 in Hc. by apply Z.lxor_eq. }
  exfalso. pose proof (Z.log2_nonneg (Z.lxor q q')) as Hl. set (d := Z.lxor q q') in *.
  pose proof (clmul_bits_top w poly (Z.to_nat (Z.log2 d)) d Hw Hp) as Ht. rewrite Z2Nat.id in Ht by done.
  specialize (Ht ltac:(apply Z.bit_log2; lia)). unfold clmul in Hc.
  replace (Z.to_nat (Z.log2 d + 1)) with (S (Z.to_nat (Z.log2 d))) in Hc by lia.
  rewrite Hc, (testbit_above_range _ w) in Ht; [done|by apply lxor_range|lia].
Qed.

(** ** CRC-16 as a remainder *)

Abbreviation m16 := (mstep 16 0x1021).

Lemma crc16tab_ok n : byte_ok n -> peek crc16tab n = Some (Nat.iter 8 m16 (Z.shiftl n 8)).
Proof.
  revert n. apply (byte_cases (fun n => peek crc16tab n = Some (Nat.iter 8 m16 (Z.shiftl n 8)))). vm_compute. reflexivity.
Qed.

Lemma iter_m16_low n : byte_ok n -> Nat.iter 8 m16 n = Z.shiftl n 8.
Proof.
  revert n. apply (byte_cases (fun n => Nat.iter 8 m16 n = Z.shiftl n 8)). vm_compute. reflexivity.
Qed.

Lemma signed_char b : byte_ok b -> Z.land (swrap 8 b) 0xff = b.
Proof. revert b. apply (byte_cases (fun b => Z.land (swrap 8 b) 0xff = b)). vm_compute. reflexivity. Qed.

Lemma crc16_index crc b : 0 <= crc < 2 ^ 16 -> byte_ok b ->
  Z.land (Z.lxor (Z.shiftr crc 8) (swrap 8 b)) 0xff = Z.shiftr (Z.lxor crc (Z.shiftl b 8)) 8.
Proof.
  intros Hcrc Hb. rewrite Z.shiftr_lxor, Z.shiftr_shiftl_l, Z.shiftl_0_r by lia.
  rewrite <- (signed_char b Hb) at 2. apply Z.bits_inj'. intros i Hi. change 0xff with (Z.ones 8).
  rewrite Z.land_spec, !Z.lxor_spec, Z.land_spec, Z.testbit_ones_nonneg, Z.shiftr_spec by lia.
  destruct (Z.ltb_spec i 8); [by rewrite !andb_true_r|].
  rewrite (testbit_above_range crc 16) by lia. by rewrite !andb_false_r.
Qed.

Lemma crc16_step crc b t : 0 <= crc < 2 ^ 16 -> byte_ok b ->
  peek crc16tab (Z.land (Z.lxor (Z.shiftr crc 8) (swrap 8 b)) 0xff) = Some t ->
  u16 (Z.lxor (Z.shiftl crc 8) t) = mbyte 16 0x1021 crc b.
Proof.
  intros Hcrc Hb. rewrite crc16_index by done. set (x := Z.lxor crc (Z.shiftl b 8)).
  assert (0 <= x < 2 ^ 16) as Hx by (apply (byte_top_range 16 ltac:(lia)); done).
  assert (byte_ok (Z.shiftr x 8)) as Hs by (rewrite Z.shiftr_div_pow2 by lia; unfold byte_ok; change (2 ^ 8) with 256; divlia).
  rewrite crc16tab_ok by done. intros <-%(inj Some). unfold mbyte. change (16 - 8) with 8. fold x.
  rewrite (split_byte x) at 2. rewrite (iter_lxor m16 (fun a b => mstep_lxor 16 0x1021 a b ltac:(lia))).
  rewrite (iter_m16_low (Z.land x 0xff)) by apply land_ff_range.
  assert (0 <= Nat.iter 8 m16 (Z.shiftl (Z.shiftr x 8) 8) < 2 ^ 16) as Ht.
  { apply (iter_range m16 (fun c => 0 <= c < 2 ^ 16)); [intros; apply mstep_range; lia|].
    unfold byte_ok in Hs. rewrite Z.shiftl_mul_pow2 by lia. lia. }
  apply Z.bits_inj'. intros i Hi. unfold u16. change 0xff with (Z.ones 8).
  rewrite testbit_uwrap, !Z.lxor_spec, !Z.shiftl_spec by lia. destruct (Z.ltb_spec i 16); cbn [andb].
  - f_equal. destruct (decide (i < 8)); [by rewrite !Z.testbit_neg_r by lia|].
    rewrite Z.land_spec, Z.testbit_ones_nonneg by lia. rewrite (proj2 (Z.ltb_lt _ _)), andb_true_r by lia.
    unfold x. rewrite Z.lxor_spec, Z.shiftl_spec, (Z.testbit_neg_r b) by lia. by rewrite xorb_false_r.
  - rewrite (testbit_above_range _ 16 i Ht) by lia. rewrite Z.land_spec, Z.testbit_ones_nonneg by lia.
    by rewrite (proj2 (Z.ltb_ge _ _)), andb_false_r by lia.
Qed.

Lemma crc16_loop_ok buf : forall crc, bytes_ok buf -> 0 <= crc < 2 ^ 16 ->
  crc16_loop buf crc = Some (fold_left (mbyte 16 0x1021) buf crc).
Proof.
  induction buf as [|b buf IH]; intros crc Hbuf Hcrc; [done|]. apply Forall_cons in Hbuf as [Hb Hbuf].
  cbn [crc16_loop]. destruct (peek crc16tab _) as [t|] eqn:Et.
  - cbn [mbind option_bind]. rewrite (crc16_step crc b t Hcrc Hb Et), fold_left_cons. apply IH; [done|].
    apply mbyte_range; [lia|lia|done|done].
  - rewrite crc16tab_ok in Et by apply land_ff_range. done.
Qed.

(** ** CRC-64 as a remainder *)

Lemma reflect_iter n c : reflect64 (Nat.iter n (mstep 64 POLY) c) = Nat.iter n l64 (reflect64 c).
Proof. induction n as [|n IH]; [done|]. by rewrite !Nat.iter_succ, reflect_mstep, IH. Qed.

Lemma reflect_mbyte c b : byte_ok b -> reflect64 (mbyte 64 POLY c (crc_reflect b 8)) = byte64 (reflect64 c) b.
Proof.
  intros Hb. unfold mbyte. rewrite reflect_iter, byte64_eq, reflect64_lxor. change (64 - 8) with 56.
  by rewrite reflect64_byte.
Qed.

Lemma reflect_bytes_ok s : bytes_ok s -> bytes_ok ((fun b => crc_reflect b 8) <$> s).
Proof. intros Hs. apply Forall_fmap. eapply Forall_impl; [exact Hs|]. intros b. apply reflect8_byte. Qed.

Lemma reflect_fold s : forall c, bytes_ok s ->
  reflect64 (fold_left (mbyte 64 POLY) ((fun b => crc_reflect b 8) <$> s) c) = fold_left byte64 s (reflect64 c).
Proof.
  induction s as [|b s IH]; intros c Hs; [reflexivity|]. apply Forall_cons in Hs as [Hb Hs].
  rewrite fmap_cons, !fold_left_cons, IH by done. by rewrite reflect_mbyte.
Qed.

Lemma POLY_range : 0 <= POLY < 2 ^ 64.
Proof. unfold POLY. lia. Qed.

Lemma crc64_remainder s : bytes_ok s ->
  remainder 64 POLY (Z.shiftl (message ((fun b => crc_reflect b 8) <$> s)) 64) (crc_reflect (_crc64 0 s) 64).
Proof.
  intros Hs. rewrite crc64_ref, <- reflect_fold by (done || lia).
  assert (8 <= 64) as H8 by lia. pose proof POLY_range as HP.
  rewrite reflect64_inv by (apply (fold_mbyte_ok 64 POLY H8 HP); by apply reflect_bytes_ok).
  apply (fold_mbyte_remainder 64 POLY H8 HP). by apply reflect_bytes_ok.
Qed.

(** ** Properties *)

(** C26: the table driven CRC-64 that processes eight bytes at a time is the bit
    by bit CRC-64, for every message, start value, address of the buffer and
    byte order of the machine (the register of the table driven form holds the
    bits reversed), and a checksum can be continued over the next piece of a
    message, wherever that piece is stored. *)
Theorem crc64_speed_correct (little : bool) : exists table, crc64_init little = Some table /\
  forall s, bytes_ok s ->
    (forall addr crc, 0 <= crc < 2 ^ 64 ->
       crc64 little table (crc_reflect crc 64) addr s = Some (_crc64 crc s)) /\
    (forall s' addr addr' crc, bytes_ok s' -> 0 <= crc < 2 ^ 64 ->
       exists c, crc64 little table crc addr s = Some c /\
         crc64 little table c addr' s' = crc64 little table crc addr (s ++ s')).
Proof.
  destruct (crc64_init_ok little) as (table & Hi & Ht). exists table. split; [exact Hi|]. intros s Hs. split.
  - intros addr crc Hcrc. rewrite crc64_ref by done. apply (crc64_ok little table _ addr s Ht); [apply reflect64_range|done].
  - intros s' addr addr' crc Hs' Hcrc. exists (fold_left byte64 s crc).
    rewrite !(crc64_ok little table _ _ _ Ht) by first [done|by apply fold_byte64_range|by apply Forall_app].
    by rewrite fold_left_app.
Qed.

Lemma crc64_speed_correct_witness : exists table, crc64_init true = Some table /\
  crc64 true table (crc_reflect 0 64) 3 [49; 50; 51; 52; 53; 54; 55; 56; 57] = Some 0xe9c6d914c4b8d9ca.
Proof.
  destruct (crc64_speed_correct true) as (table & Hi & H). exists table. split; [exact Hi|].
  destruct (H [49; 50; 51; 52; 53; 54; 55; 56; 57]) as [Hc _].
  - repeat (apply Forall_cons; split; [split; [discriminate|reflexivity]|]). apply Forall_nil. exact I.
  - rewrite Hc by (split; [discriminate|reflexivity]). vm_compute. reflexivity.
Defined.

(** C28: the checksums are remainders of polynomials over the field of two
    elements: [crc16] of a message is the remainder of the message times
    [x ^ 16] divided by [x ^ 16 + x ^ 12 + x ^ 5 + 1], and the reflected
    [_crc64] that of the message with reflected bytes times [x ^ 64] divided by
    the generator of [POLY]; both remainders are determined by this. *)
Theorem crc_remainders s : bytes_ok s ->
  (exists r, crc16 s = Some r /\ remainder 16 0x1021 (Z.shiftl (message s) 16) r /\
     forall r', remainder 16 0x1021 (Z.shiftl (message s) 16) r' -> r' = r) /\
  let m := Z.shiftl (message ((fun b => crc_reflect b 8) <$> s)) 64 in
  remainder 64 POLY m (crc_reflect (_crc64 0 s) 64) /\
  forall r', remainder 64 POLY m r' -> r' = crc_reflect (_crc64 0 s) 64.
Proof.
  intros Hs. split.
  - exists (fold_left (mbyte 16 0x1021) s 0). unfold crc16. rewrite crc16_loop_ok by (done || lia). split; [reflexivity|].
    assert (remainder 16 0x1021 (Z.shiftl (message s) 16) (fold_left (mbyte 16 0x1021) s 0)) as Hr
      by (apply fold_mbyte_remainder; [lia|lia|done]).
    split; [exact Hr|]. intros r' Hr'. apply (remainder_unique 16 0x1021 _ _ _ ltac:(lia) ltac:(lia) Hr' Hr).
  - pose proof (crc64_remainder s Hs) as Hr. split; [exact Hr|]. intros r' Hr'.
    apply (remainder_unique 64 POLY _ _ _ ltac:(lia) POLY_range Hr' Hr).
Qed.

Lemma crc_remainders_witness :
  remainder 16 0x1021 (Z.shiftl (message [49; 50; 51; 52; 53; 54; 55; 56; 57]) 16) 0x31c3.
Proof.
  destruct (crc_remainders [49; 50; 51; 52; 53; 54; 55; 56; 57]) as [(r & Hr & Hrem & _) _].
  - repeat (apply Forall_cons; split; [split; [discriminate|reflexivity]|]). apply Forall_nil. exact I.
  - vm_compute in Hr. injection Hr as <-. exact Hrem.
Defined.
