(* ===== verification/Rio.v ===== *)
(** * Streams (rio.h, rio.c)

    [rioWrite] and [rioRead], which split the data in chunks, keep the checksum
    of all data that went through the stream and remember errors, and the
    in-memory buffer behind them.  A stream that can take only so many bytes
    ([room]) stands for the targets whose writes can fail.

    [writes] and [reads] say what a function does with a stream, with the errors
    when the stream is full or ends too early; both compose. *)

From S2P Require Import Prelude Crc.

#[local] Set Default Proof Using "Type".

(** [update_cksum]: [NULL], [rioGenericUpdateChecksum] or
    [rdbLoadProgressCallback] (the checksum only when [rdb_checksum] is set). *)
Inductive cksum_fn := NoCksum | GenericUpdateChecksum | LoadProgressCallback.

Record rio := Rio {
  ptr : bytes;
  pos : Z;
  update_cksum : cksum_fn;
  cksum : Z;
  read_error : bool;
  write_error : bool;
  processed_bytes : Z;
  max_processing_chunk : Z;
  room : option Z;
}.

Definition rioInitWithBuffer (s : bytes) : rio := Rio s 0 NoCksum 0 false false 0 0 None.

Definition set_update_cksum (r : rio) (f : cksum_fn) : rio :=
  Rio (ptr r) (pos r) f (cksum r) (read_error r) (write_error r) (processed_bytes r) (max_processing_chunk r) (room r).

Definition set_max_chunk (r : rio) (n : Z) : rio :=
  Rio (ptr r) (pos r) (update_cksum r) (cksum r) (read_error r) (write_error r) (processed_bytes r) n (room r).

Definition set_cksum (r : rio) (c : Z) : rio :=
  Rio (ptr r) (pos r) (update_cksum r) c (read_error r) (write_error r) (processed_bytes r) (max_processing_chunk r) (room r).

Definition set_read_error (r : rio) : rio :=
  Rio (ptr r) (pos r) (update_cksum r) (cksum r) true (write_error r) (processed_bytes r) (max_processing_chunk r) (room r).

Definition set_write_error (r : rio) : rio :=
  Rio (ptr r) (pos r) (update_cksum r) (cksum r) (read_error r) true (processed_bytes r) (max_processing_chunk r) (room r).

Definition add_processed (r : rio) (n : Z) : rio :=
  Rio (ptr r) (pos r) (update_cksum r) (cksum r) (read_error r) (write_error r) (u64 (processed_bytes r + n))
    (max_processing_chunk r) (room r).

Section rio.
(** The tables of [crc64_init], the address of the data, the configuration
    [rdb_checksum]. *)
Variables (table : crctable) (addr : Z) (rdb_checksum : bool).

Definition rioGenericUpdateChecksum (r : rio) (buf : bytes) : option rio :=
  c ← crc64 true table (cksum r) addr buf; Some (set_cksum r c).

(** [if (r->update_cksum) r->update_cksum(r,buf,len)]. *)
Definition call_update_cksum (r : rio) (buf : bytes) : option rio :=
  match update_cksum r with
  | NoCksum => Some r
  | GenericUpdateChecksum => rioGenericUpdateChecksum r buf
  | LoadProgressCallback => if rdb_checksum then rioGenericUpdateChecksum r buf else Some r
  end.

(** The in-memory buffer takes everything. *)
Definition rioBufferWrite (r : rio) (buf : bytes) : rio :=
  Rio (ptr r ++ buf) (pos r + zlen buf) (update_cksum r) (cksum r) (read_error r) (write_error r)
    (processed_bytes r) (max_processing_chunk r) (room r).

Definition set_room (r : rio) (n : option Z) : rio :=
  Rio (ptr r) (pos r) (update_cksum r) (cksum r) (read_error r) (write_error r) (processed_bytes r) (max_processing_chunk r) n.

(** [r->write]: the buffer, or a target that takes only [room] more bytes; [None]
    is the return value 0. *)
Definition call_write (r : rio) (buf : bytes) : option rio :=
  match room r with
  | None => Some (rioBufferWrite r buf)
  | Some n => if decide (zlen buf <= n) then Some (set_room (rioBufferWrite r buf) (Some (n - zlen buf))) else None
  end.

(** [r->read]: the stream and the bytes; [Some None] is the return value 0. *)
Definition rioBufferRead (r : rio) (len : Z) : option (option (rio * bytes)) :=
  if decide (u64 (zlen (ptr r) - pos r) < len) then Some None
  else
    buf ← mem_read (ptr r) (pos r) len;
    Some (Some (Rio (ptr r) (pos r + len) (update_cksum r) (cksum r) (read_error r) (write_error r)
                  (processed_bytes r) (max_processing_chunk r) (room r), buf)).

Definition chunk_size (r : rio) (len : Z) : Z :=
  if decide (max_processing_chunk r <> 0 /\ max_processing_chunk r < len) then max_processing_chunk r else len.

Fixpoint rioWrite_loop (fuel : nat) (r : rio) (buf : bytes) : option (rio * bool) :=
  if decide (zlen buf = 0) then Some (r, true)
  else
    match fuel with
    | O => None
    | S fuel =>
      let bytes_to_write := chunk_size r (zlen buf) in
      r ← call_update_cksum r (take (Z.to_nat bytes_to_write) buf);
      match call_write r (take (Z.to_nat bytes_to_write) buf) with
      | None => Some (set_write_error r, false)
      | Some r => rioWrite_loop fuel (add_processed r bytes_to_write) (drop (Z.to_nat bytes_to_write) buf)
      end
    end.

(** The return value: 1 or 0. *)
Definition rioWrite (r : rio) (buf : bytes) : option (rio * bool) :=
  if write_error r then Some (r, false) else rioWrite_loop (length buf) r buf.

(** [got] are the bytes read so far. *)
Fixpoint rioRead_loop (fuel : nat) (r : rio) (len : Z) (got : bytes) : option (rio * option bytes) :=
  if decide (len = 0) then Some (r, Some got)
  else
    match fuel with
    | O => None
    | S fuel =>
      let bytes_to_read := chunk_size r len in
      res ← rioBufferRead r bytes_to_read;
      match res with
      | None => Some (set_read_error r, None)
      | Some (r, buf) =>
        r ← call_update_cksum r buf;
        rioRead_loop fuel (add_processed r bytes_to_read) (len - bytes_to_read) (got ++ buf)
      end
    end.

(** The bytes, [None] on an error. *)
Definition rioRead (r : rio) (len : Z) : option (rio * option bytes) :=
  if read_error r then Some (r, None) else rioRead_loop (Z.to_nat len) r len [].

(** ** What happens to a stream *)

Definition summing (r : rio) : bool :=
  match update_cksum r with
  | NoCksum => false | GenericUpdateChecksum => true | LoadProgressCallback => rdb_checksum
  end.

Definition new_cksum (r : rio) (bs : bytes) : Z := if summing r then fold_left byte64 bs (cksum r) else cksum r.

(** A stream in a normal state. *)
Record rio_ok (r : rio) : Prop := {
  rio_cksum : 0 <= cksum r < 2 ^ 64;
  rio_chunk : 0 <= max_processing_chunk r;
  rio_pos : 0 <= pos r <= zlen (ptr r);
  rio_size : zlen (ptr r) < 2 ^ 63;
  rio_bytes : bytes_ok (ptr r);
  rio_room : match room r with Some n => 0 <= n | None => True end;
}.

Definition fits (r : rio) (bs : bytes) : Prop := match room r with Some n => zlen bs <= n | None => True end.

#[global] Instance fits_dec r bs : Decision (fits r bs).
Proof. unfold fits. destruct (room r); apply _. Defined.

(** After writing [bs]. *)
Record wrote (r : rio) (bs : bytes) (r' : rio) : Prop := {
  wrote_ptr : ptr r' = ptr r ++ bs;
  wrote_pos : pos r' = pos r + zlen bs;
  wrote_cksum : cksum r' = new_cksum r bs;
  wrote_fn : update_cksum r' = update_cksum r;
  wrote_error : write_error r' = write_error r;
  wrote_rerror : read_error r' = read_error r;
  wrote_chunk : max_processing_chunk r' = max_processing_chunk r;
  wrote_room : room r' = (fun n => n - zlen bs) <$> room r;
}.

(** After reading [bs]. *)
Record took (r : rio) (bs : bytes) (r' : rio) : Prop := {
  took_ptr : ptr r' = ptr r;
  took_pos : pos r' = pos r + zlen bs;
  took_cksum : cksum r' = new_cksum r bs;
  took_fn : update_cksum r' = update_cksum r;
  took_error : write_error r' = write_error r;
  took_rerror : read_error r' = read_error r;
  took_chunk : max_processing_chunk r' = max_processing_chunk r;
  took_room : room r' = room r;
}.

(** The stream is followed by [bs]. *)
Definition ahead (r : rio) (bs : bytes) : Prop := drop (Z.to_nat (pos r)) (ptr r) = bs.

(** After a write error: the stream holds a part of the data. *)
Definition broken (r : rio) (bs : bytes) (r' : rio) : Prop :=
  write_error r' = true /\ exists p q, bs = p ++ q /\ q <> [] /\ ptr r' = ptr r ++ p.

Lemma wrote_refl r : wrote r [] r.
Proof.
  split; rewrite ?app_nil_r, ?zlen_nil, ?Z.add_0_r; try done.
  - unfold new_cksum. by destruct (summing r).
  - destruct (room r) as [n|]; [|done]. cbn. f_equal. lia.
Qed.

Lemma new_cksum_app r r' a b : update_cksum r' = update_cksum r -> cksum r' = new_cksum r a ->
  new_cksum r' b = new_cksum r (a ++ b).
Proof.
  intros Hf Hc. unfold new_cksum in *. assert (summing r' = summing r) as -> by (unfold summing; by rewrite Hf).
  destruct (summing r); [|done]. by rewrite fold_left_app, <- Hc.
Qed.

Lemma wrote_trans r a r1 b r2 : wrote r a r1 -> wrote r1 b r2 -> wrote r (a ++ b) r2.
Proof.
  intros [] []. split; try congruence.
  - rewrite app_assoc. congruence.
  - rewrite zlen_app. lia.
  - rewrite <- (new_cksum_app r r1 a b) by done. done.
  - rewrite wrote_room1, wrote_room0. destruct (room r); [|done]. cbn. f_equal. zlia.
Qed.

Lemma took_refl r : took r [] r.
Proof. split; rewrite ?zlen_nil, ?Z.add_0_r; try done. unfold new_cksum. by destruct (summing r). Qed.

Lemma took_trans r a r1 b r2 : took r a r1 -> took r1 b r2 -> took r (a ++ b) r2.
Proof.
  intros [] []. split; try congruence.
  - rewrite zlen_app. lia.
  - rewrite <- (new_cksum_app r r1 a b) by done. done.
Qed.

Lemma fits_app r a r1 b : wrote r a r1 -> fits r (a ++ b) <-> fits r a /\ fits r1 b.
Proof.
  intros Hw. unfold fits. rewrite (wrote_room _ _ _ Hw). destruct (room r) as [n|]; [|done]. cbn. rewrite zlen_app.
  pose proof (zlen_nonneg a). pose proof (zlen_nonneg b). lia.
Qed.

Lemma broken_after r a r1 b r2 : wrote r a r1 -> broken r1 b r2 -> broken r (a ++ b) r2.
Proof.
  intros Hw (He & p & q & -> & Hq & Hp). split; [done|]. exists (a ++ p), q. rewrite <- app_assoc. split_and!; [done..|].
  rewrite Hp, (wrote_ptr _ _ _ Hw). by rewrite app_assoc.
Qed.

Lemma broken_more r a b r1 : broken r a r1 -> broken r (a ++ b) r1.
Proof.
  intros (He & p & q & -> & Hq & Hp). split; [done|]. exists p, (q ++ b). rewrite <- app_assoc. split_and!; [done| |done].
  by destruct q.
Qed.

Lemma ahead_took r a b r' : rio_ok r -> ahead r (a ++ b) -> took r a r' -> ahead r' b.
Proof.
  intros [_ _ Hp _ _ _] Ha []. unfold ahead in *. rewrite took_ptr0, took_pos0.
  rewrite Z2Nat.inj_add by (try apply zlen_nonneg; lia). rewrite <- drop_drop, Ha. unfold zlen. rewrite Nat2Z.id.
  by rewrite drop_app_length.
Qed.

Lemma new_cksum_range r bs : rio_ok r -> bytes_ok bs -> 0 <= new_cksum r bs < 2 ^ 64.
Proof. intros [Hc _ _ _ _ _] Hb. unfold new_cksum. destruct (summing r); [by apply fold_byte64_range|done]. Qed.

Lemma took_ok r a r' : rio_ok r -> took r a r' -> bytes_ok a -> pos r + zlen a <= zlen (ptr r) -> rio_ok r'.
Proof.
  intros Hr [] Ha Hl. pose proof (new_cksum_range r a Hr Ha). destruct Hr. pose proof (zlen_nonneg a).
  split; rewrite ?took_ptr0, ?took_pos0, ?took_chunk0, ?took_room0; try done; [congruence|lia].
Qed.

Lemma wrote_ok r a r' : rio_ok r -> wrote r a r' -> fits r a -> bytes_ok a -> zlen (ptr r) + zlen a < 2 ^ 63 -> rio_ok r'.
Proof.
  intros Hr [] Hf Ha Hl. pose proof (new_cksum_range r a Hr Ha). destruct Hr. pose proof (zlen_nonneg a).
  split; rewrite ?wrote_ptr0, ?wrote_pos0, ?wrote_chunk0, ?wrote_room0, ?zlen_app; try done; [congruence|lia|by apply Forall_app|].
  unfold fits in Hf. destruct (room r); [|done]. cbn. lia.
Qed.

(** ** The loops *)

Hypothesis Htable : table_ok (lstep RPOLY) id table.

Lemma call_update_ok r bs : rio_ok r -> bytes_ok bs -> call_update_cksum r bs = Some (set_cksum r (new_cksum r bs)).
Proof using Htable.
  intros [Hc _ _ _ _ _] Hb. unfold call_update_cksum, new_cksum, summing, rioGenericUpdateChecksum.
  assert (crc64 true table (cksum r) addr bs = Some (fold_left byte64 bs (cksum r))) as -> by (by apply crc64_ok).
  by destruct r as [? ? [] ? ? ? ? ? ?], rdb_checksum.
Qed.

Lemma chunk_size_range r len : 0 <= max_processing_chunk r -> 0 < len -> 0 < chunk_size r len <= len.
Proof. intros. unfold chunk_size. case_decide; lia. Qed.

(** One round of the write loop. *)
Lemma write_chunk r bs : rio_ok r -> bytes_ok bs -> zlen (ptr r) + zlen bs < 2 ^ 63 ->
  if decide (fits r bs) then
    exists r', call_write (set_cksum r (new_cksum r bs)) bs = Some r' /\ forall n, wrote r bs (add_processed r' n)
  else call_write (set_cksum r (new_cksum r bs)) bs = None.
Proof using Type.
  intros Hr Hb Hl. unfold call_write. cbn [set_cksum room]. case_decide as Hf; unfold fits in Hf.
  - destruct (room r) as [m|] eqn:Em; [rewrite decide_True by done|]; (eexists; split; [done|]; intros n; split; cbn; try done; by rewrite Em).
  - destruct (room r) as [m|]; [by rewrite decide_False by done|done].
Qed.

Lemma rioWrite_loop_ok fuel : forall r bs, rio_ok r -> bytes_ok bs -> zlen (ptr r) + zlen bs < 2 ^ 63 -> (length bs <= fuel)%nat ->
  exists r' b, rioWrite_loop fuel r bs = Some (r', b) /\
    if b : bool then fits r bs /\ wrote r bs r' else ~ fits r bs /\ broken r bs r'.
Proof using Htable.
  induction fuel as [|fuel IH]; intros r bs Hr Hb Hl Hf; cbn [rioWrite_loop].
  { destruct bs; [|cbn in Hf; lia]. rewrite decide_True by done. exists r, true. split; [done|].
    split; [|apply wrote_refl]. pose proof (rio_room r Hr). unfold fits. by destruct (room r). }
  case_decide as H0.
  { apply zlen_0 in H0 as ->. exists r, true. split; [done|].
    split; [|apply wrote_refl]. pose proof (rio_room r Hr). unfold fits. by destruct (room r). }
  pose proof (zlen_nonneg bs). pose proof (chunk_size_range r (zlen bs) (rio_chunk r Hr) ltac:(lia)) as Hn.
  set (n := chunk_size r (zlen bs)) in *. set (blk := take (Z.to_nat n) bs). set (rest := drop (Z.to_nat n) bs).
  assert (bs = blk ++ rest) as Hbs by (unfold blk, rest; by rewrite take_drop).
  assert (bytes_ok blk /\ bytes_ok rest) as [Hblk Hrest] by (apply Forall_app; by rewrite <- Hbs).
  assert (zlen blk = n) as Hz by (unfold blk; zlia). assert (zlen rest = zlen bs - n) as Hzr by (unfold rest; zlia).
  rewrite call_update_ok by done. cbn [mbind option_bind].
  pose proof (write_chunk r blk Hr Hblk ltac:(lia)) as Hw. case_decide as Hfits.
  - destruct Hw as (r1 & -> & Hw). specialize (Hw n). set (r2 := add_processed r1 n) in *.
    assert (zlen (ptr r2) = zlen (ptr r) + n) as Hp by (rewrite (wrote_ptr _ _ _ Hw), zlen_app; lia).
    destruct (IH r2 rest) as (r' & b & -> & Hb'); [by eapply wrote_ok; eauto; lia|done|lia|unfold zlen in *; lia|].
    exists r', b. split; [done|]. pose proof (fits_app r blk r2 rest Hw) as Hfa. rewrite <- Hbs in Hfa.
    destruct b; destruct Hb' as [Hf1 Hf2]; (split; [tauto|]); rewrite Hbs; [by eapply wrote_trans|by eapply broken_after].
  - rewrite Hw. eexists _, false. split; [done|]. split.
    + intros Hfit. apply Hfits. unfold fits in *. destruct (room r); [lia|done].
    + split; [done|]. exists [], bs. rewrite app_nil_r. split_and!; [done| |done]. intros ->. rewrite zlen_nil in *. lia.
Qed.

Lemma rioWrite_ok r bs : rio_ok r -> write_error r = false -> bytes_ok bs -> zlen (ptr r) + zlen bs < 2 ^ 63 ->
  exists r' b, rioWrite r bs = Some (r', b) /\
    if b : bool then fits r bs /\ wrote r bs r' else ~ fits r bs /\ broken r bs r'.
Proof using Htable. intros Hr He Hb Hl. unfold rioWrite. rewrite He. by apply rioWrite_loop_ok. Qed.

(** One round of the read loop. *)
Lemma read_chunk r n : rio_ok r -> 0 < n ->
  if decide (pos r + n <= zlen (ptr r)) then
    exists r', rioBufferRead r n = Some (Some (r', slice (ptr r) (pos r) n)) /\
      forall m, took r (slice (ptr r) (pos r) n) (add_processed (set_cksum r' (new_cksum r (slice (ptr r) (pos r) n))) m) /\
      rio_ok r' /\ new_cksum r' (slice (ptr r) (pos r) n) = new_cksum r (slice (ptr r) (pos r) n)
  else rioBufferRead r n = Some None.
Proof using Type.
  intros [] Hn. unfold rioBufferRead. rewrite u64_small by lia. destruct (decide (pos r + n <= _)) as [Hle|Hle].
  - rewrite decide_False by lia. rewrite mem_read_Some by lia. cbn [mbind option_bind]. eexists. split; [done|].
    intros m. split; [split; cbn; try done; rewrite zlen_slice; lia|]. split; [|done]. split; cbn; try done. lia.
  - by rewrite decide_True by lia.
Qed.

Lemma rioRead_loop_ok fuel : forall r len got, rio_ok r -> 0 <= len -> (Z.to_nat len <= fuel)%nat ->
  if decide (pos r + len <= zlen (ptr r)) then
    exists r', rioRead_loop fuel r len got = Some (r', Some (got ++ slice (ptr r) (pos r) len)) /\
      took r (slice (ptr r) (pos r) len) r'
  else exists r', rioRead_loop fuel r len got = Some (r', None) /\ read_error r' = true.
Proof using Htable.
  induction fuel as [|fuel IH]; intros r len got Hr Hlen Hf; cbn [rioRead_loop].
  { assert (len = 0) as -> by lia. pose proof (rio_pos r Hr). rewrite decide_True by lia. rewrite decide_True by done.
    exists r. assert (slice (ptr r) (pos r) 0 = []) as -> by (unfold slice; done). rewrite app_nil_r. split; [done|apply took_refl]. }
  destruct (decide (len = 0)) as [->|H0].
  { pose proof (rio_pos r Hr). rewrite decide_True by lia.
    exists r. assert (slice (ptr r) (pos r) 0 = []) as -> by (unfold slice; done). rewrite app_nil_r. split; [done|apply took_refl]. }
  pose proof (chunk_size_range r len (rio_chunk r Hr) ltac:(lia)) as Hn. set (n := chunk_size r len) in *.
  pose proof (read_chunk r n Hr ltac:(lia)) as Hc. destruct (decide (pos r + n <= zlen (ptr r))) as [Hle|Hle].
  - destruct Hc as (r1 & -> & Ht). cbn [mbind option_bind]. specialize (Ht n) as (Ht & Hr1 & Hck).
    set (blk := slice (ptr r) (pos r) n) in *. assert (bytes_ok blk) as Hblk by (apply bytes_ok_slice, (rio_bytes r Hr)).
    assert (zlen blk = n) as Hz by (unfold blk; pose proof (rio_pos r Hr); rewrite zlen_slice; lia).
    rewrite call_update_ok by done. rewrite Hck. cbn [mbind option_bind].
    set (r2 := add_processed _ n) in *. assert (rio_ok r2) as Hr2 by (apply (took_ok r blk r2 Hr Ht Hblk); lia).
    specialize (IH r2 (len - n) (got ++ blk) Hr2 ltac:(lia) ltac:(lia)).
    rewrite (took_ptr _ _ _ Ht), (took_pos _ _ _ Ht), Hz in IH. replace (pos r + n + (len - n)) with (pos r + len) in IH by lia.
    case_decide; [|done]. destruct IH as (r' & -> & Ht'). exists r'.
    assert (slice (ptr r) (pos r) len = blk ++ slice (ptr r) (pos r + n) (len - n)) as ->.
    { unfold blk. rewrite <- slice_split by (pose proof (rio_pos r Hr); lia). f_equal. lia. }
    rewrite app_assoc. split; [done|]. by eapply took_trans.
  - rewrite Hc. cbn [mbind option_bind]. rewrite decide_False by lia. by eexists.
Qed.

(** A read that is satisfied, and one at which the stream ends. *)
Lemma rioRead_ok r bs rest : rio_ok r -> read_error r = false -> ahead r (bs ++ rest) ->
  exists r', rioRead r (zlen bs) = Some (r', Some bs) /\ took r bs r'.
Proof using Htable.
  intros Hr He Ha. unfold rioRead. rewrite He. pose proof (rio_pos r Hr) as Hp. pose proof (zlen_nonneg bs).
  assert (pos r + zlen bs <= zlen (ptr r)) as Hle.
  { pose proof (f_equal zlen Ha) as Hl. rewrite zlen_drop, zlen_app in Hl. pose proof (zlen_nonneg rest). lia. }
  pose proof (rioRead_loop_ok (Z.to_nat (zlen bs)) r (zlen bs) [] Hr ltac:(lia) ltac:(lia)) as Hl.
  rewrite decide_True in Hl by done. assert (slice (ptr r) (pos r) (zlen bs) = bs) as Hs.
  { unfold slice. rewrite Ha. unfold zlen. by rewrite Nat2Z.id, take_app_length. }
  rewrite Hs in Hl. done.
Qed.

Lemma rioRead_short r p n : rio_ok r -> read_error r = false -> ahead r p -> zlen p < n ->
  exists r', rioRead r n = Some (r', None) /\ read_error r' = true.
Proof using Htable.
  intros Hr He Ha Hn. unfold rioRead. rewrite He. pose proof (rio_pos r Hr) as Hp. pose proof (zlen_nonneg p).
  pose proof (rioRead_loop_ok (Z.to_nat n) r n [] Hr ltac:(lia) ltac:(lia)) as Hl.
  rewrite decide_False in Hl; [done|]. pose proof (f_equal zlen Ha) as Hz. rewrite zlen_drop in Hz. lia.
Qed.
End rio.

(** ** Functions that save

    They take a stream or [NULL], which only counts, and return -1 on an
    error. *)
Definition checked (x : option (option rio * Z)) (k : option rio -> Z -> option (option rio * Z)) :
    option (option rio * Z) :=
  '(rdb, n) ← x;
  if decide (n = -1) then Some (rdb, -1) else k rdb n.

Notation "'let*' r n := x 'in' k" := (checked x (fun r n => k))
  (at level 200, r name, n name, x at level 100, k at level 200, right associativity) : redis_scope.

(** ** Functions that load

    They return [None] (the [NULL] or -1 of the code) on an error. *)
Definition loaded {A B} (x : option (rio * option A)) (k : rio -> A -> option (rio * option B)) : option (rio * option B) :=
  '(r, o) ← x;
  match o with None => Some (r, None) | Some a => k r a end.

Notation "'let?' r a := x 'in' k" := (loaded x (fun r a => k))
  (at level 200, r name, a name, x at level 100, k at level 200, right associativity) : redis_scope.

Section contracts.
Variables (table : crctable) (addr : Z) (rdb_checksum : bool).
Hypothesis Htable : table_ok (lstep RPOLY) id table.

#[local] Abbreviation wrote := (wrote rdb_checksum).
#[local] Abbreviation took := (took rdb_checksum).

(** [f] writes [bs] and returns [v], or fails when [bs] does not fit. *)
Record writes (f : option rio -> option (option rio * Z)) (bs : bytes) (v : Z) : Prop := {
  writes_bytes : bytes_ok bs;
  writes_value : v <> -1;
  writes_null : f None = Some (None, v);
  writes_rio r : rio_ok r -> write_error r = false -> zlen (ptr r) + zlen bs < 2 ^ 63 ->
    exists r' n, f (Some r) = Some (Some r', n) /\
      ((fits r bs /\ n = v /\ wrote r bs r') \/ (~ fits r bs /\ n = -1 /\ broken r bs r'));
}.

Lemma writes_ret v : v <> -1 -> writes (fun rdb => Some (rdb, v)) [] v.
Proof using Type.
  intros Hv. split; [done|done|done|]. intros r Hr He _. exists r, v. split; [done|]. left.
  split; [|split; [done|apply wrote_refl]]. pose proof (rio_room r Hr). unfold fits. by destruct (room r).
Qed.

Lemma writes_checked f k a b n v : writes f a n -> writes (fun rdb => k rdb n) b v ->
  writes (fun rdb => checked (f rdb) k) (a ++ b) v.
Proof using Type.
  intros [Ha Hn Hf0 Hf] [Hb Hv Hk0 Hk]. split; [by apply Forall_app|done| |].
  - unfold checked. rewrite Hf0. cbn [mbind option_bind]. by rewrite decide_False.
  - intros r Hr He Hl. rewrite zlen_app in Hl. pose proof (zlen_nonneg a). pose proof (zlen_nonneg b).
    unfold checked. destruct (Hf r Hr He ltac:(lia)) as (r1 & m & -> & [(Hfit & -> & Hw)|(Hfit & -> & Hbr)]);
      cbn [mbind option_bind].
    + rewrite decide_False by done. pose proof (fits_app _ r a r1 b Hw) as Hfa.
      assert (zlen (ptr r1) = zlen (ptr r) + zlen a) as Hp by (by rewrite (wrote_ptr _ _ _ _ Hw), zlen_app).
      destruct (Hk r1) as (r2 & m & -> & Hres); [eapply wrote_ok; eauto; lia|by rewrite (wrote_error _ _ _ _ Hw)|lia|].
      exists r2, m. split; [done|]. destruct Hres as [(? & -> & Hw2)|(? & -> & Hb2)].
      * left. split; [tauto|]. split; [done|]. by eapply wrote_trans.
      * right. split; [tauto|]. split; [done|]. by eapply broken_after.
    + rewrite decide_True by done. exists r1, (-1). split; [done|]. right. split; [|split; [done|by apply broken_more]].
      intros Hfit'. apply Hfit. unfold fits in *. destruct (room r); [|done]. rewrite zlen_app in Hfit'. lia.
Qed.

Lemma writes_ext f g bs v : (forall rdb, g rdb = f rdb) -> writes f bs v -> writes g bs v.
Proof using Type.
  intros He [Hb Hv H0 Hf]. split; [done|done|by rewrite He|]. intros r Hr. rewrite He. by apply Hf.
Qed.

(** [f] reads exactly [bs] and returns [x], or fails when the stream ends within
    [bs]. *)
Record reads {A} (f : rio -> option (rio * option A)) (bs : bytes) (x : A) : Prop := {
  reads_full r rest : rio_ok r -> read_error r = false -> ahead r (bs ++ rest) ->
    exists r', f r = Some (r', Some x) /\ took r bs r';
  reads_short r p q : rio_ok r -> read_error r = false -> bs = p ++ q -> q <> [] -> ahead r p ->
    exists r', f r = Some (r', None);
}.

Lemma reads_ret {A} (x : A) : reads (fun r => Some (r, Some x)) [] x.
Proof using Type.
  split.
  - intros r rest _ _ _. exists r. split; [done|apply took_refl].
  - intros r p q _ _ Hpq Hq. by destruct p, q.
Qed.

Lemma ahead_bytes r a b : rio_ok r -> ahead r (a ++ b) -> bytes_ok a /\ pos r + zlen a <= zlen (ptr r).
Proof using Type.
  intros Hr Ha. split.
  - assert (bytes_ok (a ++ b)) as [? _]%Forall_app by (rewrite <- Ha; apply Forall_drop, (rio_bytes r Hr)). done.
  - pose proof (f_equal zlen Ha) as Hl. rewrite zlen_drop, zlen_app in Hl. pose proof (zlen_nonneg b).
    pose proof (rio_pos r Hr). pose proof (zlen_nonneg a). lia.
Qed.

Lemma reads_loaded {A B} (f : rio -> option (rio * option A)) (k : rio -> A -> option (rio * option B)) a b x y :
  reads f a x -> reads (fun r => k r x) b y -> reads (fun r => loaded (f r) k) (a ++ b) y.
Proof using Type.
  intros Hf Hk. split.
  - intros r rest Hr He Ha. rewrite <- app_assoc in Ha. destruct (reads_full _ _ _ Hf r _ Hr He Ha) as (r1 & E & Ht).
    unfold loaded. rewrite E. cbn [mbind option_bind]. destruct (ahead_bytes _ _ _ Hr Ha) as [Hb Hl].
    destruct (reads_full _ _ _ Hk r1 rest) as (r2 & -> & Ht2).
    + by eapply took_ok.
    + by rewrite (took_rerror _ _ _ _ Ht).
    + by eapply ahead_took.
    + exists r2. split; [done|]. by eapply took_trans.
  - intros r p q Hr He Hpq Hq Ha. unfold loaded. apply app_eq_app in Hpq as (l & [[-> ->]|[-> ->]]).
    + destruct l as [|c l].
      * rewrite !app_nil_r in *. cbn [app] in *.
        destruct (reads_full _ _ _ Hf r [] Hr He) as (r1 & -> & Ht); [by rewrite app_nil_r|].
        cbn [mbind option_bind]. rewrite <- (app_nil_r p) in Ha. destruct (ahead_bytes _ _ _ Hr Ha) as [Hb Hl].
        apply (reads_short _ _ _ Hk r1 [] b); [by eapply took_ok|by rewrite (took_rerror _ _ _ _ Ht)|done|done|by eapply ahead_took].
      * destruct (reads_short _ _ _ Hf r p (c :: l) Hr He eq_refl ltac:(done) Ha) as (r1 & ->). by eexists.
    + destruct (reads_full _ _ _ Hf r l Hr He Ha) as (r1 & -> & Ht). cbn [mbind option_bind].
      destruct (ahead_bytes _ _ _ Hr Ha) as [Hb Hl].
      apply (reads_short _ _ _ Hk r1 l q); [by eapply took_ok|by rewrite (took_rerror _ _ _ _ Ht)|done|done|by eapply ahead_took].
Qed.

Lemma reads_ext {A} (f g : rio -> option (rio * option A)) bs x :
  (forall r, g r = f r) -> reads f bs x -> reads g bs x.
Proof using Type.
  intros He [Hf Hs]. split.
  - intros r rest. rewrite He. apply Hf.
  - intros r p q. rewrite He. apply Hs.
Qed.

Lemma reads_raw bs n : zlen bs = n -> reads (fun r => rioRead table addr rdb_checksum r n) bs bs.
Proof using Htable.
  intros <-. split.
  - intros r rest Hr He Ha. by eapply rioRead_ok.
  - intros r p q Hr He -> Hq Ha. destruct (rioRead_short table addr rdb_checksum Htable r p (zlen (p ++ q)) Hr He Ha) as (r' & -> & _).
    + rewrite zlen_app. destruct q; [done|]. rewrite zlen_cons. pose proof (zlen_nonneg q). lia.
    + by eexists.
Qed.
End contracts.
