(* ===== verification/AofFile.v ===== *)
(** * The append only file: writing and replaying commands (aof.c, server.c)

    The text of the append only file: what [propagatePendingCommands] (server.c)
    and [feedAppendOnlyFile] (aof.c) append for an execution unit, and the loop
    of [loadSingleAppendOnlyFile] that replays a file, with its transactions,
    its truncation of a torn tail and its errors.

    A string is the list of its characters (Sds.v is about the blocks).  The
    command table is the parameter [lookup]: commands.def is generated.  The
    dataset is a type [D]; [exec d id argv] is the effect of the command [argv]
    on [d] when the database [id] is selected; [rdb_load] is rdbLoadRio on the
    bytes of a file, [None] when it fails.  A client without a connection gets
    no reply (prepareClientToWrite), so an error reply is no effect here.

    Theorems: replaying what was fed gives the dataset the server had; a file
    that stops anywhere gives the dataset after its last complete execution
    unit, and is cut there. *)

From Stdlib Require Import String.
From S2P Require Import Prelude Util Sds SdsText.

#[local] Set Default Proof Using "Type".

(** The arguments of a command. *)
Notation args := (list bytes).

(** The names of the commands that the server itself propagates. *)
Definition SELECT : bytes := lit "SELECT".
Definition MULTI : bytes := lit "MULTI".
Definition EXEC : bytes := lit "EXEC".

Definition crlf : bytes := [13; 10].

(** ** Writing *)

(** [printf] with a percent sign and d, ld or lld. *)
Definition fmt_d (v : Z) : bytes :=
  if decide (v < 0) then ch_minus :: ndig (Z.to_nat (digits10 (- v))) (- v) else ndig (Z.to_nat (digits10 v)) v.

Section feed.
Variable junk : nat -> Z.

(** The use of the local array [buf] of 32 bytes: [c], [n] in decimal, CR and
    LF. *)
Definition header (c n : Z) : option bytes :=
  '(digits, l) ← ll2string (junk <$> seq 1 31) 31 n;
  buf ← poke (c :: digits) (1 + l) 13;
  buf ← poke buf (1 + l + 1) 10;
  mem_read buf 0 (1 + l + 1 + 1).

Fixpoint cat_args (dst : bytes) (argv : args) : option bytes :=
  match argv with
  | [] => Some dst
  | o :: argv =>
      buf ← header 36 (zlen o);
      cat_args (dst ++ buf ++ o ++ crlf) argv
  end.

Definition catAppendOnlyGenericCommand (dst : bytes) (argv : args) : option bytes :=
  buf ← header 42 (zlen argv);
  cat_args (dst ++ buf) argv.

(** The annotation and the new [aof_cur_timestamp]; [now] is [time(NULL)]. *)
Definition genAofTimestampAnnotationIfNeeded (force : bool) (aof_cur_timestamp unixtime now : Z) : option (option bytes * Z) :=
  if decide (force = true \/ aof_cur_timestamp < unixtime) then
    let cur := if force then now else unixtime in
    text ← conv_bytes junk 73 (ArgLL cur);
    let ts := lit "#TS:" ++ text ++ crlf in
    _ ← assert (zlen ts <= 1024);
    Some (Some ts, cur)
  else Some (None, aof_cur_timestamp).

(** What [feedAppendOnlyFile] keeps between two calls. *)
Record feed_state := FeedState { aof_selected_db : Z; aof_cur_timestamp : Z }.

(** The text that [feedAppendOnlyFile] makes in its local [buf]. *)
Definition feed_text (dbnum : Z) (aof_timestamp_enabled : bool) (unixtime : Z) (dictid : Z) (argv : args) (st : feed_state) : option (bytes * feed_state) :=
  _ ← assert (dictid = -1 \/ (dictid >= 0 /\ dictid < dbnum));
  '(ts, cur) ← (if aof_timestamp_enabled then genAofTimestampAnnotationIfNeeded false (aof_cur_timestamp st) unixtime unixtime
                else Some (None, aof_cur_timestamp st));
  let buf := default [] ts in
  let '(buf, selected) :=
    if decide (dictid <> -1 /\ dictid <> aof_selected_db st) then
      let seldb := fmt_d dictid in
      (buf ++ lit "*2" ++ crlf ++ lit "$6" ++ crlf ++ SELECT ++ crlf ++ lit "$" ++ fmt_d (zlen seldb) ++ crlf ++ seldb ++ crlf, dictid)
    else (buf, aof_selected_db st) in
  buf ← catAppendOnlyGenericCommand buf argv;
  Some (buf, FeedState selected cur).

(** The operations of one execution unit, [server.also_propagate]: pairs of a
    database and a command. *)
Notation ops := (list (Z * args)).

(** The calls of [propagateNow] for a unit; [arbitrary] is the flag
    CMD_TOUCHES_ARBITRARY_KEYS of the current command.  The target of every
    operation includes the log: operations for replicas only are not part of
    [unit_ops]. *)
Definition propagate_calls (arbitrary : bool) (unit_ops : ops) : ops :=
  let transaction := bool_decide (zlen unit_ops > 1) && negb arbitrary in
  (if transaction then [(-1, [MULTI])] else []) ++ unit_ops ++ (if transaction then [(-1, [EXEC])] else []).

(** The text for a sequence of calls. *)
Fixpoint feed_all (dbnum : Z) (ts_enabled : bool) (unixtime : Z) (calls : ops) (st : feed_state) : option (bytes * feed_state) :=
  match calls with
  | [] => Some ([], st)
  | (dictid, argv) :: calls =>
      '(text, st) ← feed_text dbnum ts_enabled unixtime dictid argv st;
      '(texts, st) ← feed_all dbnum ts_enabled unixtime calls st;
      Some (text ++ texts, st)
  end.
End feed.

(** ** Reading *)

(** At most [n] characters, up to and with a newline. *)
Fixpoint fgets_loop (n : nat) (rest : bytes) : bytes * bytes :=
  match n, rest with
  | S n, c :: rest =>
      if decide (c = 10) then ([c], rest) else let '(line, rest) := fgets_loop n rest in (c :: line, rest)
  | _, _ => ([], rest)
  end.

(** [fgets(buf, size, fp)]: the line and the rest of the stream; [None] is
    [NULL] at the end of the file. *)
Definition fgets (size : Z) (rest : bytes) : option (bytes * bytes) :=
  match rest with [] => None | _ => Some (fgets_loop (Z.to_nat (size - 1)) rest) end.

(** [feof] after an [fgets] that gave [line]. *)
Definition feof (size : Z) (line rest : bytes) : bool :=
  bool_decide (rest = [] /\ zlen line < size - 1 /\ last line <> Some 10).

Fixpoint take_digits (s : bytes) : bytes :=
  match s with
  | c :: s => if decide (ch_0 <= c <= ch_9) then c :: take_digits s else []
  | [] => []
  end.

Fixpoint skip_spaces (s : bytes) : bytes :=
  match s with
  | c :: s' => if isspace c then skip_spaces s' else s
  | [] => []
  end.

(** [strtol(s, NULL, 10)] and [strtoll], of the 64-bit [long]: an optional sign
    and digits after blanks; saturates. *)
Definition strtol (s : bytes) : Z :=
  let s := skip_spaces s in
  let '(negative, s) :=
    match s with
    | c :: s' => if decide (c = ch_minus) then (true, s') else if decide (c = 43) then (false, s') else (false, s)
    | [] => (false, s)
    end in
  let v := dval 0 (take_digits s) in
  if negative then Z.max (- v) LLONG_MIN else Z.min v LLONG_MAX.

Definition atoi (s : bytes) : Z := i32 (strtol s).

Definition AOF_ANNOTATION_LINE_MAX_LEN : Z := 1024.

(** The result of reading one command: the arguments and the rest, or one of
    the jumps to [readerr] and [fmterr]. *)
Inductive parsed := PCmd (argv : args) (rest : bytes) | PRead | PFmt.

(** The [for] loop over the arguments.  [sdsnewlen] asserts that its size does
    not overflow. *)
Fixpoint read_args (fuel : nat) (j argc : Z) (rest : bytes) (argv : args) : option parsed :=
  if decide (j < argc) then
    match fuel with
    | O => None
    | S fuel =>
        match fgets AOF_ANNOTATION_LINE_MAX_LEN rest with
        | None => Some PRead
        | Some (buf, rest) =>
            if decide (head buf <> Some 36) then Some PFmt
            else
              let len := u64 (strtol (cstr (tail buf))) in
              _ ← assert (u64 (len + 17 + 1) > len);
              if decide (len <> 0 /\ zlen rest < len) then Some PRead
              else
                let arg := take (Z.to_nat len) rest in
                let rest := drop (Z.to_nat len) rest in
                if decide (zlen rest < 2) then Some PRead
                else read_args fuel (j + 1) argc (drop 2 rest) (argv ++ [arg])
        end
    end
  else Some (PCmd argv rest).

(** What matters of a [struct redisCommand] here: its [proc]. *)
Inductive proc := selectCommand | multiCommand | execCommand | discardCommand | otherCommand.

#[global] Instance proc_eq_dec : EqDecision proc.
Proof. solve_decision. Defined.

Inductive aof_ret := AOF_OK | AOF_NOT_EXIST | AOF_EMPTY | AOF_OPEN_ERR | AOF_FAILED | AOF_TRUNCATED.

#[global] Instance aof_ret_eq_dec : EqDecision aof_ret.
Proof. solve_decision. Defined.

Section load.
Context {D : Type} (exec : D -> Z -> args -> D) (lookup : args -> option proc) (dbnum : Z).

(** The selected database and the dataset. *)
Notation client := (Z * D)%type.

(** [selectCommand], not in cluster mode. *)
Definition select_db (id : Z) (argv : args) : option Z :=
  arg ← argv !! 1%nat;
  r ← string2ll arg (zlen arg);
  Some (match r with
        | Some v => if decide (INT32_MIN <= v <= INT32_MAX /\ 0 <= v < dbnum) then v else id
        | None => id
        end).

(** A [proc] that runs with no transaction pending, [multi] false, or from
    [execCommand], [multi] true: MULTI and DISCARD then refer to the transaction
    itself ([None]: DISCARD frees the queue that is being run). *)
Definition call_proc (multi : bool) (p : proc) (argv : args) (c : client) : option client :=
  let '(id, d) := c in
  match p with
  | selectCommand => id ← select_db id argv; Some (id, d)
  | otherCommand => Some (id, exec d id argv)
  | multiCommand | execCommand => Some c
  | discardCommand => if multi then None else Some c
  end.

Fixpoint exec_queue (queue : list (proc * args)) (c : client) : option client :=
  match queue with
  | [] => Some c
  | (p, argv) :: queue => c ← call_proc true p argv c; exec_queue queue c
  end.

(** The state of the loading loop: the fake client, with the queue of its
    transaction when CLIENT_MULTI is set, and the two offsets. *)
Record lstate := LState {
  l_client : client;
  l_multi : option (list (proc * args));
  valid_up_to : Z;
  valid_before_multi : Z;
}.

(** One command in the context of the fake client. *)
Definition run_command (p : proc) (argv : args) (c : client) (multi : option (list (proc * args))) : option (client * option (list (proc * args))) :=
  match multi with
  | Some queue =>
      if decide (p <> execCommand) then Some (c, Some (queue ++ [(p, argv)]))
      else c ← exec_queue queue c; Some (c, None)
  | None =>
      c ← call_proc false p argv c;
      Some (c, if decide (p = multiCommand) then Some [] else None)
  end.

(** How the loop ends: at the end of the file, with an unexpected end of file
    (a jump to [uxeof]), or with AOF_FAILED. *)
Inductive lend := EndOk | EndEof | EndFailed.

Definition load_round (aof_load_truncated : bool) (total : Z) (argv : args) (rest : bytes) (st : lstate) : option (option lstate) :=
  match lookup argv with
  | None => Some None
  | Some p =>
      let before := if decide (p = multiCommand) then valid_up_to st else valid_before_multi st in
      '(c, multi) ← run_command p argv (l_client st) (l_multi st);
      Some (Some (LState c multi (if aof_load_truncated then total - zlen rest else valid_up_to st) before))
  end.

Fixpoint load_loop (fuel : nat) (aof_load_truncated : bool) (total : Z) (rest : bytes) (st : lstate) : option (lend * lstate) :=
  match fuel with
  | O => None
  | S fuel =>
      match fgets AOF_ANNOTATION_LINE_MAX_LEN rest with
      | None =>
          match l_multi st with
          | Some _ => Some (EndEof, LState (l_client st) (l_multi st) (valid_before_multi st) (valid_before_multi st))
          | None => Some (EndOk, st)
          end
      | Some (buf, rest) =>
          if decide (head buf = Some 35) then load_loop fuel aof_load_truncated total rest st
          else if decide (head buf <> Some 42) then Some (EndFailed, st)
          else if decide (cstr (tail buf) = []) then
            Some (if feof AOF_ANNOTATION_LINE_MAX_LEN buf rest then EndEof else EndFailed, st)
          else
            let argc := atoi (cstr (tail buf)) in
            if decide (argc < 1) then Some (EndFailed, st)
            else
              r ← read_args (S (length rest)) 0 argc rest [];
              match r with
              | PRead => Some (EndEof, st)
              | PFmt => Some (EndFailed, st)
              | PCmd argv rest =>
                  r ← load_round aof_load_truncated total argv rest st;
                  match r with
                  | None => Some (EndFailed, st)
                  | Some st => load_loop fuel aof_load_truncated total rest st
                  end
              end
      end
  end.

(** rdbLoadRio on the file: the dataset and what follows the RDB part. *)
Variable rdb_load : D -> bytes -> option (D * bytes).

Definition REDIS : bytes := lit "REDIS".

(** [loadSingleAppendOnlyFile] on a file that exists, of contents [file]: the
    status, the dataset, and the contents of the file after it.  [truncate_ok]
    is the result of [truncate]; [lseek] is not called when [server.aof_fd] is
    -1, as at startup. *)
Definition loadSingleAppendOnlyFile (aof_load_truncated truncate_ok : bool) (file : bytes) (d : D) : option (aof_ret * D * bytes) :=
  if decide (file = []) then Some (AOF_EMPTY, d, file)
  else
    match (if decide (take 5 file = REDIS) then rdb_load d file else Some (d, file)) with
    | None => Some (AOF_FAILED, d, file)
    | Some (d, rest) =>
        '(e, st) ← load_loop (S (length rest)) aof_load_truncated (zlen file) rest (LState (0, d) None 0 0);
        let d := (l_client st).2 in
        match e with
        | EndOk => Some (AOF_OK, d, file)
        | EndFailed => Some (AOF_FAILED, d, file)
        | EndEof =>
            if aof_load_truncated && truncate_ok then Some (AOF_TRUNCATED, d, take (Z.to_nat (valid_up_to st)) file)
            else Some (AOF_FAILED, d, file)
        end
    end.
End load.

Arguments LState {D}.
Arguments l_client {D}.
Arguments l_multi {D}.
Arguments valid_up_to {D}.
Arguments valid_before_multi {D}.

(** ** The text of a command *)

Definition arg_bytes (o : bytes) : bytes := 36 :: fmt_d (zlen o) ++ crlf ++ o ++ crlf.
Definition cmd_bytes (argv : args) : bytes := 42 :: fmt_d (zlen argv) ++ crlf ++ concat (arg_bytes <$> argv).
Definition log_bytes (cs : list args) : bytes := concat (cmd_bytes <$> cs).

(** A command the parser's integers can hold. *)
Definition cmd_ok (argv : args) : Prop :=
  1 <= zlen argv <= INT32_MAX /\ Forall (fun o : bytes => zlen o < 2 ^ 61) argv.

Lemma fmt_d_sdecimal v : in_i 64 v -> sdecimal (fmt_d v) v.
Proof.
  unfold in_i, fmt_d. intros Hv. case_decide.
  - right. split; [done|]. eexists. split; [done|]. apply ndig_digits10. unfold in_u. lia.
  - left. split; [lia|]. apply ndig_digits10. unfold in_u. lia.
Qed.

Lemma fmt_d_nat n : 0 <= n < 2 ^ 63 -> udecimal (fmt_d n) n.
Proof. intros Hn. unfold fmt_d. rewrite decide_False by lia. apply ndig_digits10. unfold in_u. lia. Qed.

Lemma zlen_fmt_d v : in_i 64 v -> 0 < zlen (fmt_d v) < 21.
Proof. intros Hv. apply (sdecimal_short _ v); [by apply fmt_d_sdecimal|done]. Qed.

Lemma poke_cell {A} (l r : list A) x y : poke (l ++ x :: r) (zlen l) y = Some (l ++ y :: r).
Proof. rewrite poke_splice by zlia. rewrite splice_app_r by lia. by rewrite Z.sub_diag. Qed.

Lemma header_ok junk c n : in_i 64 n -> header junk c n = Some (c :: fmt_d n ++ crlf).
Proof.
  intros Hn. unfold header. set (buf := junk <$> seq 1 31). assert (zlen buf = 31) as Hb by done. clearbody buf.
  destruct (ll2string_ok buf 31 n Hn) as (str & Hs & Hok & _); [lia|].
  rewrite (sdecimal_inj _ _ _ Hs (fmt_d_sdecimal n Hn)) in *. pose proof (zlen_fmt_d n Hn) as Hl. rewrite Hok by lia. cbn [mbind option_bind].
  set (ds := fmt_d n) in *. clearbody ds. clear Hok Hs.
  assert (exists post, splice buf 0 (ds ++ [ch_nul]) = ds ++ [ch_nul] ++ post /\ zlen post = 30 - zlen ds) as (post & -> & Hp).
  { exists (drop (length (ds ++ [ch_nul])) buf). unfold splice. change (Z.to_nat 0) with 0%nat.
    rewrite take_0, app_nil_l, <- app_assoc. split; [reflexivity|].
    rewrite zlen_drop, length_app. unfold zlen in *. simpl. lia. }
  destruct post as [|x post]; [change (zlen []) with 0 in Hp; lia|].
  change (c :: ds ++ [ch_nul] ++ x :: post) with ((c :: ds) ++ ch_nul :: x :: post).
  replace (1 + zlen ds) with (zlen (c :: ds)) by zlia. rewrite poke_cell. cbn [mbind option_bind].
  replace ((c :: ds) ++ 13 :: x :: post) with ((c :: ds ++ [13]) ++ x :: post) by (cbn [app]; by rewrite <- app_assoc).
  replace (zlen (c :: ds) + 1) with (zlen (c :: ds ++ [13])) by zlia. rewrite poke_cell. cbn [mbind option_bind].
  replace ((c :: ds ++ [13]) ++ 10 :: post) with ((c :: ds ++ crlf) ++ post) by (unfold crlf; cbn [app]; by rewrite <- !app_assoc).
  rewrite mem_read_Some by (unfold crlf; zlia). rewrite slice_app_l by (unfold crlf; zlia). f_equal. apply slice_full. unfold crlf. zlia.
Qed.

Lemma cat_args_ok junk dst argv : Forall (fun o : bytes => zlen o < 2 ^ 61) argv -> cat_args junk dst argv = Some (dst ++ concat (arg_bytes <$> argv)).
Proof.
  intros H. revert dst. induction H as [|o argv Ho _ IH]; intros dst; cbn [cat_args fmap list_fmap concat]; [by rewrite app_nil_r|].
  rewrite header_ok by (unfold in_i; zlia). cbn [mbind option_bind]. rewrite IH. unfold arg_bytes. f_equal.
  repeat (rewrite <- app_assoc || cbn [app]). done.
Qed.

Lemma catAppendOnlyGenericCommand_ok junk dst argv : cmd_ok argv -> catAppendOnlyGenericCommand junk dst argv = Some (dst ++ cmd_bytes argv).
Proof.
  intros [Hn Ha]. unfold catAppendOnlyGenericCommand. rewrite header_ok by (unfold in_i, INT32_MAX in *; lia). cbn [mbind option_bind].
  rewrite cat_args_ok by done. unfold cmd_bytes. f_equal. repeat (rewrite <- app_assoc || cbn [app]). done.
Qed.


(** ** Lines and numbers *)

Lemma fgets_line size l rest : 10 ∉ l -> zlen l < size - 1 -> fgets size (l ++ 10 :: rest) = Some (l ++ [10], rest).
Proof.
  intros Hl Hz. assert (fgets size (l ++ 10 :: rest) = Some (fgets_loop (Z.to_nat (size - 1)) (l ++ 10 :: rest))) as -> by by destruct l.
  f_equal. assert (length l < Z.to_nat (size - 1))%nat as Hn by (unfold zlen in Hz; lia). clear Hz. revert Hn. generalize (Z.to_nat (size - 1)) as n.
  induction l as [|c l IH]; intros n Hn; (destruct n as [|n]; [simpl in Hn; lia|]); cbn [app fgets_loop].
  - by rewrite decide_True.
  - apply not_elem_of_cons in Hl as [Hc Hl]. rewrite decide_False by done. rewrite IH; [done|done|simpl in Hn; lia].
Qed.

Lemma fgets_last size l : l <> [] -> 10 ∉ l -> zlen l <= size - 1 -> fgets size l = Some (l, []).
Proof.
  intros Hne Hl Hz. assert (fgets size l = Some (fgets_loop (Z.to_nat (size - 1)) l)) as -> by by destruct l.
  f_equal. assert (length l <= Z.to_nat (size - 1))%nat as Hn by (unfold zlen in Hz; lia). clear Hz Hne. revert Hn. generalize (Z.to_nat (size - 1)) as n.
  induction l as [|c l IH]; intros n Hn; [by destruct n|]. destruct n as [|n]; [simpl in Hn; lia|]. cbn [fgets_loop].
  apply not_elem_of_cons in Hl as [Hc Hl]. rewrite decide_False by done. rewrite IH; [done|done|simpl in Hn; lia].
Qed.

Lemma digits_no c l : Forall digit l -> ~ digit c -> c ∉ l.
Proof. intros Hl Hc Hin. rewrite Forall_forall in Hl. by apply Hc, Hl. Qed.

Lemma take_digits_all l : Forall digit l -> take_digits l = l.
Proof. induction 1 as [|c l Hc _ IH]; [done|]. cbn [take_digits]. rewrite decide_True by exact Hc. by rewrite IH. Qed.

Lemma take_digits_app l c rest : Forall digit l -> ~ digit c -> take_digits (l ++ c :: rest) = l.
Proof.
  intros Hl Hc. induction Hl as [|b l Hb _ IH]; cbn [app take_digits]; [by rewrite decide_False by exact Hc|].
  rewrite decide_True by exact Hb. by rewrite IH.
Qed.

(** [strtol] stops after the digits. *)
Lemma strtol_digits ds rest : Forall digit ds -> ds <> [] \/ rest = [] -> match rest with [] => True | c :: _ => ~ digit c end -> dval 0 ds <= LLONG_MAX ->
  strtol (ds ++ rest) = dval 0 ds.
Proof.
  intros Hd Hne Hc Hv. assert (take_digits (ds ++ rest) = ds) as E.
  { destruct rest as [|c rest]; [rewrite app_nil_r; by apply take_digits_all|by apply take_digits_app]. }
  unfold strtol. destruct ds as [|c ds].
  - destruct Hne as [?| ->]; [done|]. done.
  - inversion Hd as [|? ? Hdc Hds]; subst. unfold digit in Hdc. cbn [app] in *. cbn [skip_spaces].
    assert (isspace c = false) as ->. { unfold isspace. apply bool_decide_eq_false. lia. }
    rewrite decide_False by lia. rewrite decide_False by lia. rewrite E. lia.
Qed.

Lemma dval_prefix l k : Forall digit (l ++ k) -> dval 0 l <= dval 0 (l ++ k).
Proof. intros [Hl Hk]%Forall_app. rewrite dval_app. apply dval_ge; [done|]. by apply dval_bound. Qed.

Lemma cstr_clean l : 0 ∉ l -> cstr l = l.
Proof. induction l as [|c l IH]; intros H; [done|]. apply not_elem_of_cons in H as [Hc Hl]. cbn [cstr]. rewrite decide_False by done. by rewrite IH. Qed.

(** ** Prefixes *)

(** [p] is a proper prefix of [l]. *)
Definition torn {A} (p l : list A) : Prop := exists q, q <> [] /\ l = p ++ q.

Lemma torn_app {A} (p a b : list A) : torn p (a ++ b) -> torn p a \/ exists p', p = a ++ p' /\ torn p' b.
Proof.
  intros (q & Hq & E). symmetry in E. apply app_eq_inv in E as [(k & -> & ->)|(k & -> & ->)].
  - right. exists k. split; [done|]. by exists q.
  - destruct k as [|x k]; [right; exists []; rewrite !app_nil_r; split; [done|by exists b]|left; by exists (x :: k)].
Qed.

Lemma torn_cons {A} (p : list A) x l : torn p (x :: l) -> p = [] \/ exists p', p = x :: p' /\ torn p' l.
Proof. intros (q & Hq & E). destruct p as [|y p]; [by left|]. injection E as <- ->. right. exists p. split; [done|]. by exists q. Qed.

Lemma torn_length {A} (p l : list A) : torn p l -> (length p < length l)%nat.
Proof. intros (q & Hq & ->). rewrite length_app. destruct q; [done|simpl; lia]. Qed.

(** ** Reading a command back *)

(** A header line: the character [c] and a number. *)
Lemma header_line c n rest : 0 <= n < 2 ^ 61 -> c <> 10 ->
  fgets AOF_ANNOTATION_LINE_MAX_LEN (c :: fmt_d n ++ crlf ++ rest) = Some (c :: fmt_d n ++ crlf, rest) /\
  cstr (fmt_d n ++ crlf) = fmt_d n ++ crlf /\ strtol (fmt_d n ++ crlf) = n.
Proof.
  intros Hn Hc. destruct (fmt_d_nat n ltac:(lia)) as (Hne & Hd & Hv & _). pose proof (zlen_fmt_d n ltac:(unfold in_i; lia)) as Hz. split_and!.
  - replace (c :: fmt_d n ++ crlf ++ rest) with ((c :: fmt_d n ++ [13]) ++ 10 :: rest) by (cbn [app]; by rewrite <- app_assoc).
    rewrite fgets_line; [by cbn [app]; rewrite <- app_assoc| |].
    + rewrite not_elem_of_cons, not_elem_of_app. split_and!; [done|apply digits_no; [done|unfold digit; lia]|set_solver].
    + unfold AOF_ANNOTATION_LINE_MAX_LEN. zlia.
  - apply cstr_clean. rewrite not_elem_of_app. split; [apply digits_no; [done|unfold digit; lia]|set_solver].
  - rewrite strtol_digits; [done|done|by left|unfold crlf, digit; lia|unfold LLONG_MAX; lia].
Qed.

(** A header line that stops before its newline. *)
Lemma header_torn c n p : 0 <= n < 2 ^ 61 -> c <> 10 -> torn p (fmt_d n ++ crlf) ->
  fgets AOF_ANNOTATION_LINE_MAX_LEN (c :: p) = Some (c :: p, []) /\ cstr p = p /\ 0 <= strtol p <= n /\ (p <> [] -> 1 <= n -> 1 <= strtol p).
Proof.
  intros Hn Hc Hp. destruct (fmt_d_nat n ltac:(lia)) as (Hne & Hd & Hv & Hlead). pose proof (zlen_fmt_d n ltac:(unfold in_i; lia)) as Hz.
  assert (exists ds rest q, p = ds ++ rest /\ fmt_d n = ds ++ q /\ (rest = [] \/ (q = [] /\ rest = [13]))) as (ds & rest & q & -> & E & Hr).
  { apply torn_app in Hp as [(q & _ & E)|(p' & -> & Hp)].
    - exists p, [], q. rewrite app_nil_r. split_and!; [done|done|by left].
    - exists (fmt_d n), p', []. rewrite app_nil_r. split_and!; [done|done|]. apply torn_cons in Hp as [->|(p2 & -> & Hp)]; [by left|right].
      apply torn_cons in Hp as [->|(p3 & -> & Hp)]; [done|]. apply torn_length in Hp. simpl in Hp. lia. }
  rewrite E in Hd. pose proof (proj1 (Forall_app _ _ _) Hd) as [Hds _]. pose proof (dval_prefix ds q Hd) as Hle. rewrite <- E, Hv in Hle.
  assert (10 ∉ ds ++ rest) as H10. { rewrite not_elem_of_app. split; [apply digits_no; [done|unfold digit; lia]|]. destruct Hr as [->|[_ ->]]; set_solver. }
  assert (zlen (ds ++ rest) < 22) as Hl. { rewrite zlen_app. rewrite E, zlen_app in Hz. pose proof (zlen_nonneg q). destruct Hr as [->|[_ ->]]; zlia. }
  assert (strtol (ds ++ rest) = dval 0 ds) as Hs.
  { apply strtol_digits; [done| | |unfold LLONG_MAX; lia].
    - destruct Hr as [->|[-> ->]]; [by right|left; by rewrite app_nil_r in E; congruence].
    - destruct Hr as [->|[_ ->]]; [done|]. unfold digit. lia. }
  rewrite Hs. split_and!; [| |by apply dval_bound|done|].
  - apply fgets_last; [done|rewrite not_elem_of_cons; done|]. unfold AOF_ANNOTATION_LINE_MAX_LEN. rewrite zlen_cons. lia.
  - apply cstr_clean. rewrite not_elem_of_app. split; [apply digits_no; [done|unfold digit; lia]|]. destruct Hr as [->|[_ ->]]; set_solver.
  - intros Hpne Hn1. destruct ds as [|x ds]; [destruct Hr as [->|[-> ->]]; [done|]; by rewrite E in Hne|].
    assert (x <> ch_0) as Hx. { intros ->. rewrite E in Hlead, Hv. cbn [app] in Hlead, Hv. specialize (Hlead _ eq_refl). rewrite Hlead in Hv. simpl in Hv. lia. }
    inversion Hds as [|? ? Hxd Hds']; subst. unfold digit in Hxd. cbn [dval]. pose proof (dval_ge ds (10 * 0 + (x - 48)) Hds' ltac:(lia)). lia.
Qed.

(** One turn of the argument loop on a complete argument. *)
Lemma read_arg_step fuel j argc o rest acc : j < argc -> zlen o < 2 ^ 61 ->
  read_args (S fuel) j argc (arg_bytes o ++ rest) acc = read_args fuel (j + 1) argc rest (acc ++ [o]).
Proof.
  intros Hj Ho. pose proof (zlen_nonneg o) as Hnn. destruct (header_line 36 (zlen o) (o ++ crlf ++ rest)) as (Hg & Hc & Hs); [lia|done|].
  cbn [read_args]. rewrite (decide_True (P := j < argc)) by done.
  replace (arg_bytes o ++ rest) with (36 :: fmt_d (zlen o) ++ crlf ++ o ++ crlf ++ rest) by (unfold arg_bytes; repeat (rewrite <- app_assoc || cbn [app]); done).
  rewrite Hg. cbn [head tail]. rewrite decide_False by (intros H; by apply H). rewrite Hc, Hs, (u64_small (zlen o)) by lia.
  rewrite assert_True by (rewrite u64_small by lia; lia). cbn [mbind option_bind].
  rewrite decide_False by (rewrite zlen_app; pose proof (zlen_nonneg (crlf ++ rest)); lia).
  replace (Z.to_nat (zlen o)) with (length o) by (unfold zlen; lia). rewrite take_app_length, drop_app_length.
  rewrite decide_False by (rewrite zlen_app; change (zlen crlf) with 2; pose proof (zlen_nonneg rest); lia). done.
Qed.

Lemma read_args_ok argv fuel j argc rest acc : Forall (fun o : bytes => zlen o < 2 ^ 61) argv -> argc = j + zlen argv -> (length argv <= fuel)%nat ->
  read_args fuel j argc (concat (arg_bytes <$> argv) ++ rest) acc = Some (PCmd (acc ++ argv) rest).
Proof.
  intros Ha. revert fuel j acc. induction Ha as [|o argv Ho _ IH]; intros fuel j acc Hj Hf.
  - rewrite app_nil_r. cbn [fmap list_fmap concat app]. rewrite zlen_nil in Hj. destruct fuel; cbn [read_args]; by rewrite decide_False by lia.
  - destruct fuel as [|fuel]; [simpl in Hf; lia|]. cbn [fmap list_fmap concat]. rewrite zlen_cons in Hj. rewrite <- app_assoc, read_arg_step by zlia.
    rewrite IH; [by rewrite <- app_assoc|lia|simpl in Hf; lia].
Qed.

(** An argument that stops early is a read error. *)
Lemma read_arg_torn fuel j argc o p acc : j < argc -> zlen o < 2 ^ 61 -> torn p (arg_bytes o) -> read_args (S fuel) j argc p acc = Some PRead.
Proof.
  intros Hj Ho Hp. pose proof (zlen_nonneg o) as Hnn. cbn [read_args]. rewrite (decide_True (P := j < argc)) by done.
  apply torn_cons in Hp as [->|(p1 & -> & Hp)]; [done|]. rewrite app_assoc in Hp. apply torn_app in Hp as [Hp|(p2 & -> & Hp)].
  - destruct (header_torn 36 (zlen o) p1) as (Hg & Hc & Hs & _); [lia|done|done|]. rewrite Hg. cbn [head tail].
    rewrite decide_False by (intros H; by apply H). rewrite Hc, (u64_small (strtol p1)) by lia. rewrite assert_True by (rewrite u64_small by lia; lia). cbn [mbind option_bind].
    destruct (decide (strtol p1 <> 0 /\ zlen (@nil Z) < strtol p1)); [done|]. rewrite drop_nil. done.
  - destruct (header_line 36 (zlen o) p2) as (Hg & Hc & Hs); [lia|done|]. rewrite <- app_assoc, Hg. cbn [head tail].
    rewrite decide_False by (intros H; by apply H). rewrite Hc, Hs, (u64_small (zlen o)) by lia. rewrite assert_True by (rewrite u64_small by lia; lia). cbn [mbind option_bind].
    destruct (decide (zlen o <> 0 /\ zlen p2 < zlen o)) as [|Hge]; [done|]. apply torn_length in Hp. rewrite length_app in Hp. change (length crlf) with 2%nat in Hp.
    rewrite decide_True; [done|]. rewrite zlen_drop. unfold zlen in *. lia.
Qed.

Lemma read_args_torn argv fuel j argc p acc : Forall (fun o : bytes => zlen o < 2 ^ 61) argv -> argc = j + zlen argv -> (length p < fuel)%nat ->
  torn p (concat (arg_bytes <$> argv)) -> read_args fuel j argc p acc = Some PRead.
Proof.
  intros Ha. revert fuel j p acc. induction Ha as [|o argv Ho _ IH]; intros fuel j p acc Hj Hf Hp.
  - apply torn_length in Hp. simpl in Hp. lia.
  - destruct fuel as [|fuel]; [lia|]. cbn [fmap list_fmap concat] in Hp. rewrite zlen_cons in Hj. pose proof (zlen_nonneg argv).
    apply torn_app in Hp as [Hp|(p' & -> & Hp)]; [apply (read_arg_torn _ _ _ o); [lia|done|done]|].
    rewrite read_arg_step by (done || lia). apply IH; [lia| |done]. rewrite length_app in Hf. unfold arg_bytes in Hf. simpl in Hf. lia.
Qed.

Lemma length_args_le argv : (length argv <= length (concat (arg_bytes <$> argv)))%nat.
Proof. induction argv as [|o argv IH]; [done|]. cbn [fmap list_fmap concat]. rewrite length_app. unfold arg_bytes at 1. simpl. lia. Qed.

Lemma atoi_small s : INT32_MIN <= strtol s <= INT32_MAX -> atoi s = strtol s.
Proof. intros H. unfold atoi, i32. apply swrap_small; [lia|]. unfold in_i, INT32_MIN, INT32_MAX in *. lia. Qed.

Section replay.
Context {D : Type} (exec : D -> Z -> args -> D) (lookup : args -> option proc) (dbnum : Z).
Notation client := (Z * D)%type.
Notation load_loop := (load_loop exec lookup dbnum).
Notation load_round := (load_round exec lookup dbnum).
Notation run_command := (run_command exec dbnum).

(** One turn of the loading loop on a complete command. *)
Lemma load_cmd_step fuel lt total argv rest st : cmd_ok argv ->
  load_loop (S fuel) lt total (cmd_bytes argv ++ rest) st =
    (r ← load_round lt total argv rest st; match r with None => Some (EndFailed, st) | Some st => load_loop fuel lt total rest st end).
Proof.
  intros [Hn Ha]. unfold INT32_MAX in Hn. destruct (header_line 42 (zlen argv) (concat (arg_bytes <$> argv) ++ rest)) as (Hg & Hc & Hs); [lia|done|].
  cbn [AofFile.load_loop]. replace (cmd_bytes argv ++ rest) with (42 :: fmt_d (zlen argv) ++ crlf ++ concat (arg_bytes <$> argv) ++ rest)
    by (unfold cmd_bytes; repeat (rewrite <- app_assoc || cbn [app]); done).
  rewrite Hg. cbn [head tail]. rewrite (decide_False (P := Some 42 = Some 35)) by done. rewrite decide_False by (intros H; by apply H).
  rewrite Hc. destruct (fmt_d_nat (zlen argv)) as (Hne & _ & _); [lia|].
  rewrite decide_False by (intros H; by apply app_nil in H as [? _]). rewrite atoi_small by (unfold INT32_MIN, INT32_MAX; lia). rewrite Hs. rewrite decide_False by lia.
  rewrite read_args_ok; [done|done|lia|]. rewrite length_app. pose proof (length_args_le argv). lia.
Qed.

(** A command that stops early ends the loop at the last valid offset. *)
Lemma load_torn fuel lt total argv p st : cmd_ok argv -> p <> [] -> torn p (cmd_bytes argv) -> load_loop (S fuel) lt total p st = Some (EndEof, st).
Proof.
  intros [Hn Ha] Hpne Hp. unfold INT32_MAX in Hn. cbn [AofFile.load_loop]. apply torn_cons in Hp as [->|(p1 & -> & Hp)]; [done|].
  rewrite app_assoc in Hp. apply torn_app in Hp as [Hp|(p2 & -> & Hp)].
  - destruct (header_torn 42 (zlen argv) p1) as (Hg & Hc & Hs & Hs1); [lia|done|done|]. rewrite Hg. cbn [head tail].
    rewrite (decide_False (P := Some 42 = Some 35)) by done. rewrite decide_False by (intros H; by apply H). rewrite Hc.
    destruct (decide (p1 = [])) as [->|Hne]; [done|]. pose proof (Hs1 Hne ltac:(lia)). rewrite atoi_small by (unfold INT32_MIN, INT32_MAX; lia).
    rewrite decide_False by lia. cbn [length read_args]. by rewrite decide_True by lia.
  - destruct (header_line 42 (zlen argv) p2) as (Hg & Hc & Hs); [lia|done|]. rewrite <- app_assoc, Hg. cbn [head tail].
    rewrite (decide_False (P := Some 42 = Some 35)) by done. rewrite decide_False by (intros H; by apply H). rewrite Hc.
    destruct (fmt_d_nat (zlen argv)) as (Hne & _ & _); [lia|]. rewrite decide_False by (intros H; by apply app_nil in H as [? _]).
    rewrite atoi_small by (unfold INT32_MIN, INT32_MAX; lia). rewrite Hs. rewrite decide_False by lia.
    rewrite (read_args_torn argv); [done|done|lia|lia|done].
Qed.
(** The commands of a log, one after the other. *)
Fixpoint replay (cs : list args) (c : client) (multi : option (list (proc * args))) : option (client * option (list (proc * args))) :=
  match cs with
  | [] => Some (c, multi)
  | argv :: cs => p ← lookup argv; '(c, multi) ← run_command p argv c multi; replay cs c multi
  end.

Lemma replay_app cs cs' c m c1 m1 : replay cs c m = Some (c1, m1) -> replay (cs ++ cs') c m = replay cs' c1 m1.
Proof.
  revert c m. induction cs as [|argv cs IH]; intros c m H; [by injection H as -> ->|]. cbn [replay app] in *.
  destruct (lookup argv) as [p|]; [|done]. cbn [mbind option_bind] in *. destruct (run_command p argv c m) as [[c2 m2]|]; [|done]. by apply IH.
Qed.

Lemma log_bytes_cons argv cs : log_bytes (argv :: cs) = cmd_bytes argv ++ log_bytes cs.
Proof. done. Qed.

Lemma log_bytes_app cs cs' : log_bytes (cs ++ cs') = log_bytes cs ++ log_bytes cs'.
Proof. unfold log_bytes. by rewrite fmap_app, concat_app. Qed.

Lemma length_log_bytes cs : (length cs <= length (log_bytes cs))%nat.
Proof. induction cs as [|argv cs IH]; [done|]. rewrite log_bytes_cons, length_app. unfold cmd_bytes at 1. simpl. lia. Qed.

(** The loading loop on complete commands followed by [tail]. *)
Lemma load_replay cs fuel total tail c m c' m' before : Forall cmd_ok cs -> replay cs c m = Some (c', m') ->
  exists before', load_loop (length cs + fuel) true total (log_bytes cs ++ tail) (LState c m (total - zlen (log_bytes cs ++ tail)) before)
    = load_loop fuel true total tail (LState c' m' (total - zlen tail) before') /\
    (Forall (fun argv => lookup argv <> Some multiCommand) cs -> before' = before).
Proof.
  intros Hcs. revert c m before. induction Hcs as [|argv cs Hok _ IH]; intros c m before Hr.
  - injection Hr as -> ->. by exists before.
  - cbn [replay] in Hr. destruct (lookup argv) as [p|] eqn:Hl; [|done]. cbn [mbind option_bind] in Hr. destruct (run_command p argv c m) as [[c1 m1]|] eqn:Hrun; [|done].
    cbn [length Nat.add]. rewrite log_bytes_cons, <- app_assoc, load_cmd_step by done. unfold AofFile.load_round. rewrite Hl. cbn [l_client l_multi]. rewrite Hrun. cbn [mbind option_bind].
    set (b := if decide (p = multiCommand) then _ else _). destruct (IH c1 m1 b Hr) as (before' & -> & Hb). exists before'. split; [done|].
    intros [Hp Hall]%Forall_cons. rewrite Hb by done. unfold b. rewrite decide_False by congruence. done.
Qed.

Notation loadSingleAppendOnlyFile := (loadSingleAppendOnlyFile exec lookup dbnum).

(** The loading loop runs from the first byte on a file of commands. *)
Lemma load_start rdb_load lt tr cs tail d : log_bytes cs ++ tail <> [] -> (forall c rest, tail = c :: rest -> c = 42) ->
  loadSingleAppendOnlyFile rdb_load lt tr (log_bytes cs ++ tail) d =
    ('(e, st) ← load_loop (S (length (log_bytes cs ++ tail))) lt (zlen (log_bytes cs ++ tail)) (log_bytes cs ++ tail) (LState (0, d) None 0 0);
     match e with
     | EndOk => Some (AOF_OK, (l_client st).2, log_bytes cs ++ tail)
     | EndFailed => Some (AOF_FAILED, (l_client st).2, log_bytes cs ++ tail)
     | EndEof =>
         if lt && tr then Some (AOF_TRUNCATED, (l_client st).2, take (Z.to_nat (valid_up_to st)) (log_bytes cs ++ tail))
         else Some (AOF_FAILED, (l_client st).2, log_bytes cs ++ tail)
     end).
Proof.
  intros Hne Ht. unfold AofFile.loadSingleAppendOnlyFile. rewrite decide_False by done.
  assert (exists rest, log_bytes cs ++ tail = 42 :: rest) as (rest & ->).
  { destruct cs as [|argv cs]; [|by rewrite log_bytes_cons; eexists]. destruct tail as [|c rest]; [done|]. rewrite (Ht c rest eq_refl). by eexists. }
  rewrite decide_False by done. done.
Qed.

(** A file of complete commands, none of them a transaction that stays open. *)
Lemma load_complete rdb_load tr cs d id d' : cs <> [] -> Forall cmd_ok cs -> replay cs (0, d) None = Some ((id, d'), None) ->
  loadSingleAppendOnlyFile rdb_load true tr (log_bytes cs) d = Some (AOF_OK, d', log_bytes cs).
Proof.
  intros Hne Hok Hr. rewrite <- (app_nil_r (log_bytes cs)). rewrite load_start; [|by destruct cs|done].
  pose proof (length_log_bytes cs) as Hl. set (l := log_bytes cs ++ []) in *.
  destruct (load_replay cs (S (length l) - length cs) (zlen l) [] _ _ _ _ 0 Hok Hr) as (b & Hload & _). fold l in Hload.
  replace (length cs + (S (length l) - length cs))%nat with (S (length l)) in Hload by (unfold l; rewrite app_nil_r; lia).
  rewrite Z.sub_diag in Hload. rewrite Hload. destruct (S (length l) - length cs)%nat eqn:E; [unfold l in E; rewrite app_nil_r in E; lia|]. done.
Qed.

(** A file that stops inside the command [argv]. *)
Lemma load_stopped rdb_load cs m argv p d id d' : Forall cmd_ok cs -> replay cs (0, d) None = Some ((id, d'), m) ->
  cmd_ok argv -> p <> [] -> torn p (cmd_bytes argv) ->
  loadSingleAppendOnlyFile rdb_load true true (log_bytes cs ++ p) d = Some (AOF_TRUNCATED, d', log_bytes cs).
Proof.
  intros Hok Hr Hargv Hne Hp. rewrite load_start; [|by destruct cs|].
  2:{ intros c rest ->. destruct Hp as (q & _ & [= -> _]). done. }
  pose proof (length_log_bytes cs) as Hl. set (l := log_bytes cs ++ p) in *. assert (length l = length (log_bytes cs) + length p)%nat as Hll by (unfold l; by rewrite length_app).
  destruct (load_replay cs (S (length l) - length cs) (zlen l) p _ _ _ _ 0 Hok Hr) as (b & Hload & _). fold l in Hload.
  replace (length cs + (S (length l) - length cs))%nat with (S (length l)) in Hload by lia.
  rewrite Z.sub_diag in Hload. rewrite Hload. destruct (S (length l) - length cs)%nat eqn:E; [lia|]. rewrite (load_torn _ _ _ argv) by done.
  cbn [mbind option_bind andb valid_up_to l_client snd]. do 2 f_equal. unfold l. rewrite take_app_le by (unfold zlen; rewrite length_app; lia).
  rewrite take_ge; [done|]. rewrite zlen_app. unfold zlen. lia.
Qed.

(** A file that stops between two commands of a transaction. *)
Lemma load_open_multi rdb_load cs cs' argv m d id d' : Forall cmd_ok (cs ++ argv :: cs') -> lookup argv = Some multiCommand ->
  replay cs (0, d) None = Some ((id, d'), None) -> replay cs' (id, d') (Some []) = Some ((id, d'), Some m) ->
  Forall (fun argv => lookup argv <> Some multiCommand) cs' ->
  loadSingleAppendOnlyFile rdb_load true true (log_bytes (cs ++ argv :: cs')) d = Some (AOF_TRUNCATED, d', log_bytes cs).
Proof.
  intros [Hok [Hargv Hok']%Forall_cons]%Forall_app Hl Hr Hr' Hno.
  rewrite <- (app_nil_r (log_bytes (cs ++ argv :: cs'))). rewrite load_start; [|by rewrite log_bytes_app; destruct cs|done].
  rewrite app_nil_r. set (l := log_bytes (cs ++ argv :: cs')).
  assert (log_bytes cs ++ cmd_bytes argv ++ log_bytes cs' ++ [] = l) as El by (unfold l; by rewrite app_nil_r, log_bytes_app, log_bytes_cons).
  pose proof (length_log_bytes cs). pose proof (length_log_bytes cs').
  assert (length l = length (log_bytes cs) + (length (cmd_bytes argv) + length (log_bytes cs')))%nat as Hll by (rewrite <- El, app_nil_r, !length_app; lia).
  assert (0 < length (cmd_bytes argv))%nat by (unfold cmd_bytes; simpl; lia).
  destruct (load_replay cs (S (length l) - length cs) (zlen l) (cmd_bytes argv ++ log_bytes cs' ++ []) _ _ _ _ 0 Hok Hr) as (b & Hload & _). rewrite El in Hload.
  replace (length cs + (S (length l) - length cs))%nat with (S (length l)) in Hload by lia. rewrite Z.sub_diag in Hload. rewrite Hload. clear Hload.
  destruct (S (length l) - length cs)%nat as [|n] eqn:E; [lia|]. rewrite load_cmd_step by done. unfold AofFile.load_round. rewrite Hl.
  cbn [l_client l_multi AofFile.run_command call_proc mbind option_bind valid_up_to]. rewrite !(decide_True (P := multiCommand = multiCommand)) by done. cbv iota beta.
  destruct (load_replay cs' (n - length cs') (zlen l) [] _ _ _ _ (zlen l - zlen (cmd_bytes argv ++ log_bytes cs' ++ [])) Hok' Hr') as (b' & Hload & Hb').
  rewrite (Hb' Hno) in Hload. replace (length cs' + (n - length cs'))%nat with n in Hload by lia. rewrite Hload. clear Hload.
  destruct (n - length cs')%nat eqn:E'; [lia|]. cbn [AofFile.load_loop fgets l_multi l_client valid_before_multi mbind option_bind andb valid_up_to snd]. do 2 f_equal.
  replace (Z.to_nat (zlen l - zlen (cmd_bytes argv ++ log_bytes cs' ++ []))) with (length (log_bytes cs))
    by (unfold zlen; rewrite app_nil_r, length_app; lia).
  rewrite <- El. apply take_app_length.
Qed.
End replay.

(** ** Execution units *)

Definition select_cmd (id : Z) : args := [SELECT; fmt_d id].

(** The commands of the log for a sequence of calls: SELECT when the database
    changes. *)
Fixpoint raw (sel : Z) (calls : list (Z * args)) : list args :=
  match calls with
  | [] => []
  | (id, argv) :: calls =>
      if decide (id <> -1 /\ id <> sel) then select_cmd id :: argv :: raw id calls else argv :: raw sel calls
  end.

Fixpoint sel_after (sel : Z) (calls : list (Z * args)) : Z :=
  match calls with
  | [] => sel
  | (id, _) :: calls => sel_after (if decide (id <> -1 /\ id <> sel) then id else sel) calls
  end.

Lemma raw_app sel l k : raw sel (l ++ k) = raw sel l ++ raw (sel_after sel l) k.
Proof. revert sel. induction l as [|[id argv] l IH]; intros sel; [done|]. cbn [app raw sel_after]. case_decide; cbn [app]; by rewrite IH. Qed.

Lemma sel_after_app sel l k : sel_after sel (l ++ k) = sel_after (sel_after sel l) k.
Proof. revert sel. induction l as [|[id argv] l IH]; intros sel; [done|]. cbn [app sel_after]. apply IH. Qed.

Lemma select_cmd_ok id : in_i 64 id -> cmd_ok (select_cmd id).
Proof.
  intros Hid. pose proof (zlen_fmt_d id Hid). split; [done|]. constructor; [done|]. constructor; [cbn beta; lia|constructor].
Qed.

Lemma select_text seldb : lit "*2" ++ crlf ++ lit "$6" ++ crlf ++ SELECT ++ crlf ++ lit "$" ++ fmt_d (zlen seldb) ++ crlf ++ seldb ++ crlf = cmd_bytes [SELECT; seldb].
Proof. unfold cmd_bytes, arg_bytes. cbn [fmap list_fmap concat]. rewrite app_nil_r. reflexivity. Qed.

Section units.
Context {D : Type} (exec : D -> Z -> args -> D) (lookup : args -> option proc) (dbnum : Z).

(** The operations of execution units: writes of known commands to existing
    databases. *)
Definition op_ok (o : Z * args) : Prop := 0 <= o.1 < dbnum /\ cmd_ok o.2 /\ lookup o.2 = Some otherCommand.
Definition unit_ok (u : bool * list (Z * args)) : Prop := Forall op_ok u.2.
Definition calls_of (us : list (bool * list (Z * args))) : list (Z * args) := concat ((fun u => propagate_calls u.1 u.2) <$> us).

(** The effect on the dataset, as the server ran them. *)
Definition apply_ops (d : D) (ops : list (Z * args)) : D := foldl (fun d o => exec d o.1 o.2) d ops.
Definition apply_units (d : D) (us : list (bool * list (Z * args))) : D := foldl (fun d u => apply_ops d u.2) d us.

(** The command table knows the commands that the server adds. *)
Hypothesis Hselect : forall id, lookup (select_cmd id) = Some selectCommand.
Hypothesis Hmulti : lookup [MULTI] = Some multiCommand.
Hypothesis Hexec : lookup [EXEC] = Some execCommand.
Hypothesis Hdbnum : dbnum <= INT32_MAX.

Notation replay := (replay exec lookup dbnum).

(** A call that [feedAppendOnlyFile] accepts. *)
Definition call_ok (o : Z * args) : Prop := (o.1 = -1 \/ 0 <= o.1 < dbnum) /\ cmd_ok o.2.

Lemma unit_calls_ok us : Forall unit_ok us -> Forall call_ok (calls_of us).
Proof.
  intros H. apply Forall_concat, Forall_fmap. eapply Forall_impl; [exact H|]. intros [arb ops] Hu. cbn [compose fst snd].
  assert (Forall call_ok ops) as Hops. { eapply Forall_impl; [exact Hu|]. intros o (? & ? & _). split; [by right|done]. }
  unfold propagate_calls. destruct (_ && _); cbn [app]; [|by rewrite app_nil_r].
  assert (forall name : bytes, zlen name < 2 ^ 61 -> call_ok (-1, [name])) as Hm.
  { intros name Hn. split; [by left|]. split; [done|]. constructor; [done|constructor]. }
  apply Forall_cons. split; [by apply Hm|]. apply Forall_app. split; [done|]. constructor; [by apply Hm|constructor].
Qed.

Lemma raw_ok sel calls : Forall call_ok calls -> Forall cmd_ok (raw sel calls).
Proof using Hdbnum.
  intros H. revert sel. induction H as [|[id argv] calls [Hid Hok] _ IH]; intros sel; [constructor|]. cbn [raw fst snd] in *.
  case_decide as Hd; [apply Forall_cons; split|]; [|by constructor|by constructor]. destruct Hid; [lia|]. apply select_cmd_ok. unfold in_i, INT32_MAX in *. lia.
Qed.

Lemma feed_all_ok junk now calls sel ts : Forall call_ok calls ->
  feed_all junk dbnum false now calls (FeedState sel ts) = Some (log_bytes (raw sel calls), FeedState (sel_after sel calls) ts).
Proof using Hdbnum.
  intros H. revert sel. induction H as [|[id argv] calls [Hid Hok] _ IH]; intros sel; [done|]. cbn [feed_all raw sel_after fst snd] in *.
  unfold feed_text. rewrite assert_True by (destruct Hid; [by left|right; lia]). cbn [mbind option_bind default aof_selected_db AofFile.aof_cur_timestamp].
  destruct (decide (id <> -1 /\ id <> sel)) as [Hd|Hd].
  - rewrite app_nil_l, select_text, catAppendOnlyGenericCommand_ok by done. cbn [mbind option_bind]. rewrite IH. cbn [mbind option_bind].
    do 2 f_equal. rewrite !log_bytes_cons. by rewrite <- app_assoc.
  - rewrite catAppendOnlyGenericCommand_ok by done. cbn [mbind option_bind]. rewrite IH. cbn [mbind option_bind]. done.
Qed.

Lemma select_db_ok sel id : 0 <= id < dbnum -> select_db dbnum sel (select_cmd id) = Some id.
Proof using Hdbnum.
  intros Hid. unfold select_db, INT32_MAX in *. cbn. assert (in_i 64 id) as Hi by (unfold in_i; lia).
  destruct (string2ll_ok (fmt_d id)) as (r & -> & Hr). cbn. rewrite (proj2 (Hr id)) by (split; [by apply fmt_d_sdecimal|done]).
  rewrite decide_True; [done|]. unfold INT32_MIN, INT32_MAX. lia.
Qed.

(** The database the server believes is selected is the one that is, or none. *)
Definition agree (sel id : Z) : Prop := sel = -1 \/ sel = id.

Lemma replay_ops ops sel id d : Forall op_ok ops -> agree sel id ->
  exists id', replay (raw sel ops) (id, d) None = Some ((id', apply_ops d ops), None) /\ agree (sel_after sel ops) id'.
Proof using Hselect Hdbnum.
  intros H. revert sel id d. induction H as [|[oid argv] ops (Hoid & _ & Hl) _ IH]; intros sel id d Ha; [by exists id|]. cbn [raw sel_after apply_ops foldl fst snd] in *.
  case_decide as Hd; cbn [AofFile.replay].
  - rewrite Hselect. cbn [mbind option_bind run_command call_proc]. rewrite select_db_ok by done. cbn [mbind option_bind]. rewrite Hl. apply (IH oid oid). by right.
  - rewrite Hl. cbn [mbind option_bind run_command call_proc]. destruct Ha as [->| ->]; [lia|]. assert (oid = id) as -> by lia. apply (IH id id). by right.
Qed.

(** The queue of a transaction. *)
Definition queue_of (cs : list args) : list (proc * args) := (fun c => (default otherCommand (lookup c), c)) <$> cs.

(** The commands of plain operations: no MULTI and no EXEC. *)
Definition plain_cmd (argv : args) : Prop := lookup argv = Some selectCommand \/ lookup argv = Some otherCommand.

Lemma raw_plain sel ops : Forall op_ok ops -> Forall plain_cmd (raw sel ops).
Proof using Hselect.
  intros H. revert sel. induction H as [|[oid argv] ops (_ & _ & Hl) _ IH]; intros sel; [constructor|]. cbn [raw snd] in *.
  assert (plain_cmd argv) by by right. case_decide; [constructor; [by left|]|]; by constructor.
Qed.

Lemma replay_queue cs c q : Forall plain_cmd cs -> replay cs c (Some q) = Some (c, Some (q ++ queue_of cs)).
Proof.
  intros H. revert q. induction H as [|argv cs Hp _ IH]; intros q; [by rewrite app_nil_r|]. cbn [AofFile.replay].
  assert (exists p, lookup argv = Some p /\ p <> execCommand) as (p & Hl & Hne) by (destruct Hp; by eexists).
  unfold queue_of. cbn [fmap list_fmap]. rewrite Hl. cbn [mbind option_bind run_command default]. rewrite decide_True by done. cbn [mbind option_bind]. rewrite IH. by rewrite <- app_assoc.
Qed.

Lemma exec_queue_ok ops sel id d : Forall op_ok ops -> agree sel id ->
  exists id', exec_queue exec dbnum (queue_of (raw sel ops)) (id, d) = Some (id', apply_ops d ops) /\ agree (sel_after sel ops) id'.
Proof using Hselect Hdbnum.
  intros H. revert sel id d. induction H as [|[oid argv] ops (Hoid & _ & Hl) _ IH]; intros sel id d Ha; [by exists id|]. cbn [raw sel_after apply_ops foldl fst snd] in *.
  case_decide as Hd; unfold queue_of; cbn [fmap list_fmap exec_queue].
  - rewrite Hselect. cbn [default call_proc]. rewrite select_db_ok by done. cbn [mbind option_bind]. rewrite Hl. apply (IH oid oid). by right.
  - rewrite Hl. cbn [default call_proc mbind option_bind]. destruct Ha as [->| ->]; [lia|]. assert (oid = id) as -> by lia. apply (IH id id). by right.
Qed.

Lemma raw_txn sel ops : raw sel ((-1, [MULTI]) :: ops ++ [(-1, [EXEC])]) = [MULTI] :: raw sel ops ++ [[EXEC]].
Proof. cbn [raw]. rewrite decide_False by lia. rewrite raw_app. cbn [raw]. by rewrite decide_False by lia. Qed.

Lemma sel_txn sel ops : sel_after sel ((-1, [MULTI]) :: ops ++ [(-1, [EXEC])]) = sel_after sel ops.
Proof. cbn [sel_after]. rewrite decide_False by lia. rewrite sel_after_app. cbn [sel_after]. by rewrite decide_False by lia. Qed.

(** One unit, transactions included. *)
Lemma replay_unit u sel id d : unit_ok u -> agree sel id ->
  exists id', replay (raw sel (propagate_calls u.1 u.2)) (id, d) None = Some ((id', apply_ops d u.2), None) /\ agree (sel_after sel (propagate_calls u.1 u.2)) id'.
Proof using Hselect Hmulti Hexec Hdbnum.
  destruct u as [arb ops]. unfold unit_ok, propagate_calls. cbn [fst snd]. intros Hu Ha. destruct (_ && _); cbn [app]; [|rewrite app_nil_r; by apply replay_ops].
  rewrite raw_txn, sel_txn. cbn [AofFile.replay]. rewrite Hmulti. cbn [mbind option_bind run_command call_proc]. rewrite decide_True by done.
  rewrite (replay_app _ _ _ _ _ _ _ _ _ (replay_queue _ (id, d) [] (raw_plain sel ops Hu))). cbn [app AofFile.replay]. rewrite Hexec. cbn [mbind option_bind run_command].
  rewrite decide_False by (intros H; by apply H). destruct (exec_queue_ok ops sel id d Hu Ha) as (id' & -> & Ha'). cbn [mbind option_bind]. by exists id'.
Qed.

Lemma replay_units us sel id d : Forall unit_ok us -> agree sel id ->
  exists id', replay (raw sel (calls_of us)) (id, d) None = Some ((id', apply_units d us), None) /\ agree (sel_after sel (calls_of us)) id'.
Proof using Hselect Hmulti Hexec Hdbnum.
  intros H. revert sel id d. induction H as [|u us Hu _ IH]; intros sel id d Ha; [by exists id|]. unfold calls_of. cbn [fmap list_fmap concat].
  destruct (replay_unit u sel id d Hu Ha) as (id1 & Hr & Ha1). destruct (IH _ _ (apply_ops d u.2) Ha1) as (id2 & Hr2 & Ha2). exists id2.
  rewrite raw_app, sel_after_app. rewrite (replay_app _ _ _ _ _ _ _ _ _ Hr). done.
Qed.

(** The commands of a prefix of the log of plain operations. *)
Lemma raw_prefix ops sel id d cs c cs' : Forall op_ok ops -> agree sel id -> raw sel ops = cs ++ c :: cs' ->
  exists j id', (j < length ops)%nat /\ replay cs (id, d) None = Some ((id', apply_ops d (take j ops)), None).
Proof using Hselect Hdbnum.
  intros H. revert sel id d cs. induction H as [|[oid argv] ops (Hoid & _ & Hl) _ IH]; intros sel id d cs Ha E; [by destruct cs|].
  cbn [raw fst snd] in *. destruct cs as [|x cs]; [exists 0%nat, id; split; [simpl; lia|done]|]. cbn [AofFile.replay].
  destruct (decide (oid <> -1 /\ oid <> sel)) as [Hd|Hd].
  - injection E as <- E. rewrite Hselect. cbn [mbind option_bind run_command call_proc]. rewrite select_db_ok by done. cbn [mbind option_bind].
    destruct cs as [|y cs]; [exists 0%nat, oid; split; [simpl; lia|done]|]. injection E as <- E. cbn [AofFile.replay]. rewrite Hl.
    destruct (IH oid oid (exec d oid argv) cs) as (j & id' & Hj & Hr); [by right|done|]. exists (S j), id'. split; [simpl; lia|done].
  - injection E as <- E. rewrite Hl. cbn [mbind option_bind run_command call_proc]. destruct Ha as [->| ->]; [lia|]. assert (oid = id) as -> by lia.
    destruct (IH id id (exec d id argv) cs) as (j & id' & Hj & Hr); [by right|done|]. exists (S j), id'. split; [simpl; lia|done].
Qed.

Lemma torn_log p cs : torn p (log_bytes cs) -> exists cs1 c cs2 t, cs = cs1 ++ c :: cs2 /\ p = log_bytes cs1 ++ t /\ torn t (cmd_bytes c).
Proof.
  revert p. induction cs as [|c cs IH]; intros p Hp; [apply torn_length in Hp; simpl in Hp; lia|]. rewrite log_bytes_cons in Hp.
  apply torn_app in Hp as [Hp|(p' & -> & Hp)]; [by exists [], c, cs, p|]. destruct (IH p' Hp) as (cs1 & c' & cs2 & t & -> & -> & Ht).
  exists (c :: cs1), c', cs2, t. rewrite log_bytes_cons, <- app_assoc. done.
Qed.

Notation loadSingleAppendOnlyFile := (loadSingleAppendOnlyFile exec lookup dbnum).

(** A file of complete commands, empty or not. *)
Lemma load_log rdb_load tr cs d id d' : Forall cmd_ok cs -> replay cs (0, d) None = Some ((id, d'), None) ->
  exists ret, loadSingleAppendOnlyFile rdb_load true tr (log_bytes cs) d = Some (ret, d', log_bytes cs) /\ ret = (if decide (cs = []) then AOF_EMPTY else AOF_OK).
Proof.
  intros Hok Hr. destruct cs as [|c cs]; [injection Hr as <- <-; by exists AOF_EMPTY|]. exists AOF_OK. split; [|done].
  by apply (load_complete exec lookup dbnum rdb_load tr (c :: cs) d id d').
Qed.

(** Complete commands and a torn one. *)
Lemma load_tail rdb_load cs t c d id d' : Forall cmd_ok cs -> replay cs (0, d) None = Some ((id, d'), None) -> cmd_ok c -> torn t (cmd_bytes c) ->
  exists ret, loadSingleAppendOnlyFile rdb_load true true (log_bytes cs ++ t) d = Some (ret, d', log_bytes cs) /\
    ret = (if decide (t = []) then if decide (cs = []) then AOF_EMPTY else AOF_OK else AOF_TRUNCATED).
Proof.
  intros Hok Hr Hc Ht. destruct (decide (t = [])) as [->|Hne]; [rewrite app_nil_r; by eapply load_log|]. exists AOF_TRUNCATED. split; [|done].
  by eapply load_stopped.
Qed.

(** The commands of a prefix of the log of some units without transactions. *)
Definition single (u : bool * list (Z * args)) : Prop := exists o, u.2 = [o].

Lemma calls_single us : Forall single us -> calls_of us = concat (us.*2).
Proof.
  induction 1 as [|[arb ops] us (o & E) _ IH]; [done|]. unfold calls_of in *. cbn [fmap list_fmap concat fst snd] in *. rewrite IH, E.
  unfold propagate_calls. rewrite bool_decide_eq_false_2 by (change (zlen [o]) with 1; lia). done.
Qed.

Lemma ops_single us : Forall single us -> Forall unit_ok us -> Forall op_ok (concat (us.*2)).
Proof. intros _ H. apply Forall_concat, Forall_fmap. exact H. Qed.

Lemma apply_concat us d : apply_ops d (concat (us.*2)) = apply_units d us.
Proof. revert d. induction us as [|u us IH]; intros d; [done|]. cbn [fmap list_fmap concat]. unfold apply_ops. rewrite foldl_app. apply IH. Qed.

Lemma take_single us j : Forall single us -> take j (concat (us.*2)) = concat ((take j us).*2).
Proof.
  intros H. revert j. induction H as [|[arb ops] us (o & E) _ IH]; intros j; [by destruct j|]. cbn [snd] in E. subst ops.
  destruct j as [|j]; [done|]. cbn. f_equal. apply IH.
Qed.

(** What stays of a log that stops anywhere: complete commands, whose effect is
    that of the first units. *)
Lemma log_prefix us sel id d p : Forall single us -> Forall unit_ok us -> agree sel id -> torn p (log_bytes (raw sel (calls_of us))) ->
  exists cs c t j id', p = log_bytes cs ++ t /\ torn t (cmd_bytes c) /\ cmd_ok c /\ Forall cmd_ok cs /\ (j < length us)%nat /\
    replay cs (id, d) None = Some ((id', apply_units d (take j us)), None).
Proof using Hselect Hdbnum.
  intros Hs Hu Ha Hp. pose proof (raw_ok sel _ (unit_calls_ok us Hu)) as Hok. destruct (torn_log _ _ Hp) as (cs & c & cs2 & t & E & -> & Ht).
  rewrite E in Hok. apply Forall_app in Hok as [Hok1 [Hc _]%Forall_cons]. rewrite calls_single in E by done.
  destruct (raw_prefix _ sel id d cs c cs2 (ops_single us Hs Hu) Ha E) as (j & id' & Hj & Hr). exists cs, c, t, j, id'.
  rewrite take_single, apply_concat in Hr by done. split_and!; try done.
  clear -Hs Hj. revert j Hj. induction Hs as [|[arb ops] us (o & E) _ IH]; intros j Hj; cbn [fmap list_fmap concat snd] in *; [done|]. subst ops.
  destruct j as [|j]; [simpl; lia|]. cbn [length app] in *. specialize (IH j). lia.
Qed.
End units.

(** ** Theorems *)

(** The command table knows the commands that the server adds to the log. *)
Record table_ok (lookup : args -> option proc) : Prop := {
  table_select id : lookup (select_cmd id) = Some selectCommand;
  table_multi : lookup [MULTI] = Some multiCommand;
  table_exec : lookup [EXEC] = Some execCommand;
}.

(** A table and a dataset to evaluate the definitions with: the dataset is the
    list of the commands that ran. *)
Definition demo_lookup (argv : args) : option proc :=
  match argv with
  | name :: _ =>
      Some (if decide (name = SELECT) then selectCommand else if decide (name = MULTI) then multiCommand
            else if decide (name = EXEC) then execCommand else otherCommand)
  | [] => None
  end.

Definition demo_exec (d : list (Z * args)) (id : Z) (argv : args) : list (Z * args) := d ++ [(id, argv)].

Lemma demo_table : table_ok demo_lookup.
Proof. by split. Qed.

Definition demo_set (k v : string) : args := [lit "SET"; lit k; lit v].

Lemma demo_set_ok dbnum id k v : 0 <= id < dbnum -> zlen (lit k) < 2 ^ 61 -> zlen (lit v) < 2 ^ 61 -> op_ok demo_lookup dbnum (id, demo_set k v).
Proof. intros Hid Hk Hv. split; [done|]. split; [|done]. split; [done|]. by repeat (constructor; [done|]). Qed.

Ltac demo_units :=
  repeat first [apply Forall_nil_2 | apply Forall_cons_2 | apply demo_set_ok; [lia|done|done] | progress (unfold unit_ok; cbn [snd])].

(** C4: what the server appends for execution units with annotations of the
    time switched off, transactions and changes of database included, loads
    without error, with aof-load-truncated on, and gives the dataset that the
    server had. *)
Theorem aof_replay_correct {D} (exec : D -> Z -> args -> D) lookup dbnum rdb_load junk now ts tr us d :
  table_ok lookup -> dbnum <= INT32_MAX -> Forall (unit_ok lookup dbnum) us -> calls_of us <> [] ->
  exists text st, feed_all junk dbnum false now (calls_of us) (FeedState (-1) ts) = Some (text, st) /\
    loadSingleAppendOnlyFile exec lookup dbnum rdb_load true tr text d = Some (AOF_OK, apply_units exec d us, text).
Proof.
  intros [Hs Hm He] Hd Hu Hne. pose proof (unit_calls_ok _ _ us Hu) as Hc. eexists _, _. split; [by apply feed_all_ok|].
  destruct (replay_units exec lookup dbnum Hs Hm He Hd us (-1) 0 d Hu) as (id & Hr & _); [by left|].
  apply (load_complete exec lookup dbnum rdb_load tr _ d id); [|by eapply raw_ok|done].
  destruct (calls_of us) as [|[oid argv] calls]; [done|]. cbn [raw]. by case_decide.
Qed.

Lemma aof_replay_correct_witness :
  exists text st,
    feed_all (fun _ => 7) 16 false 5 (calls_of [(false, [(3, demo_set "a" "1")]); (false, [(3, demo_set "b" "2"); (0, demo_set "c" "3")])]) (FeedState (-1) 0) = Some (text, st) /\
    loadSingleAppendOnlyFile demo_exec demo_lookup 16 (fun _ _ => None) true true text []
      = Some (AOF_OK, [(3, demo_set "a" "1"); (3, demo_set "b" "2"); (0, demo_set "c" "3")], text).
Proof.
  apply (aof_replay_correct demo_exec demo_lookup 16 (fun _ _ => None) (fun _ => 7) 5 0 true
    [(false, [(3, demo_set "a" "1")]); (false, [(3, demo_set "b" "2"); (0, demo_set "c" "3")])] []).
  - apply demo_table.
  - unfold INT32_MAX. lia.
  - demo_units.
  - done.
Defined.

(** C17: a log without an RDB preamble whose last unit is a single command
    outside a transaction, and which stops anywhere inside it, the SELECT before
    it included, loads with aof-load-truncated the dataset of the complete units
    before it; the file that is left after its truncation is such that the units
    appended to it later, transactions or not, load as well.  For a torn
    transaction see C19, for a torn command right after a preamble
    [torn_after_preamble]. *)
Theorem aof_torn_tail {D} (exec : D -> Z -> args -> D) lookup dbnum rdb_load us u vs d t :
  table_ok lookup -> dbnum <= INT32_MAX -> Forall (unit_ok lookup dbnum) us -> unit_ok lookup dbnum u -> single u -> Forall (unit_ok lookup dbnum) vs ->
  let sel := sel_after (-1) (calls_of us) in
  torn t (log_bytes (raw sel (calls_of [u]))) ->
  exists ret kept ret', loadSingleAppendOnlyFile exec lookup dbnum rdb_load true true (log_bytes (raw (-1) (calls_of us)) ++ t) d
      = Some (ret, apply_units exec d us, kept) /\ ret ∈ [AOF_OK; AOF_EMPTY; AOF_TRUNCATED] /\
    loadSingleAppendOnlyFile exec lookup dbnum rdb_load true true (kept ++ log_bytes (raw (-1) (calls_of vs))) d
      = Some (ret', apply_units exec d (us ++ vs), kept ++ log_bytes (raw (-1) (calls_of vs))) /\ ret' ∈ [AOF_OK; AOF_EMPTY].
Proof.
  intros [Hs Hm He] Hd Hus Hu Hsu Hvs sel Ht.
  destruct (replay_units exec lookup dbnum Hs Hm He Hd us (-1) 0 d Hus) as (id & Hr & Ha); [by left|].
  destruct (log_prefix exec lookup dbnum Hs Hd [u] sel id (apply_units exec d us) t) as (cs & c & t' & j & id' & -> & Ht' & Hc & Hcs & Hj & Hr'); [by repeat constructor|by repeat constructor|done|done|].
  assert (j = 0%nat) as -> by (simpl in Hj; lia). set (cs0 := raw (-1) (calls_of us)) in *.
  assert (Forall cmd_ok cs0) as Hcs0 by (eapply raw_ok; [done|by eapply unit_calls_ok]).
  assert (replay exec lookup dbnum (cs0 ++ cs) (0, d) None = Some ((id', apply_units exec d us), None)) as Hrep by (rewrite (replay_app _ _ _ _ _ _ _ _ _ Hr); done).
  destruct (load_tail exec lookup dbnum rdb_load (cs0 ++ cs) t' c d id' (apply_units exec d us)) as (ret & Hl & Hret); [by apply Forall_app|done|done|done|].
  destruct (replay_units exec lookup dbnum Hs Hm He Hd vs (-1) id' (apply_units exec d us) Hvs) as (id2 & Hr2 & _); [by left|].
  destruct (load_log exec lookup dbnum rdb_load true ((cs0 ++ cs) ++ raw (-1) (calls_of vs)) d id2 (apply_units exec d (us ++ vs))) as (ret' & Hl' & Hret').
  { rewrite !Forall_app. split_and!; [done|done|]. eapply raw_ok; [done|by eapply unit_calls_ok]. }
  { rewrite (replay_app _ _ _ _ _ _ _ _ _ Hrep). unfold apply_units. by rewrite foldl_app. }
  exists ret, (log_bytes (cs0 ++ cs)), ret'. rewrite log_bytes_app in Hl'. rewrite app_assoc, <- log_bytes_app. split_and!; [done| |done|].
  - rewrite Hret. repeat case_decide; set_solver.
  - rewrite Hret'. case_decide; set_solver.
Qed.

Lemma aof_torn_tail_witness :
  let text := log_bytes (raw (-1) (calls_of [(false, [(0, demo_set "a" "1")])])) in
  let more := log_bytes (raw (-1) (calls_of [(false, [(2, demo_set "c" "3")])])) in
  exists ret kept ret',
    loadSingleAppendOnlyFile demo_exec demo_lookup 16 (fun _ _ => None) true true (text ++ take 30 (log_bytes (raw 0 (calls_of [(false, [(1, demo_set "b" "2")])])))) []
      = Some (ret, [(0, demo_set "a" "1")], kept) /\ ret ∈ [AOF_OK; AOF_EMPTY; AOF_TRUNCATED] /\
    loadSingleAppendOnlyFile demo_exec demo_lookup 16 (fun _ _ => None) true true (kept ++ more) []
      = Some (ret', [(0, demo_set "a" "1"); (2, demo_set "c" "3")], kept ++ more) /\ ret' ∈ [AOF_OK; AOF_EMPTY].
Proof.
  apply (aof_torn_tail demo_exec demo_lookup 16 (fun _ _ => None) [(false, [(0, demo_set "a" "1")])] (false, [(1, demo_set "b" "2")]) [(false, [(2, demo_set "c" "3")])] []).
  - apply demo_table.
  - unfold INT32_MAX. lia.
  - demo_units.
  - demo_units.
  - by eexists.
  - demo_units.
  - exists (drop 30 (log_bytes (raw 0 (calls_of [(false, [(1, demo_set "b" "2")])])))). split; [done|]. symmetry. apply take_drop.
Defined.

Lemma app_before_last {A} (l : list A) x cs c cs' : l ++ [x] = cs ++ c :: cs' -> cs = take (length cs) l.
Proof.
  intros E. pose proof (f_equal length E) as Hl. rewrite !length_app in Hl. cbn [length] in Hl.
  apply (f_equal (take (length cs))) in E. rewrite take_app_length, take_app_le in E by lia. by symmetry.
Qed.

(** C19: when the log stops inside a command of a transaction, after its MULTI,
    the EXEC that ends it included, the file is cut after the last complete
    command and not before the MULTI: the transaction stays open in the file.
    The writes of the next run are appended to it; if they are single commands,
    so that no EXEC of a later transaction closes it, the next load drops all of
    them and cuts the file before the MULTI. *)
Theorem torn_transaction_drops {D} (exec : D -> Z -> args -> D) lookup dbnum rdb_load us ops cs c cs' t vs d :
  table_ok lookup -> dbnum <= INT32_MAX -> Forall (unit_ok lookup dbnum) us -> Forall (op_ok lookup dbnum) ops ->
  raw (sel_after (-1) (calls_of us)) ops ++ [[EXEC]] = cs ++ c :: cs' -> t <> [] -> torn t (cmd_bytes c) ->
  Forall (unit_ok lookup dbnum) vs -> Forall single vs ->
  let good := log_bytes (raw (-1) (calls_of us)) in
  let kept := good ++ log_bytes ([MULTI] :: cs) in
  loadSingleAppendOnlyFile exec lookup dbnum rdb_load true true (kept ++ t) d = Some (AOF_TRUNCATED, apply_units exec d us, kept) /\
  loadSingleAppendOnlyFile exec lookup dbnum rdb_load true true (kept ++ log_bytes (raw (-1) (calls_of vs))) d
    = Some (AOF_TRUNCATED, apply_units exec d us, good).
Proof.
  intros [Hs Hm He] Hd Hus Hops E Hne Ht Hvs Hsv good kept. set (cs0 := raw (-1) (calls_of us)) in *.
  destruct (replay_units exec lookup dbnum Hs Hm He Hd us (-1) 0 d Hus) as (id & Hr & _); [by left|]. fold cs0 in Hr.
  assert (Forall cmd_ok cs0) as Hcs0 by (eapply raw_ok; [done|by eapply unit_calls_ok]).
  assert (Forall cmd_ok (cs ++ c :: cs')) as [Hcs [Hc _]%Forall_cons]%Forall_app.
  { rewrite <- E. apply Forall_app. split; [|by repeat constructor]. eapply raw_ok; [done|]. eapply Forall_impl; [exact Hops|]. intros o (? & ? & _). split; [by right|done]. }
  assert (Forall (plain_cmd lookup) cs) as Hpl. { apply app_before_last in E as ->. apply Forall_take. by apply (raw_plain lookup dbnum). }
  assert (cmd_ok [MULTI]) as Hmo by (split; [done|]; constructor; [done|constructor]).
  set (vraw := raw (-1) (calls_of vs)). assert (Forall (plain_cmd lookup) vraw) as Hvp.
  { unfold vraw. rewrite calls_single by done. apply (raw_plain lookup dbnum Hs). by apply ops_single. }
  assert (Forall cmd_ok vraw) as Hvo by (eapply raw_ok; [done|by eapply unit_calls_ok]).
  unfold kept, good. rewrite <- log_bytes_app. split.
  - apply (load_stopped exec lookup dbnum rdb_load (cs0 ++ [MULTI] :: cs) (Some (queue_of lookup cs)) c t d id); [|
    |done|done|done].
    + apply Forall_app. split; [done|by constructor].
    + rewrite (replay_app _ _ _ _ _ _ _ _ _ Hr). cbn [replay]. rewrite Hm. cbn [mbind option_bind run_command call_proc]. rewrite decide_True by done. by apply replay_queue.
  - rewrite <- log_bytes_app, <- app_assoc. cbn [app].
    apply (load_open_multi exec lookup dbnum rdb_load cs0 (cs ++ vraw) [MULTI] (queue_of lookup (cs ++ vraw)) d id); [|done|done| |].
    + apply Forall_app. split; [done|]. constructor; [done|]. by apply Forall_app.
    + apply (replay_queue exec lookup dbnum (cs ++ vraw) _ []). by apply Forall_app.
    + apply Forall_app. split; eapply Forall_impl; [exact Hpl| |exact Hvp|]; intros argv [H|H]; congruence.
Qed.

(** The EXEC after two commands is torn. *)
Lemma torn_transaction_drops_witness :
  let kept := log_bytes [[MULTI]; select_cmd 0; demo_set "a" "1"; demo_set "b" "2"] in
  loadSingleAppendOnlyFile demo_exec demo_lookup 16 (fun _ _ => None) true true (kept ++ lit "*1") [] = Some (AOF_TRUNCATED, [], kept) /\
  loadSingleAppendOnlyFile demo_exec demo_lookup 16 (fun _ _ => None) true true (kept ++ log_bytes [select_cmd 0; demo_set "c" "3"]) [] = Some (AOF_TRUNCATED, [], []).
Proof.
  apply (torn_transaction_drops demo_exec demo_lookup 16 (fun _ _ => None) [] [(0, demo_set "a" "1"); (0, demo_set "b" "2")]
    [select_cmd 0; demo_set "a" "1"; demo_set "b" "2"] [EXEC] [] (lit "*1") [(false, [(0, demo_set "c" "3")])] []).
  - apply demo_table.
  - unfold INT32_MAX. lia.
  - demo_units.
  - demo_units.
  - done.
  - done.
  - exists (drop 2 (cmd_bytes [EXEC])). split; [done|reflexivity].
  - demo_units.
  - constructor; [by eexists|constructor].
Defined.

(** A file with an RDB part whose first command after it is torn is cut at
    offset 0: the RDB part is lost. *)
Example torn_after_preamble :
  let rdb (d : list (Z * args)) (file : bytes) := Some ([(0, demo_set "a" "1")], drop 8 file) in
  loadSingleAppendOnlyFile demo_exec demo_lookup 16 rdb true true (lit "REDIS011*2") [] = Some (AOF_TRUNCATED, [(0, demo_set "a" "1")], []).
Proof. vm_compute. reflexivity. Qed.

(** An annotation that stops before its newline is skipped and stays in the
    file; the command appended after it later makes the file unreadable. *)
Example torn_annotation :
  let text := log_bytes [select_cmd 0; demo_set "a" "1"] ++ lit "#TS:17" in
  let d := [(0, demo_set "a" "1")] in
  loadSingleAppendOnlyFile demo_exec demo_lookup 16 (fun _ _ => None) true true text [] = Some (AOF_OK, d, text) /\
  let text' := text ++ log_bytes [select_cmd 0; demo_set "b" "2"] in
  loadSingleAppendOnlyFile demo_exec demo_lookup 16 (fun _ _ => None) true true text' [] = Some (AOF_FAILED, d, text').
Proof. vm_compute. done. Qed.
