(* ===== verification/AofManifest.v ===== *)
(** * The manifest of the append only files (aof.c)

    The manifest lists the files of the append only log: one base file, the
    incremental files in their order, and the history files that wait for
    deletion.  This file models the structure [aofManifest], its text form, the
    parser of this text, the operations that make new names and move files to the
    history list, and the delay between automatic rewrites.

    A string is the list of its characters; a list of adlist.c is the list of its
    values (Adlist.v is about the nodes).  The sequence numbers are [long long];
    the theorems keep them below [2^62].

    Theorems: reading the text of a manifest gives the manifest back; the
    operations keep the files of a manifest apart from each other and in order;
    an automatic rewrite is not delayed for more than an hour. *)

From Stdlib Require Import String.
From S2P Require Import Prelude Util Sds SdsText AofFile.

#[local] Set Default Proof Using "Type".

(** The values of [aof_file_type]. *)
Definition AOF_FILE_TYPE_BASE : Z := 98.
Definition AOF_FILE_TYPE_HIST : Z := 104.
Definition AOF_FILE_TYPE_INCR : Z := 105.

Record aofInfo := AofInfo {
  file_name : bytes;
  file_seq : Z;
  file_type : Z;
}.

Record aofManifest := AofManifest {
  base_aof_info : option aofInfo;
  incr_aof_list : list aofInfo;
  history_aof_list : list aofInfo;
  curr_base_file_seq : Z;
  curr_incr_file_seq : Z;
  dirty : bool;
}.

Definition aofManifestCreate : aofManifest := AofManifest None [] [] 0 0 false.

(** ** The text *)

(** [sdscatprintf] with two strings, a number and a character. *)
Definition aofInfoFormat (buf : bytes) (ai : aofInfo) : option bytes :=
  filename ← (if sdsneedsrepr (file_name ai) then s ← str_empty; sdscatrepr s (file_name ai) else Some (file_name ai));
  Some (buf ++ lit "file" ++ [32] ++ cstr filename ++ [32] ++ lit "seq" ++ [32] ++ fmt_d (file_seq ai) ++ [32] ++ lit "type" ++ [32] ++ [file_type ai] ++ [10]).

Fixpoint format_list (buf : bytes) (l : list aofInfo) : option bytes :=
  match l with
  | [] => Some buf
  | ai :: l => buf ← aofInfoFormat buf ai; format_list buf l
  end.

Definition getAofManifestAsString (am : aofManifest) : option bytes :=
  buf ← match base_aof_info am with Some ai => aofInfoFormat [] ai | None => Some [] end;
  buf ← format_list buf (history_aof_list am);
  format_list buf (incr_aof_list am).

(** The values of [err]. *)
Inductive am_err := EmptyManifest | LongLine | BadFormat | PathName | DuplicateBase | NonMonotonic | UnknownType.

(** util.c: no slash and no backslash in the C string. *)
Definition pathIsBaseName (path : bytes) : bool := bool_decide (47 ∉ path) && bool_decide (92 ∉ path).

(** The [for] loop over the pairs of words. *)
Fixpoint parse_fields (argv : list bytes) (name : option bytes) (seq type : Z) : am_err + (option bytes * Z * Z) :=
  match argv with
  | key :: value :: argv =>
      if strcaseeq (cstr key) (lit "file") then
        let name := cstr value in
        if pathIsBaseName name then parse_fields argv (Some name) seq type else inl PathName
      else if strcaseeq (cstr key) (lit "seq") then parse_fields argv name (strtol (cstr value)) type
      else if strcaseeq (cstr key) (lit "type") then parse_fields argv name seq (default 0 (head value))
      else parse_fields argv name seq type
  | _ => inr (name, seq, type)
  end.

(** Adding the file of a line to the manifest, with [maxseq]. *)
Definition add_info (am : aofManifest) (maxseq : Z) (ai : aofInfo) : am_err + (aofManifest * Z) :=
  let '(AofManifest base incr hist bseq iseq dirty) := am in
  if decide (file_type ai = AOF_FILE_TYPE_BASE) then
    match base with
    | Some _ => inl DuplicateBase
    | None => inr (AofManifest (Some ai) incr hist (file_seq ai) iseq dirty, maxseq)
    end
  else if decide (file_type ai = AOF_FILE_TYPE_HIST) then inr (AofManifest base incr (hist ++ [ai]) bseq iseq dirty, maxseq)
  else if decide (file_type ai = AOF_FILE_TYPE_INCR) then
    if decide (file_seq ai <= maxseq) then inl NonMonotonic
    else inr (AofManifest base (incr ++ [ai]) hist bseq (file_seq ai) dirty, file_seq ai)
  else inl UnknownType.

(** One line of the file, in [buf]. *)
Definition load_line (am : aofManifest) (maxseq : Z) (buf : bytes) : option (am_err + (aofManifest * Z)) :=
  if decide (head buf = Some 35) then Some (inr (am, maxseq))
  else if decide (10 ∉ cstr buf) then Some (inl LongLine)
  else
    let line := trim [32; 9; 13; 10] (cstr buf) in
    if decide (line = []) then Some (inl BadFormat)
    else
      r ← sdssplitargs line;
      match r with
      | None => Some (inl BadFormat)
      | Some argv =>
          if decide (zlen argv < 6 \/ zlen argv mod 2 <> 0) then Some (inl BadFormat)
          else
            match parse_fields argv None 0 0 with
            | inl err => Some (inl err)
            | inr (None, _, _) => Some (inl BadFormat)
            | inr (Some name, seq, type) =>
                if decide (seq = 0 \/ type = 0) then Some (inl BadFormat) else Some (add_info am maxseq (AofInfo name seq type))
            end
      end.

Definition MANIFEST_MAX_LINE : Z := 1024.

Fixpoint load_lines (fuel : nat) (rest : bytes) (linenum : Z) (am : aofManifest) (maxseq : Z) : option (am_err + aofManifest) :=
  match fuel with
  | O => None
  | S fuel =>
      match fgets (MANIFEST_MAX_LINE + 1) rest with
      | None => if decide (linenum = 0) then Some (inl EmptyManifest) else Some (inr am)
      | Some (buf, rest) =>
          r ← load_line am maxseq buf;
          match r with
          | inl err => Some (inl err)
          | inr (am, maxseq) => load_lines fuel rest (linenum + 1) am maxseq
          end
      end
  end.

(** The contents of the file are [file]; an error is the [exit(1)] after
    [loaderr]. *)
Definition aofLoadManifestFromFile (file : bytes) : option (am_err + aofManifest) := load_lines (S (length file)) file 0 aofManifestCreate 0.

(** ** New names, and the history list *)

Section names.
Variable aof_filename : bytes.

Definition getAofManifestFileName : bytes := aof_filename ++ lit ".manifest".
Definition getTempAofManifestFileName : bytes := lit "temp-" ++ aof_filename ++ lit ".manifest".
Definition getTempIncrAofName : bytes := lit "temp-" ++ aof_filename ++ lit ".incr".

Definition base_name (rdb : bool) (seq : Z) : bytes := aof_filename ++ lit "." ++ fmt_d seq ++ lit ".base" ++ (if rdb then lit ".rdb" else lit ".aof").
Definition incr_name (seq : Z) : bytes := aof_filename ++ lit "." ++ fmt_d seq ++ lit ".incr" ++ lit ".aof".

(** The deep copy keeps the values. *)
Definition aofManifestDup (orig : aofManifest) : aofManifest :=
  AofManifest (base_aof_info orig) (incr_aof_list orig) (history_aof_list orig) (curr_base_file_seq orig) (curr_incr_file_seq orig) (dirty orig).

Definition to_history (ai : aofInfo) : aofInfo := AofInfo (file_name ai) (file_seq ai) AOF_FILE_TYPE_HIST.

(** The new name and the changed manifest. *)
Definition getNewBaseFileNameAndMarkPreAsHistory (aof_use_rdb_preamble : bool) (am : aofManifest) : option (bytes * aofManifest) :=
  hist ← match base_aof_info am with
         | Some ai => _ ← assert (file_type ai = AOF_FILE_TYPE_BASE); Some (to_history ai :: history_aof_list am)
         | None => Some (history_aof_list am)
         end;
  let seq := curr_base_file_seq am + 1 in
  let name := base_name aof_use_rdb_preamble seq in
  Some (name, AofManifest (Some (AofInfo name seq AOF_FILE_TYPE_BASE)) (incr_aof_list am) hist seq (curr_incr_file_seq am) true).

Definition getNewIncrAofName (am : aofManifest) : bytes * aofManifest :=
  let seq := curr_incr_file_seq am + 1 in
  let name := incr_name seq in
  (name, AofManifest (base_aof_info am) (incr_aof_list am ++ [AofInfo name seq AOF_FILE_TYPE_INCR]) (history_aof_list am) (curr_base_file_seq am) seq true).

Definition getLastIncrAofName (am : aofManifest) : bytes * aofManifest :=
  match last (incr_aof_list am) with
  | None => getNewIncrAofName am
  | Some ai => (file_name ai, am)
  end.

(** The loop of [markRewrittenIncrAofAsHistory], from the tail: every node it
    meets moves to the head of the history list. *)
Fixpoint move_to_history (incr_rev hist : list aofInfo) : option (list aofInfo) :=
  match incr_rev with
  | [] => Some hist
  | ai :: incr_rev => _ ← assert (file_type ai = AOF_FILE_TYPE_INCR); move_to_history incr_rev (to_history ai :: hist)
  end.

(** [aof_enabled] is [server.aof_fd != -1]. *)
Definition markRewrittenIncrAofAsHistory (aof_enabled : bool) (am : aofManifest) : option aofManifest :=
  match reverse (incr_aof_list am) with
  | [] => Some am
  | ai :: incr_rev =>
      let '(kept, moved) := if aof_enabled then ([ai], incr_rev) else ([], ai :: incr_rev) in
      hist ← move_to_history moved (history_aof_list am);
      Some (AofManifest (base_aof_info am) kept hist (curr_base_file_seq am) (curr_incr_file_seq am) true)
  end.

Definition getBaseAndIncrAppendOnlyFilesNum (am : aofManifest) : Z :=
  (if base_aof_info am then 1 else 0) + zlen (incr_aof_list am).
End names.

(** ** The delay between automatic rewrites *)

Definition AOF_REWRITE_LIMITE_THRESHOLD : Z := 3.
Definition AOF_REWRITE_LIMITE_MAX_MINUTES : Z := 60.

(** The two static variables of [aofRewriteLimited]. *)
Record limit_state := LimitState { next_delay_minutes : Z; next_rewrite_time : Z }.

Definition aofRewriteLimited (failures unixtime : Z) (st : limit_state) : bool * limit_state :=
  if decide (failures < AOF_REWRITE_LIMITE_THRESHOLD) then (false, LimitState 0 0)
  else if decide (next_rewrite_time st <> 0) then
    if decide (unixtime < next_rewrite_time st) then (true, st) else (false, LimitState (next_delay_minutes st) 0)
  else
    let delay := if decide (next_delay_minutes st = 0) then 1 else next_delay_minutes st * 2 in
    let delay := if decide (delay > AOF_REWRITE_LIMITE_MAX_MINUTES) then AOF_REWRITE_LIMITE_MAX_MINUTES else delay in
    (true, LimitState delay (unixtime + delay * 60)).

(** ** Reading the text back *)

(** A file that a line of the manifest can describe.  [sdsneedsrepr] does not
    look for single quotes, which [sdssplitargs] treats as quotes. *)
Record name_ok (name : bytes) : Prop := {
  name_nonempty : name <> [];
  name_bytes : bytes_ok name;
  name_no_nul : 0 ∉ name;
  name_base : pathIsBaseName name = true;
  name_quote : 39 ∉ name \/ sdsneedsrepr name = true;
  name_short : zlen name <= 240;
}.

Record info_ok (ai : aofInfo) : Prop := {
  info_name : name_ok (file_name ai);
  info_seq : 0 < file_seq ai < 2 ^ 63;
  info_type : file_type ai ∈ [AOF_FILE_TYPE_BASE; AOF_FILE_TYPE_HIST; AOF_FILE_TYPE_INCR];
}.

(** The word for a file name, and the six words of a line. *)
Definition name_word (name : bytes) : bytes := if sdsneedsrepr name then repr name else name.
Definition info_words (ai : aofInfo) : list bytes :=
  [lit "file"; name_word (file_name ai); lit "seq"; fmt_d (file_seq ai); lit "type"; [file_type ai]].
Definition info_line (ai : aofInfo) : bytes := words_line (info_words ai).
Definition info_args (ai : aofInfo) : list bytes := [lit "file"; file_name ai; lit "seq"; fmt_d (file_seq ai); lit "type"; [file_type ai]].

Lemma repr_clean name : bytes_ok name -> 0 ∉ repr name /\ 10 ∉ repr name.
Proof.
  intros Hb. assert (forall c, byte_ok c -> 0 ∉ repr_char c /\ 10 ∉ repr_char c) as Hc.
  { apply (byte_cases (fun c => 0 ∉ repr_char c /\ 10 ∉ repr_char c)). vm_compute. reflexivity. }
  assert (forall x, x = 0 \/ x = 10 -> x ∉ repr name) as H; [|split; apply H; auto].
  intros x Hx Hin. unfold repr in Hin. apply elem_of_cons in Hin as [->|[Hin|Hin%list_elem_of_singleton]%elem_of_app]; [lia| |lia].
  apply list_elem_of_In, in_concat in Hin as (w & Hw & Hin). apply list_elem_of_In, list_elem_of_fmap in Hw as (c & -> & Hin').
  rewrite Forall_forall in Hb. destruct (Hc c (Hb c Hin')) as [H0 H10]. apply list_elem_of_In in Hin. destruct Hx as [->| ->]; done.
Qed.

Lemma name_word_clean name : name_ok name -> 0 ∉ name_word name /\ 10 ∉ name_word name.
Proof.
  intros []. unfold name_word. destruct (sdsneedsrepr name) eqn:E; [by apply repr_clean|]. destruct name_quote0 as [Hq|?]; [|done].
  pose proof (sdsneedsrepr_plain name E Hq) as Hp. rewrite Forall_forall in Hp. split; [done|]. intros Hin. apply Hp in Hin as (_ & Hs & _). done.
Qed.

Lemma zlen_name_word name : name_ok name -> 0 < zlen (name_word name) <= 962.
Proof.
  intros []. assert (0 < zlen name) by (destruct name; [done|zlia]). unfold name_word. destruct (sdsneedsrepr name); [|lia].
  pose proof (zlen_repr name name_bytes0). lia.
Qed.

Lemma digits_plain ds : Forall digit ds -> Forall plain ds.
Proof.
  intros H. eapply Forall_impl; [exact H|]. intros c Hc. unfold digit in Hc. unfold plain, isspace. split_and!; [lia| |lia|lia].
  apply bool_decide_eq_false. lia.
Qed.

Lemma info_words_parse ai : info_ok ai -> Forall2 parses (info_words ai) (info_args ai).
Proof.
  intros [[] Hs Ht]. destruct (fmt_d_nat (file_seq ai)) as (Hne & Hd & _); [lia|]. unfold info_words, info_args.
  assert (parses (name_word (file_name ai)) (file_name ai)).
  { unfold name_word. destruct (sdsneedsrepr (file_name ai)) eqn:E; [by apply parses_repr|].
    destruct name_quote0 as [Hq|?]; [|done]. apply parses_plain; [done|]. by apply sdsneedsrepr_plain. }
  assert (parses (fmt_d (file_seq ai)) (fmt_d (file_seq ai))) by (apply parses_plain; [done|by apply digits_plain]).
  assert (parses (lit "file") (lit "file")) by (apply parses_plain; [done|by repeat constructor]).
  assert (parses (lit "seq") (lit "seq")) by (apply parses_plain; [done|by repeat constructor]).
  assert (parses (lit "type") (lit "type")) by (apply parses_plain; [done|by repeat constructor]).
  assert (parses [file_type ai] [file_type ai]).
  { apply parses_plain; [done|]. constructor; [|constructor]. rewrite !elem_of_cons in Ht.
    destruct Ht as [->|[->|[->|Ht]]]; [done|done|done|by apply elem_of_nil in Ht]. }
  do 6 (apply Forall2_cons_2; [assumption|]). constructor.
Qed.

Lemma info_line_eq ai : info_line ai = lit "file" ++ [32] ++ name_word (file_name ai) ++ [32] ++ lit "seq" ++ [32] ++ fmt_d (file_seq ai) ++ [32] ++ lit "type" ++ [32] ++ [file_type ai].
Proof. done. Qed.

Lemma info_line_clean ai : info_ok ai -> 0 ∉ info_line ai /\ 10 ∉ info_line ai /\ zlen (info_line ai) < 1024.
Proof.
  intros [Hn Hs Ht]. destruct (name_word_clean _ Hn) as [Hn0 Hn10]. destruct (fmt_d_nat (file_seq ai)) as (_ & Hd & _); [lia|].
  pose proof (zlen_name_word _ Hn). pose proof (zlen_fmt_d (file_seq ai) ltac:(unfold in_i; lia)).
  assert (0 ∉ fmt_d (file_seq ai)) by (apply digits_no; [done|unfold digit; lia]). assert (10 ∉ fmt_d (file_seq ai)) by (apply digits_no; [done|unfold digit; lia]).
  assert (0 ∉ [file_type ai] /\ 10 ∉ [file_type ai]) as [Ht0 Ht10].
  { rewrite !elem_of_cons in Ht. destruct Ht as [->|[->|[->|Ht]]]; [| | |by apply elem_of_nil in Ht]; split; apply (bool_decide_eq_true_1 _); reflexivity. }
  rewrite info_line_eq. rewrite !not_elem_of_app. split_and!; first [assumption|apply (bool_decide_eq_true_1 _); reflexivity|idtac].
  autorewrite with zlen. change (zlen (lit "file")) with 4. change (zlen (lit "seq")) with 3. change (zlen (lit "type")) with 4. lia.
Qed.

Lemma aofInfoFormat_ok buf ai : info_ok ai -> aofInfoFormat buf ai = Some (buf ++ info_line ai ++ [10]).
Proof.
  intros [Hn Hs Ht]. destruct (name_word_clean _ Hn) as [Hn0 _]. destruct Hn. unfold aofInfoFormat.
  assert ((if sdsneedsrepr (file_name ai) then s ← str_empty; sdscatrepr s (file_name ai) else Some (file_name ai)) = Some (name_word (file_name ai))) as ->.
  { unfold name_word. destruct (sdsneedsrepr (file_name ai)); [|done]. cbn [str_empty char_ops mbind option_bind].
    destruct (sdscatrepr_ok (str := bytes) [] [] (file_name ai)) as (s & -> & Hr); [done|done|rewrite zlen_nil; lia|]. cbn in Hr. by rewrite Hr. }
  cbn [mbind option_bind]. rewrite cstr_clean by done. rewrite info_line_eq. by rewrite <- !app_assoc.
Qed.

Lemma format_list_ok buf l : Forall info_ok l -> format_list buf l = Some (buf ++ concat ((fun ai => info_line ai ++ [10]) <$> l)).
Proof.
  intros H. revert buf. induction H as [|ai l Hok _ IH]; intros buf; cbn [format_list fmap list_fmap concat]; [by rewrite app_nil_r|].
  rewrite aofInfoFormat_ok by done. cbn [mbind option_bind]. rewrite IH. by rewrite <- app_assoc.
Qed.

(** The files of a manifest in the order of its text. *)
Definition am_files (am : aofManifest) : list aofInfo := option_list (base_aof_info am) ++ history_aof_list am ++ incr_aof_list am.
Definition am_text (am : aofManifest) : bytes := concat ((fun ai => info_line ai ++ [10]) <$> am_files am).

Lemma getAofManifestAsString_ok am : Forall info_ok (am_files am) -> getAofManifestAsString am = Some (am_text am).
Proof.
  unfold am_files, getAofManifestAsString, am_text. rewrite !Forall_app. intros (Hb & Hh & Hi).
  assert (match base_aof_info am with Some ai => aofInfoFormat [] ai | None => Some [] end = format_list [] (option_list (base_aof_info am))) as ->.
  { destruct (base_aof_info am) as [ai|]; [|done]. change (format_list [] (option_list (Some ai))) with (buf ← aofInfoFormat [] ai; Some buf).
    by destruct (aofInfoFormat [] ai). }
  rewrite format_list_ok by done. cbn [mbind option_bind]. rewrite format_list_ok by done. cbn [mbind option_bind]. rewrite format_list_ok by done.
  f_equal. unfold am_files. rewrite !fmap_app, !concat_app. cbn [app]. by rewrite <- app_assoc.
Qed.

Lemma drop_while_none (P : Z -> bool) c l : P c = false -> drop_while P (c :: l) = c :: l.
Proof. intros H. cbn. by rewrite H. Qed.

Lemma trim_line cset c l x : in_cset cset c = false -> in_cset cset x = false -> in_cset cset 10 = true -> trim cset ((c :: l ++ [x]) ++ [10]) = c :: l ++ [x].
Proof.
  intros Hc Hx H10. unfold trim. cbn [app]. rewrite drop_while_none by done. change (c :: (l ++ [x]) ++ [10]) with (((c :: l) ++ [x]) ++ [10]).
  rewrite rtrim_snoc, H10, rtrim_snoc, Hx. done.
Qed.

Lemma parse_fields_info ai : info_ok ai -> parse_fields (info_args ai) None 0 0 = inr (Some (file_name ai), file_seq ai, file_type ai).
Proof.
  intros [[] Hs Ht]. destruct (fmt_d_nat (file_seq ai)) as (Hne & Hd & Hv & _); [lia|]. unfold info_args. cbn [parse_fields].
  change (strcaseeq (cstr (lit "file")) (lit "file")) with true. change (strcaseeq (cstr (lit "seq")) (lit "file")) with false.
  change (strcaseeq (cstr (lit "seq")) (lit "seq")) with true. change (strcaseeq (cstr (lit "type")) (lit "file")) with false.
  change (strcaseeq (cstr (lit "type")) (lit "seq")) with false. change (strcaseeq (cstr (lit "type")) (lit "type")) with true. cbv iota.
  rewrite (cstr_clean (file_name ai)) by done. rewrite name_base0. rewrite cstr_clean by (apply digits_no; [done|unfold digit; lia]).
  rewrite <- (app_nil_r (fmt_d (file_seq ai))). rewrite strtol_digits; [by rewrite Hv|done|by left|done|unfold LLONG_MAX; lia].
Qed.

Lemma load_line_ok am maxseq ai : info_ok ai -> load_line am maxseq (info_line ai ++ [10]) = Some (add_info am maxseq ai).
Proof.
  intros Hok. destruct (info_line_clean ai Hok) as (H0 & H10 & Hz).
  assert (exists l, info_line ai = 102 :: l ++ [file_type ai]) as (l & El).
  { exists ([105; 108; 101] ++ [32] ++ name_word (file_name ai) ++ [32] ++ lit "seq" ++ [32] ++ fmt_d (file_seq ai) ++ [32] ++ lit "type" ++ [32]).
    rewrite info_line_eq. rewrite <- !app_assoc. reflexivity. }
  unfold load_line. rewrite decide_False by (rewrite El; done).
  rewrite cstr_clean by (rewrite not_elem_of_app; split; [done|apply (bool_decide_eq_true_1 _); reflexivity]).
  rewrite decide_False by (intros H; apply H, elem_of_app; right; by constructor).
  assert (trim [32; 9; 13; 10] (info_line ai ++ [10]) = info_line ai) as ->.
  { rewrite El. apply trim_line; [done| |done]. destruct Hok as [_ _ Ht]. rewrite !elem_of_cons in Ht.
    destruct Ht as [->|[->|[->|Ht]]]; [done|done|done|by apply elem_of_nil in Ht]. }
  rewrite decide_False by (rewrite El; done).
  destruct (sdssplitargs_words (str := bytes) _ _ (info_words_parse ai Hok)) as (vec & Hv & Hr); [fold (info_line ai); lia|].
  fold (info_line ai) in Hv. rewrite Hv. cbn [mbind option_bind]. assert (vec = info_args ai) as ->.
  { clear -Hr. cbn in Hr. set (l := info_args ai) in *. clearbody l. induction Hr; congruence. }
  rewrite decide_False by (change (zlen (info_args ai)) with 6; intros [?|?]; [lia|done]). rewrite parse_fields_info by done.
  destruct Hok as [_ Hs Ht]. rewrite decide_False; [by destruct ai|]. intros [?|E]; [lia|]. rewrite E in Ht.
  rewrite !elem_of_cons in Ht. destruct Ht as [?|[?|[?|Ht]]]; [done|done|done|by apply elem_of_nil in Ht].
Qed.

(** Adding files in order. *)
Fixpoint add_all (am : aofManifest) (maxseq : Z) (l : list aofInfo) : am_err + (aofManifest * Z) :=
  match l with
  | [] => inr (am, maxseq)
  | ai :: l => match add_info am maxseq ai with inl err => inl err | inr (am, maxseq) => add_all am maxseq l end
  end.

Lemma add_all_app am maxseq l k :
  add_all am maxseq (l ++ k) = match add_all am maxseq l with inl err => inl err | inr (am, maxseq) => add_all am maxseq k end.
Proof. revert am maxseq. induction l as [|ai l IH]; intros am maxseq; [done|]. cbn [add_all app]. destruct (add_info am maxseq ai) as [|[??]]; [done|]. apply IH. Qed.

Lemma load_lines_ok l fuel n am maxseq am' maxseq' : Forall info_ok l -> (length l < fuel)%nat -> 0 <= n -> l <> [] \/ n <> 0 ->
  add_all am maxseq l = inr (am', maxseq') -> load_lines fuel (concat ((fun ai => info_line ai ++ [10]) <$> l)) n am maxseq = Some (inr am').
Proof.
  intros H. revert fuel n am maxseq. induction H as [|ai l Hok _ IH]; intros fuel n am maxseq Hf Hn Hne Ha; (destruct fuel as [|fuel]; [simpl in Hf; lia|]).
  - injection Ha as <- <-. cbn. destruct Hne as [?|?]; [done|]. by rewrite decide_False.
  - cbn [fmap list_fmap concat load_lines]. rewrite <- app_assoc. cbn [app]. destruct (info_line_clean ai Hok) as (_ & H10 & Hz).
    rewrite fgets_line by (done || (unfold MANIFEST_MAX_LINE; lia)). rewrite load_line_ok by done. cbn [mbind option_bind]. cbn [add_all] in Ha.
    destruct (add_info am maxseq ai) as [|[am1 max1]]; [done|]. apply IH; [simpl in Hf; lia|lia|right; lia|done].
Qed.

(** A manifest whose text can be read back. *)
Record am_ok (am : aofManifest) : Prop := {
  am_infos : Forall info_ok (am_files am);
  am_base ai : base_aof_info am = Some ai -> file_type ai = AOF_FILE_TYPE_BASE;
  am_hist : Forall (fun ai => file_type ai = AOF_FILE_TYPE_HIST) (history_aof_list am);
  am_incr : Forall (fun ai => file_type ai = AOF_FILE_TYPE_INCR) (incr_aof_list am);
  am_sorted : StronglySorted Z.lt (file_seq <$> incr_aof_list am);
  am_some : am_files am <> [];
}.

(** What a restart knows of a manifest: its files, and the numbers of the last
    ones. *)
Definition reloaded (am : aofManifest) : aofManifest :=
  AofManifest (base_aof_info am) (incr_aof_list am) (history_aof_list am) (from_option file_seq 0 (base_aof_info am))
    (from_option file_seq 0 (last (incr_aof_list am))) false.

Lemma add_hist l base incr hist bseq iseq maxseq : Forall (fun ai => file_type ai = AOF_FILE_TYPE_HIST) l ->
  add_all (AofManifest base incr hist bseq iseq false) maxseq l = inr (AofManifest base incr (hist ++ l) bseq iseq false, maxseq).
Proof.
  intros H. revert hist. induction H as [|ai l Ht _ IH]; intros hist; cbn [add_all]; [by rewrite app_nil_r|].
  unfold add_info. rewrite Ht. rewrite (decide_False (P := AOF_FILE_TYPE_HIST = AOF_FILE_TYPE_BASE)), decide_True by done. rewrite IH. by rewrite <- app_assoc.
Qed.

Lemma add_incr l base incr hist bseq maxseq : Forall (fun ai => file_type ai = AOF_FILE_TYPE_INCR) l -> StronglySorted Z.lt (maxseq :: (file_seq <$> l)) ->
  exists max', add_all (AofManifest base incr hist bseq maxseq false) maxseq l
    = inr (AofManifest base (incr ++ l) hist bseq (from_option file_seq maxseq (last l)) false, max').
Proof.
  intros H. revert incr maxseq. induction H as [|ai l Ht _ IH]; intros incr maxseq Hs; cbn [add_all]; [exists maxseq; by rewrite app_nil_r|].
  cbn [fmap list_fmap] in Hs. apply StronglySorted_inv in Hs as [Hs [Hlt _]%Forall_cons]. unfold add_info. rewrite Ht.
  rewrite (decide_False (P := AOF_FILE_TYPE_INCR = AOF_FILE_TYPE_BASE)), (decide_False (P := AOF_FILE_TYPE_INCR = AOF_FILE_TYPE_HIST)), (decide_True (P := AOF_FILE_TYPE_INCR = AOF_FILE_TYPE_INCR)) by done.
  rewrite decide_False by lia. destruct (IH (incr ++ [ai]) (file_seq ai) Hs) as (max' & ->). exists max'. rewrite <- app_assoc. cbn [app].
  rewrite last_cons. by destruct (last l).
Qed.

Lemma add_files am : am_ok am -> exists max', add_all aofManifestCreate 0 (am_files am) = inr (reloaded am, max').
Proof.
  intros [Hi Hb Hh Hin Hs _]. unfold am_files, reloaded. rewrite add_all_app.
  assert (add_all aofManifestCreate 0 (option_list (base_aof_info am)) = inr (AofManifest (base_aof_info am) [] [] (from_option file_seq 0 (base_aof_info am)) 0 false, 0)) as ->.
  { destruct (base_aof_info am) as [ai|] eqn:E; [|done]. cbn. unfold add_info. rewrite (Hb ai eq_refl). by rewrite decide_True. }
  rewrite add_all_app, add_hist by done. apply add_incr; [done|]. constructor; [done|]. unfold am_files in Hi. rewrite !Forall_app in Hi. destruct Hi as (_ & _ & Hi).
  apply Forall_fmap. eapply Forall_impl; [exact Hi|]. intros ai [_ Hq _]. cbn. lia.
Qed.

Lemma manifest_text_ok am : am_ok am -> getAofManifestAsString am = Some (am_text am) /\ aofLoadManifestFromFile (am_text am) = Some (inr (reloaded am)).
Proof.
  intros Hok. pose proof (am_infos _ Hok) as Hi. split; [by apply getAofManifestAsString_ok|]. destruct (add_files am Hok) as (max' & Ha).
  unfold aofLoadManifestFromFile. eapply load_lines_ok; [done| |done|left; by apply am_some|exact Ha]. unfold am_text.
  clear. induction (am_files am) as [|ai l IH]; [simpl; lia|]. cbn [fmap list_fmap concat length]. rewrite !length_app. cbn [length]. lia.
Qed.

(** C16: the text that the server writes for a manifest is accepted by the
    loader, which finds the same base, incremental and history files.  The
    sequence numbers are those of the base file and of the last incremental file,
    or 0, and nothing is marked dirty; so when the numbers of the manifest were
    these, the manifest itself is given back, up to the dirty mark.  File names
    may need quoting, but ([am_ok]) have no NUL and at most 240 bytes, and one
    with a single quote must have another character that makes the server quote
    it: otherwise its line cannot be read ([quote_in_filename]). *)
Theorem manifest_roundtrip am : am_ok am ->
  exists text am', getAofManifestAsString am = Some text /\ aofLoadManifestFromFile text = Some (inr am') /\
    base_aof_info am' = base_aof_info am /\ incr_aof_list am' = incr_aof_list am /\ history_aof_list am' = history_aof_list am /\
    curr_base_file_seq am' = from_option file_seq 0 (base_aof_info am) /\
    curr_incr_file_seq am' = from_option file_seq 0 (last (incr_aof_list am)) /\ dirty am' = false /\
    (curr_base_file_seq am = from_option file_seq 0 (base_aof_info am) ->
     curr_incr_file_seq am = from_option file_seq 0 (last (incr_aof_list am)) -> dirty am = false -> am' = am).
Proof.
  intros Hok. destruct (manifest_text_ok am Hok) as [H1 H2]. eexists _, (reloaded am). split_and!; [exact H1|exact H2|done..|].
  destruct am as [b i h bseq iseq d]. cbn. by intros -> -> ->.
Qed.

(** A manifest with a name that needs quotes. *)
Definition demo_manifest : aofManifest :=
  let fn := lit "my aof" in
  AofManifest (Some (AofInfo (base_name fn true 2) 2 AOF_FILE_TYPE_BASE)) [AofInfo (incr_name fn 3) 3 AOF_FILE_TYPE_INCR; AofInfo (incr_name fn 4) 4 AOF_FILE_TYPE_INCR]
    [AofInfo (incr_name fn 2) 2 AOF_FILE_TYPE_HIST] 2 4 false.

Lemma manifest_roundtrip_witness :
  exists text, getAofManifestAsString demo_manifest = Some text /\ aofLoadManifestFromFile text = Some (inr demo_manifest).
Proof.
  destruct (manifest_roundtrip demo_manifest) as (text & am' & H1 & H2 & _ & _ & _ & _ & _ & _ & E); [|exists text; rewrite <- (E eq_refl eq_refl eq_refl) at 2; done].
  split.
  - unfold am_files, demo_manifest. cbn. repeat constructor; cbn;
      first [done|lia|apply (bool_decide_eq_true_1 _); reflexivity|right; reflexivity|idtac].
  - intros ai [= <-]. done.
  - repeat constructor.
  - repeat constructor.
  - cbn. repeat constructor.
  - done.
Defined.

(** ** The names *)

(** A value of the directive appendfilename; config.c refuses names that are not
    base names.  A name with a single quote is not one that the manifest can
    hold. *)
Record filename_ok (fn : bytes) : Prop := {
  fn_bytes : bytes_ok fn;
  fn_no_nul : 0 ∉ fn;
  fn_base : pathIsBaseName fn = true;
  fn_quote : 39 ∉ fn;
  fn_short : zlen fn <= 200;
}.

Section names_ok.
Variable fn : bytes.
Hypothesis Hfn : filename_ok fn.

Lemma pathIsBaseName_app a b : pathIsBaseName (a ++ b) = pathIsBaseName a && pathIsBaseName b.
Proof.
  unfold pathIsBaseName. apply eq_bool_prop_intro. rewrite !andb_True, !bool_decide_spec, !not_elem_of_app. tauto.
Qed.

Lemma digits_path ds : Forall digit ds -> pathIsBaseName ds = true.
Proof. intros H. unfold pathIsBaseName. rewrite !bool_decide_eq_true_2; [done| |]; apply digits_no; done || (unfold digit; lia). Qed.

(** The name of a file with a number and one of the suffixes. *)
Lemma numbered_ok s suffix : 0 <= s < 2 ^ 63 -> suffix ∈ [lit ".base.rdb"; lit ".base.aof"; lit ".incr.aof"] -> name_ok (fn ++ lit "." ++ fmt_d s ++ suffix).
Proof using Hfn.
  intros Hs Hsuf. destruct Hfn. destruct (fmt_d_nat s) as (_ & Hd & _); [lia|]. pose proof (zlen_fmt_d s ltac:(unfold in_i; lia)).
  assert (bytes_ok suffix /\ 0 ∉ suffix /\ pathIsBaseName suffix = true /\ 39 ∉ suffix /\ zlen suffix = 9) as (H1 & H2 & H3 & H4 & H5).
  { rewrite !elem_of_cons in Hsuf. destruct Hsuf as [->|[->|[->|Hsuf]]]; [| | |by apply elem_of_nil in Hsuf];
      (split_and!; [repeat constructor; unfold byte_ok; cbn; lia|apply (bool_decide_eq_true_1 _); reflexivity|reflexivity|apply (bool_decide_eq_true_1 _); reflexivity|reflexivity]). }
  assert (0 ∉ fmt_d s) by (apply digits_no; [done|unfold digit; lia]). assert (39 ∉ fmt_d s) by (apply digits_no; [done|unfold digit; lia]).
  assert (bytes_ok (fmt_d s)). { eapply Forall_impl; [exact Hd|]. unfold digit, byte_ok. intros. cbn in *. lia. }
  split.
  - by destruct fn.
  - rewrite !Forall_app. split_and!; try done. repeat constructor; unfold byte_ok; cbn; lia.
  - rewrite !not_elem_of_app. split_and!; try done. apply (bool_decide_eq_true_1 _); reflexivity.
  - rewrite !pathIsBaseName_app, fn_base0, (digits_path (fmt_d s)), H3 by done. done.
  - left. rewrite !not_elem_of_app. split_and!; try done. apply (bool_decide_eq_true_1 _); reflexivity.
  - rewrite !zlen_app. change (zlen (lit ".")) with 1. lia.
Qed.

Lemma incr_name_eq s : incr_name fn s = fn ++ lit "." ++ fmt_d s ++ lit ".incr.aof".
Proof. done. Qed.

Lemma base_name_eq rdb s : base_name fn rdb s = fn ++ lit "." ++ fmt_d s ++ (if rdb then lit ".base.rdb" else lit ".base.aof").
Proof. by destruct rdb. Qed.

Lemma incr_name_ok s : 0 <= s < 2 ^ 63 -> name_ok (incr_name fn s).
Proof using Hfn. intros Hs. rewrite incr_name_eq. apply numbered_ok; [done|]. rewrite !elem_of_cons. auto. Qed.

Lemma base_name_ok rdb s : 0 <= s < 2 ^ 63 -> name_ok (base_name fn rdb s).
Proof using Hfn. intros Hs. rewrite base_name_eq. apply numbered_ok; [done|]. rewrite !elem_of_cons. destruct rdb; auto. Qed.

Lemma suffix_inj (a b s t : bytes) : a ++ s = b ++ t -> zlen s = zlen t -> a = b /\ s = t.
Proof. intros H Hz. apply app_inj_2 in H; [done|]. unfold zlen in Hz. lia. Qed.

Lemma fmt_d_inj s t : 0 <= s < 2 ^ 63 -> 0 <= t < 2 ^ 63 -> fmt_d s = fmt_d t -> s = t.
Proof. intros Hs Ht E. destruct (fmt_d_nat s Hs) as (_ & _ & H1 & _), (fmt_d_nat t Ht) as (_ & _ & H2 & _). congruence. Qed.

Lemma incr_name_inj s t : 0 <= s < 2 ^ 63 -> 0 <= t < 2 ^ 63 -> incr_name fn s = incr_name fn t -> s = t.
Proof.
  intros Hs Ht. rewrite !incr_name_eq. intros E%app_inv_head%app_inv_head. apply suffix_inj in E as [E _]; [|done]. by apply fmt_d_inj.
Qed.

Lemma base_name_inj rdb rdb' s t : 0 <= s < 2 ^ 63 -> 0 <= t < 2 ^ 63 -> base_name fn rdb s = base_name fn rdb' t -> s = t.
Proof.
  intros Hs Ht. rewrite !base_name_eq. intros E%app_inv_head%app_inv_head. apply suffix_inj in E as [E _]; [by apply fmt_d_inj|]. by destruct rdb, rdb'.
Qed.

(** Names with different last nine characters. *)
Lemma suffix_neq (a b s t : bytes) : zlen s = zlen t -> s <> t -> a ++ s <> b ++ t.
Proof. intros Hz Hne E. by apply suffix_inj in E as [_ ?]. Qed.

Lemma incr_base_neq rdb s t : incr_name fn s <> base_name fn rdb t.
Proof. rewrite incr_name_eq, base_name_eq. rewrite !app_assoc. apply suffix_neq; by destruct rdb. Qed.

Lemma incr_manifest_neq s : incr_name fn s <> getAofManifestFileName fn.
Proof. rewrite incr_name_eq. unfold getAofManifestFileName. rewrite !app_assoc. by apply suffix_neq. Qed.

Lemma base_manifest_neq rdb s : base_name fn rdb s <> getAofManifestFileName fn.
Proof. rewrite base_name_eq. unfold getAofManifestFileName. rewrite !app_assoc. apply suffix_neq; by destruct rdb. Qed.

Lemma incr_temp_neq s : incr_name fn s <> getTempAofManifestFileName fn.
Proof. rewrite incr_name_eq. unfold getTempAofManifestFileName. rewrite !app_assoc. by apply suffix_neq. Qed.

Lemma base_temp_neq rdb s : base_name fn rdb s <> getTempAofManifestFileName fn.
Proof. rewrite base_name_eq. unfold getTempAofManifestFileName. rewrite !app_assoc. apply suffix_neq; by destruct rdb. Qed.

Lemma temp_manifest_neq : getTempAofManifestFileName fn <> getAofManifestFileName fn.
Proof. unfold getTempAofManifestFileName, getAofManifestFileName. intros E%(f_equal length). rewrite !length_app in E. simpl in E. lia. Qed.
End names_ok.

(** ** The invariant of the manifest *)

Section invariant.
Variable fn : bytes.

Definition incr_info (type s : Z) : aofInfo := AofInfo (incr_name fn s) s type.
Definition base_info (type : Z) (rdb : bool) (s : Z) : aofInfo := AofInfo (base_name fn rdb s) s type.

(** A history file was a base file before the current one, or an incremental
    file before the current ones. *)
Definition hist_ok (has_base : bool) (bseq iseq : Z) (seqs : list Z) (ai : aofInfo) : Prop :=
  (exists s, ai = incr_info AOF_FILE_TYPE_HIST s /\ 0 < s <= iseq /\ Forall (fun t => s < t) seqs) \/
  (exists rdb s, ai = base_info AOF_FILE_TYPE_HIST rdb s /\ 0 < s <= bseq /\ (has_base = true -> s < bseq)).

(** [seqs] are the numbers of the incremental files. *)
Record am_inv_seqs (am : aofManifest) (seqs : list Z) : Prop := {
  inv_bounds : 0 <= curr_base_file_seq am < 2 ^ 62 /\ 0 <= curr_incr_file_seq am < 2 ^ 62;
  inv_base ai : base_aof_info am = Some ai -> 0 < curr_base_file_seq am /\ exists rdb, ai = base_info AOF_FILE_TYPE_BASE rdb (curr_base_file_seq am);
  inv_incr : incr_aof_list am = incr_info AOF_FILE_TYPE_INCR <$> seqs;
  inv_sorted : StronglySorted Z.lt seqs;
  inv_range : Forall (fun s => 0 < s <= curr_incr_file_seq am) seqs;
  inv_last s : last seqs = Some s -> s = curr_incr_file_seq am;
  inv_hist : Forall (hist_ok (bool_decide (is_Some (base_aof_info am))) (curr_base_file_seq am) (curr_incr_file_seq am) seqs) (history_aof_list am);
}.

Definition am_inv (am : aofManifest) : Prop := exists seqs, am_inv_seqs am seqs.

Lemma am_inv_create : am_inv aofManifestCreate.
Proof. exists []. by split; cbn; repeat constructor. Qed.

Lemma sorted_snoc (l : list Z) x : StronglySorted Z.lt l -> Forall (fun y => y < x) l -> StronglySorted Z.lt (l ++ [x]).
Proof.
  intros Hs Hx. induction Hs as [|y l Hs IH Hy]; [by repeat constructor|]. apply Forall_cons in Hx as [Hyx Hx]. cbn [app]. constructor; [by apply IH|].
  apply Forall_app. split; [done|by constructor].
Qed.

Lemma getNewIncrAofName_inv am seqs : am_inv_seqs am seqs -> curr_incr_file_seq am + 1 < 2 ^ 62 ->
  am_inv_seqs (getNewIncrAofName fn am).2 (seqs ++ [curr_incr_file_seq am + 1]).
Proof.
  intros [Hb Hba Hi Hs Hr Hl Hh] Hlt. split; cbn [getNewIncrAofName snd base_aof_info incr_aof_list history_aof_list curr_base_file_seq curr_incr_file_seq]; [lia|done| | | | |].
  - rewrite Hi, fmap_app. done.
  - apply sorted_snoc; [done|]. eapply Forall_impl; [exact Hr|]. cbn. lia.
  - apply Forall_app. split; [|constructor; [lia|constructor]]. eapply Forall_impl; [exact Hr|]. cbn. lia.
  - intros s. rewrite last_snoc. by intros [= <-].
  - eapply Forall_impl; [exact Hh|]. intros ai [(s & -> & Hs' & Hall)|H]; [left|by right]. exists s. split_and!; [done|lia|lia|].
    apply Forall_app. split; [done|]. constructor; [lia|constructor].
Qed.

Lemma getNewBase_inv rdb am seqs : am_inv_seqs am seqs -> curr_base_file_seq am + 1 < 2 ^ 62 ->
  exists am', getNewBaseFileNameAndMarkPreAsHistory fn rdb am = Some (base_name fn rdb (curr_base_file_seq am + 1), am') /\ am_inv_seqs am' seqs /\
    base_aof_info am' = Some (base_info AOF_FILE_TYPE_BASE rdb (curr_base_file_seq am + 1)) /\ incr_aof_list am' = incr_aof_list am /\
    curr_incr_file_seq am' = curr_incr_file_seq am /\ curr_base_file_seq am' = curr_base_file_seq am + 1 /\ dirty am' = true.
Proof.
  intros [Hb Hba Hi Hs Hr Hl Hh] Hlt. unfold getNewBaseFileNameAndMarkPreAsHistory.
  set (hist := match base_aof_info am with Some ai => to_history ai :: history_aof_list am | None => history_aof_list am end).
  assert (match base_aof_info am with
         | Some ai => _ ← assert (file_type ai = AOF_FILE_TYPE_BASE); Some (to_history ai :: history_aof_list am)
         | None => Some (history_aof_list am)
         end = Some hist) as ->.
  { unfold hist. destruct (base_aof_info am) as [ai|]; [|done]. destruct (Hba ai eq_refl) as (_ & rdb' & ->). by rewrite assert_True. }
  cbn [mbind option_bind]. eexists. split; [done|]. split; [|done].
  split; cbn [base_aof_info incr_aof_list history_aof_list curr_base_file_seq curr_incr_file_seq]; [lia| |done|done|done|done|].
  - intros ai [= <-]. split; [lia|]. by exists rdb.
  - assert (Forall (hist_ok true (curr_base_file_seq am + 1) (curr_incr_file_seq am) seqs) (history_aof_list am)) as Hh'.
    { eapply Forall_impl; [exact Hh|]. intros ai [H|(rdb' & s & -> & Hs' & _)]; [by left|right]. exists rdb', s. split_and!; [done|lia|lia|lia]. }
    unfold hist. destruct (base_aof_info am) as [ai|]; [|done]. constructor; [|done]. destruct (Hba ai eq_refl) as (Hp & rdb' & ->). right. exists rdb', (curr_base_file_seq am).
    split_and!; [done|lia|lia|lia].
Qed.

Lemma move_to_history_ok l hist : Forall (fun ai => file_type ai = AOF_FILE_TYPE_INCR) l ->
  move_to_history l hist = Some (reverse (to_history <$> l) ++ hist).
Proof.
  intros H. revert hist. induction H as [|ai l Ht _ IH]; intros hist; [done|]. cbn [move_to_history]. rewrite assert_True by done. cbn [mbind option_bind].
  rewrite IH. cbn [fmap list_fmap]. rewrite reverse_cons, <- app_assoc. done.
Qed.

(** With the log enabled all incremental files but the last one move. *)
Lemma mark_inv am seqs s : am_inv_seqs am (seqs ++ [s]) ->
  exists am', markRewrittenIncrAofAsHistory true am = Some am' /\ am_inv_seqs am' [s] /\ base_aof_info am' = base_aof_info am /\
    incr_aof_list am' = [incr_info AOF_FILE_TYPE_INCR s] /\ curr_incr_file_seq am' = curr_incr_file_seq am /\ curr_base_file_seq am' = curr_base_file_seq am /\ dirty am' = true.
Proof.
  intros [Hb Hba Hi Hs Hr Hl Hh]. unfold markRewrittenIncrAofAsHistory. rewrite Hi, fmap_app, reverse_app. cbn [fmap list_fmap reverse rev_append app].
  rewrite move_to_history_ok. 2:{ apply Forall_reverse, Forall_fmap, Forall_true. done. }
  cbn [mbind option_bind]. eexists. split; [done|]. split; [|done].
  assert (Forall (fun t => t < s) seqs) as Hlt.
  { clear -Hs. induction seqs as [|t seqs IH]; [constructor|]. cbn [app] in Hs. apply StronglySorted_inv in Hs as [Hs Ht]. constructor; [|by apply IH].
    rewrite Forall_app in Ht. destruct Ht as [_ Ht]. by inversion Ht. }
  rewrite Forall_app in Hr. destruct Hr as [Hr1 Hr2]. inversion Hr2 as [|? ? Hrs _]; subst.
  split; cbn [base_aof_info incr_aof_list history_aof_list curr_base_file_seq curr_incr_file_seq]; [done|done|done|apply (sorted_snoc []); constructor|constructor; [done|constructor]| |].
  { intros t [= <-]. apply Hl. by rewrite last_snoc. }
  apply Forall_app. split.
  - rewrite fmap_reverse, reverse_involutive. apply Forall_fmap, Forall_fmap. apply Forall_forall. intros t Ht. left. exists t. cbn. rewrite Forall_forall in Hr1, Hlt.
    specialize (Hr1 t Ht). specialize (Hlt t Ht). cbn in *. split_and!; [done|lia|lia|by constructor].
  - eapply Forall_impl; [exact Hh|]. intros ai [(t & -> & Ht & Hall)|H]; [left|by right]. exists t. split_and!; [done|lia|lia|].
    apply Forall_app in Hall as [_ Hall]. done.
Qed.

(** A restart keeps the invariant when an incremental file is listed. *)
Lemma reloaded_inv am seqs s : am_inv_seqs am (seqs ++ [s]) -> is_Some (base_aof_info am) ->
  am_inv_seqs (reloaded am) (seqs ++ [s]) /\ curr_incr_file_seq (reloaded am) = s /\ curr_base_file_seq (reloaded am) = curr_base_file_seq am.
Proof.
  intros [Hb Hba Hi Hs Hr Hl Hh] [ai Hai]. assert (s = curr_incr_file_seq am) as Hlast by (apply Hl; by rewrite last_snoc). destruct (Hba ai Hai) as (Hp & rdb & Eai).
  assert (curr_incr_file_seq (reloaded am) = s) as E1. { cbn. rewrite Hi, fmap_app, last_app. done. }
  assert (curr_base_file_seq (reloaded am) = curr_base_file_seq am) as E2. { cbn. rewrite Hai, Eai. done. }
  split; [|done]. split; rewrite ?E1, ?E2; [lia| |done|done| | |].
  - cbn. intros ai'. apply Hba.
  - eapply Forall_impl; [exact Hr|]. intros x. cbn beta. rewrite <- Hlast. done.
  - intros t. rewrite last_snoc. by intros [= <-].
  - rewrite Hlast in *. done.
Qed.

(** With the log disabled they all move. *)
Lemma mark_off_inv am seqs : am_inv_seqs am seqs ->
  exists am', markRewrittenIncrAofAsHistory false am = Some am' /\ am_inv_seqs am' [].
Proof.
  intros [Hb Hba Hi Hs Hr Hl Hh]. assert (Forall (fun ai => file_type ai = AOF_FILE_TYPE_INCR) (reverse (incr_aof_list am))) as Ht.
  { rewrite Hi. apply Forall_reverse, Forall_fmap, Forall_true. done. }
  assert (Forall (hist_ok (bool_decide (is_Some (base_aof_info am))) (curr_base_file_seq am) (curr_incr_file_seq am) []) (history_aof_list am)) as Hh'.
  { eapply Forall_impl; [exact Hh|]. intros ai [(t & -> & Ht' & _)|H]; [left|by right]. exists t. split_and!; [done|lia|lia|constructor]. }
  unfold markRewrittenIncrAofAsHistory. destruct (reverse (incr_aof_list am)) as [|ai l] eqn:E.
  - exists am. split; [done|]. assert (seqs = []) as ->; [|done].
    apply (f_equal length) in E. rewrite length_reverse, Hi, length_fmap in E. by destruct seqs.
  - rewrite move_to_history_ok by done. cbn [mbind option_bind]. eexists. split; [done|].
    split; cbn [base_aof_info incr_aof_list history_aof_list curr_base_file_seq curr_incr_file_seq]; [done|done|done|constructor|constructor|done|].
    apply Forall_app. split; [|done]. rewrite <- E, fmap_reverse, reverse_involutive, Hi. apply Forall_fmap, Forall_fmap.
    eapply Forall_impl; [exact Hr|]. intros t Ht'. cbn beta in Ht'. left. exists t. split_and!; [done|lia|lia|constructor].
Qed.

(** The files that hold the data set. *)
Definition live (am : aofManifest) : list aofInfo := option_list (base_aof_info am) ++ incr_aof_list am.

Lemma live_distinct am seqs : am_inv_seqs am seqs ->
  NoDup (file_name <$> live am) /\ Forall (fun ai => file_name ai ∉ file_name <$> live am) (history_aof_list am).
Proof.
  intros [Hb Hba Hi Hs Hr _ Hh]. unfold live. rewrite Hi, fmap_app.
  assert (forall s, 0 < s < 2 ^ 62 -> incr_name fn s ∈ file_name <$> (incr_info AOF_FILE_TYPE_INCR <$> seqs) -> s ∈ seqs) as Hin.
  { intros s Hs' (ai & E & (t & -> & Ht)%list_elem_of_fmap)%list_elem_of_fmap. rewrite Forall_forall in Hr. specialize (Hr t Ht). cbn in *.
    apply incr_name_inj in E as ->; [done|lia|lia]. }
  assert (forall rdb s, base_name fn rdb s ∉ file_name <$> (incr_info AOF_FILE_TYPE_INCR <$> seqs)) as Hbn.
  { intros rdb s (ai & E & (t & -> & Ht)%list_elem_of_fmap)%list_elem_of_fmap. by apply (incr_base_neq fn rdb t s). }
  assert (forall n, n ∈ file_name <$> option_list (base_aof_info am) -> exists rdb, n = base_name fn rdb (curr_base_file_seq am) /\ is_Some (base_aof_info am)) as Hbase.
  { intros n (ai & -> & Hai)%list_elem_of_fmap. destruct (base_aof_info am) as [b|]; [|by apply elem_of_nil in Hai]. apply list_elem_of_singleton in Hai as ->.
    destruct (Hba b eq_refl) as (_ & rdb & ->). by exists rdb. }
  split.
  - apply NoDup_app. split_and!.
    + destruct (base_aof_info am); cbn; [apply NoDup_singleton|apply NoDup_nil_2].
    + intros n Hn. destruct (Hbase n Hn) as (rdb & -> & _). apply Hbn.
    + rewrite <- list_fmap_compose. clear -Hs Hr Hb. induction Hs as [|s seqs Hs IH Hlt]; [apply NoDup_nil_2|]. apply Forall_cons in Hr as [Hs0 Hr]. cbn [fmap list_fmap].
      apply NoDup_cons. split; [|by apply IH]. intros (t & E & Ht)%list_elem_of_fmap. rewrite Forall_forall in Hlt, Hr. specialize (Hlt t Ht). specialize (Hr t Ht). cbn in *.
      apply incr_name_inj in E as ->; lia.
  - eapply Forall_impl; [exact Hh|]. intros ai [(s & -> & Hs' & Hall)|(rdb & s & -> & Hs' & Hlt)]; rewrite not_elem_of_app; split; cbn.
    + intros Hn. destruct (Hbase _ Hn) as (rdb & E & _). by apply (incr_base_neq fn rdb s (curr_base_file_seq am)).
    + intros Hn. apply Hin in Hn; [|lia]. rewrite Forall_forall in Hall. specialize (Hall s Hn). lia.
    + intros Hn. destruct (Hbase _ Hn) as (rdb' & E & Hsome). apply base_name_inj in E as ->; [|lia|lia]. rewrite bool_decide_eq_true_2 in Hlt by done. specialize (Hlt eq_refl). lia.
    + apply Hbn.
Qed.

Lemma am_inv_ok am seqs : filename_ok fn -> am_inv_seqs am seqs -> am_files am <> [] -> am_ok am.
Proof.
  intros Hfn [Hb Hba Hi Hs Hr _ Hh] Hne. split; [| | | | |done].
  - unfold am_files. rewrite Hi, !Forall_app. split_and!.
    + destruct (base_aof_info am) as [b|] eqn:E; [|constructor]. destruct (Hba b eq_refl) as (Hp & rdb & ->). constructor; [|constructor].
      split; cbn; [apply base_name_ok; [done|lia]|lia|rewrite !elem_of_cons; auto].
    + eapply Forall_impl; [exact Hh|]. intros ai [(s & -> & Hs' & _)|(rdb & s & -> & Hs' & _)];
        (split; cbn; [first [apply incr_name_ok|apply base_name_ok]; [done|lia]|lia|rewrite !elem_of_cons; auto]).
    + apply Forall_fmap. eapply Forall_impl; [exact Hr|]. intros s Hs'. cbn beta in Hs'. split; cbn; [apply incr_name_ok; [done|lia]|lia|rewrite !elem_of_cons; auto].
  - intros ai Hai. destruct (Hba ai Hai) as (_ & rdb & ->). done.
  - eapply Forall_impl; [exact Hh|]. intros ai [(s & -> & _)|(rdb & s & -> & _)]; done.
  - rewrite Hi. apply Forall_fmap, Forall_true. done.
  - rewrite Hi, <- list_fmap_compose. rewrite (list_fmap_ext _ id); [by rewrite list_fmap_id|done].
Qed.

(** The manifests a server can have: those made by the operations of aof.c, by
    the deletion of the history files, and by restarts while a base file and an
    incremental file are listed.  The upgrade from a log without a manifest, whose
    base file keeps the name of the log, is not among them. *)
Inductive am_reach : aofManifest -> Prop :=
  | reach_create : am_reach aofManifestCreate
  | reach_base rdb am name am' : am_reach am -> getNewBaseFileNameAndMarkPreAsHistory fn rdb am = Some (name, am') ->
      curr_base_file_seq am' < 2 ^ 62 -> am_reach am'
  | reach_incr am : am_reach am -> curr_incr_file_seq (getNewIncrAofName fn am).2 < 2 ^ 62 -> am_reach (getNewIncrAofName fn am).2
  | reach_mark enabled am am' : am_reach am -> markRewrittenIncrAofAsHistory enabled am = Some am' -> am_reach am'
  | reach_gc am d : am_reach am -> am_reach (AofManifest (base_aof_info am) (incr_aof_list am) [] (curr_base_file_seq am) (curr_incr_file_seq am) d)
  | reach_reload am text am' : am_reach am -> is_Some (base_aof_info am) -> incr_aof_list am <> [] ->
      getAofManifestAsString am = Some text -> aofLoadManifestFromFile text = Some (inr am') -> am_reach am'.

Lemma am_reach_inv am : filename_ok fn -> am_reach am -> am_inv am.
Proof.
  intros Hfn. induction 1 as [|rdb am name am' _ (seqs & H) E Hlt|am _ (seqs & H) Hlt|enabled am am' _ (seqs & H) E|am d _ (seqs & H)|am text am' _ (seqs & H) Hb Hi Et El].
  - apply am_inv_create.
  - destruct (getNewBase_inv rdb am seqs H) as (am2 & E2 & H2 & _).
    { unfold getNewBaseFileNameAndMarkPreAsHistory in E. apply bind_Some in E as (hist & _ & [= <- <-]). done. }
    rewrite E2 in E. injection E as _ <-. by exists seqs.
  - eexists. by apply getNewIncrAofName_inv.
  - destruct enabled; [|destruct (mark_off_inv am seqs H) as (am2 & E2 & H2); rewrite E2 in E; injection E as <-; by eexists].
    destruct seqs as [|s seqs _] using rev_ind; [|destruct (mark_inv am seqs s H) as (am2 & E2 & H2 & _); rewrite E2 in E; injection E as <-; by eexists].
    unfold markRewrittenIncrAofAsHistory in E. rewrite (inv_incr _ _ H) in E. injection E as <-. by exists [].
  - exists seqs. destruct H as [Hb Hba Hi Hs Hr Hl Hh]. by split.
  - assert (am_files am <> []) as Hne by (destruct Hb as [b Hb]; unfold am_files; rewrite Hb; done).
    destruct (manifest_text_ok am (am_inv_ok am seqs Hfn H Hne)) as [Et' El']. rewrite Et in Et'. injection Et' as ->. rewrite El in El'. injection El' as ->.
    destruct seqs as [|s seqs _] using rev_ind; [by rewrite (inv_incr _ _ H) in Hi|]. exists (seqs ++ [s]). by apply reloaded_inv.
Qed.
End invariant.

(** C6: in every manifest that the operations of the server reach, with restarts
    while a base file and an incremental file are listed, the base file and the
    incremental files have different names, and no history file has the name of
    one of them (servers upgraded from a single file apart): deleting the history files never deletes the data.  The example
    [restart_reuses_history_name] is a restart without an incremental file. *)
Theorem manifest_gc_safe fn am : filename_ok fn -> am_reach fn am ->
  NoDup (file_name <$> live am) /\ Forall (fun ai => file_name ai ∉ file_name <$> live am) (history_aof_list am).
Proof. intros Hfn Hr. destruct (am_reach_inv fn am Hfn Hr) as (seqs & H). by eapply live_distinct. Qed.

Lemma demo_filename_ok : filename_ok (lit "appendonly.aof").
Proof. split; [repeat constructor; cbn; lia|apply (bool_decide_eq_true_1 _); reflexivity|reflexivity|apply (bool_decide_eq_true_1 _); reflexivity|done]. Qed.

Lemma manifest_gc_safe_witness :
  let fn := lit "appendonly.aof" in
  let am := AofManifest (Some (base_info fn AOF_FILE_TYPE_BASE true 2)) [incr_info fn AOF_FILE_TYPE_INCR 2]
              [incr_info fn AOF_FILE_TYPE_HIST 1; base_info fn AOF_FILE_TYPE_HIST true 1] 2 2 true in
  NoDup (file_name <$> live am) /\ Forall (fun ai => file_name ai ∉ file_name <$> live am) (history_aof_list am).
Proof.
  apply (manifest_gc_safe (lit "appendonly.aof")).
  - apply demo_filename_ok.
  - set (fn := lit "appendonly.aof"). set (b1 := base_info fn AOF_FILE_TYPE_BASE true 1). set (i1 := incr_info fn AOF_FILE_TYPE_INCR 1). set (i2 := incr_info fn AOF_FILE_TYPE_INCR 2).
    set (b2 := base_info fn AOF_FILE_TYPE_BASE true 2). set (h1 := base_info fn AOF_FILE_TYPE_HIST true 1).
    apply (reach_mark fn true (AofManifest (Some b2) [i1; i2] [h1] 2 2 true)); [|reflexivity].
    apply (reach_base fn true (AofManifest (Some b1) [i1; i2] [] 1 2 true) (base_name fn true 2)); [|reflexivity|done].
    apply (reach_incr fn (AofManifest (Some b1) [i1] [] 1 1 true)); [|done].
    apply (reach_incr fn (AofManifest (Some b1) [] [] 1 0 true)); [|done].
    apply (reach_base fn true aofManifestCreate (base_name fn true 1)); [apply reach_create|reflexivity|done].
Defined.

(** When a rewrite ends while the log is disabled, all incremental files become
    history and the number of the last one is not in the manifest any more.
    After a restart with the log enabled the first incremental file gets the
    name of a history file that still waits for its deletion. *)
Example restart_reuses_history_name :
  let fn := lit "appendonly.aof" in
  let am := AofManifest (Some (base_info fn AOF_FILE_TYPE_BASE true 1)) [incr_info fn AOF_FILE_TYPE_INCR 1] [] 1 1 false in
  exists am1 am2 am3 text,
    getNewBaseFileNameAndMarkPreAsHistory fn true am = Some (base_name fn true 2, am1) /\
    markRewrittenIncrAofAsHistory false am1 = Some am2 /\
    getAofManifestAsString am2 = Some text /\ aofLoadManifestFromFile text = Some (inr am3) /\
    let '(name, am4) := getLastIncrAofName fn am3 in
    name = incr_name fn 1 /\ incr_info fn AOF_FILE_TYPE_HIST 1 ∈ history_aof_list am4 /\ incr_info fn AOF_FILE_TYPE_INCR 1 ∈ incr_aof_list am4.
Proof. eexists _, _, _, _. do 4 (split; [vm_compute; reflexivity|]). vm_compute. split_and!; [done|constructor|constructor]. Qed.

(** The line that the server writes for a file name with a single quote is not
    one that it can read. *)
Example quote_in_filename :
  let fn := lit "it's.aof" in
  let am := AofManifest (Some (base_info fn AOF_FILE_TYPE_BASE true 1)) [incr_info fn AOF_FILE_TYPE_INCR 1] [] 1 1 false in
  exists text, getAofManifestAsString am = Some text /\ aofLoadManifestFromFile text = Some (inl BadFormat).
Proof. eexists. split; [vm_compute; reflexivity|]. vm_compute. reflexivity. Qed.

(** ** The delay between automatic rewrites *)

(** The answers to calls at the times [ts], while rewrites keep failing. *)
Fixpoint limited_calls (failures : Z) (ts : list Z) (st : limit_state) : list bool :=
  match ts with
  | [] => []
  | t :: ts => let '(b, st) := aofRewriteLimited failures t st in b :: limited_calls failures ts st
  end.

Lemma limited_until failures t next delay ts : AOF_REWRITE_LIMITE_THRESHOLD <= failures -> 0 < next -> t ∈ ts -> next <= t ->
  false ∈ limited_calls failures ts (LimitState delay next).
Proof.
  intros Hf Hn Hin Ht. induction ts as [|u ts IH]; [by apply elem_of_nil in Hin|]. cbn [limited_calls]. unfold aofRewriteLimited. cbn [next_rewrite_time].
  rewrite decide_False by lia. rewrite decide_True by lia. destruct (decide (u < next)) as [Hu|Hu]; [|constructor].
  apply elem_of_cons in Hin as [->|Hin]; [lia|]. constructor. by apply IH.
Qed.

(** The two variables after calls at times up to [t]. *)
Definition limit_ok (t : Z) (st : limit_state) : Prop :=
  0 <= next_delay_minutes st <= AOF_REWRITE_LIMITE_MAX_MINUTES /\ 0 <= next_rewrite_time st <= t + AOF_REWRITE_LIMITE_MAX_MINUTES * 60.

Lemma limit_ok_step failures t u st : limit_ok t st -> 0 <= t <= u -> limit_ok u (aofRewriteLimited failures u st).2.
Proof.
  unfold limit_ok, aofRewriteLimited, AOF_REWRITE_LIMITE_MAX_MINUTES. intros [Hd Hn] Hu. repeat case_decide; cbn [snd next_delay_minutes next_rewrite_time]; lia.
Qed.

(** The state after calls at the times [ts]. *)
Fixpoint limited_state (failures : Z) (ts : list Z) (st : limit_state) : limit_state :=
  match ts with [] => st | t :: ts => limited_state failures ts (aofRewriteLimited failures t st).2 end.

Lemma limit_ok_run failures ts t st : limit_ok t st -> 0 <= t -> StronglySorted Z.le (t :: ts) ->
  limit_ok (default t (last ts)) (limited_state failures ts st).
Proof.
  revert t st. induction ts as [|u ts IH]; intros t st Hok Ht Hs; [done|]. apply StronglySorted_inv in Hs as [Hs [Hu _]%Forall_cons].
  cbn [limited_state]. rewrite last_cons. specialize (IH u _ (limit_ok_step failures t u st Hok ltac:(lia)) ltac:(lia) Hs). by destruct (last ts).
Qed.

(** C18: an automatic rewrite is never limited for more than an hour of a clock
    that does not go back: after any calls up to the time [t], among further
    calls of which one is an hour later at least one allows the rewrite, however
    many rewrites have failed, as long as that number stays the same. *)
Theorem rewrite_limit_live failures past t ts u st :
  limit_ok 0 st -> StronglySorted Z.le (0 :: past ++ [t]) -> 0 < t -> StronglySorted Z.le (t :: ts) -> u ∈ ts -> t + 3600 <= u ->
  false ∈ limited_calls failures (t :: ts) (limited_state failures past st).
Proof.
  intros Hok Hp Ht Hs Hu Hlate. destruct (decide (failures < AOF_REWRITE_LIMITE_THRESHOLD)) as [Hf|Hf].
  { cbn [limited_calls]. unfold aofRewriteLimited at 1. rewrite decide_True by done. constructor. }
  assert (exists t0, t0 <= t /\ limit_ok t0 (limited_state failures past st)) as (t0 & Ht0 & Hd & Hn).
  { exists (default 0 (last past)). split.
    - clear -Hp. destruct past as [|x past _] using rev_ind; [cbn in *; inversion Hp as [|? ? _ H]; by inversion H|]. rewrite last_snoc. cbn. rewrite <- app_assoc in Hp.
      apply StronglySorted_inv in Hp as [Hp _]. clear -Hp. induction past as [|y past IH]; cbn in Hp; apply StronglySorted_inv in Hp as [Hp H]; [by inversion H|by apply IH].
    - apply limit_ok_run; [done|done|]. clear -Hp. change (0 :: past ++ [t]) with ((0 :: past) ++ [t]) in Hp. revert Hp. generalize (0 :: past) as l.
      induction l as [|y l IH]; intros Hp; [constructor|]. apply StronglySorted_inv in Hp as [Hp H]. constructor; [by apply IH|]. by apply Forall_app in H as [H _]. }
  set (st' := limited_state failures past st) in *. unfold AOF_REWRITE_LIMITE_MAX_MINUTES in *. cbn [limited_calls]. unfold aofRewriteLimited at 1. rewrite decide_False by lia.
  destruct (decide (next_rewrite_time st' <> 0)) as [Hnz|Hz].
  - destruct (decide (t < next_rewrite_time st')) as [Hlt|]; [|constructor]. constructor. destruct st' as [delay next]. cbn in *. eapply limited_until; [lia|lia|exact Hu|lia].
  - constructor. set (d := if decide (next_delay_minutes st' = 0) then 1 else next_delay_minutes st' * 2).
    assert (0 < d) by (unfold d; case_decide; lia).
    eapply limited_until; [lia| |exact Hu|]; unfold AOF_REWRITE_LIMITE_MAX_MINUTES; case_decide; lia.
Qed.

Lemma rewrite_limit_live_witness : false ∈ limited_calls 9 [200; 3000; 3900] (limited_state 9 [100; 150; 160; 170] (LimitState 0 0)).
Proof.
  apply (rewrite_limit_live 9 [100; 150; 160; 170] 200 [3000; 3900] 3900 (LimitState 0 0)).
  - unfold limit_ok, AOF_REWRITE_LIMITE_MAX_MINUTES. cbn. lia.
  - repeat constructor; lia.
  - lia.
  - repeat constructor; lia.
  - right. left.
  - lia.
Defined.
