(* ===== verification/AofFs.v ===== *)
(** * System calls of the append only file

    What aof.c uses of the operating system, and programs over it: a file system
    with names, files and open descriptions, the system calls on it with their
    possible outcomes, programs that make these calls, their execution, and a
    logic for them in which a property of the file system can be shown to hold
    at every point where the process may stop.

    The environment chooses the outcome of each call.  A process that stops
    leaves the file system as the last call left it: the model is of the death
    of the process, not of a power failure, so [fsync] has an outcome and no
    effect. *)

From Stdlib Require Import String.
From stdpp Require Import gmap.
From S2P Require Import Prelude.

#[local] Set Default Proof Using "Type".

(** ** The file system *)

(** A name in the directory [server.aof_dirname] ([true]) or in the working
    directory ([false]). *)
Notation path := (bool * bytes)%type.

(** An open description: the file, the offset, and the flag O_APPEND. *)
Record desc := Desc { d_node : nat; d_off : Z; d_append : bool }.

Record fs := Fs {
  names : gmap path nat;
  nodes : gmap nat bytes;
  descs : gmap Z desc;
  next_node : nat;
  next_fd : Z;
}.

Definition fs_empty : fs := Fs ∅ ∅ ∅ 0 3.

(** The contents of a file. *)
Definition file (s : fs) (p : path) : option bytes := i ← names s !! p; nodes s !! i.

(** The end of the process. *)
Definition fs_crash (s : fs) : fs := Fs (names s) (nodes s) ∅ (next_node s) (next_fd s).

(** ** System calls *)

Inductive call :=
  | COpen (p : path) (trunc append : bool)  (* open for writing, with O_CREAT *)
  | CWrite (fd : Z) (bs : bytes)
  | CFtruncate (fd n : Z)
  | CFsync (fd : Z)
  | CClose (fd : Z)
  | CRename (p q : path)
  | CFsyncDir                               (* fsyncFileDir *)
  | CUnlink (p : path)
  | CMkdir                                  (* dirCreateIfMissing *)
  | CFork
  | CRead (p : path)                        (* the contents of a file *)
  | CStat (p : path)                        (* the size of a file *)
  | CTruncate (p : path) (n : Z).

(** Success with a number or with data, ENOENT, another error. *)
Inductive answer := ANum (n : Z) | AData (bs : bytes) | ANoEnt | AErr.

Definition is_err (a : answer) : bool := match a with ANum _ | AData _ => false | ANoEnt | AErr => true end.

(** What the environment chooses: success, a short write, an interrupted call,
    an error. *)
Inductive response := ROk | RShort (n : Z) | RIntr | RErr.

(** [n] bytes, zeros after the end of [bs]. *)
Definition resize (bs : bytes) (n : Z) : bytes := take (Z.to_nat n) (bs ++ replicate (Z.to_nat n - length bs) 0).

(** [ws] written at the offset [off]: a hole reads as zeros. *)
Definition write_at (bs : bytes) (off : Z) (ws : bytes) : bytes :=
  resize bs off ++ ws ++ drop (Z.to_nat off + length ws) bs.

Definition set_node (s : fs) (i : nat) (bs : bytes) : fs := Fs (names s) (<[i := bs]> (nodes s)) (descs s) (next_node s) (next_fd s).
Definition set_desc (s : fs) (fd : Z) (d : desc) : fs := Fs (names s) (nodes s) (<[fd := d]> (descs s)) (next_node s) (next_fd s).

(** A new description of the file [i]. *)
Definition new_fd (s : fs) (i : nat) (append : bool) : answer * fs :=
  (ANum (next_fd s), Fs (names s) (nodes s) (<[next_fd s := Desc i 0 append]> (descs s)) (next_node s) (next_fd s + 1)).

Definition do_open (s : fs) (p : path) (trunc append : bool) : answer * fs :=
  match names s !! p with
  | Some i => new_fd (if trunc then set_node s i [] else s) i append
  | None =>
      let i := next_node s in
      new_fd (Fs (<[p := i]> (names s)) (<[i := []]> (nodes s)) (descs s) (S i) (next_fd s)) i append
  end.

(** [n] bytes of [bs] through a description. *)
Definition do_write (s : fs) (fd : Z) (bs : bytes) (n : Z) : answer * fs :=
  match descs s !! fd with
  | None => (AErr, s)
  | Some d =>
      let old := default [] (nodes s !! d_node d) in
      let off := if d_append d then zlen old else d_off d in
      let ws := take (Z.to_nat n) bs in
      (ANum (zlen ws), set_desc (set_node s (d_node d) (write_at old off ws)) fd (Desc (d_node d) (off + zlen ws) (d_append d)))
  end.

Definition do_call (c : call) (r : response) (s : fs) : answer * fs :=
  match r, c with
  | ROk, COpen p trunc append => do_open s p trunc append
  | ROk, CWrite fd bs => do_write s fd bs (zlen bs)
  | RShort n, CWrite fd bs => do_write s fd bs (Z.max 1 n)
  | ROk, CFtruncate fd n =>
      match descs s !! fd with
      | None => (AErr, s)
      | Some d => (ANum 0, set_node s (d_node d) (resize (default [] (nodes s !! d_node d)) n))
      end
  | ROk, CFsync _ | ROk, CFsyncDir | ROk, CMkdir => (ANum 0, s)
  | _, CClose fd => (ANum 0, Fs (names s) (nodes s) (delete fd (descs s)) (next_node s) (next_fd s))
  | ROk, CRename p q =>
      match names s !! p with
      | None => (ANoEnt, s)
      | Some i => (ANum 0, Fs (<[q := i]> (delete p (names s))) (nodes s) (descs s) (next_node s) (next_fd s))
      end
  | ROk, CUnlink p =>
      match names s !! p with
      | None => (ANoEnt, s)
      | Some _ => (ANum 0, Fs (delete p (names s)) (nodes s) (descs s) (next_node s) (next_fd s))
      end
  | ROk, CFork => (ANum (next_fd s), Fs (names s) (nodes s) (descs s) (next_node s) (next_fd s + 1))
  | ROk, CRead p => (match file s p with Some bs => AData bs | None => ANoEnt end, s)
  | ROk, CStat p => (match file s p with Some bs => ANum (zlen bs) | None => ANoEnt end, s)
  | ROk, CTruncate p n =>
      match names s !! p with
      | None => (ANoEnt, s)
      | Some i => (ANum 0, set_node s i (resize (default [] (nodes s !! i)) n))
      end
  | _, _ => (AErr, s)
  end.

(** ** Programs *)

(** [Exit] is [exit(1)], [Abort] a failed assertion. *)
Inductive prog (A : Type) :=
  | Ret (a : A)
  | Exit
  | Abort
  | Call (c : call) (k : answer -> prog A).
Arguments Ret {A}.
Arguments Exit {A}.
Arguments Abort {A}.
Arguments Call {A}.

Fixpoint prog_bind {A B} (p : prog A) (f : A -> prog B) : prog B :=
  match p with
  | Ret a => f a
  | Exit => Exit
  | Abort => Abort
  | Call c k => Call c (fun a => prog_bind (k a) f)
  end.

Definition syscall (c : call) : prog answer := Call c Ret.

(** A computation that may fail an assertion. *)
Definition lift {A} (o : option A) : prog A := match o with Some a => Ret a | None => Abort end.

Declare Scope prog_scope.
Delimit Scope prog_scope with prog.
Notation "x <- p ;; q" := (prog_bind p (fun x => q)) (at level 20, p at level 99, q at level 200) : prog_scope.
Notation "' x <- p ;; q" := (prog_bind p (fun y => let x := y in q)) (at level 20, x pattern, p at level 99, q at level 200) : prog_scope.
Notation "p ;; q" := (prog_bind p (fun _ => q)) (at level 100, q at level 200, right associativity) : prog_scope.

(** How an execution ends: with a value, by [exit], because the process is
    killed, or by a failed assertion. *)
Inductive outcome (A : Type) := Done (a : A) (s : fs) | Exited (s : fs) | Killed (s : fs) | Aborted.
Arguments Done {A}.
Arguments Exited {A}.
Arguments Killed {A}.
Arguments Aborted {A}.

(** A write that is interrupted is made again: both loops of aof.c do so. *)
Fixpoint skip_intr (c : call) (rs : list response) : list response :=
  match c, rs with
  | CWrite _ _, RIntr :: rs => skip_intr c rs
  | _, _ => rs
  end.

(** The execution with the given outcomes of its calls; the process is killed
    when there is no further one.  Also gives the calls made, each with the state
    before it and its answer. *)
Fixpoint run {A} (p : prog A) (s : fs) (rs : list response) : outcome A * list (fs * call * answer) :=
  match p with
  | Ret a => (Done a s, [])
  | Exit => (Exited s, [])
  | Abort => (Aborted, [])
  | Call c k =>
      match skip_intr c rs with
      | [] => (Killed s, [])
      | r :: rs =>
          let '(a, s') := do_call c r s in
          let '(o, tr) := run (k a) s' rs in
          (o, (s, c, a) :: tr)
      end
  end.

(** ** A logic for programs *)

Section logic.
(** The answers that the environment is allowed to give, and the property that
    holds whenever the process may stop. *)
Variable allowed : fs -> call -> answer -> Prop.
Variable I : fs -> Prop.

(** Some call may fail with an error. *)
Definition can_fail : Prop := exists s c, allowed s c AErr.

(** A program exits only when a call may fail. *)
Fixpoint wp {A} (p : prog A) (Q : A -> fs -> Prop) (s : fs) : Prop :=
  match p with
  | Ret a => Q a s
  | Exit => I s /\ can_fail
  | Abort => False
  | Call c k => I s /\ forall r, let '(a, s') := do_call c r s in allowed s c a -> wp (k a) Q s'
  end.

Lemma wp_bind {A B} (p : prog A) (f : A -> prog B) Q s : wp p (fun a s => wp (f a) Q s) s -> wp (prog_bind p f) Q s.
Proof.
  revert s. induction p as [a| | |c k IH]; intros s H; cbn [prog_bind wp] in *; [done|done|done|]. destruct H as [HI H]. split; [done|].
  intros r. specialize (H r). destruct (do_call c r s) as [a s']. intros Ha. by apply IH, H.
Qed.

Lemma wp_mono {A} (p : prog A) (Q Q' : A -> fs -> Prop) s : wp p Q s -> (forall a s, Q a s -> Q' a s) -> wp p Q' s.
Proof.
  intros H HQ. revert s H. induction p as [a| | |c k IH]; intros s H; cbn [wp] in *; [by apply HQ|done|done|]. destruct H as [HI H]. split; [done|].
  intros r. specialize (H r). destruct (do_call c r s) as [a s']. intros Ha. by apply IH, H.
Qed.

Lemma wp_call c (Q : answer -> fs -> Prop) s : I s -> (forall r, let '(a, s') := do_call c r s in allowed s c a -> Q a s') -> wp (syscall c) Q s.
Proof. intros HI H. split; [done|]. done. Qed.

Lemma wp_lift {A} (o : option A) a Q s : o = Some a -> Q a s -> wp (lift o) Q s.
Proof. intros -> HQ. done. Qed.

(** What the logic says about executions. *)
Lemma wp_run {A} (p : prog A) Q s rs : wp p Q s -> Forall (fun '(s, c, a) => allowed s c a) (run p s rs).2 ->
  match (run p s rs).1 with Done a s' => Q a s' | Exited s' => I s' /\ can_fail | Killed s' => I s' | Aborted => False end.
Proof.
  revert s rs. induction p as [a| | |c k IH]; intros s rs H Htr; [done|done|done|]. cbn [run wp] in *. destruct H as [HI H].
  destruct (skip_intr c rs) as [|r rs']; [done|]. specialize (H r). destruct (do_call c r s) as [a s'].
  destruct (run (k a) s' rs') as [o tr] eqn:E. cbn [fst snd] in *. apply Forall_cons in Htr as [Ha Htr].
  specialize (IH a s' rs' (H Ha)). rewrite E in IH. by apply IH.
Qed.
End logic.

(** No call is interrupted by signals for ever. *)
Definition not_stuck (env : nat -> response) : Prop := forall i, exists j, env (i + j)%nat <> RIntr.

Lemma skip_intr_next c env i : not_stuck env ->
  exists j, forall m, skip_intr c (env <$> seq i (S (j + m))) = env (i + j)%nat :: (env <$> seq (S (i + j)) m).
Proof.
  intros He. destruct (He i) as (j & Hj). revert i Hj. induction j as [|j IH]; intros i Hj.
  { exists 0%nat. intros m. rewrite Nat.add_0_r in *. cbn. destruct c, (env i); done. }
  assert ((exists fd bs, c = CWrite fd bs /\ env i = RIntr) \/ forall rs, skip_intr c (env i :: rs) = env i :: rs) as [(fd & bs & -> & Hi)|Hi].
  { destruct c; try (by right; destruct (env i)). destruct (env i); [by right..| |by right]. left. by eexists _, _. }
  - destruct (IH (S i)) as (k & Hk); [by rewrite Nat.add_succ_l, <- Nat.add_succ_r|]. exists (S k). intros m. cbn [seq fmap list_fmap Nat.add].
    rewrite Hi. cbn [skip_intr]. rewrite <- Nat.add_succ_comm. apply (Hk m).
  - exists 0%nat. intros m. rewrite Nat.add_0_r. apply Hi.
Qed.

(** Every program ends: with enough responses it is not killed. *)
Lemma run_ends {A} (p : prog A) s (env : nat -> response) : not_stuck env -> exists m, forall s', (run p s (env <$> seq 0 m)).1 <> Killed s'.
Proof.
  intros He. assert (forall i, exists m, forall s', (run p s (env <$> seq i m)).1 <> Killed s') as H; [|apply H]. revert s.
  induction p as [a| | |c k IH]; intros s i; [by exists 0%nat..|]. destruct (skip_intr_next c env i He) as (j & Hj).
  destruct (do_call c (env (i + j)%nat) s) as [a s1] eqn:Hc. destruct (IH a s1 (S (i + j))) as (m & Hm). exists (S (j + m)). intros s'.
  cbn [run]. rewrite Hj, Hc. specialize (Hm s'). by destruct (run (k a) s1 _).
Qed.

Lemma wp_weaken {A} (allowed : fs -> call -> answer -> Prop) (I I' : fs -> Prop) (p : prog A) Q s :
  wp allowed I p Q s -> (forall s, I s -> I' s) -> wp allowed I' p Q s.
Proof.
  intros H HI. revert s H. induction p as [a| | |c k IH]; intros s H; cbn [wp] in *; [done|by split; [apply HI|]; apply H|done|]. destruct H as [Hs H]. split; [by apply HI|].
  intros r. specialize (H r). destruct (do_call c r s) as [a s']. intros Hal. by apply IH, H.
Qed.

(** ** The calls on files *)

(** Every name has a file of its own. *)
Record fs_wf (s : fs) : Prop := {
  wf_inj p q i : names s !! p = Some i -> names s !! q = Some i -> p = q;
  wf_node p i : names s !! p = Some i -> (i < next_node s)%nat /\ is_Some (nodes s !! i);
  wf_desc fd d : descs s !! fd = Some d -> fd < next_fd s /\ (d_node d < next_node s)%nat;
  wf_fd : 0 <= next_fd s;
}.

(** [fd] is open on [p], and its next write goes to the end of the file. *)
Definition fd_end (s : fs) (fd : Z) (p : path) (append : bool) : Prop :=
  exists i off bs, descs s !! fd = Some (Desc i off append) /\ names s !! p = Some i /\ nodes s !! i = Some bs /\ (append = true \/ off = zlen bs).

(** The file [p] gets the contents [o], nothing else changes. *)
Definition files_set (s s' : fs) (p : path) (o : option bytes) : Prop := forall q, file s' q = if decide (q = p) then o else file s q.

Lemma fs_empty_wf : fs_wf fs_empty.
Proof. split; [intros *; cbn; rewrite lookup_empty; done..|done]. Qed.

Lemma fs_crash_wf s : fs_wf s -> fs_wf (fs_crash s).
Proof. intros [H1 H2 H3 H4]. split; cbn; [done|done| |done]. intros fd d. by rewrite lookup_empty. Qed.

Lemma fs_crash_file s p : file (fs_crash s) p = file s p.
Proof. done. Qed.

Lemma files_set_same s p : files_set s s p (file s p).
Proof. intros q. by case_decide as E; [rewrite E|]. Qed.

Lemma resize_take (bs : bytes) n : 0 <= n <= zlen bs -> resize bs n = take (Z.to_nat n) bs.
Proof. intros Hn. unfold resize. rewrite take_app_le; [done|]. unfold zlen in Hn. lia. Qed.

Lemma write_at_end bs ws : write_at bs (zlen bs) ws = bs ++ ws.
Proof.
  unfold write_at. rewrite resize_take by (pose proof (zlen_nonneg bs); lia). rewrite take_ge by (unfold zlen; lia).
  rewrite drop_ge by (unfold zlen; lia). by rewrite app_nil_r.
Qed.

Lemma set_node_wf s i bs : fs_wf s -> is_Some (nodes s !! i) -> fs_wf (set_node s i bs).
Proof.
  intros [H1 H2 H3 H4] Hi. split; cbn; [done| |done|done]. intros p j Hj. destruct (H2 p j Hj) as [Hlt Hs]. split; [done|].
  destruct (decide (j = i)) as [->|Hne]; [rewrite lookup_insert_eq; by eexists|by rewrite lookup_insert_ne].
Qed.

Lemma set_node_file s p i bs : fs_wf s -> names s !! p = Some i -> files_set s (set_node s i bs) p (Some bs).
Proof.
  intros Hwf Hp q. unfold file. cbn. case_decide as E.
  - subst q. rewrite Hp. cbn. by rewrite lookup_insert_eq.
  - destruct (names s !! q) as [j|] eqn:Ej; [|done]. cbn. rewrite lookup_insert_ne; [done|]. intros ->. apply E. by eapply wf_inj.
Qed.

Lemma file_Some s p bs : file s p = Some bs -> exists i, names s !! p = Some i /\ nodes s !! i = Some bs.
Proof. unfold file. intros (i & Hi & Hbs)%bind_Some. by exists i. Qed.

(** A description of the file [p], which was opened or made in [s1]. *)
Lemma new_fd_spec s s1 p i bs append fd s' : fs_wf s -> fs_wf s1 -> names s1 !! p = Some i -> nodes s1 !! i = Some bs -> files_set s s1 p (Some bs) ->
  next_fd s1 = next_fd s -> descs s1 = descs s -> (forall q, q <> p -> names s1 !! q = names s !! q) -> new_fd s1 i append = (ANum fd, s') ->
  0 <= fd /\ fs_wf s' /\ files_set s s' p (Some bs) /\ (bs = [] \/ append = true -> fd_end s' fd p append) /\
  (forall fd' q ap, fd_end s fd' q ap -> q <> p -> fd_end s' fd' q ap /\ fd' <> fd).
Proof.
  intros Hwf Hwf1 Hp Hbs Hset Hfd Hd Hn [= <- <-]. split_and!.
  - apply Hwf1.
  - destruct Hwf1 as [H1 H2 H3 H4]. split; cbn; [done|done| |lia]. intros fd d. destruct (decide (fd = next_fd s1)) as [->|Hne].
    + rewrite lookup_insert_eq. intros [= <-]. split; [lia|]. by apply (H2 p i).
    + rewrite lookup_insert_ne by done. intros Hfd'. destruct (H3 fd d Hfd'). split; [lia|done].
  - intros q. unfold file. cbn. apply Hset.
  - intros Hend. exists i, 0, bs. cbn. rewrite lookup_insert_eq. split_and!; [done|done|done|]. destruct Hend as [->| ->]; [by right|by left].
  - intros fd' q ap (j & off & cs & Hfd' & Hq & Hj & Hoff) Hqp. destruct (wf_desc s Hwf fd' _ Hfd') as [Hlt _]. split; [|lia].
    assert (file s1 q = Some cs) as Hq1. { rewrite Hset. rewrite decide_False by done. unfold file. rewrite Hq. done. }
    exists j, off, cs. cbn. rewrite lookup_insert_ne by lia. rewrite Hd, Hn by done. split_and!; [done|done| |done].
    unfold file in Hq1. rewrite Hn, Hq in Hq1 by done. done.
Qed.

(** A new empty file. *)
Definition fs_create (s : fs) (p : path) : fs :=
  Fs (<[p := next_node s]> (names s)) (<[next_node s := []]> (nodes s)) (descs s) (S (next_node s)) (next_fd s).

Lemma fs_create_wf s p : fs_wf s -> names s !! p = None -> fs_wf (fs_create s p).
Proof.
  intros [H1 H2 H3 H4] Hp. split; cbn; [| | |done].
  - intros q q' j Hq Hq'. destruct (decide (q = p)) as [->|Hqp]; destruct (decide (q' = p)) as [->|Hqp']; [done| | |].
    + rewrite lookup_insert_eq in Hq. rewrite lookup_insert_ne in Hq' by done. injection Hq as <-. destruct (H2 _ _ Hq'). lia.
    + rewrite lookup_insert_eq in Hq'. rewrite lookup_insert_ne in Hq by done. injection Hq' as <-. destruct (H2 _ _ Hq). lia.
    + rewrite lookup_insert_ne in Hq, Hq' by done. by eapply H1.
  - intros q j Hq. destruct (decide (q = p)) as [->|Hqp].
    + rewrite lookup_insert_eq in Hq. injection Hq as <-. split; [lia|]. rewrite lookup_insert_eq. by eexists.
    + rewrite lookup_insert_ne in Hq by done. destruct (H2 _ _ Hq). split; [lia|]. rewrite lookup_insert_ne by lia. done.
  - intros fd d Hd. destruct (H3 fd d Hd). split; [done|lia].
Qed.

Lemma fs_create_file s p : fs_wf s -> files_set s (fs_create s p) p (Some []).
Proof.
  intros Hwf q. unfold file. cbn. case_decide as E; [subst q; rewrite lookup_insert_eq; cbn; by rewrite lookup_insert_eq|].
  rewrite lookup_insert_ne by done. destruct (names s !! q) as [j|] eqn:Hq; [|done]. cbn. destruct (wf_node s Hwf q j Hq). by rewrite lookup_insert_ne by lia.
Qed.

Lemma open_spec s p trunc append r a s' : fs_wf s -> do_call (COpen p trunc append) r s = (a, s') ->
  let bs := if trunc then [] else default [] (file s p) in
  (a = AErr /\ s' = s) \/
  exists fd, a = ANum fd /\ 0 <= fd /\ fs_wf s' /\ files_set s s' p (Some bs) /\ (bs = [] \/ append = true -> fd_end s' fd p append) /\
    (forall fd' q ap, fd_end s fd' q ap -> q <> p -> fd_end s' fd' q ap /\ fd' <> fd).
Proof.
  intros Hwf Hc bs. destruct r; [|left; by injection Hc as <- <-..]. right. cbn in Hc. unfold do_open in Hc.
  assert (exists fd, a = ANum fd) as (fd & ->) by (destruct (names s !! p); injection Hc as <- _; by eexists). exists fd. split; [done|].
  destruct (names s !! p) as [i|] eqn:Hp.
  - destruct (wf_node s Hwf p i Hp) as [Hlt [bs0 Hbs0]]. assert (file s p = Some bs0) as Ef by (unfold file; by rewrite Hp). unfold bs in *. rewrite Ef in *. cbn [default] in *. destruct trunc.
    + eapply (new_fd_spec s (set_node s i []) p i []); try done; [by apply set_node_wf|cbn; by rewrite lookup_insert_eq|by apply set_node_file].
    + eapply (new_fd_spec s s p i bs0); try done. rewrite <- Ef. apply files_set_same.
  - assert (file s p = None) as Ef by (unfold file; by rewrite Hp). assert (bs = []) as -> by (unfold bs; rewrite Ef; by destruct trunc).
    eapply (new_fd_spec s (fs_create s p) p (next_node s) []); try done; [by apply fs_create_wf|cbn; by rewrite lookup_insert_eq|cbn; by rewrite lookup_insert_eq|by apply fs_create_file|].
    intros q Hq. cbn. by rewrite lookup_insert_ne.
Qed.

(** A write at the end of a file. *)
Lemma write_spec s fd p append bs old r a s' : fs_wf s -> fd_end s fd p append -> file s p = Some old -> bs <> [] -> do_call (CWrite fd bs) r s = (a, s') ->
  (a = AErr /\ s' = s) \/
  exists n, a = ANum n /\ 0 < n <= zlen bs /\ fs_wf s' /\ files_set s s' p (Some (old ++ take (Z.to_nat n) bs)) /\ fd_end s' fd p append /\
    (forall fd' q ap, fd_end s fd' q ap -> q <> p -> fd' <> fd -> fd_end s' fd' q ap).
Proof.
  intros Hwf (i & off & bs0 & Hfd & Hp & Hi & Hoff) Hold Hne Hc. assert (bs0 = old) as -> by (unfold file in Hold; rewrite Hp in Hold; cbn in Hold; congruence).
  assert (0 < zlen bs) as Hz by (destruct bs; [done|zlia]).
  assert ((a = AErr /\ s' = s) \/ exists n, 0 < n /\ do_write s fd bs n = (a, s')) as [H|(n & Hn & Hw)]; [|by left|].
  { destruct r as [|n| |]; cbn in Hc; [right; by exists (zlen bs)|right; exists (Z.max 1 n); split; [lia|done]|left; by injection Hc as <- <-..]. }
  unfold do_write in Hw. rewrite Hfd in Hw. cbn [d_node d_off d_append] in Hw. rewrite Hi in Hw. cbn [default from_option id] in Hw.
  assert ((if append then zlen old else off) = zlen old) as Eoff by (destruct append; [done|]; destruct Hoff; [done|lia]). rewrite Eoff, write_at_end in Hw.
  right. exists (zlen (take (Z.to_nat n) bs)). injection Hw as <- <-. split; [done|]. rewrite zlen_take. split; [lia|].
  replace (take (Z.to_nat (Z.min (Z.of_nat (Z.to_nat n)) (zlen bs))) bs) with (take (Z.to_nat n) bs).
  2:{ destruct (decide (n <= zlen bs)); [by replace (Z.min (Z.of_nat (Z.to_nat n)) (zlen bs)) with n by lia|]. rewrite !take_ge; [done|unfold zlen in *; lia|unfold zlen in *; lia]. }
  set (ws := take (Z.to_nat n) bs). assert (is_Some (nodes s !! i)) as Hsi by (by eexists).
  pose proof (set_node_wf s i (old ++ ws) Hwf Hsi) as Hwf1. split_and!.
  - destruct Hwf1 as [H1 H2 H3 H4]. split; cbn; [done|done| |done]. intros fd' d. destruct (decide (fd' = fd)) as [->|Hd].
    + rewrite lookup_insert_eq. intros [= <-]. by destruct (H3 fd _ Hfd).
    + rewrite lookup_insert_ne by done. apply H3.
  - intros q. exact (set_node_file s p i (old ++ ws) Hwf Hp q).
  - eexists i, _, (old ++ ws). cbn. rewrite !lookup_insert_eq. split_and!; [done|done|done|]. right. unfold ws. rewrite zlen_app, zlen_take. lia.
  - intros fd' q ap (j & off' & cs & Hfd' & Hq & Hj & Hoff') Hqp Hne'. exists j, off', cs. cbn. rewrite lookup_insert_ne by done. split_and!; [done|done| |done].
    rewrite lookup_insert_ne; [done|]. intros ->. apply Hqp. by eapply wf_inj.
Qed.

(** Cutting a file through a description; with O_APPEND the next write still
    goes to its end. *)
Lemma ftruncate_spec s fd p append old n r a s' : fs_wf s -> fd_end s fd p append -> file s p = Some old -> 0 <= n <= zlen old -> do_call (CFtruncate fd n) r s = (a, s') ->
  (a = AErr /\ s' = s) \/
  (a = ANum 0 /\ fs_wf s' /\ files_set s s' p (Some (take (Z.to_nat n) old)) /\ (append = true -> fd_end s' fd p append)).
Proof.
  intros Hwf (i & off & bs0 & Hfd & Hp & Hi & Hoff) Hold Hn Hc. assert (bs0 = old) as -> by (unfold file in Hold; rewrite Hp in Hold; cbn in Hold; congruence).
  destruct r; cbn in Hc; [right|left; by injection Hc as <- <-..]. rewrite Hfd in Hc. cbn [d_node] in Hc. rewrite Hi in Hc. cbn [default from_option id] in Hc.
  injection Hc as <- <-. rewrite resize_take by done. split_and!; [done|apply set_node_wf; [done|by eexists]|by apply set_node_file|].
  intros ->. eexists i, off, _. cbn. rewrite lookup_insert_eq. split_and!; [done|done|done|by left].
Qed.

(** Calls that change no file. *)
Definition quiet (c : call) : bool := match c with CFsync _ | CFsyncDir | CMkdir | CClose _ | CFork | CRead _ | CStat _ => true | _ => false end.

Lemma quiet_spec s c r a s' : fs_wf s -> quiet c = true -> do_call c r s = (a, s') ->
  fs_wf s' /\ (forall q, file s' q = file s q) /\ (forall fd q ap, fd_end s fd q ap -> c <> CClose fd -> fd_end s' fd q ap) /\
  (forall p, c = CRead p -> a = AErr \/ a = match file s p with Some bs => AData bs | None => ANoEnt end) /\
  (forall p, c = CStat p -> a = AErr \/ a = match file s p with Some bs => ANum (zlen bs) | None => ANoEnt end) /\
  (c = CFork -> a = AErr \/ exists n, a = ANum n) /\
  (is_err a = true -> match c with CRead _ | CStat _ => True | _ => a = AErr end).
Proof.
  intros Hwf Hq Hc. destruct c; try done; destruct r; cbn in Hc; injection Hc as <- <-; (split_and!; try done; try (by intros ? [= ->]; auto); try (by intros _; eauto));
    try (destruct Hwf as [H1 H2 H3 H4]; split; cbn; [done|done| |lia]; intros fd' d Hd).
  all: try (by apply lookup_delete_Some in Hd as [_ Hd]; eapply H3).
  all: try (intros fd' q ap (i & off & bs & Hfd & Hrest) Hne; exists i, off, bs; cbn; split; [|done]; rewrite lookup_delete_ne; congruence).
  destruct (H3 fd' d Hd). split; [lia|done].
Qed.

Lemma rename_spec s p q r a s' : fs_wf s -> p <> q -> do_call (CRename p q) r s = (a, s') ->
  (is_err a = true /\ s' = s /\ (a = AErr \/ file s p = None)) \/
  (exists bs, a = ANum 0 /\ file s p = Some bs /\ fs_wf s' /\ (forall x, file s' x = if decide (x = q) then Some bs else if decide (x = p) then None else file s x) /\
    forall fd x ap, fd_end s fd x ap -> x <> p -> x <> q -> fd_end s' fd x ap).
Proof.
  intros Hwf Hpq Hc. destruct r; cbn in Hc; [|left; injection Hc as <- <-; split_and!; [done|done|by left]..].
  destruct (names s !! p) as [i|] eqn:Hp; [|left; injection Hc as <- <-; split_and!; [done|done|right; unfold file; by rewrite Hp]].
  injection Hc as <- <-. destruct (wf_node s Hwf p i Hp) as [Hlt [bs Hbs]]. right. exists bs. split; [done|]. split; [unfold file; by rewrite Hp|].
  assert (forall x, x <> q -> x <> p -> <[q := i]> (delete p (names s)) !! x = names s !! x) as Hx by (intros; by rewrite lookup_insert_ne, lookup_delete_ne).
  split_and!.
  - destruct Hwf as [H1 H2 H3 H4]. split; cbn; [| |done|done].
    + intros x y j. rewrite !lookup_insert_Some, !lookup_delete_Some. intros [[<- <-]|(Hx1 & Hx2 & Hx3)] [[<- E]|(Hy1 & Hy2 & Hy3)]; [done| | |by eapply H1].
      * exfalso. apply Hy2. symmetry. by eapply H1.
      * subst j. exfalso. apply Hx2. symmetry. by eapply H1.
    + intros x j. rewrite lookup_insert_Some, lookup_delete_Some. intros [[<- <-]|(_ & _ & Hj)]; by eapply H2.
  - intros x. unfold file. cbn. case_decide as E; [subst x; by rewrite lookup_insert_eq|]. rewrite lookup_insert_ne by done. case_decide as E'; [subst x; by rewrite lookup_delete_eq|].
    by rewrite lookup_delete_ne.
  - intros fd x ap (j & off & cs & Hfd & Hj & Hrest) Hxp Hxq. exists j, off, cs. cbn. rewrite Hx by done. done.
Qed.

Lemma unlink_spec s p r a s' : fs_wf s -> do_call (CUnlink p) r s = (a, s') ->
  fs_wf s' /\ (forall x, x <> p -> file s' x = file s x) /\ (forall fd x ap, fd_end s fd x ap -> x <> p -> fd_end s' fd x ap).
Proof.
  intros Hwf Hc. destruct r; cbn in Hc; [|by injection Hc as <- <-..]. destruct (names s !! p) as [i|] eqn:Hp; [|by injection Hc as <- <-]. injection Hc as <- <-. split_and!.
  - destruct Hwf as [H1 H2 H3 H4]. split; cbn; [| |done|done].
    + intros x y j [_ Hx]%lookup_delete_Some [_ Hy]%lookup_delete_Some. by eapply H1.
    + intros x j [_ Hx]%lookup_delete_Some. by eapply H2.
  - intros x Hx. unfold file. cbn. by rewrite lookup_delete_ne.
  - intros fd x ap (j & off & cs & Hfd & Hj & Hrest) Hx. exists j, off, cs. cbn. rewrite lookup_delete_ne by done. done.
Qed.

Lemma truncate_spec s p n old r a s' : fs_wf s -> file s p = Some old -> 0 <= n <= zlen old -> do_call (CTruncate p n) r s = (a, s') ->
  (a = AErr /\ s' = s) \/ (a = ANum 0 /\ fs_wf s' /\ files_set s s' p (Some (take (Z.to_nat n) old)) /\
    (forall fd x ap, fd_end s fd x ap -> x <> p -> fd_end s' fd x ap)).
Proof.
  intros Hwf Hold Hn Hc. apply file_Some in Hold as (i & Hp & Hi). destruct r; cbn in Hc; [right|left; by injection Hc as <- <-..]. rewrite Hp, Hi in Hc. cbn [default from_option id] in Hc.
  injection Hc as <- <-. rewrite resize_take by done. split_and!; [done|apply set_node_wf; [done|by eexists]|by apply set_node_file|].
  intros fd x ap (j & off & cs & Hfd & Hj & Hcs & Hoff) Hx. exists j, off, cs. cbn. split_and!; [done|done| |done]. rewrite lookup_insert_ne; [done|]. intros <-. apply Hx. by eapply wf_inj.
Qed.
