(* ===== verification/Aof.v ===== *)
(** * The append only file (aof.c, server.c)

    The server's side of persistence by an append only log: buffering and
    flushing, the rewrite in the background by a child and its completion, the
    manifest on disk, the deletion of history files, the switch of the log on and
    off, and the restart.  Every function is a program over the system calls of
    AofFs.v.

    The text of the log and its loader are those of AofFile.v, the manifest that
    of AofManifest.v.  Parameters, besides those of AofFile.v: [dump d] is the
    contents of the file that rewriteAppendOnlyFile writes for the dataset [d].

    Not here: statistics and log messages, the replication offsets that bio.c
    reports, [aof_current_size] and [aof_rewrite_base_size], which only decide
    when an automatic rewrite starts.

    The theorems about these programs are in AofDurable.v. *)

From Stdlib Require Import String.
From stdpp Require Import gmap.
From S2P Require Import Prelude Util Sds SdsText AofFile AofManifest AofFs.

#[local] Set Default Proof Using "Type".
#[local] Open Scope prog_scope.

Inductive aof_mode := AOF_OFF | AOF_ON | AOF_WAIT_REWRITE.

#[global] Instance aof_mode_eq_dec : EqDecision aof_mode.
Proof. solve_decision. Defined.

Inductive fsync_policy := AOF_FSYNC_NO | AOF_FSYNC_ALWAYS | AOF_FSYNC_EVERYSEC.

#[global] Instance fsync_policy_eq_dec : EqDecision fsync_policy.
Proof. solve_decision. Defined.

(** The directives. *)
Record config := Config {
  aof_filename : bytes;
  aof_fsync : fsync_policy;
  aof_use_rdb_preamble : bool;
  aof_load_truncated : bool;
  aof_disable_auto_gc : bool;
  aof_no_fsync_on_rewrite : bool;
  aof_timestamp_enabled : bool;
  dbnum : Z;
}.

(** The time, and [bioPendingJobsOfType(BIO_AOF_FSYNC) != 0]. *)
Record env := Env { unixtime : Z; fsync_in_progress : bool }.

(** [child_type] and [child_pid]; the child of a rewrite has the dataset of the
    moment of the fork. *)
Inductive child_state (D : Type) := NoChild | AofChild (pid : Z) (snapshot : D) | OtherChild.
Arguments NoChild {D}.
Arguments AofChild {D}.
Arguments OtherChild {D}.

(** The times and offsets of fsync. *)
Record sync_state := SyncState { aof_last_fsync : Z; aof_last_incr_fsync_offset : Z; aof_flush_postponed_start : Z }.

(** [struct redisServer], as far as it concerns the log.  [aof_fd] is -1 when no
    file is open. *)
Record server (D : Type) := Server {
  aof_state : aof_mode;
  aof_fd : Z;
  aof_buf : bytes;
  aof_feed : feed_state;
  aof_manifest : aofManifest;
  aof_last_incr_size : Z;
  aof_last_write_ok : bool;
  aof_sync : sync_state;
  child : child_state D;
  aof_lastbgrewrite_ok : bool;
  aofrw_failures : Z;
  aof_rewrite_scheduled : bool;
  dataset : D;
}.
Arguments Server {D}.
Arguments aof_state {D}.
Arguments aof_fd {D}.
Arguments aof_buf {D}.
Arguments aof_feed {D}.
Arguments aof_manifest {D}.
Arguments aof_last_incr_size {D}.
Arguments aof_last_write_ok {D}.
Arguments aof_sync {D}.
Arguments child {D}.
Arguments aof_lastbgrewrite_ok {D}.
Arguments aofrw_failures {D}.
Arguments aof_rewrite_scheduled {D}.
Arguments dataset {D}.

(** Assignments to the fields. *)
Section setters.
Context {D : Type}.
Implicit Type st : server D.

Definition set_state st x := let 'Server _ b c d e f g h i j k l m := st in Server x b c d e f g h i j k l m.
Definition set_fd st x := let 'Server a _ c d e f g h i j k l m := st in Server a x c d e f g h i j k l m.
Definition set_buf st x := let 'Server a b _ d e f g h i j k l m := st in Server a b x d e f g h i j k l m.
Definition set_feed st x := let 'Server a b c _ e f g h i j k l m := st in Server a b c x e f g h i j k l m.
Definition set_manifest st x := let 'Server a b c d _ f g h i j k l m := st in Server a b c d x f g h i j k l m.
Definition set_size st x := let 'Server a b c d e _ g h i j k l m := st in Server a b c d e x g h i j k l m.
Definition set_write_ok st x := let 'Server a b c d e f _ h i j k l m := st in Server a b c d e f x h i j k l m.
Definition set_sync st x := let 'Server a b c d e f g _ i j k l m := st in Server a b c d e f g x i j k l m.
Definition set_child st x := let 'Server a b c d e f g h _ j k l m := st in Server a b c d e f g h x j k l m.
Definition set_rewrite_ok st x := let 'Server a b c d e f g h i _ k l m := st in Server a b c d e f g h i x k l m.
Definition set_failures st x := let 'Server a b c d e f g h i j _ l m := st in Server a b c d e f g h i j x l m.
Definition set_scheduled st x := let 'Server a b c d e f g h i j k _ m := st in Server a b c d e f g h i j k x m.
Definition set_dataset st x := let 'Server a b c d e f g h i j k l _ := st in Server a b c d e f g h i j k l x.
End setters.

Section aof.
Context {D : Type} (exec : D -> Z -> args -> D) (lookup : args -> option proc) (rdb_load : D -> bytes -> option (D * bytes)).
Variables (dump : D -> bytes) (no_data : D) (junk : nat -> Z) (cfg : config).
Notation server := (server D).

Notation fn := (aof_filename cfg).
Definition in_dir (name : bytes) : path := (true, name).
Definition in_cwd (name : bytes) : path := (false, name).

(** ** The manifest on disk *)

(** The loop of [writeAofManifestFile]; a write gives at least one byte. *)
Fixpoint write_manifest (fuel : nat) (fd : Z) (buf : bytes) : prog bool :=
  if decide (buf = []) then Ret true
  else
    match fuel with
    | O => Abort
    | S fuel =>
        a <- syscall (CWrite fd buf);;
        match a with ANum n => write_manifest fuel fd (drop (Z.to_nat n) buf) | _ => Ret false end
    end.

(** [true] is C_OK. *)
Definition writeAofManifestFile (buf : bytes) : prog bool :=
  let am := in_dir (getAofManifestFileName fn) in
  let tmp_am := in_dir (getTempAofManifestFileName fn) in
  a <- syscall (COpen tmp_am true false);;
  match a with
  | ANum fd =>
      ret <- (ok <- write_manifest (length buf) fd buf;;
              if negb ok then Ret false
              else
                a <- syscall (CFsync fd);;
                if is_err a then Ret false
                else
                  a <- syscall (CRename tmp_am am);;
                  if is_err a then Ret false
                  else
                    a <- syscall CFsyncDir;;
                    Ret (negb (is_err a)));;
      syscall (CClose fd);;
      Ret ret
  | _ => Ret false
  end.

Definition set_dirty (am : aofManifest) (d : bool) : aofManifest :=
  AofManifest (base_aof_info am) (incr_aof_list am) (history_aof_list am) (curr_base_file_seq am) (curr_incr_file_seq am) d.

Definition persistAofManifest (am : aofManifest) : prog (bool * aofManifest) :=
  if negb (dirty am) then Ret (true, am)
  else
    amstr <- lift (getAofManifestAsString am);;
    ret <- writeAofManifestFile amstr;;
    Ret (ret, if ret then set_dirty am false else am).

(** [exit(1)] on an error of the file.  [fileExist] takes every error of [stat]
    for a missing file; a directory that does not exist has no manifest. *)
Definition aofLoadManifestFromDisk : prog aofManifest :=
  let am_filepath := in_dir (getAofManifestFileName fn) in
  a <- syscall (CStat am_filepath);;
  if is_err a then Ret aofManifestCreate
  else
    a <- syscall (CRead am_filepath);;
    match a with
    | AData text =>
        r <- lift (aofLoadManifestFromFile text);;
        match r with inl _ => Exit | inr am => Ret am end
    | _ => Exit
    end.

(** The loop over the history list. *)
Fixpoint unlink_all (l : list aofInfo) : prog unit :=
  match l with
  | [] => Ret tt
  | ai :: l =>
      lift (assert (file_type ai = AOF_FILE_TYPE_HIST));;
      syscall (CUnlink (in_dir (file_name ai)));;
      unlink_all l
  end.

Definition aofDelHistoryFiles (st : server) : prog (bool * server) :=
  let am := aof_manifest st in
  if decide (aof_disable_auto_gc cfg = true \/ history_aof_list am = []) then Ret (true, st)
  else
    unlink_all (history_aof_list am);;
    let am := AofManifest (base_aof_info am) (incr_aof_list am) [] (curr_base_file_seq am) (curr_incr_file_seq am) true in
    '(ret, am) <- persistAofManifest am;;
    Ret (ret, set_manifest st am).

(** ** Writing *)

Definition has_child (st : server) : bool := match child st with NoChild => false | _ => true end.
Definition aof_child (st : server) : bool := match child st with AofChild _ _ => true | _ => false end.

(** One call of [feedAppendOnlyFile]. *)
Definition feedAppendOnlyFile (now dictid : Z) (argv : args) (st : server) : option server :=
  '(buf, feed) ← feed_text junk (dbnum cfg) (aof_timestamp_enabled cfg) now dictid argv (aof_feed st);
  let st := set_feed st feed in
  Some (if decide (aof_state st = AOF_ON \/ (aof_state st = AOF_WAIT_REWRITE /\ aof_child st = true))
        then set_buf st (aof_buf st ++ buf) else st).

(** The calls of [propagateNow] for one unit. *)
Fixpoint feed_calls (now : Z) (calls : list (Z * args)) (st : server) : option server :=
  match calls with
  | [] => Some st
  | (dictid, argv) :: calls =>
      st ← (if decide (aof_state st <> AOF_OFF) then feedAppendOnlyFile now dictid argv st else Some st);
      feed_calls now calls st
  end.

(** The execution of a unit and its propagation to the log. *)
Definition propagatePendingCommands (now : Z) (u : bool * list (Z * args)) (st : server) : option server :=
  feed_calls now (propagate_calls u.1 u.2) (set_dataset st (apply_ops exec (dataset st) u.2)).

(** The result is -1 when nothing was written. *)
Fixpoint aofWrite (fuel : nat) (fd : Z) (buf : bytes) (totwritten : Z) : prog Z :=
  if decide (buf = []) then Ret totwritten
  else
    match fuel with
    | O => Abort
    | S fuel =>
        a <- syscall (CWrite fd buf);;
        match a with
        | ANum n => aofWrite fuel fd (drop (Z.to_nat n) buf) (totwritten + n)
        | _ => Ret (if decide (totwritten <> 0) then totwritten else -1)
        end
    end.

(** The part of [flushAppendOnlyFile] after the label [try_fsync]; with
    AOF_FSYNC_EVERYSEC the fsync is a job of the bio thread. *)
Definition try_fsync (e : env) (sync_in_progress : bool) (st : server) : prog server :=
  let '(SyncState last offset postponed) := aof_sync st in
  if aof_no_fsync_on_rewrite cfg && has_child st then Ret st
  else if decide (aof_fsync cfg = AOF_FSYNC_ALWAYS) then
    a <- syscall (CFsync (aof_fd st));;
    if is_err a then Exit else Ret (set_sync st (SyncState (unixtime e) (aof_last_incr_size st) postponed))
  else if decide (aof_fsync cfg = AOF_FSYNC_EVERYSEC /\ unixtime e > last) then
    Ret (set_sync st (SyncState (unixtime e) (if sync_in_progress then offset else aof_last_incr_size st) postponed))
  else Ret st.

(** After the write: the error path, or the rest of the function. *)
Definition after_write (e : env) (sync_in_progress : bool) (nwritten : Z) (st : server) : prog server :=
  if decide (nwritten <> zlen (aof_buf st)) then
    nwritten <- (if decide (nwritten = -1) then Ret (-1)
                 else
                   a <- syscall (CFtruncate (aof_fd st) (aof_last_incr_size st));;
                   Ret (if is_err a then nwritten else -1));;
    if decide (aof_fsync cfg = AOF_FSYNC_ALWAYS) then Exit
    else
      let st := set_write_ok st false in
      Ret (if decide (nwritten > 0) then set_buf (set_size st (aof_last_incr_size st + nwritten)) (drop (Z.to_nat nwritten) (aof_buf st)) else st)
  else
    let st := set_size (set_write_ok st true) (aof_last_incr_size st + nwritten) in
    try_fsync e sync_in_progress (set_buf st []).

Definition flushAppendOnlyFile (force : bool) (e : env) (st : server) : prog server :=
  let '(SyncState last offset postponed) := aof_sync st in
  if decide (aof_buf st = []) then
    if decide (aof_fsync cfg = AOF_FSYNC_EVERYSEC /\ offset <> aof_last_incr_size st /\ unixtime e > last /\ fsync_in_progress e = false)
    then try_fsync e false st
    else if decide (aof_fsync cfg = AOF_FSYNC_ALWAYS /\ offset <> aof_last_incr_size st) then try_fsync e false st
    else Ret st
  else
    let sync_in_progress := bool_decide (aof_fsync cfg = AOF_FSYNC_EVERYSEC) && fsync_in_progress e in
    if negb force && sync_in_progress && bool_decide (postponed = 0) then Ret (set_sync st (SyncState last offset (unixtime e)))
    else if negb force && sync_in_progress && bool_decide (unixtime e - postponed < 2) then Ret st
    else
      nwritten <- aofWrite (length (aof_buf st)) (aof_fd st) (aof_buf st) 0;;
      after_write e sync_in_progress nwritten (set_sync st (SyncState last offset 0)).

(** ** The rewrite in the background *)

(** [stat] of a file of the directory: the status, and the size or 0. *)
Definition getAppendOnlyFileSize (name : bytes) : prog (aof_ret * Z) :=
  a <- syscall (CStat (in_dir name));;
  Ret (match a with ANum n => (AOF_OK, n) | ANoEnt => (AOF_NOT_EXIST, 0) | _ => (AOF_OPEN_ERR, 0) end).

Definition openNewIncrAofForAppend (e : env) (st : server) : prog (bool * server) :=
  if decide (aof_state st = AOF_OFF) then Ret (true, st)
  else
    let '(new_aof_name, temp_am) :=
      if decide (aof_state st = AOF_WAIT_REWRITE) then (getTempIncrAofName fn, None)
      else let '(name, am) := getNewIncrAofName fn (aofManifestDup (aof_manifest st)) in (name, Some am) in
    a <- syscall (COpen (in_dir new_aof_name) true false);;
    match a with
    | ANum newfd =>
        '(ret, temp_am) <- match temp_am with
                           | Some am => '(ret, am) <- persistAofManifest am;; Ret (ret, Some am)
                           | None => Ret (true, None)
                           end;;
        if negb ret then syscall (CClose newfd);; Ret (false, st)
        else
          let '(SyncState last offset postponed) := aof_sync st in
          last <- (if decide (aof_fd st <> -1) then syscall (CClose (aof_fd st));; Ret (unixtime e) else Ret last);;
          let st := set_sync (set_size (set_fd st newfd) 0) (SyncState last 0 postponed) in
          Ret (true, match temp_am with Some am => set_manifest st am | None => st end)
    | _ => Ret (false, st)
    end.

Definition rewriteAppendOnlyFileBackground (e : env) (st : server) : prog (bool * server) :=
  if has_child st then Ret (false, st)
  else
    a <- syscall CMkdir;;
    if is_err a then Ret (false, set_rewrite_ok st false)
    else
      let st := set_feed st (FeedState (-1) (aof_cur_timestamp (aof_feed st))) in
      st <- flushAppendOnlyFile true e st;;
      '(ret, st) <- openNewIncrAofForAppend e st;;
      if negb ret then Ret (false, set_rewrite_ok st false)
      else
        a <- syscall CFork;;
        match a with
        | ANum childpid => Ret (true, set_scheduled (set_child st (AofChild childpid (dataset st))) false)
        | _ => Ret (false, set_rewrite_ok st false)
        end.

(** The temporary files of a child, of which [aofRemoveTempFile] removes both. *)
Definition temp_bg (pid : Z) : bytes := lit "temp-rewriteaof-bg-" ++ fmt_d pid ++ lit ".aof".
Definition temp_fg (pid : Z) : bytes := lit "temp-rewriteaof-" ++ fmt_d pid ++ lit ".aof".

Definition aofRemoveTempFile (pid : Z) : prog unit :=
  syscall (CUnlink (in_cwd (temp_bg pid)));;
  syscall (CUnlink (in_cwd (temp_fg pid)));;
  Ret tt.

Definition aofDelTempIncrAofFile : prog unit := syscall (CUnlink (in_dir (getTempIncrAofName fn)));; Ret tt.

(** A failed rewrite. *)
Definition rewrite_failed (st : server) : server := set_failures (set_rewrite_ok st false) (aofrw_failures st + 1).

(** The branch of [backgroundRewriteDoneHandler] for a child that succeeded, up
    to the label [cleanup]. *)
Definition rewrite_success (pid : Z) (st : server) : prog server :=
  let temp_am := aofManifestDup (aof_manifest st) in
  '(new_base, temp_am) <- lift (getNewBaseFileNameAndMarkPreAsHistory fn (aof_use_rdb_preamble cfg) temp_am);;
  a <- syscall (CRename (in_cwd (temp_bg pid)) (in_dir new_base));;
  if is_err a then Ret (rewrite_failed st)
  else
    '(ok, new_incr, temp_am) <- (if decide (aof_state st = AOF_WAIT_REWRITE) then
                                   let '(name, am) := getNewIncrAofName fn temp_am in
                                   a <- syscall (CRename (in_dir (getTempIncrAofName fn)) (in_dir name));;
                                   if is_err a then syscall (CUnlink (in_dir new_base));; Ret (false, None, am)
                                   else Ret (true, Some name, am)
                                 else Ret (true, None, temp_am));;
    if negb ok then Ret (rewrite_failed st)
    else
      temp_am <- lift (markRewrittenIncrAofAsHistory (bool_decide (aof_fd st <> -1)) temp_am);;
      '(ret, temp_am) <- persistAofManifest temp_am;;
      if negb ret then
        syscall (CUnlink (in_dir new_base));;
        match new_incr with Some name => syscall (CUnlink (in_dir name));; Ret tt | None => Ret tt end;;
        Ret (rewrite_failed st)
      else
        let st := set_manifest st temp_am in
        (if decide (aof_state st <> AOF_OFF) then getAppendOnlyFileSize new_base;; Ret tt else Ret tt);;
        '(_, st) <- aofDelHistoryFiles st;;
        let st := set_failures (set_rewrite_ok st true) 0 in
        Ret (if decide (aof_state st = AOF_WAIT_REWRITE) then set_state st AOF_ON else st).

Definition SIGUSR1 : Z := 10.

Definition backgroundRewriteDoneHandler (exitcode bysignal : Z) (pid : Z) (st : server) : prog server :=
  st <- (if decide (bysignal = 0 /\ exitcode = 0) then rewrite_success pid st
         else if decide (bysignal = 0 /\ exitcode <> 0) then Ret (rewrite_failed st)
         else Ret (if decide (bysignal <> SIGUSR1) then rewrite_failed st else st));;
  aofRemoveTempFile pid;;
  if decide (aof_state st = AOF_WAIT_REWRITE) then
    aofDelTempIncrAofFile;;
    Ret (set_scheduled (set_buf st []) true)
  else Ret st.

Definition SERVER_CHILD_NOERROR_RETVAL : Z := 255.

(** The end of the child in [checkChildrenDone], of the status that [waitpid]
    gives: the handler, then [resetChildState]. *)
Definition checkChildrenDone (exitcode bysignal : Z) (st : server) : prog server :=
  let '(exitcode, bysignal) := if decide (exitcode = SERVER_CHILD_NOERROR_RETVAL) then (1, SIGUSR1) else (exitcode, bysignal) in
  match child st with
  | AofChild pid _ =>
      st <- backgroundRewriteDoneHandler exitcode bysignal pid st;;
      Ret (set_child st NoChild)
  | _ => Ret st
  end.

(** [kill] and [waitpid] have no effect on the files. *)
Definition killAppendOnlyChild (st : server) : prog server :=
  match child st with
  | AofChild pid _ =>
      aofRemoveTempFile pid;;
      Ret (set_child st NoChild)
  | _ => Ret st
  end.

(** ** Switching the log on and off *)

Definition stopAppendOnly (e : env) (st : server) : prog server :=
  lift (assert (aof_state st <> AOF_OFF));;
  st <- flushAppendOnlyFile true e st;;
  a <- syscall (CFsync (aof_fd st));;
  let '(SyncState last _ postponed) := aof_sync st in
  let last := if is_err a then last else unixtime e in
  syscall (CClose (aof_fd st));;
  let st := set_scheduled (set_state (set_feed (set_fd st (-1)) (FeedState (-1) (aof_cur_timestamp (aof_feed st)))) AOF_OFF) false in
  let st := set_sync (set_size st 0) (SyncState last 0 postponed) in
  st <- killAppendOnlyChild st;;
  Ret (set_buf st []).

(** [in_exec] is [server.in_exec]. *)
Definition startAppendOnly (in_exec : bool) (e : env) (st : server) : prog (bool * server) :=
  lift (assert (aof_state st = AOF_OFF));;
  let st := set_state st AOF_WAIT_REWRITE in
  '(ret, st) <- (if has_child st && negb (aof_child st) then Ret (true, set_scheduled st true)
                 else if in_exec then Ret (true, set_scheduled st true)
                 else
                   st <- killAppendOnlyChild st;;
                   '(ret, st) <- rewriteAppendOnlyFileBackground e st;;
                   Ret (ret, if ret then st else set_state st AOF_OFF));;
  if negb ret then Ret (false, st)
  else
    let '(SyncState _ offset postponed) := aof_sync st in
    Ret (true, set_write_ok (set_sync st (SyncState (unixtime e) offset postponed)) true).

(** ** Starting the server *)

(** The write of a dump in [rewriteAppendOnlyFile]: stdio buffers it, and the
    file is complete when [fclose] succeeds. *)
Fixpoint write_dump (fuel : nat) (fd : Z) (buf : bytes) : prog bool :=
  if decide (buf = []) then Ret true
  else
    match fuel with
    | O => Abort
    | S fuel =>
        a <- syscall (CWrite fd buf);;
        match a with ANum n => write_dump fuel fd (drop (Z.to_nat n) buf) | _ => Ret false end
    end.

(** In the process [pid]. *)
Definition rewriteAppendOnlyFile (pid : Z) (target : path) (d : D) : prog bool :=
  let tmp := in_cwd (temp_fg pid) in
  a <- syscall (COpen tmp true false);;
  match a with
  | ANum fd =>
      ok <- write_dump (length (dump d)) fd (dump d);;
      a <- (if ok then syscall (CFsync fd) else Ret AErr);;
      syscall (CClose fd);;
      if is_err a then syscall (CUnlink tmp);; Ret false
      else
        a <- syscall (CRename tmp target);;
        if is_err a then syscall (CUnlink tmp);; Ret false else Ret true
  | _ => Ret false
  end.

(** [loadSingleAppendOnlyFile] on a name of the directory.  The truncation of the
    file is the only call that changes it; when it fails the load fails. *)
Definition load_single (name : bytes) (d : D) : prog (aof_ret * D) :=
  a <- syscall (CRead (in_dir name));;
  match a with
  | AData bs =>
      '(ret, d', kept) <- lift (loadSingleAppendOnlyFile exec lookup (dbnum cfg) rdb_load (aof_load_truncated cfg) true bs d);;
      if decide (ret = AOF_TRUNCATED) then
        a <- syscall (CTruncate (in_dir name) (zlen kept));;
        Ret (if is_err a then AOF_FAILED else AOF_TRUNCATED, d')
      else Ret (ret, d')
  | ANoEnt => Ret (AOF_NOT_EXIST, d)
  | _ => Ret (AOF_OPEN_ERR, d)
  end.

(** The loop of [getBaseAndIncrAppendOnlyFilesSize] over files of one type: the
    first status that is not AOF_OK, or the sum. *)
Fixpoint getFilesSize (type : Z) (l : list aofInfo) (size : Z) : prog (aof_ret * Z) :=
  match l with
  | [] => Ret (AOF_OK, size)
  | ai :: l =>
      lift (assert (file_type ai = type));;
      '(status, n) <- getAppendOnlyFileSize (file_name ai);;
      if decide (status <> AOF_OK) then Ret (status, 0) else getFilesSize type l (size + n)
  end.

Definition getBaseAndIncrAppendOnlyFilesSize (am : aofManifest) : prog (aof_ret * Z) :=
  '(status, size) <- getFilesSize AOF_FILE_TYPE_BASE (option_list (base_aof_info am)) 0;;
  if decide (status <> AOF_OK) then Ret (status, 0) else getFilesSize AOF_FILE_TYPE_INCR (incr_aof_list am) size.

(** The loop over the incremental files, after [aof_num] files of [total_num]. *)
Fixpoint load_incr (l : list aofInfo) (aof_num total_num : Z) (ret : aof_ret) (d : D) : prog (aof_ret * D) :=
  match l with
  | [] => Ret (ret, d)
  | ai :: l =>
      lift (assert (file_type ai = AOF_FILE_TYPE_INCR));;
      let aof_num := aof_num + 1 in
      '(ret, d) <- load_single (file_name ai) d;;
      let ret := if decide (ret = AOF_EMPTY) then AOF_OK else ret in
      let ret := if decide (ret = AOF_TRUNCATED /\ aof_num <> total_num) then AOF_FAILED else ret in
      if decide (ret = AOF_OPEN_ERR \/ ret = AOF_FAILED) then Ret (ret, d) else load_incr l aof_num total_num ret d
  end.

(** [aofUpgradePrepare] for a log of an old version. *)
Definition aofUpgradePrepare (am : aofManifest) : prog aofManifest :=
  a <- syscall (CStat (in_dir fn));;
  lift (assert (is_err a = true));;
  a <- syscall CMkdir;;
  if is_err a then Exit
  else
    let am := AofManifest (Some (AofInfo fn 1 AOF_FILE_TYPE_BASE)) (incr_aof_list am) (history_aof_list am) 1 (curr_incr_file_seq am) true in
    '(ret, am) <- persistAofManifest am;;
    if negb ret then Exit
    else
      a <- syscall (CRename (in_cwd fn) (in_dir fn));;
      if is_err a then Exit else Ret am.

(** The first [if] of [loadAppendOnlyFiles]. *)
Definition upgrade_if_needed (am : aofManifest) : prog aofManifest :=
  a <- syscall (CStat (in_cwd fn));;
  if is_err a then Ret am
  else
    match base_aof_info am, incr_aof_list am with
    | None, [] => aofUpgradePrepare am
    | Some ai, [] =>
        if decide (file_name ai = fn) then
          a <- syscall (CStat (in_dir fn));;
          if is_err a then aofUpgradePrepare am else Ret am
        else Ret am
    | _, _ => Ret am
    end.

Definition loadAppendOnlyFiles (am : aofManifest) : prog (aof_ret * D * aofManifest) :=
  am <- upgrade_if_needed am;;
  if decide (base_aof_info am = None /\ incr_aof_list am = []) then Ret (AOF_NOT_EXIST, no_data, am)
  else
    let total_num := getBaseAndIncrAppendOnlyFilesNum am in
    '(status, total_size) <- getBaseAndIncrAppendOnlyFilesSize am;;
    if decide (status <> AOF_OK) then Ret (if decide (status = AOF_NOT_EXIST) then AOF_FAILED else status, no_data, am)
    else if decide (total_size = 0) then Ret (AOF_EMPTY, no_data, am)
    else
      '(aof_num, ret, d) <- match base_aof_info am with
                            | Some ai =>
                                lift (assert (file_type ai = AOF_FILE_TYPE_BASE));;
                                getAppendOnlyFileSize (file_name ai);;
                                '(ret, d) <- load_single (file_name ai) no_data;;
                                Ret (1, if decide (ret = AOF_TRUNCATED /\ 1 <> total_num) then AOF_FAILED else ret, d)
                            | None => Ret (0, AOF_OK, no_data)
                            end;;
      if decide (ret = AOF_OPEN_ERR \/ ret = AOF_FAILED) then Ret (ret, d, am)
      else
        '(ret, d) <- load_incr (incr_aof_list am) aof_num total_num ret d;;
        Ret (ret, d, am).

(** [loadDataFromDisk] with the log enabled. *)
Definition loadDataFromDisk (am : aofManifest) : prog (D * aofManifest) :=
  '(ret, d, am) <- loadAppendOnlyFiles am;;
  if decide (ret = AOF_FAILED \/ ret = AOF_OPEN_ERR) then Exit else Ret (d, am).

(** [aofOpenIfNeededOnServerStart] with the log enabled, in the process [pid]:
    the manifest, the descriptor and the size of its file. *)
Definition aofOpenIfNeededOnServerStart (pid : Z) (d : D) (am : aofManifest) : prog (aofManifest * Z * Z) :=
  a <- syscall CMkdir;;
  if is_err a then Exit
  else
    am <- (if decide (base_aof_info am = None /\ incr_aof_list am = []) then
             '(base_name, am) <- lift (getNewBaseFileNameAndMarkPreAsHistory fn (aof_use_rdb_preamble cfg) am);;
             ok <- rewriteAppendOnlyFile pid (in_dir base_name) d;;
             if negb ok then Exit else Ret am
           else Ret am);;
    let '(aof_name, am) := getLastIncrAofName fn am in
    a <- syscall (COpen (in_dir aof_name) false true);;
    match a with
    | ANum fd =>
        '(ret, am) <- persistAofManifest am;;
        if negb ret then Exit
        else
          '(_, size) <- getAppendOnlyFileSize aof_name;;
          Ret (am, fd, size)
    | _ => Exit
    end.

(** The calls of [main], with the log enabled, at the time [now]. *)
Definition server_start (pid now : Z) : prog server :=
  am <- aofLoadManifestFromDisk;;
  '(d, am) <- loadDataFromDisk am;;
  '(am, fd, size) <- aofOpenIfNeededOnServerStart pid d am;;
  '(_, st) <- aofDelHistoryFiles (Server AOF_ON fd [] (FeedState (-1) 0) am size true (SyncState now size 0) NoChild true 0 false d);;
  Ret st.
End aof.
