(* ===== verification/AofDurable.v ===== *)
(** * The append only file: what is on disk after a crash

    The invariant of the files that Aof.v writes, shown in the logic of AofFs.v
    to hold at every system call.  [reach] are the histories of a server and of
    the deaths of its process; the theorems say what a start on the files finds,
    that it completes, and that a running server fails no assertion.

    The theorems do not hold for every environment.  [fair] and [fair_rewrite]
    say what it must not do: fail a [stat] or the [fsync] of the directory, fail
    the write of the buffer at the start of a rewrite, truncate a file that was
    opened without O_APPEND after a short write, or, where units are
    transactions, write a part of the buffer.  The examples at the end of this
    file and [torn_transaction_drops] of AofFile.v show for each of these what
    the code does otherwise.  [setting] lists the configuration: annotations of
    the time are off, aof-load-truncated is on, and the file that a rewrite makes
    loads to the dataset it was made from.  The process may die, but the machine
    does not: what [write] has accepted is in the file. *)

From Stdlib Require Import String.
From stdpp Require Import gmap.
From S2P Require Import Prelude Util Sds SdsText AofFile AofManifest AofFs Aof.

#[local] Set Default Proof Using "Type".
#[local] Open Scope prog_scope.

(** ** Frames *)

(** [s'] has the files and descriptors of [s], except for [ps]. *)
Record same_but (ps : list path) (s s' : fs) : Prop := {
  same_wf : fs_wf s';
  same_file q : q ∉ ps -> file s' q = file s q;
  same_fd fd q ap : fd_end s fd q ap -> q ∉ ps -> fd_end s' fd q ap;
}.

Lemma same_but_refl ps s : fs_wf s -> same_but ps s s.
Proof. done. Qed.

Lemma same_but_trans ps s1 s2 s3 : same_but ps s1 s2 -> same_but ps s2 s3 -> same_but ps s1 s3.
Proof.
  intros [W1 F1 D1] [W2 F2 D2]. split; [done| |].
  - intros q Hq. rewrite F2, F1 by done. done.
  - intros fd q ap H Hq. by apply D2, Hq; apply D1.
Qed.

Lemma same_but_mono ps ps' s s' : same_but ps s s' -> ps ⊆ ps' -> same_but ps' s s'.
Proof. intros [W F D'] Hsub. split; [done| |]; set_solver. Qed.

(** A descriptor is open on one file. *)
Lemma fd_end_fun s fd p q ap ap' : fs_wf s -> fd_end s fd p ap -> fd_end s fd q ap' -> p = q /\ ap = ap'.
Proof.
  intros Hwf (i & off & bs & E1 & E2 & _) (j & off' & bs' & E3 & E4 & _). rewrite E1 in E3. injection E3 as <- <- <-. split; [|done]. by eapply wf_inj.
Qed.

Lemma write_same s fd p ap bs old r a s' : fs_wf s -> fd_end s fd p ap -> file s p = Some old -> bs <> [] -> do_call (CWrite fd bs) r s = (a, s') ->
  (a = AErr /\ s' = s) \/
  exists n, a = ANum n /\ 0 < n <= zlen bs /\ same_but [p] s s' /\ file s' p = Some (old ++ take (Z.to_nat n) bs) /\ fd_end s' fd p ap.
Proof.
  intros Hwf Hfd Hold Hne Hc. destruct (write_spec s fd p ap bs old r a s' Hwf Hfd Hold Hne Hc) as [H|(n & -> & Hn & Hwf1 & Hset & Hfd1 & Hoth)]; [by left|].
  right. exists n. split_and!; [done|lia|lia| |rewrite Hset; by rewrite decide_True|done]. split; [done| |].
  - intros q Hq. rewrite Hset. rewrite decide_False; [done|set_solver].
  - intros fd' q ap' Hq Hqp. destruct (decide (fd' = fd)) as [->|]; [|apply Hoth; [done|set_solver|done]].
    destruct (fd_end_fun s fd p q ap ap' Hwf Hfd Hq) as [-> _]. set_solver.
Qed.

(** A loop that writes [buf] to the file [p]: [Short] and [Err] are what short
    writes and errors let conclude. *)
Section write_loop.
Variables (allowed : fs -> call -> answer -> Prop) (I : fs -> Prop) (p : path) (fd : Z) (ap : bool) (Short Err : Prop).
Hypothesis Hshort : forall s bs n, allowed s (CWrite fd bs) (ANum n) -> n <> zlen bs -> Short.
Hypothesis Herr : forall s bs, allowed s (CWrite fd bs) AErr -> Err.
Context {A : Type} (loop : nat -> Z -> bytes -> Z -> prog A) (stop finish : Z -> A).
Hypothesis Hloop : forall fuel fd buf tot, loop fuel fd buf tot =
  if decide (buf = []) then Ret (finish tot)
  else match fuel with
       | O => Abort
       | S fuel => prog_bind (syscall (CWrite fd buf)) (fun a => match a with ANum n => loop fuel fd (drop (Z.to_nat n) buf) (tot + n) | _ => Ret (stop tot) end)
       end.

(** The states during the loop: [n] bytes of [buf] are written. *)
Definition written (s : fs) (old buf : bytes) (n : Z) (s' : fs) : Prop :=
  0 <= n <= zlen buf /\ same_but [p] s s' /\ fd_end s' fd p ap /\ file s' p = Some (old ++ take (Z.to_nat n) buf).

Lemma wp_write_loop fuel buf tot old s Q : fs_wf s -> fd_end s fd p ap -> file s p = Some old -> (length buf <= fuel)%nat ->
  (forall n s', written s old buf n s' -> n = 0 \/ n = zlen buf \/ Short -> I s') ->
  (forall n s', written s old buf n s' -> n = 0 \/ Short -> Err -> Q (stop (tot + n)) s') ->
  (forall s', written s old buf (zlen buf) s' -> Q (finish (tot + zlen buf)) s') ->
  wp allowed I (loop fuel fd buf tot) Q s.
Proof using Hshort Herr Hloop.
  revert buf tot old s Q. induction fuel as [|fuel IH]; intros buf tot old s Q Hwf Hfd Hold Hf HI Hstop Hfin; rewrite Hloop.
  all: destruct (decide (buf = [])) as [->|Hne].
  1,3: cbn; rewrite <- (Z.add_0_r tot); apply Hfin; split_and!; [done|done|done|done|by rewrite app_nil_r].
  1: destruct buf; [done|simpl in Hf; lia].
  assert (0 < zlen buf) as Hz by (destruct buf; [done|zlia]).
  assert (written s old buf 0 s) as H0 by (split_and!; [lia|lia|done|done|by rewrite app_nil_r]).
  apply wp_bind, wp_call; [apply (HI 0 s); [done|by left]|].
  intros r. destruct (do_call (CWrite fd buf) r s) as [a s1] eqn:Hc. intros Hal.
  destruct (write_same s fd p ap buf old r a s1 Hwf Hfd Hold Hne Hc) as [[-> ->]|(n & -> & Hn & Hsame & Hp1 & Hfd1)].
  { cbn. rewrite <- (Z.add_0_r tot). apply Hstop; [done|by left|by eapply Herr]. }
  assert (forall m s2, written s1 (old ++ take (Z.to_nat n) buf) (drop (Z.to_nat n) buf) m s2 -> written s old buf (n + m) s2) as Hw.
  { intros m s2 (Hm & Hs2 & Hf2 & Hp2). rewrite zlen_drop in Hm. split_and!; [lia|lia|by eapply same_but_trans|done|].
    rewrite Hp2, <- app_assoc. do 2 f_equal. rewrite Z2Nat.inj_add by lia. by rewrite take_take_drop. }
  destruct (decide (n = zlen buf)) as [->|Hnz].
  - rewrite Hloop. rewrite decide_True by (apply drop_ge; unfold zlen; lia). cbn. apply Hfin. split_and!; [lia|lia|done|done|done].
  - assert (Short) as HS by by eapply Hshort. assert (zlen (drop (Z.to_nat n) buf) = zlen buf - n) as Hzd by (rewrite zlen_drop; lia).
    eapply IH; [by destruct Hsame|exact Hfd1|exact Hp1|rewrite length_drop; lia| | |].
    + intros m s2 Hw2 _. apply (HI (n + m)); [by apply Hw|by right; right].
    + intros m s2 Hw2 _ HE. rewrite <- Z.add_assoc. apply Hstop; [by apply Hw|by right|done].
    + intros s2 Hw2. rewrite <- Z.add_assoc. replace (n + zlen (drop (Z.to_nat n) buf)) with (zlen buf) by lia. apply Hfin.
      replace (zlen buf) with (n + zlen (drop (Z.to_nat n) buf)) by lia. by apply Hw.
Qed.
End write_loop.

(** ** The environment *)

(** The answers that the theorems allow: the directory is synced (otherwise see
    [base_deleted_after_fsync_error]), [stat] finds the file or says that there
    is none ([manifest_stat_error]), a file opened without O_APPEND is not
    truncated through its descriptor ([hole_after_short_write]), and a write is
    of any length, or all or nothing if [txns], that execution units may be
    transactions, is set ([torn_transaction_drops]). *)
Definition fair (txns : bool) (s : fs) (c : call) (a : answer) : Prop :=
  match c, a with
  | CFsyncDir, (ANoEnt | AErr) => False
  | CStat _, AErr => False
  | CFtruncate fd _, ANum _ => exists d, descs s !! fd = Some d /\ d_append d = true
  | CWrite _ bs, ANum n => txns = false \/ n = zlen bs
  | _, _ => True
  end.

(** When a rewrite starts, moreover, the buffer can be written to the log
    (otherwise see [unit_logged_twice]). *)
Definition fair_rewrite (txns : bool) (aof_fd : Z) (s : fs) (c : call) (a : answer) : Prop :=
  fair txns s c a /\ match c, a with CWrite fd _, (ANoEnt | AErr) => fd <> aof_fd | _, _ => True end.

Section effects.
Variables (allowed : fs -> call -> answer -> Prop) (I : fs -> Prop).

Lemma wp_unlink p (Q : answer -> fs -> Prop) s : fs_wf s -> I s -> (forall a s', same_but [p] s s' -> Q a s') -> wp allowed I (syscall (CUnlink p)) Q s.
Proof.
  intros Hwf HI H. apply wp_call; [done|]. intros r. destruct (do_call _ r s) as [a s'] eqn:Hc. intros _. destruct (unlink_spec s p r a s' Hwf Hc) as (H1 & H2 & H3).
  apply H. split; [done| |]; intros; [apply H2; set_solver|apply H3; [done|set_solver]].
Qed.

Lemma wp_rename p q (Q : answer -> fs -> Prop) s : fs_wf s -> I s -> p <> q ->
  (forall a, is_err a = true -> (is_Some (file s p) -> can_fail allowed) -> Q a s) ->
  (forall bs s', file s p = Some bs -> same_but [p; q] s s' -> file s' q = Some bs -> file s' p = None -> Q (ANum 0) s') -> wp allowed I (syscall (CRename p q)) Q s.
Proof.
  intros Hwf HI Hpq Herr Hok. apply wp_call; [done|]. intros r. destruct (do_call _ r s) as [a s'] eqn:Hc. intros Hal.
  destruct (rename_spec s p q r a s' Hwf Hpq Hc) as [(Ha & -> & Hwhy)|(bs & -> & Hp & Hwf' & Hf & Hd)].
  { apply Herr; [done|]. intros [bs Hbs]. destruct Hwhy as [->|Hno]; [by eexists _, _|congruence]. }
  apply (Hok bs); [done| |rewrite Hf; by rewrite decide_True|rewrite Hf, decide_False by done; by rewrite decide_True]. split; [done| |].
  - intros x Hx. rewrite Hf. rewrite !decide_False by set_solver. done.
  - intros fd x ap Hx Hn. apply Hd; set_solver.
Qed.

Lemma wp_open p (trunc append : bool) (Q : answer -> fs -> Prop) s : fs_wf s -> I s ->
  (can_fail allowed -> Q AErr s) ->
  (forall fd s', let bs := if trunc then [] else default [] (file s p) in
    same_but [p] s s' -> file s' p = Some bs -> (bs = [] \/ append = true -> fd_end s' fd p append) ->
    (forall fd' q ap, fd_end s fd' q ap -> q <> p -> fd' <> fd) -> 0 <= fd -> Q (ANum fd) s') -> wp allowed I (syscall (COpen p trunc append)) Q s.
Proof.
  intros Hwf HI Herr Hok. apply wp_call; [done|]. intros r. destruct (do_call _ r s) as [a s'] eqn:Hc. intros Hal.
  destruct (open_spec s p trunc append r a s' Hwf Hc) as [[-> ->]|(fd & -> & Hpos & Hwf' & Hset & Hfd & Hoth)]; [apply Herr; by eexists _, _|].
  apply Hok; [|rewrite Hset; by rewrite decide_True|done|intros; by eapply Hoth|done]. split; [done| |].
  - intros q Hq. rewrite Hset. rewrite decide_False; [done|set_solver].
  - intros fd' q ap Hq Hn. apply Hoth; [done|set_solver].
Qed.

Lemma wp_truncate p n old (Q : answer -> fs -> Prop) s : fs_wf s -> I s -> file s p = Some old -> 0 <= n <= zlen old ->
  (can_fail allowed -> Q AErr s) -> (forall s', same_but [p] s s' -> file s' p = Some (take (Z.to_nat n) old) -> Q (ANum 0) s') -> wp allowed I (syscall (CTruncate p n)) Q s.
Proof.
  intros Hwf HI Hp Hn Herr Hok. apply wp_call; [done|]. intros r. destruct (do_call _ r s) as [a s'] eqn:Hc. intros Hal.
  destruct (truncate_spec s p n old r a s' Hwf Hp Hn Hc) as [[-> ->]|(-> & Hwf' & Hset & Hd)]; [apply Herr; by eexists _, _|]. apply Hok; [|rewrite Hset; by rewrite decide_True]. split; [done| |].
  - intros q Hq. rewrite Hset. rewrite decide_False; [done|set_solver].
  - intros fd q ap Hq Hn'. apply Hd; [done|set_solver].
Qed.
End effects.

Section calls.
Variables (txns : bool) (allowed : fs -> call -> answer -> Prop) (I : fs -> Prop).
Hypothesis Hallowed : forall s c a, allowed s c a -> fair txns s c a.

(** Calls that change no file. *)
Lemma wp_quiet c (Q : answer -> fs -> Prop) s : fs_wf s -> I s -> quiet c = true ->
  (forall a s', fs_wf s' -> (forall q, file s' q = file s q) -> (forall fd q ap, fd_end s fd q ap -> c <> CClose fd -> fd_end s' fd q ap) ->
    fair txns s c a /\ (is_err a = true -> match c with CRead _ | CStat _ => True | _ => can_fail allowed end) ->
    (forall p, c = CRead p -> a = AErr /\ can_fail allowed \/ a = match file s p with Some bs => AData bs | None => ANoEnt end) ->
    (forall p, c = CStat p -> a = match file s p with Some bs => ANum (zlen bs) | None => ANoEnt end) -> Q a s') -> wp allowed I (syscall c) Q s.
Proof using Hallowed.
  intros Hwf HI Hq H. apply wp_call; [done|]. intros r. destruct (do_call c r s) as [a s'] eqn:Hc. intros Ha. pose proof (Hallowed _ _ _ Ha) as Hfair.
  assert (a = AErr -> can_fail allowed) as Hcan by (intros ->; by eexists _, _).
  destruct (quiet_spec s c r a s' Hwf Hq Hc) as (H1 & H2 & H3 & H4 & H5 & _ & H6). apply H; try done.
  - split; [done|]. intros E. specialize (H6 E). destruct c; auto.
  - intros p ->. destruct (H4 p eq_refl); auto.
  - intros p ->. destruct (H5 p eq_refl) as [->|]; [done|done].
Qed.

Lemma wp_size name (Q : aof_ret * Z -> fs -> Prop) s : fs_wf s -> I s ->
  (forall s', same_but [] s s' -> Q (match file s (in_dir name) with Some bs => (AOF_OK, zlen bs) | None => (AOF_NOT_EXIST, 0) end) s') -> wp allowed I (getAppendOnlyFileSize name) Q s.
Proof using Hallowed.
  intros Hwf HI HQ. unfold getAppendOnlyFileSize. apply wp_bind, wp_quiet; [done|done|done|]. intros a s' Hwf' Hf Hd _ _ Hst. rewrite (Hst _ eq_refl).
  assert (same_but [] s s') as Hs. { split; [done|done|]. intros; by apply Hd. } specialize (HQ s' Hs). by destruct (file s (in_dir name)).
Qed.

(** ** Writing the manifest *)

Variable cfg : config.
Notation fn := (aof_filename cfg).
Notation manifest_path := (in_dir (getAofManifestFileName fn)).
Notation temp_path := (in_dir (getTempAofManifestFileName fn)).

Lemma manifest_temp_neq : temp_path <> manifest_path.
Proof. intros [= E]. by apply temp_manifest_neq in E. Qed.

(** The calls between the opening and the closing of the temporary file. *)
Lemma wp_manifest_body fd text (Q : bool -> fs -> Prop) s : fs_wf s -> fd_end s fd temp_path false -> file s temp_path = Some [] ->
  (forall s', same_but [temp_path] s s' -> I s' /\ (can_fail allowed -> Q false s')) ->
  (forall s', same_but [temp_path; manifest_path] s s' -> file s' manifest_path = Some text -> I s' /\ Q true s') ->
  wp allowed I
    (ok <- write_manifest (length text) fd text;;
     if negb ok then Ret false
     else
       a <- syscall (CFsync fd);;
       if is_err a then Ret false
       else
         a <- syscall (CRename temp_path manifest_path);;
         if is_err a then Ret false
         else
           a <- syscall CFsyncDir;;
           Ret (negb (is_err a))) Q s.
Proof using Hallowed.
  intros Hwf Hfd Ht HI Hok. apply wp_bind.
  eapply (wp_write_loop allowed I temp_path fd false True (can_fail allowed)) with (loop := fun fuel fd buf _ => write_manifest fuel fd buf) (stop := fun _ => false) (finish := fun _ => true) (tot := 0) (old := []); try done.
  - intros s1 bs Hal. by eexists _, _.
  - intros fuel fd' buf _. destruct fuel; reflexivity.
  - intros n s1 (_ & Hs1 & _) _. by apply HI.
  - intros n s1 (_ & Hs1 & _) _ Hcan. cbn. by apply HI.
  - intros s1 (_ & Hs1 & _ & Hp1). rewrite take_ge in Hp1 by (unfold zlen; lia). cbn [negb app] in *.
    apply wp_bind, wp_quiet; [apply Hs1|by apply HI|done|]. intros a s2 Hwf2 Hf2 Hd2 [_ Hcan] _ _. destruct (is_err a).
    { apply HI; [|by apply Hcan]. eapply same_but_trans; [exact Hs1|]. split; [done|done|]. intros; by apply Hd2. }
    assert (same_but [temp_path] s s2) as Hs2. { eapply same_but_trans; [exact Hs1|]. split; [done|done|]. intros; by apply Hd2. }
    apply wp_bind, wp_rename; [done|by apply HI|apply manifest_temp_neq| |].
    { intros a' -> Hcan'. apply HI; [done|]. apply Hcan'. rewrite Hf2, Hp1. by eexists. }
    intros bs s3 Hb Hs3 Hm3 _. rewrite Hf2, Hp1 in Hb. injection Hb as <-. cbn [is_err].
    assert (same_but [temp_path; manifest_path] s s3) as Hs3'. { eapply same_but_trans; [eapply same_but_mono; [exact Hs2|set_solver]|done]. }
    apply wp_bind, wp_quiet; [apply Hs3|by apply Hok|done|]. intros a' s4 Hwf4 Hf4 Hd4 [Hfair _] _ _.
    assert (is_err a' = false) as -> by (destruct a'; done). cbn. apply Hok; [|by rewrite Hf4].
    eapply same_but_trans; [exact Hs3'|]. split; [done|done|]. intros; by apply Hd4.
Qed.

Lemma wp_persist am (Q : bool * aofManifest -> fs -> Prop) s : fs_wf s -> dirty am = true -> am_ok am ->
  (forall s', same_but [temp_path] s s' -> I s' /\ (can_fail allowed -> Q (false, am) s')) ->
  (forall s', same_but [temp_path; manifest_path] s s' -> file s' manifest_path = Some (am_text am) -> I s' /\ Q (true, set_dirty am false) s') ->
  wp allowed I (persistAofManifest cfg am) Q s.
Proof using Hallowed.
  intros Hwf Hd Hok HI HQ. unfold persistAofManifest. rewrite Hd. cbn [negb]. apply wp_bind, (wp_lift _ _ _ (am_text am)); [by apply manifest_text_ok|].
  apply wp_bind. unfold writeAofManifestFile. apply wp_bind, wp_open; [done|by apply HI| |].
  { intros Hcan. cbn. apply HI; [by apply same_but_refl|done]. }
  intros fd s1 bs Hs1 Ht1 Hfd1 Hne1 _. specialize (Hfd1 (or_introl eq_refl)). subst bs.
  assert (forall s2 s3, same_but [temp_path; manifest_path] s1 s2 -> (forall q, file s3 q = file s2 q) -> fs_wf s3 ->
    (forall fd' q ap, fd_end s2 fd' q ap -> CClose fd <> CClose fd' -> fd_end s3 fd' q ap) ->
    forall ps, temp_path ∈ ps -> same_but ps s s2 -> same_but ps s s3) as Hclose.
  { intros s2 s3 Hs2 Hf3 Hwf3 Hd3 ps Hps H2. split; [done| |].
    - intros q Hq. rewrite Hf3. by apply H2.
    - intros fd' q ap Hq Hn. apply Hd3; [by apply H2|]. intros [= <-]. apply (Hne1 fd q ap Hq); [|done]. intros ->. done. }
  apply wp_bind, wp_manifest_body; [apply Hs1|done|done| |].
  - intros s2 Hs2. assert (same_but [temp_path] s s2) as H2 by (by eapply same_but_trans). split; [by apply HI|]. intros Hcan.
    apply wp_bind, wp_quiet; [apply Hs2|by apply HI|done|]. intros a s3 Hwf3 Hf3 Hd3 _ _ _. cbn. apply HI; [|done]. eapply (Hclose s2); try done; [|set_solver].
    eapply same_but_mono; [exact Hs2|set_solver].
  - intros s2 Hs2 Hm2. assert (same_but [temp_path; manifest_path] s s2) as H2. { eapply same_but_trans; [eapply same_but_mono; [exact Hs1|set_solver]|done]. }
    split; [by apply HQ|]. apply wp_bind, wp_quiet; [apply Hs2|by apply HQ|done|]. intros a s3 Hwf3 Hf3 Hd3 _ _ _. cbn. apply HQ; [|by rewrite Hf3].
    eapply (Hclose s2); try done. set_solver.
Qed.
End calls.

(** ** The invariant of the disk *)

Section durable.
Context {D : Type} (exec : D -> Z -> args -> D) (lookup : args -> option proc) (rdb_load : D -> bytes -> option (D * bytes)).
Variables (dump : D -> bytes) (no_data : D) (junk : nat -> Z) (cfg : config) (txns : bool).

Notation fn := (aof_filename cfg).
Notation replay := (replay exec lookup (dbnum cfg)).
Notation apply_units := (apply_units exec).
Notation exec_unit := (bool * list (Z * args))%type.
Notation manifest_path := (in_dir (getAofManifestFileName fn)).
Notation temp_path := (in_dir (getTempAofManifestFileName fn)).

Definition unit_fine (u : exec_unit) : Prop := unit_ok lookup (dbnum cfg) u /\ (txns = false -> single u).

(** The command table, the limits of the configuration, and the file that a
    rewrite makes. *)
Record setting : Prop := {
  set_table : table_ok lookup;
  set_dbnum : dbnum cfg <= INT32_MAX;
  set_filename : filename_ok fn;
  set_no_ts : aof_timestamp_enabled cfg = false;
  set_trunc : aof_load_truncated cfg = true;
  set_dump d : dump d <> [] /\ loadSingleAppendOnlyFile exec lookup (dbnum cfg) rdb_load true true (dump d) no_data = Some (AOF_OK, d, dump d);
  set_temp pid : fn <> temp_bg pid /\ fn <> temp_fg pid;
}.
Hypothesis Hset : setting.

(** Files of complete commands that lead from one dataset to another. *)
Inductive chain : D -> list bytes -> D -> Prop :=
  | chain_nil d : chain d [] d
  | chain_cons d cs id d1 l d2 : Forall cmd_ok cs -> replay cs (0, d) None = Some ((id, d1), None) -> chain d1 l d2 -> chain d (log_bytes cs :: l) d2.

Definition incr_path (seq : Z) : path := in_dir (incr_name fn seq).

(** The last incremental file: complete commands [cs] for the units [us1], and a
    part of the text of the units [vs], of which [q] is not written.  [n] units
    are known to be on disk, [sel] is the database selected at the end. *)
Definition last_file (bs : bytes) (us : list exec_unit) (n : nat) (ds : D) (q : bytes) (sel : Z) : Prop :=
  exists cs p sel0 id us1 vs,
    bs = log_bytes cs ++ p /\ Forall cmd_ok cs /\ replay cs (0, ds) None = Some ((id, apply_units no_data us1), None) /\ agree sel0 id /\
    us = us1 ++ vs /\ (n <= length us1)%nat /\ Forall unit_fine vs /\ p ++ q = log_bytes (raw sel0 (calls_of vs)) /\ (txns = true -> p = []) /\
    sel = sel_after sel0 (calls_of vs).

(** The files of the manifest [am]: the dataset [ds] at the start of the last
    incremental file, and the text [q] that this file lacks. *)
Record disk (s : fs) (am : aofManifest) (us : list exec_unit) (n : nat) (ds : D) (q : bytes) (sel : Z) : Prop := {
  dk_wf : fs_wf s;
  dk_old : file s (in_cwd fn) = None;
  dk_manifest : file s manifest_path = Some (am_text am);
  dk_files : exists seqs b d0 l bs,
    am_inv_seqs fn am (seqs ++ [curr_incr_file_seq am]) /\ base_aof_info am = Some b /\ file s (in_dir (file_name b)) = Some (dump d0) /\
    Forall2 (fun seq bs => file s (incr_path seq) = Some bs) seqs l /\ chain d0 l ds /\
    file s (incr_path (curr_incr_file_seq am)) = Some bs /\ last_file bs us n ds q sel;
}.

(** ** The last file *)

Lemma last_file_feed bs us n ds q sel u : last_file bs us n ds q sel -> unit_fine u ->
  last_file bs (us ++ [u]) n ds (q ++ log_bytes (raw sel (calls_of [u]))) (sel_after sel (calls_of [u])).
Proof.
  intros (cs & p & sel0 & id & us1 & vs & H1 & H2 & H3 & H4 & H5 & H6 & H7 & H8 & H9 & ->) Hu. exists cs, p, sel0, id, us1, (vs ++ [u]).
  assert (calls_of (vs ++ [u]) = calls_of vs ++ calls_of [u]) as E. { unfold calls_of. by rewrite fmap_app, concat_app. }
  rewrite E, raw_app, log_bytes_app, sel_after_app. split_and!; try done; [by rewrite H5, app_assoc|apply Forall_app; by split; [|constructor]|by rewrite app_assoc, H8].
Qed.

Lemma units_of_fine us : Forall unit_fine us -> Forall (unit_ok lookup (dbnum cfg)) us.
Proof. intros H. eapply Forall_impl; [exact H|]. by intros u [? _]. Qed.

(** When all that is missing is written all units are on disk; the next command
    may come with or without SELECT. *)
Lemma last_file_full bs us n ds q sel sel' : last_file bs us n ds q sel -> sel' = sel \/ sel' = -1 -> last_file (bs ++ q) us (length us) ds [] sel'.
Proof using Hset.
  intros (cs & p & sel0 & id & us1 & vs & -> & H2 & H3 & H4 & -> & H6 & H7 & H8 & H9 & ->) Hsel'. destruct Hset as [[Hs Hm He] Hdb _ _ _ _ _].
  pose proof (units_of_fine vs H7) as Hvs.
  destruct (replay_units exec lookup (dbnum cfg) Hs Hm He Hdb vs sel0 id (apply_units no_data us1) Hvs H4) as (id' & Hr & Ha).
  exists (cs ++ raw sel0 (calls_of vs)), [], sel', id', (us1 ++ vs), []. rewrite !app_nil_r. split_and!; try done.
  - by rewrite <- app_assoc, H8, log_bytes_app.
  - apply Forall_app. split; [done|]. eapply raw_ok; [done|]. by eapply unit_calls_ok.
  - rewrite (replay_app _ _ _ _ _ _ _ _ _ H3). rewrite Hr. unfold AofFile.apply_units. by rewrite foldl_app.
  - destruct Hsel' as [->| ->]; [done|by left].
Qed.

Lemma last_file_part bs us n ds q q' sel : last_file bs us n ds (q ++ q') sel -> txns = false -> last_file (bs ++ q) us n ds q' sel.
Proof.
  intros (cs & p & sel0 & id & us1 & vs & -> & H2 & H3 & H4 & -> & H6 & H7 & H8 & H9 & ->) Ht. exists cs, (p ++ q), sel0, id, us1, vs.
  rewrite <- !app_assoc. split_and!; try done. by rewrite Ht.
Qed.

Lemma last_file_nil us : last_file [] us (length us) (apply_units no_data us) [] (-1).
Proof. exists [], [], (-1), 0, us, []. split_and!; try done; [by left|by rewrite app_nil_r]. Qed.

(** The loader on the last file: it gives the dataset of the units on disk, and
    leaves a file that lacks nothing. *)
Lemma last_file_load bs us n ds q sel : last_file bs us n ds q sel ->
  exists ret kept k, loadSingleAppendOnlyFile exec lookup (dbnum cfg) rdb_load true true bs ds = Some (ret, apply_units no_data (take k us), kept) /\
    (n <= k <= length us)%nat /\ last_file kept (take k us) n ds [] (-1) /\
    (ret = AOF_OK /\ kept = bs \/ ret = AOF_EMPTY /\ kept = bs \/ ret = AOF_TRUNCATED /\ zlen kept <= zlen bs /\ kept = take (Z.to_nat (zlen kept)) bs).
Proof using Hset.
  intros H. pose proof Hset as [[Hs Hm He] Hdb _ _ _ _ _].
  assert (forall cs id k, Forall cmd_ok cs -> replay cs (0, ds) None = Some ((id, apply_units no_data (take k us)), None) -> (n <= k <= length us)%nat ->
    last_file (log_bytes cs) (take k us) n ds [] (-1)) as Hkept.
  { intros cs id k Hcs Hr Hk. exists cs, [], (-1), id, (take k us), []. rewrite !app_nil_r. split_and!; try done; [by left|rewrite length_take; lia]. }
  assert (forall cs t c id k, Forall cmd_ok cs -> replay cs (0, ds) None = Some ((id, apply_units no_data (take k us)), None) -> (n <= k <= length us)%nat ->
    bs = log_bytes cs ++ t -> cmd_ok c -> torn t (cmd_bytes c) ->
    exists ret kept k, loadSingleAppendOnlyFile exec lookup (dbnum cfg) rdb_load true true bs ds = Some (ret, apply_units no_data (take k us), kept) /\
    (n <= k <= length us)%nat /\ last_file kept (take k us) n ds [] (-1) /\
    (ret = AOF_OK /\ kept = bs \/ ret = AOF_EMPTY /\ kept = bs \/ ret = AOF_TRUNCATED /\ zlen kept <= zlen bs /\ kept = take (Z.to_nat (zlen kept)) bs)) as Hload.
  { intros cs t c id k Hcs Hr Hk -> Hc Ht. destruct (load_tail exec lookup (dbnum cfg) rdb_load cs t c ds id (apply_units no_data (take k us)) Hcs Hr Hc Ht) as (ret & Hl & Hret).
    exists ret, (log_bytes cs), k. split_and!; [done|lia|lia|by eapply Hkept|]. destruct (decide (t = [])) as [->|Hne].
    - rewrite app_nil_r. rewrite Hret. case_decide; auto.
    - right; right. split; [done|]. split; [rewrite zlen_app; pose proof (zlen_nonneg t); lia|]. unfold zlen. rewrite Nat2Z.id. by rewrite take_app_length. }
  assert (cmd_ok [MULTI]) as Hmo by (split; [done|]; constructor; [done|constructor]). assert (torn [] (cmd_bytes [MULTI])) as Htm by (by exists (cmd_bytes [MULTI])).
  destruct (decide (q = [])) as [->|Hq].
  - pose proof H as (_ & _ & _ & _ & us1 & vs & _ & _ & _ & _ & E & Hn & _). assert (n <= length us)%nat by (rewrite E, length_app; lia).
    apply (last_file_full _ _ _ _ _ _ sel) in H as (cs & p & sel0 & id & us1' & vs' & Hbs & H2 & H3 & _ & E' & Hn' & _ & H8 & _ & _); [|by left].
    assert (vs' = []) as ->. { apply (f_equal length) in E'. rewrite length_app in E'. destruct vs'; [done|simpl in E'; lia]. }
    rewrite app_nil_r in *. subst us1'. rewrite H8 in Hbs. cbn in Hbs. rewrite app_nil_r in Hbs.
    apply (Hload cs [] [MULTI] id (length us)); try done; [by rewrite firstn_all|by rewrite app_nil_r].
  - destruct H as (cs & p & sel0 & id & us1 & vs & Ebs & H2 & H3 & H4 & -> & H6 & H7 & H8 & H9 & _). destruct txns eqn:Etx.
    + rewrite H9, app_nil_r in Ebs by done. apply (Hload cs [] [MULTI] id (length us1)); try done; [by rewrite take_app_length|rewrite length_app; lia|by rewrite app_nil_r].
    + assert (Forall single vs) as Hsv. { eapply Forall_impl; [exact H7|]. intros u [_ Hu]. by apply Hu. }
      destruct (log_prefix exec lookup (dbnum cfg) Hs Hdb vs sel0 id (apply_units no_data us1) p Hsv (units_of_fine vs H7) H4) as (cs' & c & t & j & id' & -> & Ht & Hc & Hcs' & Hj & Hr').
      { exists q. split; [done|]. by rewrite H8. }
      apply (Hload (cs ++ cs') t c id' (length us1 + j)%nat); try done.
      * by apply Forall_app.
      * rewrite (replay_app _ _ _ _ _ _ _ _ _ H3), Hr'. rewrite take_app_add. unfold AofFile.apply_units. by rewrite foldl_app.
      * rewrite length_app. lia.
      * by rewrite Ebs, log_bytes_app, app_assoc.
Qed.

(** ** Changes of the disk *)

(** The files that the invariant is about. *)
Definition protected (am : aofManifest) : list path := in_cwd fn :: manifest_path :: ((fun ai => in_dir (file_name ai)) <$> live am).

Lemma in_dir_inj a b : in_dir a = in_dir b -> a = b.
Proof. by intros [=]. Qed.

Lemma live_protected am ai : ai ∈ live am -> in_dir (file_name ai) ∈ protected am.
Proof. intros H. unfold protected. do 2 right. apply list_elem_of_fmap. by exists ai. Qed.

Lemma seq_protected am seqs seq : am_inv_seqs fn am seqs -> seq ∈ seqs -> incr_path seq ∈ protected am.
Proof.
  intros Hi Hs. apply (live_protected am (incr_info fn AOF_FILE_TYPE_INCR seq)). unfold live. rewrite (inv_incr _ _ _ Hi). apply elem_of_app. right. by apply list_elem_of_fmap_2.
Qed.

Lemma base_protected am b : base_aof_info am = Some b -> in_dir (file_name b) ∈ protected am.
Proof. intros Hb. apply live_protected. unfold live. rewrite Hb. left. Qed.

Lemma seqs_of am seqs : am_inv_seqs fn am seqs -> file_seq <$> incr_aof_list am = seqs.
Proof.
  intros H. rewrite (inv_incr _ _ _ H), <- list_fmap_compose. rewrite (list_fmap_ext (file_seq ∘ incr_info fn AOF_FILE_TYPE_INCR) id) by done. by rewrite list_fmap_id.
Qed.

Lemma disk_frame s s' am us n ds q sel : disk s am us n ds q sel -> fs_wf s' -> (forall x, x ∈ protected am -> file s' x = file s x) -> disk s' am us n ds q sel.
Proof.
  intros [Hwf Hold Hm (seqs & b & d0 & l & bs & Hi & Hb & Hbf & Hl & Hc & Hlast & Hlf)] Hwf' Hf. split; [done|by rewrite Hf by left|by rewrite Hf by (right; left)|].
  exists seqs, b, d0, l, bs. split_and!; try done.
  - rewrite Hf by by apply base_protected. done.
  - assert (forall x, x ∈ seqs -> file s' (incr_path x) = file s (incr_path x)) as Hf'.
    { intros x Hx. apply Hf. eapply seq_protected; [done|]. apply elem_of_app. by left. }
    clear -Hl Hf'. induction Hl as [|x y seqs l H _ IH]; [constructor|]. constructor; [rewrite Hf' by left; done|]. apply IH. intros z Hz. apply Hf'. by right.
  - rewrite Hf; [done|]. eapply seq_protected; [done|]. apply elem_of_app. right. left.
Qed.

Lemma disk_same s s' ps am us n ds q sel : disk s am us n ds q sel -> same_but ps s s' -> Forall (fun x => x ∉ protected am) ps -> disk s' am us n ds q sel.
Proof.
  intros Hd Hs Hps. eapply disk_frame; [done|by destruct Hs|]. intros x Hx. apply Hs. intros Hin. rewrite Forall_forall in Hps. by apply (Hps x).
Qed.

(** The last file is none of the others. *)
Lemma last_distinct am seqs b : am_inv_seqs fn am (seqs ++ [curr_incr_file_seq am]) -> base_aof_info am = Some b ->
  let last := incr_path (curr_incr_file_seq am) in
  last <> in_cwd fn /\ last <> manifest_path /\ last <> temp_path /\ last <> in_dir (file_name b) /\ Forall (fun x => incr_path x <> last) seqs.
Proof.
  intros Hi Hb last. pose proof (inv_bounds _ _ _ Hi) as Hbd. split_and!.
  - by intros [=].
  - intros E%in_dir_inj. by apply incr_manifest_neq in E.
  - intros E%in_dir_inj. by apply incr_temp_neq in E.
  - destruct (inv_base _ _ _ Hi b Hb) as (_ & rdb & ->). intros E%in_dir_inj. by apply incr_base_neq in E.
  - pose proof (inv_sorted _ _ _ Hi) as Hs. pose proof (inv_range _ _ _ Hi) as Hr. apply Forall_app in Hr as [Hr _]. apply Forall_forall. intros x Hx E%in_dir_inj.
    rewrite Forall_forall in Hr. specialize (Hr x Hx). cbn in Hr. apply incr_name_inj in E; [|lia|lia].
    assert (NoDup (seqs ++ [curr_incr_file_seq am])) as Hnd by by apply StronglySorted_lt_NoDup.
    apply NoDup_app in Hnd as (_ & Hnd & _). apply (Hnd x Hx). rewrite E. left.
Qed.

Lemma disk_update s s' am us us' n n' ds q q' sel sel' : disk s am us n ds q sel -> same_but [incr_path (curr_incr_file_seq am)] s s' ->
  (forall bs, file s (incr_path (curr_incr_file_seq am)) = Some bs -> last_file bs us n ds q sel ->
    exists bs', file s' (incr_path (curr_incr_file_seq am)) = Some bs' /\ last_file bs' us' n' ds q' sel') -> disk s' am us' n' ds q' sel'.
Proof.
  intros [Hwf Hold Hm (seqs & b & d0 & l & bs & Hi & Hb & Hbf & Hl & Hc & Hlast & Hlf)] Hs Hup. destruct (last_distinct am seqs b Hi Hb) as (N1 & N2 & _ & N4 & N5).
  assert (forall x, x <> incr_path (curr_incr_file_seq am) -> file s' x = file s x) as Hf. { intros x Hx. apply Hs. by rewrite list_elem_of_singleton. }
  split; [by destruct Hs|by rewrite Hf|by rewrite Hf|]. destruct (Hup bs Hlast Hlf) as (bs' & Hlast' & Hlf').
  exists seqs, b, d0, l, bs'. split_and!; try done; [by rewrite Hf|]. clear -Hl Hf N5. induction Hl as [|x y seqs l H _ IH]; [constructor|].
  apply Forall_cons in N5 as [Nx N5]. constructor; [by rewrite Hf|by apply IH].
Qed.

Lemma temp_unprotected am seqs : am_inv_seqs fn am seqs -> temp_path ∉ protected am.
Proof.
  intros Hi. unfold protected. rewrite !not_elem_of_cons. split_and!; [by intros [=]|apply manifest_temp_neq|]. intros (ai & E & Hai)%list_elem_of_fmap. apply in_dir_inj in E.
  unfold live in Hai. apply elem_of_app in Hai as [Hai|Hai].
  - destruct (base_aof_info am) as [b|] eqn:Hb; [|by apply elem_of_nil in Hai]. apply list_elem_of_singleton in Hai as ->. destruct (inv_base _ _ _ Hi b Hb) as (_ & rdb & ->).
    symmetry in E. by apply base_temp_neq in E.
  - rewrite (inv_incr _ _ _ Hi) in Hai. apply list_elem_of_fmap in Hai as (x & -> & _). symmetry in E. by apply incr_temp_neq in E.
Qed.

(** A new manifest for the same files. *)
Lemma disk_remanifest s s' am am' us n ds q sel : disk s am us n ds q sel -> am_inv fn am' -> base_aof_info am' = base_aof_info am -> incr_aof_list am' = incr_aof_list am ->
  curr_incr_file_seq am' = curr_incr_file_seq am -> same_but [temp_path; manifest_path] s s' -> file s' manifest_path = Some (am_text am') -> disk s' am' us n ds q sel.
Proof.
  intros [Hwf Hold Hm (seqs & b & d0 & l & bs & Hi & Hb & Hbf & Hl & Hc & Hlast & Hlf)] (seqs' & Hi') Eb Ei Ec Hs Ht.
  assert (seqs' = seqs ++ [curr_incr_file_seq am]) as -> by (by rewrite <- (seqs_of _ _ Hi'), <- (seqs_of _ _ Hi), Ei).
  assert (forall x, x ∈ in_cwd fn :: ((fun ai => in_dir (file_name ai)) <$> live am) -> file s' x = file s x) as Hf.
  { intros x Hx. apply Hs. rewrite !not_elem_of_cons. pose proof (temp_unprotected am _ Hi) as Htp. split_and!; [| |apply not_elem_of_nil].
    - intros ->. apply Htp. unfold protected. apply elem_of_cons in Hx as [Hx|Hx]; [done|by do 2 right].
    - intros ->. apply elem_of_cons in Hx as [Hx|(ai & E & Hai)%list_elem_of_fmap]; [done|]. apply in_dir_inj in E. unfold live in Hai. apply elem_of_app in Hai as [Hai|Hai].
      + rewrite Hb in Hai. apply list_elem_of_singleton in Hai as ->. destruct (inv_base _ _ _ Hi b Hb) as (_ & rdb & ->). symmetry in E. by apply base_manifest_neq in E.
      + rewrite (inv_incr _ _ _ Hi) in Hai. apply list_elem_of_fmap in Hai as (x & -> & _). symmetry in E. by apply incr_manifest_neq in E. }
  assert (forall x, x ∈ seqs ++ [curr_incr_file_seq am] -> file s' (incr_path x) = file s (incr_path x)) as Hfs.
  { intros x Hx. apply Hf. right. apply list_elem_of_fmap. exists (incr_info fn AOF_FILE_TYPE_INCR x). split; [done|]. unfold live. apply elem_of_app. right.
    rewrite (inv_incr _ _ _ Hi). by apply list_elem_of_fmap_2. }
  split; [by destruct Hs|rewrite Hf by left; done|done|]. exists seqs, b, d0, l, bs. rewrite Ec, Eb. split_and!; try done.
  - rewrite Hf; [done|]. right. apply list_elem_of_fmap. exists b. split; [done|]. unfold live. rewrite Hb. left.
  - assert (forall x, x ∈ seqs -> file s' (incr_path x) = file s (incr_path x)) as Hfs' by (intros; apply Hfs, elem_of_app; by left).
    clear -Hl Hfs'. induction Hl as [|x y seqs l H _ IH]; [constructor|]. constructor; [rewrite Hfs' by left; done|]. apply IH. intros z Hz. apply Hfs'. by right.
  - rewrite Hfs; [done|]. apply elem_of_app. right. left.
Qed.

Lemma chain_snoc d l d1 cs id d2 : chain d l d1 -> Forall cmd_ok cs -> replay cs (0, d1) None = Some ((id, d2), None) -> chain d (l ++ [log_bytes cs]) d2.
Proof.
  induction 1 as [d|d cs' id' d' l d1 H1 H2 _ IH]; intros Hcs Hr; cbn [app]; [by eapply chain_cons; [..|apply chain_nil]|]. eapply chain_cons; [done|done|by apply IH].
Qed.

(** A last file that lacks nothing is a file of complete commands. *)
Lemma last_file_complete bs us n ds sel : last_file bs us n ds [] sel -> exists cs id, bs = log_bytes cs /\ Forall cmd_ok cs /\ replay cs (0, ds) None = Some ((id, apply_units no_data us), None) /\ agree sel id.
Proof using Hset.
  intros H. apply (last_file_full _ _ _ _ _ _ sel) in H as (cs & p & sel0 & id & us1 & vs & Hbs & H2 & H3 & H4 & E & Hn & _ & H8 & _ & ->); [|by left].
  assert (vs = []) as ->. { apply (f_equal length) in E. rewrite length_app in E. destruct vs; [done|simpl in E; lia]. }
  rewrite !app_nil_r in *. subst us1. exists cs, id. rewrite H8 in Hbs. cbn in Hbs. rewrite app_nil_r in Hbs. done.
Qed.

(** A new incremental file, and the manifest that lists it. *)
Lemma disk_new_incr s s' am am' us n ds sel : disk s am us n ds [] sel -> am_inv fn am' -> base_aof_info am' = base_aof_info am ->
  incr_aof_list am' = incr_aof_list am ++ [incr_info fn AOF_FILE_TYPE_INCR (curr_incr_file_seq am + 1)] -> curr_incr_file_seq am' = curr_incr_file_seq am + 1 ->
  (forall x, x ∈ in_cwd fn :: ((fun ai => in_dir (file_name ai)) <$> live am) -> file s' x = file s x) -> fs_wf s' ->
  file s' (incr_path (curr_incr_file_seq am + 1)) = Some [] -> file s' manifest_path = Some (am_text am') ->
  disk s' am' us (length us) (apply_units no_data us) [] (-1).
Proof using Hset.
  intros [Hwf Hold Hm (seqs & b & d0 & l & bs & Hi & Hb & Hbf & Hl & Hc & Hlast & Hlf)] (seqs' & Hi') Eb Ei Ec Hf Hwf' Hnew Ht.
  destruct (last_file_complete _ _ _ _ _ Hlf) as (cs & id & -> & Hcs & Hr & _).
  assert (seqs' = (seqs ++ [curr_incr_file_seq am]) ++ [curr_incr_file_seq am + 1]) as ->.
  { rewrite <- (seqs_of _ _ Hi'), <- (seqs_of _ _ Hi), Ei. by rewrite fmap_app. }
  assert (forall x, x ∈ seqs ++ [curr_incr_file_seq am] -> file s' (incr_path x) = file s (incr_path x)) as Hfs.
  { intros x Hx. apply Hf. right. apply list_elem_of_fmap. exists (incr_info fn AOF_FILE_TYPE_INCR x). split; [done|]. unfold live. apply elem_of_app. right.
    rewrite (inv_incr _ _ _ Hi). by apply list_elem_of_fmap_2. }
  split; [done|rewrite Hf by left; done|done|]. exists (seqs ++ [curr_incr_file_seq am]), b, d0, (l ++ [log_bytes cs]), []. rewrite Ec, Eb. split_and!; try done.
  - rewrite Hf; [done|]. right. apply list_elem_of_fmap. exists b. split; [done|]. unfold live. rewrite Hb. left.
  - apply Forall2_app.
    + assert (forall x, x ∈ seqs -> file s' (incr_path x) = file s (incr_path x)) as Hfs' by (intros; apply Hfs, elem_of_app; by left).
      clear -Hl Hfs'. induction Hl as [|x y seqs l H _ IH]; [constructor|]. constructor; [rewrite Hfs' by left; done|]. apply IH. intros z Hz. apply Hfs'. by right.
    + constructor; [|constructor]. rewrite Hfs; [done|]. apply elem_of_app. right. left.
  - by eapply chain_snoc.
  - apply last_file_nil.
Qed.

(** A new base file with the dataset of the start of the last incremental
    file. *)
Lemma disk_new_base s s' am am' us n ds q sel b : disk s am us n ds q sel -> am_inv fn am' -> base_aof_info am' = Some b ->
  incr_aof_list am' = [incr_info fn AOF_FILE_TYPE_INCR (curr_incr_file_seq am)] -> curr_incr_file_seq am' = curr_incr_file_seq am ->
  file s' (in_cwd fn) = file s (in_cwd fn) -> file s' (incr_path (curr_incr_file_seq am)) = file s (incr_path (curr_incr_file_seq am)) -> fs_wf s' ->
  file s' (in_dir (file_name b)) = Some (dump ds) -> file s' manifest_path = Some (am_text am') ->
  disk s' am' us n ds q sel.
Proof.
  intros [Hwf Hold Hm (seqs & b0 & d0 & l & bs & Hi & Hb & Hbf & Hl & Hc & Hlast & Hlf)] (seqs' & Hi') Eb Ei Ec Hcwd Hl' Hwf' Hnew Ht.
  assert (seqs' = [] ++ [curr_incr_file_seq am]) as ->.
  { by rewrite <- (seqs_of _ _ Hi'), Ei. }
  split; [done|by rewrite Hcwd|done|]. exists [], b, ds, [], bs. rewrite Ec. split_and!; try done; [constructor|by rewrite Hl'].
Qed.

(** ** The running server *)

(** The files in memory and on disk are the same, up to the history list. *)
Definition same_live (am am' : aofManifest) : Prop :=
  base_aof_info am = base_aof_info am' /\ incr_aof_list am = incr_aof_list am' /\ curr_incr_file_seq am = curr_incr_file_seq am'.

(** [sel] is the database that the log selects at the end of the buffer. *)
Record up_sel (st : server D) (s : fs) (us : list exec_unit) (n : nat) (sel : Z) : Prop := {
  up_on : aof_state st = AOF_ON;
  up_inv : am_inv fn (aof_manifest st);
  up_data : dataset st = apply_units no_data us;
  up_disk : exists am ds ap bs,
    disk s am us n ds (aof_buf st) sel /\ same_live am (aof_manifest st) /\
    fd_end s (aof_fd st) (incr_path (curr_incr_file_seq am)) ap /\ aof_fd st <> -1 /\
    file s (incr_path (curr_incr_file_seq am)) = Some bs /\ aof_last_incr_size st = zlen bs /\
    (forall pid d, child st = AofChild pid d -> d = ds);
}.

Definition up (st : server D) (s : fs) (us : list exec_unit) (n : nat) : Prop := up_sel st s us n (aof_selected_db (aof_feed st)).

(** What a crash leaves: the files of a manifest, or no manifest yet. *)
Definition fresh (s : fs) : Prop :=
  fs_wf s /\ file s (in_cwd fn) = None /\ file s manifest_path = None /\ default [] (file s (incr_path 1)) = [].

Definition durable (us : list exec_unit) (n : nat) (s : fs) : Prop :=
  exists us', us' `prefix_of` us /\ ((exists am ds q sel, disk s am us' n ds q sel) \/ (fresh s /\ us' = [] /\ n = 0%nat)).

Lemma disk_durable s am us n ds q sel : disk s am us n ds q sel -> durable us n s.
Proof. intros H. exists us. split; [done|]. left. by eexists _, _, _, _. Qed.

Lemma last_file_le bs us n n' ds q sel : last_file bs us n ds q sel -> (n' <= n)%nat -> last_file bs us n' ds q sel.
Proof. intros (cs & p & sel0 & id & us1 & vs & H1 & H2 & H3 & H4 & H5 & H6 & H7 & H8 & H9) Hn. exists cs, p, sel0, id, us1, vs. split_and!; try apply H9; try done; lia. Qed.

Lemma disk_le s am us n n' ds q sel : disk s am us n ds q sel -> (n' <= n)%nat -> disk s am us n' ds q sel.
Proof. intros [H1 H2 H3 (seqs & b & d0 & l & bs & H)] Hn. split; try done. exists seqs, b, d0, l, bs. split_and!; try apply H. eapply last_file_le; [apply H|done]. Qed.

Lemma up_durable st s us n sel : up_sel st s us n sel -> durable us n s.
Proof. intros [_ _ _ (am & ds & ap & bs & H & _)]. by eapply disk_durable. Qed.

Lemma up_wf st s us n sel : up_sel st s us n sel -> fs_wf s.
Proof. intros [_ _ _ (am & ds & ap & bs & H & _)]. apply H. Qed.

(** An empty buffer: every unit is on disk. *)
Lemma up_synced st s us n sel sel' : up_sel st s us n sel -> aof_buf st = [] -> sel' = sel \/ sel' = -1 -> up_sel st s us (length us) sel'.
Proof using Hset.
  intros [H1 H2 H3 (am & ds & ap & bs & Hd & Hl & Hfd & Hne & Hf & Hz & Hc)] Hb Hsel. split; try done. exists am, ds, ap, bs. split_and!; try done. rewrite Hb in *.
  eapply disk_update; [exact Hd|apply same_but_refl, Hd|]. intros bs' Hbs' Hlf. exists bs'. split; [done|]. rewrite <- (app_nil_r bs'). by eapply last_file_full.
Qed.

Lemma up_same st s s' us n sel : up_sel st s us n sel -> same_but [] s s' -> up_sel st s' us n sel.
Proof.
  intros [H1 H2 H3 (am & ds & ap & bs & Hd & Hl & Hfd & Hne & Hf & Hz & Hc)] Hs. split; try done. exists am, ds, ap, bs. split_and!; try done.
  - eapply disk_same; [done|done|constructor].
  - apply Hs; [done|apply not_elem_of_nil].
  - destruct Hs as [_ Hs _]. rewrite Hs; [done|apply not_elem_of_nil].
Qed.

Lemma up_sync st s us n sel x : up_sel st s us n sel -> up_sel (set_sync st x) s us n sel.
Proof. destruct st. by intros [H1 H2 H3 H4]; split. Qed.

Lemma up_write_ok st s us n sel x : up_sel st s us n sel -> up_sel (set_write_ok st x) s us n sel.
Proof. destruct st. by intros [H1 H2 H3 H4]; split. Qed.

(** ** Executing a unit *)

Lemma feed_calls_ok now calls (st : server D) : aof_state st = AOF_ON -> Forall (call_ok (dbnum cfg)) calls ->
  let sel := aof_selected_db (aof_feed st) in
  feed_calls junk cfg now calls st =
    Some (set_buf (set_feed st (FeedState (sel_after sel calls) (aof_cur_timestamp (aof_feed st)))) (aof_buf st ++ log_bytes (raw sel calls))).
Proof using Hset.
  destruct Hset as [_ Hdb _ Hts _ _ _]. intros Hon Hc. revert st Hon. induction Hc as [|[id argv] calls Hok Hcs IH]; intros st Hon sel.
  { destruct st as [? ? buf [sel0 ts] ? ? ? ? ? ? ? ? ?]. cbn. by rewrite app_nil_r. }
  destruct st as [mode fd buf [sel0 ts] am sz w sy ch r f sc d]. cbn in Hon. subst mode. cbn in sel. subst sel.
  pose proof (feed_all_ok (dbnum cfg) Hdb junk now [(id, argv)] sel0 ts ltac:(by constructor)) as Hf.
  cbn [feed_all] in Hf. unfold feed_calls; fold (feed_calls (D := D) junk cfg). rewrite decide_True by done.
  unfold feedAppendOnlyFile. rewrite Hts. cbn [aof_feed].
  destruct (feed_text junk (dbnum cfg) false now id argv (FeedState sel0 ts)) as [[text fs']|] eqn:E; [|done]. cbn [mbind option_bind] in Hf. injection Hf as Et Ef. cbn [mbind option_bind set_feed aof_state].
  rewrite decide_True by by left. cbn [mbind option_bind set_buf aof_buf]. rewrite IH by done.
  change ((id, argv) :: calls) with ([(id, argv)] ++ calls). rewrite raw_app, log_bytes_app, sel_after_app.
  assert (log_bytes (raw sel0 [(id, argv)]) = text) as -> by (rewrite <- (app_nil_r text); symmetry; exact Et). rewrite app_assoc, Ef. done.
Qed.

Lemma up_unit st s us n now u : up st s us n -> unit_fine u ->
  exists st', propagatePendingCommands exec junk cfg now u st = Some st' /\ up st' s (us ++ [u]) n.
Proof using Hset.
  intros [H1 H2 H3 (am & ds & ap & bs & Hd & Hl & Hfd & Hne & Hf & Hz & Hc)] Hu. unfold propagatePendingCommands.
  assert (Forall (call_ok (dbnum cfg)) (propagate_calls u.1 u.2)) as Hcalls.
  { destruct Hu as [Hu _]. pose proof (unit_calls_ok lookup (dbnum cfg) [u] ltac:(by constructor)) as H. unfold calls_of in H. cbn in H. by rewrite app_nil_r in H. }
  rewrite feed_calls_ok; [|by destruct st|done]. eexists. split; [done|]. destruct st as [mode fd buf [sel ts] m sz w sy ch r f sc d]. cbn in *.
  split; cbn; [done|done| |].
  - rewrite H3. unfold AofFile.apply_units. by rewrite foldl_app.
  - exists am, ds, ap, bs. split_and!; try done. destruct Hd as [Hwf Hold Hm (seqs & b & d0 & l & bs' & Hi & Hb & Hbf & Hls & Hch & Hlast & Hlf)]. split; try done.
    exists seqs, b, d0, l, bs'. split_and!; try done. pose proof (last_file_feed _ _ _ _ _ _ u Hlf Hu) as H. unfold calls_of in H. cbn [fmap list_fmap concat] in H. by rewrite app_nil_r in H.
Qed.

(** ** Flushing *)

Lemma set_sync_id (st : server D) : set_sync st (aof_sync st) = st.
Proof. by destruct st. Qed.

Lemma durable_le us n n' s : durable us n' s -> (n <= n')%nat -> durable us n s.
Proof.
  intros (us' & Hp & [(am & ds & q & sel & H)|(Hf & -> & ->)]) Hn; exists us' || exists []; (split; [done|]); [left|right; split_and!; [done|done|lia]].
  eexists _, _, _, _. by eapply disk_le.
Qed.

Section flush.
Variables (allowed : fs -> call -> answer -> Prop) (us : list exec_unit) (n : nat).
Hypothesis Hallowed : forall s c a, allowed s c a -> fair txns s c a.
Notation I := (durable us n).

Lemma quiet_same s s' : fs_wf s' -> (forall q, file s' q = file s q) -> (forall fd q ap, fd_end s fd q ap -> fd_end s' fd q ap) -> same_but [] s s'.
Proof. intros H1 H2 H3. split; [done|done|]. intros; by apply H3. Qed.

Lemma wp_try_fsync e b st (Q : server D -> fs -> Prop) s : fs_wf s -> I s -> (forall s', same_but [] s s' -> I s') ->
  (forall x s', same_but [] s s' -> Q (set_sync st x) s') -> wp allowed I (try_fsync cfg e b st) Q s.
Proof using Hallowed.
  intros Hwf HI HI' HQ. unfold try_fsync. destruct (aof_sync st) as [last offset postponed] eqn:Es.
  assert (Q st s) as Hst by (rewrite <- (set_sync_id st); apply HQ; by apply same_but_refl).
  destruct (_ && _); [done|]. case_decide.
  - eapply wp_bind, wp_quiet; [exact Hallowed|done|done|done|]. intros a s' Hwf' Hf Hd [_ Hcan] _ _.
    assert (same_but [] s s') as Hs by (apply quiet_same; [done|done|]; intros; by apply Hd). destruct (is_err a); [by split; [apply HI'|apply Hcan]|by apply HQ].
  - case_decide; [|done]. cbn. apply HQ. by apply same_but_refl.
Qed.

(** The states while the buffer is written. *)
Lemma up_written st s sel am ds ap bs m s' : up_sel st s us n sel -> disk s am us n ds (aof_buf st) sel -> file s (incr_path (curr_incr_file_seq am)) = Some bs ->
  written (incr_path (curr_incr_file_seq am)) (aof_fd st) ap s bs (aof_buf st) m s' ->
  (m = 0 -> disk s' am us n ds (aof_buf st) sel) /\ (m = zlen (aof_buf st) -> disk s' am us (length us) ds [] sel) /\
  (txns = false -> disk s' am us n ds (drop (Z.to_nat m) (aof_buf st)) sel).
Proof using Hset.
  intros Hup Hd Hbs (Hm & Hs & Hfd & Hbs'). split_and!.
  - intros ->. eapply disk_update; [exact Hd|exact Hs|]. intros bs0 E Hlf. rewrite Hbs in E. injection E as <-. exists bs. split; [|done]. rewrite Hbs'. by rewrite app_nil_r.
  - intros ->. eapply disk_update; [exact Hd|exact Hs|]. intros bs0 E Hlf. rewrite Hbs in E. injection E as <-. eexists. split; [exact Hbs'|].
    rewrite take_ge by (unfold zlen; lia). eapply last_file_full; [exact Hlf|by left].
  - intros Htx. eapply disk_update; [exact Hd|exact Hs|]. intros bs0 E Hlf. rewrite Hbs in E. injection E as <-. eexists. split; [exact Hbs'|].
    apply last_file_part; [|done]. by rewrite take_drop.
Qed.

(** The state after a flush: the same server, and every unit on disk when the
    buffer is empty. *)
Definition flushed (st st' : server D) (sel : Z) (s' : fs) : Prop :=
  up_sel st' s' us (if decide (aof_buf st' = []) then length us else n) sel /\
  aof_feed st' = aof_feed st /\ child st' = child st /\ aof_fd st' = aof_fd st /\ aof_manifest st' = aof_manifest st.

Lemma flushed_sync st st' sel s s' x : flushed st st' sel s -> same_but [] s s' -> flushed st (set_sync st' x) sel s'.
Proof.
  intros (H1 & H2 & H3 & H4 & H5) Hs. assert (aof_buf (set_sync st' x) = aof_buf st') as E by by destruct st'. unfold flushed. rewrite E. split; [by apply up_sync; eapply up_same|by destruct st'].
Qed.

Lemma up_flushed st s sel : up_sel st s us n sel -> flushed st st sel s.
Proof using Hset. intros H. split; [|done]. case_decide; [|done]. eapply up_synced; [done|done|by left]. Qed.

Hypothesis Hn : (n <= length us)%nat.

Lemma flushed_durable st st' sel s : flushed st st' sel s -> I s.
Proof using Hn. intros (H & _). apply up_durable in H. case_decide; [|done]. by eapply durable_le. Qed.

(** The error path and the rest of the function, after [m] bytes went to the
    file. *)
Lemma wp_after_write e b st s sel am ds ap bs m s1 (Q : server D -> fs -> Prop) :
  up_sel st s us n sel -> disk s am us n ds (aof_buf st) sel -> same_live am (aof_manifest st) -> file s (incr_path (curr_incr_file_seq am)) = Some bs ->
  aof_last_incr_size st = zlen bs -> (forall pid d, child st = AofChild pid d -> d = ds) -> aof_buf st <> [] ->
  written (incr_path (curr_incr_file_seq am)) (aof_fd st) ap s bs (aof_buf st) m s1 -> m = 0 \/ m = zlen (aof_buf st) \/ txns = false ->
  (m <> zlen (aof_buf st) -> can_fail allowed) ->
  (m <> zlen (aof_buf st) -> forall st' s', flushed st st' sel s' -> Q st' s') ->
  (forall st' s', aof_buf st' = [] -> flushed st st' sel s' -> Q st' s') ->
  wp allowed I (after_write cfg e b (if decide (m <> 0) then m else -1) st) Q s1.
Proof using Hset Hallowed Hn.
  intros Hup Hd Hl Hbs Hz Hc Hne Hw Hor Hcan HQ HQ0. destruct (up_written st s sel am ds ap bs m s1 Hup Hd Hbs Hw) as (W0 & Wfull & Wpart).
  destruct Hw as (Hm & Hs & Hfd & Hbs1). assert (0 < zlen (aof_buf st)) as Hpos by (destruct (aof_buf st); [done|zlia]).
  destruct Hup as [U1 U2 U3 U4]. assert (aof_fd st <> -1) as Hfdne by (destruct U4 as (? & ? & ? & ? & U); apply U). unfold after_write.
  destruct (decide (m = zlen (aof_buf st))) as [->|Hmne].
  - rewrite (decide_True (P := zlen (aof_buf st) <> 0)) by lia. rewrite decide_False by (intros H; by apply H).
    rewrite take_ge in Hbs1 by (unfold zlen; lia). specialize (Wfull eq_refl).
    assert (flushed st (set_buf (set_size (set_write_ok st true) (aof_last_incr_size st + zlen (aof_buf st))) []) sel s1) as Hfl.
    { destruct st. cbn in *. split; [|done]. cbn. rewrite decide_True by done. split; cbn; try done. exists am, ds, ap, (bs ++ aof_buf). split_and!; try done. rewrite zlen_app, Hz. lia. }
    apply wp_try_fsync; [apply Hs|by eapply flushed_durable| |].
    + intros s2 Hs2. eapply flushed_durable. by eapply (flushed_sync _ _ _ _ _ (SyncState 0 0 0)).
    + intros x s2 Hs2. apply HQ0; [by destruct st|]. by eapply flushed_sync.
  - rewrite decide_True by (case_decide; lia). destruct (decide (m = 0)) as [->|Hm0].
    + rewrite (decide_False (P := 0 <> 0)) by (intros H; by apply H). rewrite (decide_True (P := -1 = -1)) by done. cbn [prog_bind].
      rewrite app_nil_r in Hbs1. specialize (W0 eq_refl). assert (up_sel st s1 us n sel) as Hup1. { split; try done. by exists am, ds, ap, bs. }
      case_decide as Hal; [by split; [eapply up_durable|apply Hcan]|]. rewrite decide_False by lia. apply HQ; [done|]. destruct (up_flushed st s1 sel Hup1) as (F1 & _).
      destruct st. split; [|done]. cbn in *. by destruct F1 as [X1 X2 X3 X4]; split.
    + destruct Hor as [?|[?|Htx]]; [done|done|]. specialize (Wpart Htx). rewrite (decide_True (P := m <> 0)) by done. rewrite (decide_False (P := m = -1)) by lia.
      apply wp_bind, wp_bind, wp_call; [by eapply disk_durable|]. intros r. destruct (do_call _ r s1) as [a s2] eqn:Hcall. intros Ha.
      destruct (ftruncate_spec s1 (aof_fd st) _ ap _ (aof_last_incr_size st) r a s2 ltac:(apply Hs) Hfd Hbs1) as [[-> ->]|(-> & Hwf2 & Hset2 & Hfd2)]; [rewrite Hz, zlen_app; pose proof (zlen_nonneg bs); pose proof (zlen_nonneg (take (Z.to_nat m) (aof_buf st))); lia|done| |].
      * cbn [wp is_err]. case_decide as Hal; [by split; [eapply disk_durable|apply Hcan]|]. rewrite decide_True by lia. apply HQ; [done|]. destruct st. cbn in *. split; [|done]. cbn.
        rewrite decide_False. 2:{ intros E%(f_equal length). rewrite length_drop in E. unfold zlen in *. simpl in E. lia. }
        split; cbn; try done. eexists am, ds, ap, _. split_and!; try done. rewrite Hz, zlen_app, zlen_take. lia.
      * apply Hallowed in Ha as (d & Hdesc & Hap). assert (ap = true) as ->. { destruct Hfd as (i & off & cs & E & _). rewrite E in Hdesc. injection Hdesc as <-. done. }
        specialize (Hfd2 eq_refl). rewrite Hz in Hset2. replace (Z.to_nat (zlen bs)) with (length bs) in Hset2 by (unfold zlen; lia). rewrite take_app_length in Hset2.
        assert (file s2 (incr_path (curr_incr_file_seq am)) = Some bs) as Hbs2 by (rewrite Hset2; by rewrite decide_True).
        assert (disk s2 am us n ds (aof_buf st) sel) as Hd2.
        { eapply disk_frame; [exact Hd|done|]. intros x _. rewrite Hset2. case_decide as E; [by rewrite E|]. apply Hs. by rewrite list_elem_of_singleton. }
        assert (up_sel st s2 us n sel) as Hup2. { split; try done. by exists am, ds, true, bs. }
        cbn [wp is_err]. case_decide as Hal; [by split; [eapply up_durable|apply Hcan]|]. rewrite decide_False by lia. apply HQ; [done|]. destruct (up_flushed st s2 sel Hup2) as (F1 & _).
        destruct st. split; [|done]. cbn in *. by destruct F1 as [X1 X2 X3 X4]; split.
Qed.

Lemma wp_flush force e st sel s (Q : server D -> fs -> Prop) : up_sel st s us n sel ->
  (forall st' s', (force = true -> (forall s bs, ~ allowed s (CWrite (aof_fd st) bs) AErr) -> aof_buf st' = []) -> flushed st st' sel s' -> Q st' s') ->
  wp allowed I (flushAppendOnlyFile cfg force e st) Q s.
Proof using Hset Hallowed Hn.
  intros Hup HQ. unfold flushAppendOnlyFile. destruct (aof_sync st) as [last offset postponed] eqn:Es. pose proof (up_wf _ _ _ _ _ Hup) as Hwf.
  pose proof (up_durable _ _ _ _ _ Hup) as HI. pose proof (up_flushed st s sel Hup) as Hfl.
  destruct (decide (aof_buf st = [])) as [Eb|Hne].
  - assert (wp allowed I (try_fsync cfg e false st) Q s) as Htry.
    { apply wp_try_fsync; [done|done| |].
      - intros s' Hs. eapply flushed_durable. by eapply (flushed_sync _ _ _ _ _ (SyncState 0 0 0)).
      - intros x s' Hs. apply HQ; [by destruct st|]. by eapply flushed_sync. }
    case_decide; [done|]. case_decide; [done|]. by apply HQ.
  - destruct (negb force && _ && bool_decide (postponed = 0)) eqn:E1.
    { cbn. apply HQ; [destruct force; [done|done]|]. eapply flushed_sync; [done|by apply same_but_refl]. }
    destruct (negb force && _ && bool_decide (unixtime e - postponed < 2)) eqn:E2. { apply HQ; [destruct force; [done|done]|done]. }
    clear E1 E2. pose proof Hup as [U1 U2 U3 (am & ds & ap & bs & Hd & Hl & Hfd & Hfdne & Hf & Hz & Hc)].
    set (st0 := set_sync st (SyncState last offset 0)). assert (up_sel st0 s us n sel) as Hup0 by by apply up_sync.
    assert (aof_fd st0 = aof_fd st /\ aof_buf st0 = aof_buf st /\ aof_manifest st0 = aof_manifest st /\ aof_last_incr_size st0 = aof_last_incr_size st /\ child st0 = child st /\ aof_feed st0 = aof_feed st) as (E1 & E2 & E3 & E4 & E5 & E6) by by destruct st.
    assert (forall st' s', flushed st0 st' sel s' -> flushed st st' sel s') as Hfl0. { intros st' s' (F1 & F2 & F3 & F4 & F5). split; [done|]. by rewrite F2, F3, F4, F5, E1, E3, E5, E6. }
    assert (forall m s1, written (incr_path (curr_incr_file_seq am)) (aof_fd st) ap s bs (aof_buf st) m s1 -> m = 0 \/ m = zlen (aof_buf st) \/ txns = false ->
      (m <> zlen (aof_buf st) -> exists s bs, allowed s (CWrite (aof_fd st) bs) AErr) ->
      wp allowed I (after_write cfg e (bool_decide (aof_fsync cfg = AOF_FSYNC_EVERYSEC) && fsync_in_progress e) (if decide (m <> 0) then m else -1) st0) Q s1) as Hafter.
    { intros m s1 Hw Hor Hne0. eapply (wp_after_write _ _ st0 s sel am ds ap bs m s1); rewrite ?E1, ?E2, ?E3, ?E4, ?E5; try done.
      - intros Hm. destruct (Hne0 Hm) as (s' & bs' & H). by eexists _, _.
      - intros Hm st' s' F. apply HQ; [|by apply Hfl0]. intros _ Hno. exfalso. destruct (Hne0 Hm) as (s2 & bs2 & H). by apply (Hno s2 bs2).
      - intros st' s' Hb F. apply HQ; [done|by apply Hfl0]. }
    apply wp_bind.
    eapply (wp_write_loop allowed I (incr_path (curr_incr_file_seq am)) (aof_fd st) ap (txns = false) (exists s bs, allowed s (CWrite (aof_fd st) bs) AErr))
      with (loop := aofWrite) (stop := fun t => if decide (t <> 0) then t else -1) (finish := id) (tot := 0) (old := bs); try done.
    + intros s0 bs0 k Hal Hk. apply Hallowed in Hal as [?|?]; done.
    + intros s0 bs0 Hal. by exists s0, bs0.
    + intros fuel fd' buf t. destruct fuel; reflexivity.
    + intros m s1 Hw Hor. destruct (up_written st s sel am ds ap bs m s1 Hup Hd Hf Hw) as (W0 & Wfull & Wpart). destruct Hor as [->|[->|Htx]].
      * eapply disk_durable. by apply W0.
      * eapply durable_le; [eapply disk_durable; by apply Wfull|done].
      * eapply disk_durable. by apply Wpart.
    + intros m s1 Hw Hor Herr. rewrite Z.add_0_l. apply Hafter; [done|destruct Hor; auto|done].
    + intros s1 Hw. rewrite Z.add_0_l. assert (0 < zlen (aof_buf st)) by (destruct (aof_buf st); [done|zlia]).
      pose proof (Hafter _ _ Hw ltac:(by right; left) ltac:(done)) as H'. rewrite decide_True in H' by lia. exact H'.
Qed.
End flush.

(** ** Changes of the manifest *)

Lemma protected_live am am' : same_live am am' -> protected am = protected am'.
Proof. intros (E1 & E2 & _). unfold protected, live. by rewrite E1, E2. Qed.

Lemma up_frame st s s' us n sel ps : up_sel st s us n sel -> same_but ps s s' -> Forall (fun x => x ∉ protected (aof_manifest st)) ps -> up_sel st s' us n sel.
Proof.
  intros [H1 H2 H3 (am & ds & ap & bs & Hd & Hl & Hfd & Hne & Hf & Hz & Hc)] Hs Hps. rewrite <- (protected_live _ _ Hl) in Hps.
  assert (incr_path (curr_incr_file_seq am) ∉ ps) as Hlast.
  { intros Hin. rewrite Forall_forall in Hps. apply (Hps _ Hin). destruct Hd as [_ _ _ (seqs & b & d0 & l & bs' & Hi & _)]. eapply seq_protected; [exact Hi|]. apply elem_of_app. right. left. }
  split; try done. exists am, ds, ap, bs. split_and!; try done; [by eapply disk_same|by apply Hs|by rewrite (same_file _ _ _ Hs)].
Qed.

Lemma up_mem st s us n sel am' : up_sel st s us n sel -> am_inv fn am' -> same_live am' (aof_manifest st) -> up_sel (set_manifest st am') s us n sel.
Proof.
  intros [H1 H2 H3 (am & ds & ap & bs & Hd & (L1 & L2 & L3) & Hrest)] Hi (E1 & E2 & E3). destruct st. cbn in *. split; try done. exists am, ds, ap, bs. split; [done|]. split; [|done].
  unfold same_live. cbn. by rewrite E1, E2, E3.
Qed.

Lemma am_inv_dirty am b : am_inv fn am -> am_inv fn (set_dirty am b).
Proof. intros (seqs & H). exists seqs. by destruct H; split. Qed.

Lemma up_remanifest st s s' us n sel am' : up_sel st s us n sel -> am_inv fn am' -> same_live am' (aof_manifest st) ->
  same_but [temp_path; manifest_path] s s' -> file s' manifest_path = Some (am_text am') -> up_sel (set_manifest st (set_dirty am' false)) s' us n sel.
Proof.
  intros [H1 H2 H3 (am & ds & ap & bs & Hd & (L1 & L2 & L3) & Hfd & Hne & Hf & Hz & Hc)] Hi (E1 & E2 & E3) Hs Ht.
  assert (disk s' am' us n ds (aof_buf st) sel) as Hd' by (eapply disk_remanifest; [exact Hd|done|congruence|congruence|congruence|done|done]).
  destruct (dk_files _ _ _ _ _ _ _ Hd) as (seqs & b & d0 & l & bs' & Hi0 & Hb & _). destruct (last_distinct am seqs b Hi0 Hb) as (_ & N2 & N3 & _).
  assert (incr_path (curr_incr_file_seq am) ∉ [temp_path; manifest_path]) as Hlast by (rewrite !not_elem_of_cons; split_and!; [done|done|apply not_elem_of_nil]).
  assert (curr_incr_file_seq am' = curr_incr_file_seq am) as Ec by congruence.
  destruct st. cbn in *. split; cbn; [done|by apply am_inv_dirty|done|]. exists am', ds, ap, bs. rewrite Ec. split_and!; try done; [by apply Hs|by rewrite (same_file _ _ _ Hs)].
Qed.

(** ** Deleting the history files *)

Section ops.
Variables (allowed : fs -> call -> answer -> Prop) (us : list exec_unit) (n : nat).
Hypothesis Hallowed : forall s c a, allowed s c a -> fair txns s c a.
Notation I := (durable us n).

Lemma wp_unlink_all l s (Q : unit -> fs -> Prop) P : fs_wf s -> P s -> (forall s, P s -> I s) ->
  Forall (fun ai => file_type ai = AOF_FILE_TYPE_HIST) l -> Forall (fun ai => forall s s', P s -> same_but [in_dir (file_name ai)] s s' -> P s') l ->
  (forall s', fs_wf s' -> P s' -> Q tt s') -> wp allowed I (unlink_all l) Q s.
Proof.
  intros Hwf HP HPI Ht Hstep HQ. revert s Hwf HP. induction l as [|ai l IH]; intros s Hwf HP; [by apply HQ|]. cbn [unlink_all].
  apply Forall_cons in Ht as [Ht Htl]. apply Forall_cons in Hstep as [Hs Hsl]. apply wp_bind, (wp_lift _ _ _ tt); [by apply assert_True|].
  apply wp_bind, wp_unlink; [done|by apply HPI|]. intros _ s' Hs'. apply IH; [done|done|apply Hs'|by eapply Hs].
Qed.

(** The names of history files are not those of files that matter. *)
Lemma hist_unprotected am seqs : am_inv_seqs fn am seqs -> Forall (fun ai => in_dir (file_name ai) ∉ protected am) (history_aof_list am).
Proof.
  intros Hi. destruct (live_distinct fn am seqs Hi) as [_ Hd]. pose proof (inv_hist _ _ _ Hi) as Hh. apply Forall_forall. intros ai Hai. rewrite Forall_forall in Hd, Hh.
  specialize (Hd ai Hai). specialize (Hh ai Hai). unfold protected. rewrite !not_elem_of_cons. split_and!; [by intros [=]| |].
  - intros E%in_dir_inj. destruct Hh as [(x & -> & _)|(rdb & x & -> & _)]; cbn in E; [by apply incr_manifest_neq in E|by apply base_manifest_neq in E].
  - intros (aj & E & Haj)%list_elem_of_fmap. apply in_dir_inj in E. apply Hd. apply list_elem_of_fmap. by exists aj.
Qed.

Lemma hist_type am seqs : am_inv_seqs fn am seqs -> Forall (fun ai => file_type ai = AOF_FILE_TYPE_HIST) (history_aof_list am).
Proof. intros Hi. eapply Forall_impl; [apply (inv_hist _ _ _ Hi)|]. intros ai [(x & -> & _)|(rdb & x & -> & _)]; done. Qed.

Lemma up_base st s sel : up_sel st s us n sel -> is_Some (base_aof_info (aof_manifest st)).
Proof. intros [_ _ _ (am & ds & ap & bs & Hd & (E & _) & _)]. rewrite <- E. destruct (dk_files _ _ _ _ _ _ _ Hd) as (seqs & b & d0 & l & bs' & Hi0 & Hb & _). rewrite Hb. by eexists. Qed.

Lemma inv_ok am : am_inv fn am -> is_Some (base_aof_info am) -> am_ok am.
Proof using Hset. intros (seqs & Hi) [b Hb]. eapply am_inv_ok; [apply Hset|exact Hi|]. unfold am_files. by rewrite Hb. Qed.

Lemma wp_gc st s sel (Q : bool * server D -> fs -> Prop) : up_sel st s us n sel ->
  (forall b am d s', up_sel (set_manifest st (set_dirty am d)) s' us n sel -> Q (b, set_manifest st (set_dirty am d)) s') ->
  wp allowed I (aofDelHistoryFiles cfg st) Q s.
Proof using Hset Hallowed.
  intros Hup HQ. unfold aofDelHistoryFiles. assert (set_manifest st (set_dirty (aof_manifest st) (dirty (aof_manifest st))) = st) as Eid by by destruct st as [? ? ? ? [] ? ? ? ? ? ? ? ?].
  case_decide; [rewrite <- Eid at 1; apply HQ; by rewrite Eid|]. destruct (up_inv _ _ _ _ _ Hup) as (seqs & Hi). set (am := aof_manifest st) in *.
  apply wp_bind, (wp_unlink_all _ _ _ (fun s' => up_sel st s' us n sel)); [by eapply up_wf|done|intros ?; by eapply up_durable|by eapply hist_type| |].
  { eapply Forall_impl; [by eapply hist_unprotected|]. intros ai Hai s1 s2 Hup1 Hs. eapply up_frame; [done|done|]. by constructor. }
  intros s1 Hwf1 Hup1. set (am1 := AofManifest (base_aof_info am) (incr_aof_list am) [] (curr_base_file_seq am) (curr_incr_file_seq am) true).
  assert (am_inv fn am1) as Hi1. { exists seqs. destruct Hi as [X1 X2 X3 X4 X5 X6 X7]. split; cbn; done. }
  assert (same_live am1 am) as Hl by done.
  apply wp_bind. eapply wp_persist; [exact Hallowed|done|done|apply inv_ok; [done|by eapply up_base]| |].
  - intros s2 Hs2. assert (up_sel (set_manifest st am1) s2 us n sel) as Hup2.
    { apply up_mem; [|done|done]. eapply up_frame; [done|exact Hs2|]. constructor; [|constructor]. eapply temp_unprotected. apply Hi. }
    split; [by eapply up_durable|]. intros _. cbn. change am1 with (set_dirty am1 true). by apply HQ.
  - intros s2 Hs2 Ht2. assert (up_sel (set_manifest st (set_dirty am1 false)) s2 us n sel) as Hup2 by by eapply up_remanifest.
    split; [by eapply up_durable|]. cbn. by apply HQ.
Qed.

(** ** Starting a rewrite *)

Lemma next_unprotected am seqs : am_inv_seqs fn am seqs -> curr_incr_file_seq am + 1 < 2 ^ 62 -> incr_path (curr_incr_file_seq am + 1) ∉ protected am.
Proof.
  intros Hi Hlt. unfold protected. rewrite !not_elem_of_cons. split_and!; [by intros [=]|intros E%in_dir_inj; by apply incr_manifest_neq in E|].
  intros (ai & E & Hai)%list_elem_of_fmap. apply in_dir_inj in E. unfold live in Hai. apply elem_of_app in Hai as [Hai|Hai].
  - destruct (base_aof_info am) as [b|] eqn:Hb; [|by apply elem_of_nil in Hai]. apply list_elem_of_singleton in Hai as ->. destruct (inv_base _ _ _ Hi b Hb) as (_ & rdb & ->). by apply incr_base_neq in E.
  - rewrite (inv_incr _ _ _ Hi) in Hai. apply list_elem_of_fmap in Hai as (x & -> & Hx). pose proof (inv_range _ _ _ Hi) as Hr. rewrite Forall_forall in Hr. specialize (Hr x Hx).
    pose proof (inv_bounds _ _ _ Hi). cbn in E, Hr. apply incr_name_inj in E; lia.
Qed.

Lemma up_close st s s' sel fd : up_sel st s us n sel -> fs_wf s' -> (forall q, file s' q = file s q) -> (forall fd' q ap, fd_end s fd' q ap -> CClose fd <> CClose fd' -> fd_end s' fd' q ap) -> aof_fd st <> fd ->
  up_sel st s' us n sel.
Proof.
  intros [H1 H2 H3 (am & ds & ap & bs & Hd & Hl & Hfd & Hne & Hf & Hz & Hc)] Hwf Hf' Hd' Hnfd. split; try done. exists am, ds, ap, bs. split_and!; try done.
  - eapply disk_frame; [done|done|]. intros; apply Hf'.
  - apply Hd'; [done|congruence].
  - by rewrite Hf'.
Qed.

Hypothesis Hn : (n <= length us)%nat.

(** A server whose last file starts with its dataset. *)
Definition switched (st st' : server D) (s' : fs) : Prop :=
  aof_feed st' = aof_feed st /\ child st' = child st /\ dataset st' = dataset st /\ aof_buf st' = aof_buf st /\
  forall ch, (forall pid d, ch = AofChild pid d -> d = dataset st) -> up_sel (set_child st' ch) s' us (length us) (-1).

Lemma wp_open_incr e st s sel (Q : bool * server D -> fs -> Prop) : up_sel st s us n sel -> aof_buf st = [] -> curr_incr_file_seq (aof_manifest st) + 1 < 2 ^ 62 ->
  (forall s', up_sel st s' us n sel -> Q (false, st) s') -> (forall st' s', switched st st' s' -> Q (true, st') s') ->
  wp allowed I (openNewIncrAofForAppend cfg e st) Q s.
Proof using Hset Hallowed Hn.
  intros Hup Hb Hlt Hfail Hok. unfold openNewIncrAofForAppend. rewrite (up_on _ _ _ _ _ Hup). rewrite !decide_False by done.
  set (M := aof_manifest st) in *. replace (aofManifestDup M) with M by by destruct M. destruct (up_inv _ _ _ _ _ Hup) as (seqs & Hi). fold M in Hi.
  pose proof (next_unprotected M seqs Hi Hlt) as Hnew. cbn [getNewIncrAofName]. set (am1 := AofManifest _ _ _ _ _ _).
  assert (am_inv fn am1) as Hi1 by (eexists; by apply (getNewIncrAofName_inv fn M seqs)).
  apply wp_bind. eapply wp_open; [by eapply up_wf|by eapply up_durable|by intros _; apply Hfail|]. intros newfd s1 bs0 Hs1 Hf1 Hfd1 Hne1 Hpos. subst bs0. specialize (Hfd1 (or_introl eq_refl)).
  assert (up_sel st s1 us n sel) as Hup1 by (eapply up_frame; [done|exact Hs1|by constructor]).
  assert (aof_fd st <> newfd) as Hnefd.
  { destruct (up_disk _ _ _ _ _ Hup) as (am & ds & ap & bs & Hd & (_ & _ & Ec) & Hfd & _). apply (Hne1 _ _ _ Hfd). rewrite Ec. fold M. intros E%in_dir_inj.
    pose proof (inv_bounds _ _ _ Hi). apply incr_name_inj in E; lia. }
  apply wp_bind, wp_bind. eapply wp_persist; [exact Hallowed|apply Hs1|done|apply inv_ok; [done|by eapply up_base]| |].
  - intros s2 Hs2. assert (up_sel st s2 us n sel) as Hup2. { eapply up_frame; [done|exact Hs2|]. constructor; [|constructor]. by eapply temp_unprotected. }
    split; [by eapply up_durable|]. intros _. cbn [wp negb]. apply wp_bind. eapply wp_quiet; [exact Hallowed|apply Hs2|by eapply up_durable|done|].
    intros a s3 Hwf3 Hf3 Hd3 _ _ _. cbn. apply Hfail. by eapply (up_close st s2 s3 sel newfd).
  - intros s2 Hs2 Ht2. destruct (up_disk _ _ _ _ _ Hup) as (am & ds & ap & bs & Hd & (E1 & E2 & Ec) & Hfd & Hfdne & _). rewrite Hb in Hd. fold M in E1, E2, Ec.
    assert (incr_path (curr_incr_file_seq M + 1) ∉ [temp_path; manifest_path]) as Hnt.
    { rewrite !not_elem_of_cons. split_and!; [|intros E%in_dir_inj; by apply incr_manifest_neq in E|apply not_elem_of_nil]. intros E%in_dir_inj. by apply incr_temp_neq in E. }
    assert (disk s2 am1 us (length us) (apply_units no_data us) [] (-1)) as Hd2.
    { eapply (disk_new_incr s s2 am am1); [exact Hd|done|by rewrite E1|by rewrite E2, Ec|by rewrite Ec| |apply Hs2| |done].
      - intros x Hx. assert (x ∈ protected M) as Hxp. { rewrite <- (protected_live am M) by done. unfold protected. apply elem_of_cons in Hx as [->|Hx]; [left|by do 2 right]. }
        rewrite (same_file _ _ _ Hs2). { apply Hs1. rewrite list_elem_of_singleton. intros ->. done. }
        rewrite !not_elem_of_cons. split_and!; [| |apply not_elem_of_nil].
        + intros ->. by eapply temp_unprotected.
        + intros ->. apply elem_of_cons in Hx as [Hx|(ai & E & Hai)%list_elem_of_fmap]; [done|]. apply in_dir_inj in E. unfold live in Hai. rewrite E1, E2 in Hai. apply elem_of_app in Hai as [Hai|Hai].
          * destruct (base_aof_info M) as [b|] eqn:Hbm; [|by apply elem_of_nil in Hai]. apply list_elem_of_singleton in Hai as ->. destruct (inv_base _ _ _ Hi b Hbm) as (_ & rdb & ->). symmetry in E. by apply base_manifest_neq in E.
          * rewrite (inv_incr _ _ _ Hi) in Hai. apply list_elem_of_fmap in Hai as (x & -> & _). symmetry in E. by apply incr_manifest_neq in E.
      - rewrite Ec. rewrite (same_file _ _ _ Hs2) by done. done. }
    assert (I s2) as HI2 by (eapply durable_le; [by eapply disk_durable|done]). split; [done|]. cbn [wp negb]. destruct (aof_sync st) as [last offset postponed].
    rewrite (decide_True (P := aof_fd st <> -1)) by done. apply wp_bind, wp_bind. eapply wp_quiet; [exact Hallowed|apply Hs2|done|done|].
    intros a s3 Hwf3 Hf3 Hd3 _ _ _. cbn [wp]. apply Hok. destruct (up_on _ _ _ _ _ Hup). pose proof (up_data _ _ _ _ _ Hup) as Hdata. pose proof (up_on _ _ _ _ _ Hup) as Hon.
    destruct st as [mode fd buf feed am0 sz w sy ch r f sc d]. cbn in *. split_and!; try done. intros ch' Hch. split; cbn; [done|by apply am_inv_dirty|done|].
    exists am1, (apply_units no_data us), false, []. rewrite Hb. split_and!; try done.
    + eapply disk_frame; [exact Hd2|done|]. intros; apply Hf3.
    + apply Hd3; [|congruence]. by apply Hs2.
    + lia.
    + rewrite Hf3, (same_file _ _ _ Hs2) by done. done.
    + intros pid d' E. rewrite <- Hdata. by eapply Hch.
Qed.

Lemma wp_open_synced e st s sel (Q : bool * server D -> fs -> Prop) : up_sel st s us (length us) sel -> aof_buf st = [] -> curr_incr_file_seq (aof_manifest st) + 1 < 2 ^ 62 ->
  (forall s', up_sel st s' us (length us) (-1) -> Q (false, st) s') -> (forall st' s', switched st st' s' -> Q (true, st') s') ->
  wp allowed I (openNewIncrAofForAppend cfg e st) Q s.
Proof using Hset Hallowed Hn.
  intros Hup Hb Hlt Hfail Hok. eapply (wp_open_incr e st s sel); [|done|done| |done].
  - destruct Hup as [H1 H2 H3 (am & ds & ap & bs & Hd & H)]. split; try done. exists am, ds, ap, bs. split; [by eapply disk_le|done].
  - intros s' Hup'. apply Hfail. eapply up_synced; [done|done|by right].
Qed.
End ops.

(** The state between two operations: [n] units are on disk, all of them when
    the buffer is empty. *)
Definition acked (st : server D) (us : list exec_unit) (n : nat) : nat := if decide (aof_buf st = []) then length us else n.

Lemma up_acked st s us n : up st s us n -> up st s us (acked st us n).
Proof using Hset. intros H. unfold acked. case_decide; [|done]. eapply up_synced; [done|done|by left]. Qed.

Lemma up_bound st s us n sel : up_sel st s us n sel -> (n <= length us)%nat.
Proof. intros [_ _ _ (am & ds & ap & bs & [_ _ _ (seqs & b & d0 & l & bs' & _ & _ & _ & _ & _ & _ & (cs & p & sel0 & id & us1 & vs & _ & _ & _ & _ & -> & Hn & _))] & _)]. rewrite length_app. lia. Qed.

(** The fields that the invariant does not mention. *)
Lemma up_rewrite_ok st s us n sel x : up_sel st s us n sel -> up_sel (set_rewrite_ok st x) s us n sel.
Proof. destruct st. by intros [H1 H2 H3 H4]; split. Qed.

Lemma up_scheduled st s us n sel x : up_sel st s us n sel -> up_sel (set_scheduled st x) s us n sel.
Proof. destruct st. by intros [H1 H2 H3 H4]; split. Qed.

Lemma up_failures st s us n sel x : up_sel st s us n sel -> up_sel (set_failures st x) s us n sel.
Proof. destruct st. by intros [H1 H2 H3 H4]; split. Qed.

Lemma up_set_feed st s us n sel x : up_sel st s us n sel -> up_sel (set_feed st x) s us n sel.
Proof. destruct st. by intros [H1 H2 H3 H4]; split. Qed.

Lemma up_no_child st s us n sel : up_sel st s us n sel -> up_sel (set_child st NoChild) s us n sel.
Proof. destruct st. intros [H1 H2 H3 (am & ds & ap & bs & H)]. split; try done. exists am, ds, ap, bs. cbn in *. by split_and!; try apply H. Qed.

Lemma set_child_id (st : server D) : set_child st (child st) = st.
Proof. by destruct st. Qed.

Lemma wp_rewrite e st s us n (Q : bool * server D -> fs -> Prop) : up st s us n -> curr_incr_file_seq (aof_manifest st) + 1 < 2 ^ 62 ->
  (forall b st' s', up st' s' us (acked st' us n) -> Q (b, st') s') ->
  wp (fair_rewrite txns (aof_fd st)) (durable us n) (rewriteAppendOnlyFileBackground cfg e st) Q s.
Proof using Hset.
  intros Hup Hlt HQ. unfold rewriteAppendOnlyFileBackground. pose proof (up_bound _ _ _ _ _ Hup) as Hn.
  assert (forall s c a, fair_rewrite txns (aof_fd st) s c a -> fair txns s c a) as Hal by (by intros ? ? ? [? _]).
  destruct (has_child st) eqn:Hch; [apply HQ; by apply up_acked|]. assert (child st = NoChild) as Hnc by (unfold has_child in Hch; by destruct (child st)).
  apply wp_bind. eapply wp_quiet; [exact Hal|by eapply up_wf|by eapply up_durable|done|]. intros a s1 Hwf1 Hf1 Hd1 _ _ _.
  assert (same_but [] s s1) as Hs1 by (apply quiet_same; [done|done|]; intros; by apply Hd1). assert (up st s1 us n) as Hup1 by (by eapply up_same).
  destruct (is_err a). { cbn. apply HQ, up_acked. unfold up. replace (aof_feed (set_rewrite_ok st false)) with (aof_feed st) by by destruct st. by apply up_rewrite_ok. }
  set (st0 := set_feed st _). assert (aof_fd st0 = aof_fd st /\ aof_feed st0 = FeedState (-1) (aof_cur_timestamp (aof_feed st)) /\ child st0 = NoChild /\ aof_manifest st0 = aof_manifest st) as (E1 & E2 & E3 & E4) by by destruct st.
  apply wp_bind. eapply (wp_flush _ us n Hal Hn true e st0 (aof_selected_db (aof_feed st)) s1); [by apply up_set_feed|].
  intros st1 s2 Hbuf (Hup2 & F1 & F2 & F3 & F4). rewrite E1 in Hbuf. specialize (Hbuf eq_refl). assert (aof_buf st1 = []) as Hb1. { apply Hbuf. intros s' bs [_ H]. done. }
  rewrite decide_True in Hup2 by done. apply wp_bind. eapply (wp_open_synced _ us n Hal Hn e st1 s2); [exact Hup2|done|by rewrite F4, E4| |].
  - intros s3 Hup3. cbn. apply HQ. unfold up, acked. replace (aof_feed (set_rewrite_ok st1 false)) with (aof_feed st1) by by destruct st1.
    replace (aof_buf (set_rewrite_ok st1 false)) with (aof_buf st1) by by destruct st1. rewrite Hb1, decide_True by done. rewrite F1, E2. cbn. by apply up_rewrite_ok.
  - intros st2 s3 (G1 & G2 & G3 & G4 & G5). cbn [negb]. apply wp_bind.
    assert (up_sel st2 s3 us (length us) (-1)) as Hup3. { rewrite <- (set_child_id st2). apply G5. rewrite G2, F2, E3. done. }
    eapply wp_quiet; [exact Hal|by eapply up_wf|eapply durable_le; [by eapply up_durable|done]|done|]. intros a' s4 Hwf4 Hf4 Hd4 _ _ _.
    assert (same_but [] s3 s4) as Hs4 by (apply quiet_same; [done|done|]; intros; by apply Hd4).
    assert (forall st', aof_buf st' = [] -> aof_selected_db (aof_feed st') = -1 -> up_sel st' s4 us (length us) (-1) -> up st' s4 us (acked st' us n)) as Hfin.
    { intros st' Hb' Hs' H. unfold up, acked. by rewrite Hb', Hs', decide_True. }
    assert (aof_buf st2 = []) as Hb2 by by rewrite G4. assert (aof_selected_db (aof_feed st2) = -1) as Hsel by by rewrite G1, F1, E2.
    destruct a' as [pid| | |]; cbn; apply HQ, Hfin; try (by destruct st2); try (apply up_rewrite_ok; by eapply up_same).
    apply up_scheduled. eapply up_same; [|exact Hs4]. apply G5. intros pid' d' [= _ <-]. done.
Qed.

(** ** The end of a rewrite *)

Section done.
Variables (allowed : fs -> call -> answer -> Prop) (us : list exec_unit) (n : nat).
Hypothesis Hallowed : forall s c a, allowed s c a -> fair txns s c a.

(** The temporary files of a rewrite are none of those that matter. *)
Lemma cwd_unprotected am name : fn <> name -> in_cwd name ∉ protected am.
Proof.
  intros Hne. unfold protected. rewrite !not_elem_of_cons. split_and!; [intros [=]; congruence|by intros [=]|].
  intros (ai & E & _)%list_elem_of_fmap. by injection E.
Qed.

Lemma temp_names_neq pid : in_cwd (temp_fg pid) <> in_cwd (temp_bg pid).
Proof. intros E. apply (f_equal (fun p : path => length p.2)) in E. cbn [snd in_cwd] in E. unfold temp_fg, temp_bg in E. rewrite !length_app in E. cbn in E. lia. Qed.

Lemma temps_unprotected pid am : in_cwd (temp_bg pid) ∉ protected am /\ in_cwd (temp_fg pid) ∉ protected am.
Proof using Hset. split; apply cwd_unprotected, Hset. Qed.

Lemma base_unprotected am seqs rdb : am_inv_seqs fn am seqs -> curr_base_file_seq am + 1 < 2 ^ 62 -> in_dir (base_name fn rdb (curr_base_file_seq am + 1)) ∉ protected am.
Proof.
  intros Hi Hlt. unfold protected. rewrite !not_elem_of_cons. split_and!; [by intros [=]|intros E%in_dir_inj; by apply base_manifest_neq in E|].
  intros (ai & E & Hai)%list_elem_of_fmap. apply in_dir_inj in E. unfold live in Hai. apply elem_of_app in Hai as [Hai|Hai].
  - destruct (base_aof_info am) as [b|] eqn:Hb; [|by apply elem_of_nil in Hai]. apply list_elem_of_singleton in Hai as ->. destruct (inv_base _ _ _ Hi b Hb) as (_ & rdb' & ->).
    pose proof (inv_bounds _ _ _ Hi). cbn in E. apply base_name_inj in E; lia.
  - rewrite (inv_incr _ _ _ Hi) in Hai. apply list_elem_of_fmap in Hai as (x & -> & Hx). symmetry in E. by apply incr_base_neq in E.
Qed.

Lemma up_failed st s sel : up_sel st s us n sel -> up_sel (rewrite_failed st) s us n sel.
Proof. intros H. apply up_failures. by apply up_rewrite_ok. Qed.

(** The server after a rewrite: the same log, possibly in other files. *)
Definition rewritten (st st' : server D) (sel : Z) (s' : fs) : Prop :=
  up_sel st' s' us n sel /\ aof_feed st' = aof_feed st /\ aof_buf st' = aof_buf st.

Lemma rewritten_failed st sel s' : up_sel st s' us n sel -> rewritten st (rewrite_failed st) sel s'.
Proof. intros H. split; [by apply up_failed|by destruct st]. Qed.

(** The manifest with the new base file, after it is written. *)
Lemma up_new_base st s s' sel am2 b d pid : up_sel st s us n sel -> child st = AofChild pid d -> am_inv fn am2 -> base_aof_info am2 = Some b ->
  incr_aof_list am2 = [incr_info fn AOF_FILE_TYPE_INCR (curr_incr_file_seq (aof_manifest st))] -> curr_incr_file_seq am2 = curr_incr_file_seq (aof_manifest st) ->
  same_but [temp_path; manifest_path] s s' -> file s' (in_dir (file_name b)) = Some (dump d) -> file s' manifest_path = Some (am_text am2) ->
  up_sel (set_manifest st (set_dirty am2 false)) s' us n sel.
Proof.
  intros [H1 H2 H3 (am & ds & ap & bs & Hd & (E1 & E2 & E3) & Hfd & Hne & Hf & Hz & Hc)] Hch Hi Hb Hl Hcur Hs Hnew Ht.
  destruct (dk_files _ _ _ _ _ _ _ Hd) as (seqs & b0 & d0 & l & bs' & Hi0 & Hb0 & _). destruct (last_distinct am seqs b0 Hi0 Hb0) as (_ & N2 & N3 & _).
  assert (incr_path (curr_incr_file_seq am) ∉ [temp_path; manifest_path]) as Hlast by (rewrite !not_elem_of_cons; split_and!; [done|done|apply not_elem_of_nil]).
  rewrite <- E3 in Hl, Hcur. pose proof (Hc pid d Hch) as ->.
  assert (disk s' am2 us n ds (aof_buf st) sel) as Hd'.
  { eapply (disk_new_base s s' am am2); [exact Hd|done|exact Hb|done|done| | |apply Hs|done|done]; [|by apply Hs].
    apply Hs. rewrite !not_elem_of_cons. split_and!; [by intros [=]|by intros [=]|apply not_elem_of_nil]. }
  destruct st. cbn in *. split; cbn; [done|by apply am_inv_dirty|done|]. exists am2, ds, ap, bs. rewrite Hcur. split_and!; try done; [by apply Hs|by rewrite (same_file _ _ _ Hs)].
Qed.

(** The incremental files of the manifest in memory end with the current one. *)
Lemma up_seqs st s sel : up_sel st s us n sel -> exists seqs, am_inv_seqs fn (aof_manifest st) (seqs ++ [curr_incr_file_seq (aof_manifest st)]).
Proof.
  intros [_ (seqsM & HiM) _ (am & ds & ap & bs & Hd & (E1 & E2 & E3) & _)]. destruct (dk_files _ _ _ _ _ _ _ Hd) as (seqs & b & d0 & l & bs' & Hi & _).
  exists seqs. rewrite <- E3. rewrite <- (seqs_of _ _ Hi), E2, (seqs_of _ _ HiM). done.
Qed.

Lemma up_fd st s sel : up_sel st s us n sel -> aof_fd st <> -1.
Proof. by intros [_ _ _ (am & ds & ap & bs & _ & _ & _ & Hne & _)]. Qed.

Lemma wp_success pid d st s sel (Q : server D -> fs -> Prop) : up_sel st s us n sel -> child st = AofChild pid d -> file s (in_cwd (temp_bg pid)) = Some (dump d) ->
  curr_base_file_seq (aof_manifest st) + 1 < 2 ^ 62 -> (forall st' s', rewritten st st' sel s' -> Q st' s') ->
  wp allowed (durable us n) (rewrite_success cfg pid st) Q s.
Proof using Hset Hallowed.
  intros Hup Hch Hfile Hlt HQ. unfold rewrite_success. set (M := aof_manifest st) in *. replace (aofManifestDup M) with M by by destruct M.
  destruct (up_seqs _ _ _ Hup) as (seqs & Hi). fold M in Hi. destruct (getNewBase_inv fn (aof_use_rdb_preamble cfg) M _ Hi Hlt) as (am1 & -> & Hi1 & Hb1 & Hl1 & Hc1 & _ & _).
  pose proof (base_unprotected M _ (aof_use_rdb_preamble cfg) Hi Hlt) as Hnb. set (nb := base_name fn _ _) in *. destruct (temps_unprotected pid M) as [Htmp _].
  apply wp_bind, (wp_lift _ _ _ (nb, am1)); [done|]. apply wp_bind, wp_rename; [by eapply up_wf|by eapply up_durable|by intros [=]| |].
  { intros a -> _. apply HQ. by apply rewritten_failed. }
  intros bs s1 Hbs Hs1 Hf1 _. rewrite Hfile in Hbs. injection Hbs as <-. cbn [is_err].
  assert (up_sel st s1 us n sel) as Hup1 by (eapply up_frame; [exact Hup|exact Hs1|by repeat constructor]).
  rewrite (up_on _ _ _ _ _ Hup), !decide_False by done. cbn [prog_bind negb]. rewrite <- Hc1 in Hi1. destruct (mark_inv fn am1 seqs _ Hi1) as (am2 & Hm & Hi2 & Hb2 & Hl2 & Hc2 & _ & Hd2).
  rewrite bool_decide_eq_true_2 by by eapply up_fd. apply wp_bind, (wp_lift _ _ _ am2); [done|]. rewrite Hb1 in Hb2.
  apply wp_bind. eapply wp_persist; [exact Hallowed|apply Hs1|done|apply inv_ok; [by eexists|rewrite Hb2; by eexists]| |].
  - intros s2 Hs2. assert (up_sel st s2 us n sel) as Hup2 by (eapply up_frame; [done|exact Hs2|constructor; [by eapply temp_unprotected|constructor]]).
    split; [by eapply up_durable|]. intros _. cbn [negb]. apply wp_bind, wp_unlink; [by eapply up_wf|by eapply up_durable|]. intros _ s3 Hs3. cbn. apply HQ, rewritten_failed.
    eapply up_frame; [exact Hup2|exact Hs3|by repeat constructor].
  - intros s2 Hs2 Ht2. assert (up_sel (set_manifest st (set_dirty am2 false)) s2 us n sel) as Hup2.
    { eapply up_new_base; [exact Hup1|exact Hch|by eexists|exact Hb2|by rewrite Hl2, Hc1|by rewrite Hc2, Hc1|exact Hs2| |done]. cbn. fold nb. rewrite (same_file _ _ _ Hs2); [done|].
      rewrite !not_elem_of_cons. split_and!; [intros E%in_dir_inj; by apply base_temp_neq in E|intros E%in_dir_inj; by apply base_manifest_neq in E|apply not_elem_of_nil]. }
    split; [by eapply up_durable|]. cbn [negb]. set (st2 := set_manifest st _) in *. assert (aof_state st2 = AOF_ON /\ aof_feed st2 = aof_feed st /\ aof_buf st2 = aof_buf st) as (S1 & S2 & S3).
    { pose proof (up_on _ _ _ _ _ Hup) as Hon. by destruct st. }
    rewrite (decide_True (P := aof_state st2 <> AOF_OFF)) by by rewrite S1. apply wp_bind, wp_bind. eapply wp_size; [exact Hallowed|by eapply up_wf|by eapply up_durable|].
    intros s3 Hs3. cbn [wp]. assert (up_sel st2 s3 us n sel) as Hup3 by by eapply up_same. clearbody st2. apply wp_bind. eapply wp_gc; [exact Hallowed|exact Hup3|]. intros b am' d' s4 Hup4. cbn [wp]. apply HQ.
    rewrite decide_False by (destruct st2; cbn in *; congruence). split; [by apply up_failures, up_rewrite_ok|by rewrite <- S2, <- S3; destruct st2].
Qed.

Lemma wp_children exitcode bysignal st s (Q : server D -> fs -> Prop) : up st s us n ->
  (forall pid d, child st = AofChild pid d -> bysignal = 0 -> exitcode = 0 -> file s (in_cwd (temp_bg pid)) = Some (dump d)) ->
  curr_base_file_seq (aof_manifest st) + 1 < 2 ^ 62 -> (forall st' s', up st' s' us n -> Q st' s') ->
  wp allowed (durable us n) (checkChildrenDone cfg exitcode bysignal st) Q s.
Proof using Hset Hallowed.
  intros Hup Hfile Hlt HQ. unfold checkChildrenDone.
  assert (exists x y, (if decide (exitcode = SERVER_CHILD_NOERROR_RETVAL) then (1, SIGUSR1) else (exitcode, bysignal)) = (x, y) /\
    forall pid d, child st = AofChild pid d -> y = 0 -> x = 0 -> file s (in_cwd (temp_bg pid)) = Some (dump d)) as (x & y & -> & Hfile') by (case_decide; by eexists _, _).
  clear Hfile. rename Hfile' into Hfile. destruct (child st) as [|pid d|] eqn:Hch; [by apply HQ| |by apply HQ].
  assert (forall st' s', rewritten st st' (aof_selected_db (aof_feed st)) s' -> wp allowed (durable us n)
    (prog_bind (aofRemoveTempFile pid) (fun _ => if decide (aof_state st' = AOF_WAIT_REWRITE) then aofDelTempIncrAofFile cfg;; Ret (set_scheduled (set_buf st' []) true) else Ret st'))
    (fun st' s' => Q (set_child st' NoChild) s') s') as Hend.
  { intros st' s1 (Hup1 & E1 & _). destruct (temps_unprotected pid (aof_manifest st')) as [T1 T2]. unfold aofRemoveTempFile. apply wp_bind, wp_bind, wp_unlink; [by eapply up_wf|by eapply up_durable|].
    intros _ s2 Hs2. assert (up_sel st' s2 us n (aof_selected_db (aof_feed st))) as Hup2 by (eapply up_frame; [exact Hup1|exact Hs2|by repeat constructor]).
    apply wp_bind, wp_unlink; [by eapply up_wf|by eapply up_durable|]. intros _ s3 Hs3. cbn [wp]. rewrite (up_on _ _ _ _ _ Hup1), decide_False by done. cbn [wp]. apply HQ.
    unfold up. replace (aof_feed (set_child st' NoChild)) with (aof_feed st) by by destruct st'. apply up_no_child. eapply up_frame; [exact Hup2|exact Hs3|by repeat constructor]. }
  apply wp_bind. eapply wp_mono; [|intros st' s' H; exact H]. unfold backgroundRewriteDoneHandler. apply wp_bind. case_decide as C1.
  - destruct C1 as [-> ->]. eapply wp_success; [exact Hup|done|by apply (Hfile pid d)|done|]. intros st' s' H. cbn [wp]. eapply wp_mono; [by apply Hend|done].
  - assert (rewritten st (rewrite_failed st) (aof_selected_db (aof_feed st)) s) as Hf by by apply rewritten_failed. assert (rewritten st st (aof_selected_db (aof_feed st)) s) as Hs by by split.
    repeat case_decide; cbn [wp]; (eapply wp_mono; [by apply Hend|done]).
Qed.
End done.

(** ** Writing the dataset to a file *)

Section start.
Variables (allowed : fs -> call -> answer -> Prop) (us : list exec_unit) (n : nat).
Hypothesis Hallowed : forall s c a, allowed s c a -> fair txns s c a.
Notation I := (durable us n).

Lemma wp_rewrite_file (J : fs -> Prop) pid target d s (Q : bool -> fs -> Prop) : fs_wf s -> in_cwd (temp_fg pid) <> target ->
  (forall s', same_but [in_cwd (temp_fg pid)] s s' -> J s' /\ (can_fail allowed -> Q false s')) ->
  (forall s', same_but [in_cwd (temp_fg pid); target] s s' -> file s' target = Some (dump d) -> J s' /\ Q true s') ->
  wp allowed J (rewriteAppendOnlyFile dump pid target d) Q s.
Proof using Hallowed.
  intros Hwf Hne HI HQ. unfold rewriteAppendOnlyFile. set (tmp := in_cwd (temp_fg pid)) in *. apply wp_bind, wp_open; [done|by apply HI, same_but_refl|intros Hcan; apply HI; [by apply same_but_refl|done]|].
  intros fd s1 bs Hs1 Ht1 Hfd1 Hne1 _. specialize (Hfd1 (or_introl eq_refl)). subst bs.
  assert (forall s2 (P : fs -> Prop), same_but [tmp] s s2 -> (forall s3, same_but [tmp] s s3 -> (forall q, file s3 q = file s2 q) -> P s3) ->
    wp allowed J (syscall (CClose fd)) (fun _ s3 => P s3) s2) as Hclose.
  { intros s2 P Hs2 HP. eapply wp_quiet; [exact Hallowed|apply Hs2|by apply HI|done|]. intros a s3 Hwf3 Hf3 Hd3 _ _ _. apply HP; [|done]. split; [done| |].
    - intros q Hq. rewrite Hf3. by apply Hs2.
    - intros fd' q ap Hq Hn. apply Hd3; [by apply Hs2|]. intros [= <-]. apply (Hne1 fd q ap Hq); [|done]. intros ->. apply Hn. left. }
  apply wp_bind. eapply (wp_write_loop allowed J tmp fd false True (can_fail allowed)) with (loop := fun fuel fd buf _ => write_dump fuel fd buf) (stop := fun _ => false) (finish := fun _ => true) (tot := 0) (old := []); try done.
  - intros s2 bs Hal. by eexists _, _.
  - intros fuel fd' buf _. destruct fuel; reflexivity.
  - apply Hs1.
  - intros m s2 (_ & Hs2 & _) _. apply HI. by eapply same_but_trans.
  - intros m s2 (_ & Hs2 & _) _ Hcan. cbn [wp prog_bind]. apply wp_bind, Hclose; [by eapply same_but_trans|]. intros s3 Hs3 _. cbn [is_err].
    apply wp_bind, wp_unlink; [apply Hs3|by apply HI|]. intros _ s4 Hs4. cbn. apply HI; [by eapply same_but_trans|auto].
  - intros s2 (_ & Hs2 & _ & Hp2). rewrite take_ge in Hp2 by (unfold zlen; lia). cbn [app] in Hp2. assert (same_but [tmp] s s2) as H2 by by eapply same_but_trans.
    apply wp_bind. eapply wp_quiet; [exact Hallowed|apply H2|by apply HI|done|]. intros a s3 Hwf3 Hf3 Hd3 [_ Hcan] _ _.
    assert (same_but [tmp] s s3) as H3. { eapply same_but_trans; [exact H2|]. split; [done|done|]. intros; by apply Hd3. }
    apply wp_bind, Hclose; [done|]. intros s4 H4 Hf4. destruct (is_err a).
    { apply wp_bind, wp_unlink; [apply H4|by apply HI|]. intros _ s5 Hs5. cbn. apply HI; [by eapply same_but_trans|auto]. }
    apply wp_bind, wp_rename; [apply H4|by apply HI|done| |].
    + intros a' -> Hcan'. assert (can_fail allowed) as Hcan2 by (apply Hcan'; rewrite Hf4, Hf3, Hp2; by eexists). apply wp_bind, wp_unlink; [apply H4|by apply HI|]. intros _ s5 Hs5. cbn. apply HI; [by eapply same_but_trans|auto].
    + intros bs s5 Hb Hs5 Hf5 _. rewrite Hf4, Hf3, Hp2 in Hb. injection Hb as <-. cbn. apply HQ; [|done].
      eapply same_but_trans; [eapply same_but_mono; [exact H4|intros x ->%list_elem_of_singleton; left]|done].
Qed.

(** ** Starting from the files of a manifest *)

(** A call that changes nothing, in any state with the same files. *)
Lemma wp_stat p s (Q : answer -> fs -> Prop) : fs_wf s -> I s -> (forall s', same_but [] s s' -> Q (match file s p with Some bs => ANum (zlen bs) | None => ANoEnt end) s') ->
  wp allowed I (syscall (CStat p)) Q s.
Proof using Hallowed.
  intros Hwf HI HQ. eapply wp_quiet; [exact Hallowed|done|done|done|]. intros a s' Hwf' Hf Hd _ _ Hst. rewrite (Hst p eq_refl). apply HQ. split; [done|done|]. intros; by apply Hd.
Qed.

Lemma wp_read p bs s (Q : answer -> fs -> Prop) : fs_wf s -> I s -> file s p = Some bs -> (forall s', same_but [] s s' -> can_fail allowed -> Q AErr s') -> (forall s', same_but [] s s' -> Q (AData bs) s') ->
  wp allowed I (syscall (CRead p)) Q s.
Proof using Hallowed.
  intros Hwf HI Hp Herr HQ. eapply wp_quiet; [exact Hallowed|done|done|done|]. intros a s' Hwf' Hf Hd _ Hrd _. assert (same_but [] s s') as Hs. { split; [done|done|]. intros; by apply Hd. }
  destruct (Hrd p eq_refl) as [[-> Hcan]| ->]; [by apply Herr|]. rewrite Hp. by apply HQ.
Qed.

Lemma same_nil s s' p : same_but [] s s' -> file s' p = file s p.
Proof. intros H. apply H, not_elem_of_nil. Qed.

Lemma disk_nil s s' am us' m ds q sel : disk s am us' m ds q sel -> same_but [] s s' -> disk s' am us' m ds q sel.
Proof. intros H Hs. eapply disk_frame; [exact H|apply Hs|]. intros; by apply same_nil. Qed.

Lemma prefix_durable us' s am ds q sel : us' `prefix_of` us -> disk s am us' n ds q sel -> I s.
Proof. intros Hp H. exists us'. split; [done|]. left. by eexists _, _, _, _. Qed.

Lemma wp_load_manifest s am us' ds q sel (Q : aofManifest -> fs -> Prop) : us' `prefix_of` us -> disk s am us' n ds q sel ->
  (forall s', same_but [] s s' -> Q (reloaded am) s') -> wp allowed I (aofLoadManifestFromDisk cfg) Q s.
Proof using Hset Hallowed.
  intros Hp Hd HQ. assert (forall s', same_but [] s s' -> I s') as HI by (intros; eapply prefix_durable; [done|by eapply disk_nil]).
  unfold aofLoadManifestFromDisk. apply wp_bind, wp_stat; [apply Hd|by apply HI, same_but_refl, Hd|]. intros s1 Hs1. rewrite (dk_manifest _ _ _ _ _ _ _ Hd). cbn [is_err].
  assert (am_ok am) as Hok. { destruct (dk_files _ _ _ _ _ _ _ Hd) as (seqs & b & _ & _ & _ & Hi & Hb & _). apply inv_ok; [by eexists|rewrite Hb; by eexists]. }
  apply wp_bind. eapply wp_read; [apply Hs1|by apply HI|rewrite (same_nil _ _ _ Hs1); apply Hd| |].
  - intros s2 Hs2 Hcan. cbn. split; [|done]. apply HI. by eapply same_but_trans.
  - intros s2 Hs2. apply wp_bind, (wp_lift _ _ _ (inr (reloaded am))); [by apply manifest_text_ok|]. cbn. apply HQ. by eapply same_but_trans.
Qed.

Lemma wp_sizes type l size s (Q : aof_ret * Z -> fs -> Prop) : fs_wf s -> (forall s', same_but [] s s' -> I s') ->
  Forall (fun ai => file_type ai = type /\ is_Some (file s (in_dir (file_name ai)))) l ->
  (forall size' s', size <= size' -> same_but [] s s' -> Q (AOF_OK, size') s') -> wp allowed I (getFilesSize type l size) Q s.
Proof using Hallowed.
  intros Hwf HI Hl HQ. revert size s Hwf HI Hl HQ. induction l as [|ai l IH]; intros size s Hwf HI Hl HQ; cbn [getFilesSize]; [apply HQ; [lia|by apply same_but_refl]|].
  apply Forall_cons in Hl as [[Ht [bs Hbs]] Hl]. apply wp_bind, (wp_lift _ _ _ tt); [by apply assert_True|].
  apply wp_bind. eapply wp_size; [exact Hallowed|done|by apply HI, same_but_refl|]. intros s1 Hs1. rewrite Hbs. rewrite (decide_False (P := AOF_OK <> AOF_OK)) by (intros H; by apply H). apply IH; [apply Hs1| | |].
  - intros s2 Hs2. apply HI. by eapply same_but_trans.
  - eapply Forall_impl; [exact Hl|]. intros aj. cbn beta. by rewrite (same_nil _ _ _ Hs1).
  - intros size' s2 Hle Hs2. apply HQ; [pose proof (zlen_nonneg bs); lia|by eapply same_but_trans].
Qed.

(** What loading gives: an error that ends the process, or the dataset of the
    first [k] units, with a last file of these units. *)
Definition failed (ret : aof_ret) : Prop := ret = AOF_OPEN_ERR \/ ret = AOF_FAILED.

Definition loaded (am : aofManifest) (us' : list exec_unit) (ds : D) (r : aof_ret * D) (s' : fs) : Prop :=
  failed r.1 /\ I s' /\ can_fail allowed \/
  ~ failed r.1 /\ exists k, (n <= k <= length us')%nat /\ r.2 = apply_units no_data (take k us') /\ disk s' am (take k us') n ds [] (-1).

Notation load_single := (load_single exec lookup rdb_load cfg).
Notation load_incr := (load_incr exec lookup rdb_load cfg).
Notation incr_file := (incr_info fn AOF_FILE_TYPE_INCR).

Lemma wp_load_last s am us' ds q sel aof_num ret : us' `prefix_of` us -> disk s am us' n ds q sel ->
  wp allowed I (load_incr [incr_file (curr_incr_file_seq am)] aof_num (aof_num + 1) ret ds) (loaded am us' ds) s.
Proof using Hset Hallowed.
  intros Hp Hd. pose proof (prefix_durable _ _ _ _ _ _ Hp Hd) as HI. destruct (dk_files _ _ _ _ _ _ _ Hd) as (_ & _ & _ & _ & bs & _ & _ & _ & _ & _ & Hf & Hlf).
  destruct (last_file_load _ _ _ _ _ _ Hlf) as (r & kept & k & Hl & Hk & Hlk & Hr). cbn [Aof.load_incr]. apply wp_bind, (wp_lift _ _ _ tt); [by apply assert_True|].
  assert (forall s', same_but [incr_path (curr_incr_file_seq am)] s s' -> file s' (incr_path (curr_incr_file_seq am)) = Some kept -> disk s' am (take k us') n ds [] (-1)) as Hdisk.
  { intros s' Hs Hk'. eapply (disk_update s s'); [exact Hd|done|]. intros _ _ _. by exists kept. }
  assert (forall s' ret', ret' = AOF_OPEN_ERR \/ ret' = AOF_FAILED -> I s' -> can_fail allowed -> loaded am us' ds (ret', apply_units no_data (take k us')) s') as Hbad by (by intros; left).
  unfold Aof.load_single. apply wp_bind, wp_bind. eapply wp_read; [apply Hd|done|exact Hf| |].
  { intros s1 Hs1 Hcan. cbn. left. split; [by left|]. split; [|done]. eapply prefix_durable; [done|by eapply disk_nil]. }
  intros s1 Hs1. rewrite (set_trunc Hset). apply wp_bind, (wp_lift _ _ _ _ _ _ Hl). cbn beta iota.
  assert (file s1 (incr_path (curr_incr_file_seq am)) = Some bs) as Hf1 by by rewrite (same_nil _ _ _ Hs1).
  assert (same_but [incr_path (curr_incr_file_seq am)] s s1) as Hs1' by (eapply same_but_mono; [exact Hs1|apply list_subseteq_nil]).
  assert (forall ret', ~ failed ret' -> kept = bs -> loaded am us' ds (ret', apply_units no_data (take k us')) s1) as Hgood.
  { intros ret' Hret ->. right. split; [done|]. exists k. split_and!; [lia|lia|done|by apply Hdisk]. }
  destruct Hr as [[-> Ek]|[[-> Ek]|(-> & Hle & Ek)]].
  1,2: cbn; apply Hgood; [by intros [?|?]|done].
  rewrite decide_True by done. assert (I s1) as HI1 by (eapply prefix_durable; [done|by eapply disk_nil]). apply wp_bind. eapply wp_truncate; [apply Hs1|done|exact Hf1|split; [apply zlen_nonneg|done]| |].
  - intros Hcan. cbn. by apply Hbad; [right|..].
  - intros s2 Hs2 Hf2. cbn [wp is_err]. rewrite (decide_False (P := AOF_TRUNCATED = AOF_EMPTY)) by done.
    rewrite (decide_False (P := AOF_TRUNCATED = AOF_TRUNCATED /\ aof_num + 1 <> aof_num + 1)) by (by intros [_ ?]). cbn. right. split; [by intros [?|?]|].
    exists k. split_and!; [lia|lia|done|]. apply Hdisk; [by eapply same_but_trans|rewrite Ek; exact Hf2].
Qed.

(** A file of complete commands. *)
Lemma wp_load_file name cs d id d' s (Q : aof_ret * D -> fs -> Prop) : fs_wf s -> I s -> file s (in_dir name) = Some (log_bytes cs) -> Forall cmd_ok cs -> replay cs (0, d) None = Some ((id, d'), None) ->
  (forall s', same_but [] s s' -> can_fail allowed -> Q (AOF_OPEN_ERR, d) s') -> (forall ret s', ret = AOF_OK \/ ret = AOF_EMPTY -> same_but [] s s' -> Q (ret, d') s') -> wp allowed I (load_single name d) Q s.
Proof using Hset Hallowed.
  intros Hwf HI Hf Hcs Hr Herr HQ. destruct (load_log exec lookup (dbnum cfg) rdb_load true cs d id d' Hcs Hr) as (ret & Hl & Hret).
  unfold Aof.load_single. apply wp_bind. eapply wp_read; [done|done|exact Hf|by apply Herr|]. intros s1 Hs1. rewrite (set_trunc Hset). apply wp_bind, (wp_lift _ _ _ _ _ _ Hl). cbn beta iota.
  assert (ret = AOF_OK \/ ret = AOF_EMPTY) as Hret' by (rewrite Hret; case_decide; auto). rewrite decide_False by (destruct Hret' as [->| ->]; done). by apply HQ.
Qed.

Lemma wp_load_chain d0 l ds : chain d0 l ds -> forall seqs s am us' q sel aof_num ret, Forall2 (fun seq bs => file s (incr_path seq) = Some bs) seqs l ->
  us' `prefix_of` us -> disk s am us' n ds q sel ->
  wp allowed I (load_incr ((incr_file <$> seqs) ++ [incr_file (curr_incr_file_seq am)]) aof_num (aof_num + zlen seqs + 1) ret d0) (loaded am us' ds) s.
Proof using Hset Hallowed.
  induction 1 as [d|d cs id d1 l d2 Hcs Hr Hch IH]; intros seqs s am us' q sel aof_num ret Hf Hp Hd.
  { inversion Hf; subst. rewrite Z.add_0_r. by eapply wp_load_last. }
  inversion Hf as [|seq bs seqs' l' Hf1 Hf2]; subst. cbn [fmap list_fmap app Aof.load_incr]. apply wp_bind, (wp_lift _ _ _ tt); [by apply assert_True|].
  assert (forall s', same_but [] s s' -> I s') as HI by (intros; eapply prefix_durable; [done|by eapply disk_nil]).
  apply wp_bind. eapply wp_load_file; [apply Hd|by apply HI, same_but_refl, Hd|exact Hf1|done|exact Hr| |].
  - intros s1 Hs1 Hcan. cbn. left. split; [by left|]. split; [by apply HI|done].
  - intros ret' s1 Hret Hs1. cbn beta iota. assert ((if decide (ret' = AOF_EMPTY) then AOF_OK else ret') = AOF_OK) as -> by (destruct Hret as [->| ->]; done).
    rewrite (decide_False (P := AOF_OK = AOF_TRUNCATED /\ _)) by by intros [? _]. rewrite decide_False by by intros [?|?].
    replace (aof_num + zlen (seq :: seqs') + 1) with (aof_num + 1 + zlen seqs' + 1) by (unfold zlen; cbn [length]; lia).
    eapply IH; [|done|by eapply disk_nil]. eapply Forall2_impl; [exact Hf2|]. intros x y. cbn beta. by rewrite (same_nil _ _ _ Hs1).
Qed.

Notation loadAppendOnlyFiles := (loadAppendOnlyFiles exec lookup rdb_load no_data cfg).
Notation loadDataFromDisk := (loadDataFromDisk exec lookup rdb_load no_data cfg).

(** The old name of the log is not in use. *)
Lemma wp_no_upgrade am s (Q : aofManifest -> fs -> Prop) : fs_wf s -> I s -> file s (in_cwd fn) = None -> (forall s', same_but [] s s' -> Q am s') -> wp allowed I (upgrade_if_needed cfg am) Q s.
Proof using Hallowed. intros Hwf HI Hf HQ. unfold upgrade_if_needed. apply wp_bind, wp_stat; [done|done|]. intros s' Hs. rewrite Hf. by apply HQ. Qed.

(** Every file of the manifest exists, and the base file is not empty. *)
Lemma wp_total s am us' ds q sel (Q : aof_ret * Z -> fs -> Prop) : us' `prefix_of` us -> disk s am us' n ds q sel ->
  (forall size s', 0 < size -> same_but [] s s' -> Q (AOF_OK, size) s') -> wp allowed I (getBaseAndIncrAppendOnlyFilesSize (reloaded am)) Q s.
Proof using Hset Hallowed.
  intros Hp Hd HQ. assert (forall s', same_but [] s s' -> I s') as HI by (intros; eapply prefix_durable; [done|by eapply disk_nil]).
  destruct (dk_files _ _ _ _ _ _ _ Hd) as (seqs & b & d0 & l & bs & Hi & Hb & Hbf & Hl & Hc & Hlast & Hlf). destruct (inv_base _ _ _ Hi b Hb) as (_ & rdb & Eb).
  assert (0 < zlen (dump d0)) as Hpos. { destruct (set_dump Hset d0) as [Hne _]. destruct (dump d0); [done|]. unfold zlen. cbn [length]. lia. }
  unfold getBaseAndIncrAppendOnlyFilesSize. assert (base_aof_info (reloaded am) = Some b) as -> by done. cbn [reloaded incr_aof_list option_list getFilesSize]. rewrite (inv_incr _ _ _ Hi).
  apply wp_bind, wp_bind, (wp_lift _ _ _ tt); [apply assert_True; by rewrite Eb|]. apply wp_bind. eapply wp_size; [exact Hallowed|apply Hd|by apply HI, same_but_refl, Hd|]. intros s1 Hs1. rewrite Hbf.
  rewrite (decide_False (P := AOF_OK <> AOF_OK)) by (intros H; by apply H). cbn [wp]. rewrite (decide_False (P := AOF_OK <> AOF_OK)) by (intros H; by apply H).
  eapply wp_sizes; [apply Hs1| | |].
  - intros s2 Hs2. apply HI. by eapply same_but_trans.
  - rewrite fmap_app. apply Forall_app. split; [|constructor; [|constructor]; split; [done|]; rewrite (same_nil _ _ _ Hs1); by eexists]. apply Forall_fmap. clear -Hl Hs1.
    induction Hl; constructor; [cbn; split; [done|]; rewrite (same_nil _ _ _ Hs1); by eexists|done].
  - intros size s2 Hsize Hs2. apply HQ; [lia|by eapply same_but_trans].
Qed.

Lemma wp_load_data s am us' ds q sel (Q : D * aofManifest -> fs -> Prop) : us' `prefix_of` us -> disk s am us' n ds q sel ->
  (forall k s', (n <= k <= length us')%nat -> disk s' am (take k us') n ds [] (-1) -> Q (apply_units no_data (take k us'), reloaded am) s') ->
  wp allowed I (loadDataFromDisk (reloaded am)) Q s.
Proof using Hset Hallowed.
  intros Hp Hd HQ. assert (forall s', same_but [] s s' -> I s') as HI by (intros; eapply prefix_durable; [done|by eapply disk_nil]).
  unfold Aof.loadDataFromDisk, Aof.loadAppendOnlyFiles. apply wp_bind, wp_bind, wp_no_upgrade; [apply Hd|by apply HI, same_but_refl, Hd|apply Hd|]. intros s1 Hs1.
  pose proof (disk_nil _ _ _ _ _ _ _ _ Hd Hs1) as Hd1. destruct (dk_files _ _ _ _ _ _ _ Hd1) as (seqs & b & d0 & l & bs & Hi & Hb & Hbf & Hl & Hc & Hlast & Hlf).
  assert (base_aof_info (reloaded am) = Some b) as -> by done. assert (incr_aof_list (reloaded am) = (incr_file <$> seqs) ++ [incr_file (curr_incr_file_seq am)]) as Ei.
  { cbn. by rewrite (inv_incr _ _ _ Hi), fmap_app. }
  rewrite Ei, decide_False by by intros [? _]. assert (getBaseAndIncrAppendOnlyFilesNum (reloaded am) = 1 + zlen seqs + 1) as ->.
  { unfold getBaseAndIncrAppendOnlyFilesNum. rewrite Ei. cbn [reloaded base_aof_info]. rewrite Hb. unfold zlen. rewrite length_app, length_fmap. cbn [length]. lia. }
  apply wp_bind. eapply wp_total; [exact Hp|exact Hd1|]. intros size s2 Hsize Hs2. assert (same_but [] s s2) as Hs02 by by eapply same_but_trans.
  rewrite (decide_False (P := AOF_OK <> AOF_OK)) by (intros H; by apply H). rewrite decide_False by lia. destruct (inv_base _ _ _ Hi b Hb) as (_ & rdb & Eb).
  apply wp_bind, wp_bind, (wp_lift _ _ _ tt); [apply assert_True; by rewrite Eb|]. apply wp_bind. eapply wp_size; [exact Hallowed|apply Hs2|by apply HI|]. intros s3 Hs3.
  assert (same_but [] s1 s3) as Hs13 by by eapply same_but_trans. assert (same_but [] s s3) as Hs03 by by eapply same_but_trans.
  unfold Aof.load_single at 1. apply wp_bind, wp_bind. eapply wp_read; [apply Hs3|by apply HI|rewrite (same_nil _ _ _ Hs13); exact Hbf| |].
  { intros s4 Hs4 Hcan. cbn. split; [|done]. apply HI. by eapply same_but_trans. }
  intros s4 Hs4. rewrite (set_trunc Hset). apply wp_bind, (wp_lift _ _ _ _ _ _ (proj2 (set_dump Hset d0))). cbn beta iota. assert (same_but [] s1 s4) as Hs14 by by eapply same_but_trans.
  rewrite (decide_False (P := AOF_OK = AOF_TRUNCATED)) by done. cbn [wp]. rewrite (decide_False (P := AOF_OK = AOF_TRUNCATED /\ _)) by by intros [? _]. rewrite decide_False by by intros [?|?].
  apply wp_bind. eapply wp_mono; [eapply (wp_load_chain d0 l ds Hc seqs s4 am us' q sel 1); [|done|by eapply disk_nil]|].
  { eapply Forall2_impl; [exact Hl|]. intros x y. cbn beta. by rewrite (same_nil _ _ _ Hs14). }
  intros [r d] s5 [[Hf HI5]|(Hnf & k & Hk & E & Hd5)]; cbn in *.
  - rewrite decide_True by (destruct Hf; auto). done.
  - rewrite decide_False by (intros [?|?]; apply Hnf; [by right|by left]). subst d. by apply HQ.
Qed.

(** ** The server after its start *)

Definition started (am : aofManifest) (fd size now : Z) (d : D) : server D := Server AOF_ON fd [] (FeedState (-1) 0) am size true (SyncState now size 0) NoChild true 0 false d.

Lemma up_started s am M vs m ds fd bs now : disk s am vs m ds [] (-1) -> am_inv fn M -> same_live am M -> fd_end s fd (incr_path (curr_incr_file_seq am)) true -> 0 <= fd ->
  file s (incr_path (curr_incr_file_seq am)) = Some bs -> up (started M fd (zlen bs) now (apply_units no_data vs)) s vs m.
Proof. intros Hd Hi Hl Hfd Hpos Hf. split; try done. exists am, ds, true, bs. split_and!; try done. cbn. lia. Qed.

Lemma wp_open_last pid d s am vs ds (Q : aofManifest * Z * Z -> fs -> Prop) : vs `prefix_of` us -> disk s am vs n ds [] (-1) ->
  (forall M fd size s', (forall now, up (started M fd size now (apply_units no_data vs)) s' vs n) -> Q (M, fd, size) s') ->
  wp allowed I (aofOpenIfNeededOnServerStart dump cfg pid d (reloaded am)) Q s.
Proof using Hset Hallowed.
  intros Hp Hd HQ. assert (forall s', same_but [] s s' -> I s') as HI by (intros; eapply prefix_durable; [done|by eapply disk_nil]).
  destruct (dk_files _ _ _ _ _ _ _ Hd) as (seqs & b & d0 & l & bs & Hi & Hb & Hbf & Hl & Hc & Hlast & Hlf). destruct (reloaded_inv fn am seqs _ Hi ltac:(rewrite Hb; by eexists)) as (Hi' & Ec & _).
  unfold aofOpenIfNeededOnServerStart. apply wp_bind. eapply wp_quiet; [exact Hallowed|apply Hd|by apply HI, same_but_refl, Hd|done|]. intros a s1 Hwf1 Hf1 Hd1 [_ Hcan] _ _.
  assert (same_but [] s s1) as Hs1. { split; [done|done|]. intros; by apply Hd1. }
  destruct (is_err a); [by split; [apply HI|apply Hcan]|]. assert (base_aof_info (reloaded am) = Some b) as Eb by done. rewrite Eb, decide_False by by intros [? _]. cbn [prog_bind].
  unfold getLastIncrAofName. assert (last (incr_aof_list (reloaded am)) = Some (incr_file (curr_incr_file_seq am))) as ->. { cbn [reloaded incr_aof_list]. rewrite (inv_incr _ _ _ Hi), fmap_app. apply last_snoc. }
  set (p := incr_path (curr_incr_file_seq am)) in *. assert (file s1 p = Some bs) as Hp1 by by rewrite (same_nil _ _ _ Hs1).
  apply wp_bind, wp_open; [done|by apply HI|by intros Hcan2; split; [apply HI|]|]. intros fd s2 bs2 Hs2 Hf2 Hfd2 _ Hpos. subst bs2. change (in_dir (file_name (incr_file (curr_incr_file_seq am)))) with p in Hs2, Hf2, Hfd2. rewrite Hp1 in Hf2, Hfd2. cbn [default from_option id] in Hf2.
  assert (disk s2 am vs n ds [] (-1)) as Hd2.
  { eapply (disk_update s1 s2); [by eapply disk_nil|done|]. intros bs' Hbs'. fold p in Hbs'. rewrite Hp1 in Hbs'. injection Hbs' as <-. intros H. by exists bs. }
  unfold persistAofManifest. assert (dirty (reloaded am) = false) as -> by done. cbn [negb prog_bind]. apply wp_bind. eapply wp_size; [exact Hallowed|apply Hs2|by eapply prefix_durable|]. intros s3 Hs3.
  assert (file s2 (in_dir (file_name (incr_file (curr_incr_file_seq am)))) = Some bs) as -> by exact Hf2. cbn [wp]. apply HQ. intros now.
  eapply up_started; [by eapply disk_nil|by eexists| |apply Hs3; [apply Hfd2; by right|apply not_elem_of_nil]|done|by rewrite (same_nil _ _ _ Hs3)].
  split_and!; try done.
Qed.

(** ** The first start *)

Lemma fresh_same ps s s' : fresh s -> same_but ps s s' -> in_cwd fn ∉ ps -> manifest_path ∉ ps -> incr_path 1 ∉ ps -> fresh s'.
Proof. intros (H1 & H2 & H3 & H4) Hs N1 N2 N3. unfold fresh. rewrite !(same_file _ _ _ Hs) by done. split_and!; try done. apply Hs. Qed.

Lemma fresh_durable s : fresh s -> n = 0%nat -> I s.
Proof. intros H ->. exists []. split; [apply prefix_nil|]. by right. Qed.

(** The manifest of the first start. *)
Definition first_manifest : aofManifest :=
  AofManifest (Some (base_info fn AOF_FILE_TYPE_BASE (aof_use_rdb_preamble cfg) 1)) [incr_file 1] [] 1 1 true.

Lemma first_inv : am_inv_seqs fn first_manifest ([] ++ [1]).
Proof.
  destruct am_inv_create with (fn := fn) as (seqs & Hi). assert (seqs = []) as -> by (by rewrite <- (seqs_of _ _ Hi)).
  destruct (getNewBase_inv fn (aof_use_rdb_preamble cfg) _ _ Hi ltac:(done)) as (am & E & Hi1 & _). injection E as <-. by apply (getNewIncrAofName_inv fn) in Hi1.
Qed.

Lemma first_disk s : fs_wf s -> file s (in_cwd fn) = None -> file s manifest_path = Some (am_text first_manifest) ->
  file s (in_dir (base_name fn (aof_use_rdb_preamble cfg) 1)) = Some (dump no_data) -> file s (incr_path 1) = Some [] -> disk s first_manifest [] 0 no_data [] (-1).
Proof.
  intros H1 H2 H3 H4 H5. split; [done|done|done|]. eexists [], _, no_data, [], []. split_and!; [apply first_inv|done|exact H4|constructor|constructor|exact H5|apply (last_file_nil [])].
Qed.

Lemma first_distinct : incr_path 1 ∉ [temp_path; manifest_path] /\ in_dir (base_name fn (aof_use_rdb_preamble cfg) 1) ∉ [temp_path; manifest_path; incr_path 1].
Proof.
  rewrite !not_elem_of_cons. split_and!; try apply not_elem_of_nil; intros E%in_dir_inj.
  - by apply incr_temp_neq in E.
  - by apply incr_manifest_neq in E.
  - by apply base_temp_neq in E.
  - by apply base_manifest_neq in E.
  - symmetry in E. by apply incr_base_neq in E.
Qed.

Lemma wp_open_fresh pid s (Q : aofManifest * Z * Z -> fs -> Prop) : fresh s -> n = 0%nat ->
  (forall M fd size s', (forall now, up (started M fd size now no_data) s' [] 0) -> Q (M, fd, size) s') ->
  wp allowed I (aofOpenIfNeededOnServerStart dump cfg pid no_data aofManifestCreate) Q s.
Proof using Hset Hallowed.
  intros Hfr Hn HQ. pose proof (fun s H => fresh_durable s H Hn) as HI. destruct first_distinct as [Hd1 Hd2]. set (base := in_dir (base_name fn (aof_use_rdb_preamble cfg) 1)) in *.
  assert (forall p : path, p.1 = true -> in_cwd fn <> p) as Hcwd by (by intros [] ? [=]; subst). destruct (set_temp Hset pid) as [_ Htmp].
  assert (forall s s', fresh s -> same_but [in_cwd (temp_fg pid); base] s s' -> fresh s') as Hfr2.
  { intros s0 s' H0 Hs. eapply fresh_same; [exact H0|exact Hs|..]; rewrite !not_elem_of_cons; split_and!; try apply not_elem_of_nil; try (by intros [=]); try (by apply Hcwd); try (intros [=]; congruence).
    - intros <-. apply Hd2. right. left.
    - intros <-. apply Hd2. do 2 right. left. }
  unfold aofOpenIfNeededOnServerStart. apply wp_bind. eapply wp_quiet; [exact Hallowed|apply Hfr|by apply HI|done|]. intros a s1 Hwf1 Hf1 _ [_ Hcan] _ _.
  assert (fresh s1) as Hfr1. { unfold fresh. rewrite !Hf1. by split; [|apply Hfr]. }
  destruct (is_err a); [by split; [apply HI|apply Hcan]|]. rewrite decide_True by done. apply wp_bind, wp_bind, (wp_lift _ _ _ _ _ _ eq_refl). cbn beta iota. apply wp_bind, wp_rewrite_file; [done|by intros [=]| |].
  { intros s2 Hs2. assert (I s2); [|done]. apply HI, (Hfr2 s1); [done|]. eapply same_but_mono; [exact Hs2|intros x ->%list_elem_of_singleton; left]. }
  intros s2 Hs2 Hb2. fold base in Hs2, Hb2. pose proof (Hfr2 _ _ Hfr1 Hs2) as Hfr2'. split; [by apply HI|]. cbn [negb wp getLastIncrAofName getNewIncrAofName incr_aof_list last app].
  apply wp_bind, wp_open; [apply Hs2|by apply HI|by intros Hcan2; split; [apply HI|]|]. intros fd s3 bs Hs3 Hf3 Hfd3 _ Hpos. subst bs. change (in_dir _) with (incr_path 1) in Hs3, Hf3, Hfd3. destruct Hfr2' as (_ & F1 & F2 & F3).
  rewrite F3 in Hf3. specialize (Hfd3 (or_intror eq_refl)). assert (in_cwd fn ∉ [incr_path 1] /\ manifest_path ∉ [incr_path 1]) as [N1 N2].
  { rewrite !list_elem_of_singleton. split; [by apply Hcwd|]. intros E. apply Hd1. rewrite E. do 1 right. left. }
  assert (fresh s3) as Hfr3. { unfold fresh. rewrite Hf3, !(same_file _ _ _ Hs3) by done. split_and!; try done. apply Hs3. }
  apply wp_bind. match goal with |- context [persistAofManifest cfg ?m] => change m with first_manifest end. eapply wp_persist; [exact Hallowed|apply Hs3|done|apply inv_ok; [eexists; apply first_inv|by eexists]| |].
  { intros s4 Hs4. assert (I s4); [|done]. apply HI. eapply fresh_same; [exact Hfr3|exact Hs4|..]; rewrite list_elem_of_singleton; [by apply Hcwd|intros E; by apply (manifest_temp_neq cfg)|].
    intros E. apply Hd1. rewrite E. left. }
  intros s4 Hs4 Ht4. assert (disk s4 first_manifest [] 0 no_data [] (-1)) as Hdk.
  { apply first_disk; [apply Hs4| |done| |]; rewrite (same_file _ _ _ Hs4); try done.
    - by rewrite (same_file _ _ _ Hs3).
    - rewrite !not_elem_of_cons. split_and!; [by apply Hcwd|by apply Hcwd|apply not_elem_of_nil].
    - rewrite (same_file _ _ _ Hs3); [done|]. fold base. intros ->%list_elem_of_singleton. apply Hd2. do 2 right. left.
    - fold base. clear -Hd2. rewrite !not_elem_of_cons in *. naive_solver. }
  assert (I s4) as HI4. { exists []. split; [apply prefix_nil|]. left. rewrite Hn. by eexists _, _, _, _. }
  split; [done|]. cbn [negb]. apply wp_bind. eapply wp_size; [exact Hallowed|apply Hs4|done|]. intros s5 Hs5. assert (file s4 (incr_path 1) = Some []) as Hf4 by (rewrite (same_file _ _ _ Hs4); done).
  change (in_dir _) with (incr_path 1). rewrite Hf4. cbn [wp]. apply HQ. intros now.
  eapply (up_started s5 first_manifest _ [] 0 no_data fd []); [by eapply disk_nil|apply am_inv_dirty; eexists; apply first_inv|done| |done|by rewrite (same_nil _ _ _ Hs5)].
  apply Hs5; [|apply not_elem_of_nil]. by apply Hs4.
Qed.

(** ** The start of the server *)

Lemma wp_started_gc M fd size now vs s (Q : server D -> fs -> Prop) : vs `prefix_of` us -> (forall now, up (started M fd size now (apply_units no_data vs)) s vs n) ->
  (forall st' s', up st' s' vs (length vs) -> aof_buf st' = [] -> Q st' s') ->
  wp allowed I (prog_bind (aofDelHistoryFiles cfg (started M fd size now (apply_units no_data vs))) (fun '(_, st) => Ret st)) Q s.
Proof using Hset Hallowed.
  intros Hp Hup HQ. apply wp_bind. eapply (wp_weaken _ (durable vs n)).
  - eapply (wp_gc _ vs n Hallowed); [apply Hup|]. intros b am d s' Hup'. cbn. apply HQ; [|done]. eapply up_synced; [exact Hup'|done|by left].
  - intros s' (us' & Hp' & H). exists us'. split; [by etrans|done].
Qed.

Lemma wp_start pid now s (Q : server D -> fs -> Prop) : durable us n s ->
  (forall k st' s', (n <= k <= length us)%nat -> up st' s' (take k us) k -> aof_buf st' = [] -> Q st' s') ->
  wp allowed I (server_start exec lookup rdb_load dump no_data cfg pid now) Q s.
Proof using Hset Hallowed.
  intros (us' & Hp & [(am & ds & q & sel & Hd)|(Hfr & -> & Hn)]) HQ; unfold server_start.
  - apply wp_bind. eapply wp_load_manifest; [exact Hp|exact Hd|]. intros s1 Hs1. apply wp_bind. eapply wp_load_data; [exact Hp|by eapply disk_nil|]. intros k s2 Hk Hd2.
    assert (take k us' `prefix_of` us) as Hpk by (etrans; [apply prefix_take|done]). apply wp_bind. eapply wp_open_last; [exact Hpk|exact Hd2|]. intros M fd size s3 Hup.
    eapply wp_started_gc; [exact Hpk|exact Hup|]. intros st' s' Hup' Hbuf. apply prefix_length in Hp as Hle. apply (HQ k); [lia| |done]. destruct Hp as [v ->]. rewrite take_app_le by lia. rewrite length_take_le in Hup' by lia. done.
  - pose proof (fresh_durable s Hfr Hn) as HI. apply wp_bind. unfold aofLoadManifestFromDisk. destruct Hfr as (Hwf & F1 & F2 & F3). apply wp_bind, wp_stat; [done|done|]. intros s1 Hs1. rewrite F2. cbn [is_err wp].
    assert (forall s', same_but [] s s' -> fresh s') as Hfr. { intros s' Hs. unfold fresh. rewrite !(same_nil _ _ _ Hs). split_and!; try done. apply Hs. }
    apply wp_bind. unfold Aof.loadDataFromDisk, Aof.loadAppendOnlyFiles. apply wp_bind, wp_bind, wp_no_upgrade; [apply Hs1|by apply fresh_durable, Hn; apply Hfr|by rewrite (same_nil _ _ _ Hs1)|]. intros s2 Hs2.
    rewrite decide_True by done. cbn [wp]. rewrite decide_False by by intros [?|?]. cbn [wp]. apply wp_bind, wp_open_fresh; [apply Hfr; by eapply same_but_trans|done|]. intros M fd size s3 Hup.
    eapply (wp_started_gc M fd size now []); [done|by rewrite Hn|]. intros st' s' Hup' Hbuf. by apply (HQ 0%nat); [lia|..].
Qed.
End start.

(** ** The system *)

Notation flushAppendOnlyFile := (flushAppendOnlyFile cfg).
Notation child_program pid d := (rewriteAppendOnlyFile dump pid (in_cwd (temp_bg pid)) d).
Notation start_program pid now := (server_start exec lookup rdb_load dump no_data cfg pid now).

(** A running server, or a file system that a dead one leaves; [us] are the
    units executed so far, of which at least [n] are in the files. *)
Inductive system :=
  | Up (st : server D) (s : fs) (us : list exec_unit) (n : nat)
  | Down (s : fs) (us : list exec_unit) (n : nat).

(** What a running server does, with the answers it may get: a flush, the start
    of a rewrite, the deletion of history files, and the end of a child that
    failed, was killed, or has just written its file. *)
Inductive operation (st : server D) : (fs -> call -> answer -> Prop) -> prog (server D) -> Prop :=
  | op_flush force e : operation st (fair txns) (flushAppendOnlyFile force e st)
  | op_rewrite e : curr_incr_file_seq (aof_manifest st) + 1 < 2 ^ 62 ->
      operation st (fair_rewrite txns (aof_fd st)) (prog_bind (rewriteAppendOnlyFileBackground cfg e st) (fun '(_, st) => Ret st))
  | op_gc : operation st (fair txns) (prog_bind (aofDelHistoryFiles cfg st) (fun '(_, st) => Ret st))
  | op_child_died exitcode bysignal : ~ (bysignal = 0 /\ exitcode = 0) -> curr_base_file_seq (aof_manifest st) + 1 < 2 ^ 62 ->
      operation st (fair txns) (checkChildrenDone cfg exitcode bysignal st)
  | op_child_done pid d : child st = AofChild pid d -> curr_base_file_seq (aof_manifest st) + 1 < 2 ^ 62 ->
      operation st (fair txns) (prog_bind (child_program pid d) (fun ok => checkChildrenDone cfg (if ok then 0 else 1) 0 st)).

(** All answers in an execution are allowed. *)
Definition trace_ok (allowed : fs -> call -> answer -> Prop) (tr : list (fs * call * answer)) : Prop := Forall (fun '(s, c, a) => allowed s c a) tr.

(** The histories.  After a restart the executed units are the [k] whose effect
    the server has loaded; [aof_durable] shows that there is such a [k]. *)
Inductive reach : system -> Prop :=
  | r_empty : reach (Down fs_empty [] 0)
  | r_unit st s us n now u st' : reach (Up st s us n) -> unit_fine u -> propagatePendingCommands exec junk cfg now u st = Some st' -> reach (Up st' s (us ++ [u]) n)
  | r_done st s us n allowed p rs tr st' s' : reach (Up st s us n) -> operation st allowed p -> run p s rs = (Done st' s', tr) -> trace_ok allowed tr ->
      reach (Up st' s' us (acked st' us n))
  | r_stop st s us n allowed p rs o tr s' : reach (Up st s us n) -> operation st allowed p -> run p s rs = (o, tr) -> o = Exited s' \/ o = Killed s' -> trace_ok allowed tr ->
      reach (Down s' us n)
  | r_child st s us n pid d rs o tr s' : reach (Up st s us n) -> run (child_program pid d) s rs = (o, tr) -> o = Killed s' \/ (exists b, o = Done b s') -> trace_ok (fair txns) tr ->
      reach (Up st s' us n)
  | r_crash st s us n : reach (Up st s us n) -> reach (Down s us n)
  | r_restart s us n pid now rs tr st' s' k : reach (Down s us n) -> run (start_program pid now) (fs_crash s) rs = (Done st' s', tr) -> trace_ok (fair txns) tr ->
      (n <= k <= length us)%nat -> dataset st' = apply_units no_data (take k us) -> reach (Up st' s' (take k us) k)
  | r_no_start s us n pid now rs o tr s' : reach (Down s us n) -> run (start_program pid now) (fs_crash s) rs = (o, tr) -> o = Exited s' \/ o = Killed s' -> trace_ok (fair txns) tr ->
      reach (Down s' us n).

Definition sys_inv (x : system) : Prop :=
  match x with
  | Up st s us n => up st s us n
  | Down s us n => durable us n s
  end.

Lemma wp_operation st s us n allowed p : up st s us n -> operation st allowed p -> wp allowed (durable us n) p (fun st' s' => up st' s' us (acked st' us n)) s.
Proof using Hset.
  intros Hup Hop. pose proof (up_bound _ _ _ _ _ Hup) as Hn. destruct Hop as [force e|e Hlt| |x y Hxy Hlt|pid d Hch Hlt].
  - eapply (wp_flush (fair txns)); [done|done|exact Hup|]. intros st' s' _ (H & E & _). unfold up. by rewrite E.
  - apply wp_bind. eapply wp_rewrite; [exact Hup|done|]. intros b st' s' H. done.
  - apply wp_bind. eapply (wp_gc (fair txns)); [done|exact Hup|]. intros b am d s' H. cbn. apply up_acked. unfold up.
    by replace (aof_feed (set_manifest st (set_dirty am d))) with (aof_feed st) by by destruct st.
  - eapply (wp_children (fair txns)); [done|exact Hup| |done|]; [intros ? ? ? -> ->; by destruct Hxy|]. intros st' s' H. by apply up_acked.
  - destruct (temps_unprotected pid (aof_manifest st)) as [T1 T2].
    assert (forall s', same_but [in_cwd (temp_fg pid); in_cwd (temp_bg pid)] s s' -> up st s' us n) as Hframe by (intros; eapply up_frame; [exact Hup|done|by repeat constructor]).
    apply wp_bind, (wp_rewrite_file (fair txns)); [done|by eapply up_wf| | |].
    + apply temp_names_neq.
    + intros s' Hs. assert (up st s' us n) as H. { apply Hframe. eapply same_but_mono; [exact Hs|intros x ->%list_elem_of_singleton; left]. }
      split; [by eapply up_durable|]. intros _. eapply (wp_children (fair txns)); [done|exact H|done|done|]. intros st' s2 H2. by apply up_acked.
    + intros s' Hs Hf. split; [by eapply up_durable, Hframe|]. eapply (wp_children (fair txns)); [done|by apply Hframe| |done|].
      * intros pid' d' E _ _. rewrite Hch in E. by injection E as <- <-.
      * intros st' s2 H2. by apply up_acked.
Qed.

(** A child leaves the files of the log alone, whatever becomes of it. *)
Lemma up_child st s us n pid d rs o tr s' : up st s us n -> run (child_program pid d) s rs = (o, tr) -> o = Killed s' \/ (exists b, o = Done b s') -> trace_ok (fair txns) tr -> up st s' us n.
Proof using Hset.
  intros Hup Hrun Ho Htr. destruct (temps_unprotected pid (aof_manifest st)) as [T1 T2].
  assert (forall s', same_but [in_cwd (temp_fg pid); in_cwd (temp_bg pid)] s s' -> up st s' us n) as Hframe by (intros; eapply up_frame; [exact Hup|done|by repeat constructor]).
  assert (wp (fair txns) (fun s' => up st s' us n) (child_program pid d) (fun _ s' => up st s' us n) s) as Hwp.
  { apply (wp_rewrite_file (fair txns)); [done|by eapply up_wf| | |].
    - apply temp_names_neq.
    - intros s1 Hs. assert (up st s1 us n); [|done]. apply Hframe. eapply same_but_mono; [exact Hs|intros x ->%list_elem_of_singleton; left].
    - intros s1 Hs _. assert (up st s1 us n); [by apply Hframe|done]. }
  pose proof (wp_run _ _ _ _ _ rs Hwp) as H. rewrite Hrun in H. specialize (H Htr). by destruct Ho as [->|[b ->]].
Qed.

Lemma durable_crash us n s : durable us n s -> durable us n (fs_crash s).
Proof.
  intros (us' & Hp & [(am & ds & q & sel & Hd)|(Hfr & E)]); exists us'; (split; [done|]).
  - left. exists am, ds, q, sel. eapply disk_frame; [exact Hd|apply fs_crash_wf, Hd|done].
  - right. split; [|done]. destruct Hfr as (H1 & H2). split; [by apply fs_crash_wf|done].
Qed.

(** A server with an empty buffer, and another history of its dataset. *)
Lemma up_history st s us us' n : up st s us n -> aof_buf st = [] -> dataset st = apply_units no_data us' -> up st s us' (length us').
Proof using Hset.
  intros [H1 H2 H3 (am & ds & ap & bs & [W1 W2 W3 (seqs & b & d0 & l & bs' & W4 & W5 & W6 & W7 & W8 & W9 & Hlf)] & Hrest)] Hb Hd. split; [done|done|done|].
  rewrite Hb in *. exists am, ds, ap, bs. split; [|done]. split; try done. exists seqs, b, d0, l, bs'. split_and!; try done.
  destruct (last_file_complete _ _ _ _ _ Hlf) as (cs & id & -> & Hcs & Hr & Ha). eexists cs, [], _, id, us', []. rewrite !app_nil_r. split_and!; try done. by rewrite <- Hd, H3.
Qed.

Lemma wp_start_down us n s pid now : durable us n s ->
  wp (fair txns) (durable us n) (start_program pid now) (fun st' s' => aof_buf st' = [] /\ exists k, (n <= k <= length us)%nat /\ up st' s' (take k us) k) (fs_crash s).
Proof using Hset. intros H. eapply (wp_start (fair txns)); [done|by apply durable_crash|]. intros k st' s' Hk Hup Hb. split; [done|]. by exists k. Qed.

Lemma reach_inv x : reach x -> sys_inv x.
Proof using Hset.
  induction 1 as [|st s us n now u st' _ IH Hu Hp|st s us n al p rs tr st' s' _ IH Hop Hrun Htr|st s us n al p rs o tr s' _ IH Hop Hrun Ho Htr|st s us n pid d rs o tr s' _ IH Hrun Ho Htr|
    st s us n _ IH|s us n pid now rs tr st' s' k _ IH Hrun Htr Hk Hd|s us n pid now rs o tr s' _ IH Hrun Ho Htr]; cbn [sys_inv] in *.
  - exists []. split; [done|]. right. split; [|done]. split; [apply fs_empty_wf|done].
  - destruct (up_unit st s us n now u IH Hu) as (st1 & E & H). rewrite Hp in E. by injection E as <-.
  - pose proof (wp_run _ _ _ _ _ rs (wp_operation _ _ _ _ _ _ IH Hop)) as H. rewrite Hrun in H. by specialize (H Htr).
  - pose proof (wp_run _ _ _ _ _ rs (wp_operation _ _ _ _ _ _ IH Hop)) as H. rewrite Hrun in H. specialize (H Htr). destruct Ho as [->| ->]; [apply H|done].
  - by eapply up_child.
  - by eapply up_durable.
  - pose proof (wp_run _ _ _ _ _ rs (wp_start_down us n s pid now IH)) as H. rewrite Hrun in H. destruct (H Htr) as (Hb & k' & Hk' & Hup).
    replace k with (length (take k us)) at 2 by (rewrite length_take; lia). by eapply up_history.
  - pose proof (wp_run _ _ _ _ _ rs (wp_start_down us n s pid now IH)) as H. rewrite Hrun in H. specialize (H Htr). destruct Ho as [->| ->]; [apply H|done].
Qed.




(** C1: durability.  Take any history of a server that executes units, flushes
    the log, rewrites it in a child and deletes old files, in which the process
    dies at any system call and calls fail or write less than asked, except for
    the answers that [fair] excludes (a failing [stat] or [fsync] of the
    directory, an [ftruncate] that succeeds on a file without O_APPEND, and
    partial writes when units are transactions) and, when a rewrite starts,
    [fair_rewrite] (a failing write of the log buffer).  When the server is
    started on the files that are left, in an environment with the same
    exclusions, it never fails an assertion, and if the start completes its
    dataset is that of a prefix of the executed units, which has all units that
    had been written by a flush. *)
Theorem aof_durable s us n pid now rs o tr : reach (Down s us n) -> run (start_program pid now) (fs_crash s) rs = (o, tr) -> trace_ok (fair txns) tr ->
  match o with
  | Done st' _ => exists k, (n <= k <= length us)%nat /\ dataset st' = apply_units no_data (take k us)
  | Aborted => False
  | Exited _ | Killed _ => True
  end.
Proof using Hset.
  intros Hr Hrun Htr. pose proof (wp_run _ _ _ _ _ rs (wp_start_down us n s pid now (reach_inv _ Hr))) as H. rewrite Hrun in H. specialize (H Htr). destruct o as [st' s'| | |]; try done.
  destruct H as (_ & k & Hk & Hup). exists k. split; [done|apply Hup].
Qed.


(** C5: a running server.  In every state reached by a history that [fair] and
    [fair_rewrite] allow, as in C1, the dataset is that of the executed units,
    every further unit is executed and logged, and no flush, start of a rewrite,
    end of a child or clean-up fails an assertion, for all answers of its calls
    that [fair], or [fair_rewrite] at the start of a rewrite, allows. *)
Theorem aof_running st s us n : reach (Up st s us n) ->
  dataset st = apply_units no_data us /\
  (forall now u, unit_fine u -> exists st', propagatePendingCommands exec junk cfg now u st = Some st' /\ dataset st' = apply_units no_data (us ++ [u])) /\
  (forall allowed p rs o tr, operation st allowed p -> run p s rs = (o, tr) -> trace_ok allowed tr -> o <> Aborted).
Proof using Hset.
  intros Hr%reach_inv. cbn in Hr. split_and!; [apply Hr| |].
  - intros now u Hu. destruct (up_unit st s us n now u Hr Hu) as (st' & E & Hup). exists st'. split; [done|apply Hup].
  - intros allowed p rs o tr Hop Hrun Htr ->. pose proof (wp_run _ _ _ _ _ rs (wp_operation _ _ _ _ _ _ Hr Hop)) as H. rewrite Hrun in H. by specialize (H Htr).
Qed.
End durable.

(** ** A server to evaluate

    The dataset is a string, each command appends its last argument. *)

Definition demo_append (d : bytes) (id : Z) (argv : args) : bytes := d ++ default [] (last argv).
Definition demo_dump (d : bytes) : bytes := lit "REDIS0011" ++ d.
Definition demo_rdb_load (_ file : bytes) : option (bytes * bytes) := Some (drop 9 file, []).
Definition demo_cfg : config := Config (lit "appendonly.aof") AOF_FSYNC_EVERYSEC true true false false false 16.

Lemma demo_setting : setting demo_append demo_lookup demo_rdb_load demo_dump [] demo_cfg.
Proof.
  split; [apply demo_table|done|apply demo_filename_ok|done|done| |]; [by split|]. intros pid. by split.
Qed.

(** An execution in which every call succeeds. *)
Definition fairb (s : fs) (c : call) (a : answer) : bool :=
  match c, a with
  | CFsyncDir, (ANoEnt | AErr) | CStat _, AErr | CFtruncate _ _, ANum _ | CWrite _ _, (AData _ | ANoEnt | AErr) => false
  | CWrite _ bs, ANum n => bool_decide (n = zlen bs)
  | _, _ => true
  end.

Definition ok_run {A} (p : prog A) (s : fs) : option (A * fs) :=
  match run p s (replicate 100 ROk) with
  | (Done a s', tr) => if forallb (fun '(s, c, a) => fairb s c a) tr then Some (a, s') else None
  | _ => None
  end.

Lemma fairb_ok txns fd s c a : fairb s c a = true -> fair_rewrite txns fd s c a.
Proof. unfold fairb, fair_rewrite, fair. destruct c, a; try done. intros ->%bool_decide_eq_true. split; [by right|done]. Qed.

Lemma trace_rewrite txns fd tr : trace_ok (fair_rewrite txns fd) tr -> trace_ok (fair txns) tr.
Proof. intros H. eapply Forall_impl; [exact H|]. by intros [[s c] a] [Hf _]. Qed.

Lemma ok_run_ok {A} (p : prog A) s a s' : ok_run p s = Some (a, s') -> exists tr, run p s (replicate 100 ROk) = (Done a s', tr) /\ forall txns fd, trace_ok (fair_rewrite txns fd) tr.
Proof.
  unfold ok_run. destruct (run _ _ _) as [[a0 s0| | |] tr] eqn:E; try done. destruct (forallb _ tr) eqn:F; [|done]. intros [= <- <-]. exists tr. split; [done|]. intros txns fd.
  apply Is_true_true, forallb_True in F. eapply Forall_impl; [exact F|]. intros [[x c] r]. cbn. intros H%Is_true_true. by apply fairb_ok.
Qed.

Notation demo_start pid := (server_start demo_append demo_lookup demo_rdb_load demo_dump [] demo_cfg pid 100).
Notation demo_unit u st := (propagatePendingCommands demo_append (fun _ => 7) demo_cfg 100 u st).
Notation demo_flush st := (flushAppendOnlyFile demo_cfg true (Env 100 false) st).
Definition demo_rewrite (st : server bytes) : prog (server bytes) := prog_bind (rewriteAppendOnlyFileBackground demo_cfg (Env 100 false) st) (fun '(_, st) => Ret st).
Definition demo_child (st : server bytes) : prog (server bytes) :=
  match child st with
  | AofChild pid d => prog_bind (rewriteAppendOnlyFile demo_dump pid (in_cwd (temp_bg pid)) d) (fun ok => checkChildrenDone demo_cfg (if ok then 0 else 1) 0 st)
  | _ => Abort
  end.

Definition u1 : bool * list (Z * args) := (false, [(0, demo_set "a" "1")]).
Definition u2 : bool * list (Z * args) := (true, [(3, demo_set "b" "2"); (3, demo_set "c" "3")]).
Definition u3 : bool * list (Z * args) := (false, [(0, demo_set "d" "4")]).

(** Start, a unit, a flush, a rewrite with a unit while the child works, and a
    last unit that is not flushed. *)
Definition demo_history : option (server bytes * fs * nat) :=
  '(st, s) ← ok_run (demo_start 1) (fs_crash fs_empty);
  _ ← assert (dataset st = []);
  st ← demo_unit u1 st;
  '(st, s) ← ok_run (demo_flush st) s;
  let n := acked st [u1] 0 in
  _ ← assert (curr_incr_file_seq (aof_manifest st) + 1 < 2 ^ 62);
  '(st, s) ← ok_run (demo_rewrite st) s;
  let n := acked st [u1] n in
  st ← demo_unit u2 st;
  '(st, s) ← ok_run (demo_flush st) s;
  let n := acked st [u1; u2] n in
  _ ← assert (curr_base_file_seq (aof_manifest st) + 1 < 2 ^ 62);
  '(st, s) ← ok_run (demo_child st) s;
  let n := acked st [u1; u2] n in
  st ← demo_unit u3 st;
  Some (st, s, n).

Notation demo_reach := (reach demo_append demo_lookup demo_rdb_load demo_dump [] (fun _ => 7) demo_cfg true).

Lemma demo_fine u : u ∈ [u1; u2; u3] -> unit_fine demo_lookup demo_cfg true u.
Proof. intros H. split; [|done]. rewrite !elem_of_cons, elem_of_nil in H. destruct H as [->|[->|[->|[]]]]; change (dbnum demo_cfg) with 16; unfold u1, u2, u3; demo_units. Qed.

Lemma demo_fine1 : unit_fine demo_lookup demo_cfg true u1.
Proof. apply demo_fine. left. Qed.
Lemma demo_fine2 : unit_fine demo_lookup demo_cfg true u2.
Proof. apply demo_fine. right. left. Qed.
Lemma demo_fine3 : unit_fine demo_lookup demo_cfg true u3.
Proof. apply demo_fine. do 2 right. left. Qed.

(** The first start. *)
Lemma demo_first st s : ok_run (demo_start 1) (fs_crash fs_empty) = Some (st, s) -> dataset st = [] -> demo_reach (Up st s [] 0).
Proof.
  intros (tr & Hrun & Htr)%ok_run_ok Hd. apply (r_restart _ _ _ _ _ _ _ _ fs_empty [] 0 1 100 (replicate 100 ROk) tr st s 0); [constructor|exact Hrun|apply (trace_rewrite true 0), Htr|split; constructor|exact Hd].
Qed.

Lemma demo_operation st s us n allowed p st' s' : demo_reach (Up st s us n) -> operation demo_dump demo_cfg true st allowed p -> ok_run p s = Some (st', s') -> demo_reach (Up st' s' us (acked st' us n)).
Proof.
  intros Hr Hop (tr & Hrun & Htr)%ok_run_ok. eapply r_done; [exact Hr|exact Hop|exact Hrun|].
  destruct Hop; first [apply Htr|apply (trace_rewrite true 0), Htr].
Qed.

Lemma demo_history_flushed : snd <$> demo_history = Some 2%nat.
Proof. vm_compute. reflexivity. Qed.

Lemma demo_history_reach : match demo_history with Some (st, s, n) => demo_reach (Up st s [u1; u2; u3] n) /\ n = 2%nat | None => False end.
Proof.
  pose proof demo_history_flushed as Hn. destruct demo_history as [[[st s] n]|] eqn:E; [|discriminate Hn]. split; [|by injection Hn]. clear Hn. unfold demo_history in E.
  apply bind_Some in E as ([st0 s0] & E0 & (_ & A0%assert_Some & (st1 & E1 & ([st2 s2] & E2 & (_ & A2%assert_Some & ([st3 s3] & E3 & (st4 & E4 & E)%bind_Some)%bind_Some)%bind_Some)%bind_Some)%bind_Some)%bind_Some).
  apply bind_Some in E as ([st5 s5] & E5 & (_ & A5%assert_Some & ([st6 s6] & E6 & (st7 & E7 & [= <- <- <-])%bind_Some)%bind_Some)%bind_Some).
  apply (r_unit _ _ _ _ _ _ _ _ st6 s6 [u1; u2] _ 100 u3); [|apply demo_fine3|exact E7].
  unfold demo_child in E6. destruct (child st5) as [|pid d|] eqn:Hch; [discriminate E6| |discriminate E6].
  eapply demo_operation; [|exact (op_child_done _ _ _ _ pid d Hch A5)|exact E6]. eapply demo_operation; [|apply op_flush|exact E5].
  apply (r_unit _ _ _ _ _ _ _ _ st3 s3 [u1] _ 100 u2); [|apply demo_fine2|exact E4].
  eapply demo_operation; [|apply op_rewrite; exact A2|exact E3]. eapply demo_operation; [|apply op_flush|exact E2].
  apply (r_unit _ _ _ _ _ _ _ _ st0 s0 [] _ 100 u1); [exact (demo_first _ _ E0 A0)|apply demo_fine1|exact E1].
Qed.

(** The history and a restart. *)
Definition demo_restart : option (fs * nat * server bytes) :=
  '(_, s, n) ← demo_history;
  '(st', _) ← ok_run (demo_start 2) (fs_crash s);
  Some (s, n, st').

Lemma demo_restarted : dataset ∘ snd <$> demo_restart = Some (lit "123").
Proof. vm_compute. reflexivity. Qed.

Lemma aof_durable_witness :
  match demo_restart with
  | Some (s, n, st') => demo_reach (Down s [u1; u2; u3] n) /\ n = 2%nat /\ exists k, (n <= k <= 3)%nat /\ dataset st' = apply_units demo_append [] (take k [u1; u2; u3])
  | None => False
  end.
Proof.
  pose proof demo_history_reach as H. pose proof demo_restarted as Hd. destruct demo_restart as [[[s n] st']|] eqn:E; [|discriminate Hd]. clear Hd. unfold demo_restart in E.
  apply bind_Some in E as ([[st s0] n0] & E0 & ([st1 s1] & (tr & Hrun & Htr)%ok_run_ok & [= -> -> ->])%bind_Some). rewrite E0 in H. destruct H as [Hr Hn].
  apply r_crash in Hr. split; [exact Hr|split; [exact Hn|]].
  exact (aof_durable demo_append demo_lookup demo_rdb_load demo_dump [] (fun _ => 7) demo_cfg true demo_setting s [u1; u2; u3] n 2 100 _ _ _ Hr Hrun (trace_rewrite true 0 _ (Htr true 0))).
Defined.


Lemma aof_running_witness :
  match demo_history with
  | Some (st, s, n) => dataset st = lit "1234" /\ exists st', demo_unit u1 st = Some st' /\ dataset st' = lit "12341"
  | None => False
  end.
Proof.
  pose proof demo_history_reach as H. destruct demo_history as [[[st s] n]|]; [|exact H]. destruct H as [Hr _].
  destruct (aof_running demo_append demo_lookup demo_rdb_load demo_dump [] (fun _ => 7) demo_cfg true demo_setting st s [u1; u2; u3] n Hr) as (Hd & Hu & _).
  split; [exact Hd|]. exact (Hu 100 u1 demo_fine1).
Defined.

(** ** What the provisos exclude *)

Definition completed {A} (x : outcome A * list (fs * call * answer)) : option (A * fs) := match x.1 with Done a s => Some (a, s) | _ => None end.

(** The dataset after a restart in which every call succeeds; [inr] when the
    server refuses to start. *)
Definition restarted (s : fs) : option (bytes + unit) :=
  match (run (demo_start 2) (fs_crash s) (replicate 100 ROk)).1 with
  | Done st _ => Some (inl (dataset st))
  | Exited _ => Some (inr tt)
  | _ => None
  end.

Notation ok := (replicate 100 ROk).

(** A short write to a file that a rewrite has opened, without O_APPEND: the
    truncation does not move the offset, the next write leaves a hole of zeros
    before it, and the log with the flushed unit does not load. *)
Example hole_after_short_write :
  ('(st, s) ← completed (run (demo_start 1) fs_empty ok);
   '(st, s) ← completed (run (demo_rewrite st) s ok);
   '(st, s) ← completed (run (demo_child st) s ok);
   st ← demo_unit u1 st;
   '(st, s) ← completed (run (demo_flush st) s ([RShort 5; RErr; ROk] ++ ok));
   '(st, s) ← completed (run (demo_flush st) s ok);
   Some (aof_buf st, aof_last_write_ok st, restarted s)) = Some ([], true, Some (inr tt)).
Proof. vm_compute. reflexivity. Qed.

(** The directory cannot be synced after the manifest was renamed: the new base
    file is deleted, and the manifest on disk names it. *)
Example base_deleted_after_fsync_error :
  ('(st, s) ← completed (run (demo_start 1) fs_empty ok);
   st ← demo_unit u1 st;
   '(st, s) ← completed (run (demo_flush st) s ok);
   '(st, s) ← completed (run (demo_rewrite st) s ok);
   '(st, s) ← completed (run (demo_child st) s (replicate 10 ROk ++ [RErr] ++ ok));
   Some (restarted s)) = Some (Some (inr tt)).
Proof. vm_compute. reflexivity. Qed.

(** The flush at the start of a rewrite fails: the buffer is part of the dataset
    that the child saves, and is written to the new incremental file as well. *)
Example unit_logged_twice :
  ('(st, s) ← completed (run (demo_start 1) fs_empty ok);
   st ← demo_unit u1 st;
   '(st, s) ← completed (run (demo_rewrite st) s ([ROk; RErr] ++ ok));
   '(st, s) ← completed (run (demo_child st) s ok);
   '(st, s) ← completed (run (demo_flush st) s ok);
   Some (dataset st, restarted s)) = Some (lit "1", Some (inl (lit "11"))).
Proof. vm_compute. reflexivity. Qed.

(** [stat] of the manifest fails: the server starts with no data. *)
Example manifest_stat_error :
  ('(st, s) ← completed (run (demo_start 1) fs_empty ok);
   st ← demo_unit u1 st;
   '(st, s) ← completed (run (demo_flush st) s ok);
   '(st, s) ← completed (run (demo_start 2) (fs_crash s) (RErr :: ok));
   Some (dataset st)) = Some [].
Proof. vm_compute. reflexivity. Qed.
